(* ===== verification/_CoqProject ===== *)
-Q . S2P
Prelude.v
Coding.v
Message.v
Codec.v
RunLength.v
Transport.v
Shutdown.v
Heap.v
SendQueue.v
Router.v
Collector.v
Peer.v
Node.v
Timer.v
NodeAPI.v
Host.v
Sample.v
Raft.v
RaftFacts.v
RaftNet.v
RaftBounds.v
RaftElection.v
RaftLog.v
RaftApply.v
RaftTraces.v
RaftTalk.v
RaftLive.v
RaftCommit.v
Lww.v
Gossip.v
GossipNet.v
WeakNet.v
WeakNetFacts.v
WeakNetNet.v
Stack.v
StackRun.v
StackLive.v
Agents.v
Cluster.v
ClusterLive.v
ClusterTraces.v
GossipCluster.v
WeakCluster.v
GossipLive.v
GossipClusterLive.v
GoFloat.v
Snapshot.v
Reporter.v
Config.v
NodeCmd.v
NodeMain.v
Bench.v
BenchMain.v
Wire.v
