(* ===== verification/Prelude.v ===== *)
(** A verification library for the UAV communication framework (a Go program).

    The program is a layered node: a transport (TCP or UDP) carries encoded
    messages; the node runtime filters what arrives, queues what leaves by
    priority, keeps the peers and the timers; an algorithm (Raft, gossip or
    weaknet) is plugged in through the interfaces Algorithm and NodeAPI.

    * Files and what they model (all paths under src/)

    - [Prelude]: machine integers with their wrap-around, bytes, panics and
      errors, slices; the notations, hints and tactics all files share.
      [Coding]: a concrete serialisation of countable types, for witnesses.
    - [Message]: pkg/message/message.go.  [Codec]: node/transport/codec/codec.go;
      [RunLength]: a compressor that instantiates its class of zlib.
    - [Transport]: framing, receive channel and connection pool of
      node/transport/tcp/tcp.go, and the datagram path of udp/udp.go.
      [Wire]: the interface of node/transport/transport.go as the class
      [Transport] with its laws, the UDP and the TCP transport as instances,
      and the node's send loop over any of them.  [Shutdown]: the goroutines of
      both transports from Start to the return of Stop, as steps.
    - [Heap]: the loops of Go's container/heap.  [SendQueue] and [Router]:
      node/runtime/router.go.  [Peer]: node/runtime/peer.go.  [Collector]:
      node/metrics/collector.go.  [Node]: node/runtime/node.go.
      [GoFloat]: IEEE doubles as Go computes with them and prints them.
      [Snapshot]: node/metrics/snapshot.go.  [Reporter]: node/metrics/reporter.go.
      [Config]: node/config/config.go.
      [Timer]: node/runtime/timer.go, with its goroutines.
    - [NodeAPI]: node/algorithm/algorithm.go as a monad: a handler reads its
      environment, changes the algorithm's state, may panic, and emits the
      NodeAPI calls it makes as effects.  [Host]: the node running an
      algorithm; the class [LawfulAlgorithm] is what it relies on, and
      [Agents] has the instances for the three algorithms.
    - [Sample]: sampleN over rand.Perm, shared by gossip and weaknet.
    - Raft (node/algorithm/raft/raft.go): [Raft] has the handlers; [RaftFacts]
      their specifications; [RaftNet] the cluster as a step relation over a
      network that loses, duplicates and reorders; [RaftBounds], [RaftElection],
      [RaftLog] and [RaftApply] the invariants; [RaftTraces] executed runs;
      [RaftTalk] what progress needs of a network, as a class, and over it
      [RaftLive] that an election stays possible, [RaftCommit] that a leader
      can always get a command committed.
    - Gossip (node/algorithm/gossip/gossip.go): [Lww] is the merge, shared with
      weaknet; [Gossip] the handlers, [GossipNet] the cluster.
    - WeakNet (node/algorithm/weaknet/weaknet.go): [WeakNet] the handlers,
      [WeakNetFacts] their specifications, [WeakNetNet] the cluster.
    - The whole stack: [Stack] runs any lawful algorithm on nodes with their
      queues, routers and timers, over a network that loses and repeats what
      they transmit, and simulates it in an abstract network of handlers;
      [StackRun] executes schedules.  [Cluster], [GossipCluster] and
      [WeakCluster] take the abstract network to [RaftNet], [GossipNet] and
      [WeakNetNet]; [ClusterTraces] is an executed Raft cluster.  [GossipLive]
      is about the progress gossip can make, [StackLive] about the progress
      whole nodes can make (what is queued can be transmitted, what is new is
      accepted); [ClusterLive] and [GossipClusterLive] use it for Raft and
      gossip on them.
    - Commands: [NodeCmd] is what cmd/node/main.go builds from its flags,
      [NodeMain] its run to the exit code; [Bench] has the parts of
      cmd/gossip_bench/main.go and what they mean for the nodes, [BenchMain]
      its run.

    * Conventions

    An integer of width w is a Z; [a +[w] b] and [a -[w] b] wrap.  An operation
    that can panic returns an [outcome], one that returns an error a [result].
    A mutex-protected operation is one function; goroutines that interleave are
    steps.  Clocks, map iteration orders and random draws are arguments, so a
    theorem that quantifies over them holds for every one; a loop over a map
    that filters, copies or counts its entries is written as that operation, and
    the merge of gossip.go as a fold whose order is proved not to matter (C34).
    Definitions keep the names of the source where possible; the method Set is
    [SetKey] or [SetTimer].  Code outside the repository is a class with its law: [Zlib]
    (decompressing undoes compressing), [Json], [GossipJson] and [WeakJson]
    (unmarshalling undoes marshalling, for the values the algorithms build).

    * What the theorems show

    - Transport of bytes: the encoding is the documented layout; decoding
      inverts it, accepts exactly the layouts and never panics; a TCP stream of
      frames is read as the list of its messages; a frame above 65536
      bytes is lost.  Over either transport the receiver's channel holds the
      last messages, up to its capacity, of those the sender queued for it, in
      priority order.  Stopping UDP ends within a
      bounded number of steps; stopping TCP waits for the peers.
    - Runtime: the send queue refines a sorted bounded list; the router accepts
      each (sender, stream, number) at most once within and across its window,
      which holds exactly the numbers less than 256 behind the latest;
      with a sender's numbering this gives at-most-once delivery end to end;
      the send loop serves in priority order; at most one ticker runs per timer
      name and a cancelled timer takes no new tick; a node carries out exactly
      the calls of the handlers of any lawful algorithm.
    - Metrics: the latency ring holds the last 4096 samples, and the percentiles
      of a snapshot are the entries at the exact ranks; the drop counters count
      a dropped message twice, so the drop rate never exceeds one half; the CSV
      file has one header and one row per snapshot.
    - Commands: the peer list is parsed back from its print, and [setup] builds a
      well-formed node with these peers; the node command exits with 1 on a bad
      command line and otherwise, after the signal, with 0, and when its writes
      succeed its CSV file has gained a row for every output since it could be
      opened; the benchmark builds a full mesh, exits with 0 exactly if every
      node held the agreed state when it was read, one after the other while
      they gossip on, and does so whenever it has reported a convergence.
    - Raft: election safety and log matching for an odd number of nodes; no
      handler panics while the set of peers is fixed; AppendEntries in full;
      entries are applied in order, once.  Three executed runs show where Raft's
      guarantees end: two leaders of one term in an even cluster, a committed
      entry lost in a cluster of three, a panic after a peer is added.
      From every reachable world a leader can be elected, unless the cluster
      is a single node, and a leader of the latest term can get any command
      committed and applied, whatever the logs of the others hold, in a number
      of steps that is given.  All this is carried over to clusters of whole
      nodes, safety by a simulation and progress because such nodes keep the
      promise of [RaftTalk]; and no step of such a cluster panics.
    - Gossip: merging is a join; with one writer per key a version determines
      the entry, and nodes that receive everyone's state agree; two writers of
      one key can differ for good.  From every reachable world ticks and
      deliveries alone can make all nodes agree.  On whole nodes, too, a
      version determines the entry, no node gets stuck, and all nodes can be
      brought to agree.
    - WeakNet: one exchange leaves both nodes with the join of their states;
      the delta is always the whole state; a critical message is retransmitted
      until its deadline, because no acknowledgement is ever sent: so it is on
      whole nodes, none of which gets stuck.

    * Bounds and fuel

    Raft terms and indices are uint32: the theorems on reachable states assume
    at most 2^32 - 2 steps, each of which raises a term or a log by at most
    one, so no addition wraps.  Gossip and weaknet versions are uint64, hence
    2^64 steps.  A node issues fewer than 2^32 numbers per stream; a theorem on
    progress asks that the numbers its steps need are left.  Loops that
    are not structural take fuel: the heap loops the length of the slice,
    applyCommitted the distance to the commit index, maybeCommit the length of
    the log, handleConn the number of iterations until it is stopped; each
    specification proves that the fuel given is enough.

    * Not modelled

    Sockets and the network, beyond the answers they give to a call; the Go
    scheduler, beyond the interleavings written out as steps; a CSV record
    that a failed write leaves cut off; flag parsing,
    and the delivery of signals, which are arguments of the two runs.  Durations and times are numbers
    of nanoseconds, and a formatted time is an argument.  Next in line: the
    exchange of weaknet on whole nodes, and peers that join a running one. *)
From stdpp Require Export base tactics list numbers option relations strings gmap sorting.
From Stdlib Require Export ZArith Lia.
From Stdlib Require Import Zbitwise.
From Stdlib Require Strings.Byte.

#[global] Open Scope Z_scope.

(** * Machine integers

    Go's fixed-width unsigned integers are integers in [0 .. 2^w); arithmetic
    wraps around.  [int64] is two's complement. *)

Declare Scope go_scope.
Delimit Scope go_scope with go.
#[global] Open Scope go_scope.

Definition wrap (w z : Z) : Z := z `mod` 2 ^ w.

Notation "a +[ w ] b" := (wrap w (a + b))
  (at level 50, left associativity, format "a  +[ w ]  b") : go_scope.
Notation "a -[ w ] b" := (wrap w (a - b))
  (at level 50, left associativity, format "a  -[ w ]  b") : go_scope.

Definition is_uint (w z : Z) : Prop := 0 <= z < 2 ^ w.
Definition is_int64 (z : Z) : Prop := - 2 ^ 63 <= z < 2 ^ 63.

(** Conversion of a (non-negative or wrapped) 64-bit pattern to [int64]. *)
Definition int64_of_uint64 (u : Z) : Z :=
  if decide (u < 2 ^ 63) then u else u - 2 ^ 64.

(** Conversion [uint64(x)] of an [int64]. *)
Definition uint64_of_int64 (x : Z) : Z := wrap 64 x.

#[export] Instance is_uint_dec w z : Decision (is_uint w z).
Proof. unfold is_uint. apply _. Defined.
#[export] Instance is_int64_dec z : Decision (is_int64 z).
Proof. unfold is_int64. apply _. Defined.

(** * Bytes *)

Abbreviation byte := Byte.byte.
Abbreviation bytes := (list Byte.byte).

Definition byte_of_Z (z : Z) : byte :=
  match Byte.of_N (Z.to_N (wrap 8 z)) with Some b => b | None => Byte.x00 end.
Definition Z_of_byte (b : byte) : Z := Z.of_N (Byte.to_N b).

#[export] Instance byte_eq_dec : EqDecision byte := Byte.byte_eq_dec.

(** * Panics and errors

    A Go run-time panic (index or slice out of range, closing a closed
    channel, [rand.Int63n] of a non-positive argument) ends the goroutine: an
    operation that can panic returns an [outcome].  An operation that returns
    an [error] next to its value returns a [result]. *)

Inductive panic : Set :=
  | IndexOutOfRange (i len : Z)
  | SliceOutOfRange (lo len : Z)
  | CloseOfClosedChannel
  | InvalidArgument.

Inductive outcome (A : Type) : Type :=
  | Ret (a : A)
  | Panic (p : panic).
Arguments Ret {A} a.
Arguments Panic {A} p.

Inductive result (E A : Type) : Type :=
  | Ok (a : A)
  | Err (e : E).
Arguments Ok {E A} a.
Arguments Err {E A} e.

#[export] Instance outcome_ret : MRet outcome := fun _ a => Ret a.
#[export] Instance outcome_bind : MBind outcome := fun _ _ k m =>
  match m with Ret a => k a | Panic p => Panic p end.

#[export] Instance panic_eq_dec : EqDecision panic.
Proof. solve_decision. Defined.
#[export] Instance outcome_eq_dec {A} `{EqDecision A} : EqDecision (outcome A).
Proof. solve_decision. Defined.
#[export] Instance result_eq_dec {E A} `{EqDecision E, EqDecision A} : EqDecision (result E A).
Proof. solve_decision. Defined.

Definition is_ret {A} (m : outcome A) : Prop := exists a, m = Ret a.

(** * Map iteration

    [range] visits the entries of a map in an order of the runtime's choice:
    [pick] says where each entry goes among those after it. *)
Fixpoint shuffle {A} (pick : nat -> nat) (l : list A) : list A :=
  match l with
  | [] => []
  | x :: l => let l' := shuffle pick l in take (pick (length l)) l' ++ x :: drop (pick (length l)) l'
  end.

(** * Lists as Go slices *)

(** [xs[lo:]] *)
Definition slice_from {A} (lo : Z) (xs : list A) : outcome (list A) :=
  if decide (0 <= lo <= Z.of_nat (length xs))
  then Ret (drop (Z.to_nat lo) xs)
  else Panic (SliceOutOfRange lo (Z.of_nat (length xs))).

(** [xs[:hi]] for a slice whose capacity is its length *)
Definition slice_to {A} (hi : Z) (xs : list A) : outcome (list A) :=
  if decide (0 <= hi <= Z.of_nat (length xs))
  then Ret (take (Z.to_nat hi) xs)
  else Panic (SliceOutOfRange hi (Z.of_nat (length xs))).

(** [xs[i]] *)
Definition index {A} (i : Z) (xs : list A) : outcome A :=
  match (if decide (0 <= i) then xs !! Z.to_nat i else None) with
  | Some x => Ret x
  | None => Panic (IndexOutOfRange i (Z.of_nat (length xs)))
  end.

(** [len(xs)] *)
Definition zlen {A} (xs : list A) : Z := Z.of_nat (length xs).

(** The last [n] elements. *)
Definition last_n {A} (n : nat) (xs : list A) : list A := drop (length xs - n) xs.

(** * Lemmas *)

Lemma wrap_small w z : is_uint w z -> wrap w z = z.
Proof. intros. unfold wrap. by apply Z.mod_small. Qed.

Lemma wrap_bound w z : 0 <= w -> is_uint w (wrap w z).
Proof. intros. unfold wrap, is_uint. apply Z.mod_pos_bound. lia. Qed.

Lemma int64_uint64_id x : is_int64 x -> int64_of_uint64 (uint64_of_int64 x) = x.
Proof.
  unfold is_int64, int64_of_uint64, uint64_of_int64, wrap. intros Hx.
  destruct (decide (0 <= x)) as [Hp|Hn].
  - rewrite Z.mod_small by lia. case_decide; lia.
  - replace (x `mod` 2 ^ 64) with (x + 2 ^ 64).
    + case_decide; lia.
    + rewrite <- (Z.mod_small (x + 2 ^ 64) (2 ^ 64)) by lia.
      rewrite Z.add_mod, Z.mod_same, Z.add_0_r, Z.mod_mod by lia. done.
Qed.

Lemma int64_of_uint64_range u : is_uint 64 u -> is_int64 (int64_of_uint64 u).
Proof. unfold is_uint, is_int64, int64_of_uint64. intros. case_decide; lia. Qed.

Lemma Z_of_byte_range b : 0 <= Z_of_byte b < 256.
Proof. unfold Z_of_byte. pose proof (Byte.to_N_bounded b). lia. Qed.

Lemma Z_of_byte_of_Z z : Z_of_byte (byte_of_Z z) = wrap 8 z.
Proof.
  unfold byte_of_Z, Z_of_byte.
  assert (Hb : is_uint 8 (wrap 8 z)) by (apply wrap_bound; lia).
  unfold is_uint in Hb. change (2 ^ 8) with 256 in Hb.
  destruct (Byte.of_N (Z.to_N (wrap 8 z))) as [b|] eqn:E.
  - apply Byte.to_of_N in E. rewrite E. lia.
  - apply Byte.of_N_None_iff in E. lia.
Qed.

Lemma byte_of_Z_of_byte b : byte_of_Z (Z_of_byte b) = b.
Proof.
  unfold byte_of_Z, Z_of_byte.
  pose proof (Byte.to_N_bounded b).
  rewrite wrap_small by (unfold is_uint; change (2^8) with 256; lia).
  by rewrite N2Z.id, Byte.of_to_N.
Qed.

Lemma lor_shiftl_add b x : 0 <= b < 256 -> Z.lor b (Z.shiftl x 8) = b + 256 * x.
Proof.
  intros Hb. rewrite Z.shiftl_mul_pow2 by lia.
  pose proof (Z.add_lor_land b (x * 2 ^ 8)) as E.
  assert (Z.land b (x * 2 ^ 8) = 0) as Hz; [|lia].
  apply Z.bits_inj'. intros n Hn. rewrite Z.land_spec, Z.bits_0.
  destruct (decide (n < 8)).
  - rewrite Z.mul_pow2_bits_low by lia. apply andb_false_r.
  - destruct (decide (b = 0)) as [->|Hb0]; [by rewrite Z.bits_0|].
    assert (Z.log2 b < 8) by (apply Z.log2_lt_pow2; lia).
    rewrite (Z.bits_above_log2 b) by lia. done.
Qed.

Lemma zlen_nonneg {A} (xs : list A) : 0 <= zlen xs.
Proof. unfold zlen. lia. Qed.

Lemma zlen_app {A} (xs ys : list A) : zlen (xs ++ ys) = zlen xs + zlen ys.
Proof. unfold zlen. rewrite length_app. lia. Qed.

Lemma zlen_cons {A} (x : A) xs : zlen (x :: xs) = 1 + zlen xs.
Proof. unfold zlen. cbn [length]. lia. Qed.

Lemma zlen_nil {A} : zlen (@nil A) = 0.
Proof. done. Qed.

Lemma index_Some {A} i (xs : list A) x :
  0 <= i -> xs !! Z.to_nat i = Some x -> index i xs = Ret x.
Proof. intros Hi Hx. unfold index. by rewrite decide_True, Hx. Qed.

Lemma index_Ret_inv {A} i (xs : list A) x :
  index i xs = Ret x -> 0 <= i /\ xs !! Z.to_nat i = Some x.
Proof.
  unfold index. case_decide; [|done]. destruct (xs !! Z.to_nat i) eqn:E; [|done].
  intros [= ->]. done.
Qed.

Lemma index_in_range {A} i (xs : list A) :
  0 <= i < zlen xs -> exists x, index i xs = Ret x /\ xs !! Z.to_nat i = Some x.
Proof.
  unfold zlen. intros Hi.
  destruct (lookup_lt_is_Some_2 xs (Z.to_nat i)) as [x Hx]; [lia|].
  exists x. split; [|done]. apply index_Some; [lia|done].
Qed.

Lemma slice_from_ok {A} lo (xs : list A) :
  0 <= lo <= zlen xs -> slice_from lo xs = Ret (drop (Z.to_nat lo) xs).
Proof. intros. unfold slice_from. unfold zlen in *. by rewrite decide_True by lia. Qed.

Lemma slice_to_ok {A} hi (xs : list A) :
  0 <= hi <= zlen xs -> slice_to hi xs = Ret (take (Z.to_nat hi) xs).
Proof. intros. unfold slice_to. unfold zlen in *. by rewrite decide_True by lia. Qed.

Lemma bind_Ret {A B} (a : A) (k : A -> outcome B) : (Ret a ≫= k) = k a.
Proof. done. Qed.

Lemma last_n_last_n_app {A} n (xs ys : list A) :
  last_n n (last_n n xs ++ ys) = last_n n (xs ++ ys).
Proof.
  unfold last_n. rewrite <- drop_app_le by lia.
  rewrite drop_drop, length_drop, !length_app. f_equal. lia.
Qed.

Lemma last_n_all {A} n (xs : list A) : (length xs <= n)%nat -> last_n n xs = xs.
Proof. intros Hl. unfold last_n. by replace (length xs - n)%nat with 0%nat by lia. Qed.

Lemma shuffle_perm {A} pick (l : list A) : shuffle pick l ≡ₚ l.
Proof.
  induction l as [|x l IH]; [done|]. cbn. rewrite <- Permutation_middle, take_drop. by rewrite IH.
Qed.

(** Every order is the result of some picks. *)
Lemma shuffle_onto {A} (l l' : list A) : l' ≡ₚ l -> exists pick, shuffle pick l = l'.
Proof.
  assert (Hext : forall (l : list A) p q, (forall n, (n < length l)%nat -> p n = q n) -> shuffle p l = shuffle q l).
  { clear. induction l as [|x l IH]; intros p q E; [done|]. cbn in *.
    rewrite (IH p q) by (intros; apply E; lia). by rewrite (E (length l)) by lia. }
  revert l'. induction l as [|x l IH]; intros l' Hp.
  { exists (fun _ => 0%nat). by apply Permutation_nil_r in Hp as ->. }
  symmetry in Hp. destruct (Permutation_cons_inv_l _ _ _ Hp) as (l1 & l2 & -> & Hp').
  destruct (IH (l1 ++ l2)) as [pick E]; [by symmetry|].
  exists (fun n => if decide (n = length l) then length l1 else pick n). cbn.
  rewrite decide_True by done.
  rewrite (Hext l _ pick) by (intros n Hn; rewrite decide_False; [done|lia]).
  by rewrite E, take_app_length, drop_app_length.
Qed.

Lemma elem_of_shuffle_map {K V} `{Countable K} pick (m : gmap K V) k v :
  (k, v) ∈ shuffle pick (map_to_list m) <-> m !! k = Some v.
Proof. by rewrite shuffle_perm, elem_of_map_to_list. Qed.

Lemma NoDup_fst_shuffle {K V} `{Countable K} pick (m : gmap K V) :
  NoDup (shuffle pick (map_to_list m)).*1.
Proof. rewrite shuffle_perm. apply NoDup_fst_map_to_list. Qed.

Lemma shuffle_to_map {K V} `{Countable K} pick (m : gmap K V) :
  list_to_map (shuffle pick (map_to_list m)) = m.
Proof.
  rewrite <- (list_to_map_to_list m) at 2. apply list_to_map_proper; [apply NoDup_fst_shuffle|apply shuffle_perm].
Qed.

(** * Hints and tactics *)

Create HintDb uav discriminated.
#[export] Hint Resolve zlen_nonneg Z_of_byte_range wrap_bound : uav.
Create Rewrite HintDb zlen.
#[export] Hint Rewrite @zlen_app @zlen_cons @zlen_nil : zlen.

(** [zlia]: linear arithmetic after normalising slice lengths. *)
Ltac zlia := unfold is_uint, is_int64 in *; autorewrite with zlen in *; unfold zlen in *; lia.

Lemma elem_of_concat {A} (x : A) ls : x ∈ concat ls <-> exists l, x ∈ l /\ l ∈ ls.
Proof.
  induction ls as [|l ls IH]; cbn.
  - rewrite elem_of_nil. split; [done|]. intros (l & _ & Hl). by apply elem_of_nil in Hl.
  - rewrite elem_of_app, IH. split.
    + intros [Hx|(l' & Hx & Hl)]; [exists l; split; [done|left]|exists l'; split; [done|by right]].
    + intros (l' & Hx & [->|Hl]%elem_of_cons); [by left|right; by exists l'].
Qed.

Lemma filter_agree {A} (P Q : A -> Prop) `{forall x, Decision (P x)} `{forall x, Decision (Q x)}
    (l : list A) :
  (forall x, x ∈ l -> P x <-> Q x) -> filter P l = filter Q l.
Proof.
  induction l as [|x l IH]; intros Hl; [done|]. rewrite !filter_cons, IH.
  - destruct (decide (P x)), (decide (Q x)); try done; exfalso; pose proof (Hl x ltac:(left)); tauto.
  - intros y Hy. apply Hl. by right.
Qed.

Lemma filter_none {A} (P : A -> Prop) `{forall x, Decision (P x)} (l : list A) :
  (forall x, x ∈ l -> ~ P x) -> filter P l = [].
Proof.
  induction l as [|x l IH]; intros Hl; [done|]. rewrite filter_cons, decide_False.
  - apply IH. intros y Hy. apply Hl. by right.
  - apply Hl. by left.
Qed.

Lemma filter_all {A} (P : A -> Prop) `{forall x, Decision (P x)} (l : list A) :
  (forall x, x ∈ l -> P x) -> filter P l = l.
Proof.
  induction l as [|x l IH]; intros Hl; [done|]. rewrite filter_cons, decide_True.
  - rewrite IH; [done|]. intros y Hy. apply Hl. by right.
  - apply Hl. by left.
Qed.
