(* ===== verification/Coding.v ===== *)
(** Coding: a concrete serialisation of any countable type as bytes, used to
    instantiate the JSON interfaces in witnesses: the value is numbered and the
    number is written in binary. *)
From stdpp Require Import countable.
From S2P Require Export Prelude.

#[export] Instance byte_countable : Countable byte :=
  inj_countable Byte.to_N Byte.of_N Byte.of_to_N.

Fixpoint bits_of (p : positive) : bytes :=
  match p with
  | xH => [Byte.x01] | xO p => Byte.x00 :: bits_of p | xI p => Byte.x01 :: bits_of p
  end.
Fixpoint of_bits (bs : bytes) : option positive :=
  match bs with
  | [Byte.x01] => Some xH
  | Byte.x00 :: bs => xO <$> of_bits bs
  | Byte.x01 :: bs => xI <$> of_bits bs
  | _ => None
  end.

Lemma of_bits_of p : of_bits (bits_of p) = Some p.
Proof.
  induction p as [p IH|p IH|]; cbn; [|by rewrite IH|done].
  destruct (bits_of p) eqn:E; [by destruct p|]. by rewrite IH.
Qed.

Definition code `{Countable A} (x : A) : bytes := bits_of (encode x).
Definition uncode `{Countable A} (bs : bytes) : option A := of_bits bs ≫= decode.

Lemma code_roundtrip `{Countable A} (x : A) : uncode (code x) = Some x.
Proof. unfold uncode, code. rewrite of_bits_of. cbn. apply decode_encode. Qed.

Lemma code_nonempty `{Countable A} (x : A) : code x <> [].
Proof. unfold code. by destruct (encode x). Qed.
