(* ===== verification/Message.v ===== *)
(** The message format: [src/pkg/message/message.go].

    A [Message P] is the Go struct [Message] with its [Payload] of type [P].
    On the wire and in the queues [P] is [bytes]; the algorithm components
    first build messages whose payload is still a typed value. *)
From S2P Require Import Prelude.

(** [MessageType] and [Priority] are [uint8] newtypes. *)
Definition TypeHeartbeat : Z := 0.
Definition TypeState : Z := 1.
Definition TypeControl : Z := 2.
Definition TypeConsensus : Z := 3.
Definition TypeCustom : Z := 4.

Definition MessageType_String (t : Z) : string :=
  if decide (t = TypeHeartbeat) then "HEARTBEAT"
  else if decide (t = TypeState) then "STATE"
  else if decide (t = TypeControl) then "CONTROL"
  else if decide (t = TypeConsensus) then "CONSENSUS"
  else if decide (t = TypeCustom) then "CUSTOM"
  else "UNKNOWN".

Definition PriorityCollision : Z := 0.
Definition PriorityState : Z := 1.
Definition PriorityTask : Z := 2.
Definition PriorityDebug : Z := 3.

Definition TTLCollision : Z := 100.
Definition TTLState : Z := 500.
Definition TTLDefault : Z := 1000.
Definition TTLForever : Z := 0.

Definition BroadcastID : Z := 0.

Definition HeaderSize : Z := 1 + 2 + 2 + 4 + 8 + 8 + 1 + 2 + 1 + 4.

Record Message (P : Type) := mkMessage {
  Type_ : Z;       (* uint8  *)
  From : Z;        (* uint16 *)
  To : Z;          (* uint16 *)
  Seq : Z;         (* uint32 *)
  Timestamp : Z;   (* int64  *)
  DataTime : Z;    (* int64  *)
  StreamID : Z;    (* uint8  *)
  TTL : Z;         (* uint16 *)
  Priority : Z;    (* uint8  *)
  Payload : P
}.
Arguments mkMessage {P}.
Arguments Type_ {P}. Arguments From {P}. Arguments To {P}. Arguments Seq {P}.
Arguments Timestamp {P}. Arguments DataTime {P}. Arguments StreamID {P}.
Arguments TTL {P}. Arguments Priority {P}. Arguments Payload {P}.

Abbreviation WireMessage := (Message bytes).

#[export] Instance Message_eq_dec {P} `{EqDecision P} : EqDecision (Message P).
Proof. solve_decision. Defined.

#[export] Instance Message_fmap : FMap Message := fun A B f m =>
  mkMessage (Type_ m) (From m) (To m) (Seq m) (Timestamp m) (DataTime m)
            (StreamID m) (TTL m) (Priority m) (f (Payload m)).

(** Every field holds a value of its Go type. *)
Definition msg_wf {P} (m : Message P) : Prop :=
  is_uint 8 (Type_ m) /\ is_uint 16 (From m) /\ is_uint 16 (To m) /\
  is_uint 32 (Seq m) /\ is_int64 (Timestamp m) /\ is_int64 (DataTime m) /\
  is_uint 8 (StreamID m) /\ is_uint 16 (TTL m) /\ is_uint 8 (Priority m).

#[export] Instance msg_wf_dec {P} (m : Message P) : Decision (msg_wf m).
Proof. unfold msg_wf. apply _. Defined.

(** [IsExpired]: [now] is [time.Now().UnixMilli()]; the subtraction is the
    [int64] one. *)
Definition IsExpired {P} (now : Z) (m : Message P) : bool :=
  if decide (TTL m = 0) then false
  else bool_decide (int64_of_uint64 (wrap 64 (now - Timestamp m)) > TTL m).

Definition IsBroadcast {P} (m : Message P) : bool := bool_decide (To m = BroadcastID).

(** Without [int64] overflow, expiry is the plain comparison with the age. *)
Lemma IsExpired_spec {P} now (m : Message P) :
  is_int64 (now - Timestamp m) ->
  IsExpired now m = true <-> TTL m <> 0 /\ now - Timestamp m > TTL m.
Proof.
  intros H. unfold IsExpired.
  change (wrap 64 (now - Timestamp m)) with (uint64_of_int64 (now - Timestamp m)).
  rewrite int64_uint64_id by done. case_decide; [naive_solver|].
  rewrite bool_decide_eq_true. naive_solver.
Qed.
