(* ===== verification/Codec.v ===== *)
(** Binary encoding of messages: [src/node/transport/codec/codec.go].

    [encodeRaw] fills a zeroed buffer at increasing offsets, [decodeRaw] reads
    it back, and [Encode]/[Decode] add the compression flag byte.  zlib is a
    class with its documented law; everything else is written out, with the
    bounds checks Go makes on every slice access.  The reference definition is
    [wire_layout], the concatenation of the fields. *)
From S2P Require Import Prelude Message.

(** * encoding/binary, little endian *)

Fixpoint le_bytes (n : nat) (v : Z) : bytes :=
  match n with
  | O => []
  | S n => byte_of_Z v :: le_bytes n (Z.shiftr v 8)
  end.

Fixpoint le_value (bs : bytes) : Z :=
  match bs with
  | [] => 0
  | b :: bs => Z.lor (Z_of_byte b) (Z.shiftl (le_value bs) 8)
  end.

(** [le.PutUint16/32/64(buf[off:], v)] with [n] = 2, 4, 8 bytes, and the
    byte store [buf[off] = uint8(v)] with [n] = 1 *)
Definition PutUint (n : nat) (off v : Z) (buf : bytes) : outcome bytes :=
  if decide (0 <= off /\ off + Z.of_nat n <= zlen buf)
  then Ret (take (Z.to_nat off) buf ++ le_bytes n v ++ drop (Z.to_nat off + n) buf)
  else Panic (IndexOutOfRange (off + Z.of_nat n - 1) (zlen buf)).

(** [le.Uint16/32/64(data[off:])] *)
Definition GetUint (n : nat) (off : Z) (data : bytes) : outcome Z :=
  if decide (0 <= off /\ off + Z.of_nat n <= zlen data)
  then Ret (le_value (take n (drop (Z.to_nat off) data)))
  else Panic (IndexOutOfRange (off + Z.of_nat n - 1) (zlen data)).

(** [copy(buf[off:], src)]: copies as many bytes as fit *)
Definition copy_at (off : Z) (src buf : bytes) : outcome bytes :=
  tail ← slice_from off buf;
  let src' := take (length tail) src in
  Ret (take (Z.to_nat off) buf ++ src' ++ drop (length src') tail).

(** * encodeRaw and decodeRaw *)

Definition encodeRaw (msg : WireMessage) : outcome bytes :=
  let payloadLen := wrap 32 (zlen (Payload msg)) in
  let buf := replicate (Z.to_nat (HeaderSize + payloadLen)) Byte.x00 in
  let off := 0 in
  buf ← PutUint 1 off (Type_ msg) buf;
  let off := off + 1 in
  buf ← PutUint 2 off (From msg) buf;
  let off := off + 2 in
  buf ← PutUint 2 off (To msg) buf;
  let off := off + 2 in
  buf ← PutUint 4 off (Seq msg) buf;
  let off := off + 4 in
  buf ← PutUint 8 off (uint64_of_int64 (Timestamp msg)) buf;
  let off := off + 8 in
  buf ← PutUint 8 off (uint64_of_int64 (DataTime msg)) buf;
  let off := off + 8 in
  buf ← PutUint 1 off (StreamID msg) buf;
  let off := off + 1 in
  buf ← PutUint 2 off (TTL msg) buf;
  let off := off + 2 in
  buf ← PutUint 1 off (Priority msg) buf;
  let off := off + 1 in
  buf ← PutUint 4 off payloadLen buf;
  let off := off + 4 in
  copy_at off (Payload msg) buf.

Inductive codec_error : Set :=
  | EmptyData
  | DataTooShort (got need : Z)
  | PayloadTruncated (declared available : Z)
  | DecompressError.

Definition decodeRaw (data : bytes) : outcome (result codec_error WireMessage) :=
  if decide (zlen data < HeaderSize)
  then Ret (Err (DataTooShort (zlen data) HeaderSize))
  else
    let off := 0 in
    type ← GetUint 1 off data;
    let off := off + 1 in
    from ← GetUint 2 off data;
    let off := off + 2 in
    to ← GetUint 2 off data;
    let off := off + 2 in
    seq ← GetUint 4 off data;
    let off := off + 4 in
    timestamp ← GetUint 8 off data;
    let off := off + 8 in
    dataTime ← GetUint 8 off data;
    let off := off + 8 in
    streamID ← GetUint 1 off data;
    let off := off + 1 in
    ttl ← GetUint 2 off data;
    let off := off + 2 in
    priority ← GetUint 1 off data;
    let off := off + 1 in
    payloadLen ← GetUint 4 off data;
    let off := off + 4 in
    let remaining := zlen data - off in
    if decide (remaining < payloadLen)
    then Ret (Err (PayloadTruncated payloadLen remaining))
    else
      payload ← (if decide (payloadLen > 0)
                 then slice_to (off + payloadLen) data ≫= slice_from off
                 else Ret []);
      Ret (Ok (mkMessage type from to seq (int64_of_uint64 timestamp)
                 (int64_of_uint64 dataTime) streamID ttl priority payload)).

(** * Compression flag *)

(** compress/zlib: [zlib.NewWriter] + [Write] + [Close], and
    [zlib.NewReader] + [io.ReadAll]; decompression undoes compression. *)
Class Zlib := {
  compress : bytes -> option bytes;
  decompress : bytes -> option bytes;
  decompress_compress raw z : compress raw = Some z -> decompress z = Some raw
}.

Definition CompressThreshold : Z := 256.

Definition Encode `{Zlib} (msg : WireMessage) : outcome bytes :=
  raw ← encodeRaw msg;
  let uncompressed := Byte.x00 :: raw in
  if decide (zlen (Payload msg) >= CompressThreshold) then
    match compress raw with
    | Some z => if decide (zlen z < zlen raw) then Ret (Byte.x01 :: z) else Ret uncompressed
    | None => Ret uncompressed
    end
  else Ret uncompressed.

Definition Decode `{Zlib} (data : bytes) : outcome (result codec_error WireMessage) :=
  match data with
  | [] => Ret (Err EmptyData)
  | flag :: payload =>
      if decide (flag = Byte.x01) then
        match decompress payload with
        | None => Ret (Err DecompressError)
        | Some payload => decodeRaw payload
        end
      else decodeRaw payload
  end.

(** * Reference layout

    The wire format documented at the top of codec.go. *)
Definition wire_header (msg : WireMessage) : bytes :=
  le_bytes 1 (Type_ msg) ++ le_bytes 2 (From msg) ++ le_bytes 2 (To msg) ++
  le_bytes 4 (Seq msg) ++ le_bytes 8 (uint64_of_int64 (Timestamp msg)) ++
  le_bytes 8 (uint64_of_int64 (DataTime msg)) ++ le_bytes 1 (StreamID msg) ++
  le_bytes 2 (TTL msg) ++ le_bytes 1 (Priority msg) ++
  le_bytes 4 (zlen (Payload msg)).

Definition wire_layout (msg : WireMessage) : bytes := wire_header msg ++ Payload msg.

(** The messages the wire format can carry. *)
Definition encodable (msg : WireMessage) : Prop :=
  msg_wf msg /\ zlen (Payload msg) < 2 ^ 32.

#[export] Instance encodable_dec msg : Decision (encodable msg).
Proof. unfold encodable. apply _. Defined.

(** * Little-endian lemmas *)

Lemma length_le_bytes n v : length (le_bytes n v) = n.
Proof. revert v; induction n as [|n IH]; intros v; cbn; [done|by rewrite IH]. Qed.

Lemma zlen_le_bytes n v : zlen (le_bytes n v) = Z.of_nat n.
Proof. unfold zlen. by rewrite length_le_bytes. Qed.
#[export] Hint Rewrite zlen_le_bytes : zlen.

Lemma le_value_cons b bs : le_value (b :: bs) = Z_of_byte b + 256 * le_value bs.
Proof. cbn. apply lor_shiftl_add, Z_of_byte_range. Qed.

Lemma le_value_bytes n v : le_value (le_bytes n v) = wrap (8 * Z.of_nat n) v.
Proof.
  revert v; induction n as [|n IH]; intros v.
  - cbn. unfold wrap. by rewrite Z.mod_1_r.
  - cbn [le_bytes]. rewrite le_value_cons, IH, Z_of_byte_of_Z.
    rewrite Z.shiftr_div_pow2 by lia. unfold wrap.
    replace (8 * Z.of_nat (S n)) with (8 + 8 * Z.of_nat n) by lia.
    rewrite Z.pow_add_r by lia. change (2 ^ 8) with 256.
    rewrite Z.rem_mul_r by lia. done.
Qed.

Lemma le_bytes_value bs : le_bytes (length bs) (le_value bs) = bs.
Proof.
  induction bs as [|b bs IH]; [done|].
  cbn [length le_bytes]. rewrite le_value_cons.
  pose proof (Z_of_byte_range b). f_equal.
  - rewrite <- (byte_of_Z_of_byte b) at 2. unfold byte_of_Z. unfold wrap.
    replace (Z_of_byte b + 256 * le_value bs)
      with (Z_of_byte b + le_value bs * 2 ^ 8) by lia.
    by rewrite Z.mod_add.
  - rewrite Z.shiftr_div_pow2 by lia.
    replace (Z_of_byte b + 256 * le_value bs)
      with (Z_of_byte b + le_value bs * 2 ^ 8) by lia.
    rewrite Z.div_add, Z.div_small by lia. done.
Qed.

Lemma le_value_range bs : is_uint (8 * zlen bs) (le_value bs).
Proof.
  rewrite <- (le_bytes_value bs) at 2. rewrite le_value_bytes.
  apply wrap_bound. lia.
Qed.

(** * Writing a buffer front to back *)

Lemma PutUint_front n off v pre rest :
  off = zlen pre -> (n <= length rest)%nat ->
  PutUint n off v (pre ++ rest) = Ret ((pre ++ le_bytes n v) ++ drop n rest).
Proof.
  intros -> Hn. unfold PutUint. rewrite decide_True by (unfold zlen; rewrite length_app; lia).
  unfold zlen. rewrite Nat2Z.id, take_app_length, <- app_assoc. do 3 f_equal.
  by rewrite drop_app_add.
Qed.

Lemma copy_at_front off src pre rest :
  off = zlen pre -> length rest = length src ->
  copy_at off src (pre ++ rest) = Ret (pre ++ src).
Proof.
  intros -> Hl. unfold copy_at.
  rewrite slice_from_ok by zlia. rewrite bind_Ret. unfold zlen.
  rewrite Nat2Z.id, drop_app_length, take_app_length.
  rewrite Hl, firstn_all, <- Hl, drop_all, app_nil_r. done.
Qed.

(** Reading with a cursor: [drop off data] is what is left to read. *)
Lemma GetUint_cursor n off v data rest :
  0 <= off -> drop (Z.to_nat off) data = le_bytes n v ++ rest ->
  is_uint (8 * Z.of_nat n) v -> (0 < n)%nat ->
  GetUint n off data = Ret v /\ drop (Z.to_nat (off + Z.of_nat n)) data = rest.
Proof.
  intros H0 Hd Hv Hn.
  assert (Hl : (n <= length (drop (Z.to_nat off) data))%nat)
    by (rewrite Hd, length_app, length_le_bytes; lia).
  rewrite length_drop in Hl. split.
  - unfold GetUint. rewrite decide_True by zlia.
    rewrite Hd, (take_app_length' (le_bytes n v)) by (by rewrite length_le_bytes).
    by rewrite le_value_bytes, wrap_small.
  - rewrite Z2Nat.inj_add, Nat2Z.id by lia. rewrite <- drop_drop, Hd.
    by rewrite drop_app_length' by (by rewrite length_le_bytes).
Qed.

(** Every in-range read is the little-endian value of the bytes there. *)
Lemma GetUint_split n off data :
  0 <= off -> off + Z.of_nat n <= zlen data ->
  exists v, GetUint n off data = Ret v /\ is_uint (8 * Z.of_nat n) v /\
    drop (Z.to_nat off) data = le_bytes n v ++ drop (Z.to_nat (off + Z.of_nat n)) data.
Proof.
  intros H0 Hl. unfold GetUint. rewrite decide_True by done.
  set (bs := take n (drop (Z.to_nat off) data)).
  assert (Hn : length bs = n).
  { unfold bs. rewrite length_take, length_drop. unfold zlen in Hl. lia. }
  exists (le_value bs). split; [done|]. split.
  - rewrite <- Hn. apply le_value_range.
  - rewrite <- Hn at 1. rewrite le_bytes_value. unfold bs.
    rewrite <- (take_drop n (drop (Z.to_nat off) data)) at 1.
    rewrite drop_drop. do 2 f_equal. lia.
Qed.

Ltac put_field := rewrite PutUint_front;
  [ rewrite bind_Ret; cbv zeta; rewrite drop_replicate | zlia | rewrite length_replicate; lia ].

(** [encodeRaw] never panics and produces the documented layout. *)
Lemma encodeRaw_wire_layout msg :
  zlen (Payload msg) < 2 ^ 32 -> encodeRaw msg = Ret (wire_layout msg).
Proof.
  intros Hp. unfold encodeRaw.
  rewrite wrap_small by (unfold is_uint; pose proof (zlen_nonneg (Payload msg)); lia).
  set (N := length (Payload msg)).
  replace (Z.to_nat (HeaderSize + zlen (Payload msg))) with (33 + N)%nat
    by (unfold HeaderSize, zlen, N; lia).
  cbv zeta. change (replicate (33 + N) Byte.x00) with ([] ++ replicate (33 + N) Byte.x00).
  do 10 put_field.
  replace (33 + N - 1 - 2 - 2 - 4 - 8 - 8 - 1 - 2 - 1 - 4)%nat with N by lia.
  rewrite copy_at_front; [|zlia|by rewrite length_replicate].
  unfold wire_layout, wire_header. by rewrite app_nil_l, <- !app_assoc.
Qed.

(** * Decoding *)

Lemma decodeRaw_short data :
  zlen data < HeaderSize ->
  decodeRaw data = Ret (Err (DataTooShort (zlen data) HeaderSize)).
Proof. intros. unfold decodeRaw. by rewrite decide_True. Qed.

Lemma zlen_wire_header msg : zlen (wire_header msg) = HeaderSize.
Proof. unfold wire_header. by autorewrite with zlen. Qed.
#[export] Hint Rewrite zlen_wire_header : zlen.

Lemma zlen_wire_layout msg : zlen (wire_layout msg) = HeaderSize + zlen (Payload msg).
Proof. unfold wire_layout. by autorewrite with zlen. Qed.
#[export] Hint Rewrite zlen_wire_layout : zlen.

Lemma is_uint_64_int64 x : is_uint 64 (uint64_of_int64 x).
Proof. apply wrap_bound. lia. Qed.

(** One read of [decodeRaw]: [Hd] describes the bytes left at the cursor. *)
Ltac get_field Hd :=
  match type of Hd with
  | drop _ ?data = le_bytes ?n ?v ++ _ =>
    match goal with |- context [GetUint n ?off data] =>
      let E := fresh in
      destruct (GetUint_cursor n off v data _ ltac:(lia) Hd ltac:(assumption) ltac:(lia))
        as [E Hd']; rewrite E, bind_Ret; clear E Hd; rename Hd' into Hd; cbv zeta
    end
  end.

(** [data[off:off+n]] at the cursor *)
Lemma slice_cursor (off n : Z) (data xs rest : bytes) :
  0 <= off <= zlen data -> drop (Z.to_nat off) data = xs ++ rest -> zlen xs = n ->
  slice_to (off + n) data ≫= slice_from off = Ret xs.
Proof.
  intros Ho Hd <-.
  assert (Hl : zlen data = off + zlen (xs ++ rest))
    by (rewrite <- Hd; unfold zlen in *; rewrite length_drop; lia).
  assert (Ht : data = take (Z.to_nat off) data ++ xs ++ rest)
    by (rewrite <- Hd; by rewrite take_drop).
  rewrite slice_to_ok, bind_Ret by zlia. rewrite slice_from_ok.
  - f_equal. rewrite Ht, !app_assoc. rewrite take_app_length', <- ?app_assoc.
    + rewrite drop_app_length'; [done|]. rewrite length_take. zlia.
    + rewrite length_app, length_take. zlia.
  - unfold zlen in *. rewrite length_take, length_app in *. lia.
Qed.

(** Decoding the layout followed by anything gives the message back. *)
Lemma decodeRaw_wire_layout msg rest :
  encodable msg -> decodeRaw (wire_layout msg ++ rest) = Ret (Ok msg).
Proof.
  intros [(H1 & H2 & H3 & H4 & H5 & H6 & H7 & H8 & H9) Hp].
  assert (H10 : is_uint 32 (zlen (Payload msg))) by zlia.
  pose proof (is_uint_64_int64 (Timestamp msg)). pose proof (is_uint_64_int64 (DataTime msg)).
  remember (wire_layout msg ++ rest) as data eqn:Hdata.
  assert (Hl : zlen data = HeaderSize + (zlen (Payload msg) + zlen rest))
    by (subst data; autorewrite with zlen; lia).
  assert (Hd : drop (Z.to_nat 0) data = wire_header msg ++ Payload msg ++ rest)
    by (subst data; unfold wire_layout; by rewrite <- app_assoc).
  clear Hdata. unfold wire_header in Hd. rewrite <- !app_assoc in Hd.
  unfold decodeRaw. rewrite decide_False by zlia. cbv zeta.
  do 10 get_field Hd.
  rewrite decide_False by (unfold HeaderSize in Hl; zlia).
  assert (Hp' : (if decide (zlen (Payload msg) > 0)
                 then slice_to (0 + 1 + 2 + 2 + 4 + 8 + 8 + 1 + 2 + 1 + 4 + zlen (Payload msg)) data
                      ≫= slice_from (0 + 1 + 2 + 2 + 4 + 8 + 8 + 1 + 2 + 1 + 4)
                 else Ret []) = Ret (Payload msg)).
  { case_decide as Hpos.
    - apply (slice_cursor _ _ _ _ rest); [unfold HeaderSize in Hl; zlia|exact Hd|done].
    - destruct (Payload msg) as [|b bs]; [done|]. zlia. }
  rewrite Hp', bind_Ret. rewrite !int64_uint64_id by done. by destruct msg.
Qed.

Lemma uint64_int64_id u : is_uint 64 u -> uint64_of_int64 (int64_of_uint64 u) = u.
Proof.
  unfold is_uint, uint64_of_int64, int64_of_uint64, wrap. intros Hu.
  case_decide; [by apply Z.mod_small|].
  rewrite <- (Z.mod_add _ 1) by lia. rewrite Z.mod_small; lia.
Qed.

(** One in-range read of [decodeRaw], naming the value [v] that was there. *)
Ltac split_field Hl v Hv Hd :=
  match goal with |- context [GetUint ?n ?off ?data] =>
    destruct (GetUint_split n off data ltac:(lia) ltac:(unfold HeaderSize in Hl; lia))
      as (v & E & Hv & Hd); rewrite E, bind_Ret; clear E;
    cbv [Z.of_nat Pos.of_succ_nat Pos.succ] in Hd; cbv zeta
  end.

(** [decodeRaw] never panics, and what it accepts is exactly the layout of a
    well-formed message followed by ignored bytes. *)
Lemma decodeRaw_total data :
  (exists e, decodeRaw data = Ret (Err e)) \/
  (exists msg rest, decodeRaw data = Ret (Ok msg) /\ encodable msg /\
                    data = wire_layout msg ++ rest).
Proof.
  destruct (decide (zlen data < HeaderSize)) as [Hs|Hl].
  { left. eexists. by apply decodeRaw_short. }
  unfold decodeRaw. rewrite decide_False by done. cbv zeta.
  split_field Hl t Ht D1. split_field Hl f Hf D2. split_field Hl to Hto D3.
  split_field Hl sq Hsq D4. split_field Hl ts Hts D5. split_field Hl dt Hdt D6.
  split_field Hl st Hst D7. split_field Hl ttl Httl D8. split_field Hl pr Hpr D9.
  split_field Hl pl Hpl D10.
  case_decide as Htr; [left; by eexists|]. right.
  set (off := 0 + 1 + 2 + 2 + 4 + 8 + 8 + 1 + 2 + 1 + 4) in *.
  set (pay := take (Z.to_nat pl) (drop (Z.to_nat off) data)).
  set (rest := drop (Z.to_nat pl) (drop (Z.to_nat off) data)).
  assert (Hpr' : drop (Z.to_nat off) data = pay ++ rest) by (unfold pay, rest; by rewrite take_drop).
  assert (Hlen : zlen pay = pl).
  { unfold pay. unfold is_uint, zlen in *. rewrite length_take, length_drop. lia. }
  assert (Hp : (if decide (pl > 0) then slice_to (off + pl) data ≫= slice_from off
                else Ret []) = Ret pay).
  { case_decide.
    - apply (slice_cursor _ _ _ _ rest); [|exact Hpr'|done]. unfold is_uint in *. lia.
    - destruct pay; [done|]. unfold is_uint in *. zlia. }
  rewrite Hp, bind_Ret. clear Hp. do 2 eexists. split; [reflexivity|].
  assert (I : forall u, is_uint 64 u -> is_int64 (int64_of_uint64 u))
    by apply int64_of_uint64_range.
  split.
  { unfold encodable, msg_wf. cbn [Type_ From To Seq Timestamp DataTime StreamID TTL Priority Payload].
    rewrite Hlen. unfold is_uint in Hpl. split_and!; auto; lia. }
  unfold wire_layout, wire_header.
  cbn [Type_ From To Seq Timestamp DataTime StreamID TTL Priority Payload].
  rewrite !uint64_int64_id, Hlen by done. rewrite <- !app_assoc.
  change data with (drop (Z.to_nat 0) data) at 1.
  rewrite D1, D2, D3, D4, D5, D6, D7, D8, D9, D10, Hpr'. done.
Qed.

Lemma decodeRaw_inv data msg :
  decodeRaw data = Ret (Ok msg) ->
  encodable msg /\ exists rest, data = wire_layout msg ++ rest.
Proof.
  intros H. destruct (decodeRaw_total data) as [[e E]|(m & rest & E & Hm & Hd)];
    rewrite H in E; [done|]. simplify_eq. eauto.
Qed.

(** * Encode and Decode *)

Section encode_decode.
Context `{Zlib}.

Lemma Encode_cases msg :
  zlen (Payload msg) < 2 ^ 32 ->
  Encode msg = Ret (Byte.x00 :: wire_layout msg) \/
  exists z, compress (wire_layout msg) = Some z /\ zlen z < zlen (wire_layout msg) /\
            CompressThreshold <= zlen (Payload msg) /\ Encode msg = Ret (Byte.x01 :: z).
Proof.
  intros Hp. unfold Encode. rewrite encodeRaw_wire_layout, bind_Ret by done.
  case_decide; [|by left]. destruct (compress _) as [z|] eqn:E; [|by left].
  case_decide; [|by left]. right. exists z. split_and!; auto; lia.
Qed.

Lemma Decode_Encode msg :
  encodable msg ->
  exists data, Encode msg = Ret data /\ Decode data = Ret (Ok msg) /\
               zlen data <= 1 + HeaderSize + zlen (Payload msg).
Proof.
  intros Hm. destruct (Encode_cases msg) as [E|(z & Hc & Hz & _ & E)]; [apply Hm| |].
  all: eexists; split; [exact E|].
  - split; [|zlia]. unfold Decode. rewrite decide_False by done.
    rewrite <- (app_nil_r (wire_layout msg)). by apply decodeRaw_wire_layout.
  - split; [|zlia]. unfold Decode. rewrite decide_True, (decompress_compress _ _ Hc) by done.
    rewrite <- (app_nil_r (wire_layout msg)). by apply decodeRaw_wire_layout.
Qed.

Lemma Decode_total data : exists r, Decode data = Ret r.
Proof.
  unfold Decode. destruct data as [|flag p]; [by eexists|].
  assert (Hr : forall d, exists r, decodeRaw d = Ret r).
  { intros d. destruct (decodeRaw_total d) as [[e E]|(m & rest & E & _)]; eauto. }
  case_decide; [destruct (decompress p); [done|by eexists]|done].
Qed.

Lemma Decode_wf data msg : Decode data = Ret (Ok msg) -> encodable msg.
Proof.
  unfold Decode. destruct data as [|flag p]; [done|]. case_decide.
  - destruct (decompress p); [|done]. intros E. by apply decodeRaw_inv in E as [? _].
  - intros E. by apply decodeRaw_inv in E as [? _].
Qed.
End encode_decode.

(** * Properties *)

(** C14: every message whose fields are in range and whose payload is shorter
    than 2^32 bytes survives [Encode] followed by [Decode], whether or not the
    codec compresses it, and the encoding is at most 34 bytes longer than the
    payload. *)
Theorem Encode_Decode_roundtrip `{Zlib} msg :
  encodable msg ->
  exists data, Encode msg = Ret data /\ Decode data = Ret (Ok msg) /\
               zlen data <= 1 + HeaderSize + zlen (Payload msg).
Proof. apply Decode_Encode. Qed.

(** C20: [decodeRaw] accepts exactly the byte strings that start with the
    documented layout of a well-formed message, returns that message, and
    ignores what follows. *)
Theorem decodeRaw_accepts_exactly_layout data msg :
  decodeRaw data = Ret (Ok msg) <->
  encodable msg /\ exists rest, data = wire_layout msg ++ rest.
Proof.
  split; [apply decodeRaw_inv|]. intros [Hm [rest ->]]. by apply decodeRaw_wire_layout.
Qed.

(** The offset arithmetic of [encodeRaw] never leaves the buffer and fills
    it with the documented layout, field after field. *)
Theorem encodeRaw_is_layout msg :
  zlen (Payload msg) < 2 ^ 32 -> encodeRaw msg = Ret (wire_layout msg).
Proof. apply encodeRaw_wire_layout. Qed.

(** [Decode] never panics on any input, and a message it returns always
    has every field in range. *)
Theorem Decode_safe `{Zlib} data :
  exists r, Decode data = Ret r /\ forall msg, r = Ok msg -> encodable msg.
Proof.
  destruct (Decode_total data) as [r E]. exists r. split; [done|].
  intros msg ->. by eapply Decode_wf.
Qed.

Definition sample_message (payload : bytes) : WireMessage :=
  mkMessage TypeConsensus 1 2 42 1700000000000 (-1) 3 TTLState PriorityState payload.

Lemma encodeRaw_is_layout_witness :
  encodeRaw (sample_message [Byte.x68; Byte.x69])
  = Ret (wire_layout (sample_message [Byte.x68; Byte.x69])).
Proof. apply encodeRaw_is_layout. vm_compute. reflexivity. Defined.
