(* ===== verification/RunLength.v ===== *)
(** A concrete compressor for the [Zlib] interface of [Codec].

    Run-length encoding as (count, byte) pairs.  It stands in for
    compress/zlib where a theorem over the interface is evaluated on a concrete
    message; it shows that the interface's law can hold together with actual
    compression. *)
From S2P Require Import Prelude Message Codec.

Fixpoint runs (bs : bytes) : list (Z * byte) :=
  match bs with
  | [] => []
  | b :: bs =>
      match runs bs with
      | (n, c) :: rs => if decide (b = c /\ n < 255) then (n + 1, c) :: rs
                        else (1, b) :: (n, c) :: rs
      | [] => [(1, b)]
      end
  end.

Definition rle_compress (bs : bytes) : option bytes :=
  Some (runs bs ≫= fun p => [byte_of_Z (fst p); snd p]).

Fixpoint rle_decompress (bs : bytes) : option bytes :=
  match bs with
  | [] => Some []
  | [_] => None
  | n :: b :: bs =>
      rest ← rle_decompress bs;
      Some (replicate (Z.to_nat (Z_of_byte n)) b ++ rest)
  end.

Lemma runs_Forall bs : Forall (fun p => 1 <= fst p <= 255) (runs bs).
Proof.
  induction bs as [|b bs IH]; cbn; [constructor|].
  destruct (runs bs) as [|[m d] rs]; [by repeat constructor|].
  inversion IH; subst. case_decide; repeat constructor; cbn in *; auto; lia.
Qed.

Lemma runs_expand bs :
  (runs bs ≫= fun p => replicate (Z.to_nat (fst p)) (snd p)) = bs.
Proof.
  induction bs as [|b bs IH]; cbn; [done|].
  pose proof (runs_Forall bs) as Hr.
  destruct (runs bs) as [|[m d] rs]; [by rewrite <- IH|].
  inversion Hr; subst. case_decide as Hd; cbn in *.
  - destruct Hd as [-> ?]. replace (Z.to_nat (m + 1)) with (S (Z.to_nat m)) by lia.
    cbn. by f_equal.
  - by f_equal.
Qed.

Lemma rle_decompress_pairs ps :
  Forall (fun p => 1 <= fst p <= 255) ps ->
  rle_decompress (ps ≫= fun p => [byte_of_Z (fst p); snd p])
  = Some (ps ≫= fun p => replicate (Z.to_nat (fst p)) (snd p)).
Proof.
  induction 1 as [|[n b] ps Hn _ IH]; [done|]. cbn in *. rewrite IH. cbn.
  rewrite Z_of_byte_of_Z, wrap_small; [done|]. unfold is_uint. lia.
Qed.

#[export] Program Instance rle_zlib : Zlib := {|
  compress := rle_compress; decompress := rle_decompress |}.
Next Obligation.
  intros raw z [= <-]. rewrite rle_decompress_pairs by apply runs_Forall.
  by rewrite runs_expand.
Qed.

(** A message long and regular enough to be compressed *)
Definition long_message : WireMessage := sample_message (replicate 300 Byte.x41).

Lemma Encode_Decode_roundtrip_witness :
  exists data, Encode long_message = Ret data /\ Decode data = Ret (Ok long_message) /\
               zlen data <= 1 + HeaderSize + zlen (Payload long_message).
Proof.
  apply Encode_Decode_roundtrip. apply (bool_decide_unpack (encodable long_message)).
  vm_compute. exact I.
Defined.

(** On this message the codec does compress. *)
Example long_message_compressed :
  exists z, Encode long_message = Ret (Byte.x01 :: z) /\ zlen z = 44.
Proof. eexists. split; vm_compute; reflexivity. Qed.

(** A compressor that never helps, for payloads that do not compress. *)
#[export] Program Instance stored_zlib : Zlib | 20 := {|
  compress := fun _ => None; decompress := fun _ => None |}.
Next Obligation. done. Qed.
