(* ===== verification/Transport.v ===== *)
(** The transports: [src/node/transport/tcp/tcp.go], [udp/udp.go] and the
    [Transport] interface of [transport.go].

    Sockets are outside the repository: a connection is the list of bytes the
    peer wrote before closing it, and the outcome of a dial or of a write is an
    argument.  Modelled are the inbound channel with its drop-oldest policy,
    TCP framing and the receive loop of one connection, the outbound
    connection pool, and the UDP receive step. *)
From S2P Require Import Prelude Message Codec RunLength.

(** * The inbound channel [recvCh] *)

Record RecvCh := mkRecvCh { rc_cap : Z; rc_buf : list WireMessage }.

(** [New(addr, recvBufSize)] *)
Definition New_recvCh (recvBufSize : Z) : RecvCh :=
  mkRecvCh (if decide (recvBufSize <= 0) then 256 else recvBufSize) [].

(** The nested [select] of the read loops: send if there is room, otherwise
    drain one message and send. *)
Definition push_recv (msg : WireMessage) (ch : RecvCh) : RecvCh :=
  if decide (zlen (rc_buf ch) < rc_cap ch)
  then mkRecvCh (rc_cap ch) (rc_buf ch ++ [msg])
  else mkRecvCh (rc_cap ch) (tail (rc_buf ch) ++ [msg]).

(** [<-t.Recv()] *)
Definition pop_recv (ch : RecvCh) : option (WireMessage * RecvCh) :=
  match rc_buf ch with
  | [] => None
  | m :: buf => Some (m, mkRecvCh (rc_cap ch) buf)
  end.

(** * TCP framing *)

Inductive tcp_error : Set :=
  | ConnEOF
  | InvalidFrameLength (n : Z)
  | FrameDecode (e : codec_error)
  | DialError
  | WriteError.

Definition MaxFrame : Z := 65536.

Definition makeFrame (data : bytes) : outcome bytes :=
  let frame := replicate (4 + length data) Byte.x00 in
  frame ← PutUint 4 0 (wrap 32 (zlen data)) frame;
  copy_at 4 data frame.

(** [io.ReadFull(conn, buf)] with [len(buf) = n]: the bytes read and the rest
    of the stream, or an error when the stream ends first. *)
Definition ReadFull (n : Z) (conn : bytes) : option (bytes * bytes) :=
  if decide (n <= zlen conn)
  then Some (take (Z.to_nat n) conn, drop (Z.to_nat n) conn) else None.

Section frames.
Context `{Zlib}.

Definition readFrame (conn : bytes) : outcome (result tcp_error WireMessage * bytes) :=
  match ReadFull 4 conn with
  | None => Ret (Err ConnEOF, [])
  | Some (lenBuf, conn) =>
      frameLen ← GetUint 4 0 lenBuf;
      if decide (frameLen = 0 \/ frameLen > MaxFrame)
      then Ret (Err (InvalidFrameLength frameLen), conn)
      else
        match ReadFull frameLen conn with
        | None => Ret (Err ConnEOF, [])
        | Some (buf, conn) =>
            r ← Decode buf;
            Ret (match r with Ok m => Ok m | Err e => Err (FrameDecode e) end, conn)
        end
  end.

(** The loop of [handleConn]; [rounds] is the number of iterations before
    [stopCh] is closed.  The result says why the loop ended: [None] for the
    stop signal. *)
Fixpoint handleConn (rounds : nat) (conn : bytes) (ch : RecvCh)
    : outcome (option tcp_error * RecvCh) :=
  match rounds with
  | O => Ret (None, ch)
  | S rounds =>
      '(r, conn) ← readFrame conn;
      match r with
      | Err e => Ret (Some e, ch)
      | Ok msg => handleConn rounds conn (push_recv msg ch)
      end
  end.

(** * TCP outbound connections *)

Record tcpConn := mkConn { tc_conn : bool; tc_backoff : Z }.
Abbreviation pool := (gmap string tcpConn).

Definition getOrCreateConn (addr : string) (p : pool) : tcpConn * pool :=
  match p !! addr with
  | Some c => (c, p)
  | None => let c := mkConn false 100 in (c, <[addr := c]> p)
  end.

(** [dial_ok], [write_ok]: what the network answers to this call. *)
Definition dial (dial_ok : bool) (tc : tcpConn) : option tcpConn :=
  if dial_ok then Some (mkConn true 100) else None.

(** [Send]: the new pool, the error if any, and the frame that went out. *)
Definition tcp_Send (dial_ok write_ok : bool) (addr : string) (msg : WireMessage) (p : pool)
    : outcome (pool * result tcp_error bytes) :=
  data ← Encode msg;
  frame ← makeFrame data;
  let '(tc, p) := getOrCreateConn addr p in
  match (if tc_conn tc then Some tc else dial dial_ok tc) with
  | None => Ret (p, Err DialError)
  | Some tc =>
      if write_ok then Ret (<[addr := tc]> p, Ok frame)
      else Ret (<[addr := mkConn false (tc_backoff tc)]> p, Err WriteError)
  end.

(** * UDP *)

Definition maxUDPPacket : Z := 65507.

(** One iteration of [readLoop] after [ReadFromUDP] returned a datagram: the
    buffer keeps its first [maxUDPPacket] bytes. *)
Definition udp_receive (datagram : bytes) (ch : RecvCh) : outcome RecvCh :=
  r ← Decode (take (Z.to_nat maxUDPPacket) datagram);
  Ret (match r with Ok msg => push_recv msg ch | Err _ => ch end).
End frames.

(** * The inbound channel keeps the newest messages *)

Definition ch_wf (ch : RecvCh) : Prop := 0 < rc_cap ch /\ zlen (rc_buf ch) <= rc_cap ch.

Lemma New_recvCh_wf n : ch_wf (New_recvCh n).
Proof. unfold ch_wf, New_recvCh. cbn. case_decide; zlia. Qed.

Lemma push_recv_cap m ch : rc_cap (push_recv m ch) = rc_cap ch.
Proof. unfold push_recv. by case_decide. Qed.

Lemma push_recv_last_n m ch :
  ch_wf ch ->
  rc_buf (push_recv m ch) = last_n (Z.to_nat (rc_cap ch)) (rc_buf ch ++ [m]).
Proof.
  intros [Hc Hl]. unfold push_recv, last_n. rewrite length_app. cbn [length].
  case_decide; cbn [rc_buf].
  - replace (_ - _)%nat with 0%nat by zlia. done.
  - replace (_ - _)%nat with 1%nat by zlia.
    destruct (rc_buf ch); [zlia|done].
Qed.

Lemma push_recv_wf m ch : ch_wf ch -> ch_wf (push_recv m ch).
Proof.
  intros Hw. pose proof (push_recv_last_n m ch Hw) as E. destruct Hw as [Hc Hl].
  split; rewrite push_recv_cap; [done|]. rewrite E. unfold last_n, zlen in *.
  rewrite length_drop. lia.
Qed.

Lemma push_recv_foldl ms ch :
  ch_wf ch ->
  rc_buf (foldl (flip push_recv) ch ms) = last_n (Z.to_nat (rc_cap ch)) (rc_buf ch ++ ms)
  /\ rc_cap (foldl (flip push_recv) ch ms) = rc_cap ch.
Proof.
  revert ch; induction ms as [|m ms IH]; intros ch Hw; cbn.
  - rewrite app_nil_r. split; [|done]. destruct Hw. unfold last_n.
    replace (_ - _)%nat with 0%nat by zlia. done.
  - destruct (IH (push_recv m ch) (push_recv_wf _ _ Hw)) as [E1 E2].
    rewrite E1, E2, push_recv_cap, push_recv_last_n by done. split; [|done].
    by rewrite last_n_last_n_app, <- app_assoc.
Qed.

(** * Frames *)

Definition frame_layout (data : bytes) : bytes := le_bytes 4 (zlen data) ++ data.

Lemma makeFrame_layout data :
  zlen data < 2 ^ 32 -> makeFrame data = Ret (frame_layout data).
Proof.
  intros Hd. unfold makeFrame. cbv zeta.
  rewrite wrap_small by (unfold is_uint; pose proof (zlen_nonneg data); lia).
  change (replicate (4 + length data) Byte.x00) with ([] ++ replicate (4 + length data) Byte.x00).
  rewrite PutUint_front; [|done|rewrite length_replicate; lia]. rewrite bind_Ret, drop_replicate.
  rewrite copy_at_front; [done|zlia|rewrite length_replicate; lia].
Qed.

Lemma ReadFull_app n xs ys : zlen xs = n -> ReadFull n (xs ++ ys) = Some (xs, ys).
Proof.
  intros <-. unfold ReadFull. rewrite decide_True by zlia. unfold zlen.
  by rewrite Nat2Z.id, take_app_length, drop_app_length.
Qed.

Lemma ReadFull_Some n conn xs ys :
  ReadFull n conn = Some (xs, ys) -> 0 <= n -> conn = xs ++ ys /\ zlen xs = n.
Proof.
  unfold ReadFull. case_decide; [|done]. intros [= <- <-] Hn.
  rewrite take_drop. split; [done|]. unfold zlen in *. rewrite length_take. lia.
Qed.

Lemma GetUint_le_bytes n v : (0 < n)%nat -> is_uint (8 * Z.of_nat n) v ->
  GetUint n 0 (le_bytes n v) = Ret v.
Proof.
  intros Hn Hv. destruct (GetUint_cursor n 0 v (le_bytes n v) []) as [E _];
    [lia|by rewrite app_nil_r|done|done|exact E].
Qed.

Section frame_lemmas.
Context `{Zlib}.

Lemma readFrame_frame data conn :
  0 < zlen data <= MaxFrame ->
  readFrame (frame_layout data ++ conn)
  = (r ← Decode data;
     Ret (match r with Ok m => Ok m | Err e => Err (FrameDecode e) end, conn)).
Proof.
  unfold MaxFrame. intros Hd. unfold readFrame, frame_layout. rewrite <- app_assoc.
  rewrite ReadFull_app by by rewrite zlen_le_bytes.
  rewrite GetUint_le_bytes, bind_Ret; [|lia|unfold is_uint; lia].
  rewrite decide_False by (unfold MaxFrame; lia). by rewrite ReadFull_app.
Qed.

Lemma readFrame_oversize data conn :
  MaxFrame < zlen data < 2 ^ 32 ->
  readFrame (frame_layout data ++ conn) = Ret (Err (InvalidFrameLength (zlen data)), data ++ conn).
Proof.
  unfold MaxFrame. intros Hd. unfold readFrame, frame_layout. rewrite <- app_assoc.
  rewrite ReadFull_app by by rewrite zlen_le_bytes.
  rewrite GetUint_le_bytes, bind_Ret; [|lia|unfold is_uint; lia].
  rewrite decide_True by (unfold MaxFrame; lia). done.
Qed.

(** [readFrame] never panics; it consumes at least four bytes when it succeeds. *)
Lemma readFrame_total conn :
  exists r conn', readFrame conn = Ret (r, conn') /\
    forall m, r = Ok m -> encodable m /\ (length conn' < length conn)%nat.
Proof.
  unfold readFrame. destruct (ReadFull 4 conn) as [[lenBuf conn1]|] eqn:E1;
    [|by do 2 eexists; split; [reflexivity|]].
  apply ReadFull_Some in E1 as [-> Hl]; [|lia].
  destruct (GetUint_split 4 0 lenBuf) as (v & Ev & Hv & _); [lia|zlia|].
  rewrite Ev, bind_Ret. case_decide; [by do 2 eexists; split; [reflexivity|]|].
  destruct (ReadFull v conn1) as [[buf conn2]|] eqn:E2;
    [|by do 2 eexists; split; [reflexivity|]].
  apply ReadFull_Some in E2 as [-> Hl2]; [|unfold is_uint in Hv; lia].
  destruct (Decode_total buf) as [r Er]. rewrite Er, bind_Ret.
  do 2 eexists. split; [reflexivity|]. intros m Hm.
  destruct r as [m'|]; simplify_eq. split; [by eapply Decode_wf|].
  rewrite !length_app. unfold is_uint, zlen in *. lia.
Qed.

(** A stream of frames, each within the receiver's limit, is received in
    order; the loop then stops at the end of the stream. *)
Lemma handleConn_frames ms datas rounds ch :
  Forall2 (fun m d => Encode m = Ret d /\ encodable m /\ zlen d <= MaxFrame) ms datas ->
  (length ms < rounds)%nat ->
  handleConn rounds (concat (map frame_layout datas)) ch
  = Ret (Some ConnEOF, foldl (flip push_recv) ch ms).
Proof.
  intros Hf. revert rounds ch.
  induction Hf as [|m d ms datas (He & Hm & Hd) _ IH]; intros rounds ch Hr;
    (destruct rounds as [|rounds]; [cbn in Hr; lia|]); [done|].
  destruct (Decode_Encode m Hm) as (d' & E1 & E2 & _). rewrite He in E1. simplify_eq.
  cbn [handleConn map concat foldl]. rewrite readFrame_frame.
  - rewrite E2, !bind_Ret. apply IH. cbn in Hr. lia.
  - split; [|done]. destruct d'; [done|]. zlia.
Qed.

Lemma handleConn_total rounds conn ch :
  ch_wf ch -> exists why ch', handleConn rounds conn ch = Ret (why, ch') /\ ch_wf ch' /\
    ((length conn < rounds)%nat -> why <> None).
Proof.
  revert conn ch; induction rounds as [|rounds IH]; intros conn ch Hw.
  { do 2 eexists. split; [reflexivity|]. split; [done|lia]. }
  cbn [handleConn]. destruct (readFrame_total conn) as (r & conn' & E & Hr).
  rewrite E, bind_Ret. destruct r as [m|e].
  - destruct (Hr m eq_refl) as [Hm Hl].
    destruct (IH conn' (push_recv m ch) (push_recv_wf _ _ Hw)) as (w & ch' & E' & Hw' & Ht).
    do 2 eexists. split; [exact E'|]. split; [done|]. intros. apply Ht. lia.
  - do 2 eexists. split; [reflexivity|]. done.
Qed.
End frame_lemmas.

(** * Properties *)

(** C24: a TCP connection that carries the frames of any list of messages of at
    most 65536 encoded bytes is read to its end, message by message; when nobody
    reads the inbound channel meanwhile, it then holds the last messages of the
    list in order, as many as its capacity. *)
Theorem tcp_stream_in_order `{Zlib} ms datas rounds bufSize :
  Forall2 (fun m d => Encode m = Ret d /\ encodable m /\ zlen d <= MaxFrame) ms datas ->
  (length ms < rounds)%nat ->
  exists ch, handleConn rounds (concat (map frame_layout datas)) (New_recvCh bufSize)
             = Ret (Some ConnEOF, ch) /\
    rc_buf ch = last_n (Z.to_nat (rc_cap (New_recvCh bufSize))) ms.
Proof.
  intros Hf Hr. eexists. split; [by apply handleConn_frames|].
  by apply push_recv_foldl, New_recvCh_wf.
Qed.

(** Whatever bytes arrive on a TCP connection, the receive loop never
    panics, keeps the inbound channel within its capacity, and ends by itself
    once it is given more rounds than there are bytes. *)
Theorem tcp_handleConn_safe `{Zlib} rounds conn bufSize :
  exists why ch, handleConn rounds conn (New_recvCh bufSize) = Ret (why, ch) /\
    zlen (rc_buf ch) <= rc_cap ch /\ ((length conn < rounds)%nat -> why <> None).
Proof.
  destruct (handleConn_total rounds conn (New_recvCh bufSize) (New_recvCh_wf _))
    as (why & ch & E & [_ Hl] & Ht). eauto.
Qed.

(** A message whose encoding is longer than 65536 bytes is written by
    [Send] without an error, but the receiver rejects the frame and gives up
    the connection: neither that message nor any later one of the stream is
    delivered. *)
Theorem tcp_oversize_frame_lost `{Zlib} addr msg data later p bufSize rounds :
  Encode msg = Ret data -> MaxFrame < zlen data < 2 ^ 32 ->
  (exists frame p', tcp_Send true true addr msg p = Ret (p', Ok frame) /\
     handleConn (S rounds) (frame ++ later) (New_recvCh bufSize)
     = Ret (Some (InvalidFrameLength (zlen data)), New_recvCh bufSize)).
Proof.
  intros E Hl. exists (frame_layout data).
  assert (Hs : exists p', tcp_Send true true addr msg p = Ret (p', Ok (frame_layout data))).
  { unfold tcp_Send. rewrite E, bind_Ret, makeFrame_layout, bind_Ret by lia.
    destruct (getOrCreateConn addr p) as [tc p1]. destruct (tc_conn tc); cbn; eauto. }
  destruct Hs as [p' Hs]. exists p'. split; [done|]. cbn [handleConn].
  by rewrite readFrame_oversize.
Qed.

(** Two small messages and their encodings *)
Definition two_messages : list WireMessage :=
  [sample_message [Byte.x61]; sample_message [Byte.x62; Byte.x63]].

Lemma tcp_stream_in_order_witness :
  exists ch, handleConn (H := rle_zlib) 3
      (concat (map (fun m => frame_layout (Byte.x00 :: wire_layout m)) two_messages))
      (New_recvCh 1) = Ret (Some ConnEOF, ch) /\
    rc_buf ch = [sample_message [Byte.x62; Byte.x63]].
Proof.
  assert (Hf : Forall2 (fun m d => Encode (H := rle_zlib) m = Ret d /\ encodable m /\ zlen d <= MaxFrame)
     two_messages (map (fun m => Byte.x00 :: wire_layout m) two_messages)).
  { apply (bool_decide_unpack _). vm_compute. exact I. }
  destruct (tcp_stream_in_order two_messages _ 3 1 Hf) as (ch & E & Eb); [cbn; lia|].
  exists ch. split; [exact E|]. rewrite Eb. reflexivity.
Defined.

Definition huge_message : WireMessage := sample_message (replicate (Z.to_nat 66000) Byte.x41).

Lemma huge_message_size : zlen (Byte.x00 :: wire_layout huge_message) = 66034.
Proof.
  autorewrite with zlen. cbn [huge_message sample_message Payload].
  unfold zlen. rewrite length_replicate. unfold HeaderSize. lia.
Qed.

Lemma tcp_oversize_frame_lost_witness :
  exists frame p', tcp_Send (H := stored_zlib) true true "peer" huge_message ∅ = Ret (p', Ok frame) /\
     handleConn (H := stored_zlib) 1 (frame ++ []) (New_recvCh 8)
     = Ret (Some (InvalidFrameLength 66034), New_recvCh 8).
Proof.
  rewrite <- huge_message_size.
  apply (tcp_oversize_frame_lost (H := stored_zlib) "peer" huge_message
           (Byte.x00 :: wire_layout huge_message) [] ∅ 8 0).
  - destruct (Encode_cases (H := stored_zlib) huge_message) as [E|(z & Ez & _)]; [|exact E|done].
    cbn [huge_message sample_message Payload]. unfold zlen. rewrite length_replicate. lia.
  - rewrite huge_message_size. unfold MaxFrame. lia.
Defined.
