(* ===== verification/Shutdown.v ===== *)
(** Shutdown: the goroutines of the transports and their end
    ([src/node/transport/udp/udp.go], [src/node/transport/tcp/tcp.go]).

    A goroutine that reads is a program counter; its steps, the consumer's and
    those of [Stop] interleave.  Reading blocks until the peer (TCP) or the
    socket (UDP) has something, so it is a step of the environment, until
    closing the socket makes it fail. *)
From S2P Require Import Prelude Message Transport.

(** * The read loops *)

(** Where a read loop is: before the check of [stopCh], in the read, and at the
    three places of the nested [select] that puts a message on the channel. *)
Inductive pc : Type :=
  | AtSelect | Reading | Pushing (m : WireMessage) | Draining (m : WireMessage)
  | Sending (m : WireMessage) | Done.

Inductive read_result : Type := GotMessage (m : WireMessage) | GotGarbage | ReadError.

Definition put_buf (buf : list WireMessage) (ch : RecvCh) : RecvCh := mkRecvCh (rc_cap ch) buf.

(** The steps of a loop that do not read *)
Inductive loop_step (stop : bool) (ch : RecvCh) : pc -> pc -> RecvCh -> Prop :=
  | l_stop : stop = true -> loop_step stop ch AtSelect Done ch
  | l_go : stop = false -> loop_step stop ch AtSelect Reading ch
  | l_push m : zlen (rc_buf ch) < rc_cap ch ->
      loop_step stop ch (Pushing m) AtSelect (put_buf (rc_buf ch ++ [m]) ch)
  | l_full m : zlen (rc_buf ch) >= rc_cap ch -> loop_step stop ch (Pushing m) (Draining m) ch
  | l_drain m : loop_step stop ch (Draining m) (Sending m) (put_buf (tail (rc_buf ch)) ch)
  | l_send m : zlen (rc_buf ch) < rc_cap ch ->
      loop_step stop ch (Sending m) AtSelect (put_buf (rc_buf ch ++ [m]) ch).

(** [Stop]: not called; [stopCh] closed; sockets closed, in [wg.Wait()]; returned. *)
Inductive phase : Set := Running | Closing | Waiting | Returned.

(** Draining makes room. *)
Lemma tail_room (l : list WireMessage) cap : 0 < cap -> zlen l <= cap -> zlen (tail l) < cap.
Proof. destruct l; cbn; zlia. Qed.

(** Undisturbed, the three places are [push_recv]. *)
Lemma push_recv_steps stop m ch :
  ch_wf ch ->
  rtc (fun a b => loop_step stop a.2 a.1 b.1 b.2) (Pushing m, ch) (AtSelect, push_recv m ch).
Proof.
  intros [Hc Hl]. unfold push_recv. case_decide as Hd.
  - apply rtc_once. cbn. by constructor.
  - eapply rtc_l with (Draining m, ch); [cbn; constructor; lia|].
    eapply rtc_l with (Sending m, put_buf (tail (rc_buf ch)) ch); [cbn; constructor|].
    apply rtc_once. cbn. apply (l_send stop (put_buf _ ch)). by apply tail_room.
Qed.

(** * UDP *)
Module Udp.

Record State := mkState {
  open : bool;              (* the socket *)
  stop : bool;              (* stopCh is closed *)
  stopping : phase;
  loop : pc;
  ch : RecvCh;
}.

(** After [Start]: [Start] that fails leaves no goroutine behind. *)
Definition started (bufSize : Z) : State := mkState true false Running AtSelect (New_recvCh bufSize).

(** [readLoop] after [ReadFromUDP] and [Decode] *)
Definition after_read (stop : bool) (r : read_result) : pc :=
  match r with
  | GotMessage m => Pushing m
  | GotGarbage => AtSelect
  | ReadError => if stop then Done else AtSelect
  end.

Inductive step (s : State) : State -> Prop :=
  | s_loop p ch' : loop_step (stop s) (ch s) (loop s) p ch' ->
      step s (mkState (open s) (stop s) (stopping s) p ch')
  | s_read r : loop s = Reading -> open s = true \/ r = ReadError ->
      step s (mkState (open s) (stop s) (stopping s) (after_read (stop s) r) (ch s))
  | s_recv m ch' : pop_recv (ch s) = Some (m, ch') ->
      step s (mkState (open s) (stop s) (stopping s) (loop s) ch')
  | s_stop : stopping s = Running ->
      step s (mkState (open s) true Closing (loop s) (ch s))
  | s_close : stopping s = Closing ->
      step s (mkState false (stop s) Waiting (loop s) (ch s))
  | s_return : stopping s = Waiting -> loop s = Done ->
      step s (mkState (open s) (stop s) Returned (loop s) (ch s)).

Record inv (s : State) : Prop := {
  inv_ch : ch_wf (ch s);
  inv_room : forall m, loop s = Sending m -> zlen (rc_buf (ch s)) < rc_cap (ch s);
  inv_stop : stopping s <> Running -> stop s = true;
  inv_open : stopping s = Waiting \/ stopping s = Returned -> open s = false;
  inv_done : stopping s = Returned -> loop s = Done;
}.

Lemma inv_started n : inv (started n).
Proof. split; try done; [apply New_recvCh_wf|by intros []]. Qed.

Lemma inv_step s s' : inv s -> step s s' -> inv s'.
Proof.
  intros [[Hc Hl] Hr Hs Ho Hd] Hst. unfold ch_wf in *.
  destruct Hst as [p ch' Hlp|r Hp Hopen|m ch' Hpop|Hph|Hph|Hph Hp]; split; cbn in *; try done; try tauto.
  - pose proof (tail_room _ _ Hc Hl). destruct Hlp; split; cbn; rewrite ?zlen_app; zlia.
  - intros m0. destruct Hlp; try done. intros _. by apply tail_room.
  - intros Hph. rewrite (Hd Hph) in Hlp. inversion Hlp.
  - intros m0. destruct r; try done. by destruct (stop s).
  - intros Hph. specialize (Hd Hph). congruence.
  - unfold pop_recv in Hpop. destruct (rc_buf (ch s)) eqn:E; [done|]. injection Hpop as <- <-.
    rewrite zlen_cons in Hl. split; cbn; lia.
  - intros m0 Hm. specialize (Hr m0 Hm). unfold pop_recv in Hpop. destruct (rc_buf (ch s)) eqn:E; [done|].
    injection Hpop as <- <-. rewrite zlen_cons in Hr. cbn. lia.
  - intros [?|?]; done.
  - intros _. apply Hs. congruence.
  - intros _. apply Hs. congruence.
Qed.

(** What is left to do once [Stop] has begun *)
Definition weight (p : pc) : nat :=
  match p with
  | Done => 0 | AtSelect => 1 | Sending _ => 2 | Draining _ => 3 | Pushing _ => 4 | Reading => 5
  end.

Definition measure (s : State) : nat :=
  4 * weight (loop s) + length (rc_buf (ch s)) +
  match stopping s with Running => 3 | Closing => 2 | Waiting => 1 | Returned => 0 end.

Lemma step_decreases s s' : stop s = true -> step s s' -> (measure s' < measure s)%nat /\ stop s' = true.
Proof.
  intros Hs Hst. unfold measure.
  destruct Hst as [p ch' Hlp|r Hp Hopen|m ch' Hpop|Hph|Hph|Hph Hp]; cbn; (split; [|done]).
  - destruct Hlp; cbn; rewrite ?length_app; cbn; try lia; [congruence|].
    destruct (rc_buf (ch s)); cbn; lia.
  - rewrite Hp, Hs. destruct r; cbn; lia.
  - unfold pop_recv in Hpop. destruct (rc_buf (ch s)) eqn:E; [done|]. injection Hpop as <- <-. cbn. lia.
  - rewrite Hph. lia.
  - rewrite Hph. lia.
  - rewrite Hph. lia.
Qed.

(** Until [Stop] has returned, something can happen that does not need the network. *)
Lemma progress s : inv s -> stopping s = Closing \/ stopping s = Waiting -> exists s', step s s'.
Proof.
  intros [_ Hr Hs Ho _] [Hph|Hph]; [eexists; by apply s_close|].
  assert (Hstop : stop s = true) by (apply Hs; congruence).
  destruct (loop s) as [| |m|m|m|] eqn:El.
  - eexists. apply s_loop. rewrite El. by constructor.
  - eexists. apply (s_read s ReadError); auto.
  - destruct (decide (zlen (rc_buf (ch s)) < rc_cap (ch s))).
    + eexists. apply s_loop. rewrite El. by constructor.
    + eexists. apply s_loop. rewrite El. apply l_full. lia.
  - eexists. apply s_loop. rewrite El. constructor.
  - eexists. apply s_loop. rewrite El. constructor. by apply (Hr m).
  - eexists. by apply s_return.
Qed.

Lemma inv_reach n s : rtc step (started n) s -> inv s.
Proof.
  intros Hr. generalize (inv_started n). induction Hr as [|x y z Hst _ IH]; [done|].
  intros Hx. apply IH. by eapply inv_step.
Qed.

Lemma run_bounded k s s' : stop s = true -> nsteps step k s s' -> (k + measure s' <= measure s)%nat /\ stop s' = true.
Proof.
  intros Hs Hk. revert Hs. induction Hk as [|k x y z Hst _ IH]; [done|]. intros Hs.
  destruct (step_decreases x y Hs Hst) as [Hlt Hs']. destruct (IH Hs'). split; [lia|done].
Qed.

Lemma measure_bound s : stopping s <> Running -> ch_wf (ch s) -> Z.of_nat (measure s) <= 22 + rc_cap (ch s).
Proof.
  intros Hph [_ Hl]. unfold measure, zlen in *. assert (weight (loop s) <= 5)%nat by (destruct (loop s); cbn; lia).
  destruct (stopping s); [done|lia..].
Qed.

End Udp.

(** * TCP *)
Module Tcp.

(** [listening]: the listener is open; [accepting]: [acceptLoop] has not
    returned; a handler per accepted connection. *)
Record State := mkState {
  listening : bool;
  accepting : bool;
  stop : bool;
  stopping : phase;
  handlers : list pc;
  ch : RecvCh;
}.

Definition started (bufSize : Z) : State := mkState true true false Running [] (New_recvCh bufSize).

(** [handleConn] after [readFrame]: any error ends it. *)
Definition after_read (r : read_result) : pc :=
  match r with GotMessage m => Pushing m | _ => Done end.

(** What the program does by itself; [Stop] closes the listener and the
    outbound connections of the pool. *)
Inductive own_step (s : State) : State -> Prop :=
  | s_handler i p p' ch' : handlers s !! i = Some p -> loop_step (stop s) (ch s) p p' ch' ->
      own_step s (mkState (listening s) (accepting s) (stop s) (stopping s) (<[i := p']> (handlers s)) ch')
  | s_recv m ch' : pop_recv (ch s) = Some (m, ch') ->
      own_step s (mkState (listening s) (accepting s) (stop s) (stopping s) (handlers s) ch')
  | s_accept_end : accepting s = true -> listening s = false -> stop s = true ->
      own_step s (mkState (listening s) false (stop s) (stopping s) (handlers s) (ch s))
  | s_stop : stopping s = Running ->
      own_step s (mkState (listening s) (accepting s) true Closing (handlers s) (ch s))
  | s_close : stopping s = Closing ->
      own_step s (mkState false (accepting s) (stop s) Waiting (handlers s) (ch s))
  | s_return : stopping s = Waiting -> accepting s = false -> Forall (eq Done) (handlers s) ->
      own_step s (mkState (listening s) (accepting s) (stop s) Returned (handlers s) (ch s)).

(** What the remote ends do: connect, and send a frame or close. *)
Inductive remote_step (s : State) : State -> Prop :=
  | s_connect : listening s = true -> accepting s = true ->
      remote_step s (mkState (listening s) (accepting s) (stop s) (stopping s) (handlers s ++ [AtSelect]) (ch s))
  | s_read i r : handlers s !! i = Some Reading ->
      remote_step s (mkState (listening s) (accepting s) (stop s) (stopping s)
                       (<[i := after_read r]> (handlers s)) (ch s)).

Definition step (s s' : State) : Prop := own_step s s' \/ remote_step s s'.

(** Once [Stop] has returned, no goroutine is left. *)
Definition quiet (s : State) : Prop :=
  stopping s = Returned -> accepting s = false /\ Forall (eq Done) (handlers s).

Lemma quiet_step s s' : quiet s -> step s s' -> quiet s'.
Proof.
  unfold quiet. intros Hq [Hst|Hst].
  - destruct Hst as [i p p' ch' Hi Hl|m ch' Hpop|Hli Hs|Hph|Hph|Hph Ha Hd]; cbn; try done.
    + intros Hr. destruct (Hq Hr) as [_ Hd]. rewrite Forall_forall in Hd.
      specialize (Hd p (list_elem_of_lookup_2 _ _ _ Hi)) as <-. inversion Hl.
    + intros Hr. by destruct (Hq Hr).
  - destruct Hst as [Hli Ha|i r Hi]; cbn; intros Hr; destruct (Hq Hr) as [Ha' Hd]; [congruence|].
    rewrite Forall_forall in Hd. by specialize (Hd Reading (list_elem_of_lookup_2 _ _ _ Hi)).
Qed.

(** Then the channel only drains. *)
Lemma returned_drains s s' :
  quiet s -> stopping s = Returned -> step s s' ->
  stopping s' = Returned /\ exists k, rc_buf (ch s') = drop k (rc_buf (ch s)).
Proof.
  intros Hq Hr Hst. destruct (Hq Hr) as [Ha Hd]. rewrite Forall_forall in Hd.
  destruct Hst as [[i p p' ch' Hi Hl|m ch' Hpop| | | |]|[|i r Hi]]; cbn; try congruence;
    try (split; [done|by exists 0%nat]).
  - specialize (Hd p (list_elem_of_lookup_2 _ _ _ Hi)) as <-. inversion Hl.
  - split; [done|]. unfold pop_recv in Hpop. destruct (rc_buf (ch s)) as [|x l]; [done|].
    injection Hpop as <- <-. by exists 1%nat.
Qed.

(** A handler that waits for its peer goes on waiting whatever the program does,
    and [Stop] waits for it. *)
Definition held (i : nat) (s : State) : Prop := handlers s !! i = Some Reading /\ stopping s <> Returned.

Lemma held_step i s s' : held i s -> own_step s s' -> held i s'.
Proof.
  intros [Hi Hr] Hst. destruct Hst as [j p p' ch' Hj Hl|m ch' Hpop|Hli Hs|Hph|Hph|Hph Ha Hd];
    split; cbn; try done.
  - destruct (decide (j = i)) as [->|Hne]; [|by rewrite list_lookup_insert_ne].
    rewrite Hi in Hj. injection Hj as <-. inversion Hl.
  - rewrite Forall_forall in Hd. specialize (Hd Reading (list_elem_of_lookup_2 _ _ _ Hi)). done.
Qed.

End Tcp.

(** * Properties *)

(** C15: stopping the UDP transport ends.  From the moment [Stop] has closed
    [stopCh], whatever datagrams still arrive and however the goroutines
    interleave, at most 22 plus the capacity of the channel steps can happen;
    and nothing but the return of [Stop] can end them, with the read loop
    over: in particular the loop is never stuck on a full channel. *)
Theorem udp_stop_terminates bufSize s :
  rtc Udp.step (Udp.started bufSize) s -> Udp.stopping s <> Running ->
  (forall k s', nsteps Udp.step k s s' -> Z.of_nat k <= 22 + rc_cap (Udp.ch s)) /\
  (forall s', rtc Udp.step s s' -> (forall s2, ~ Udp.step s' s2) ->
     Udp.stopping s' = Returned /\ Udp.loop s' = Done).
Proof.
  intros Hr Hph. pose proof (Udp.inv_reach _ _ Hr) as Hi. pose proof (Udp.inv_stop _ Hi Hph) as Hs.
  split.
  - intros k s' Hk. destruct (Udp.run_bounded k s s' Hs Hk) as [Hb _].
    pose proof (Udp.measure_bound s Hph (Udp.inv_ch _ Hi)). lia.
  - intros s' Hr' Hstuck. pose proof (Udp.inv_reach _ s' ltac:(by etrans)) as Hi'.
    apply rtc_nsteps in Hr' as [k Hk].
    assert (Hph' : Udp.stopping s' = Returned).
    { destruct (Udp.stopping s') eqn:E; [|..|done].
      - exfalso. apply (Hstuck (Udp.mkState (Udp.open s') true Closing (Udp.loop s') (Udp.ch s'))). by constructor.
      - destruct (Udp.progress s' Hi') as [s2 Hs2]; [by left|]. by destruct (Hstuck s2).
      - destruct (Udp.progress s' Hi') as [s2 Hs2]; [by right|]. by destruct (Hstuck s2). }
    split; [done|by apply (Udp.inv_done _ Hi')].
Qed.

(** C25: stopping the TCP transport.  When [Stop] has returned no goroutine is left
    and the channel gets no further message; what it holds can still be read.
    But [Stop] closes no inbound connection: while one handler waits for its
    peer, no step of the program itself can make [Stop] return. *)
Theorem tcp_stop_waits_for_peers bufSize s :
  rtc Tcp.step (Tcp.started bufSize) s ->
  (Tcp.stopping s = Returned ->
     Tcp.accepting s = false /\ Forall (eq Done) (Tcp.handlers s) /\
     forall s', rtc Tcp.step s s' -> exists k, rc_buf (Tcp.ch s') = drop k (rc_buf (Tcp.ch s))) /\
  (forall i s', Tcp.handlers s !! i = Some Reading -> rtc Tcp.own_step s s' -> Tcp.stopping s' <> Returned).
Proof.
  intros Hr.
  assert (Hq : Tcp.quiet s).
  { assert (Hq0 : Tcp.quiet (Tcp.started bufSize)) by done. revert Hq0.
    induction Hr as [|x y z Hst _ IH]; [done|]. intros Hx. apply IH. by eapply Tcp.quiet_step. }
  split.
  - intros Hph. destruct (Hq Hph) as [Ha Hd]. split; [done|]. split; [done|]. clear Ha Hd Hr.
    intros s' Hs'. revert Hq Hph. induction Hs' as [x|x y z Hst _ IH]; intros Hq Hph; [by exists 0%nat|].
    destruct (Tcp.returned_drains x y Hq Hph Hst) as [Hph' [k Ek]].
    destruct (IH ltac:(by eapply Tcp.quiet_step) Hph') as [k' Ek'].
    exists (k + k')%nat. by rewrite Ek', Ek, drop_drop.
  - intros i s' Hi Hs'.
    assert (Hheld : Tcp.held i s).
    { split; [done|]. intros Hph. destruct (Hq Hph) as [_ Hd]. rewrite Forall_forall in Hd.
      by specialize (Hd Reading (list_elem_of_lookup_2 _ _ _ Hi)). }
    clear Hi Hq Hr. induction Hs' as [x|x y z Hst _ IH]; [by destruct Hheld|].
    apply IH. by eapply Tcp.held_step.
Qed.

(** ** Witnesses *)

Definition some_message : WireMessage :=
  mkMessage TypeState 1 2 1 0 0 0 TTLForever PriorityState [].

(** The loop is about to put a second message on a full channel when it is told to stop. *)
Definition udp_full : Udp.State :=
  Udp.mkState true true Closing (Pushing some_message) (mkRecvCh 1 [some_message]).

Lemma udp_full_reachable : rtc Udp.step (Udp.started 1) udp_full.
Proof.
  set (c0 := New_recvCh 1). set (c1 := mkRecvCh 1 [some_message]).
  apply rtc_l with (Udp.mkState true false Running Reading c0); [by apply Udp.s_loop, l_go|].
  apply rtc_l with (Udp.mkState true false Running (Pushing some_message) c0).
  { apply (Udp.s_read (Udp.mkState true false Running Reading c0) (GotMessage some_message)); [done|by left]. }
  apply rtc_l with (Udp.mkState true false Running AtSelect c1); [by apply Udp.s_loop, (l_push _ c0)|].
  apply rtc_l with (Udp.mkState true false Running Reading c1); [by apply Udp.s_loop, l_go|].
  apply rtc_l with (Udp.mkState true false Running (Pushing some_message) c1).
  { apply (Udp.s_read (Udp.mkState true false Running Reading c1) (GotMessage some_message)); [done|by left]. }
  apply rtc_once. by apply (Udp.s_stop (Udp.mkState true false Running (Pushing some_message) c1)).
Qed.

Lemma udp_stop_terminates_witness :
  (forall k s', nsteps Udp.step k udp_full s' -> Z.of_nat k <= 23) /\
  (forall s', rtc Udp.step udp_full s' -> (forall s2, ~ Udp.step s' s2) ->
     Udp.stopping s' = Returned /\ Udp.loop s' = Done).
Proof. apply (udp_stop_terminates 1 udp_full); [exact udp_full_reachable|discriminate]. Defined.

(** One inbound connection is open when [Stop] is called. *)
Definition tcp_open : Tcp.State := Tcp.mkState false false true Waiting [Reading] (New_recvCh 4).

Lemma tcp_open_reachable : rtc Tcp.step (Tcp.started 4) tcp_open.
Proof.
  set (c := New_recvCh 4).
  apply rtc_l with (Tcp.mkState true true false Running [AtSelect] c); [right; by apply (Tcp.s_connect (Tcp.started 4))|].
  apply rtc_l with (Tcp.mkState true true false Running [Reading] c).
  { left. by apply (Tcp.s_handler (Tcp.mkState true true false Running [AtSelect] c) 0 AtSelect), l_go. }
  apply rtc_l with (Tcp.mkState true true true Closing [Reading] c).
  { left. by apply (Tcp.s_stop (Tcp.mkState true true false Running [Reading] c)). }
  apply rtc_l with (Tcp.mkState false true true Waiting [Reading] c).
  { left. by apply (Tcp.s_close (Tcp.mkState true true true Closing [Reading] c)). }
  apply rtc_once. left. by apply (Tcp.s_accept_end (Tcp.mkState false true true Waiting [Reading] c)).
Qed.

Lemma tcp_stop_waits_for_peers_witness :
  Tcp.stopping tcp_open = Waiting /\
  (forall s', rtc Tcp.own_step tcp_open s' -> Tcp.stopping s' <> Returned).
Proof.
  split; [reflexivity|]. intros s'. apply (proj2 (tcp_stop_waits_for_peers 4 tcp_open tcp_open_reachable) 0%nat). reflexivity.
Defined.

(** Two handlers drain one message each and then send one each: when the
    consumer has gone, the second can never send, and [Stop] waits for it. *)
Definition tcp_blocked : Tcp.State :=
  Tcp.mkState false false true Waiting [Done; Sending some_message] (mkRecvCh 1 [some_message]).

Lemma two_senders_block s' :
  Tcp.own_step tcp_blocked s' ->
  s' = Tcp.mkState false false true Waiting [Done; Sending some_message] (mkRecvCh 1 []).
Proof.
  inversion 1 as [i p p' ch' Hi Hl|m ch' Hpop| | | |Hph Ha Hd]; subst; try done.
  - destruct i as [|[|i]]; cbn in Hi; try done; injection Hi as <-; inversion Hl; subst; cbn in *; zlia.
  - by injection Hpop as <- <-.
  - match goal with Hf : Forall _ _ |- _ => cbn in Hf; inversion Hf as [|x xs _ Ht]; inversion Ht; done end.
Qed.

Section blocked.
#[local] Abbreviation m := some_message.
#[local] Abbreviation live hs buf := (Tcp.mkState true true false Running hs (mkRecvCh 1 buf)).

Lemma read_step hs buf i : hs !! i = Some Reading ->
  Tcp.step (live hs buf) (live (<[i := Pushing m]> hs) buf).
Proof. intros Hi. right. exact (Tcp.s_read (live hs buf) i (GotMessage m) Hi). Qed.

Lemma handler_step hs buf i p p' buf' :
  hs !! i = Some p -> loop_step false (mkRecvCh 1 buf) p p' (mkRecvCh 1 buf') ->
  Tcp.step (live hs buf) (live (<[i := p']> hs) buf').
Proof. intros Hi Hl. left. exact (Tcp.s_handler (live hs buf) i p p' _ Hi Hl). Qed.

Lemma tcp_blocked_reachable : rtc Tcp.step (Tcp.started 1) tcp_blocked.
Proof.
  eapply rtc_l; [right; by apply (Tcp.s_connect (live [] []))|].
  eapply rtc_l; [right; by apply (Tcp.s_connect (live [AtSelect] []))|].
  eapply rtc_l; [apply (handler_step [AtSelect; AtSelect] [] 0 AtSelect Reading []); [done|by constructor]|].
  eapply rtc_l; [apply (handler_step [Reading; AtSelect] [] 1 AtSelect Reading []); [done|by constructor]|].
  eapply rtc_l; [apply (read_step [Reading; Reading] [] 0); done|].
  eapply rtc_l; [apply (handler_step [Pushing m; Reading] [] 0 (Pushing m) AtSelect [m]); [done|by apply (l_push false (mkRecvCh 1 []))]|].
  eapply rtc_l; [apply (handler_step [AtSelect; Reading] [m] 0 AtSelect Reading [m]); [done|by constructor]|].
  eapply rtc_l; [apply (read_step [Reading; Reading] [m] 0); done|].
  eapply rtc_l; [apply (read_step [Pushing m; Reading] [m] 1); done|].
  eapply rtc_l; [apply (handler_step [Pushing m; Pushing m] [m] 0 (Pushing m) (Draining m) [m]); [done|by apply l_full]|].
  eapply rtc_l; [apply (handler_step [Draining m; Pushing m] [m] 1 (Pushing m) (Draining m) [m]); [done|by apply l_full]|].
  eapply rtc_l; [apply (handler_step [Draining m; Draining m] [m] 0 (Draining m) (Sending m) []); [done|apply (l_drain false (mkRecvCh 1 [m]))]|].
  eapply rtc_l; [apply (handler_step [Sending m; Draining m] [] 1 (Draining m) (Sending m) []); [done|apply (l_drain false (mkRecvCh 1 []))]|].
  eapply rtc_l; [apply (handler_step [Sending m; Sending m] [] 0 (Sending m) AtSelect [m]); [done|by apply (l_send false (mkRecvCh 1 []))]|].
  eapply rtc_l; [left; by apply (Tcp.s_stop (live [AtSelect; Sending m] [m]))|].
  eapply rtc_l; [left; by apply (Tcp.s_close (Tcp.mkState true true true Closing [AtSelect; Sending m] (mkRecvCh 1 [m])))|].
  eapply rtc_l; [left; by apply (Tcp.s_handler (Tcp.mkState false true true Waiting [AtSelect; Sending m] (mkRecvCh 1 [m])) 0 AtSelect Done), l_stop|].
  apply rtc_once. left. by apply (Tcp.s_accept_end (Tcp.mkState false true true Waiting [Done; Sending m] (mkRecvCh 1 [m]))).
Qed.

End blocked.
