(* ===== verification/Heap.v ===== *)
(** Go's [container/heap], as the send queue uses it.

    A heap is a slice of elements with a boolean [Less]; [Swap] also tells
    both elements their new position, which is why elements carry a [place]
    operation and a [key] that placing does not change.  The order and the
    contents of a heap only depend on the keys.

    [up] and [down] are the loops of the Go library with a fuel argument; the
    specifications below show that the fuel given by the callers is enough. *)
From S2P Require Import Prelude.

(** What [heap.Interface] and the order of the elements provide. *)
Class HeapElem (A K : Type) := {
  key : A -> K;
  place : nat -> A -> A;
  position : A -> nat;
  less : K -> K -> bool;
  key_place i a : key (place i a) = key a;
  position_place i a : position (place i a) = i;
  less_asym x y : less x y = true -> less y x = false;
  less_negtrans x y z : less y x = false -> less z y = false -> less z x = false
}.

Section heap_ops.
Context `{HeapElem A K}.

Definition Less (h : list A) (i j : nat) : bool :=
  match h !! i, h !! j with
  | Some a, Some b => less (key a) (key b)
  | _, _ => false
  end.

Definition Swap (h : list A) (i j : nat) : list A :=
  match h !! i, h !! j with
  | Some a, Some b => <[j := place j a]> (<[i := place i b]> h)
  | _, _ => h
  end.

Definition parent (j : nat) : nat := (j - 1) `div` 2.

Fixpoint up (fuel : nat) (h : list A) (j : nat) : list A :=
  match fuel with
  | O => h
  | S fuel =>
      let i := parent j in
      if decide (i = j) then h
      else if negb (Less h j i) then h
      else up fuel (Swap h i j) i
  end.

(** Returns the slice and the final position; Go's [down] returns whether that
    position is beyond the start. *)
Fixpoint down (fuel : nat) (h : list A) (i n : nat) : list A * nat :=
  match fuel with
  | O => (h, i)
  | S fuel =>
      let j1 := (2 * i + 1)%nat in
      if decide (n <= j1)%nat then (h, i)
      else
        let j2 := (j1 + 1)%nat in
        let j := if decide (j2 < n)%nat then (if Less h j2 j1 then j2 else j1) else j1 in
        if negb (Less h j i) then (h, i)
        else down fuel (Swap h i j) j n
  end.

(** [msgHeap.Pop]: cuts off the last element. *)
Definition pop_last (h : list A) : option (A * list A) :=
  match last h with
  | Some a => Some (a, take (length h - 1) h)
  | None => None
  end.

(** [heap.Push] *)
Definition heap_Push (h : list A) (x : A) : list A :=
  let h := h ++ [place (length h) x] in
  up (length h) h (length h - 1).

(** [heap.Pop]; on an empty heap [Swap(0, -1)] panics. *)
Definition heap_Pop (h : list A) : outcome (A * list A) :=
  let n := (length h - 1)%nat in
  match pop_last (fst (down n (Swap h 0 n) 0 n)) with
  | Some r => Ret r
  | None => Panic (IndexOutOfRange (-1) 0)
  end.

(** [heap.Remove] *)
Definition heap_Remove (h : list A) (i : nat) : outcome (A * list A) :=
  let n := (length h - 1)%nat in
  if decide (length h <= i)%nat then Panic (IndexOutOfRange (Z.of_nat i) (zlen h))
  else
    let h :=
      if decide (n = i) then h
      else let h := Swap h i n in
           let '(h', i') := down n h i n in
           if decide (i < i')%nat then h' else up (S i) h' i
    in
    match pop_last h with
    | Some r => Ret r
    | None => Panic (IndexOutOfRange (-1) 0)
    end.
End heap_ops.

(** * Order of keys *)

Section heap_lemmas.
Context `{HeapElem A K}.
Implicit Types h : list A.

Definition kle (x y : K) : Prop := less y x = false.

Lemma kle_refl x : kle x x.
Proof. unfold kle. destruct (less x x) eqn:E; [|done]. by rewrite (less_asym _ _ E) in E. Qed.

Lemma kle_trans x y z : kle x y -> kle y z -> kle x z.
Proof. apply less_negtrans. Qed.

Lemma less_kle x y : less x y = true -> kle x y.
Proof. apply less_asym. Qed.

(** The keys of a heap, by position. *)
Definition keys h : list K := key <$> h.

Lemma keys_lookup h i : keys h !! i = key <$> h !! i.
Proof. apply list_lookup_fmap. Qed.

Lemma length_keys h : length (keys h) = length h.
Proof. apply length_fmap. Qed.

Lemma Less_keys h i j x y :
  keys h !! i = Some x -> keys h !! j = Some y -> Less h i j = less x y.
Proof.
  rewrite !keys_lookup. unfold Less.
  destruct (h !! i), (h !! j); cbn; intros; by simplify_eq.
Qed.

Lemma length_Swap h i j : length (Swap h i j) = length h.
Proof. unfold Swap. repeat case_match; rewrite ?length_insert; done. Qed.

Lemma lookup_Swap_ne h i j k : k <> i -> k <> j -> Swap h i j !! k = h !! k.
Proof.
  intros Hi Hj. unfold Swap. destruct (h !! i), (h !! j); [|done..].
  by rewrite !list_lookup_insert_ne by done.
Qed.

Definition swap_pos (i j k : nat) : nat :=
  if decide (k = i) then j else if decide (k = j) then i else k.

Lemma keys_Swap h i j k :
  (i < length h)%nat -> (j < length h)%nat ->
  keys (Swap h i j) !! k = keys h !! swap_pos i j k.
Proof.
  intros Hi Hj. rewrite !keys_lookup. unfold Swap, swap_pos.
  destruct (lookup_lt_is_Some_2 h i Hi) as [a Ha], (lookup_lt_is_Some_2 h j Hj) as [b Hb].
  rewrite Ha, Hb. destruct (decide (k = j)) as [->|Hkj].
  - rewrite list_lookup_insert_eq by (by rewrite length_insert). case_decide; subst; cbn.
    + by rewrite Ha, key_place.
    + by rewrite Ha, key_place.
  - rewrite list_lookup_insert_ne by done. case_decide; subst.
    + rewrite list_lookup_insert_eq by done. rewrite Hb. cbn. by rewrite key_place.
    + by rewrite list_lookup_insert_ne.
Qed.

Lemma keys_Swap_Permutation h i j : keys (Swap h i j) ≡ₚ keys h.
Proof.
  unfold Swap. destruct (h !! i) as [a|] eqn:Ha; [|done].
  destruct (h !! j) as [b|] eqn:Hb; [|done]. unfold keys.
  rewrite !list_fmap_insert, !key_place.
  by apply Permutation_insert_swap; rewrite list_lookup_fmap, ?Ha, ?Hb.
Qed.

(** * Heap order *)

(** The key at [i] may be the parent of the key at [j]. *)
Definition ord h (i j : nat) : Prop :=
  forall x y, keys h !! i = Some x -> keys h !! j = Some y -> kle x y.

(** Heap order on the first [n] positions. *)
Definition heap_upto (n : nat) h : Prop :=
  forall k, (0 < k < n)%nat -> ord h (parent k) k.

Definition is_heap h : Prop := heap_upto (length h) h.

Lemma parent_spec k : (0 < k)%nat -> (2 * parent k + 1 <= k <= 2 * parent k + 2)%nat.
Proof.
  intros Hk. unfold parent. pose proof (Nat.div_mod_eq (k - 1) 2).
  pose proof (Nat.mod_upper_bound (k - 1) 2). lia.
Qed.

Lemma parent_child k i : (0 < k)%nat -> parent k = i <-> k = (2 * i + 1)%nat \/ k = (2 * i + 2)%nat.
Proof. intros Hk. pose proof (parent_spec k Hk). lia. Qed.

Lemma parent_lt k : (0 < k)%nat -> (parent k < k)%nat.
Proof. intros Hk. pose proof (parent_spec k Hk). lia. Qed.

Lemma parent_0 : parent 0 = 0%nat.
Proof. done. Qed.

Lemma ord_trans h i j k : (j < length h)%nat -> ord h i j -> ord h j k -> ord h i k.
Proof.
  intros Hj H1 H2 x z Hx Hz. rewrite <- length_keys in Hj.
  destruct (lookup_lt_is_Some_2 _ _ Hj) as [y Hy]. eapply kle_trans; eauto.
Qed.

Lemma ord_Swap h i j a b :
  (i < length h)%nat -> (j < length h)%nat ->
  ord h (swap_pos i j a) (swap_pos i j b) -> ord (Swap h i j) a b.
Proof. intros Hi Hj Ho x y. rewrite !keys_Swap by done. apply Ho. Qed.

Lemma Less_true_ord h i j : Less h i j = true -> ord h i j.
Proof. intros Hl x y Hx Hy. rewrite (Less_keys _ _ _ _ _ Hx Hy) in Hl. by apply less_kle. Qed.

Lemma Less_false_ord h i j : Less h i j = false -> ord h j i.
Proof. intros Hl x y Hx Hy. by rewrite (Less_keys _ _ _ _ _ Hy Hx) in Hl. Qed.

Lemma swap_pos_l i j : swap_pos i j i = j.
Proof. unfold swap_pos. by rewrite decide_True. Qed.
Lemma swap_pos_r i j : swap_pos i j j = i.
Proof. unfold swap_pos. repeat case_decide; congruence. Qed.
Lemma swap_pos_ne i j k : k <> i -> k <> j -> swap_pos i j k = k.
Proof. intros. unfold swap_pos. by rewrite !decide_False. Qed.

(** * Sifting up *)

(** Heap order holds except between [j] and its parent, and the parent of
    [j] is above the children of [j]. *)
Definition up_inv (n : nat) h (j : nat) : Prop :=
  (forall k, (0 < k < n)%nat -> k <> j -> ord h (parent k) k) /\
  (forall c, (0 < c < n)%nat -> parent c = j -> (0 < j)%nat -> ord h (parent j) c).

Lemma up_inv_Swap n h j :
  (0 < j < n)%nat -> (n <= length h)%nat -> up_inv n h j -> Less h j (parent j) = true ->
  up_inv n (Swap h (parent j) j) (parent j).
Proof.
  intros Hj Hn [Hk Hg] Hless. apply Less_true_ord in Hless as Hji.
  pose proof (parent_lt j ltac:(lia)) as Hpj. remember (parent j) as i eqn:Hi.
  split.
  - intros k Hkr Hki. apply ord_Swap; [lia|lia|].
    pose proof (parent_lt k ltac:(lia)) as Hpk.
    destruct (decide (k = j)) as [->|Hkj].
    { by rewrite <- Hi, swap_pos_l, swap_pos_r. }
    rewrite (swap_pos_ne i j k) by done.
    destruct (decide (parent k = i)) as [Hpi|Hpi].
    { rewrite Hpi, swap_pos_l. apply ord_trans with i; [lia|done|].
      rewrite <- Hpi. by apply Hk. }
    destruct (decide (parent k = j)) as [Hpj'|Hpj'].
    { rewrite Hpj', swap_pos_r. apply Hg; [lia|done|lia]. }
    rewrite swap_pos_ne by done. by apply Hk.
  - intros c Hc Hpc Hi0. apply ord_Swap; [lia|lia|].
    pose proof (parent_lt i Hi0). rewrite (swap_pos_ne i j (parent i)) by lia.
    assert (Hii : ord h (parent i) i) by (apply Hk; lia).
    destruct (decide (c = j)) as [->|Hcj]; [by rewrite swap_pos_r|].
    assert (c <> i) by (pose proof (parent_lt c ltac:(lia)); lia).
    rewrite swap_pos_ne by done. apply ord_trans with i; [lia|done|].
    rewrite <- Hpc. by apply Hk.
Qed.

Lemma up_spec fuel n h j :
  (j < fuel)%nat -> (j < n)%nat -> (n <= length h)%nat -> up_inv n h j ->
  heap_upto n (up fuel h j) /\ keys (up fuel h j) ≡ₚ keys h /\
  length (up fuel h j) = length h /\
  (forall k, (n <= k)%nat -> up fuel h j !! k = h !! k).
Proof.
  revert h j; induction fuel as [|fuel IH]; intros h j Hf Hj Hn Hinv; [lia|].
  cbn [up]. case_decide as Hij.
  - assert (j = 0)%nat as ->.
    { destruct (decide (j = 0)%nat); [done|]. pose proof (parent_lt j). lia. }
    split_and!; [|done|done|done]. intros k Hk. apply Hinv; lia.
  - assert (0 < j)%nat by (destruct j; [by rewrite parent_0 in Hij|lia]).
    pose proof (parent_lt j ltac:(lia)).
    destruct (Less h j (parent j)) eqn:E; cbn [negb].
    + destruct (IH (Swap h (parent j) j) (parent j)) as (E1 & E2 & E3 & E4);
        [lia|lia|by rewrite length_Swap|by apply up_inv_Swap; [lia| | |]|].
      split_and!; [done| |by rewrite E3, length_Swap|].
      * by rewrite E2, keys_Swap_Permutation.
      * intros k Hk. by rewrite E4, lookup_Swap_ne by lia.
    + split_and!; [|done|done|done]. intros k Hk.
      destruct (decide (k = j)) as [->|]; [by apply Less_false_ord|by apply Hinv].
Qed.

(** * Sifting down *)

(** On the first [n] positions heap order holds except between [i] and its
    children (and, unless [strong], between [i] and its parent); the parent of
    [i] is above the children of [i]. *)
Definition down_inv (strong : bool) (n : nat) h (i : nat) : Prop :=
  (forall k, (0 < k < n)%nat -> parent k <> i -> (strong = false -> k <> i) ->
     ord h (parent k) k) /\
  (forall c, (0 < c < n)%nat -> parent c = i -> (0 < i)%nat -> ord h (parent i) c).

(** Position chosen by [down] among the children of [i]. *)
Definition min_child h (i n j : nat) : Prop :=
  parent j = i /\ (0 < j < n)%nat /\
  forall c, (0 < c < n)%nat -> parent c = i -> ord h j c.

Lemma min_child_choice h i n :
  (2 * i + 1 < n)%nat ->
  min_child h i n
    (if decide (2 * i + 1 + 1 < n)%nat
     then (if Less h (2 * i + 1 + 1) (2 * i + 1) then 2 * i + 1 + 1 else 2 * i + 1)
     else 2 * i + 1)%nat.
Proof.
  intros Hn. assert (Href : forall j, ord h j j) by
    (intros j x y Hx Hy; simplify_eq; apply kle_refl).
  assert (Hc : forall c, (0 < c)%nat -> parent c = i -> c = (2 * i + 1)%nat \/ c = (2 * i + 1 + 1)%nat).
  { intros c Hc Hpc. apply parent_child in Hpc; lia. }
  unfold min_child. case_decide.
  - destruct (Less h _ _) eqn:E.
    + split_and!; [apply parent_child; lia|lia|lia|]. intros c Hcn Hpc.
      destruct (Hc c) as [-> | ->]; [lia|done| |done]. by apply Less_true_ord.
    + split_and!; [apply parent_child; lia|lia|lia|]. intros c Hcn Hpc.
      destruct (Hc c) as [-> | ->]; [lia|done|done|]. by apply Less_false_ord.
  - split_and!; [apply parent_child; lia|lia|lia|]. intros c Hcn Hpc.
    destruct (Hc c) as [-> | ->]; [lia|done|done|lia].
Qed.

Lemma down_inv_Swap strong h i n j :
  (n <= length h)%nat -> (i < n)%nat -> down_inv strong n h i -> min_child h i n j ->
  Less h j i = true -> down_inv true n (Swap h i j) j.
Proof.
  intros Hn Hi [Hk Hg] (Hpj & Hj & Hmin) Hless. apply Less_true_ord in Hless as Hji.
  pose proof (parent_lt j ltac:(lia)).
  split.
  - intros k Hkr Hpk _. apply ord_Swap; [lia|lia|].
    pose proof (parent_lt k ltac:(lia)).
    destruct (decide (k = j)) as [->|Hkj].
    { by rewrite Hpj, swap_pos_l, swap_pos_r. }
    destruct (decide (k = i)) as [->|Hki].
    { rewrite swap_pos_l, swap_pos_ne by lia. apply Hg; [lia|done|lia]. }
    rewrite (swap_pos_ne i j k) by done.
    destruct (decide (parent k = i)) as [Hpi|Hpi].
    { rewrite Hpi, swap_pos_l. by apply Hmin. }
    rewrite swap_pos_ne by done. apply Hk; [lia|done|done].
  - intros c Hc Hpc _. apply ord_Swap; [lia|lia|].
    pose proof (parent_lt c ltac:(lia)).
    rewrite Hpj, swap_pos_l, swap_pos_ne by lia. rewrite <- Hpc.
    apply Hk; [lia|lia|lia].
Qed.

(** [down] either leaves the slice alone, when the children of the start are
    already below it, or restores heap order on the prefix. *)
Lemma down_spec fuel strong h i n :
  (n <= i + fuel)%nat -> (i < n)%nat -> (n <= length h)%nat -> down_inv strong n h i ->
  let '(h', i') := down fuel h i n in
  keys h' ≡ₚ keys h /\ length h' = length h /\
  (forall k, (n <= k)%nat -> h' !! k = h !! k) /\
  ((i' = i /\ h' = h /\ forall c, (0 < c < n)%nat -> parent c = i -> ord h i c) \/
   ((i < i')%nat /\ heap_upto n h')).
Proof.
  revert strong h i; induction fuel as [|fuel IH]; intros strong h i Hf Hi Hn Hinv; [lia|].
  cbn [down]. case_decide as Hleaf.
  { split_and!; [done|done|done|]. left. split_and!; [done|done|].
    intros c Hc Hpc. apply parent_child in Hpc; lia. }
  pose proof (min_child_choice h i n ltac:(lia)) as Hm. cbv zeta.
  set (j := if decide _ then _ else _) in *. clearbody j.
  destruct (Less h j i) eqn:E; cbn [negb].
  - pose proof Hm as (Hpj & Hj & Hmin). pose proof (parent_lt j ltac:(lia)).
    assert (Hs : down_inv true n (Swap h i j) j) by (by eapply down_inv_Swap).
    specialize (IH true (Swap h i j) j ltac:(lia) ltac:(lia) ltac:(by rewrite length_Swap) Hs).
    destruct (down fuel (Swap h i j) j n) as [h' i'] eqn:Ed.
    destruct IH as (E1 & E2 & E3 & E4). split_and!.
    + by rewrite E1, keys_Swap_Permutation.
    + by rewrite E2, length_Swap.
    + intros k Hk. by rewrite E3, lookup_Swap_ne by lia.
    + right. destruct E4 as [(-> & -> & Hord)|[? ?]]; [|split; [lia|done]].
      split; [lia|]. intros k Hk. destruct (decide (parent k = j)) as [<-|Hpk].
      * by apply Hord.
      * apply Hs; [lia|done|done].
  - destruct Hm as (Hpj & Hj & Hmin). split_and!; [done|done|done|]. left.
    split_and!; [done|done|]. intros c Hc Hpc. apply ord_trans with j; [lia| |by apply Hmin].
    by apply Less_false_ord.
Qed.

Lemma down_heap fuel h i n :
  (n <= i + fuel)%nat -> (i < n)%nat -> (n <= length h)%nat -> down_inv true n h i ->
  let '(h', _) := down fuel h i n in
  keys h' ≡ₚ keys h /\ length h' = length h /\
  (forall k, (n <= k)%nat -> h' !! k = h !! k) /\ heap_upto n h'.
Proof.
  intros Hf Hi Hn Hinv. pose proof (down_spec fuel true h i n Hf Hi Hn Hinv) as Hd.
  destruct (down fuel h i n) as [h' i']. destruct Hd as (E1 & E2 & E3 & E4).
  split_and!; [done..|]. destruct E4 as [(-> & -> & Hord)|[? ?]]; [|done].
  intros k Hk. destruct (decide (parent k = i)) as [<-|Hpk]; [by apply Hord|].
  apply Hinv; done.
Qed.

(** * The root is a minimum *)

Lemma heap_root_ord n h k :
  (n <= length h)%nat -> heap_upto n h -> (k < n)%nat -> ord h 0 k.
Proof.
  intros Hn Hh. induction k as [k IH] using (well_founded_induction Nat.lt_wf_0). intros Hk.
  destruct (decide (k = 0)%nat) as [->|Hk0].
  - intros x y Hx Hy. simplify_eq. apply kle_refl.
  - pose proof (parent_lt k ltac:(lia)). apply ord_trans with (parent k); [lia| |].
    + apply IH; lia.
    + apply Hh. lia.
Qed.

Lemma pop_last_snoc h a : pop_last (h ++ [a]) = Some (a, h).
Proof.
  unfold pop_last. rewrite last_snoc, length_app. cbn [length].
  replace (length h + 1 - 1)%nat with (length h) by lia. by rewrite take_app_length.
Qed.

Lemma pop_last_Some h a h' : pop_last h = Some (a, h') -> h = h' ++ [a].
Proof.
  unfold pop_last. destruct (last h) as [b|] eqn:E; [|done]. intros [= -> <-].
  apply last_Some in E as [l ->]. rewrite length_app. cbn [length].
  replace (length l + 1 - 1)%nat with (length l) by lia. by rewrite take_app_length.
Qed.

Lemma heap_upto_app n h t :
  (n <= length h)%nat -> heap_upto n (h ++ t) -> heap_upto n h.
Proof.
  intros Hn Hh k Hk x y Hx Hy. apply (Hh k Hk); unfold keys; rewrite fmap_app;
    by apply lookup_app_l_Some.
Qed.

(** * Positions *)

(** Every element records the position it is at. *)
Definition indexed h : Prop := forall i a, h !! i = Some a -> position a = i.

Lemma indexed_Swap h i j : indexed h -> indexed (Swap h i j).
Proof.
  intros Hh k a. unfold Swap. destruct (h !! i) as [x|] eqn:Ei; [|apply Hh].
  destruct (h !! j) as [y|] eqn:Ej; [|apply Hh].
  apply lookup_lt_Some in Ei, Ej.
  destruct (decide (k = j)) as [->|Hkj].
  - rewrite list_lookup_insert_eq by (by rewrite length_insert). intros [= <-]. apply position_place.
  - rewrite list_lookup_insert_ne by done. destruct (decide (k = i)) as [->|Hki].
    + rewrite list_lookup_insert_eq by done. intros [= <-]. apply position_place.
    + rewrite list_lookup_insert_ne by done. apply Hh.
Qed.

Lemma indexed_up fuel h j : indexed h -> indexed (up fuel h j).
Proof.
  revert h j; induction fuel as [|fuel IH]; intros h j Hh; [done|]. cbn.
  repeat case_match; try done. by apply IH, indexed_Swap.
Qed.

Lemma indexed_down fuel h i n : indexed h -> indexed (fst (down fuel h i n)).
Proof.
  revert h i; induction fuel as [|fuel IH]; intros h i Hh; [done|]. cbn.
  repeat case_match; try done; by apply IH, indexed_Swap.
Qed.

Lemma indexed_snoc h a : indexed h -> position a = length h -> indexed (h ++ [a]).
Proof.
  intros Hh Ha i b. rewrite lookup_app. destruct (h !! i) as [c|] eqn:Hc.
  - intros [= <-]. by apply Hh.
  - intros [Hi <-]%list_lookup_singleton_Some. apply lookup_ge_None in Hc. lia.
Qed.

Lemma indexed_prefix h t : indexed (h ++ t) -> indexed h.
Proof. intros Hh i a Ha. apply Hh. by apply lookup_app_l_Some. Qed.

(** * The library operations *)

Lemma keys_app h t : keys (h ++ t) = keys h ++ keys t.
Proof. apply fmap_app. Qed.

Lemma heap_Push_spec h x :
  is_heap h -> indexed h ->
  is_heap (heap_Push h x) /\ indexed (heap_Push h x) /\
  keys (heap_Push h x) ≡ₚ key x :: keys h /\ length (heap_Push h x) = S (length h).
Proof.
  intros Hh Hi. unfold heap_Push. set (h1 := h ++ [place (length h) x]).
  assert (Hl : length h1 = S (length h)) by (unfold h1; rewrite length_app; cbn; lia).
  assert (Hinv : up_inv (length h1) h1 (length h1 - 1)).
  { split.
    - intros k Hk Hkl a b Ha Hb. unfold h1 in Ha, Hb. rewrite keys_app in Ha, Hb.
      pose proof (parent_lt k ltac:(lia)).
      rewrite lookup_app_l in Ha, Hb by (rewrite length_keys; lia).
      eapply (Hh k); [lia|done..].
    - intros c Hc Hpc. pose proof (parent_spec c ltac:(lia)). lia. }
  destruct (up_spec (length h1) (length h1) h1 (length h1 - 1)) as (E1 & E2 & E3 & _);
    [lia|lia|lia|done|].
  split_and!.
  - unfold is_heap. by rewrite E3.
  - apply indexed_up, indexed_snoc; [done|]. by rewrite position_place.
  - rewrite E2. unfold h1. rewrite keys_app. cbn. rewrite key_place.
    by rewrite Permutation_app_comm.
  - by rewrite E3.
Qed.

(** Cutting off the last position of a slice whose prefix is in heap order. *)
Lemma pop_last_heap h n :
  length h = S n -> heap_upto n h -> indexed h ->
  exists a h', pop_last h = Some (a, h') /\ is_heap h' /\ indexed h' /\
    length h' = n /\ keys h ≡ₚ key a :: keys h' /\ keys h !! n = Some (key a).
Proof.
  intros Hl Hh Hi. destruct (last h) as [a|] eqn:E.
  2:{ apply last_None in E. by subst. }
  apply last_Some in E as [h' ->]. exists a, h'. rewrite pop_last_snoc.
  rewrite length_app in Hl. cbn in Hl. assert (length h' = n) by lia. subst n.
  split_and!; [done| | |done| |].
  - unfold is_heap. by apply heap_upto_app in Hh.
  - by eapply indexed_prefix.
  - rewrite keys_app. cbn. by rewrite Permutation_app_comm.
  - rewrite keys_app, lookup_app_r by (by rewrite length_keys).
    by rewrite length_keys, Nat.sub_diag.
Qed.

(** The slice after the element at [i] was exchanged with the last one. *)
Lemma Swap_last_inv h i n :
  length h = S n -> (i < n)%nat -> is_heap h -> down_inv false n (Swap h i n) i.
Proof.
  intros Hl Hi Hh. split.
  - intros k Hk Hpk Hki. pose proof (parent_lt k ltac:(lia)).
    apply ord_Swap; [lia|lia|]. rewrite !swap_pos_ne by first [lia|by apply Hki].
    apply Hh. lia.
  - intros c Hc Hpc Hi0. pose proof (parent_lt i Hi0). pose proof (parent_lt c ltac:(lia)).
    apply ord_Swap; [lia|lia|]. rewrite !swap_pos_ne by lia.
    apply ord_trans with i; [lia|apply Hh; lia|]. rewrite <- Hpc. apply Hh. lia.
Qed.

Lemma heap_Remove_spec h i :
  (i < length h)%nat -> is_heap h -> indexed h ->
  exists a h', heap_Remove h i = Ret (a, h') /\ keys h !! i = Some (key a) /\
    keys h ≡ₚ key a :: keys h' /\ is_heap h' /\ indexed h' /\ length h = S (length h').
Proof.
  intros Hi Hh Hx. unfold heap_Remove. set (n := (length h - 1)%nat).
  assert (Hl : length h = S n) by lia. rewrite decide_False by lia.
  set (h2 := if decide (n = i) then h else _).
  assert (Hn : keys h2 !! n = keys h !! i /\ keys h2 ≡ₚ keys h /\ length h2 = S n /\
               heap_upto n h2 /\ indexed h2).
  { unfold h2. case_decide as Hni.
    - subst i. split_and!; [done..| |done]. intros k Hk. apply Hh. lia.
    - pose proof (down_spec n false (Swap h i n) i n) as Hd. cbv zeta.
      destruct (down n (Swap h i n) i n) as [h' i'] eqn:Ed.
      destruct Hd as (E1 & E2 & E3 & E4); [lia|lia|rewrite length_Swap; lia|by apply Swap_last_inv; [|lia|]|].
      assert (Hxd : indexed h').
      { change h' with (fst (h', i')). rewrite <- Ed. by apply indexed_down, indexed_Swap. }
      rewrite length_Swap in E2.
      assert (Hkn : forall h3, h3 !! n = Swap h i n !! n -> keys h3 !! n = keys h !! i).
      { intros h3 E. rewrite keys_lookup, E, <- keys_lookup, keys_Swap by lia.
        by rewrite swap_pos_r. }
      case_decide as Hlt.
      + split_and!; [by apply Hkn, E3|by rewrite E1, keys_Swap_Permutation|by rewrite E2| |done].
        destruct E4 as [(-> & _)|[_ Hu]]; [lia|done].
      + destruct E4 as [(-> & -> & Hord)|[? _]]; [|lia].
        destruct (up_spec (S i) n (Swap h i n) i) as (F1 & F2 & F3 & F4);
          [lia|lia|rewrite length_Swap; lia| |].
        { destruct (Swap_last_inv h i n Hl ltac:(lia) Hh) as [Hk Hg]. split; [|done].
          intros k Hkn' Hki. destruct (decide (parent k = i)) as [<-|]; [by apply Hord|].
          by apply Hk. }
        split_and!; [by apply Hkn, F4|by rewrite F2, keys_Swap_Permutation
                    |by rewrite F3, length_Swap|done|by apply indexed_up, indexed_Swap]. }
  clearbody h2. destruct Hn as (E1 & E2 & E3 & E4 & E5).
  destruct (pop_last_heap h2 n E3 E4 E5) as (a & h' & Ep & Hh' & Hi' & Hl' & Hp & Ha).
  rewrite Ep. exists a, h'. split_and!; [done|by rewrite <- E1|by rewrite <- E2|done|done|lia].
Qed.

Lemma heap_Pop_spec h :
  h <> [] -> is_heap h -> indexed h ->
  exists a h', heap_Pop h = Ret (a, h') /\ keys h ≡ₚ key a :: keys h' /\
    (forall y, y ∈ keys h' -> kle (key a) y) /\ is_heap h' /\ indexed h' /\
    length h = S (length h').
Proof.
  intros Hne Hh Hx. unfold heap_Pop. set (n := (length h - 1)%nat).
  assert (Hl : length h = S n) by (destruct h; [done|cbn in *; lia]).
  assert (Hd : exists h2, fst (down n (Swap h 0 n) 0 n) = h2 /\ keys h2 ≡ₚ keys h /\
     length h2 = S n /\ heap_upto n h2 /\ indexed h2 /\ keys h2 !! n = keys h !! 0%nat).
  { eexists. split; [reflexivity|].
    assert (Hix : indexed (fst (down n (Swap h 0 n) 0 n))) by (by apply indexed_down, indexed_Swap).
    destruct (decide (n = 0)%nat) as [Hn0|Hn0].
    - rewrite Hn0 in *. cbn [down fst] in *. split_and!; [apply keys_Swap_Permutation
        |by rewrite length_Swap|intros k Hk; lia|done|].
      rewrite keys_Swap by lia. by rewrite swap_pos_l.
    - pose proof (down_heap n (Swap h 0 n) 0 n ltac:(lia) ltac:(lia)
        ltac:(rewrite length_Swap; lia)) as Hd.
      destruct (down n (Swap h 0 n) 0 n) as [h2 i'] eqn:Ed. cbn [fst] in *.
      destruct Hd as (E1 & E2 & E3 & E4).
      { destruct (Swap_last_inv h 0 n Hl ltac:(lia) Hh) as [Hk Hg]. split; [|done].
        intros k Hkn Hpk _. apply Hk; [done|done|lia]. }
      split_and!; [by rewrite E1, keys_Swap_Permutation|by rewrite E2, length_Swap|done|done|].
      rewrite keys_lookup, E3, <- keys_lookup, keys_Swap by lia. by rewrite swap_pos_r. }
  destruct Hd as (h2 & -> & E1 & E2 & E3 & E4 & E5).
  destruct (pop_last_heap h2 n E2 E3 E4) as (a & h' & Ep & Hh' & Hi' & Hl' & Hp & Ha).
  rewrite Ep. exists a, h'. rewrite E1 in Hp. split_and!; [done|done| |done|done|lia].
  intros y Hy. assert (Hy' : y ∈ keys h) by (rewrite Hp; by right).
  apply list_elem_of_lookup in Hy' as [k Hk].
  eapply (heap_root_ord (length h) h k); [lia|done| |by rewrite <- E5|done].
  apply lookup_lt_Some in Hk. by rewrite length_keys in Hk.
Qed.
End heap_lemmas.
