(* ===== verification/SendQueue.v ===== *)
(** The outbound priority queue: [SendQueue] of [src/node/runtime/router.go].

    The queue is a [container/heap] of items ordered by message priority and,
    within a priority, by insertion number.  The specification is a list of
    entries in service order ([Spec]); a push into a full queue first evicts
    an entry of the numerically largest priority. *)
From S2P Require Import Prelude Message Heap.

(** * Definitions *)

Record queueItem := mkItem { qi_msg : WireMessage; qi_seq : Z; qi_index : nat }.

(** What orders the items: the message's priority and the insertion number. *)
Abbreviation entry := (WireMessage * Z)%type.

(** [msgHeap.Less] *)
Definition entry_less (x y : entry) : bool :=
  if decide (Priority x.1 <> Priority y.1) then bool_decide (Priority x.1 < Priority y.1)
  else bool_decide (x.2 < y.2).

#[export] Program Instance queueItem_elem : HeapElem queueItem entry := {|
  key it := (qi_msg it, qi_seq it);
  place i it := mkItem (qi_msg it) (qi_seq it) i;
  position := qi_index;
  less := entry_less
|}.
Next Obligation. done. Qed.
Next Obligation. done. Qed.
Next Obligation.
  intros [m s] [m' s']. unfold entry_less. cbn. repeat case_decide; try lia;
    rewrite ?bool_decide_eq_true, ?bool_decide_eq_false; lia.
Qed.
Next Obligation.
  intros [m s] [m' s'] [m'' s'']. unfold entry_less. cbn. repeat case_decide; try lia;
    rewrite ?bool_decide_eq_false; lia.
Qed.

Record SendQueue := mkQueue {
  sq_h : list queueItem;
  sq_notify : bool;      (* notifyC, a channel of capacity one, holds a token *)
  sq_counter : Z;        (* uint64 *)
  sq_cap : Z
}.

(** [make(msgHeap, 0, capacity)] panics on a negative capacity. *)
Definition NewSendQueue (capacity : Z) : outcome SendQueue :=
  if decide (capacity < 0) then Panic InvalidArgument
  else Ret (mkQueue [] false 0 capacity).

(** The loop that looks for the item to evict. *)
Definition pick_worst (worst : queueItem) (h : list queueItem) : queueItem :=
  foldl (fun worst it =>
           if decide (Priority (qi_msg it) > Priority (qi_msg worst)) then it else worst)
        worst h.

(** [Push]: the new queue, and the evicted item when there is one (the metrics
    collector, if attached, then counts a queue drop). *)
Definition Push (msg : WireMessage) (q : SendQueue) : outcome (SendQueue * option queueItem) :=
  '(h, dropped) ← (if decide (zlen (sq_h q) >= sq_cap q) then
      first ← index 0 (sq_h q);
      let worst := pick_worst first (sq_h q) in
      '(it, h) ← heap_Remove (sq_h q) (qi_index worst);
      Ret (h, Some it)
    else Ret (sq_h q, None));
  let counter := sq_counter q +[64] 1 in
  Ret (mkQueue (heap_Push h (mkItem msg counter 0)) true counter (sq_cap q), dropped).

Definition Pop (q : SendQueue) : outcome (option WireMessage * SendQueue) :=
  if decide (length (sq_h q) = 0%nat) then Ret (None, q)
  else
    '(it, h) ← heap_Pop (sq_h q);
    Ret (Some (qi_msg it), mkQueue h (sq_notify q) (sq_counter q) (sq_cap q)).

(** The inner loop of [sendLoop]: pop until the queue is empty.  [fuel] bounds
    the iterations; one more than the length of the queue is enough. *)
Fixpoint drain (fuel : nat) (q : SendQueue) : outcome (list WireMessage * SendQueue) :=
  match fuel with
  | O => Ret ([], q)
  | S fuel =>
      '(m, q) ← Pop q;
      match m with
      | None => Ret ([], q)
      | Some m => '(ms, q) ← drain fuel q; Ret (m :: ms, q)
      end
  end.

(** * Specification: entries in service order *)
Module Spec.
Fixpoint insert_entry (e : entry) (s : list entry) : list entry :=
  match s with
  | [] => [e]
  | x :: s' => if entry_less e x then e :: s else x :: insert_entry e s'
  end.

(** A push into a queue of capacity [cap] whose counter becomes [n]. *)
Inductive push (cap : Z) (msg : WireMessage) (n : Z) : list entry -> list entry -> Prop :=
  | push_room s :
      zlen s < cap -> push cap msg n s (insert_entry (msg, n) s)
  | push_full s1 e s2 :
      zlen (s1 ++ e :: s2) >= cap ->
      (forall x, x ∈ s1 ++ e :: s2 -> Priority x.1 <= Priority e.1) ->
      push cap msg n (s1 ++ e :: s2) (insert_entry (msg, n) (s1 ++ s2)).
End Spec.

(** * Invariant *)

(** Service order is strict: insertion numbers are distinct. *)
Definition entry_lt (x y : entry) : Prop := entry_less x y = true.

Record queue_ok (q : SendQueue) : Prop := {
  ok_heap : is_heap (sq_h q);
  ok_indexed : indexed (sq_h q);
  ok_cap : 0 < sq_cap q;
  ok_len : zlen (sq_h q) <= sq_cap q;
  ok_counter : 0 <= sq_counter q;
  ok_seqs : Forall (fun e => 0 < e.2 <= sq_counter q) (keys (sq_h q));
  ok_nodup : NoDup (keys (sq_h q)).*2
}.

(** The abstraction: [s] lists the entries of [q] in service order. *)
Definition abstracts (q : SendQueue) (s : list entry) : Prop :=
  keys (sq_h q) ≡ₚ s /\ StronglySorted entry_lt s.

(** * Lemmas on service order *)

Lemma entry_less_false x y : entry_less x y = false -> x.2 <> y.2 -> entry_lt y x.
Proof.
  unfold entry_lt, entry_less. repeat case_decide; try lia;
    rewrite ?bool_decide_eq_true, ?bool_decide_eq_false; lia.
Qed.

#[export] Instance entry_lt_trans : Transitive entry_lt.
Proof.
  intros [m s] [m' s'] [m'' s'']. unfold entry_lt, entry_less. cbn.
  repeat case_decide; try lia; rewrite ?bool_decide_eq_true; lia.
Qed.

Lemma entry_lt_irrefl x : ~ entry_lt x x.
Proof.
  destruct x as [m s]. unfold entry_lt, entry_less. cbn.
  case_decide; [lia|]. rewrite bool_decide_eq_true. lia.
Qed.

Lemma insert_entry_Permutation e s : Spec.insert_entry e s ≡ₚ e :: s.
Proof.
  induction s as [|x s IH]; cbn; [done|]. destruct (entry_less e x); [done|].
  rewrite IH. apply Permutation_swap.
Qed.

Lemma insert_entry_sorted e s :
  Forall (fun x => x.2 <> e.2) s -> StronglySorted entry_lt s ->
  StronglySorted entry_lt (Spec.insert_entry e s).
Proof.
  induction s as [|x s IH]; cbn; intros Hne Hs; [by repeat constructor|].
  inversion Hne; inversion Hs; subst. destruct (entry_less e x) eqn:E.
  - constructor; [done|]. constructor; [done|]. eapply Forall_impl; [done|].
    intros y Hy. by transitivity x.
  - constructor; [by apply IH|]. rewrite insert_entry_Permutation. constructor; [|done].
    apply entry_less_false; congruence.
Qed.

#[export] Instance entry_lt_antisym : AntiSymm (=) entry_lt.
Proof.
  intros x y Hx Hy. destruct (entry_lt_irrefl x). by transitivity y.
Qed.

(** The service order of a set of entries is unique. *)
Lemma sorted_unique s s' :
  s ≡ₚ s' -> StronglySorted entry_lt s -> StronglySorted entry_lt s' -> s = s'.
Proof. intros Hp Hs Hs'. by apply (StronglySorted_unique entry_lt). Qed.

Lemma sorted_app_remove s1 e s2 :
  StronglySorted entry_lt (s1 ++ e :: s2) -> StronglySorted entry_lt (s1 ++ s2).
Proof.
  rewrite !StronglySorted_app. intros (H1 & H2 & H3). split_and!; [|done|].
  - intros x y Hx Hy. apply H1; [done|by right].
  - by inversion H3.
Qed.

(** * The eviction choice *)

Lemma pick_worst_cons w y h :
  pick_worst w (y :: h)
  = pick_worst (if decide (Priority (qi_msg y) > Priority (qi_msg w)) then y else w) h.
Proof. done. Qed.

Lemma pick_worst_spec w h :
  pick_worst w h ∈ w :: h /\
  forall x, x ∈ w :: h -> Priority (qi_msg x) <= Priority (qi_msg (pick_worst w h)).
Proof.
  revert w; induction h as [|y h IH]; intros w.
  { split; [by left|]. by intros x ->%list_elem_of_singleton. }
  rewrite pick_worst_cons.
  destruct (IH (if decide (Priority (qi_msg y) > Priority (qi_msg w)) then y else w)) as [H1 H2].
  split.
  - apply elem_of_cons in H1 as [->|H1]; [case_decide|]; rewrite !elem_of_cons; auto.
  - intros x. rewrite !elem_of_cons. intros [->|[->|Hx]].
    + etrans; [|apply H2; by left]. case_decide; lia.
    + etrans; [|apply H2; by left]. case_decide; lia.
    + apply H2. by right.
Qed.

(** When all items have one priority the item at the root is chosen. *)
Lemma pick_worst_same w h p :
  Forall (fun it => Priority (qi_msg it) = p) (w :: h) -> pick_worst w h = w.
Proof.
  revert w; induction h as [|y h IH]; intros w Hf; [done|]. rewrite pick_worst_cons.
  inversion Hf as [|? ? E1 Hf1]; inversion Hf1 as [|? ? E2 Hf2]; subst.
  rewrite decide_False by lia. apply IH. by constructor.
Qed.

(** * Pop *)

Lemma keys_nil_inv {A K} `{HeapElem A K} (h : list A) : keys h = [] -> h = [].
Proof. unfold keys. by destruct h. Qed.

Lemma queue_ok_sub q h :
  queue_ok q -> is_heap h -> indexed h -> (exists e, keys (sq_h q) ≡ₚ e :: keys h) ->
  queue_ok (mkQueue h (sq_notify q) (sq_counter q) (sq_cap q)).
Proof.
  intros [H1 H2 H3 H4 H5 H6 H7] Hh Hi [e Hp]. rewrite Hp in H6, H7. constructor; cbn; try done.
  - apply Permutation_length in Hp. rewrite length_keys in Hp. cbn in Hp.
    rewrite length_keys in Hp. unfold zlen in *. lia.
  - by inversion H6.
  - by inversion H7.
Qed.

Lemma Pop_refines q s :
  queue_ok q -> abstracts q s ->
  match s with
  | [] => Pop q = Ret (None, q)
  | e :: s' => exists q', Pop q = Ret (Some e.1, q') /\ abstracts q' s' /\ queue_ok q' /\
                 sq_cap q' = sq_cap q /\ sq_counter q' = sq_counter q
  end.
Proof.
  intros Hok [Hp Hs]. destruct s as [|e s'].
  { apply Permutation_nil_r, keys_nil_inv in Hp. unfold Pop. by rewrite Hp. }
  assert (Hne : sq_h q <> []) by (intros E; rewrite E in Hp; by apply Permutation_nil_l in Hp).
  destruct (heap_Pop_spec (sq_h q) Hne (ok_heap q Hok) (ok_indexed q Hok))
    as (a & h' & E & Hk & Hmin & Hh & Hi & Hl).
  unfold Pop. rewrite decide_False by lia. rewrite E, bind_Ret.
  inversion Hs as [|? ? Hs' Hlt]; subst.
  assert (Ha : key a = e).
  { assert (Ha : key a ∈ e :: s') by (rewrite <- Hp, Hk; by left).
    apply elem_of_cons in Ha as [Ha|Ha]; [done|]. exfalso.
    assert (He : e ∈ key a :: keys h') by (rewrite <- Hk, Hp; by left).
    rewrite Forall_forall in Hlt. apply Hlt in Ha as Hea.
    apply elem_of_cons in He as [->|He].
    - by apply entry_lt_irrefl in Hea.
    - apply Hmin in He. unfold kle in He. unfold entry_lt in Hea. cbn in *. congruence. }
  subst e. eexists. split; [reflexivity|].
  assert (Hp' : keys h' ≡ₚ s') by (rewrite Hk in Hp; by apply Permutation_cons_inv in Hp).
  split_and!; [done|eapply queue_ok_sub; eauto|done|done].
Qed.

(** * Push *)

(** Pushing onto what is left after a possible eviction. *)
Lemma insert_refines q msg h s :
  queue_ok q -> sq_counter q < 2 ^ 64 - 1 -> is_heap h -> indexed h -> keys h ≡ₚ s ->
  StronglySorted entry_lt s -> Forall (fun e => 0 < e.2 <= sq_counter q) s -> NoDup s.*2 ->
  zlen h + 1 <= sq_cap q ->
  let q' := mkQueue (heap_Push h (mkItem msg (sq_counter q + 1) 0)) true
              (sq_counter q + 1) (sq_cap q) in
  abstracts q' (Spec.insert_entry (msg, sq_counter q + 1) s) /\ queue_ok q'.
Proof.
  intros Hok Hc Hh Hi Hp Hs Hf Hnd Hlen q'. pose proof (ok_counter q Hok) as Hc0.
  destruct (heap_Push_spec h (mkItem msg (sq_counter q + 1) 0) Hh Hi) as (P1 & P2 & P3 & P4).
  assert (Hp2 : keys (sq_h q') ≡ₚ (msg, sq_counter q + 1) :: s).
  { cbn [q' sq_h]. by rewrite P3, Hp. }
  assert (Hfresh : Forall (fun x : entry => x.2 <> sq_counter q + 1) s).
  { eapply Forall_impl; [done|]. cbn. lia. }
  split.
  - split; [by rewrite Hp2, insert_entry_Permutation|by apply insert_entry_sorted].
  - constructor; cbn [q' sq_h sq_cap sq_counter]; try done.
    + apply Hok.
    + unfold zlen in *. lia.
    + lia.
    + cbn in Hp2. rewrite Hp2. constructor; [cbn; lia|].
      eapply Forall_impl; [exact Hf|]. cbn; lia.
    + cbn in Hp2. rewrite Hp2. cbn. constructor; [|done].
      rewrite list_elem_of_fmap. intros (x & Ex & Hx). rewrite Forall_forall in Hfresh.
      by apply (Hfresh x).
Qed.

(** The eviction from a full queue: an entry whose priority value is maximal. *)
Lemma evict_refines q s :
  queue_ok q -> abstracts q s -> zlen (sq_h q) >= sq_cap q ->
  exists first a h s1 s2, index 0 (sq_h q) = Ret first /\
    heap_Remove (sq_h q) (qi_index (pick_worst first (sq_h q))) = Ret (a, h) /\
    s = s1 ++ key a :: s2 /\ keys h ≡ₚ s1 ++ s2 /\ is_heap h /\ indexed h /\
    zlen h + 1 = zlen (sq_h q) /\ forall x, x ∈ s -> Priority x.1 <= Priority (key a).1.
Proof.
  intros Hok [Hp Hs] Hfull.
  destruct (index_in_range 0 (sq_h q)) as (first & E1 & E2); [pose proof (ok_cap q Hok); lia|].
  destruct (pick_worst_spec first (sq_h q)) as [Hin Hmax].
  assert (Hin' : pick_worst first (sq_h q) ∈ sq_h q).
  { apply elem_of_cons in Hin as [->|Hin]; [by eapply list_elem_of_lookup_2|done]. }
  apply list_elem_of_lookup in Hin' as [i Hw].
  assert (Hwi : qi_index (pick_worst first (sq_h q)) = i) by (by apply (ok_indexed q Hok)).
  destruct (heap_Remove_spec (sq_h q) i) as (a & h & E & Ha & Hk & Hh & Hi & Hl);
    [by eapply lookup_lt_Some|apply Hok|apply Hok|].
  rewrite keys_lookup, Hw in Ha. cbn in Ha. injection Ha as Hka.
  assert (Has : key a ∈ s) by (rewrite <- Hp, Hk; by left).
  apply list_elem_of_split in Has as (s1 & s2 & ->).
  exists first, a, h, s1, s2. rewrite Hwi. split_and!; try done.
  - rewrite Hk in Hp. rewrite <- Permutation_middle in Hp. by apply Permutation_cons_inv in Hp.
  - unfold zlen. lia.
  - intros x Hx. rewrite <- Hp in Hx. apply list_elem_of_fmap in Hx as (it & -> & Hit).
    cbn. rewrite <- Hka. cbn. apply Hmax. by right.
Qed.

Lemma Push_refines q s msg :
  queue_ok q -> abstracts q s -> sq_counter q < 2 ^ 64 - 1 ->
  exists q' dropped s', Push msg q = Ret (q', dropped) /\
    Spec.push (sq_cap q) msg (sq_counter q + 1) s s' /\ abstracts q' s' /\ queue_ok q' /\
    sq_cap q' = sq_cap q /\ sq_counter q' = sq_counter q + 1 /\ sq_notify q' = true.
Proof.
  intros Hok Habs Hc. pose proof Habs as [Hp Hs]. pose proof (ok_counter q Hok) as Hc0.
  pose proof (ok_len q Hok) as Hlen.
  assert (Hf : Forall (fun e => 0 < e.2 <= sq_counter q) s) by (rewrite <- Hp; apply Hok).
  assert (Hnd : NoDup s.*2) by (rewrite <- Hp; apply Hok).
  assert (Hls : zlen s = zlen (sq_h q)).
  { apply Permutation_length in Hp. rewrite length_keys in Hp. unfold zlen. lia. }
  unfold Push. rewrite wrap_small by (unfold is_uint; lia). cbv zeta. case_decide as Hfull.
  - destruct (evict_refines q s Hok Habs Hfull)
      as (first & a & h & s1 & s2 & -> & E & -> & Hp' & Hh & Hi & Hl & Hmax).
    rewrite bind_Ret, E, !bind_Ret.
    destruct (insert_refines q msg h (s1 ++ s2)) as [Ha Hq]; try done.
    + by eapply sorted_app_remove.
    + apply Forall_app in Hf as [? Hf]. inversion Hf; subst. by apply Forall_app.
    + rewrite fmap_app in *. cbn in Hnd. apply NoDup_app in Hnd as (? & Hd & Hnd2).
      inversion Hnd2; subst. apply NoDup_app. split_and!; [done| |done].
      intros x Hx1 Hx2. apply (Hd x); [done|by right].
    + lia.
    + do 3 eexists. split; [reflexivity|]. split; [by apply Spec.push_full; [lia|..]|done].
  - rewrite bind_Ret.
    destruct (insert_refines q msg (sq_h q) s) as [Ha Hq]; try done; [apply Hok|apply Hok|lia|].
    do 3 eexists. split; [reflexivity|]. split; [apply Spec.push_room; lia|done].
Qed.

(** Every good queue has a service order. *)
Lemma abstracts_exists q : queue_ok q -> exists s, abstracts q s.
Proof.
  intros Hok. pose proof (ok_nodup q Hok) as Hnd. unfold abstracts.
  generalize (keys (sq_h q)) Hnd. clear. intros es.
  induction es as [|e es IH]; cbn; intros Hnd; [by exists []; split; [|constructor]|].
  inversion Hnd as [|? ? Hni Hnd']; subst. destruct (IH Hnd') as (s & Hp & Hs).
  exists (Spec.insert_entry e s). split; [by rewrite Hp, insert_entry_Permutation|].
  apply insert_entry_sorted; [|done]. apply Forall_forall. intros x Hx He. apply Hni.
  rewrite <- He, <- Hp in *. by apply list_elem_of_fmap_2.
Qed.

Lemma Push_ok q msg :
  queue_ok q -> sq_counter q < 2 ^ 64 - 1 ->
  exists q' dropped, Push msg q = Ret (q', dropped) /\ queue_ok q' /\
    sq_cap q' = sq_cap q /\ sq_counter q' = sq_counter q + 1.
Proof.
  intros Hok Hc. destruct (abstracts_exists q Hok) as [s Ha].
  destruct (Push_refines q s msg Hok Ha Hc) as (q' & d & s' & ? & _ & _ & ? & ? & ? & _). eauto 10.
Qed.

(** * Draining *)

(** Popping until empty yields the entries in service order. *)
Lemma drain_refines q s fuel :
  queue_ok q -> abstracts q s -> (length s < fuel)%nat ->
  exists q', drain fuel q = Ret (s.*1, q') /\ queue_ok q' /\ sq_h q' = [].
Proof.
  revert q s; induction fuel as [|fuel IH]; intros q s Hok Ha Hf; [lia|].
  pose proof (Pop_refines q s Hok Ha) as Hpop. cbn [drain]. destruct s as [|e s].
  - rewrite Hpop, bind_Ret. exists q. split_and!; [done|done|].
    destruct Ha as [Hp _]. by apply Permutation_nil_r, keys_nil_inv in Hp.
  - destruct Hpop as (q1 & E & Ha1 & Hok1 & _). rewrite E, bind_Ret.
    destruct (IH q1 s Hok1 Ha1) as (q' & E' & Hok' & Hh'); [cbn in Hf; lia|].
    rewrite E', bind_Ret. by exists q'.
Qed.

Lemma NewSendQueue_ok capacity :
  0 < capacity -> exists q, NewSendQueue capacity = Ret q /\ queue_ok q /\ abstracts q [].
Proof.
  intros Hc. unfold NewSendQueue. rewrite decide_False by lia. eexists.
  split; [reflexivity|]. split; [|by split; [|constructor]].
  constructor; cbn; auto using Forall_nil_2, NoDup_nil_2; try zlia.
  - intros k Hk. cbn in Hk. lia.
  - by intros i a Ha.
Qed.

(** A full queue whose messages all have one priority evicts its oldest. *)
Lemma Push_evicts_oldest q s e msg p :
  queue_ok q -> abstracts q (e :: s) -> sq_counter q < 2 ^ 64 - 1 ->
  zlen (sq_h q) = sq_cap q -> Forall (fun x => Priority x.1 = p) (e :: s) ->
  exists q' it, Push msg q = Ret (q', Some it) /\ key it = e /\
    abstracts q' (Spec.insert_entry (msg, sq_counter q + 1) s).
Proof.
  intros Hok [Hp Hs] Hc Hfull Hsame. inversion Hs as [|? ? Hs' Hlt]; subst.
  destruct (index_in_range 0 (sq_h q)) as (first & E1 & E2); [pose proof (ok_cap q Hok); lia|].
  assert (Hw : pick_worst first (sq_h q) = first).
  { assert (Hall : Forall (fun it => Priority (qi_msg it) = p) (sq_h q)).
    { apply Forall_forall. intros it Hit. rewrite Forall_forall in Hsame.
      apply (Hsame (qi_msg it, qi_seq it)). rewrite <- Hp.
      apply list_elem_of_fmap. by exists it. }
    apply pick_worst_same with p. constructor; [|done].
    rewrite Forall_forall in Hall. apply Hall. by eapply list_elem_of_lookup_2. }
  assert (Hi0 : qi_index first = 0%nat) by (by apply (ok_indexed q Hok)).
  destruct (heap_Remove_spec (sq_h q) 0) as (a & h' & E & Ha & Hk & Hh & Hi & Hl);
    [by eapply lookup_lt_Some|apply Hok|apply Hok|].
  assert (Hae : key a = e).
  { rewrite Hk in Hp. assert (He : key a ∈ e :: s) by (rewrite <- Hp; by left).
    apply elem_of_cons in He as [He|He]; [done|]. exfalso.
    assert (He' : e ∈ keys (sq_h q)) by (rewrite Hk, Hp; by left).
    rewrite Forall_forall in Hlt. apply Hlt in He. apply list_elem_of_lookup in He' as [k Hke].
    assert (Hord : kle (key a) e).
    { eapply (heap_root_ord (length (sq_h q)) (sq_h q) k); [done|apply Hok| |done|done].
      apply lookup_lt_Some in Hke. by rewrite length_keys in Hke. }
    unfold kle in Hord. unfold entry_lt in He. cbn in *. congruence. }
  unfold Push. rewrite decide_True by lia. rewrite E1, bind_Ret, Hw, Hi0, E, !bind_Ret.
  pose proof (ok_counter q Hok). rewrite wrap_small by (unfold is_uint; lia).
  do 2 eexists. split_and!; [reflexivity|done|].
  assert (Hp' : keys h' ≡ₚ s).
  { rewrite Hk, Hae in Hp. by apply Permutation_cons_inv in Hp. }
  destruct (heap_Push_spec h' (mkItem msg (sq_counter q + 1) 0) Hh Hi) as (_ & _ & P3 & _).
  split; cbn [sq_h].
  - rewrite P3, Hp', insert_entry_Permutation. done.
  - apply insert_entry_sorted; [|done]. pose proof (ok_seqs q Hok) as Hf. rewrite Hp in Hf.
    inversion Hf; subst. eapply Forall_impl; [done|]. cbn; lia.
Qed.

(** * Runs of the queue *)

Inductive queue_op : Type := OpPush (msg : WireMessage) | OpPop.

(** The messages popped by a run, and the final queue *)
Fixpoint run_queue (ops : list queue_op) (q : SendQueue)
    : outcome (list (option WireMessage) * SendQueue) :=
  match ops with
  | [] => Ret ([], q)
  | OpPush msg :: ops => '(q, _) ← Push msg q; run_queue ops q
  | OpPop :: ops =>
      '(m, q) ← Pop q;
      '(ms, q) ← run_queue ops q;
      Ret (m :: ms, q)
  end.

(** The runs the specification allows: [n] is the number of pushes so far. *)
Inductive spec_run (cap : Z) :
    list queue_op -> Z -> list entry -> list (option WireMessage) -> list entry -> Prop :=
  | spec_nil n s : spec_run cap [] n s [] s
  | spec_push msg ops n s s1 out s' :
      Spec.push cap msg (n + 1) s s1 -> spec_run cap ops (n + 1) s1 out s' ->
      spec_run cap (OpPush msg :: ops) n s out s'
  | spec_pop_empty ops n out s' :
      spec_run cap ops n [] out s' -> spec_run cap (OpPop :: ops) n [] (None :: out) s'
  | spec_pop ops n e s out s' :
      spec_run cap ops n s out s' ->
      spec_run cap (OpPop :: ops) n (e :: s) (Some e.1 :: out) s'.

Lemma run_queue_refines ops q s :
  queue_ok q -> abstracts q s -> sq_counter q + zlen ops < 2 ^ 64 ->
  exists out q' s', run_queue ops q = Ret (out, q') /\
    spec_run (sq_cap q) ops (sq_counter q) s out s' /\ abstracts q' s' /\ queue_ok q' /\
    sq_cap q' = sq_cap q.
Proof.
  revert q s; induction ops as [|op ops IH]; intros q s Hok Ha Hc.
  { do 3 eexists. split; [reflexivity|]. split_and!; [constructor|done|done|done]. }
  rewrite zlen_cons in Hc. pose proof (zlen_nonneg ops). destruct op as [msg|]; cbn [run_queue].
  - destruct (Push_refines q s msg Hok Ha) as (q1 & d & s1 & E & Hp & Ha1 & Hok1 & Hcap & Hcnt & _);
      [lia|].
    destruct (IH q1 s1 Hok1 Ha1) as (out & q' & s' & E' & Hr & ? & ? & Hc'); [lia|].
    rewrite E, bind_Ret, E'. do 3 eexists. split; [reflexivity|].
    rewrite Hcap, Hcnt in *. split_and!; [by econstructor|done|done|done].
  - pose proof (Pop_refines q s Hok Ha) as Hpop. destruct s as [|e s].
    + destruct (IH q [] Hok Ha) as (out & q' & s' & E' & Hr & ? & ? & Hc'); [lia|].
      rewrite Hpop, bind_Ret, E', bind_Ret. do 3 eexists. split; [reflexivity|].
      split_and!; [by constructor|done|done|done].
    + destruct Hpop as (q1 & E & Ha1 & Hok1 & Hcap & Hcnt).
      destruct (IH q1 s Hok1 Ha1) as (out & q' & s' & E' & Hr & ? & ? & Hc'); [lia|].
      rewrite E, bind_Ret, E', bind_Ret. do 3 eexists. split; [reflexivity|].
      rewrite Hcap, Hcnt in *. split_and!; [by constructor|done|done|done].
Qed.

(** What is queued after an operation was queued before, or is the message pushed. *)
Lemma Push_queued q msg q' d :
  queue_ok q -> sq_counter q < 2 ^ 64 - 1 -> Push msg q = Ret (q', d) ->
  forall e, e ∈ keys (sq_h q') -> e.1 = msg \/ e ∈ keys (sq_h q).
Proof.
  intros Hok Hc E e He. destruct (abstracts_exists q Hok) as [s Hs].
  destruct (Push_refines q s msg Hok Hs Hc) as (q1 & d1 & s' & E1 & Hp & [Ha _] & _).
  rewrite E in E1. injection E1 as <- <-. rewrite Ha in He. destruct Hs as [Hs _]. rewrite Hs.
  destruct Hp; rewrite insert_entry_Permutation in He; apply elem_of_cons in He as [->|He];
    auto; right; set_solver.
Qed.

Lemma Pop_queued q :
  queue_ok q -> exists m q', Pop q = Ret (m, q') /\ queue_ok q' /\ sq_counter q' = sq_counter q /\
    (forall e, e ∈ keys (sq_h q') -> e ∈ keys (sq_h q)) /\
    (forall msg, m = Some msg -> exists n, (msg, n) ∈ keys (sq_h q)).
Proof.
  intros Hok. destruct (abstracts_exists q Hok) as [s Hs]. pose proof (Pop_refines q s Hok Hs) as Hp.
  destruct Hs as [Hs _]. destruct s as [|e s].
  - exists None, q. by split_and!.
  - destruct Hp as (q' & E & [Ha _] & Hok' & _ & Hc). exists (Some e.1), q'. split_and!; try done.
    + intros x Hx. rewrite Hs. right. by rewrite <- Ha.
    + intros msg Em. injection Em as <-. exists e.2. rewrite Hs. destruct e. left.
Qed.

(** * Properties *)

(** C17: the heap-based [SendQueue] implements the abstract priority queue.
    For every sequence of fewer than 2^64 pushes and pops on a new queue no
    operation panics, every pop returns the entry that comes first by (priority,
    insertion order), a pop of an empty queue returns nothing, a push into a
    full queue evicts an entry of the numerically largest priority, and the
    queue never exceeds its capacity. *)
Theorem SendQueue_refines_spec capacity ops :
  0 < capacity -> zlen ops < 2 ^ 64 ->
  exists q out q' s', NewSendQueue capacity = Ret q /\ run_queue ops q = Ret (out, q') /\
    spec_run capacity ops 0 [] out s' /\ abstracts q' s' /\ zlen (sq_h q') <= capacity.
Proof.
  intros Hcap Hops. destruct (NewSendQueue_ok capacity Hcap) as (q & E & Hok & Ha).
  assert (Hq : sq_cap q = capacity /\ sq_counter q = 0).
  { unfold NewSendQueue in E. rewrite decide_False in E by lia. by injection E as <-. }
  destruct Hq as [Hq1 Hq2].
  destruct (run_queue_refines ops q [] Hok Ha) as (out & q' & s' & Er & Hr & Ha' & Hok' & Hc');
    [lia|].
  rewrite Hq1, Hq2 in *. exists q, out, q', s'. split_and!; try done.
  rewrite <- Hc'. apply Hok'.
Qed.

(** Emptying a queue, as [sendLoop] does, returns all queued messages in
    order of priority and, within a priority, of insertion; one iteration more
    than there are entries is enough. *)
Theorem SendQueue_drain_sorted q s fuel :
  queue_ok q -> abstracts q s -> (length s < fuel)%nat ->
  exists q', drain fuel q = Ret (s.*1, q') /\ sq_h q' = [] /\ StronglySorted entry_lt s.
Proof.
  intros Hok Ha Hf. destruct (drain_refines q s fuel Hok Ha Hf) as (q' & E & _ & Hh).
  exists q'. by destruct Ha.
Qed.

(** When every message in a full queue has the same priority, a push
    evicts the oldest of them, the next one that would have been sent, and the
    new message is always queued, whatever its own priority. *)
Theorem SendQueue_evicts_oldest q s e msg p :
  queue_ok q -> abstracts q (e :: s) -> sq_counter q < 2 ^ 64 - 1 ->
  zlen (sq_h q) = sq_cap q -> Forall (fun x => Priority x.1 = p) (e :: s) ->
  exists q' it, Push msg q = Ret (q', Some it) /\ key it = e /\
    abstracts q' (Spec.insert_entry (msg, sq_counter q + 1) s).
Proof. apply Push_evicts_oldest. Qed.

(** A queue of capacity zero panics on its first push, because the
    eviction reads the first element of an empty slice. *)
Theorem SendQueue_zero_capacity_panics msg :
  (NewSendQueue 0 ≫= Push msg) = Panic (IndexOutOfRange 0 0).
Proof. reflexivity. Qed.

(** ** Witnesses *)

Definition prio_message (p : Z) : WireMessage :=
  mkMessage TypeState 1 2 0 0 0 0 TTLState p [].

(** A full queue of two collision-avoidance messages, built by the code *)
Definition full_queue : SendQueue :=
  match NewSendQueue 2 ≫= (fun q => '(q, _) ← Push (prio_message PriorityCollision) q;
                                     '(q, _) ← Push (prio_message PriorityCollision) q; Ret q) with
  | Ret q => q
  | Panic _ => mkQueue [] false 0 0
  end.

Definition full_entries : list entry :=
  [(prio_message PriorityCollision, 1); (prio_message PriorityCollision, 2)].

Lemma full_queue_ok : queue_ok full_queue /\ abstracts full_queue full_entries.
Proof.
  split.
  - constructor; try (vm_compute; congruence).
    + intros k Hk. assert (k = 1%nat) as -> by (change (length (sq_h full_queue)) with 2%nat in Hk; lia).
      intros x y [= <-] [= <-]. reflexivity.
    + intros [|[|i]] a Ha; vm_compute in Ha; by inversion Ha.
    + apply (bool_decide_unpack _). vm_compute. exact I.
    + apply (bool_decide_unpack _). vm_compute. exact I.
  - split; [reflexivity|]. repeat constructor.
Qed.

Lemma SendQueue_refines_spec_witness :
  exists q out q' s', NewSendQueue 2 = Ret q /\
    run_queue [OpPush (prio_message 3); OpPush (prio_message 0); OpPush (prio_message 1); OpPop] q
      = Ret (out, q') /\
    spec_run 2 [OpPush (prio_message 3); OpPush (prio_message 0); OpPush (prio_message 1); OpPop]
      0 [] out s' /\ abstracts q' s' /\ zlen (sq_h q') <= 2.
Proof. apply SendQueue_refines_spec; [lia|vm_compute; reflexivity]. Defined.

Lemma SendQueue_drain_sorted_witness :
  exists q', drain 3 full_queue
    = Ret ([prio_message PriorityCollision; prio_message PriorityCollision], q') /\
    sq_h q' = [] /\ StronglySorted entry_lt full_entries.
Proof. apply (SendQueue_drain_sorted full_queue full_entries 3); [apply full_queue_ok..|cbn; lia]. Defined.

(** The evicted message is a collision-avoidance one, for a debug message. *)
Lemma SendQueue_evicts_oldest_witness :
  exists q' it, Push (prio_message PriorityDebug) full_queue = Ret (q', Some it) /\
    key it = (prio_message PriorityCollision, 1) /\
    abstracts q' (Spec.insert_entry (prio_message PriorityDebug, sq_counter full_queue + 1)
                    [(prio_message PriorityCollision, 2)]).
Proof.
  apply (SendQueue_evicts_oldest full_queue [(prio_message PriorityCollision, 2)] _ _ PriorityCollision);
    [apply full_queue_ok|apply full_queue_ok|vm_compute; reflexivity|reflexivity|].
  by repeat constructor.
Defined.
