(* ===== verification/Router.v ===== *)
(** Inbound filtering: [peerDedup] and [Router] of [src/node/runtime/router.go].

    The three arrays of [peerDedup] (highest, windows, inited), indexed by
    stream, are one list of 256 per-stream records.  [check_seq] is the body of
    [IsDuplicate] for one stream.  The specification of a stream is the set of
    all sequence numbers it ever accepted. *)
From S2P Require Import Prelude Message.

(** * Definitions *)

Definition dedupWindowSize : Z := 256.

Record stream := mkStream { highest : Z; window : gset Z; inited : bool }.

(** [IsDuplicate] on the record of the message's stream *)
Definition check_seq (seq : Z) (st : stream) : bool * stream :=
  if negb (inited st) then (false, mkStream seq ({[seq]} ∪ window st) true)
  else
    let record (st : stream) :=
      if decide (seq ∈ window st) then (true, st)
      else (false, mkStream (highest st) ({[seq]} ∪ window st) (inited st)) in
    if decide (seq > highest st) then
      let cutoff := wrap 32 (seq -[32] dedupWindowSize + 1) in
      let w := if decide (seq >= dedupWindowSize)
               then filter (fun k => ~ k < cutoff) (window st) else window st in
      record (mkStream seq w (inited st))
    else if decide (highest st -[32] seq >= dedupWindowSize) then (true, st)
    else record st.

Record peerDedup := mkDedup { streams : list stream }.

Definition newPeerDedup : peerDedup := mkDedup (replicate 256 (mkStream 0 ∅ false)).

Definition IsDuplicate (streamID seq : Z) (d : peerDedup) : outcome (bool * peerDedup) :=
  st ← index streamID (streams d);
  let '(dup, st) := check_seq seq st in
  Ret (dup, mkDedup (<[Z.to_nat streamID := st]> (streams d))).

Record Router := mkRouter { nodeID : Z; dups : gmap Z peerDedup }.

Definition NewRouter (nodeID : Z) : Router := mkRouter nodeID ∅.

Definition isDuplicate (from streamID seq : Z) (r : Router) : outcome (bool * Router) :=
  let d := default newPeerDedup (dups r !! from) in
  '(dup, d) ← IsDuplicate streamID seq d;
  Ret (dup, mkRouter (nodeID r) (<[from := d]> (dups r))).

(** What [Dispatch] did with the message; the two drops are the calls
    [RecordTTLDrop] and [RecordDedupDrop] on the collector. *)
Inductive verdict : Set := TTLDrop | DedupDrop | Deliver.

#[export] Instance verdict_eq_dec : EqDecision verdict.
Proof. solve_decision. Defined.

(** [now] is the clock read by [IsExpired]. *)
Definition Dispatch {P} (now : Z) (msg : Message P) (r : Router) : outcome (verdict * Router) :=
  if IsExpired now msg then Ret (TTLDrop, r)
  else
    '(dup, r) ← isDuplicate (From msg) (StreamID msg) (Seq msg) r;
    Ret (if dup : bool then DedupDrop else Deliver, r).

(** A run of [Dispatch] over timed arrivals; the messages handed to the
    algorithm, in order. *)
Fixpoint dispatch_all {P} (arrivals : list (Z * Message P)) (r : Router)
    : outcome (list (Message P) * Router) :=
  match arrivals with
  | [] => Ret ([], r)
  | (now, msg) :: arrivals =>
      '(v, r) ← Dispatch now msg r;
      '(ms, r) ← dispatch_all arrivals r;
      Ret (if decide (v = Deliver) then msg :: ms else ms, r)
  end.

(** * Specification of a stream

    [H] is the set of sequence numbers accepted so far. *)
Definition stream_inv (st : stream) (H : gset Z) : Prop :=
  if inited st then
    highest st ∈ H /\ (forall k, k ∈ H -> 0 <= k <= highest st) /\
    highest st < 2 ^ 32 /\
    (forall k, k ∈ window st <-> k ∈ H /\ highest st < k + dedupWindowSize)
  else H = ∅ /\ window st = ∅.

(** A sequence number is fresh when it was not accepted before and is not
    older than the window. *)
Definition fresh (st : stream) (H : gset Z) (seq : Z) : Prop :=
  (seq ∉ H) /\ (inited st = true -> highest st < seq + dedupWindowSize).

Lemma check_seq_spec seq st H :
  is_uint 32 seq -> stream_inv st H ->
  exists dup st', check_seq seq st = (dup, st') /\
    (dup = false <-> fresh st H seq) /\
    stream_inv st' (if dup then H else {[seq]} ∪ H) /\ inited st' = true.
Proof.
  unfold is_uint, stream_inv, fresh, check_seq. intros Hs Hinv.
  destruct st as [hi w ini]; cbn [inited highest window] in *. destruct ini; cbn [negb].
  2:{ destruct Hinv as [-> ->]. do 2 eexists. split; [reflexivity|]. cbn.
      unfold dedupWindowSize. split; [by split; [split; [set_solver|]|]|].
      rewrite !(right_id_L ∅ (∪)). split; [|done]. split_and!; [set_solver| |lia|].
      - intros k ->%elem_of_singleton. lia.
      - intros k. rewrite elem_of_singleton. split; [intros ->; split; [done|lia]|tauto]. }
  destruct Hinv as (Hhi & Hle & Hhb & Hw).
  case_decide as Hnew; [|case_decide as Hold].
  - (* beyond the highest: the window advances *)
    assert (Hns : seq ∉ H) by (intros Hin; apply Hle in Hin; lia).
    set (w' := if decide (seq >= dedupWindowSize) then _ else _).
    assert (Hw' : forall k, k ∈ w' <-> k ∈ H /\ seq < k + dedupWindowSize).
    { intros k. unfold w', dedupWindowSize. case_decide as Hb.
      - rewrite elem_of_filter, Hw. unfold dedupWindowSize in *.
        rewrite (wrap_small 32 (seq - 256)) by (unfold is_uint; lia).
        rewrite wrap_small by (unfold is_uint; lia). split; [intros [? [? ?]]|intros [? ?]].
        + split; [done|lia].
        + split_and!; [lia|done|]. lia.
      - rewrite Hw. unfold dedupWindowSize in *. split; intros [Hk ?]; apply Hle in Hk as ?;
          (split; [done|lia]). }
    clearbody w'. cbn. rewrite decide_False by (rewrite Hw'; tauto).
    do 2 eexists. split; [reflexivity|]. cbn. unfold dedupWindowSize in *.
    split; [split; [intros _; split; [done|lia]|done]|]. split; [|done].
    split_and!; [set_solver|intros k|lia|intros k].
    + rewrite elem_of_union, elem_of_singleton. intros [->|Hk]; [lia|]. apply Hle in Hk. lia.
    + rewrite !elem_of_union, elem_of_singleton, Hw'. split; [|tauto].
      intros [->|[? ?]]; [split; [by left|lia]|split; [by right|lia]].
  - (* too old *)
    pose proof (Hle _ Hhi). rewrite wrap_small in Hold by (unfold is_uint; lia).
    do 2 eexists. split; [reflexivity|]. cbn. split; [|done].
    split; [done|]. intros [_ Hf]. specialize (Hf eq_refl). lia.
  - pose proof (Hle _ Hhi). rewrite wrap_small in Hold by (unfold is_uint; lia).
    assert (Hin : seq ∈ w <-> seq ∈ H).
    { rewrite Hw. unfold dedupWindowSize in *. split; [tauto|]. intros; split; [done|lia]. }
    cbn. case_decide as Hseen; do 2 eexists; (split; [reflexivity|]); cbn.
    + split; [|done]. split; [done|]. intros [Hf _]. tauto.
    + unfold dedupWindowSize in *. split; [split; [intros _; split; [tauto|lia]|done]|].
      split; [|done]. split_and!; [set_solver|intros k|lia|intros k].
      * rewrite elem_of_union, elem_of_singleton. intros [->|Hk]; [lia|]. by apply Hle.
      * rewrite !elem_of_union, elem_of_singleton, Hw. split; [|tauto].
        intros [->|[? ?]]; [split; [by left|lia]|split; [by right|lia]].
Qed.

(** The window never holds more than [dedupWindowSize] numbers. *)
Lemma stream_inv_bound st H : stream_inv st H -> Z.of_nat (size (window st)) <= dedupWindowSize.
Proof.
  unfold stream_inv. destruct (inited st).
  - intros (_ & Hle & _ & Hw).
    assert (Hsub : window st ⊆ list_to_set (seqZ (highest st - 255) 256)).
    { intros k Hk. apply Hw in Hk as [Hk Hlt]. apply Hle in Hk. unfold dedupWindowSize in *.
      rewrite elem_of_list_to_set, elem_of_seqZ. lia. }
    apply subseteq_size in Hsub. rewrite size_list_to_set in Hsub by apply NoDup_seqZ.
    rewrite length_seqZ in Hsub. unfold dedupWindowSize. lia.
  - intros [_ ->]. by vm_compute.
Qed.

(** It holds the accepted numbers less than [dedupWindowSize] behind every other. *)
Lemma stream_inv_window st H : stream_inv st H ->
  forall k, k ∈ window st <-> k ∈ H /\ forall j, j ∈ H -> j - k < dedupWindowSize.
Proof.
  unfold stream_inv. destruct (inited st).
  - intros (Hhi & Hle & _ & Hw) k. rewrite Hw. split; intros [Hk Hlt]; (split; [done|]).
    + intros j Hj%Hle. lia.
    + specialize (Hlt _ Hhi). lia.
  - intros [-> ->] k. split; [by intros ?%elem_of_empty|by intros [?%elem_of_empty _]].
Qed.

(** * The router *)

#[local] Arguments newPeerDedup : simpl never.

(** Sequence numbers accepted so far, by sender and stream. *)
Abbreviation history := (Z -> Z -> gset Z).

Definition stream_of (r : Router) (from sid : Z) : stream :=
  default (mkStream 0 ∅ false)
    (streams (default newPeerDedup (dups r !! from)) !! Z.to_nat sid).

Definition router_inv (r : Router) (hist : history) : Prop :=
  (forall from d, dups r !! from = Some d -> length (streams d) = 256%nat) /\
  (forall from sid, is_uint 8 sid -> stream_inv (stream_of r from sid) (hist from sid)).

Definition record_hist (from sid seq : Z) (hist : history) : history :=
  fun f s => if decide (f = from /\ s = sid) then {[seq]} ∪ hist f s else hist f s.

(** What identifies a message to the receiver. *)
Definition msg_id {P} (m : Message P) : Z * Z * Z := (From m, StreamID m, Seq m).

(** The numbers of a stream among the messages delivered *)
Definition accepted {P} (from sid : Z) (ms : list (Message P)) : gset Z :=
  list_to_set (Seq <$> filter (fun m => From m = from /\ StreamID m = sid) ms).

Lemma router_inv_new id : router_inv (NewRouter id) (fun _ _ => ∅).
Proof.
  split; cbn; [by intros ? ? ?%lookup_empty_Some|].
  intros from sid Hs. unfold stream_of. cbn. rewrite lookup_empty. cbn.
  change (streams newPeerDedup) with (replicate 256 (mkStream 0 ∅ false)).
  unfold is_uint in Hs. by rewrite lookup_replicate_2 by lia.
Qed.

Lemma stream_of_lookup r hist from sid :
  router_inv r hist -> is_uint 8 sid ->
  streams (default newPeerDedup (dups r !! from)) !! Z.to_nat sid = Some (stream_of r from sid).
Proof.
  intros [Hl _] Hs. unfold stream_of.
  destruct (lookup_lt_is_Some_2 (streams (default newPeerDedup (dups r !! from))) (Z.to_nat sid))
    as [st ->]; [|done].
  unfold is_uint in Hs. destruct (dups r !! from) as [d|] eqn:E; cbn.
  - rewrite (Hl _ _ E). lia.
  - change (length (streams newPeerDedup)) with 256%nat. lia.
Qed.

(** [isDuplicate] runs the stream of the message and leaves the others alone. *)
Lemma isDuplicate_spec from sid seq r hist :
  router_inv r hist -> is_uint 8 sid -> is_uint 32 seq ->
  exists dup r', isDuplicate from sid seq r = Ret (dup, r') /\
    (dup = false <-> fresh (stream_of r from sid) (hist from sid) seq) /\
    router_inv r' (if dup then hist else record_hist from sid seq hist).
Proof.
  intros Hinv Hs Hq. pose proof (stream_of_lookup r hist from sid Hinv Hs) as Hlk.
  pose proof Hinv as [Hlen Hst].
  destruct (check_seq_spec seq (stream_of r from sid) (hist from sid) Hq (Hst _ _ Hs))
    as (dup & st' & E & Hdup & Hst' & _).
  unfold isDuplicate, IsDuplicate.
  assert (Hs0 : 0 <= sid) by (unfold is_uint in Hs; lia).
  rewrite (index_Some _ _ _ Hs0 Hlk), bind_Ret, E, bind_Ret.
  do 2 eexists. split; [reflexivity|]. split; [done|]. split.
  - intros f d. cbn. rewrite lookup_insert. case_decide; [|apply Hlen].
    intros [= <-]. cbn. rewrite length_insert.
    destruct (dups r !! from) as [d|] eqn:Ed; cbn; [by eapply Hlen|apply length_replicate].
  - intros f s Hs'.
    assert (Hsame : forall h, h f s = hist f s -> (f <> from \/ s <> sid) ->
      stream_inv (stream_of (mkRouter (nodeID r) (<[from := mkDedup (<[Z.to_nat sid := st']>
        (streams (default newPeerDedup (dups r !! from))))]> (dups r))) f s) (h f s)).
    { intros h -> Hne. unfold stream_of at 1. cbn. rewrite lookup_insert. case_decide; cbn.
      - subst f. rewrite list_lookup_insert_ne; [by apply Hst|].
        destruct Hne as [Hne|Hne]; [done|]. unfold is_uint in *. lia.
      - by apply Hst. }
    destruct (decide (f = from /\ s = sid)) as [[-> ->]|Hne].
    + unfold stream_of at 1. cbn. rewrite lookup_insert_eq. cbn.
      rewrite list_lookup_insert_eq by (by eapply lookup_lt_Some). cbn.
      destruct dup; [done|]. unfold record_hist. by rewrite decide_True.
    + assert (f <> from \/ s <> sid) by (destruct (decide (f = from)); naive_solver).
      destruct dup; apply Hsame; [done|done| |done].
      unfold record_hist. by rewrite decide_False.
Qed.

(** The verdict of [Dispatch], on every branch. *)
Lemma Dispatch_spec {P} now (msg : Message P) r hist :
  router_inv r hist -> msg_wf msg ->
  exists v r', Dispatch now msg r = Ret (v, r') /\
    (v = TTLDrop <-> IsExpired now msg = true) /\
    (v = Deliver <-> IsExpired now msg = false /\
       fresh (stream_of r (From msg) (StreamID msg)) (hist (From msg) (StreamID msg)) (Seq msg)) /\
    router_inv r' (if decide (v = Deliver)
                   then record_hist (From msg) (StreamID msg) (Seq msg) hist else hist).
Proof.
  intros Hinv (H1 & H2 & H3 & H4 & H5 & H6 & H7 & _). unfold Dispatch.
  destruct (IsExpired now msg).
  { do 2 eexists. split; [reflexivity|]. rewrite decide_False by done. naive_solver. }
  destruct (isDuplicate_spec (From msg) (StreamID msg) (Seq msg) r hist Hinv H7 H4)
    as (dup & r' & E & Hdup & Hinv').
  rewrite E, bind_Ret. do 2 eexists. split; [reflexivity|].
  destruct dup; [rewrite decide_False by done|rewrite decide_True by done];
    split_and!; naive_solver.
Qed.

(** What a run delivers was not delivered before, and is delivered once. *)
Lemma dispatch_all_spec {P} (arrivals : list (Z * Message P)) r hist :
  router_inv r hist -> Forall (fun a => msg_wf a.2) arrivals ->
  exists ms r' hist', dispatch_all arrivals r = Ret (ms, r') /\ router_inv r' hist' /\
    NoDup (msg_id <$> ms) /\ ms `sublist_of` arrivals.*2 /\
    (forall m, m ∈ ms -> Seq m ∉ hist (From m) (StreamID m)) /\
    (forall from sid, hist' from sid = accepted from sid ms ∪ hist from sid).
Proof.
  revert r hist; induction arrivals as [|[now msg] arrivals IH]; intros r hist Hinv Hf.
  { do 3 eexists. split; [reflexivity|]. split_and!; [done|constructor|done| |].
    - by intros m ?%elem_of_nil.
    - intros from sid. unfold accepted. cbn. by rewrite (left_id_L ∅ (∪)). }
  inversion Hf as [|? ? Hm Hf']; subst. cbn [dispatch_all].
  destruct (Dispatch_spec now msg r hist Hinv Hm) as (v & r1 & E & _ & Hd & Hinv1).
  rewrite E, bind_Ret. destruct (IH r1 _ Hinv1 Hf') as (ms & r2 & hist2 & E2 & Hinv2 & Hn & Hsub & Hfr & Hh).
  rewrite E2, bind_Ret. do 3 eexists. split; [reflexivity|]. split; [exact Hinv2|].
  case_decide as Hv; cbn.
  - apply Hd in Hv as [_ [Hfresh _]]. split_and!.
    + constructor; [|done]. intros (m & Em & Hin)%list_elem_of_fmap.
      apply Hfr in Hin. unfold msg_id in Em. simplify_eq. unfold record_hist in Hin.
      rewrite decide_True in Hin by done. set_solver.
    + by constructor.
    + intros m [->|Hin]%elem_of_cons; [done|]. apply Hfr in Hin.
      unfold record_hist in Hin. case_decide; set_solver.
    + intros from sid. rewrite Hh. fold (accepted from sid ms).
      unfold record_hist. destruct (decide (From msg = from /\ StreamID msg = sid)) as [[-> ->]|Hne].
      * rewrite decide_True by done. cbn. fold (accepted (From msg) (StreamID msg) ms). set_solver.
      * rewrite decide_False; [done|]. intros [-> ->]. by apply Hne.
  - split_and!; [done|by constructor|done|done].
Qed.

(** * Properties *)

(** C18: over any sequence of arrivals, in any order and with any repetitions,
    a new router never panics and hands each (sender, stream, sequence number)
    to the algorithm at most once; what it hands over is a subsequence of what
    arrived. *)
Theorem router_at_most_once {P} id (arrivals : list (Z * Message P)) :
  Forall (fun a => msg_wf a.2) arrivals ->
  exists ms r, dispatch_all arrivals (NewRouter id) = Ret (ms, r) /\
    NoDup (msg_id <$> ms) /\ ms `sublist_of` arrivals.*2.
Proof.
  intros Hf. destruct (dispatch_all_spec arrivals _ _ (router_inv_new id) Hf)
    as (ms & r & hist & E & _ & Hn & Hs & _). by exists ms, r.
Qed.

(** C26: [Dispatch] on every branch.  With [hist] the sequence numbers accepted
    so far, an expired message is a TTL drop; an unexpired one is delivered
    exactly when its number was not accepted before and is less than 256 behind
    the highest of its stream, and is a duplicate drop otherwise; the invariant
    that ties the bounded windows to [hist] is kept. *)
Theorem Dispatch_verdict {P} now (msg : Message P) r hist :
  router_inv r hist -> msg_wf msg ->
  exists v r', Dispatch now msg r = Ret (v, r') /\
    (v = TTLDrop <-> IsExpired now msg = true) /\
    (v = Deliver <-> IsExpired now msg = false /\
       fresh (stream_of r (From msg) (StreamID msg)) (hist (From msg) (StreamID msg)) (Seq msg)) /\
    router_inv r' (if decide (v = Deliver)
                   then record_hist (From msg) (StreamID msg) (Seq msg) hist else hist).
Proof. apply Dispatch_spec. Qed.

(** C40: the memory of a router that has taken any sequence of arrivals.  The
    window of every stream of every sender holds exactly the sequence numbers
    of that stream that were delivered and are less than 256 behind all others
    delivered: what has fallen behind is forgotten, nothing else is, and so at
    most 256 numbers are remembered however many have arrived. *)
Theorem dedup_window_bounded {P} id (arrivals : list (Z * Message P)) from sid :
  Forall (fun a => msg_wf a.2) arrivals -> is_uint 8 sid ->
  exists ms r, dispatch_all arrivals (NewRouter id) = Ret (ms, r) /\
    (forall k, k ∈ window (stream_of r from sid) <->
       k ∈ accepted from sid ms /\ forall j, j ∈ accepted from sid ms -> j - k < dedupWindowSize) /\
    Z.of_nat (size (window (stream_of r from sid))) <= dedupWindowSize.
Proof.
  intros Hf Hs. destruct (dispatch_all_spec arrivals _ _ (router_inv_new id) Hf)
    as (ms & r & hist & E & [_ Hst] & _ & _ & _ & Hh). exists ms, r. split; [exact E|].
  specialize (Hst from sid Hs). rewrite Hh, (right_id_L ∅ (∪)) in Hst.
  split; [by apply stream_inv_window|by eapply stream_inv_bound].
Qed.

(** ** Witnesses *)

Definition numbered (seq : Z) : Message unit :=
  mkMessage TypeState 9 1 seq 0 0 0 TTLForever PriorityState tt.

(** A replay of 100, and 5 far behind it *)
Lemma router_at_most_once_witness :
  exists ms r, dispatch_all [(0, numbered 100); (0, numbered 100); (0, numbered 400);
                             (0, numbered 5); (0, numbered 145)] (NewRouter 1) = Ret (ms, r) /\
    NoDup (msg_id <$> ms) /\
    ms `sublist_of` [numbered 100; numbered 100; numbered 400; numbered 5; numbered 145].
Proof.
  apply (router_at_most_once 1 [(0, numbered 100); (0, numbered 100); (0, numbered 400);
                             (0, numbered 5); (0, numbered 145)]).
  apply (bool_decide_unpack _). vm_compute. exact I.
Defined.

Example router_replay :
  fst <$> (match dispatch_all [(0, numbered 100); (0, numbered 100); (0, numbered 400);
                      (0, numbered 5); (0, numbered 145)] (NewRouter 1) with
           | Ret r => Some r | Panic _ => None end)
  = Some [numbered 100; numbered 400; numbered 145].
Proof. vm_compute. reflexivity. Qed.

Lemma Dispatch_verdict_witness :
  exists v r', Dispatch 5000 (numbered 100) (NewRouter 1) = Ret (v, r') /\
    (v = TTLDrop <-> IsExpired 5000 (numbered 100) = true) /\
    (v = Deliver <-> IsExpired 5000 (numbered 100) = false /\
       fresh (stream_of (NewRouter 1) 9 0) ∅ 100) /\
    router_inv r' (if decide (v = Deliver) then record_hist 9 0 100 (fun _ _ => ∅)
                   else (fun _ _ => ∅)).
Proof.
  apply (Dispatch_verdict 5000 (numbered 100) (NewRouter 1) (fun _ _ => ∅)).
  - apply router_inv_new.
  - apply (bool_decide_unpack _). vm_compute. exact I.
Defined.

(** 300 numbers in a row: the first 44 are forgotten. *)
Lemma dedup_window_bounded_witness :
  exists ms r, dispatch_all ((fun k => (0, numbered k)) <$> seqZ 1 300) (NewRouter 1) = Ret (ms, r) /\
    44 ∉ window (stream_of r 9 0) /\ 45 ∈ window (stream_of r 9 0) /\
    Z.of_nat (size (window (stream_of r 9 0))) <= dedupWindowSize.
Proof.
  destruct (dedup_window_bounded 1 ((fun k => (0, numbered k)) <$> seqZ 1 300) 9 0)
    as (ms & r & E & Hw & Hb); [apply (bool_decide_unpack _); vm_compute; exact I|done|].
  exists ms, r. split; [exact E|].
  assert (Ems : ms = numbered <$> seqZ 1 300).
  { apply (f_equal (fun o => match o with Ret r => r.1 | Panic _ => [] end)) in E.
    cbn [fst] in E. rewrite <- E. vm_compute. reflexivity. }
  subst ms. rewrite !Hw. split_and!; [| | |exact Hb].
  - intros [_ H]. specialize (H 300). cut (300 - 44 < 256); [lia|]. apply H.
    apply (bool_decide_unpack _). vm_compute. exact I.
  - apply (bool_decide_unpack _). vm_compute. exact I.
  - apply (bool_decide_unpack (set_Forall (fun j => j - 45 < dedupWindowSize) _)). vm_compute. exact I.
Defined.
