(* ===== verification/Collector.v ===== *)
(** The metrics collector: [src/node/metrics/collector.go].

    The atomic counters are a function from counter names to [uint64] values;
    every [Add] wraps.  Latency samples go to a ring buffer whose contents,
    read by [latencies], are specified as the last [latencyRingSize] samples
    recorded since the last reset. *)
From S2P Require Import Prelude Message.

(** * Definitions *)

Definition latencyRingSize : Z := 4096.

Inductive counter : Set :=
  | MsgSent | MsgRecv | BytesSent | BytesRecv
  | MsgSentByType (t : Z) | MsgRecvByType (t : Z)
  | DedupDropped | TtlExpiredDropped | QueueOverflowDrop | SendErrors
  | CompressedBytes | UncompressedBytes.

#[export] Instance counter_eq_dec : EqDecision counter.
Proof. solve_decision. Defined.

Record Collector := mkCollector {
  co_nodeID : Z;
  startTime : Z;
  counters : counter -> Z;
  latBuf : list Z;
  latPos : Z;
  latFull : bool
}.

Definition NewCollector (nodeID now : Z) : Collector :=
  mkCollector nodeID now (fun _ => 0) (replicate (Z.to_nat latencyRingSize) 0) 0 false.

Definition Add (k : counter) (n : Z) (c : Collector) : Collector :=
  mkCollector (co_nodeID c) (startTime c)
    (fun k' => if decide (k' = k) then counters c k +[64] n else counters c k')
    (latBuf c) (latPos c) (latFull c).

(** Number of entries of the two per-type arrays *)
Definition numTypes : Z := 5.

Definition RecordSend {P} (msg : Message P) (wireBytes : Z) (c : Collector) : Collector :=
  let c := Add MsgSent 1 c in
  let c := Add BytesSent (wrap 64 wireBytes) c in
  if decide (Type_ msg < numTypes) then Add (MsgSentByType (Type_ msg)) 1 c else c.

(** [latBuf[latPos] = ms] and the advance of the write position; the position is
    always that of an element of the buffer ([ring_inv]). *)
Definition recordLatency (ms : Z) (c : Collector) : Collector :=
  let buf := <[Z.to_nat (latPos c) := ms]> (latBuf c) in
  let pos := latPos c + 1 in
  if decide (pos >= latencyRingSize)
  then mkCollector (co_nodeID c) (startTime c) (counters c) buf 0 true
  else mkCollector (co_nodeID c) (startTime c) (counters c) buf pos (latFull c).

(** [now] is [time.Now().UnixMilli()]. *)
Definition RecordRecv {P} (now : Z) (msg : Message P) (wireBytes : Z) (c : Collector) : Collector :=
  let c := Add MsgRecv 1 c in
  let c := Add BytesRecv (wrap 64 wireBytes) c in
  let c := if decide (Type_ msg < numTypes) then Add (MsgRecvByType (Type_ msg)) 1 c else c in
  if decide (Timestamp msg > 0) then
    let latency := int64_of_uint64 (wrap 64 (now - Timestamp msg)) in
    if decide (latency >= 0) then recordLatency latency c else c
  else c.

Definition RecordDedupDrop (c : Collector) : Collector := Add DedupDropped 1 c.
Definition RecordTTLDrop (c : Collector) : Collector := Add TtlExpiredDropped 1 c.
Definition RecordQueueDrop (c : Collector) : Collector := Add QueueOverflowDrop 1 c.
Definition RecordSendError (c : Collector) : Collector := Add SendErrors 1 c.

Definition RecordCompression (uncompressed compressed : Z) (c : Collector) : Collector :=
  Add CompressedBytes (wrap 64 compressed) (Add UncompressedBytes (wrap 64 uncompressed) c).

Definition latencies (c : Collector) : list Z :=
  let n := if latFull c then latencyRingSize else latPos c in
  if decide (n = 0) then []
  else if latFull c
  then drop (Z.to_nat (latPos c)) (latBuf c) ++ take (Z.to_nat (latPos c)) (latBuf c)
  else take (Z.to_nat (latPos c)) (latBuf c).

Definition Reset (now : Z) (c : Collector) : Collector :=
  mkCollector (co_nodeID c) now (fun _ => 0) (latBuf c) 0 false.

(** * The ring buffer *)

(** [samples]: what was recorded since creation or the last reset, oldest first. *)
Definition ring_inv (c : Collector) (samples : list Z) : Prop :=
  zlen (latBuf c) = latencyRingSize /\ 0 <= latPos c < latencyRingSize /\
  if latFull c
  then latencyRingSize <= zlen samples /\
       drop (Z.to_nat (latPos c)) (latBuf c) ++ take (Z.to_nat (latPos c)) (latBuf c)
       = last_n (Z.to_nat latencyRingSize) samples
  else zlen samples = latPos c /\ take (Z.to_nat (latPos c)) (latBuf c) = samples.

Lemma ring_inv_new id now : ring_inv (NewCollector id now) [].
Proof.
  split_and!; cbn [NewCollector latBuf latPos latFull]; try done.
Qed.

Lemma ring_inv_reset now c samples : ring_inv c samples -> ring_inv (Reset now c) [].
Proof. intros (H1 & _). by split_and!. Qed.

Lemma recordLatency_ring ms c samples :
  ring_inv c samples -> ring_inv (recordLatency ms c) (samples ++ [ms]).
Proof.
  intros (Hl & Hp & Hc). unfold recordLatency, ring_inv.
  set (p := Z.to_nat (latPos c)) in *. set (R := Z.to_nat latencyRingSize).
  assert (Hb : length (latBuf c) = R) by (unfold zlen in Hl; lia).
  assert (HpR : (p < R)%nat) by lia.
  destruct (lookup_lt_is_Some_2 (latBuf c) p) as [old Hold]; [lia|].
  assert (Htake : take (S p) (<[p:=ms]> (latBuf c)) = take p (latBuf c) ++ [ms]).
  { rewrite (take_S_r _ p ms) by (apply list_lookup_insert_eq; lia).
    by rewrite take_insert_ge by lia. }
  assert (Hdrop : drop (S p) (<[p:=ms]> (latBuf c)) = drop (S p) (latBuf c))
    by (apply drop_insert_lt; lia).
  assert (Hfull : latFull c = true ->
    drop (S p) (latBuf c) ++ take p (latBuf c) ++ [ms] = last_n R (samples ++ [ms])).
  { intros Hf. rewrite Hf in Hc. destruct Hc as [Hs He].
    rewrite <- last_n_last_n_app. fold R in He. rewrite <- He.
    rewrite (drop_S _ old p Hold). unfold last_n. rewrite !length_app. cbn [length].
    rewrite length_drop, length_take. replace (_ - _)%nat with 1%nat by lia.
    cbn. by rewrite drop_0, app_assoc. }
  assert (Hpos : Z.to_nat (latPos c + 1) = S p) by lia.
  case_decide as Hw; cbn [latBuf latPos latFull].
  - (* the write position wraps: the buffer is full *)
    assert (HS : S p = R) by lia.
    split; [by unfold zlen; rewrite length_insert|]. split; [unfold latencyRingSize; lia|].
    cbn [Z.to_nat drop take]. rewrite app_nil_r, drop_0.
    rewrite <- (take_drop (S p) (<[p:=ms]> (latBuf c))), Htake, Hdrop, HS.
    rewrite (drop_ge (latBuf c)) by lia. rewrite app_nil_r.
    destruct (latFull c) eqn:Hf.
    + destruct Hc as [Hs He]. split; [zlia|]. rewrite <- Hfull by done.
      rewrite drop_ge by lia. done.
    + destruct Hc as [Hs He]. split; [zlia|]. rewrite last_n_all, He; [done|].
      rewrite length_app. unfold zlen in Hs. cbn. lia.
  - split; [by unfold zlen; rewrite length_insert|]. split; [lia|].
    rewrite Hpos, Htake. destruct (latFull c) eqn:Hf.
    + destruct Hc as [Hs He]. split; [zlia|]. by rewrite Hdrop, <- Hfull.
    + destruct Hc as [Hs He]. split; [zlia|]. by rewrite He.
Qed.

Lemma latencies_ring c samples :
  ring_inv c samples -> latencies c = last_n (Z.to_nat latencyRingSize) samples.
Proof.
  intros (Hl & Hp & Hc). unfold latencies. destruct (latFull c).
  - by destruct Hc.
  - destruct Hc as [Hs <-]. rewrite last_n_all by (unfold zlen in *; rewrite length_take; lia).
    case_decide as H0; [|done]. by rewrite H0.
Qed.

(** * Counters *)

Lemma counters_Add k n c k' :
  counters (Add k n c) k' = if decide (k' = k) then counters c k +[64] n else counters c k'.
Proof. done. Qed.

Lemma counters_recordLatency ms c k : counters (recordLatency ms c) k = counters c k.
Proof. unfold recordLatency. by case_decide. Qed.

Lemma ring_Add k n c samples : ring_inv (Add k n c) samples <-> ring_inv c samples.
Proof. done. Qed.

(** * Properties *)

(** After any number of recorded latencies, including more than fit in the
    ring, [latencies] returns the most recent 4096 samples in the order in
    which they were recorded. *)
Theorem latencies_are_last_samples id now samples :
  latencies (foldl (fun c ms => recordLatency ms c) (NewCollector id now) samples)
  = last_n (Z.to_nat latencyRingSize) samples.
Proof.
  apply latencies_ring. rewrite <- (app_nil_l samples) at 2.
  generalize (ring_inv_new id now). generalize (NewCollector id now) (@nil Z).
  induction samples as [|x samples IH]; intros c l Hc; cbn.
  - by rewrite app_nil_r.
  - rewrite cons_middle, app_assoc. by apply IH, recordLatency_ring.
Qed.
