(* ===== verification/Peer.v ===== *)
(** The peer registry: [src/node/runtime/peer.go].

    Iteration over a Go map is in unspecified order: [is_List] relates a
    registry to every slice [List] may return. *)
From S2P Require Import Prelude.

Record Peer := mkPeer { ID : Z; Addr : string }.

Abbreviation PeerManager := (gmap Z Peer).

Inductive peer_error : Set := ReservedID.

Definition NewPeerManager : PeerManager := ∅.

Definition Add (id : Z) (addr : string) (pm : PeerManager) : result peer_error PeerManager :=
  if decide (id = 0) then Err ReservedID else Ok (<[id := mkPeer id addr]> pm).

Definition Remove (id : Z) (pm : PeerManager) : PeerManager := delete id pm.

Definition Get (id : Z) (pm : PeerManager) : option Peer := pm !! id.

(** [List]: one iteration order, and all of them. *)
Definition List (pm : PeerManager) : list Z := (map_to_list pm).*1.
Definition is_List (pm : PeerManager) (ids : list Z) : Prop := ids ≡ₚ List pm.

Definition Addrs (pm : PeerManager) : gmap Z string := Addr <$> pm.

(** Keys are the identifiers of their peers, and 0 is never registered. *)
Definition peers_ok (pm : PeerManager) : Prop :=
  pm !! 0 = None /\ forall id p, pm !! id = Some p -> ID p = id.

Lemma peers_ok_new : peers_ok NewPeerManager.
Proof. split; [done|]. intros id p. unfold NewPeerManager. by rewrite lookup_empty. Qed.

Lemma peers_ok_Add id addr pm pm' : Add id addr pm = Ok pm' -> peers_ok pm -> peers_ok pm'.
Proof.
  unfold Add. case_decide as H0; [done|]. intros [= <-] [Hz Hid]. split.
  - by rewrite lookup_insert_ne.
  - intros i p. rewrite lookup_insert. case_decide; [by intros [= <-]|apply Hid].
Qed.

Lemma peers_ok_Remove id pm : peers_ok pm -> peers_ok (Remove id pm).
Proof.
  intros [Hz Hid]. unfold Remove. split.
  - rewrite lookup_delete. by case_decide.
  - intros i p. rewrite lookup_delete. case_decide; [done|apply Hid].
Qed.

Lemma elem_of_List pm ids id : is_List pm ids -> id ∈ ids <-> is_Some (Get id pm).
Proof.
  intros ->. unfold List, Get. rewrite list_elem_of_fmap. split.
  - intros ([i p] & -> & Hin%elem_of_map_to_list). by exists p.
  - intros [p Hp]. exists (id, p). split; [done|]. by apply elem_of_map_to_list.
Qed.

Lemma NoDup_List pm ids : is_List pm ids -> NoDup ids.
Proof. intros ->. apply NoDup_fst_map_to_list. Qed.
