(* ===== verification/Node.v ===== *)
(** The node: [src/node/runtime/node.go].

    A [Node] owns the peer registry, the per-stream sequence counters, the
    send queue, the router and, when metrics are attached, the collector that
    these parts share.  Clock readings, the iteration order of the peer map
    and the answers of the transport are arguments.  The lifecycle
    ([Start]/[Stop] and the closing of [stopCh]) is modelled on its own. *)
From S2P Require Import Prelude Message Heap SendQueue Router Collector Peer.

(** * Definitions *)

Record Node := mkNode {
  n_id : Z;
  n_pm : PeerManager;
  n_sq : SendQueue;
  n_rt : Router;
  n_mc : option Collector;
  seqCounters : list Z      (* 256 uint32 counters, one per stream *)
}.

Inductive node_error : Set := UnknownPeer (id : Z).

Definition NewNode (id sendQueueSize : Z) (mc : option Collector) : outcome Node :=
  sq ← NewSendQueue sendQueueSize;
  Ret (mkNode id NewPeerManager sq (NewRouter id) mc (replicate 256 0)).

(** The functional options of the constructor: [recvBufSize] is set but read by
    nothing, since the transport has its own buffer. *)
Record nodeOptions := mkOptions {
  o_id : Z; o_sendQueueSize : Z; o_recvBufSize : Z; o_mc : option Collector }.

Definition WithSendQueueSize (n : Z) (o : nodeOptions) : nodeOptions :=
  mkOptions (o_id o) n (o_recvBufSize o) (o_mc o).
Definition WithRecvBufSize (n : Z) (o : nodeOptions) : nodeOptions :=
  mkOptions (o_id o) (o_sendQueueSize o) n (o_mc o).
Definition WithMetrics (mc : Collector) (o : nodeOptions) : nodeOptions :=
  mkOptions (o_id o) (o_sendQueueSize o) (o_recvBufSize o) (Some mc).

Definition NewNodeWith (id : Z) (opts : list (nodeOptions -> nodeOptions)) : outcome Node :=
  let o := foldl (fun o opt => opt o) (mkOptions id 512 256 None) opts in
  NewNode (o_id o) (o_sendQueueSize o) (o_mc o).

Definition AddPeer (id : Z) (addr : string) (n : Node) : result peer_error Node :=
  match Add id addr (n_pm n) with
  | Ok pm => Ok (mkNode (n_id n) pm (n_sq n) (n_rt n) (n_mc n) (seqCounters n))
  | Err e => Err e
  end.

Definition PeerAddr (peerID : Z) (n : Node) : option string := Addr <$> Get peerID (n_pm n).

Definition nextSeq (streamID : Z) (n : Node) : outcome (Z * Node) :=
  c ← index streamID (seqCounters n);
  let c := c +[32] 1 in
  Ret (c, mkNode (n_id n) (n_pm n) (n_sq n) (n_rt n) (n_mc n)
            (<[Z.to_nat streamID := c]> (seqCounters n))).

(** [n.sq.Push(msg)], with the queue's drop reported to the collector *)
Definition enqueue (msg : WireMessage) (n : Node) : outcome Node :=
  '(sq, dropped) ← Push msg (n_sq n);
  Ret (mkNode (n_id n) (n_pm n) sq (n_rt n)
         (match dropped with Some _ => RecordQueueDrop <$> n_mc n | None => n_mc n end)
         (seqCounters n)).

(** The header fields [Send] and [Broadcast] fill in *)
Definition stamp {P} (from to seq now : Z) (msg : Message P) : Message P :=
  mkMessage (Type_ msg) from to seq
    (if decide (Timestamp msg = 0) then now else Timestamp msg)
    (DataTime msg) (StreamID msg) (TTL msg) (Priority msg) (Payload msg).

(** [Send]; the message that was queued is returned with the new state. *)
Definition Send (now peerID : Z) (msg : WireMessage) (n : Node)
    : outcome (result node_error WireMessage * Node) :=
  match Get peerID (n_pm n) with
  | None => Ret (Err (UnknownPeer peerID), n)
  | Some _ =>
      '(seq, n) ← nextSeq (StreamID msg) n;
      let m := stamp (n_id n) peerID seq now msg in
      n ← enqueue m n;
      Ret (Ok m, n)
  end.

(** The loop of [Broadcast] over [order], an iteration order of the peers *)
Fixpoint Broadcast (now : Z) (order : list Z) (msg : WireMessage) (n : Node)
    : outcome (list WireMessage * Node) :=
  match order with
  | [] => Ret ([], n)
  | peerID :: order =>
      '(seq, n) ← nextSeq (StreamID msg) n;
      let m := stamp (n_id n) peerID seq now msg in
      n ← enqueue m n;
      '(ms, n) ← Broadcast now order msg n;
      Ret (m :: ms, n)
  end.

Definition wireBytes (msg : WireMessage) : Z := HeaderSize + zlen (Payload msg).

(** One iteration of [recvLoop]: count the message, dispatch it, count a drop.
    The message is returned when it is handed to the algorithm. *)
Definition recv_msg (now : Z) (msg : WireMessage) (n : Node)
    : outcome (option WireMessage * Node) :=
  let mc := RecordRecv now msg (wireBytes msg) <$> n_mc n in
  '(v, rt) ← Dispatch now msg (n_rt n);
  let mc := match v with
            | TTLDrop => RecordTTLDrop <$> mc
            | DedupDrop => RecordDedupDrop <$> mc
            | Deliver => mc
            end in
  Ret (if decide (v = Deliver) then Some msg else None,
       mkNode (n_id n) (n_pm n) (n_sq n) rt mc (seqCounters n)).

Fixpoint recv_all (arrivals : list (Z * WireMessage)) (n : Node)
    : outcome (list WireMessage * Node) :=
  match arrivals with
  | [] => Ret ([], n)
  | (now, msg) :: arrivals =>
      '(d, n) ← recv_msg now msg n;
      '(ds, n) ← recv_all arrivals n;
      Ret (match d with Some m => m :: ds | None => ds end, n)
  end.

(** The inner loop of [sendLoop]: [tr] says whether [tr.Send(addr, msg)]
    succeeds; the transmissions that succeeded are returned in order. *)
Fixpoint send_pending (fuel : nat) (tr : string -> WireMessage -> bool) (n : Node)
    : outcome (list (string * WireMessage) * Node) :=
  match fuel with
  | O => Ret ([], n)
  | S fuel =>
      '(m, sq) ← Pop (n_sq n);
      let n' mc := mkNode (n_id n) (n_pm n) sq (n_rt n) mc (seqCounters n) in
      match m with
      | None => Ret ([], n' (n_mc n))
      | Some msg =>
          match Get (To msg) (n_pm n) with
          | None => send_pending fuel tr (n' (n_mc n))
          | Some peer =>
              if tr (Addr peer) msg
              then '(out, n) ← send_pending fuel tr (n' (RecordSend msg (wireBytes msg) <$> n_mc n));
                   Ret ((Addr peer, msg) :: out, n)
              else send_pending fuel tr (n' (RecordSendError <$> n_mc n))
          end
      end
  end.

(** * Lifecycle *)
Module Lifecycle.
(** [stop_closed]: [stopCh] is closed; [once_done]: [Stop] ran;
    [loops]: the receive and send loops are running. *)
Record state := mkState { stop_closed : bool; once_done : bool; loops : bool }.

Definition New : state := mkState false false false.

(** [close(n.stopCh)]; the loops then return. *)
Definition close_stopCh (s : state) : outcome state :=
  if stop_closed s then Panic CloseOfClosedChannel
  else Ret (mkState true (once_done s) false).

Inductive start_error : Set := TransportStart | AlgorithmStart.

(** [tr_ok], [algo_ok]: whether the transport and the algorithm start. *)
Definition Start (tr_ok algo_ok : bool) (s : state) : outcome (option start_error * state) :=
  if negb tr_ok then Ret (Some TransportStart, s)
  else
    let s := mkState (stop_closed s) (once_done s) (negb (stop_closed s)) in
    if negb algo_ok then s ← close_stopCh s; Ret (Some AlgorithmStart, s)
    else Ret (None, s).

Definition Stop (s : state) : outcome state :=
  if once_done s then Ret s
  else close_stopCh (mkState (stop_closed s) true (loops s)).
End Lifecycle.

(** * Calls of the algorithm on the node *)

Inductive api_call : Type :=
  | CallSend (now peerID : Z) (msg : WireMessage)
  | CallBroadcast (now : Z) (order : list Z) (msg : WireMessage).

(** The messages a call queues *)
Definition run_call (c : api_call) (n : Node) : outcome (list WireMessage * Node) :=
  match c with
  | CallSend now peerID msg =>
      '(r, n) ← Send now peerID msg n;
      Ret (match r with Ok m => [m] | Err _ => [] end, n)
  | CallBroadcast now order msg => Broadcast now order msg n
  end.

Fixpoint run_calls (cs : list api_call) (n : Node) : outcome (list WireMessage * Node) :=
  match cs with
  | [] => Ret ([], n)
  | c :: cs =>
      '(ms, n) ← run_call c n;
      '(ms', n) ← run_calls cs n;
      Ret (ms ++ ms', n)
  end.

(** Upper bound on the messages queued by a list of calls *)
Definition call_size (c : api_call) : Z :=
  match c with CallSend _ _ _ => 1 | CallBroadcast _ order _ => zlen order end.
Definition calls_size (cs : list api_call) : Z := foldr (fun c k => call_size c + k) 0 cs.

Definition call_wf (c : api_call) : Prop :=
  match c with
  | CallSend now peerID msg => is_int64 now /\ is_uint 16 peerID /\ msg_wf msg
  | CallBroadcast now order msg => is_int64 now /\ Forall (is_uint 16) order /\ msg_wf msg
  end.

#[export] Instance call_wf_dec c : Decision (call_wf c).
Proof. destruct c; unfold call_wf; apply _. Defined.

(** A node whose counters have issued at most [k] sequence numbers each *)
Record node_ok (k : Z) (n : Node) : Prop := {
  node_queue : queue_ok (n_sq n);
  node_id : is_uint 16 (n_id n);
  node_counter : sq_counter (n_sq n) <= 256 * k;
  node_streams : length (seqCounters n) = 256%nat;
  node_seqs : Forall (fun c => 0 <= c <= k) (seqCounters n)
}.

(** The messages [ms] carry sequence numbers that lie strictly between the
    counters of [n] and of [n']. *)
Definition issued (n n' : Node) (ms : list WireMessage) : Prop :=
  NoDup (msg_id <$> ms) /\
  Forall (fun m => msg_wf m /\ From m = n_id n /\
    exists c c', seqCounters n !! Z.to_nat (StreamID m) = Some c /\
                 seqCounters n' !! Z.to_nat (StreamID m) = Some c' /\ c < Seq m <= c') ms.

Definition counters_le (n n' : Node) : Prop :=
  n_id n' = n_id n /\ Forall2 Z.le (seqCounters n) (seqCounters n').

#[export] Instance counters_le_preorder : PreOrder counters_le.
Proof.
  split.
  - intros n. split; [done|]. reflexivity.
  - intros n1 n2 n3 [E1 H1] [E2 H2]. split; [congruence|]. by etrans.
Qed.

Lemma issued_app n1 n2 n3 ms1 ms2 :
  counters_le n1 n2 -> counters_le n2 n3 ->
  issued n1 n2 ms1 -> issued n2 n3 ms2 -> issued n1 n3 (ms1 ++ ms2).
Proof.
  intros [E12 H12] [E23 H23] [Hn1 Hf1] [Hn2 Hf2]. rewrite Forall_forall in Hf1, Hf2. split.
  - rewrite fmap_app. apply NoDup_app. split_and!; [done| |done].
    intros x (m & -> & Hm)%list_elem_of_fmap (m' & E & Hm')%list_elem_of_fmap.
    destruct (Hf1 _ Hm) as (_ & _ & c & c' & _ & Hc' & ?).
    destruct (Hf2 _ Hm') as (_ & _ & d & d' & Hd & _ & ?).
    unfold msg_id in E. injection E as E1 E2 E3. rewrite E2 in Hc'. simplify_eq. lia.
  - apply Forall_app. split; apply Forall_forall; intros m Hm.
    + destruct (Hf1 _ Hm) as (? & ? & c & c' & ? & Hc' & ?). split_and!; [done|done|].
      destruct (Forall2_lookup_l _ _ _ _ _ H23 Hc') as (c3 & ? & ?).
      exists c, c3. split_and!; [done|done|lia|lia].
    + destruct (Hf2 _ Hm) as (? & ? & c & c' & Hc & Hc' & ?). split_and!; [done|congruence|].
      destruct (Forall2_lookup_r _ _ _ _ _ H12 Hc) as (c0 & ? & ?).
      exists c0, c'. split_and!; [done|done|lia|lia].
Qed.

(** What [Send] to a known peer and one round of [Broadcast] do. *)
Definition issue (now peerID : Z) (msg : WireMessage) (n : Node) : outcome (WireMessage * Node) :=
  '(seq, n) ← nextSeq (StreamID msg) n;
  n' ← enqueue (stamp (n_id n) peerID seq now msg) n;
  Ret (stamp (n_id n) peerID seq now msg, n').

Lemma Send_issue now peerID msg n :
  Send now peerID msg n
  = match Get peerID (n_pm n) with
    | None => Ret (Err (UnknownPeer peerID), n)
    | Some _ => '(m, n) ← issue now peerID msg n; Ret (Ok m, n)
    end.
Proof.
  unfold Send, issue. destruct (Get _ _); [|done].
  destruct (nextSeq _ n) as [[seq n1]|]; [|done]. cbn.
  by destruct (enqueue _ n1).
Qed.

Lemma Broadcast_issue now peerID order msg n :
  Broadcast now (peerID :: order) msg n
  = ('(m, n) ← issue now peerID msg n;
     '(ms, n) ← Broadcast now order msg n; Ret (m :: ms, n)).
Proof.
  cbn [Broadcast]. unfold issue. destruct (nextSeq _ n) as [[seq n1]|]; [|done]. cbn.
  by destruct (enqueue _ n1).
Qed.

Lemma stamp_wf {P} from to seq now (m : Message P) :
  msg_wf m -> is_uint 16 from -> is_uint 16 to -> is_uint 32 seq -> is_int64 now ->
  msg_wf (stamp from to seq now m).
Proof.
  intros (? & ? & ? & ? & ? & ? & ? & ? & ?) ? ? ? ?. unfold msg_wf, stamp. cbn.
  split_and!; try done. by case_decide.
Qed.

Lemma enqueue_ok k n m :
  node_ok k n -> k < 2 ^ 32 -> exists n', enqueue m n = Ret n' /\ queue_ok (n_sq n') /\
    sq_counter (n_sq n') = sq_counter (n_sq n) + 1 /\ n_id n' = n_id n /\
    seqCounters n' = seqCounters n.
Proof.
  intros [Hq Hid Hc Hl Hs] Hk. unfold enqueue.
  destruct (Push_ok (n_sq n) m Hq) as (q' & d & E & Hq' & _ & Hc'); [lia|].
  rewrite E, bind_Ret. by eexists.
Qed.

Lemma node_ok_weaken k k' n : node_ok k n -> k <= k' -> node_ok k' n.
Proof.
  intros [Hq Hid Hc Hl Hs] Hk. split; try done; [lia|].
  eapply Forall_impl; [done|]. cbn. lia.
Qed.

Lemma issue_spec k now peerID msg n :
  node_ok k n -> k < 2 ^ 32 - 1 -> is_int64 now -> is_uint 16 peerID -> msg_wf msg ->
  exists m n', issue now peerID msg n = Ret (m, n') /\ node_ok (k + 1) n' /\
    issued n n' [m] /\ counters_le n n'.
Proof.
  intros Hok Hk Hnow Hpeer Hm. pose proof Hok as [Hq Hid Hc Hl Hs].
  assert (Hsid : is_uint 8 (StreamID msg)) by apply Hm. unfold is_uint in Hsid.
  destruct (index_in_range (StreamID msg) (seqCounters n)) as (c & E & Hlk); [zlia|].
  assert (Hcr : 0 <= c <= k) by (by eapply Forall_lookup_1 in Hs).
  unfold issue, nextSeq. rewrite E, !bind_Ret, wrap_small by (unfold is_uint; lia).
  set (n1 := mkNode _ _ _ _ _ _).
  assert (Hle : counters_le n n1).
  { split; [done|]. cbn. apply Forall2_same_length_lookup. split; [by rewrite length_insert|].
    intros i x y Hx Hy. rewrite list_lookup_insert in Hy. repeat case_decide; naive_solver lia. }
  assert (Hok1 : node_ok (k + 1) n1).
  { split; cbn; [done|done|lia|by rewrite length_insert|]. apply Forall_insert; [|lia].
    eapply Forall_impl; [done|]. cbn. lia. }
  destruct (enqueue_ok (k + 1) n1 (stamp (n_id n1) peerID (c + 1) now msg) Hok1)
    as (n2 & E2 & Hq2 & Hc2 & Hid2 & Hs2); [lia|].
  rewrite E2, bind_Ret. do 2 eexists. split; [reflexivity|].
  assert (Hle2 : counters_le n n2) by (split; [by rewrite Hid2|by rewrite Hs2; apply Hle]).
  split_and!; [|split|done].
  - destruct Hok1. split; [done|by rewrite Hid2|cbn in *; lia|by rewrite Hs2|by rewrite Hs2].
  - apply NoDup_singleton.
  - apply Forall_singleton. split_and!; [|done|].
    + apply stamp_wf; try done. unfold is_uint. lia.
    + exists c, (c + 1). cbn [stamp StreamID Seq]. rewrite Hs2. cbn.
      split_and!; [done| |lia|lia]. apply list_lookup_insert_eq. by eapply lookup_lt_Some.
Qed.

Lemma issued_nil n n' : issued n n' [].
Proof. split; constructor. Qed.

Lemma Broadcast_spec now order msg k n :
  node_ok k n -> k + zlen order < 2 ^ 32 -> is_int64 now -> Forall (is_uint 16) order ->
  msg_wf msg ->
  exists ms n', Broadcast now order msg n = Ret (ms, n') /\ node_ok (k + zlen order) n' /\
    issued n n' ms /\ counters_le n n'.
Proof.
  intros Hok Hk Hnow Ho Hm. revert k n Hok Hk. induction Ho as [|p order Hp _ IH]; intros k n Hok Hk.
  { do 2 eexists. split; [reflexivity|]. rewrite zlen_nil, Z.add_0_r.
    split_and!; [done|apply issued_nil|done]. }
  rewrite zlen_cons in Hk. pose proof (zlen_nonneg order).
  destruct (issue_spec k now p msg n Hok) as (m & n1 & E1 & Hok1 & Hi1 & Hle1); [lia|done..|].
  destruct (IH (k + 1) n1 Hok1) as (ms & n2 & E2 & Hok2 & Hi2 & Hle2); [lia|].
  rewrite Broadcast_issue, E1, bind_Ret, E2, bind_Ret. do 2 eexists. split; [reflexivity|].
  split_and!; [eapply node_ok_weaken; [done|zlia]|by eapply (issued_app n n1 n2 [m])|by etrans].
Qed.

Lemma run_call_spec c k n :
  node_ok k n -> k + call_size c < 2 ^ 32 -> call_wf c ->
  exists ms n', run_call c n = Ret (ms, n') /\ node_ok (k + call_size c) n' /\
    issued n n' ms /\ counters_le n n'.
Proof.
  destruct c as [now p msg|now order msg]; cbn [call_size run_call]; intros Hok Hk (H1 & H2 & H3).
  - rewrite Send_issue. destruct (Get p (n_pm n)).
    + destruct (issue_spec k now p msg n Hok) as (m & n1 & E1 & ? & ? & ?); [lia|done..|].
      rewrite E1, !bind_Ret. by do 2 eexists.
    + rewrite bind_Ret. do 2 eexists. split; [reflexivity|].
      split_and!; [eapply node_ok_weaken; [done|lia]|apply issued_nil|done].
  - by apply Broadcast_spec.
Qed.

Lemma call_size_nonneg c : 0 <= call_size c.
Proof. destruct c; cbn; auto with uav; lia. Qed.

Lemma calls_size_nonneg cs : 0 <= calls_size cs.
Proof.
  induction cs as [|c cs IH]; [done|].
  change (calls_size (c :: cs)) with (call_size c + calls_size cs).
  pose proof (call_size_nonneg c). lia.
Qed.

(** Any sequence of calls succeeds and issues fresh identifiers. *)
Lemma run_calls_spec cs k n :
  node_ok k n -> k + calls_size cs < 2 ^ 32 -> Forall call_wf cs ->
  exists ms n', run_calls cs n = Ret (ms, n') /\ issued n n' ms /\ counters_le n n'.
Proof.
  revert k n; induction cs as [|c cs IH]; intros k n Hok Hk Hf.
  { do 2 eexists. split; [reflexivity|]. split; [apply issued_nil|done]. }
  inversion Hf as [|? ? Hc Hcs]; subst. cbn [run_calls].
  change (calls_size (c :: cs)) with (call_size c + calls_size cs) in Hk.
  pose proof (calls_size_nonneg cs).
  destruct (run_call_spec c k n Hok) as (ms1 & n1 & E1 & Hok1 & Hi1 & Hle1); [lia|done|].
  destruct (IH _ n1 Hok1) as (ms2 & n2 & E2 & Hi2 & Hle2); [lia|done|].
  rewrite E1, bind_Ret, E2, bind_Ret. do 2 eexists. split; [reflexivity|].
  split; [by eapply issued_app|by etrans].
Qed.

Lemma NewNode_ok id size mc :
  is_uint 16 id -> 0 < size -> exists n, NewNode id size mc = Ret n /\ node_ok 0 n /\ n_id n = id.
Proof.
  intros Hid Hsz. unfold NewNode. destruct (NewSendQueue_ok size Hsz) as (q & E & Hq & _).
  rewrite E, bind_Ret. eexists. split; [reflexivity|]. split; [|done]. split; try done.
  - cbn. unfold NewSendQueue in E. rewrite decide_False in E by lia. simplify_eq. cbn. lia.
  - apply Forall_replicate. lia.
Qed.

(** * Receiving *)

(** Without metrics bookkeeping, [recv_all] is [dispatch_all]. *)
Lemma recv_all_dispatch arrivals n ms rt :
  dispatch_all arrivals (n_rt n) = Ret (ms, rt) ->
  exists n', recv_all arrivals n = Ret (ms, n') /\ n_rt n' = rt /\ n_id n' = n_id n.
Proof.
  revert n ms rt; induction arrivals as [|[now msg] arrivals IH]; intros n ms rt; cbn.
  { intros [= <- <-]. by exists n. }
  unfold recv_msg. destruct (Dispatch now msg (n_rt n)) as [[v r1]|]; [|done]. cbn.
  destruct (dispatch_all arrivals r1) as [[ms' r2]|] eqn:E; [|done]. cbn. intros [= <- <-].
  set (n1 := mkNode _ _ _ _ _ _).
  destruct (IH n1 ms' r2 E) as (n' & E' & Hr & Hid). rewrite E'. cbn.
  exists n'. split_and!; [|done|done]. by case_decide.
Qed.

(** * Sending *)

(** What [sendLoop] does with one popped entry *)
Definition transmission (tr : string -> WireMessage -> bool) (pm : PeerManager) (e : entry)
    : option (string * WireMessage) :=
  p ← Get (To e.1) pm;
  if tr (Addr p) e.1 then Some (Addr p, e.1) else None.

Lemma send_pending_service_order tr fuel n s :
  queue_ok (n_sq n) -> abstracts (n_sq n) s -> (length s < fuel)%nat ->
  exists n', send_pending fuel tr n = Ret (omap (transmission tr (n_pm n)) s, n') /\
    sq_h (n_sq n') = [] /\ n_pm n' = n_pm n.
Proof.
  revert n s; induction fuel as [|fuel IH]; intros n s Hok Ha Hf; [lia|].
  pose proof (Pop_refines _ _ Hok Ha) as Hpop. cbn [send_pending]. destruct s as [|e s].
  { rewrite Hpop, bind_Ret. eexists. split; [reflexivity|]. split; [|done]. cbn.
    destruct Ha as [Hp _]. by apply Permutation_nil_r, keys_nil_inv in Hp. }
  destruct Hpop as (q1 & E & Ha1 & Hok1 & _). rewrite E, bind_Ret. cbn [omap list_omap].
  assert (Hnext : forall mc, exists n',
    send_pending fuel tr (mkNode (n_id n) (n_pm n) q1 (n_rt n) mc (seqCounters n))
    = Ret (omap (transmission tr (n_pm n)) s, n') /\ sq_h (n_sq n') = [] /\ n_pm n' = n_pm n).
  { intros mc. apply (IH (mkNode _ _ _ _ _ _) s); [done|done|]. cbn in Hf. lia. }
  unfold transmission at 1. destruct (Get (To e.1) (n_pm n)) as [p|]; cbn; [|apply Hnext].
  destruct (tr (Addr p) e.1); [|apply Hnext].
  destruct (Hnext (RecordSend e.1 (wireBytes e.1) <$> n_mc n)) as (n' & E' & ? & ?).
  rewrite E'. cbn. by exists n'.
Qed.

(** * What an operation leaves alone *)

Definition queued (n : Node) (m : WireMessage) : Prop := exists c, (m, c) ∈ keys (sq_h (n_sq n)).

(** Identity, peers and router stay, and what is queued was queued before or is
    one of [ms]. *)
Definition frame (n n' : Node) (ms : list WireMessage) : Prop :=
  n_id n' = n_id n /\ n_pm n' = n_pm n /\ n_rt n' = n_rt n /\
  forall m, queued n' m -> queued n m \/ m ∈ ms.

Lemma frame_refl n ms : frame n n ms.
Proof. split_and!; auto. Qed.

Lemma frame_app n1 n2 n3 ms1 ms2 : frame n1 n2 ms1 -> frame n2 n3 ms2 -> frame n1 n3 (ms1 ++ ms2).
Proof.
  intros (E1 & E2 & E3 & H1) (F1 & F2 & F3 & H2). split_and!; try congruence.
  intros m [[Hm|Hm]%H1|Hm]%H2; rewrite elem_of_app; auto.
Qed.

Lemma issue_peers now p msg n m n' : issue now p msg n = Ret (m, n') -> n_pm n' = n_pm n.
Proof.
  unfold issue, nextSeq, enqueue. destruct (index _ _) as [c|]; [|done]. cbn.
  destruct (Push _ _) as [[q d]|]; [|done]. cbn. by intros [= _ <-].
Qed.

Lemma issue_frame k now p msg n m n' :
  node_ok k n -> k < 2 ^ 32 -> issue now p msg n = Ret (m, n') -> frame n n' [m].
Proof.
  intros Hok Hk. pose proof Hok as [Hq _ Hc _ _]. unfold issue, nextSeq, enqueue.
  destruct (index _ _) as [c|]; [|done]. cbn. destruct (Push _ _) as [[q d]|] eqn:E; [|done]. cbn.
  intros [= <- <-]. split_and!; try done. intros m' [c' Hm']. cbn in Hm'.
  destruct (Push_queued _ _ _ _ Hq ltac:(cbn; lia) E _ Hm') as [Em|Hold]; [cbn in Em; subst m'|].
  - right. by left.
  - left. by exists c'.
Qed.

(** Any part of the service of the queue sends only what was queued. *)
Lemma send_pending_frame tr fuel k n :
  node_ok k n -> exists out n', send_pending fuel tr n = Ret (out, n') /\ node_ok k n' /\
    frame n n' [] /\ seqCounters n' = seqCounters n /\ (forall x, x ∈ out -> queued n x.2).
Proof.
  revert n. induction fuel as [|fuel IH]; intros n Hok; cbn [send_pending].
  { exists [], n. split_and!; try done; [apply frame_refl|]. by intros x Hx%elem_of_nil. }
  pose proof Hok as [Hq Hid Hc Hl Hs].
  destruct (Pop_queued (n_sq n) Hq) as (m & q' & E & Hq' & Hc' & Hsub & Hm). rewrite E, bind_Ret.
  assert (H1 : forall mc, let n1 := mkNode (n_id n) (n_pm n) q' (n_rt n) mc (seqCounters n) in
    node_ok k n1 /\ frame n n1 [] /\ forall x, queued n1 x -> queued n x).
  { intros mc n1. split; [split; try done; cbn; lia|]. split; [split_and!; try done|].
    - intros x [c Hx]. left. exists c. by apply Hsub.
    - intros x [c Hx]. exists c. by apply Hsub. }
  destruct m as [msg|]; [|destruct (H1 (n_mc n)) as (? & ? & _); do 2 eexists;
    split; [reflexivity|]; split_and!; try done; by intros x Hx%elem_of_nil].
  assert (Hrec : forall mc, exists out n',
    send_pending fuel tr (mkNode (n_id n) (n_pm n) q' (n_rt n) mc (seqCounters n)) = Ret (out, n') /\
    node_ok k n' /\ frame n n' [] /\ seqCounters n' = seqCounters n /\
    (forall x, x ∈ out -> queued n x.2)).
  { intros mc. destruct (H1 mc) as (Hok1 & Hf1 & Hs1).
    destruct (IH _ Hok1) as (out & n' & E' & Hok' & Hf' & Hsc & Ho). exists out, n'.
    split_and!; try done; [exact (frame_app _ _ _ [] [] Hf1 Hf')|]. intros x Hx. by apply Hs1, Ho. }
  destruct (Get (To msg) (n_pm n)) as [p|]; [|apply Hrec].
  destruct (tr (Addr p) msg); [|apply Hrec].
  destruct (Hrec (RecordSend msg (wireBytes msg) <$> n_mc n)) as (out & n' & -> & Hok' & Hf & Hsc & Ho).
  cbn. do 2 eexists. split; [reflexivity|]. split_and!; try done.
  intros x [->|Hx]%elem_of_cons; [|by apply Ho]. destruct (Hm msg eq_refl) as [c Hin]. by exists c.
Qed.

(** * Drop accounting *)

Definition drops (c : Collector) : Z := counters c DedupDropped + counters c TtlExpiredDropped.

Lemma counters_RecordRecv {P} now (m : Message P) b c k :
  counters (RecordRecv now m b c) k
  = if decide (k = MsgRecv) then counters c MsgRecv +[64] 1
    else counters (RecordRecv now m b c) k.
Proof.
  case_decide as Hk; [|done]. subst k. unfold RecordRecv.
  repeat case_decide; rewrite ?counters_recordLatency, ?counters_Add;
    repeat case_decide; done.
Qed.

Lemma counters_RecordRecv_drops {P} now (m : Message P) b c k :
  k = DedupDropped \/ k = TtlExpiredDropped ->
  counters (RecordRecv now m b c) k = counters c k.
Proof.
  intros Hk. unfold RecordRecv.
  repeat case_decide; rewrite ?counters_recordLatency, ?counters_Add;
    repeat case_decide; try done; naive_solver.
Qed.

Lemma recv_msg_counts now msg n c d n' :
  n_mc n = Some c -> recv_msg now msg n = Ret (d, n') ->
  0 <= counters c MsgRecv < 2 ^ 64 - 1 ->
  0 <= counters c DedupDropped < 2 ^ 64 - 1 ->
  0 <= counters c TtlExpiredDropped < 2 ^ 64 - 1 ->
  exists c', n_mc n' = Some c' /\ counters c' MsgRecv = counters c MsgRecv + 1 /\
    counters c DedupDropped <= counters c' DedupDropped <= counters c DedupDropped + 1 /\
    counters c TtlExpiredDropped <= counters c' TtlExpiredDropped
      <= counters c TtlExpiredDropped + 1 /\
    drops c' = drops c + (match d with Some _ => 0 | None => 1 end).
Proof.
  intros Hmc E Hr Hd Ht. unfold recv_msg in E. rewrite Hmc in E. cbn in E.
  destruct (Dispatch now msg (n_rt n)) as [[v rt]|]; [|done]. cbn in E.
  assert (Hadd : forall z, 0 <= z < 2 ^ 64 - 1 -> z +[64] 1 = z + 1)
    by (intros; apply wrap_small; unfold is_uint; lia).
  set (c1 := RecordRecv now msg (wireBytes msg) c) in *.
  assert (R1 : counters c1 MsgRecv = counters c MsgRecv + 1).
  { unfold c1. rewrite counters_RecordRecv, decide_True by done. by apply Hadd. }
  assert (R2 : counters c1 DedupDropped = counters c DedupDropped)
    by (apply counters_RecordRecv_drops; auto).
  assert (R3 : counters c1 TtlExpiredDropped = counters c TtlExpiredDropped)
    by (apply counters_RecordRecv_drops; auto).
  clearbody c1. unfold drops, RecordTTLDrop, RecordDedupDrop in *.
  destruct v; injection E as <- <-; eexists; (split; [reflexivity|]);
    repeat rewrite counters_Add; cbn; repeat rewrite ?R1, ?R2, ?R3; rewrite ?Hadd by done;
    repeat case_decide; simplify_eq; lia.
Qed.

Lemma recv_all_counts arrivals n c ds n' :
  n_mc n = Some c -> recv_all arrivals n = Ret (ds, n') ->
  0 <= counters c MsgRecv -> counters c MsgRecv + zlen arrivals < 2 ^ 64 ->
  0 <= counters c DedupDropped -> counters c DedupDropped + zlen arrivals < 2 ^ 64 ->
  0 <= counters c TtlExpiredDropped -> counters c TtlExpiredDropped + zlen arrivals < 2 ^ 64 ->
  exists c', n_mc n' = Some c' /\ counters c' MsgRecv = counters c MsgRecv + zlen arrivals /\
    drops c' = drops c + (zlen arrivals - zlen ds).
Proof.
  revert n c ds; induction arrivals as [|[now msg] arrivals IH];
    intros n c ds Hmc E Hr0 Hr Hd0 Hd Ht0 Ht; cbn [recv_all] in E.
  { injection E as <- <-. exists c. split_and!; [done|zlia|zlia]. }
  rewrite zlen_cons in *. pose proof (zlen_nonneg arrivals).
  destruct (recv_msg now msg n) as [[d n1]|] eqn:E1; [|done]. rewrite bind_Ret in E.
  destruct (recv_all arrivals n1) as [[ds' n2]|] eqn:E2; [|done]. cbn in E.
  injection E as <- <-.
  destruct (recv_msg_counts now msg n c d n1 Hmc E1) as (c1 & Hmc1 & R1 & R2 & R3 & R4); [lia..|].
  destruct (IH n1 c1 ds' Hmc1 E2) as (c2 & Hmc2 & S1 & S2); [lia..|].
  exists c2. split_and!; [done|lia|]. destruct d; rewrite ?zlen_cons; lia.
Qed.

(** * Lifecycle *)

Lemma Stop_idempotent s s' : Lifecycle.Stop s = Ret s' -> Lifecycle.Stop s' = Ret s'.
Proof.
  unfold Lifecycle.Stop, Lifecycle.close_stopCh. intros E.
  destruct (Lifecycle.once_done s) eqn:Eo; [injection E as <-; by rewrite Eo|].
  cbn in E. destruct (Lifecycle.stop_closed s); [done|]. by injection E as <-.
Qed.

(** * Properties *)

(** C9: at-most-once delivery end to end.  A sender makes any sequence of
    [Send] and [Broadcast] calls (fewer than 2^32 messages); the network loses,
    repeats and reorders the queued messages at will.  Neither side panics,
    and a receiver hands every sent message to its algorithm at most once and
    nothing that was not sent. *)
Theorem end_to_end_at_most_once idS sizeS idR sizeR mcS mcR calls :
  is_uint 16 idS -> 0 < sizeS -> is_uint 16 idR -> 0 < sizeR ->
  Forall call_wf calls -> calls_size calls < 2 ^ 32 ->
  exists sender receiver sent sender',
    NewNode idS sizeS mcS = Ret sender /\ NewNode idR sizeR mcR = Ret receiver /\
    run_calls calls sender = Ret (sent, sender') /\ NoDup sent /\
    forall arrivals, (forall a, a ∈ arrivals -> a.2 ∈ sent) ->
      exists delivered receiver', recv_all arrivals receiver = Ret (delivered, receiver') /\
        NoDup delivered /\ (forall m, m ∈ delivered -> m ∈ sent).
Proof.
  intros HidS HsS HidR HsR Hwf Hsz.
  destruct (NewNode_ok idS sizeS mcS HidS HsS) as (sender & ES & HokS & _).
  destruct (NewNode_ok idR sizeR mcR HidR HsR) as (receiver & ER & _ & _).
  destruct (run_calls_spec calls 0 sender HokS) as (sent & sender' & E & [Hn Hf] & _); [lia|done|].
  exists sender, receiver, sent, sender'. split_and!; [done..|by eapply NoDup_fmap_1|].
  intros arrivals Ha.
  assert (Hrt : n_rt receiver = NewRouter idR).
  { unfold NewNode in ER. destruct (NewSendQueue sizeR); [|done]. by injection ER as <-. }
  assert (Hwfa : Forall (fun a : Z * WireMessage => msg_wf a.2) arrivals).
  { apply Forall_forall. intros a Hin. apply Ha in Hin. rewrite Forall_forall in Hf. by apply Hf. }
  destruct (dispatch_all_spec arrivals _ _ (router_inv_new idR) Hwfa)
    as (ms & rt & hist & Ed & _ & Hnd & Hsub & _).
  destruct (recv_all_dispatch arrivals receiver ms rt) as (receiver' & Er & _); [by rewrite Hrt|].
  exists ms, receiver'. split_and!; [done|by eapply NoDup_fmap_1|].
  intros m Hm. apply (elem_of_sublist _ _ _ Hm) in Hsub as Hin0. clear Hm. rename Hin0 into Hm.
  apply list_elem_of_fmap in Hm as (a & -> & Hin). by apply Ha.
Qed.

(** [sendLoop] hands the queued messages to the transport in priority
    order, oldest first within a priority, skipping those whose peer is not
    registered, and leaves the queue empty. *)
Theorem sendLoop_service_order tr n s fuel :
  queue_ok (n_sq n) -> abstracts (n_sq n) s -> (length s < fuel)%nat ->
  exists n', send_pending fuel tr n = Ret (omap (transmission tr (n_pm n)) s, n') /\
    sq_h (n_sq n') = [].
Proof.
  intros Hok Ha Hf. destruct (send_pending_service_order tr fuel n s Hok Ha Hf)
    as (n' & E & Hh & _). eauto.
Qed.

(** What the drop rate of a node is computed from.  After receiving any
    list of messages on a fresh collector, MsgRecv counts all of them, the
    discarded ones included, and the dedup and TTL counters together count the
    discarded ones; so the total recv + dedup + ttl, used as the number of
    arrivals, counts every discarded message twice. *)
Theorem drop_counters_double_count id now0 arrivals n ds n' :
  n_mc n = Some (NewCollector id now0) -> recv_all arrivals n = Ret (ds, n') ->
  zlen arrivals < 2 ^ 64 ->
  exists c, n_mc n' = Some c /\ counters c MsgRecv = zlen arrivals /\
    drops c = zlen arrivals - zlen ds /\
    counters c MsgRecv + drops c = zlen arrivals + (zlen arrivals - zlen ds).
Proof.
  intros Hmc E Hl. destruct (recv_all_counts arrivals n _ ds n' Hmc E) as (c & Hc & R & D);
    [cbn; lia..|].
  exists c. unfold drops in D at 2. cbn in R, D. split_and!; [done|lia|lia|lia].
Qed.

(** When the algorithm fails to start, [Start] has already closed
    [stopCh], so the regular [Stop] afterwards panics; after a successful
    [Start], [Stop] ends the loops, and repeating it changes nothing. *)
Theorem stop_after_failed_start_panics :
  (exists s, Lifecycle.Start true false Lifecycle.New = Ret (Some Lifecycle.AlgorithmStart, s) /\
     Lifecycle.Stop s = Panic CloseOfClosedChannel) /\
  (exists s s', Lifecycle.Start true true Lifecycle.New = Ret (None, s) /\
     Lifecycle.loops s = true /\ Lifecycle.Stop s = Ret s' /\ Lifecycle.loops s' = false /\
     Lifecycle.Stop s' = Ret s').
Proof.
  split; [by eexists|]. do 2 eexists. split_and!; [reflexivity|reflexivity|reflexivity|reflexivity|].
  reflexivity.
Qed.

(** ** Witnesses *)

Definition hello : WireMessage := mkMessage TypeHeartbeat 0 0 0 0 0 0 TTLForever PriorityState [].

Definition sample_calls : list api_call :=
  [CallSend 10 2 hello; CallBroadcast 20 [2; 3] hello].

Lemma end_to_end_at_most_once_witness :
  exists sender receiver sent sender',
    NewNode 1 512 None = Ret sender /\ NewNode 2 512 None = Ret receiver /\
    run_calls sample_calls sender = Ret (sent, sender') /\ NoDup sent /\
    forall arrivals, (forall a, a ∈ arrivals -> a.2 ∈ sent) ->
      exists delivered receiver', recv_all arrivals receiver = Ret (delivered, receiver') /\
        NoDup delivered /\ (forall m, m ∈ delivered -> m ∈ sent).
Proof.
  apply (end_to_end_at_most_once 1 512 2 512 None None sample_calls);
    try (unfold is_uint; lia); [|vm_compute; reflexivity].
  apply (bool_decide_unpack _). vm_compute. exact I.
Defined.

Definition loaded_node : Node :=
  mkNode 1 {[2 := mkPeer 2 "host:1"]} full_queue (NewRouter 1) None (replicate 256 0).

Lemma sendLoop_service_order_witness :
  exists n', send_pending 3 (fun _ _ => true) loaded_node
    = Ret ([("host:1", prio_message PriorityCollision); ("host:1", prio_message PriorityCollision)], n')
    /\ sq_h (n_sq n') = [].
Proof.
  apply (sendLoop_service_order (fun _ _ => true) loaded_node full_entries 3);
    [apply full_queue_ok|apply full_queue_ok|cbn; lia].
Defined.

Definition metered_node : Node :=
  mkNode 1 ∅ (mkQueue [] false 0 8) (NewRouter 1) (Some (NewCollector 1 0)) (replicate 256 0).

Definition replayed : list (Z * WireMessage) := [(5, hello); (6, hello)].

(** Two arrivals of which one is dropped: the code counts three. *)
Lemma drop_counters_double_count_witness :
  exists ds n' c, recv_all replayed metered_node = Ret (ds, n') /\ n_mc n' = Some c /\
    counters c MsgRecv = 2 /\ drops c = 1 /\ counters c MsgRecv + drops c = 3.
Proof.
  destruct (recv_all replayed metered_node) as [[ds n']|] eqn:E;
    [|vm_compute in E; discriminate E].
  destruct (drop_counters_double_count 1 0 replayed metered_node ds n' eq_refl E ltac:(vm_compute; reflexivity))
    as (c & Hc & R & D & T).
  assert (Hds : zlen ds = 1).
  { transitivity (zlen (match recv_all replayed metered_node with Ret (l, _) => l | Panic _ => [] end));
      [by rewrite E|vm_compute; reflexivity]. }
  exists ds, n', c. rewrite Hds in *. split_and!; [done|done|exact R|exact D|exact T].
Defined.
