(* ===== verification/Timer.v ===== *)
(** Timer: the timer manager ([src/node/runtime/timer.go]).

    The manager's map and the goroutines that [Set] spawns are one state;
    the operations are functions on it, and a goroutine's moves are steps that
    may happen between any two of them.  A callback runs without the manager's
    lock, so it may itself call the operations. *)
From S2P Require Export Prelude.

(** * Definitions *)

(** Where a timer's goroutine is: in its [select]; holding a tick for which it
    has not yet called back; returned. *)
Inductive place : Set := Selecting | Ticked | Returned.

#[export] Instance place_eq_dec : EqDecision place.
Proof. solve_decision. Defined.

(** The [timerEntry] with its goroutine: the name the goroutine calls back with,
    whether [stopCh] is closed, whether the ticker runs.  A ticker that is stopped
    delivers nothing any more (Go 1.23 and later). *)
Record timerEntry := mkEntry {
  te_name : string;
  te_stopped : bool;
  te_ticking : bool;
  te_place : place;
}.

(** [entries] holds every entry ever made; the map refers to them by position. *)
Record TimerManager := mkTM { timers : gmap string nat; entries : list timerEntry }.

Definition NewTimerManager : TimerManager := mkTM ∅ [].

Definition set_entry (id : nat) (e : timerEntry) (tm : TimerManager) : TimerManager :=
  mkTM (timers tm) (<[id := e]> (entries tm)).

(** [close(e.stopCh); e.ticker.Stop()] through the pointer of the map *)
Definition stop_entry (id : nat) (tm : TimerManager) : outcome TimerManager :=
  e ← index (Z.of_nat id) (entries tm);
  if te_stopped e then Panic CloseOfClosedChannel
  else Ret (set_entry id (mkEntry (te_name e) true false (te_place e)) tm).

(** [Set]; [time.NewTicker] panics when the interval is not positive. *)
Definition SetTimer (name : string) (d : Z) (tm : TimerManager) : outcome TimerManager :=
  tm ← match timers tm !! name with Some id => stop_entry id tm | None => Ret tm end;
  if d <=? 0 then Panic InvalidArgument
  else Ret (mkTM (<[name := length (entries tm)]> (timers tm))
              (entries tm ++ [mkEntry name false true Selecting])).

Definition Cancel (name : string) (tm : TimerManager) : outcome TimerManager :=
  match timers tm !! name with
  | Some id =>
      tm ← stop_entry id tm;
      Ret (mkTM (delete name (timers tm)) (entries tm))
  | None => Ret tm
  end.

(** [for name, e := range tm.timers], in the order [order] of the iteration. *)
Fixpoint StopAll (order : list (string * nat)) (tm : TimerManager) : outcome TimerManager :=
  match order with
  | [] => Ret tm
  | (name, id) :: order =>
      tm ← stop_entry id tm;
      StopAll order (mkTM (delete name (timers tm)) (entries tm))
  end.

(** The moves of the entries' goroutines and of the manager's users; a label
    says what a user of the manager does or sees. *)
Inductive label : Type := LSet (name : string) | LCallback (name : string) | LOther.

Definition at_place (p : place) (e : timerEntry) : timerEntry :=
  mkEntry (te_name e) (te_stopped e) (te_ticking e) p.

Inductive step (tm : TimerManager) : label -> TimerManager -> Prop :=
  | step_set name d tm' : SetTimer name d tm = Ret tm' -> step tm (LSet name) tm'
  | step_cancel name tm' : Cancel name tm = Ret tm' -> step tm LOther tm'
  | step_stop_all order tm' :
      order ≡ₚ map_to_list (timers tm) -> StopAll order tm = Ret tm' -> step tm LOther tm'
  | step_tick id e :
      entries tm !! id = Some e -> te_place e = Selecting -> te_ticking e = true ->
      step tm LOther (set_entry id (at_place Ticked e) tm)
  | step_callback id e :
      entries tm !! id = Some e -> te_place e = Ticked ->
      step tm (LCallback (te_name e)) (set_entry id (at_place Selecting e) tm)
  | step_return id e :
      entries tm !! id = Some e -> te_place e = Selecting -> te_stopped e = true ->
      step tm LOther (set_entry id (at_place Returned e) tm).

Inductive run (tm : TimerManager) : list label -> TimerManager -> Prop :=
  | run_nil : run tm [] tm
  | run_cons l tm1 ls tm2 : step tm l tm1 -> run tm1 ls tm2 -> run tm (l :: ls) tm2.

(** Goroutines of the timer [name] that hold a tick. *)
Definition ticked (name : string) (tm : TimerManager) : nat :=
  length (filter (fun e => te_name e = name /\ te_place e = Ticked) (entries tm)).

#[export] Instance is_callback_dec name (l : label) :
  Decision (match l with LCallback n => n = name | _ => False end).
Proof. destruct l; apply _. Defined.

(** The calls back of the timer [name] in a run. *)
Definition callbacks (name : string) (ls : list label) : nat :=
  length (filter (fun l => match l with LCallback n => n = name | _ => False end) ls).

(** * Lemmas *)

Lemma length_filter_insert {A} (P : A -> Prop) `{forall x, Decision (P x)} (xs : list A) i x y :
  xs !! i = Some x ->
  (length (filter P (<[i := y]> xs)) + (if decide (P x) then 1 else 0) =
   length (filter P xs) + (if decide (P y) then 1 else 0))%nat.
Proof.
  revert i. induction xs as [|z xs IH]; intros [|i] Hi; try done.
  - injection Hi as ->. change (<[0%nat := y]> (x :: xs)) with (y :: xs).
    rewrite !filter_cons. repeat case_decide; cbn; lia.
  - specialize (IH i Hi). change (<[S i := y]> (z :: xs)) with (z :: <[i := y]> xs).
    rewrite !filter_cons. destruct (decide (P z)); cbn [length]; lia.
Qed.

Lemma length_filter_insert_same {A} (P : A -> Prop) `{forall x, Decision (P x)} (xs : list A) i x y :
  xs !! i = Some x -> P x <-> P y -> length (filter P (<[i := y]> xs)) = length (filter P xs).
Proof.
  intros Hi Hxy. pose proof (length_filter_insert P xs i x y Hi) as Hl.
  destruct (decide (P x)), (decide (P y)); tauto || lia.
Qed.

(** The map holds exactly the entries whose channel is open; those tick. *)
Record tm_ok (tm : TimerManager) : Prop := {
  ok_open : forall name id, timers tm !! name = Some id ->
    exists e, entries tm !! id = Some e /\ te_name e = name /\ te_stopped e = false;
  ok_known : forall id e, entries tm !! id = Some e -> te_stopped e = false ->
    timers tm !! te_name e = Some id;
  ok_ticking : forall id e, entries tm !! id = Some e -> te_ticking e = negb (te_stopped e);
}.

Lemma tm_ok_new : tm_ok NewTimerManager.
Proof. by split. Qed.

(** A goroutine moves: the entry keeps everything but its place. *)
Lemma tm_ok_place id e p tm :
  tm_ok tm -> entries tm !! id = Some e -> tm_ok (set_entry id (at_place p e) tm).
Proof.
  intros [Ho Hk Ht] He. pose proof (lookup_lt_Some _ _ _ He) as Hl. split; cbn.
  - intros name id' Hn. destruct (Ho name id' Hn) as (e' & He' & ?).
    destruct (decide (id = id')) as [<-|].
    + rewrite list_lookup_insert_eq by done. exists (at_place p e). simplify_eq. done.
    + rewrite list_lookup_insert_ne by done. eauto.
  - intros id' e' He' Hs. destruct (decide (id = id')) as [<-|].
    + rewrite list_lookup_insert_eq in He' by done. injection He' as <-. exact (Hk id e He Hs).
    + rewrite list_lookup_insert_ne in He' by done. by apply Hk.
  - intros id' e' He'. destruct (decide (id = id')) as [<-|].
    + rewrite list_lookup_insert_eq in He' by done. injection He' as <-. exact (Ht id e He).
    + rewrite list_lookup_insert_ne in He' by done. by apply (Ht id').
Qed.

(** Stopping a timer of the map and taking its name off the map. *)
Definition without (name : string) (id : nat) (e : timerEntry) (tm : TimerManager) : TimerManager :=
  mkTM (delete name (timers tm)) (<[id := mkEntry name true false (te_place e)]> (entries tm)).

Lemma tm_ok_without name id e tm :
  tm_ok tm -> timers tm !! name = Some id -> entries tm !! id = Some e -> tm_ok (without name id e tm).
Proof.
  intros [Ho Hk Ht] Hn He. pose proof (lookup_lt_Some _ _ _ He) as Hl. split; cbn.
  - intros name' id' [Hne Hn']%lookup_delete_Some. destruct (Ho name' id' Hn') as (e' & He' & En & Es).
    destruct (decide (id = id')) as [<-|].
    + destruct (Ho name id Hn) as (e0 & He0 & En0 & _). congruence.
    + rewrite list_lookup_insert_ne by done. eauto.
  - intros id' e' He' Hs. destruct (decide (id = id')) as [<-|Hne].
    + rewrite list_lookup_insert_eq in He' by done. by injection He' as <-.
    + rewrite list_lookup_insert_ne in He' by done. pose proof (Hk id' e' He' Hs) as Hk'.
      apply lookup_delete_Some. split; [|done]. intros ->. congruence.
  - intros id' e' He'. destruct (decide (id = id')) as [<-|].
    + rewrite list_lookup_insert_eq in He' by done. by injection He' as <-.
    + rewrite list_lookup_insert_ne in He' by done. by apply (Ht id').
Qed.

Lemma stop_entry_known name id tm :
  tm_ok tm -> timers tm !! name = Some id ->
  exists e, entries tm !! id = Some e /\ te_name e = name /\
    stop_entry id tm = Ret (mkTM (timers tm) (entries (without name id e tm))).
Proof.
  intros Hok Hn. destruct (ok_open tm Hok name id Hn) as (e & He & En & Es).
  exists e. split; [done|]. split; [done|]. unfold stop_entry.
  rewrite (index_Some _ _ e) by first [lia|by rewrite Nat2Z.id]. cbn. rewrite Es. by subst name.
Qed.

Lemma ticked_without name name' id e tm :
  entries tm !! id = Some e -> te_name e = name' ->
  ticked name (without name' id e tm) = ticked name tm.
Proof.
  intros He <-. apply length_filter_insert_same with e; done.
Qed.

Lemma tm_ok_add name tm :
  tm_ok tm -> timers tm !! name = None ->
  tm_ok (mkTM (<[name := length (entries tm)]> (timers tm))
           (entries tm ++ [mkEntry name false true Selecting])).
Proof.
  intros [Ho Hk Ht] Hn. split; cbn.
  - intros name' id [[<- <-]|[_ Hid]]%lookup_insert_Some.
    + exists (mkEntry name false true Selecting). by rewrite list_lookup_middle.
    + destruct (Ho name' id Hid) as (e & He & ?). exists e. split; [|done].
      by apply lookup_app_l_Some.
  - intros id e [He|[? He]]%lookup_app_Some Hs.
    + pose proof (Hk id e He Hs) as Hk'. rewrite lookup_insert_ne; [done|]. intros ->. congruence.
    + apply list_lookup_singleton_Some in He as [? <-]. cbn.
      rewrite lookup_insert_eq. f_equal. lia.
  - intros id e [He|[? He]]%lookup_app_Some; [by apply (Ht id)|].
    by apply list_lookup_singleton_Some in He as [_ <-].
Qed.

Lemma ticked_add name name' tm ts :
  ticked name (mkTM ts (entries tm ++ [mkEntry name' false true Selecting])) = ticked name tm.
Proof.
  unfold ticked. cbn. rewrite filter_app, length_app, filter_cons, decide_False by (intros [_ [=]]).
  cbn. lia.
Qed.

Lemma Cancel_spec name tm :
  tm_ok tm -> exists tm', Cancel name tm = Ret tm' /\ tm_ok tm' /\
    timers tm' = delete name (timers tm) /\ forall n, ticked n tm' = ticked n tm.
Proof.
  intros Hok. unfold Cancel. destruct (timers tm !! name) as [id|] eqn:Hn.
  - destruct (stop_entry_known name id tm Hok Hn) as (e & He & En & ->). cbn.
    exists (without name id e tm). split; [done|]. split; [by apply tm_ok_without|].
    split; [done|]. intros n. by apply ticked_without.
  - exists tm. rewrite delete_id by done. done.
Qed.

Lemma SetTimer_spec name d tm :
  tm_ok tm -> 0 < d -> exists tm', SetTimer name d tm = Ret tm' /\ tm_ok tm' /\
    timers tm' = <[name := length (entries tm)]> (timers tm) /\
    forall n, ticked n tm' = ticked n tm.
Proof.
  intros Hok Hd. unfold SetTimer. destruct (timers tm !! name) as [id|] eqn:Hn.
  - destruct (stop_entry_known name id tm Hok Hn) as (e & He & En & ->). cbn.
    destruct (Z.leb_spec d 0); [lia|]. eexists. split; [done|].
    pose proof (tm_ok_add name _ (tm_ok_without name id e tm Hok Hn He)
      ltac:(cbn; by rewrite lookup_delete_eq)) as Ha.
    cbn in Ha. rewrite length_insert, insert_delete_eq in Ha. rewrite length_insert.
    split; [exact Ha|]. split; [done|]. intros n.
    rewrite <- (ticked_without n name id e tm He En).
    exact (ticked_add n name (without name id e tm) _).
  - cbn. destruct (Z.leb_spec d 0); [lia|]. eexists. split; [done|].
    split; [by apply tm_ok_add|]. split; [done|]. intros n. apply ticked_add.
Qed.

Lemma StopAll_spec order tm :
  tm_ok tm -> order ≡ₚ map_to_list (timers tm) ->
  exists tm', StopAll order tm = Ret tm' /\ tm_ok tm' /\ timers tm' = ∅ /\
    forall n, ticked n tm' = ticked n tm.
Proof.
  revert tm. induction order as [|[name id] order IH]; intros tm Hok Hp; cbn [StopAll].
  - exists tm. apply Permutation_nil_l in Hp. symmetry in Hp.
    by apply map_to_list_empty_iff in Hp.
  - assert (Hn : timers tm !! name = Some id).
    { apply elem_of_map_to_list. rewrite <- Hp. left. }
    destruct (stop_entry_known name id tm Hok Hn) as (e & He & En & ->). cbn.
    destruct (IH (without name id e tm)) as (tm' & E & Hok' & Hts & Htk).
    + by apply tm_ok_without.
    + apply (Permutation_cons_inv (a := (name, id))). rewrite Hp. cbn.
      by rewrite map_to_list_delete.
    + exists tm'. split; [exact E|]. split; [done|]. split; [done|]. intros n.
      rewrite Htk. by apply ticked_without.
Qed.

Lemma callbacks_one n name : callbacks n [LCallback name] = if decide (name = n) then 1%nat else 0%nat.
Proof. unfold callbacks. rewrite filter_cons. by repeat case_decide. Qed.

Lemma step_spec tm l tm' :
  tm_ok tm -> step tm l tm' -> tm_ok tm' /\
  forall n, timers tm !! n = None -> l <> LSet n ->
    timers tm' !! n = None /\ (callbacks n [l] + ticked n tm' = ticked n tm)%nat.
Proof.
  intros Hok Hs. destruct Hs as [name d tm' E|name tm' E|order tm' Hp E|id e He Hp Ht|id e He Hp|id e He Hp Hst].
  - destruct (Z.lt_ge_cases 0 d) as [Hd|Hd].
    + destruct (SetTimer_spec name d tm Hok Hd) as (tm1 & E1 & Hok1 & Hts & Htk).
      rewrite E in E1. injection E1 as <-. split; [done|]. intros n Hn Hne.
      rewrite Hts, lookup_insert_ne by congruence. by rewrite Htk.
    + unfold SetTimer in E. destruct (match _ with Some _ => _ | None => _ end); [|done].
      cbn in E. by destruct (Z.leb_spec d 0); [|lia].
  - destruct (Cancel_spec name tm Hok) as (tm1 & E1 & Hok1 & Hts & Htk).
    rewrite E in E1. injection E1 as <-. split; [done|]. intros n Hn _.
    rewrite Hts, Htk. by rewrite lookup_delete_None; auto.
  - destruct (StopAll_spec order tm Hok Hp) as (tm1 & E1 & Hok1 & Hts & Htk).
    rewrite E in E1. injection E1 as <-. split; [done|]. intros n Hn _. by rewrite Hts, Htk.
  - split; [by apply tm_ok_place|]. intros n Hn _. split; [done|]. cbn.
    assert (Hne : te_name e <> n).
    { intros <-. rewrite (ok_ticking _ Hok id e He) in Ht. apply negb_true_iff in Ht.
      by rewrite (ok_known _ Hok id e He Ht) in Hn. }
    apply length_filter_insert_same with e; [done|]. cbn. tauto.
  - split; [by apply tm_ok_place|]. intros n Hn _. split; [done|].
    rewrite callbacks_one.
    pose proof (length_filter_insert (fun e => te_name e = n /\ te_place e = Ticked) _ id e
      (at_place Selecting e) He) as Hl. unfold ticked. cbn [set_entry entries].
    revert Hl. repeat case_decide; naive_solver lia.
  - split; [by apply tm_ok_place|]. intros n Hn _. split; [done|].
    apply length_filter_insert_same with e; [done|]. cbn. rewrite Hp. naive_solver.
Qed.

Lemma run_ok tm ls tm' : tm_ok tm -> run tm ls tm' -> tm_ok tm'.
Proof. intros Hok. induction 1; [done|]. apply IHrun. by eapply step_spec. Qed.

Lemma callbacks_cons n l ls : callbacks n (l :: ls) = (callbacks n [l] + callbacks n ls)%nat.
Proof. unfold callbacks. by rewrite <- length_app, <- filter_app. Qed.

(** Without a timer of that name, only ticks already taken call back. *)
Lemma run_quiet n tm ls tm' :
  tm_ok tm -> timers tm !! n = None -> LSet n ∉ ls -> run tm ls tm' ->
  (callbacks n ls + ticked n tm' = ticked n tm)%nat.
Proof.
  intros Hok Hn Hls Hr. induction Hr as [|tm l tm1 ls tm2 Hs Hr IH]; [done|].
  apply not_elem_of_cons in Hls as [Hl Hls].
  destruct (step_spec tm l tm1 Hok Hs) as [Hok1 Hq]. destruct (Hq n Hn) as [Hn1 Hc]; [done|].
  specialize (IH Hok1 Hn1 Hls). rewrite callbacks_cons. lia.
Qed.

(** * Properties *)

(** C38: however the operations, the ticks and the callbacks interleave, a timer
    that ticks is the one the map holds under its name, so there is at most one
    per name; [Set] with a positive interval replaces it, [Cancel] removes it
    and [StopAll] removes all; and none of them closes a channel twice. *)
Theorem timer_one_per_name ls tm :
  run NewTimerManager ls tm ->
  (forall name id, timers tm !! name = Some id <->
     exists e, entries tm !! id = Some e /\ te_name e = name /\ te_ticking e = true) /\
  (forall name d, 0 < d -> exists tm', SetTimer name d tm = Ret tm' /\
     timers tm' = <[name := length (entries tm)]> (timers tm)) /\
  (forall name, exists tm', Cancel name tm = Ret tm' /\ timers tm' = delete name (timers tm)) /\
  (forall order, order ≡ₚ map_to_list (timers tm) ->
     exists tm', StopAll order tm = Ret tm' /\ timers tm' = ∅).
Proof.
  intros Hr. pose proof (run_ok _ _ _ tm_ok_new Hr) as Hok. split_and!.
  - intros name id. split.
    + intros Hn. destruct (ok_open tm Hok name id Hn) as (e & He & En & Es). exists e.
      by rewrite (ok_ticking tm Hok id e He), Es.
    + intros (e & He & <- & Ht). rewrite (ok_ticking tm Hok id e He) in Ht.
      apply (ok_known tm Hok id e He). by apply negb_true_iff.
  - intros name d Hd. destruct (SetTimer_spec name d tm Hok Hd) as (tm' & ? & _ & ? & _). by exists tm'.
  - intros name. destruct (Cancel_spec name tm Hok) as (tm' & ? & _ & ? & _). by exists tm'.
  - intros order Hp. destruct (StopAll_spec order tm Hok Hp) as (tm' & ? & _ & ? & _). by exists tm'.
Qed.

(** C39: after [Cancel] of a timer, or [StopAll], and until the timer is set
    again, it calls back exactly as often as its goroutines had already taken a
    tick they have since used: no new tick is taken. *)
Theorem timer_cancel_is_final name ls tm tm1 ls' tm2 :
  run NewTimerManager ls tm ->
  Cancel name tm = Ret tm1 \/
    (exists order, order ≡ₚ map_to_list (timers tm) /\ StopAll order tm = Ret tm1) ->
  run tm1 ls' tm2 -> LSet name ∉ ls' ->
  (callbacks name ls' + ticked name tm2 = ticked name tm)%nat.
Proof.
  intros Hr Hc Hr' Hls. pose proof (run_ok _ _ _ tm_ok_new Hr) as Hok.
  assert (H : tm_ok tm1 /\ timers tm1 !! name = None /\ ticked name tm1 = ticked name tm).
  { destruct Hc as [E|(order & Hp & E)].
    - destruct (Cancel_spec name tm Hok) as (tm' & E' & Hok' & Hts & Htk).
      rewrite E in E'. injection E' as <-. by rewrite Hts, lookup_delete_eq.
    - destruct (StopAll_spec order tm Hok Hp) as (tm' & E' & Hok' & Hts & Htk).
      rewrite E in E'. injection E' as <-. by rewrite Hts. }
  destruct H as (Hok1 & Hn1 & <-). by apply run_quiet.
Qed.

(** * Witnesses *)

(** One timer is set and its goroutine has taken a tick. *)
Definition one_timer : TimerManager := mkTM {["t" := 0%nat]} [mkEntry "t" false true Selecting].
Definition one_ticked : TimerManager := set_entry 0 (mkEntry "t" false true Ticked) one_timer.
Definition one_cancelled : TimerManager := mkTM ∅ [mkEntry "t" true false Ticked].

Lemma one_ticked_run : run NewTimerManager [LSet "t"; LOther] one_ticked.
Proof.
  apply run_cons with one_timer; [by apply (step_set _ "t" 5)|].
  apply run_cons with one_ticked; [|constructor]. by apply (step_tick one_timer 0 (mkEntry "t" false true Selecting)).
Qed.

Lemma timer_one_per_name_witness :
  exists tm', SetTimer "t" 7 one_ticked = Ret tm' /\ timers tm' = <["t" := 1%nat]> (timers one_ticked).
Proof.
  destruct (timer_one_per_name [LSet "t"; LOther] one_ticked one_ticked_run) as (_ & Hset & _).
  apply (Hset "t" 7). lia.
Defined.

Lemma timer_cancel_is_final_witness :
  ticked "t" one_ticked = 1%nat /\
  (callbacks "t" [LCallback "t"] + ticked "t" (set_entry 0 (mkEntry "t" true false Selecting) one_cancelled)
   = ticked "t" one_ticked)%nat.
Proof.
  split; [reflexivity|].
  apply (timer_cancel_is_final "t" [LSet "t"; LOther] one_ticked one_cancelled [LCallback "t"]).
  - apply one_ticked_run.
  - left. reflexivity.
  - eapply run_cons; [|constructor].
    exact (step_callback one_cancelled 0 (mkEntry "t" true false Ticked) eq_refl eq_refl).
  - intros Hin. apply list_elem_of_singleton in Hin. discriminate.
Defined.
