(* ===== verification/NodeAPI.v ===== *)
(** NodeAPI: the world an algorithm sees (node/algorithm/algorithm.go).

    An algorithm is a state type and handlers in the monad [prog]: a handler
    reads the environment of its invocation, updates the algorithm's state, may
    panic, and emits the calls it makes on the NodeAPI as a list of effects, in
    program order.  [wp] is the calculus the algorithms' proofs are written in. *)
From S2P Require Export Prelude Message.

(** * Environment of one invocation

    [env_Peers] is the order in which the map iteration of [Peers] lists the
    registered peers; [env_Now] is the clock in nanoseconds; [env_rand] is the
    stream of raw draws of the algorithm's generator (the position in it is
    part of the algorithm's state).  A handler that ranges over a map, which
    draws nothing, reads the order the runtime chooses from that stream. *)
Record Env := mkEnv {
  env_ID : Z;
  env_Peers : list Z;
  env_Now : Z;
  env_rand : nat -> Z;
}.

Definition iteration (e : Env) : nat -> nat := fun i => Z.to_nat (env_rand e i).

(** [Now().UnixMilli()] *)
Definition UnixMilli (e : Env) : Z := env_Now e `div` 1000000.

(** * Effects: the calls of NodeAPI, and the callback of a committed entry *)
Inductive effect : Type :=
  | ESend (peerID : Z) (msg : WireMessage)
  | ESetTimer (name : string) (d : Z)
  | ECancelTimer (name : string)
  | EApply (index : Z) (cmd : bytes).

(** A message as the node [v] puts it on the wire for [to]. *)
Definition address (v to : Z) (m : WireMessage) : WireMessage :=
  mkMessage (Type_ m) v to (Seq m) (Timestamp m) (DataTime m) (StreamID m) (TTL m) (Priority m)
    (Payload m).

Definition prog (St A : Type) : Type := Env -> St -> outcome (A * St * list effect).

#[export] Instance prog_ret {St} : MRet (prog St) := fun _ a _ s => Ret (a, s, []).
#[export] Instance prog_bind {St} : MBind (prog St) := fun _ _ k m e s =>
  match m e s with
  | Ret (a, s1, f1) =>
      match k a e s1 with
      | Ret (b, s2, f2) => Ret (b, s2, f1 ++ f2)
      | Panic p => Panic p
      end
  | Panic p => Panic p
  end.

Section operations.
Context {St : Type}.

Definition ask : prog St Env := fun e s => Ret (e, s, []).
Definition get : prog St St := fun _ s => Ret (s, s, []).
Definition modify (f : St -> St) : prog St unit := fun _ s => Ret (tt, f s, []).
Definition emit (x : effect) : prog St unit := fun _ s => Ret (tt, s, [x]).
Definition lift {A} (o : outcome A) : prog St A := fun _ s =>
  match o with Ret a => Ret (a, s, []) | Panic p => Panic p end.

(** NodeAPI.Send: an unknown peer is an error and nothing is queued. *)
Definition api_Send (peerID : Z) (msg : WireMessage) : prog St bool :=
  e ← ask;
  if decide (peerID ∈ env_Peers e) then emit (ESend peerID msg);; mret true
  else mret false.

(** NodeAPI.SetTimer: [time.NewTicker] panics when the interval is not positive. *)
Definition api_SetTimer (name : string) (d : Z) : prog St unit :=
  if d <=? 0 then lift (Panic InvalidArgument) else emit (ESetTimer name d).
Definition api_CancelTimer (name : string) : prog St unit := emit (ECancelTimer name).

(** [for _, p := range ps { f(p) }] *)
Fixpoint for_each {X} (f : X -> prog St unit) (ps : list X) : prog St unit :=
  match ps with
  | [] => mret tt
  | p :: ps' => f p;; for_each f ps'
  end.

End operations.

(** * Weakest preconditions

    [wp P m e s Q]: running [m] in [e] from [s] either returns with [Q], or
    panics and [P] holds; [P] is [False] for a total statement and [True] for
    a partial one. *)
Definition wp {St A} (P : Prop) (m : prog St A) (e : Env) (s : St)
    (Q : A -> St -> list effect -> Prop) : Prop :=
  match m e s with Ret (a, s', fx) => Q a s' fx | Panic _ => P end.

Section wp_rules.
Context {St : Type} (P : Prop).
Implicit Types (e : Env) (s : St).

Lemma wp_mono {A} (m : prog St A) e s (Q Q' : A -> St -> list effect -> Prop) :
  wp P m e s Q -> (forall a s' fx, Q a s' fx -> Q' a s' fx) -> wp P m e s Q'.
Proof. unfold wp. destruct (m e s) as [[[a s'] fx]|]; auto. Qed.

Lemma wp_ret {A} (a : A) e s (Q : A -> St -> list effect -> Prop) :
  Q a s [] -> wp P (mret a) e s Q.
Proof. done. Qed.

Lemma wp_bind {A B} (m : prog St A) (k : A -> prog St B) e s Q :
  wp P m e s (fun a s1 f1 => wp P (k a) e s1 (fun b s2 f2 => Q b s2 (f1 ++ f2))) ->
  wp P (m ≫= k) e s Q.
Proof.
  unfold wp. unfold mbind, prog_bind. destruct (m e s) as [[[a s1] f1]|]; [|done].
  destruct (k a e s1) as [[[b s2] f2]|]; done.
Qed.

Lemma wp_ask e s Q : Q e s [] -> wp P ask e s Q.
Proof. done. Qed.
Lemma wp_get e s (Q : St -> St -> list effect -> Prop) : Q s s [] -> wp P get e s Q.
Proof. done. Qed.
Lemma wp_modify f e s (Q : unit -> St -> list effect -> Prop) :
  Q tt (f s) [] -> wp P (modify f) e s Q.
Proof. done. Qed.
Lemma wp_emit x e s (Q : unit -> St -> list effect -> Prop) : Q tt s [x] -> wp P (emit x) e s Q.
Proof. done. Qed.
Lemma wp_lift {A} (o : outcome A) e s (Q : A -> St -> list effect -> Prop) :
  match o with Ret a => Q a s [] | Panic _ => P end -> wp P (lift o) e s Q.
Proof. unfold wp, lift. destruct o; done. Qed.

Lemma wp_SetTimer name d e s (Q : unit -> St -> list effect -> Prop) :
  (0 < d -> Q tt s [ESetTimer name d]) -> (d <= 0 -> P) -> wp P (api_SetTimer name d) e s Q.
Proof.
  intros HQ HP. unfold api_SetTimer. destruct (Z.leb_spec d 0).
  - apply wp_lift. auto.
  - apply wp_emit. auto.
Qed.

Definition sends_to (e : Env) (to : Z) (m : WireMessage) : list effect :=
  if decide (to ∈ env_Peers e) then [ESend to m] else [].

Lemma wp_Send to m e s Q :
  Q (bool_decide (to ∈ env_Peers e)) s (sends_to e to m) -> wp P (api_Send to m) e s Q.
Proof.
  unfold wp, api_Send, sends_to, mbind, prog_bind, ask.
  destruct (decide (to ∈ env_Peers e)) as [Hin|Hin]; cbn.
  - by rewrite bool_decide_true.
  - by rewrite bool_decide_false.
Qed.

(** A loop whose body keeps [I], indexed by what the loop has done. *)
Lemma wp_for_each_aux {X} (f : X -> prog St unit) (I : list X -> St -> list effect -> Prop) e :
  forall ps,
  (forall done s fx p, p ∈ ps -> I done s fx ->
     wp P (f p) e s (fun _ s' fx' => I (done ++ [p]) s' (fx ++ fx'))) ->
  forall s done fx, I done s fx ->
  wp P (for_each f ps) e s (fun _ s' fx' => I (done ++ ps) s' (fx ++ fx')).
Proof.
  intros ps. induction ps as [|p ps IH]; intros Hf s done fx HI; cbn [for_each].
  - apply wp_ret. by rewrite !app_nil_r.
  - apply wp_bind. eapply wp_mono; [by apply Hf; [left|]|]. intros [] s1 fx1 H1. cbn beta.
    eapply wp_mono; [apply (IH ltac:(intros; apply Hf; [by right|done]) _ (done ++ [p])), H1|].
    intros [] s2 fx2 H2. by rewrite <- (assoc_L app) in H2; rewrite (assoc_L app).
Qed.

Lemma wp_for_each_in {X} (f : X -> prog St unit) (I : list X -> St -> list effect -> Prop) e ps s :
  (forall done s fx p, p ∈ ps -> I done s fx ->
     wp P (f p) e s (fun _ s' fx' => I (done ++ [p]) s' (fx ++ fx'))) ->
  I [] s [] -> wp P (for_each f ps) e s (fun _ s' fx' => I ps s' fx').
Proof. intros Hf HI. exact (wp_for_each_aux f I e ps Hf s [] [] HI). Qed.

End wp_rules.

Lemma wp_elim {St A} P (m : prog St A) e s Q a s' fx :
  wp P m e s Q -> m e s = Ret (a, s', fx) -> Q a s' fx.
Proof. unfold wp. intros Hw E. by rewrite E in Hw. Qed.

Lemma wp_total {St A} (m : prog St A) e s Q :
  wp False m e s Q -> exists a s' fx, m e s = Ret (a, s', fx) /\ Q a s' fx.
Proof. unfold wp. destruct (m e s) as [[[a s'] fx]|]; [eauto|done]. Qed.

(** One symbolic step of a handler. *)
Ltac wp_step :=
  cbn beta;
  lazymatch goal with
  | |- wp _ (mbind _ _) _ _ _ => apply wp_bind
  | |- wp _ (mret _) _ _ _ => apply wp_ret
  | |- wp _ get _ _ _ => apply wp_get
  | |- wp _ ask _ _ _ => apply wp_ask
  | |- wp _ (modify _) _ _ _ => apply wp_modify
  | |- wp _ (emit _) _ _ _ => apply wp_emit
  | |- wp _ (api_CancelTimer _) _ _ _ => apply wp_emit
  | |- wp _ (api_Send _ _) _ _ _ => apply wp_Send
  | |- wp _ (lift (Ret _)) _ _ _ => apply wp_lift
  | |- wp _ (if ?b then _ else _) _ _ _ => let E := fresh "E" in destruct b eqn:E
  end.
Ltac wp_steps := repeat wp_step.
