(* ===== verification/Host.v ===== *)
(** Host: a node with the algorithm it runs ([src/node/runtime/node.go] over
    [src/node/algorithm/algorithm.go]).

    The interface [Algorithm] is a record of handlers; [LawfulAlgorithm] is what
    the node may rely on.  A handler's NodeAPI calls are its effects, which the
    host carries out on the node and its timer manager in the order they were
    made.  The properties are proved against the interface; the instances for
    the three algorithms are in their own files. *)
From S2P Require Import Prelude Message Heap SendQueue Router Collector Peer Node.
From S2P Require Timer.
From S2P Require Export NodeAPI.

(** * Definitions *)

(** The interface [Algorithm] *)
Record Algorithm (St : Type) := mkAlg {
  alg_Start : prog St unit;
  alg_Stop : prog St unit;
  alg_OnMessage : WireMessage -> prog St unit;
  alg_OnTick : string -> prog St unit;
}.
Arguments alg_Start {St} a.
Arguments alg_Stop {St} a.
Arguments alg_OnMessage {St} a _.
Arguments alg_OnTick {St} a _.

Record Host (St : Type) := mkHost {
  h_node : Node;
  h_tm : Timer.TimerManager;
  h_alg : St;
}.
Arguments mkHost {St} _ _ _.
Arguments h_node {St} h.
Arguments h_tm {St} h.
Arguments h_alg {St} h.

(** The node's side of one call: the message it queued, if it did. *)
Definition run_effect (now : Z) (x : effect) (n : Node) (tm : Timer.TimerManager)
    : outcome (list WireMessage * Node * Timer.TimerManager) :=
  match x with
  | ESend to m =>
      '(r, n) ← Send now to m n;
      Ret (match r with Ok m => [m] | Err _ => [] end, n, tm)
  | ESetTimer name d => tm ← Timer.SetTimer name d tm; Ret ([], n, tm)
  | ECancelTimer name => tm ← Timer.Cancel name tm; Ret ([], n, tm)
  | EApply _ _ => Ret ([], n, tm)
  end.

Fixpoint run_effects (now : Z) (fx : list effect) (n : Node) (tm : Timer.TimerManager)
    : outcome (list WireMessage * Node * Timer.TimerManager) :=
  match fx with
  | [] => Ret ([], n, tm)
  | x :: fx =>
      '(ms, n, tm) ← run_effect now x n tm;
      '(ms', n, tm) ← run_effects now fx n tm;
      Ret (ms ++ ms', n, tm)
  end.

Section host.
Context {St : Type} (alg : Algorithm St).

(** What the handler sees: [order] is the iteration order of the peer map. *)
Definition host_env (h : Host St) (now : Z) (order : list Z) (rand : nat -> Z) : Env :=
  mkEnv (n_id (h_node h)) order now rand.

Definition run_handler (f : prog St unit) (now : Z) (order : list Z) (rand : nat -> Z) (h : Host St)
    : outcome (list WireMessage * Host St) :=
  let e := host_env h now order rand in
  '(_, a, fx) ← f e (h_alg h);
  '(ms, n, tm) ← run_effects (UnixMilli e) fx (h_node h) (h_tm h);
  Ret (ms, mkHost n tm a).

(** An iteration of [recvLoop]: the router's callback is [OnMessage]. *)
Definition receive (now : Z) (order : list Z) (rand : nat -> Z) (msg : WireMessage) (h : Host St)
    : outcome (list WireMessage * Host St) :=
  '(d, n) ← recv_msg (now `div` 1000000) msg (h_node h);
  let h := mkHost n (h_tm h) (h_alg h) in
  match d with
  | None => Ret ([], h)
  | Some m => run_handler (alg_OnMessage alg m) now order rand h
  end.

(** The timer manager's callback *)
Definition tick (name : string) := run_handler (alg_OnTick alg name).

End host.

(** * What a node relies on *)

(** Sends only to peers, and well-formed messages; only positive intervals. *)
Definition call_ok (e : Env) (x : effect) : Prop :=
  match x with
  | ESend to m => to ∈ env_Peers e /\ msg_wf m
  | ESetTimer _ d => 0 < d
  | _ => True
  end.

(** [m] keeps the invariant [I] and makes only such calls. *)
Definition polite {St A} (I : St -> Prop) (m : prog St A) : Prop := forall e s,
  I s -> is_int64 (UnixMilli e) -> wp True m e s (fun _ s' fx => I s' /\ Forall (call_ok e) fx).

Class LawfulAlgorithm {St} (alg : Algorithm St) := {
  alg_inv : St -> Prop;
  law_Start : polite alg_inv (alg_Start alg);
  law_Stop : polite alg_inv (alg_Stop alg);
  law_OnMessage m : polite alg_inv (alg_OnMessage alg m);
  law_OnTick name : polite alg_inv (alg_OnTick alg name);
}.

Section polite.
Context {St : Type} (I : St -> Prop).

Lemma polite_ret {A} (a : A) : polite I (mret a).
Proof. intros e s Hs _. by apply wp_ret. Qed.

Lemma polite_bind {A B} (m : prog St A) (k : A -> prog St B) :
  polite I m -> (forall a, polite I (k a)) -> polite I (m ≫= k).
Proof.
  intros Hm Hk e s Hs He. apply wp_bind. eapply wp_mono; [by apply Hm|].
  intros a s1 f1 [Hs1 Hf1]. eapply wp_mono; [by apply Hk|]. cbn.
  intros b s2 f2 [Hs2 Hf2]. split; [done|]. by apply Forall_app.
Qed.

Lemma polite_ask {B} (k : Env -> prog St B) :
  (forall e, is_int64 (UnixMilli e) -> polite I (k e)) -> polite I (ask ≫= k).
Proof. intros Hk e s Hs He. do 2 wp_step. by apply Hk. Qed.

Lemma polite_get {B} (k : St -> prog St B) :
  (forall s, I s -> polite I (k s)) -> polite I (get ≫= k).
Proof. intros Hk e s Hs He. do 2 wp_step. by apply Hk. Qed.

Lemma polite_modify f : (forall s, I s -> I (f s)) -> polite I (modify f).
Proof. intros Hf e s Hs He. apply wp_modify. auto. Qed.

Lemma polite_apply i c : polite I (emit (EApply i c)).
Proof. intros e s Hs He. apply wp_emit. by repeat constructor. Qed.

Lemma polite_CancelTimer name : polite I (api_CancelTimer name).
Proof. intros e s Hs He. apply wp_emit. by repeat constructor. Qed.

Lemma polite_lift {A} (o : outcome A) : polite I (lift o).
Proof. intros e s Hs He. apply wp_lift. by destruct o. Qed.

Lemma polite_SetTimer name d : polite I (api_SetTimer name d).
Proof. intros e s Hs He. apply wp_SetTimer; [|done]. intros Hd. by repeat constructor. Qed.

Lemma polite_Send to m : msg_wf m -> polite I (api_Send to m).
Proof.
  intros Hm e s Hs He. apply wp_Send. split; [done|]. unfold sends_to.
  case_decide; [by apply Forall_singleton|constructor].
Qed.

Lemma polite_for_each {X} (f : X -> prog St unit) ps :
  (forall p, p ∈ ps -> polite I (f p)) -> polite I (for_each f ps).
Proof.
  intros Hf. induction ps as [|p ps IH]; [apply polite_ret|]. cbn [for_each].
  apply polite_bind; [apply Hf; left|]. intros _. apply IH. intros q Hq. apply Hf. by right.
Qed.

End polite.

(** Follows the structure of a handler; what is left are its messages and its
    updates of the state. *)
Ltac polite_step :=
  cbn beta iota zeta;
  lazymatch goal with
  | |- polite _ (mbind _ ask) => apply polite_ask; intros ? ?
  | |- polite _ (mbind _ get) => apply polite_get; intros ? ?
  | |- polite _ (mbind _ _) => apply polite_bind; [|intros ?]
  | |- polite _ (mret _) => apply polite_ret
  | |- polite _ (lift _) => apply polite_lift
  | |- polite _ (modify _) => apply polite_modify
  | |- polite _ (emit (EApply _ _)) => apply polite_apply
  | |- polite _ (api_SetTimer _ _) => apply polite_SetTimer
  | |- polite _ (api_CancelTimer _) => apply polite_CancelTimer
  | |- polite _ (api_Send _ _) => apply polite_Send
  | |- polite _ (for_each _ _) => apply polite_for_each; intros ? ?
  | |- polite _ (match ?b with _ => _ end) => destruct b
  end.
Create HintDb polite.
Ltac polite := repeat (polite_step || (progress auto with polite nocore)).

(** * Carrying out the calls *)

(** What a handler asked to be sent, and the names of its timers afterwards. *)
Definition sends (fx : list effect) : list (Z * WireMessage) :=
  omap (fun x => match x with ESend to m => Some (to, m) | _ => None end) fx.

Definition timer_names (fx : list effect) (names : gset string) : gset string :=
  foldl (fun names x => match x with
                        | ESetTimer name _ => {[name]} ∪ names
                        | ECancelTimer name => names ∖ {[name]}
                        | _ => names
                        end) names fx.

#[local] Arguments sends : simpl never.

(** The message [m'] is [m] as the node [id] queues it for [to]. *)
Definition queued_as (id now : Z) (s : Z * WireMessage) (m' : WireMessage) : Prop :=
  exists seq, m' = stamp id s.1 seq now s.2.

Definition peers_16 (n : Node) : Prop := forall p, is_Some (Get p (n_pm n)) -> is_uint 16 p.

Record host_ok {St} (k : Z) (h : Host St) : Prop := {
  hk_node : node_ok k (h_node h);
  hk_tm : Timer.tm_ok (h_tm h);
  hk_peers : peers_16 (h_node h);
}.

Lemma issue_message now p msg n m n' :
  issue now p msg n = Ret (m, n') -> queued_as (n_id n) now (p, msg) m.
Proof.
  unfold issue, nextSeq, enqueue, queued_as. destruct (index _ _) as [c|]; [|done]. cbn.
  destruct (Push _ _) as [[q d]|]; [|done]. cbn. intros [= <- _]. by eexists.
Qed.

Lemma sends_cons x fx : sends (x :: fx) = sends [x] ++ sends fx.
Proof. by destruct x. Qed.

(** One call that the interface allows. *)
Lemma run_effect_spec now e x k n tm :
  node_ok k n -> Timer.tm_ok tm -> peers_16 n -> k + zlen (sends [x]) < 2 ^ 32 -> is_int64 now ->
  is_List (n_pm n) (env_Peers e) -> call_ok e x ->
  exists ms n' tm', run_effect now x n tm = Ret (ms, n', tm') /\
    node_ok (k + zlen (sends [x])) n' /\ Timer.tm_ok tm' /\ frame n n' ms /\ counters_le n n' /\
    issued n n' ms /\ Forall2 (queued_as (n_id n) now) (sends [x]) ms /\
    dom (Timer.timers tm') = timer_names [x] (dom (Timer.timers tm)).
Proof.
  intros Hn Ht Hp Hk Hnow Hl Hx. destruct x as [to m|name d|name|i c]; cbn [run_effect].
  - change (zlen (sends [ESend to m])) with 1 in *.
    destruct Hx as [Hto Hm]. apply (elem_of_List _ _ to Hl) in Hto as Hget.
    pose proof (Hp to Hget) as H16. rewrite Send_issue. destruct Hget as [p ->].
    destruct (issue_spec k now to m n Hn) as (m' & n' & E & Hn' & Hi & Hle); [lia|done..|].
    rewrite E. cbn.    exists [m'], n', tm. split_and!; try done; [by eapply issue_frame; [done|lia|]|].
    repeat constructor. by eapply issue_message.
  - destruct (Timer.SetTimer_spec name d tm Ht Hx) as (tm' & -> & Ht' & E & _). cbn.
    exists [], n, tm'. change (zlen (sends [_])) with 0. rewrite Z.add_0_r.
    pose proof (issued_nil n n). pose proof (frame_refl n []). by rewrite E, dom_insert_L.
  - destruct (Timer.Cancel_spec name tm Ht) as (tm' & -> & Ht' & E & _). cbn.
    exists [], n, tm'. change (zlen (sends [_])) with 0. rewrite Z.add_0_r.
    pose proof (issued_nil n n). pose proof (frame_refl n []). by rewrite E, dom_delete_L.
  - exists [], n, tm. change (zlen (sends [_])) with 0. rewrite Z.add_0_r.
    pose proof (frame_refl n []). by pose proof (issued_nil n n).
Qed.

Lemma run_effects_spec now e fx k n tm :
  node_ok k n -> Timer.tm_ok tm -> peers_16 n -> k + zlen (sends fx) < 2 ^ 32 -> is_int64 now ->
  is_List (n_pm n) (env_Peers e) -> Forall (call_ok e) fx ->
  exists ms n' tm', run_effects now fx n tm = Ret (ms, n', tm') /\
    node_ok (k + zlen (sends fx)) n' /\ Timer.tm_ok tm' /\ frame n n' ms /\ counters_le n n' /\
    issued n n' ms /\ Forall2 (queued_as (n_id n) now) (sends fx) ms /\
    dom (Timer.timers tm') = timer_names fx (dom (Timer.timers tm)).
Proof.
  intros Hn Ht Hp Hk Hnow Hl Hf. revert k n tm Hn Ht Hp Hk Hl.
  induction Hf as [|x fx Hx Hf IH]; intros k n tm Hn Ht Hp Hk Hl; cbn [run_effects].
  - exists [], n, tm. change (zlen (sends [])) with 0. rewrite Z.add_0_r. pose proof (frame_refl n []).
    by pose proof (issued_nil n n).
  - rewrite sends_cons, zlen_app in *. pose proof (zlen_nonneg (sends fx)).
    destruct (run_effect_spec now e x k n tm) as (ms1 & n1 & tm1 & -> & Hn1 & Ht1 & Hf1 & Hle1 & Hi1 & Hs1 & Hd1);
      try done; [lia|]. cbn. pose proof Hf1 as (_ & Epm & _).
    destruct (IH (k + zlen (sends [x])) n1 tm1)
      as (ms2 & n2 & tm2 & -> & Hn2 & Ht2 & Hf2 & Hle2 & Hi2 & Hs2 & Hd2);
      [done|done|unfold peers_16; by rewrite Epm|lia|by rewrite Epm|]. cbn.
    exists (ms1 ++ ms2), n2, tm2. rewrite Z.add_assoc.
    split_and!; [done|done|done|by eapply frame_app|by etrans|by eapply issued_app| |].
    + apply Forall2_app; [done|]. by destruct Hle1 as [<- _].
    + rewrite Hd2, Hd1. by destruct x.
Qed.

(** Each call that sends queues one message. *)
Lemma run_effects_length now e fx n tm ms n' tm' :
  is_List (n_pm n) (env_Peers e) -> Forall (call_ok e) fx ->
  run_effects now fx n tm = Ret (ms, n', tm') -> length ms = length (sends fx).
Proof.
  intros Hl Hf. revert n tm ms Hl. induction Hf as [|x fx Hx Hf IH]; intros n tm ms Hl; cbn [run_effects].
  { by intros [= <- _ _]. }
  rewrite sends_cons, length_app.
  destruct (run_effect now x n tm) as [[[ms1 n1] tm1]|] eqn:E; [|done]. cbn.
  destruct (run_effects now fx n1 tm1) as [[[ms2 n2] tm2]|] eqn:E2; [|done]. cbn. intros [= <- -> ->].
  assert (H1 : length ms1 = length (sends [x]) /\ n_pm n1 = n_pm n).
  { destruct x as [to m|name d|name|i c]; cbn in E.
    - destruct Hx as [Hto _]. apply (elem_of_List _ _ to Hl) in Hto as [p Hp].
      rewrite Send_issue, Hp in E. destruct (issue now to m n) as [[m' n'']|] eqn:Ei; [|done].
      injection E as <- <- <-. split; [done|by eapply issue_peers].
    - destruct (Timer.SetTimer name d tm); [|done]. by injection E as <- <- _.
    - destruct (Timer.Cancel name tm); [|done]. by injection E as <- <- _.
    - by injection E as <- <- _. }
  destruct H1 as [H1 Hpm]. rewrite length_app, H1. f_equal.
  apply (IH n1 tm1 ms2); [by rewrite Hpm|done].
Qed.

Section properties.
Context {St : Type} (alg : Algorithm St) `{!LawfulAlgorithm alg}.

(** The handler's new state and calls, carried out on the host: the messages
    queued are those it sent, stamped with fresh sequence numbers, the timers
    that run are those it left set, and nothing else of the node changes. *)
Definition carried_out (k now : Z) (a' : St) (fx : list effect) (h : Host St)
    (r : outcome (list WireMessage * Host St)) : Prop :=
  exists ms h', r = Ret (ms, h') /\ h_alg h' = a' /\ alg_inv a' /\
    host_ok (k + zlen (sends fx)) h' /\ issued (h_node h) (h_node h') ms /\
    counters_le (h_node h) (h_node h') /\ frame (h_node h) (h_node h') ms /\
    Forall2 (queued_as (n_id (h_node h)) (now `div` 1000000)) (sends fx) ms /\
    dom (Timer.timers (h_tm h')) = timer_names fx (dom (Timer.timers (h_tm h))).

Lemma run_handler_spec f k now order rand (h : Host St) a' fx :
  polite alg_inv f -> alg_inv (h_alg h) -> host_ok k h -> is_int64 (now `div` 1000000) ->
  is_List (n_pm (h_node h)) order -> k + zlen (sends fx) < 2 ^ 32 ->
  f (host_env h now order rand) (h_alg h) = Ret (tt, a', fx) ->
  carried_out k now a' fx h (run_handler f now order rand h).
Proof.
  intros Hf Hinv [Hn Ht Hp] Hnow Hl Hk E.
  destruct (wp_elim _ _ _ _ _ _ _ _ (Hf (host_env h now order rand) _ Hinv Hnow) E) as [Hinv' Hfx].
  destruct (run_effects_spec (now `div` 1000000) (host_env h now order rand) fx k (h_node h) (h_tm h))
    as (ms & n' & tm' & Er & Hn' & Ht' & Hfr & Hle & Hi & Hs & Hd); [done..|].
  unfold run_handler. rewrite E. cbn. unfold UnixMilli. cbn. rewrite Er. cbn.
  exists ms, (mkHost n' tm' a'). split_and!; try done. split; [done|done|].
  unfold peers_16. cbn. by destruct Hfr as (_ & -> & _).
Qed.

(** Reception touches only the router and the collector. *)
Lemma recv_msg_frame now msg n d n' :
  recv_msg now msg n = Ret (d, n') ->
  (d = None \/ d = Some msg) /\ n_id n' = n_id n /\ n_pm n' = n_pm n /\ n_sq n' = n_sq n /\
  seqCounters n' = seqCounters n.
Proof.
  unfold recv_msg. destruct (Dispatch now msg (n_rt n)) as [[v rt]|]; [|done]. cbn.
  intros [= <- <-]. split; [|done]. case_decide; auto.
Qed.

Lemma recv_msg_host_ok now msg (h : Host St) k d n :
  host_ok k h -> recv_msg now msg (h_node h) = Ret (d, n) ->
  host_ok k (mkHost n (h_tm h) (h_alg h)).
Proof.
  intros [Hn Ht Hp] E. destruct (recv_msg_frame _ _ _ _ _ E) as (_ & Ei & Ep & Eq & Es).
  split; [|done|unfold peers_16; cbn; by rewrite Ep]. destruct Hn. split; cbn; by rewrite ?Eq, ?Es, ?Ei.
Qed.

(** C37: a node carries out what its algorithm's handlers do.  For an algorithm
    that keeps to the interface: a message that arrives is either dropped by
    the router, and the algorithm and its timers are untouched, or is handed to
    OnMessage; and then, as on a tick of a timer, the handler's sends are all
    queued, in order, with sequence numbers not used before, its timers are set
    and cancelled, and neither the queue nor the timer manager panics. *)
Theorem host_carries_out_handlers k now order rand (h : Host St) :
  alg_inv (h_alg h) -> host_ok k h -> is_int64 (now `div` 1000000) ->
  is_List (n_pm (h_node h)) order ->
  (forall msg d n a' fx, recv_msg (now `div` 1000000) msg (h_node h) = Ret (d, n) ->
     k + zlen (sends fx) < 2 ^ 32 ->
     alg_OnMessage alg msg (host_env h now order rand) (h_alg h) = Ret (tt, a', fx) ->
     let h1 := mkHost n (h_tm h) (h_alg h) in
     match d with
     | None => receive alg now order rand msg h = Ret ([], h1)
     | Some m => m = msg /\ carried_out k now a' fx h1 (receive alg now order rand msg h)
     end) /\
  (forall name a' fx, k + zlen (sends fx) < 2 ^ 32 ->
     alg_OnTick alg name (host_env h now order rand) (h_alg h) = Ret (tt, a', fx) ->
     carried_out k now a' fx h (tick alg name now order rand h)).
Proof.
  intros Hinv Hok Hnow Hl. split.
  - intros msg d n a' fx Er Hk E h1. unfold receive. rewrite Er. cbn.
    destruct (recv_msg_frame _ _ _ _ _ Er) as (Hd & Ei & Ep & _).
    destruct Hd as [-> | ->]; [done|]. split; [done|].
    apply run_handler_spec; try done.
    + apply law_OnMessage.
    + by eapply recv_msg_host_ok.
    + cbn. by rewrite Ep.
    + unfold host_env in *. cbn. by rewrite Ei.
  - intros name a' fx Hk E. apply run_handler_spec; try done. apply law_OnTick.
Qed.

End properties.
