(* ===== verification/Sample.v ===== *)
(** Sample: the random choice of peers shared by the gossip and weaknet
    algorithms ([sampleN]), over [rand.Perm]. *)
From S2P Require Export NodeAPI.

(** * rand.Perm

    The inside-out shuffle of math/rand: for each i, position j <= i is drawn,
    m[i] becomes m[j] and m[j] becomes i. *)
Fixpoint Perm_loop (draw : nat -> Z) (pos : nat) (todo i : nat) (m : list nat) : list nat :=
  match todo with
  | O => m
  | S todo' =>
      let j := Z.to_nat (draw pos `mod` Z.of_nat (S i)) in
      Perm_loop draw (S pos) todo' (S i) (<[j := i]> (m ++ [default 0%nat (m !! j)]))
  end.

Definition Perm (draw : nat -> Z) (pos n : nat) : list nat := Perm_loop draw pos n 0 [].

(** [sampleN(rng, peers, n)]; also the new position in the stream of draws.
    [make] panics on a negative length. *)
Definition sampleN (draw : nat -> Z) (pos : nat) (peers : list Z) (n : Z)
    : outcome (list Z * nat) :=
  if zlen peers <=? n then Ret (peers, pos)
  else
    let perm := Perm draw pos (length peers) in
    if n <? 0 then Panic InvalidArgument
    else Ret ((fun i => default 0 (peers !! i)) <$> take (Z.to_nat n) perm,
              (pos + length peers)%nat).

(** * A permutation *)

Lemma insert_snoc_perm (m : list nat) (j i : nat) :
  (j <= length m)%nat ->
  <[j := i]> (m ++ [default 0%nat (m !! j)]) ≡ₚ m ++ [i].
Proof.
  intros Hj. destruct (decide (j = length m)) as [->|Hne].
  - rewrite (lookup_ge_None_2 m) by lia. cbn.
    rewrite insert_app_r_alt by lia. by rewrite Nat.sub_diag.
  - destruct (lookup_lt_is_Some_2 m j) as [x Hx]; [lia|]. rewrite Hx. cbn.
    rewrite insert_app_l by lia. rewrite <- (take_drop_middle m j x Hx) at 2.
    rewrite (insert_take_drop _ _ i) by lia. rewrite <- !(assoc_L app). cbn.
    solve_Permutation.
Qed.

Lemma Perm_loop_perm draw todo : forall pos i m,
  m ≡ₚ seq 0 i -> Perm_loop draw pos todo i m ≡ₚ seq 0 (i + todo).
Proof.
  induction todo as [|todo IH]; intros pos i m Hm; cbn [Perm_loop].
  - by rewrite Nat.add_0_r.
  - replace (i + S todo)%nat with (S i + todo)%nat by lia. apply IH.
    assert (Hl : length m = i) by (rewrite Hm; apply length_seq).
    pose proof (Z.mod_pos_bound (draw pos) (Z.of_nat (S i)) ltac:(lia)).
    rewrite insert_snoc_perm by lia. rewrite Hm, seq_S. done.
Qed.

Lemma Perm_perm draw pos n : Perm draw pos n ≡ₚ seq 0 n.
Proof. by apply (Perm_loop_perm draw n pos 0 []). Qed.

(** * What is sampled: distinct peers, as many as asked for or all of them *)
Lemma sampleN_spec draw pos peers n :
  NoDup peers -> 0 <= n ->
  exists targets pos', sampleN draw pos peers n = Ret (targets, pos') /\
    NoDup targets /\ targets ⊆ peers /\ zlen targets = Z.min n (zlen peers).
Proof.
  intros Hnd Hn. unfold sampleN. destruct (Z.leb_spec (zlen peers) n).
  { exists peers, pos. split_and!; [done|done|done|lia]. }
  destruct (Z.ltb_spec n 0); [lia|]. eexists _, _. split; [done|].
  pose proof (Perm_perm draw pos (length peers)) as Hp.
  assert (Hin : forall i, i ∈ take (Z.to_nat n) (Perm draw pos (length peers)) ->
    exists x, peers !! i = Some x).
  { intros i Hi. apply lookup_lt_is_Some_2. apply elem_of_take in Hi as (j & Hj & _).
    apply list_elem_of_lookup_2 in Hj. rewrite Hp in Hj. apply elem_of_seq in Hj. lia. }
  split_and!.
  - apply NoDup_fmap_2_strong.
    + intros i j Hi Hj E. destruct (Hin i Hi) as [x Hx], (Hin j Hj) as [y Hy].
      rewrite Hx, Hy in E. cbn in E. subst. by eapply NoDup_lookup.
    + eapply sublist_NoDup; [|apply sublist_take]. rewrite Hp. apply NoDup_seq.
  - intros x (i & -> & Hi)%list_elem_of_fmap. destruct (Hin i Hi) as [x Hx]. rewrite Hx. cbn.
    by eapply list_elem_of_lookup_2.
  - unfold zlen in *. rewrite length_fmap, length_take, (Permutation_length Hp), length_seq. lia.
Qed.
