(* ===== verification/Raft.v ===== *)
(** Raft: the simplified Raft algorithm (node/algorithm/raft/raft.go), every
    handler in full, in the [prog] monad of NodeAPI.  The payloads are the four
    wire structures; their JSON form is the interface [Json]. *)
From S2P Require Export NodeAPI.

(** * Data *)

Definition timerElection : string := "raft_election".
Definition timerHeartbeat : string := "raft_heartbeat".

Definition kindRequestVote : Z := 1.
Definition kindRequestVoteReply : Z := 2.
Definition kindAppendEntries : Z := 3.
Definition kindAppendReply : Z := 4.

Inductive nodeState : Set := stateFollower | stateCandidate | stateLeader.

#[export] Instance nodeState_eq_dec : EqDecision nodeState.
Proof. solve_decision. Defined.

Record LogEntry := mkEntry { le_Term : Z; le_Command : bytes }.

#[export] Instance LogEntry_eq_dec : EqDecision LogEntry.
Proof. solve_decision. Defined.

Record requestVote := mkRV {
  rv_Kind : Z; rv_Term : Z; rv_CandidateID : Z; rv_LastLogIndex : Z; rv_LastLogTerm : Z }.
Record requestVoteReply := mkRVR { rvr_Kind : Z; rvr_Term : Z; rvr_VoteGranted : bool }.
Record appendEntries := mkAE {
  ae_Kind : Z; ae_Term : Z; ae_LeaderID : Z; ae_PrevLogIndex : Z; ae_PrevLogTerm : Z;
  ae_Entries : list LogEntry; ae_LeaderCommit : Z }.
Record appendReply := mkAR { ar_Kind : Z; ar_Term : Z; ar_Success : bool; ar_MatchIndex : Z }.

Inductive payload : Type :=
  | PRequestVote (rv : requestVote)
  | PRequestVoteReply (rvr : requestVoteReply)
  | PAppendEntries (ae : appendEntries)
  | PAppendReply (ar : appendReply).

#[export] Instance requestVote_eq_dec : EqDecision requestVote.
Proof. solve_decision. Defined.
#[export] Instance requestVoteReply_eq_dec : EqDecision requestVoteReply.
Proof. solve_decision. Defined.
#[export] Instance appendEntries_eq_dec : EqDecision appendEntries.
Proof. solve_decision. Defined.
#[export] Instance appendReply_eq_dec : EqDecision appendReply.
Proof. solve_decision. Defined.
#[export] Instance payload_eq_dec : EqDecision payload.
Proof. solve_decision. Defined.

Definition payload_kind (p : payload) : Z :=
  match p with
  | PRequestVote rv => rv_Kind rv
  | PRequestVoteReply rvr => rvr_Kind rvr
  | PAppendEntries ae => ae_Kind ae
  | PAppendReply ar => ar_Kind ar
  end.

(** encoding/json on the wire structures: unmarshalling into the type that was
    marshalled gives the value back, and the envelope reads its kind. *)
Class Json := {
  Marshal : payload -> bytes;
  Unmarshal_envelope : bytes -> option Z;
  Unmarshal_requestVote : bytes -> option requestVote;
  Unmarshal_requestVoteReply : bytes -> option requestVoteReply;
  Unmarshal_appendEntries : bytes -> option appendEntries;
  Unmarshal_appendReply : bytes -> option appendReply;
  Marshal_nonempty p : Marshal p <> [];
  envelope_Marshal p : Unmarshal_envelope (Marshal p) = Some (payload_kind p);
  requestVote_Marshal x : Unmarshal_requestVote (Marshal (PRequestVote x)) = Some x;
  requestVoteReply_Marshal x :
    Unmarshal_requestVoteReply (Marshal (PRequestVoteReply x)) = Some x;
  appendEntries_Marshal x : Unmarshal_appendEntries (Marshal (PAppendEntries x)) = Some x;
  appendReply_Marshal x : Unmarshal_appendReply (Marshal (PAppendReply x)) = Some x;
}.

(** Durations are in nanoseconds. *)
Record RaftConfig := mkConfig {
  ElectionTimeoutMin : Z; ElectionTimeoutMax : Z; HeartbeatInterval : Z }.

Definition Millisecond : Z := 1000000.

Definition DefaultConfig : RaftConfig :=
  mkConfig (150 * Millisecond) (300 * Millisecond) (50 * Millisecond).

(** [rng] is the position in the stream of draws of the environment;
    [applyCb] says whether a callback was given. *)
Record Algorithm := mkAlgorithm {
  cfg : RaftConfig;
  currentTerm : Z;
  votedFor : Z;
  log : list LogEntry;
  state : nodeState;
  commitIndex : Z;
  lastApplied : Z;
  leaderID : Z;
  nextIndex : gmap Z Z;
  matchIndex : gmap Z Z;
  votesReceived : Z;
  rng : nat;
  applyCb : bool;
}.

Definition set_currentTerm (x : Z) (a : Algorithm) : Algorithm :=
  mkAlgorithm (cfg a) x (votedFor a) (log a) (state a) (commitIndex a) (lastApplied a) (leaderID
    a) (nextIndex a) (matchIndex a) (votesReceived a) (rng a) (applyCb a).
Definition set_votedFor (x : Z) (a : Algorithm) : Algorithm :=
  mkAlgorithm (cfg a) (currentTerm a) x (log a) (state a) (commitIndex a) (lastApplied a)
    (leaderID a) (nextIndex a) (matchIndex a) (votesReceived a) (rng a) (applyCb a).
Definition set_log (x : list LogEntry) (a : Algorithm) : Algorithm :=
  mkAlgorithm (cfg a) (currentTerm a) (votedFor a) x (state a) (commitIndex a) (lastApplied a)
    (leaderID a) (nextIndex a) (matchIndex a) (votesReceived a) (rng a) (applyCb a).
Definition set_state (x : nodeState) (a : Algorithm) : Algorithm :=
  mkAlgorithm (cfg a) (currentTerm a) (votedFor a) (log a) x (commitIndex a) (lastApplied a)
    (leaderID a) (nextIndex a) (matchIndex a) (votesReceived a) (rng a) (applyCb a).
Definition set_commitIndex (x : Z) (a : Algorithm) : Algorithm :=
  mkAlgorithm (cfg a) (currentTerm a) (votedFor a) (log a) (state a) x (lastApplied a) (leaderID
    a) (nextIndex a) (matchIndex a) (votesReceived a) (rng a) (applyCb a).
Definition set_lastApplied (x : Z) (a : Algorithm) : Algorithm :=
  mkAlgorithm (cfg a) (currentTerm a) (votedFor a) (log a) (state a) (commitIndex a) x (leaderID
    a) (nextIndex a) (matchIndex a) (votesReceived a) (rng a) (applyCb a).
Definition set_leaderID (x : Z) (a : Algorithm) : Algorithm :=
  mkAlgorithm (cfg a) (currentTerm a) (votedFor a) (log a) (state a) (commitIndex a)
    (lastApplied a) x (nextIndex a) (matchIndex a) (votesReceived a) (rng a) (applyCb a).
Definition set_nextIndex (x : gmap Z Z) (a : Algorithm) : Algorithm :=
  mkAlgorithm (cfg a) (currentTerm a) (votedFor a) (log a) (state a) (commitIndex a)
    (lastApplied a) (leaderID a) x (matchIndex a) (votesReceived a) (rng a) (applyCb a).
Definition set_matchIndex (x : gmap Z Z) (a : Algorithm) : Algorithm :=
  mkAlgorithm (cfg a) (currentTerm a) (votedFor a) (log a) (state a) (commitIndex a)
    (lastApplied a) (leaderID a) (nextIndex a) x (votesReceived a) (rng a) (applyCb a).
Definition set_votesReceived (x : Z) (a : Algorithm) : Algorithm :=
  mkAlgorithm (cfg a) (currentTerm a) (votedFor a) (log a) (state a) (commitIndex a)
    (lastApplied a) (leaderID a) (nextIndex a) (matchIndex a) x (rng a) (applyCb a).
Definition set_rng (x : nat) (a : Algorithm) : Algorithm :=
  mkAlgorithm (cfg a) (currentTerm a) (votedFor a) (log a) (state a) (commitIndex a)
    (lastApplied a) (leaderID a) (nextIndex a) (matchIndex a) (votesReceived a) x (applyCb a).

Definition New (c : RaftConfig) (cb : bool) : Algorithm :=
  mkAlgorithm c 0 0 [] stateFollower 0 0 0 ∅ ∅ 0 0 cb.

(** A missing key of a Go map reads as zero. *)
Definition lookup0 (m : gmap Z Z) (k : Z) : Z := default 0 (m !! k).

Definition cmd (A : Type) : Type := prog Algorithm A.

(** * Observers *)

Definition IsLeader (a : Algorithm) : bool := bool_decide (state a = stateLeader).
Definition LeaderID (a : Algorithm) : Z := leaderID a.
Definition CommitIndex (a : Algorithm) : Z := commitIndex a.
Definition LogLen (a : Algorithm) : Z := zlen (log a).

Record RaftStatus := mkStatus {
  st_Role : string; st_Term : Z; st_LeaderID : Z; st_LogLen : Z;
  st_CommitIndex : Z; st_LastApplied : Z }.

Definition StatusSnapshot (a : Algorithm) : RaftStatus :=
  mkStatus
    match state a with
    | stateCandidate => "candidate" | stateLeader => "leader" | stateFollower => "follower"
    end
    (currentTerm a) (leaderID a) (zlen (log a)) (commitIndex a) (lastApplied a).

(** * Internal logic *)

(** [a.rng.Int63n(n)] panics when [n <= 0]. *)
Definition Int63n (n : Z) : cmd Z :=
  if n <=? 0 then lift (Panic InvalidArgument)
  else
    e ← ask; a ← get;
    modify (set_rng (S (rng a)));;
    mret (env_rand e (rng a) `mod` n).

Definition resetElectionTimer : cmd unit :=
  a ← get;
  r ← Int63n (ElectionTimeoutMax (cfg a) - ElectionTimeoutMin (cfg a));
  api_SetTimer timerElection (ElectionTimeoutMin (cfg a) + r).

Definition stepDown (term : Z) : cmd unit :=
  modify (set_currentTerm term);;
  modify (set_state stateFollower);;
  modify (set_votedFor 0);;
  api_CancelTimer timerHeartbeat;;
  resetElectionTimer.

Definition lastLogInfo (a : Algorithm) : Z * Z :=
  match last (log a) with
  | None => (0, 0)
  | Some l => (wrap 32 (zlen (log a)), le_Term l)
  end.

(** The fields of a composite literal that are not given are zero; the node
    fills in sender, receiver and sequence number. *)
Definition consensusMsg (now : Z) (ttl pri : Z) (pl : bytes) : WireMessage :=
  mkMessage TypeConsensus 0 0 0 now 0 0 ttl pri pl.

Section handlers.
Context `{Json}.

Definition sendToAll (ttl pri : Z) (pl : bytes) : cmd unit :=
  e ← ask;
  for_each (fun p => api_Send p (consensusMsg (UnixMilli e) ttl pri pl);; mret tt) (env_Peers e).

Definition startElection : cmd unit :=
  e ← ask;
  modify (set_state stateCandidate);;
  modify (fun a => set_currentTerm (currentTerm a +[32] 1) a);;
  modify (set_votedFor (env_ID e));;
  modify (set_votesReceived 1);;
  resetElectionTimer;;
  a ← get;
  sendToAll TTLDefault PriorityState
    (Marshal (PRequestVote
       (mkRV kindRequestVote (currentTerm a) (env_ID e) (lastLogInfo a).1 (lastLogInfo a).2))).

Definition sendAppendEntries (peerID : Z) : cmd unit :=
  e ← ask; a ← get;
  let nextIdx := lookup0 (nextIndex a) peerID in
  let prevIdx := if 1 <? nextIdx then nextIdx -[32] 1 else 0 in
  prevTerm ←
    (if (1 <? nextIdx) && (prevIdx <=? zlen (log a))
     then l ← lift (index (prevIdx -[32] 1) (log a)); mret (le_Term l)
     else mret 0);
  entries ←
    (if nextIdx - 1 <? zlen (log a) then lift (slice_from (nextIdx -[32] 1) (log a))
     else mret []);
  api_Send peerID
    (consensusMsg (UnixMilli e) TTLDefault PriorityState
       (Marshal (PAppendEntries
          (mkAE kindAppendEntries (currentTerm a) (env_ID e) prevIdx prevTerm entries
             (commitIndex a)))));;
  mret tt.

Definition broadcastAppendEntries : cmd unit :=
  e ← ask; for_each sendAppendEntries (env_Peers e).

Definition becomeLeader : cmd unit :=
  e ← ask;
  modify (set_state stateLeader);;
  modify (set_leaderID (env_ID e));;
  api_CancelTimer timerElection;;
  a ← get;
  let nextIdx := wrap 32 (zlen (log a) + 1) in
  for_each (fun p =>
    modify (fun a => set_nextIndex (<[p := nextIdx]> (nextIndex a)) a);;
    modify (fun a => set_matchIndex (<[p := 0]> (matchIndex a)) a)) (env_Peers e);;
  api_SetTimer timerHeartbeat (HeartbeatInterval (cfg a));;
  broadcastAppendEntries.

Definition handleRequestVote (from : Z) (rv : requestVote) : cmd unit :=
  a0 ← get;
  (if currentTerm a0 <? rv_Term rv then stepDown (rv_Term rv) else mret tt);;
  a ← get;
  let lastIdx := (lastLogInfo a).1 in
  let lastTerm := (lastLogInfo a).2 in
  let logOK := (lastTerm <? rv_LastLogTerm rv) ||
               ((rv_LastLogTerm rv =? lastTerm) && (lastIdx <=? rv_LastLogIndex rv)) in
  let termOK := rv_Term rv =? currentTerm a in
  let notVoted := (votedFor a =? 0) || (votedFor a =? rv_CandidateID rv) in
  let granted := termOK && logOK && notVoted in
  (if granted then modify (set_votedFor (rv_CandidateID rv));; resetElectionTimer else mret tt);;
  e ← ask;
  api_Send from
    (consensusMsg (UnixMilli e) TTLDefault PriorityState
       (Marshal (PRequestVoteReply (mkRVR kindRequestVoteReply (currentTerm a) granted))));;
  mret tt.

Definition handleRequestVoteReply (rvr : requestVoteReply) : cmd unit :=
  a ← get; e ← ask;
  if currentTerm a <? rvr_Term rvr then stepDown (rvr_Term rvr)
  else if negb (bool_decide (state a = stateCandidate)) || negb (rvr_Term rvr =? currentTerm a)
  then mret tt
  else if rvr_VoteGranted rvr then
    modify (set_votesReceived (votesReceived a + 1));;
    let majority := zlen (env_Peers e) `div` 2 + 1 in
    if majority <=? votesReceived a + 1 then becomeLeader else mret tt
  else mret tt.

(** [for a.lastApplied < a.commitIndex]; the fuel is the difference. *)
Fixpoint applyCommitted_loop (fuel : nat) : cmd unit :=
  match fuel with
  | O => mret tt
  | S fuel' =>
      a ← get;
      if lastApplied a <? commitIndex a then
        modify (set_lastApplied (lastApplied a +[32] 1));;
        (if applyCb a then
           entry ← lift (index ((lastApplied a +[32] 1) -[32] 1) (log a));
           emit (EApply (lastApplied a +[32] 1) (le_Command entry))
         else mret tt);;
        applyCommitted_loop fuel'
      else mret tt
  end.

Definition applyCommitted : cmd unit :=
  a ← get; applyCommitted_loop (Z.to_nat (commitIndex a - lastApplied a)).

Definition count_match (n : Z) (m : gmap Z Z) : Z :=
  zlen (filter (fun p : Z * Z => n <= p.2) (map_to_list m)).

(** [for n := len(log); n > commitIndex; n--]; the fuel is [len(log)]. *)
Fixpoint maybeCommit_loop (fuel : nat) (n : Z) : cmd unit :=
  match fuel with
  | O => mret tt
  | S fuel' =>
      a ← get; e ← ask;
      if commitIndex a <? n then
        l ← lift (index (n -[32] 1) (log a));
        if negb (le_Term l =? currentTerm a) then mret tt
        else if (zlen (env_Peers e) + 1) `div` 2 <? 1 + count_match n (matchIndex a) then
          modify (set_commitIndex n);; applyCommitted
        else maybeCommit_loop fuel' (n -[32] 1)
      else mret tt
  end.

Definition maybeCommit : cmd unit :=
  a ← get;
  maybeCommit_loop (Z.to_nat (wrap 32 (zlen (log a)))) (wrap 32 (zlen (log a))).

(** [for i, entry := range ae.Entries]: what the loop leaves in [a.log]. *)
Fixpoint append_new (insertIdx : Z) (i : Z) (entries l : list LogEntry)
    : outcome (list LogEntry) :=
  match entries with
  | [] => mret l
  | entry :: rest =>
      let idx := insertIdx +[32] i in
      if idx <? wrap 32 (zlen l) then
        x ← index idx l;
        if negb (le_Term x =? le_Term entry) then
          l' ← slice_to idx l;
          append_new insertIdx (i + 1) rest (l' ++ [entry])
        else append_new insertIdx (i + 1) rest l
      else append_new insertIdx (i + 1) rest (l ++ [entry])
  end.

Definition sendAppendReply (to : Z) (reply : appendReply) : cmd unit :=
  e ← ask;
  api_Send to (consensusMsg (UnixMilli e) 0 0 (Marshal (PAppendReply reply)));; mret tt.

Definition handleAppendEntries (from : Z) (ae : appendEntries) : cmd unit :=
  a0 ← get;
  let reply := mkAR kindAppendReply (currentTerm a0) false 0 in
  if ae_Term ae <? currentTerm a0 then sendAppendReply from reply
  else
    (if currentTerm a0 <? ae_Term ae then stepDown (ae_Term ae)
     else modify (set_state stateFollower);; resetElectionTimer);;
    modify (set_leaderID (ae_LeaderID ae));;
    a1 ← get;
    mismatch ←
      (if 0 <? ae_PrevLogIndex ae then
         if wrap 32 (zlen (log a1)) <? ae_PrevLogIndex ae then mret true
         else
           x ← lift (index (ae_PrevLogIndex ae -[32] 1) (log a1));
           mret (negb (le_Term x =? ae_PrevLogTerm ae))
       else mret false);
    if (mismatch : bool) then sendAppendReply from reply
    else
      l ← lift (append_new (ae_PrevLogIndex ae) 0 (ae_Entries ae) (log a1));
      modify (set_log l);;
      (if commitIndex a1 <? ae_LeaderCommit ae then
         modify (set_commitIndex
           (if ae_LeaderCommit ae <? wrap 32 (zlen l) then ae_LeaderCommit ae
            else wrap 32 (zlen l)));;
         applyCommitted
       else mret tt);;
      sendAppendReply from (mkAR kindAppendReply (currentTerm a0) true (wrap 32 (zlen l))).

Definition handleAppendReply (from : Z) (ar : appendReply) : cmd unit :=
  a ← get;
  if currentTerm a <? ar_Term ar then stepDown (ar_Term ar)
  else if negb (bool_decide (state a = stateLeader)) then mret tt
  else if ar_Success ar then
    modify (set_matchIndex (<[from := ar_MatchIndex ar]> (matchIndex a)));;
    modify (set_nextIndex (<[from := ar_MatchIndex ar +[32] 1]> (nextIndex a)));;
    maybeCommit
  else
    (if 1 <? lookup0 (nextIndex a) from
     then modify (set_nextIndex (<[from := lookup0 (nextIndex a) from -[32] 1]> (nextIndex a)))
     else mret tt);;
    sendAppendEntries from.

(** * The Algorithm interface *)

Definition Start : cmd unit := resetElectionTimer.

Definition Stop : cmd unit :=
  api_CancelTimer timerElection;; api_CancelTimer timerHeartbeat.

Definition Propose (command : bytes) : cmd bool :=
  a ← get;
  if negb (bool_decide (state a = stateLeader)) then mret false
  else
    modify (set_log (log a ++ [mkEntry (currentTerm a) command]));;
    broadcastAppendEntries;;
    mret true.

Definition OnMessage (msg : WireMessage) : cmd unit :=
  if negb (Type_ msg =? TypeConsensus) || (zlen (Payload msg) =? 0) then mret tt
  else
    match Unmarshal_envelope (Payload msg) with
    | None => mret tt
    | Some kind =>
        if kind =? kindRequestVote then
          match Unmarshal_requestVote (Payload msg) with
          | None => mret tt
          | Some rv => handleRequestVote (From msg) rv
          end
        else if kind =? kindRequestVoteReply then
          match Unmarshal_requestVoteReply (Payload msg) with
          | None => mret tt
          | Some rvr => handleRequestVoteReply rvr
          end
        else if kind =? kindAppendEntries then
          match Unmarshal_appendEntries (Payload msg) with
          | None => mret tt
          | Some ae => handleAppendEntries (From msg) ae
          end
        else if kind =? kindAppendReply then
          match Unmarshal_appendReply (Payload msg) with
          | None => mret tt
          | Some ar => handleAppendReply (From msg) ar
          end
        else mret tt
    end.

Definition OnTick (name : string) : cmd unit :=
  if decide (name = timerElection) then startElection
  else if decide (name = timerHeartbeat) then
    a ← get; if bool_decide (state a = stateLeader) then broadcastAppendEntries else mret tt
  else mret tt.

End handlers.
