(* ===== verification/RaftFacts.v ===== *)
(** RaftFacts: what each Raft handler does, as total specifications: under the
    bounds of [wf] no handler panics, and each one's next state and messages
    are given by equations. *)
From S2P Require Export Raft.

Definition cfg_ok (c : RaftConfig) : Prop :=
  0 < ElectionTimeoutMin c < ElectionTimeoutMax c /\ 0 < HeartbeatInterval c.

#[export] Instance cfg_ok_dec c : Decision (cfg_ok c).
Proof. unfold cfg_ok. apply _. Defined.

(** * Log positions: indices start at 1, and position 0 has term 0. *)

Definition term_at (l : list LogEntry) (i : Z) : Z :=
  if decide (0 < i) then default 0 (le_Term <$> l !! Z.to_nat (i - 1)) else 0.

Definition drop_log (i : Z) (l : list LogEntry) : list LogEntry := drop (Z.to_nat i) l.

(** * Messages seen as payloads *)
Section typed.
Context `{Json}.

(** The payload [OnMessage] acts on. *)
Definition decode (m : WireMessage) : option payload :=
  if negb (Type_ m =? TypeConsensus) || (zlen (Payload m) =? 0) then None
  else
    k ← Unmarshal_envelope (Payload m);
    if k =? kindRequestVote then PRequestVote <$> Unmarshal_requestVote (Payload m)
    else if k =? kindRequestVoteReply then
      PRequestVoteReply <$> Unmarshal_requestVoteReply (Payload m)
    else if k =? kindAppendEntries then PAppendEntries <$> Unmarshal_appendEntries (Payload m)
    else if k =? kindAppendReply then PAppendReply <$> Unmarshal_appendReply (Payload m)
    else None.

Definition handle_payload (from : Z) (p : payload) : cmd unit :=
  match p with
  | PRequestVote rv => handleRequestVote from rv
  | PRequestVoteReply rvr => handleRequestVoteReply rvr
  | PAppendEntries ae => handleAppendEntries from ae
  | PAppendReply ar => handleAppendReply from ar
  end.

Lemma OnMessage_decode m :
  OnMessage m = match decode m with None => mret tt | Some p => handle_payload (From m) p end.
Proof.
  unfold OnMessage, decode. destruct (negb _ || _); [done|].
  destruct (Unmarshal_envelope _) as [k|]; cbn; [|done].
  repeat (case_match; try done; cbn in *; simplify_eq).
Qed.

Definition kind_ok (p : payload) : Prop :=
  payload_kind p = match p with
                   | PRequestVote _ => kindRequestVote
                   | PRequestVoteReply _ => kindRequestVoteReply
                   | PAppendEntries _ => kindAppendEntries
                   | PAppendReply _ => kindAppendReply
                   end.

Lemma decode_Marshal m p :
  Type_ m = TypeConsensus -> Payload m = Marshal p -> kind_ok p -> decode m = Some p.
Proof.
  intros HT HP HK. unfold decode. rewrite HT, HP, Z.eqb_refl. cbn [negb orb].
  destruct (Z.eqb_spec (zlen (Marshal p)) 0) as [E|_].
  { pose proof (Marshal_nonempty p). unfold zlen in E. destruct (Marshal p); [done|cbn in E; lia]. }
  rewrite envelope_Marshal, HK. cbn [mbind option_bind].
  destruct p; cbn.
  - by rewrite requestVote_Marshal.
  - by rewrite requestVoteReply_Marshal.
  - by rewrite appendEntries_Marshal.
  - by rewrite appendReply_Marshal.
Qed.

(** The payloads among the effects, with their receivers. *)
Definition sent_of (x : effect) : option (Z * payload) :=
  match x with ESend to m => (fun p => (to, p)) <$> decode m | _ => None end.
Definition sent (fx : list effect) : list (Z * payload) := omap sent_of fx.

Lemma sent_app f1 f2 : sent (f1 ++ f2) = sent f1 ++ sent f2.
Proof. apply omap_app. Qed.

Definition to_peer (e : Env) (to : Z) (p : payload) : list (Z * payload) :=
  if decide (to ∈ env_Peers e) then [(to, p)] else [].

Lemma sent_sends_to e to now ttl pri p :
  kind_ok p -> sent (sends_to e to (consensusMsg now ttl pri (Marshal p))) = to_peer e to p.
Proof.
  intros HK. unfold sends_to, to_peer. case_decide; [|done]. cbn.
  by rewrite (decode_Marshal _ p).
Qed.
End typed.

Definition applies (fx : list effect) : list (Z * bytes) :=
  omap (fun x => match x with EApply i c => Some (i, c) | _ => None end) fx.

Lemma applies_app f1 f2 : applies (f1 ++ f2) = applies f1 ++ applies f2.
Proof. apply omap_app. Qed.

Lemma applies_sends_to e to m : applies (sends_to e to m) = [].
Proof. unfold sends_to. by case_decide. Qed.

(** * Timers and roles *)

Lemma wp_Int63n P n e a Q :
  (0 < n -> forall r, 0 <= r < n -> Q r (set_rng (S (rng a)) a) []) -> (n <= 0 -> P) ->
  wp P (Int63n n) e a Q.
Proof.
  intros HQ HP. unfold Int63n. destruct (Z.leb_spec n 0) as [Hn|Hn].
  - apply wp_lift. auto.
  - wp_steps. apply HQ; [done|]. by apply Z.mod_pos_bound.
Qed.

Lemma resetElectionTimer_spec e a Q :
  cfg_ok (cfg a) ->
  (forall d, ElectionTimeoutMin (cfg a) <= d < ElectionTimeoutMax (cfg a) ->
     Q tt (set_rng (S (rng a)) a) [ESetTimer timerElection d]) ->
  wp False resetElectionTimer e a Q.
Proof.
  intros [? ?] HQ. unfold resetElectionTimer. wp_steps. apply wp_Int63n; [|lia].
  intros _ r Hr. apply wp_SetTimer; [|lia]. intros _. apply HQ. lia.
Qed.

(** The state after [stepDown term]. *)
Definition stepped (term : Z) (a : Algorithm) : Algorithm :=
  set_rng (S (rng a)) (set_votedFor 0 (set_state stateFollower (set_currentTerm term a))).

(** Effects without messages and without applied entries. *)
Definition silent `{Json} (fx : list effect) : Prop := sent fx = [] /\ applies fx = [].

Lemma stepDown_spec `{Json} term e a Q :
  cfg_ok (cfg a) ->
  (forall fx, silent fx -> Q tt (stepped term a) fx) ->
  wp False (stepDown term) e a Q.
Proof.
  intros Hc HQ. unfold stepDown. wp_steps. apply resetElectionTimer_spec; [done|].
  intros d _. by apply HQ.
Qed.

(** * Replication: AppendEntries *)

(** Bounds on a node's state: [k] bounds terms and log lengths, and every peer
    of a leader has a next index. *)
Record wf (k : Z) (e : Env) (a : Algorithm) : Prop := {
  wf_cfg : cfg_ok (cfg a);
  wf_len : zlen (log a) <= k;
  wf_term : 0 <= currentTerm a <= k;
  wf_commit : 0 <= commitIndex a <= lastApplied a;
  wf_applied : lastApplied a <= k;
  wf_next : forall p i, nextIndex a !! p = Some i -> 1 <= i <= k + 1;
  wf_lead : state a = stateLeader -> forall p, p ∈ env_Peers e -> is_Some (nextIndex a !! p);
}.

Definition k_max : Z := 2 ^ 32 - 2.

Lemma wf_next_lookup0 k e a p :
  wf k e a -> is_Some (nextIndex a !! p) -> 1 <= lookup0 (nextIndex a) p <= k + 1.
Proof. intros Hw [i Hi]. unfold lookup0. rewrite Hi. by apply (wf_next _ _ _ Hw p). Qed.

(** The AppendEntries a node sends to [p]. *)
Definition ae_of (e : Env) (a : Algorithm) (p : Z) : appendEntries :=
  let i := lookup0 (nextIndex a) p in
  mkAE kindAppendEntries (currentTerm a) (env_ID e) (i - 1) (term_at (log a) (i - 1))
    (drop_log (i - 1) (log a)) (commitIndex a).

Lemma index_term_at i l x : 0 < i -> index (i - 1) l = Ret x -> term_at l i = le_Term x.
Proof.
  intros Hi. unfold index, term_at. rewrite !decide_True by lia.
  destruct (l !! Z.to_nat (i - 1)) eqn:E; [|done]. intros [= ->]. done.
Qed.

Lemma sendAppendEntries_spec `{Json} p e a Q :
  1 <= lookup0 (nextIndex a) p <= k_max + 1 -> zlen (log a) <= k_max ->
  (forall fx, sent fx = to_peer e p (PAppendEntries (ae_of e a p)) -> applies fx = [] ->
     Q tt a fx) ->
  wp False (sendAppendEntries p) e a Q.
Proof.
  unfold k_max. intros Hi Hl HQ. unfold sendAppendEntries. do 4 wp_step. cbv zeta.
  set (i := lookup0 (nextIndex a) p) in *.
  assert (Hprev : (if 1 <? i then i -[32] 1 else 0) = i - 1).
  { destruct (Z.ltb_spec 1 i); [|lia]. apply wrap_small. unfold is_uint. lia. }
  rewrite Hprev. apply wp_bind.
  apply (wp_mono _ _ _ _ (fun x s fx => x = term_at (log a) (i - 1) /\ s = a /\ fx = [])).
  { destruct (_ && _) eqn:E.
    - apply andb_prop in E as [E1 E2]. apply Z.ltb_lt in E1. apply Z.leb_le in E2.
      wp_step. apply wp_lift. rewrite wrap_small by (unfold is_uint; lia).
      destruct (index_in_range (i - 1 - 1) (log a)) as (x & Hx & _); [lia|].
      rewrite Hx. wp_step. rewrite (index_term_at _ _ x); [done|lia|done].
    - wp_step. split_and!; [|done..]. unfold term_at.
      apply andb_false_iff in E as [E|E].
      + apply Z.ltb_ge in E. by rewrite decide_False by lia.
      + apply Z.leb_gt in E. case_decide; [|done].
        rewrite lookup_ge_None_2; [done|]. unfold zlen in E. lia. }
  intros x s fx (-> & -> & ->). apply wp_bind.
  apply (wp_mono _ _ _ _ (fun x s fx => x = drop_log (i - 1) (log a) /\ s = a /\ fx = [])).
  { destruct (Z.ltb_spec (i - 1) (zlen (log a))).
    - apply wp_lift. rewrite wrap_small by (unfold is_uint; lia).
      by rewrite slice_from_ok by (unfold zlen in *; lia).
    - wp_step. split_and!; [|done..]. unfold drop_log. rewrite drop_ge; [done|].
      unfold zlen in *. lia. }
  intros x s fx (-> & -> & ->). wp_steps. rewrite !app_nil_l, app_nil_r. apply HQ.
  - by rewrite sent_sends_to.
  - apply applies_sends_to.
Qed.

Definition broadcast_of (e : Env) (a : Algorithm) : list (Z * payload) :=
  (fun p => (p, PAppendEntries (ae_of e a p))) <$> env_Peers e.

Lemma broadcastAppendEntries_spec `{Json} e a Q :
  (forall p, p ∈ env_Peers e -> 1 <= lookup0 (nextIndex a) p <= k_max + 1) ->
  zlen (log a) <= k_max ->
  (forall fx, sent fx = broadcast_of e a -> applies fx = [] -> Q tt a fx) ->
  wp False broadcastAppendEntries e a Q.
Proof.
  intros Hn Hl HQ. unfold broadcastAppendEntries. wp_step. wp_step.
  eapply wp_mono.
  - apply (wp_for_each_in _ _ (fun done s fx => s = a /\ applies fx = [] /\
      sent fx = (fun p => (p, PAppendEntries (ae_of e a p))) <$> done) e (env_Peers e)); [|done].
    intros done s fx p Hp (-> & Ha & Hs). apply sendAppendEntries_spec; [by apply Hn|done|].
    intros fx' Hs' Ha'. rewrite applies_app, sent_app, Ha, Ha', Hs, Hs', fmap_app.
    unfold to_peer. by rewrite decide_True.
  - intros [] s fx (-> & Ha & Hs). by apply HQ.
Qed.

Lemma sendToAll_spec `{Json} ttl pri p e a Q :
  kind_ok p ->
  (forall fx, sent fx = (fun q => (q, p)) <$> env_Peers e -> applies fx = [] -> Q tt a fx) ->
  wp False (sendToAll ttl pri (Marshal p)) e a Q.
Proof.
  intros HK HQ. unfold sendToAll. wp_step. wp_step.
  eapply wp_mono.
  - apply (wp_for_each_in _ _ (fun done s fx => s = a /\ applies fx = [] /\
      sent fx = (fun q => (q, p)) <$> done) e (env_Peers e)); [|done].
    intros done s fx q Hq (-> & Ha & Hs). wp_steps.
    rewrite app_nil_r, applies_app, sent_app, Ha, Hs, applies_sends_to, fmap_app.
    rewrite sent_sends_to by done. unfold to_peer. by rewrite decide_True.
  - intros [] s fx (-> & Ha & Hs). by apply HQ.
Qed.

(** * Elections *)

(** [for _, p := range peers { m[p] = v }] *)
Definition set_all (v : Z) (ps : list Z) (m : gmap Z Z) : gmap Z Z :=
  foldl (fun m p => <[p := v]> m) m ps.

Lemma lookup_set_all v ps m q :
  set_all v ps m !! q = if decide (q ∈ ps) then Some v else m !! q.
Proof.
  revert m. induction ps as [|p ps IH]; intros m; cbn [set_all foldl]; [done|].
  fold (set_all v ps (<[p := v]> m)). rewrite IH.
  destruct (decide (q ∈ ps)) as [Hin|Hin].
  - by rewrite decide_True by (by right).
  - destruct (decide (q = p)) as [->|Hne].
    + rewrite lookup_insert_eq, decide_True; [done|by left].
    + rewrite lookup_insert_ne, decide_False; [done|by intros [?|?]%elem_of_cons|done].
Qed.

(** The state after [becomeLeader]. *)
Definition led (e : Env) (a : Algorithm) : Algorithm :=
  set_matchIndex (set_all 0 (env_Peers e) (matchIndex a))
    (set_nextIndex (set_all (wrap 32 (zlen (log a) + 1)) (env_Peers e) (nextIndex a))
      (set_leaderID (env_ID e) (set_state stateLeader a))).

Lemma led_next e a p :
  zlen (log a) <= k_max -> p ∈ env_Peers e -> nextIndex (led e a) !! p = Some (zlen (log a) + 1).
Proof.
  unfold k_max. intros Hl Hp. cbn [led nextIndex set_matchIndex set_nextIndex].
  rewrite lookup_set_all, decide_True by done. rewrite wrap_small; [done|].
  pose proof (zlen_nonneg (log a)). unfold is_uint. lia.
Qed.

Lemma becomeLeader_spec `{Json} e a Q :
  cfg_ok (cfg a) -> zlen (log a) <= k_max ->
  (forall fx, sent fx = broadcast_of e (led e a) -> applies fx = [] -> Q tt (led e a) fx) ->
  wp False becomeLeader e a Q.
Proof.
  intros [_ Hhb] Hl HQ. unfold becomeLeader. wp_steps. cbv zeta.
  set (a1 := set_leaderID (env_ID e) (set_state stateLeader a)) in *.
  set (n := wrap 32 (zlen (log a1) + 1)) in *.
  eapply wp_mono.
  { apply (wp_for_each_in _ _ (fun done s fx => fx = [] /\
      s = set_matchIndex (set_all 0 done (matchIndex a1))
            (set_nextIndex (set_all n done (nextIndex a1)) a1)) e (env_Peers e)).
    - intros done s fx p _ (-> & ->). wp_steps. unfold set_all. by rewrite !foldl_app.
    - by destruct a. }
  intros [] s fx (-> & ->). apply wp_bind. apply wp_SetTimer; [intros _|cbn; lia].
  apply broadcastAppendEntries_spec; [|done|].
  - intros p Hp. change (nextIndex _) with (nextIndex (led e a)).
    unfold lookup0. rewrite (led_next e a p Hl Hp). cbn [default].
    pose proof (zlen_nonneg (log a)). unfold k_max in *. unfold default, id. lia.
  - intros fx Hs Ha. apply HQ; cbn; [exact Hs|exact Ha].
Qed.

(** The state after [startElection], and the request it sends. *)
Definition campaigned (e : Env) (a : Algorithm) : Algorithm :=
  set_rng (S (rng a)) (set_votesReceived 1 (set_votedFor (env_ID e)
    (set_currentTerm (currentTerm a +[32] 1) (set_state stateCandidate a)))).

Definition rv_of (e : Env) (a : Algorithm) : requestVote :=
  mkRV kindRequestVote (currentTerm a) (env_ID e) (lastLogInfo a).1 (lastLogInfo a).2.

Lemma startElection_spec `{Json} e a Q :
  cfg_ok (cfg a) ->
  (forall fx, sent fx = (fun p => (p, PRequestVote (rv_of e (campaigned e a)))) <$> env_Peers e ->
     applies fx = [] -> Q tt (campaigned e a) fx) ->
  wp False startElection e a Q.
Proof.
  intros Hc HQ. unfold startElection. wp_steps. apply resetElectionTimer_spec; [done|].
  intros d _. wp_steps. apply sendToAll_spec; [done|]. intros fx Hs Ha.
  apply HQ; cbn; [exact Hs|exact Ha].
Qed.

(** * Votes *)

Definition newer_term (t : Z) (a : Algorithm) : Algorithm :=
  if currentTerm a <? t then stepped t a else a.

(** Whether [a], already in the term of the request, grants it. *)
Definition grants (rv : requestVote) (a : Algorithm) : bool :=
  let '(lastIdx, lastTerm) := lastLogInfo a in
  (rv_Term rv =? currentTerm a) &&
  ((lastTerm <? rv_LastLogTerm rv) ||
   ((rv_LastLogTerm rv =? lastTerm) && (lastIdx <=? rv_LastLogIndex rv))) &&
  ((votedFor a =? 0) || (votedFor a =? rv_CandidateID rv)).

Definition voted (rv : requestVote) (a : Algorithm) : Algorithm :=
  if grants rv a then set_rng (S (rng a)) (set_votedFor (rv_CandidateID rv) a) else a.

Lemma newer_term_spec `{Json} t e a (Q : unit -> Algorithm -> list effect -> Prop) :
  cfg_ok (cfg a) -> (forall fx, silent fx -> Q tt (newer_term t a) fx) ->
  wp False (if currentTerm a <? t then stepDown t else mret tt) e a Q.
Proof.
  intros Hc HQ. unfold newer_term in HQ. destruct (currentTerm a <? t).
  - by apply stepDown_spec.
  - apply wp_ret. by apply HQ.
Qed.

Lemma newer_term_cfg t a : cfg (newer_term t a) = cfg a.
Proof. unfold newer_term. by destruct (_ <? _). Qed.

Lemma handleRequestVote_spec `{Json} from rv e a Q :
  cfg_ok (cfg a) ->
  (let a1 := newer_term (rv_Term rv) a in
   forall fx, sent fx = to_peer e from
     (PRequestVoteReply (mkRVR kindRequestVoteReply (currentTerm a1) (grants rv a1))) ->
     applies fx = [] -> Q tt (voted rv a1) fx) ->
  wp False (handleRequestVote from rv) e a Q.
Proof.
  intros Hc HQ. unfold handleRequestVote. wp_step. wp_step. wp_step.
  apply newer_term_spec; [done|]. intros f1 [Hs1 Ha1]. cbv zeta in HQ.
  set (a1 := newer_term (rv_Term rv) a) in *. wp_step. wp_step. cbv zeta.
  set (g := _ && _ && _).
  assert (Hg : g = grants rv a1).
  { unfold g, grants. by destruct (lastLogInfo a1). }
  clearbody g. subst g. apply wp_bind.
  apply (wp_mono _ _ _ _ (fun _ s fx => s = voted rv a1 /\ silent fx)).
  { unfold voted. destruct (grants rv a1); [|by wp_step].
    wp_steps. apply resetElectionTimer_spec.
    - cbn. unfold a1. by rewrite newer_term_cfg.
    - by intros d _. }
  intros [] s fx (-> & Hs2 & Ha2). wp_steps. apply HQ.
  - rewrite !sent_app, Hs1, Hs2, sent_sends_to by done. cbn. by rewrite !app_nil_r.
  - rewrite !applies_app, Ha1, Ha2, applies_sends_to. done.
Qed.

(** What a reply does to a node: it counts only for a candidate in its own
    term. *)
Definition counts (rvr : requestVoteReply) (a : Algorithm) : bool :=
  bool_decide (state a = stateCandidate) && (rvr_Term rvr =? currentTerm a) &&
  rvr_VoteGranted rvr.

Definition majority (e : Env) : Z := zlen (env_Peers e) `div` 2 + 1.

Lemma handleRequestVoteReply_spec `{Json} rvr e a Q :
  cfg_ok (cfg a) -> zlen (log a) <= k_max ->
  (currentTerm a < rvr_Term rvr -> forall fx, silent fx -> Q tt (stepped (rvr_Term rvr) a) fx) ->
  (rvr_Term rvr <= currentTerm a -> counts rvr a = false -> Q tt a []) ->
  (let a1 := set_votesReceived (votesReceived a + 1) a in
   counts rvr a = true ->
   (votesReceived a1 < majority e -> Q tt a1 []) /\
   (majority e <= votesReceived a1 -> forall fx, sent fx = broadcast_of e (led e a1) ->
      applies fx = [] -> Q tt (led e a1) fx)) ->
  wp False (handleRequestVoteReply rvr) e a Q.
Proof.
  intros Hc Hl Hnew Hno Hyes. unfold handleRequestVoteReply, counts in *. do 4 wp_step.
  destruct (Z.ltb_spec (currentTerm a) (rvr_Term rvr)) as [Hlt|Hge].
  { apply stepDown_spec; [done|]. auto. }
  destruct (bool_decide (state a = stateCandidate)), (rvr_Term rvr =? currentTerm a);
    cbn [negb orb andb] in *; try (wp_step; by apply Hno).
  destruct (rvr_VoteGranted rvr); [|wp_step; by apply Hno].
  destruct (Hyes eq_refl) as [Hless Hmaj]. wp_step. wp_step. cbv zeta.
  change (zlen (env_Peers e) `div` 2 + 1) with (majority e).
  destruct (Z.leb_spec (majority e) (votesReceived a + 1)).
  - apply becomeLeader_spec; [done|done|]. intros fx Hs Ha. by apply Hmaj.
  - wp_step. by apply Hless.
Qed.

(** * Committing and applying *)

(** Entries of [l] with the indices [lo + 1], [lo + 2], ... *)
Definition numbered (lo : Z) (l : list LogEntry) : list (Z * bytes) :=
  imap (fun i x => (lo + 1 + Z.of_nat i, le_Command x)) l.

Lemma numbered_cons lo x l : numbered lo (x :: l) = (lo + 1, le_Command x) :: numbered (lo + 1) l.
Proof.
  unfold numbered. rewrite imap_cons. f_equal; [f_equal; lia|].
  apply imap_ext. intros i y _. unfold compose. f_equal. lia.
Qed.

(** The entries at the positions [lo + 1 .. hi]. *)
Definition between (lo hi : Z) (l : list LogEntry) : list LogEntry :=
  take (Z.to_nat (hi - lo)) (drop (Z.to_nat lo) l).

Lemma between_cons lo hi l x :
  0 <= lo < hi -> l !! Z.to_nat lo = Some x -> between lo hi l = x :: between (lo + 1) hi l.
Proof.
  intros Hlo Hx. unfold between. rewrite (drop_S _ x) by done.
  replace (Z.to_nat (hi - lo)) with (S (Z.to_nat (hi - (lo + 1)))) by lia.
  replace (Z.to_nat (lo + 1)) with (S (Z.to_nat lo)) by lia. done.
Qed.

Lemma between_nil lo hi l : hi <= lo -> between lo hi l = [].
Proof. intros. unfold between. by replace (Z.to_nat (hi - lo)) with 0%nat by lia. Qed.

Definition applied (a : Algorithm) : Algorithm :=
  set_lastApplied (Z.max (lastApplied a) (commitIndex a)) a.

(** What the callback is given by [applyCommitted]. *)
Definition to_apply (a : Algorithm) : list (Z * bytes) :=
  if applyCb a then numbered (lastApplied a) (between (lastApplied a) (commitIndex a) (log a))
  else [].

Lemma applied_id a : commitIndex a <= lastApplied a -> applied a = a /\ to_apply a = [].
Proof.
  intros Hle. unfold applied, to_apply. rewrite between_nil by done.
  rewrite Z.max_l by done. destruct a; cbn. by destruct applyCb.
Qed.

Lemma applyCommitted_loop_spec `{Json} fuel e a Q :
  Z.of_nat fuel = Z.max 0 (commitIndex a - lastApplied a) ->
  0 <= lastApplied a -> commitIndex a <= zlen (log a) <= k_max ->
  (forall fx, sent fx = [] -> applies fx = to_apply a -> Q tt (applied a) fx) ->
  wp False (applyCommitted_loop fuel) e a Q.
Proof.
  unfold k_max. revert a Q. induction fuel as [|fuel IH]; intros a Q Hf Hla Hc HQ.
  - cbn [applyCommitted_loop]. wp_step. destruct (applied_id a) as [E1 E2]; [lia|].
    rewrite <- E1. by apply HQ; [|rewrite E2].
  - cbn [applyCommitted_loop]. wp_step. wp_step. destruct (Z.ltb_spec (lastApplied a) (commitIndex a)); [|lia].
    wp_step. wp_step. apply wp_bind. rewrite !(wrap_small _ (lastApplied a + 1)) by (unfold is_uint; lia).
    set (a1 := set_lastApplied (lastApplied a + 1) a).
    destruct (index_in_range (lastApplied a) (log a)) as (x & Hx & Hlk); [lia|].
    apply (wp_mono _ _ _ _ (fun _ s fx => s = a1 /\ sent fx = [] /\
      applies fx = if applyCb a then [(lastApplied a + 1, le_Command x)] else [])).
    { destruct (applyCb a); [|by wp_step]. wp_step. apply wp_lift.
      replace (wrap 32 (lastApplied a + 1 - 1)) with (lastApplied a)
        by (rewrite wrap_small; unfold is_uint; lia).
      rewrite Hx. by wp_steps. }
    intros [] s fx (-> & Hs & Ha). apply IH; [cbn; lia|cbn; lia|done|].
    intros fx' Hs' Ha'. cbn beta.
    assert (Eap : applied a1 = applied a).
    { change (set_lastApplied (Z.max (lastApplied a + 1) (commitIndex a)) a = applied a).
      unfold applied. by rewrite !Z.max_r by lia. }
    rewrite Eap.
    apply HQ; [by rewrite !sent_app, Hs, Hs'|].
    rewrite !applies_app, Ha, Ha'. unfold to_apply, a1. cbn. destruct (applyCb a); [|done].
    by rewrite (between_cons (lastApplied a) (commitIndex a) (log a) x), numbered_cons by done.
Qed.

Lemma applyCommitted_spec `{Json} e a Q :
  0 <= lastApplied a -> commitIndex a <= zlen (log a) <= k_max ->
  (forall fx, sent fx = [] -> applies fx = to_apply a -> Q tt (applied a) fx) ->
  wp False applyCommitted e a Q.
Proof.
  intros. unfold applyCommitted. wp_step. wp_step. apply applyCommitted_loop_spec; [lia|done..].
Qed.

(** Whether index [n] is replicated on a majority by the leader's count. *)
Definition has_quorum (e : Env) (n : Z) (a : Algorithm) : bool :=
  (zlen (env_Peers e) + 1) `div` 2 <? 1 + count_match n (matchIndex a).

(** The index [maybeCommit] commits, if any: going down from [n], the first
    one with a quorum, within the entries of the current term. *)
Definition may_commit (e : Env) (a : Algorithm) (n : Z) : Prop :=
  commitIndex a < n <= zlen (log a) /\ term_at (log a) n = currentTerm a /\ has_quorum e n a = true.

Lemma maybeCommit_loop_spec `{Json} fuel n e a Q :
  Z.of_nat fuel = Z.max 0 n -> n <= zlen (log a) <= k_max -> 0 <= commitIndex a -> 0 <= lastApplied a ->
  Q tt a [] ->
  (forall m, may_commit e a m -> forall fx, sent fx = [] ->
     applies fx = to_apply (set_commitIndex m a) -> Q tt (applied (set_commitIndex m a)) fx) ->
  wp False (maybeCommit_loop fuel n) e a Q.
Proof.
  unfold k_max. revert n. induction fuel as [|fuel IH]; intros n Hf Hn Hc Hla Hno Hyes;
    cbn [maybeCommit_loop]; [by wp_step|].
  do 4 wp_step. destruct (Z.ltb_spec (commitIndex a) n); [|by wp_step].
  wp_step. apply wp_lift. rewrite wrap_small by (unfold is_uint; lia).
  destruct (index_in_range (n - 1) (log a)) as (x & Hx & _); [lia|]. rewrite Hx.
  destruct (Z.eqb_spec (le_Term x) (currentTerm a)) as [Ht|]; cbn [negb]; [|by wp_step].
  fold (has_quorum e n a). destruct (has_quorum e n a) eqn:Eq.
  - wp_step. wp_step. apply applyCommitted_spec; [done|cbn; unfold k_max; lia|].
    intros fx Hs Ha. apply (Hyes n); [|done..]. split_and!; [lia|lia| |done].
    rewrite (index_term_at _ _ x); [done|lia|done].
  - apply IH; [lia|lia|done..].
Qed.

Lemma maybeCommit_spec `{Json} e a Q :
  zlen (log a) <= k_max -> 0 <= commitIndex a -> 0 <= lastApplied a -> Q tt a [] ->
  (forall m, may_commit e a m -> forall fx, sent fx = [] ->
     applies fx = to_apply (set_commitIndex m a) -> Q tt (applied (set_commitIndex m a)) fx) ->
  wp False maybeCommit e a Q.
Proof.
  intros Hl Hc Hla Hno Hyes. unfold maybeCommit. wp_step. wp_step.
  pose proof (zlen_nonneg (log a)) as Hge. unfold k_max in *.
  rewrite wrap_small by (unfold is_uint; lia).
  apply maybeCommit_loop_spec; [lia|unfold k_max; lia|done..].
Qed.

(** * Appending entries *)

(** Reference definition of the append loop: entries that agree in term are
    kept, the first that disagrees replaces everything after it. *)
Fixpoint merge_entries (es suffix : list LogEntry) : list LogEntry :=
  match es, suffix with
  | [], _ => suffix
  | _, [] => es
  | e :: es', x :: s' =>
      if le_Term x =? le_Term e then x :: merge_entries es' s' else es
  end.

Definition merged (prev : Z) (es l : list LogEntry) : list LogEntry :=
  take (Z.to_nat prev) l ++ merge_entries es (drop (Z.to_nat prev) l).

Lemma merge_entries_nil_r es : merge_entries es [] = es.
Proof. by destruct es. Qed.

Lemma merged_cons_keep n x e es l :
  l !! n = Some x -> le_Term x = le_Term e ->
  merged (Z.of_nat n) (e :: es) l = merged (Z.of_nat (S n)) es l.
Proof.
  intros Hx Ht. unfold merged. rewrite !Nat2Z.id, (drop_S _ _ _ Hx), (take_S_r _ _ _ Hx).
  cbn [merge_entries]. by rewrite Ht, Z.eqb_refl, <- (assoc_L app).
Qed.

Lemma merged_cons_cut n x e es l :
  l !! n = Some x -> le_Term x <> le_Term e ->
  merged (Z.of_nat n) (e :: es) l = merged (Z.of_nat (S n)) es (take n l ++ [e]).
Proof.
  intros Hx Ht. pose proof (lookup_lt_Some _ _ _ Hx) as Hlt. unfold merged.
  rewrite !Nat2Z.id, (drop_S _ _ _ Hx). cbn [merge_entries].
  rewrite (proj2 (Z.eqb_neq _ _) Ht). 
  rewrite (drop_ge (_ ++ [e])), (take_ge (_ ++ [e])) by (rewrite length_app, length_take; cbn; lia).
  by rewrite merge_entries_nil_r, <- (assoc_L app).
Qed.

Lemma merged_end e es l :
  merged (zlen l) (e :: es) l = merged (zlen l + 1) es (l ++ [e]).
Proof.
  unfold merged, zlen. rewrite !drop_ge, !take_ge by (rewrite ?length_app; cbn; lia).
  by rewrite !merge_entries_nil_r, <- (assoc_L app).
Qed.

Lemma append_new_merged ins i es l :
  0 <= ins -> 0 <= i -> ins + i <= zlen l -> zlen l <= k_max -> ins + i + zlen es <= k_max ->
  append_new ins i es l = Ret (merged (ins + i) es l).
Proof.
  unfold k_max. revert i l. induction es as [|e es IH]; intros i l Hins Hi Hl Hk He.
  { unfold merged. cbn [append_new merge_entries]. by rewrite take_drop. }
  rewrite zlen_cons in He. pose proof (zlen_nonneg es). cbn [append_new].
  rewrite (wrap_small _ (ins + i)), (wrap_small _ (zlen l)) by (unfold is_uint; lia).
  destruct (Z.ltb_spec (ins + i) (zlen l)) as [Hlt|Hge].
  - destruct (index_in_range (ins + i) l) as (x & Hx & Hlk); [lia|]. rewrite Hx, bind_Ret.
    replace (ins + i) with (Z.of_nat (Z.to_nat (ins + i))) by lia.
    destruct (Z.eqb_spec (le_Term x) (le_Term e)) as [Ht|Ht]; cbn [negb].
    + rewrite (merged_cons_keep _ x) by done. rewrite IH by lia. do 2 f_equal. lia.
    + rewrite slice_to_ok by (unfold zlen in *; lia). rewrite bind_Ret.
      rewrite (merged_cons_cut _ x) by done. rewrite Nat2Z.id.
      assert (zlen (take (Z.to_nat (ins + i)) l ++ [e]) = ins + i + 1).
      { unfold zlen in *. rewrite length_app, length_take. cbn. lia. }
      rewrite IH by lia. do 2 f_equal. lia.
  - replace (ins + i) with (zlen l) by lia. rewrite merged_end.
    assert (zlen (l ++ [e]) = zlen l + 1) by (rewrite zlen_app; done).
    rewrite IH by lia. do 2 f_equal. lia.
Qed.

Lemma merge_entries_length es s :
  (length (merge_entries es s) <= length es `max` length s)%nat.
Proof.
  revert s. induction es as [|e es IH]; intros [|x s]; cbn; try lia.
  destruct (_ =? _); cbn; [specialize (IH s); lia|lia].
Qed.

Lemma merged_length prev es l :
  0 <= prev <= zlen l -> zlen (merged prev es l) <= Z.max (zlen l) (prev + zlen es).
Proof.
  unfold merged, zlen. intros Hp.
  pose proof (merge_entries_length es (drop (Z.to_nat prev) l)) as Hm.
  rewrite length_drop in Hm. rewrite length_app, length_take. lia.
Qed.

(** The consistency check of AppendEntries. *)
Definition prev_ok (ae : appendEntries) (l : list LogEntry) : bool :=
  (ae_PrevLogIndex ae <=? 0) ||
  ((ae_PrevLogIndex ae <=? zlen l) && (term_at l (ae_PrevLogIndex ae) =? ae_PrevLogTerm ae)).

(** The state after accepting the sender as leader, and after its entries. *)
Definition heard (t : Z) (a : Algorithm) : Algorithm :=
  if currentTerm a <? t then stepped t a else set_rng (S (rng a)) (set_state stateFollower a).

Definition contacted (ae : appendEntries) (a : Algorithm) : Algorithm :=
  set_leaderID (ae_LeaderID ae) (heard (ae_Term ae) a).

Definition appended (ae : appendEntries) (a : Algorithm) : Algorithm :=
  set_log (merged (ae_PrevLogIndex ae) (ae_Entries ae) (log a)) a.

Definition learn_commit (lc : Z) (a : Algorithm) : Algorithm :=
  if commitIndex a <? lc then set_commitIndex (Z.min lc (zlen (log a))) a else a.

Definition reply_to (a : Algorithm) (ok : bool) (mi : Z) : payload :=
  PAppendReply (mkAR kindAppendReply (currentTerm a) ok mi).

Lemma sendAppendReply_spec `{Json} to r e a Q :
  kind_ok (PAppendReply r) ->
  (forall fx, sent fx = to_peer e to (PAppendReply r) -> applies fx = [] -> Q tt a fx) ->
  wp False (sendAppendReply to r) e a Q.
Proof.
  intros HK HQ. unfold sendAppendReply. wp_steps. rewrite app_nil_r. apply HQ.
  - by rewrite app_nil_l, sent_sends_to.
  - by rewrite app_nil_l, applies_sends_to.
Qed.

Lemma contacted_log ae a : log (contacted ae a) = log a.
Proof. unfold contacted, heard. by destruct (_ <? _). Qed.
Lemma contacted_commit ae a : commitIndex (contacted ae a) = commitIndex a.
Proof. unfold contacted, heard. by destruct (_ <? _). Qed.
Lemma contacted_applied ae a : lastApplied (contacted ae a) = lastApplied a.
Proof. unfold contacted, heard. by destruct (_ <? _). Qed.

(** Bounds on a payload. *)
Definition payload_wf (k : Z) (p : payload) : Prop :=
  kind_ok p /\
  match p with
  | PRequestVote rv => 0 <= rv_Term rv <= k
  | PRequestVoteReply rvr => 0 <= rvr_Term rvr <= k
  | PAppendEntries ae => 0 <= ae_Term ae <= k /\ 0 <= ae_PrevLogIndex ae /\
      ae_PrevLogIndex ae + zlen (ae_Entries ae) <= k /\ 0 <= ae_LeaderCommit ae <= k
  | PAppendReply ar => 0 <= ar_Term ar <= k /\ 0 <= ar_MatchIndex ar <= k
  end.

Lemma prev_check_spec `{Json} ae e a (Q : bool -> Algorithm -> list effect -> Prop) :
  0 <= ae_PrevLogIndex ae -> zlen (log a) <= k_max ->
  Q (negb (prev_ok ae (log a))) a [] ->
  wp False (if 0 <? ae_PrevLogIndex ae then
              if wrap 32 (zlen (log a)) <? ae_PrevLogIndex ae then mret true
              else x ← lift (index (ae_PrevLogIndex ae -[32] 1) (log a));
                   mret (negb (le_Term x =? ae_PrevLogTerm ae))
            else mret false) e a Q.
Proof.
  unfold k_max, prev_ok. intros Hp Hl HQ. pose proof (zlen_nonneg (log a)).
  destruct (Z.ltb_spec 0 (ae_PrevLogIndex ae)); destruct (Z.leb_spec (ae_PrevLogIndex ae) 0);
    try lia; [|by wp_step].
  rewrite wrap_small by (unfold is_uint; lia). cbn [orb] in HQ.
  destruct (Z.ltb_spec (zlen (log a)) (ae_PrevLogIndex ae));
    destruct (Z.leb_spec (ae_PrevLogIndex ae) (zlen (log a))); try lia; cbn [andb] in HQ;
    [by wp_step|].
  wp_step. apply wp_lift. rewrite wrap_small by (unfold is_uint; lia).
  destruct (index_in_range (ae_PrevLogIndex ae - 1) (log a)) as (x & Hx & _); [lia|]. rewrite Hx.
  rewrite (index_term_at _ _ x) in HQ by done. by wp_step.
Qed.

Lemma heard_spec `{Json} t e a Q :
  cfg_ok (cfg a) -> (forall fx, silent fx -> Q tt (heard t a) fx) ->
  wp False (if currentTerm a <? t then stepDown t
            else modify (set_state stateFollower);; resetElectionTimer) e a Q.
Proof.
  unfold heard. intros Hc HQ. destruct (currentTerm a <? t).
  - by apply stepDown_spec.
  - wp_steps. apply resetElectionTimer_spec; [done|]. intros d _. by apply HQ.
Qed.

(** Advancing the commit index and applying. *)
Lemma learn_commit_spec `{Json} lc e a Q :
  0 <= commitIndex a <= lastApplied a -> zlen (log a) <= k_max ->
  (forall fx, sent fx = [] -> applies fx = to_apply (learn_commit lc a) ->
     Q tt (applied (learn_commit lc a)) fx) ->
  wp False (if commitIndex a <? lc then
              modify (set_commitIndex (if lc <? wrap 32 (zlen (log a)) then lc
                                       else wrap 32 (zlen (log a))));; applyCommitted
            else mret tt) e a Q.
Proof.
  unfold learn_commit. intros Hc Hl HQ. pose proof (zlen_nonneg (log a)).
  destruct (Z.ltb_spec (commitIndex a) lc).
  - wp_step. wp_step. rewrite wrap_small by (unfold is_uint, k_max in *; lia).
    replace (if lc <? zlen (log a) then lc else zlen (log a)) with (Z.min lc (zlen (log a)))
      by (destruct (Z.ltb_spec lc (zlen (log a))); lia).
    apply applyCommitted_spec; [cbn; lia|cbn; lia|]. intros fx Hs Ha. by apply HQ.
  - wp_step. destruct (applied_id a) as [E1 E2]; [lia|]. rewrite E1, E2 in HQ. by apply HQ.
Qed.

Lemma handleAppendEntries_spec `{Json} k from ae e a Q :
  wf k e a -> k <= k_max -> payload_wf k (PAppendEntries ae) ->
  (ae_Term ae < currentTerm a -> forall fx,
     sent fx = to_peer e from (reply_to a false 0) -> applies fx = [] -> Q tt a fx) ->
  (let a1 := contacted ae a in
   currentTerm a <= ae_Term ae ->
   (prev_ok ae (log a) = false -> forall fx,
      sent fx = to_peer e from (reply_to a false 0) -> applies fx = [] -> Q tt a1 fx) /\
   (prev_ok ae (log a) = true ->
    let a2 := learn_commit (ae_LeaderCommit ae) (appended ae a1) in forall fx,
      sent fx = to_peer e from (reply_to a true (zlen (log a2))) -> applies fx = to_apply a2 ->
      Q tt (applied a2) fx)) ->
  wp False (handleAppendEntries from ae) e a Q.
Proof.
  intros Hw Hk (HK & Ht & Hp & He & Hlc) Hold Hnew. unfold handleAppendEntries.
  wp_step. wp_step. cbv zeta. destruct (Z.ltb_spec (ae_Term ae) (currentTerm a)) as [Hlt|Hge].
  { apply sendAppendReply_spec; [done|]. intros fx Hs Ha. by apply Hold. }
  specialize (Hnew ltac:(lia)) as [Hno Hyes]. pose proof (wf_len _ _ _ Hw) as Hlen.
  pose proof (wf_commit _ _ _ Hw). wp_step. apply heard_spec; [apply Hw|]. intros f1 [Hs1 Ha1].
  wp_step. wp_step. fold (contacted ae a). set (a1 := contacted ae a) in *. wp_step. wp_step.
  assert (Hl1 : log a1 = log a) by apply contacted_log.
  wp_step. apply prev_check_spec; [done|rewrite Hl1; lia|]. rewrite Hl1.
  destruct (prev_ok ae (log a)) eqn:Ep; cbn [negb].
  2: { apply sendAppendReply_spec; [done|]. intros fx Hs Ha. apply Hno; [done|..].
       - by rewrite !sent_app, Hs1, Hs.
       - by rewrite !applies_app, Ha1, Ha. }
  assert (Hprev : ae_PrevLogIndex ae <= zlen (log a)).
  { unfold prev_ok in Ep. pose proof (zlen_nonneg (log a)). lia. }
  pose proof (zlen_nonneg (ae_Entries ae)).
  wp_step. apply wp_lift. rewrite append_new_merged by lia. rewrite Z.add_0_r.
  pose proof (merged_length (ae_PrevLogIndex ae) (ae_Entries ae) (log a) ltac:(lia)) as Hml.
  wp_step. wp_step. wp_step. rewrite <- Hl1.
  change (merged _ _ (log a1)) with (log (appended ae a1)).
  change (set_log (log (appended ae a1)) a1) with (appended ae a1).
  change (commitIndex a1) with (commitIndex (appended ae a1)).
  assert (Hb : 0 <= zlen (log (appended ae a1)) <= k_max).
  { split; [apply zlen_nonneg|]. cbn [appended log set_log]. rewrite Hl1. lia. }
  apply learn_commit_spec.
  { change (commitIndex (appended ae a1)) with (commitIndex a1).
    change (lastApplied (appended ae a1)) with (lastApplied a1).
    unfold a1. by rewrite contacted_commit, contacted_applied. }
  { lia. }
  intros f2 Hs2 Ha2. apply sendAppendReply_spec; [done|]. intros f3 Hs3 Ha3. apply Hyes; [done|..].
  - rewrite !sent_app, Hs1, Hs2, Hs3. cbn [app]. unfold reply_to. do 3 f_equal.
    rewrite wrap_small by (unfold is_uint, k_max in *; lia).
    unfold learn_commit. by case_match.
  - rewrite !applies_app, Ha1, Ha2, Ha3. by rewrite app_nil_r.
Qed.

(** * Replies to AppendEntries *)

(** The leader's bookkeeping for a successful reply. *)
Definition acknowledged (from : Z) (ar : appendReply) (a : Algorithm) : Algorithm :=
  set_nextIndex (<[from := ar_MatchIndex ar + 1]> (nextIndex a))
    (set_matchIndex (<[from := ar_MatchIndex ar]> (matchIndex a)) a).

(** ... and for a failed one. *)
Definition backed_off (from : Z) (a : Algorithm) : Algorithm :=
  if 1 <? lookup0 (nextIndex a) from
  then set_nextIndex (<[from := lookup0 (nextIndex a) from - 1]> (nextIndex a)) a
  else a.

Lemma handleAppendReply_spec `{Json} k from ar e a Q :
  wf k e a -> k <= k_max -> payload_wf k (PAppendReply ar) -> from ∈ env_Peers e ->
  (currentTerm a < ar_Term ar -> forall fx, silent fx -> Q tt (stepped (ar_Term ar) a) fx) ->
  (ar_Term ar <= currentTerm a -> state a <> stateLeader -> Q tt a []) ->
  (ar_Term ar <= currentTerm a -> state a = stateLeader ->
   (ar_Success ar = true -> let a1 := acknowledged from ar a in
      Q tt a1 [] /\
      (forall m, may_commit e a1 m -> forall fx, sent fx = [] ->
         applies fx = to_apply (set_commitIndex m a1) ->
         Q tt (applied (set_commitIndex m a1)) fx)) /\
   (ar_Success ar = false -> let a1 := backed_off from a in
      forall fx, sent fx = to_peer e from (PAppendEntries (ae_of e a1 from)) ->
        applies fx = [] -> Q tt a1 fx)) ->
  wp False (handleAppendReply from ar) e a Q.
Proof.
  intros Hw Hk (_ & Ht & Hmi) Hfrom Hnew Hno Hlead. unfold handleAppendReply. wp_step. wp_step.
  pose proof (wf_len _ _ _ Hw). pose proof (wf_commit _ _ _ Hw). unfold k_max in *.
  destruct (Z.ltb_spec (currentTerm a) (ar_Term ar)).
  { apply stepDown_spec; [apply Hw|auto]. }
  destruct (bool_decide_reflect (state a = stateLeader)) as [Hst|Hst]; cbn [negb];
    [|wp_step; by apply Hno].
  destruct (Hlead ltac:(lia) Hst) as [Hok Hfail]. destruct (ar_Success ar).
  - destruct (Hok eq_refl) as [Hq1 Hq2]. do 4 wp_step.
    rewrite wrap_small by (unfold is_uint; lia).
    change (set_nextIndex _ _) with (acknowledged from ar a).
    apply maybeCommit_spec; unfold k_max; cbn; [lia|lia|lia|done|].
    intros m Hm fx Hs Ha. by apply Hq2.
  - pose proof (wf_next_lookup0 _ _ _ from Hw (wf_lead _ _ _ Hw Hst from Hfrom)) as Hi.
    apply wp_bind. apply (wp_mono _ _ _ _ (fun _ s fx => s = backed_off from a /\ fx = [])).
    { unfold backed_off. destruct (1 <? _); wp_step; [|done].
      by rewrite wrap_small by (unfold is_uint; lia). }
    intros [] s fx (-> & ->). apply sendAppendEntries_spec; unfold k_max.
    + unfold backed_off. set (i := lookup0 (nextIndex a) from) in *.
      destruct (Z.ltb_spec 1 i); [|unfold i in *; lia].
      unfold lookup0. cbn. rewrite lookup_insert_eq. cbn. lia.
    + unfold backed_off. destruct (1 <? _); cbn; lia.
    + intros fx Hs Ha. rewrite app_nil_l. by apply Hfail.
Qed.

(** * The interface *)

Lemma Propose_spec `{Json} k command e a (Q : bool -> Algorithm -> list effect -> Prop) :
  wf k e a -> k < k_max ->
  (state a <> stateLeader -> Q false a []) ->
  (let a1 := set_log (log a ++ [mkEntry (currentTerm a) command]) a in
   state a = stateLeader ->
   forall fx, sent fx = broadcast_of e a1 -> applies fx = [] -> Q true a1 fx) ->
  wp False (Propose command) e a Q.
Proof.
  intros Hw Hk Hno Hyes. unfold Propose. wp_step. wp_step. pose proof (wf_len _ _ _ Hw).
  destruct (bool_decide_reflect (state a = stateLeader)) as [Hst|Hst]; cbn [negb];
    [|wp_step; by apply Hno].
  do 3 wp_step. apply broadcastAppendEntries_spec.
  - intros p Hp. pose proof (wf_next_lookup0 _ _ _ p Hw (wf_lead _ _ _ Hw Hst p Hp)). cbn. lia.
  - cbn. rewrite zlen_app. change (zlen [_]) with 1. lia.
  - intros fx Hs Ha. wp_step. rewrite !app_nil_r, !app_nil_l. by apply Hyes.
Qed.

Lemma OnTick_spec `{Json} k name e a Q :
  wf k e a -> k <= k_max ->
  (name = timerElection -> forall fx,
     sent fx = (fun p => (p, PRequestVote (rv_of e (campaigned e a)))) <$> env_Peers e ->
     applies fx = [] -> Q tt (campaigned e a) fx) ->
  (state a = stateLeader -> forall fx, sent fx = broadcast_of e a -> applies fx = [] -> Q tt a fx) ->
  Q tt a [] ->
  wp False (OnTick name) e a Q.
Proof.
  intros Hw Hk Hel Hhb Hno. unfold OnTick. pose proof (wf_len _ _ _ Hw).
  case_decide; [apply startElection_spec; [apply Hw|auto]|].
  case_decide; [|by wp_step]. wp_step. wp_step.
  destruct (bool_decide_reflect (state a = stateLeader)) as [Hst|Hst]; [|by wp_step].
  apply broadcastAppendEntries_spec; [|lia|].
  - intros p Hp. pose proof (wf_next_lookup0 _ _ _ p Hw (wf_lead _ _ _ Hw Hst p Hp)). lia.
  - intros fx Hs Ha. by apply Hhb.
Qed.
