(* ===== verification/RaftNet.v ===== *)
(** RaftNet: a cluster of Raft nodes on an unreliable network, as a step
    relation and as an executable run, with the history that its properties
    are about.

    A step is one handler invocation on one node: the delivery of a message in
    flight, a timer tick, a proposal, or the start of a node.  Messages can be
    lost (they are never delivered) and reordered, and each is delivered at most
    once: that is what the router's duplicate window provides.  Any timer may
    tick at any time. *)
From S2P Require Export RaftFacts.

(** * Worlds *)

(** All fields but [w_nodes] and [w_net] are history: every message delivered
    so far, every (voter, term, candidate), (term, leader) and (term, log of
    the leader) observed after a step, and every (node, index, command) given
    to a callback. *)
Record World := mkWorld {
  w_nodes : gmap Z Algorithm;
  w_net : list WireMessage;
  w_delivered : list WireMessage;
  w_votes : list (Z * Z * Z);
  w_leaders : list (Z * Z);
  w_leader_logs : list (Z * list LogEntry);
  w_applied : list (Z * (Z * bytes));
}.

Definition vote_of (v : Z) (a : Algorithm) : list (Z * Z * Z) :=
  if decide (votedFor a = 0) then [] else [(v, currentTerm a, votedFor a)].
Definition leader_of (v : Z) (a : Algorithm) : list (Z * Z) :=
  if decide (state a = stateLeader) then [(currentTerm a, v)] else [].
Definition leader_log_of (a : Algorithm) : list (Z * list LogEntry) :=
  if decide (state a = stateLeader) then [(currentTerm a, log a)] else [].

Definition packets (v : Z) (fx : list effect) : list WireMessage :=
  omap (fun x => match x with ESend to m => Some (address v to m) | _ => None end) fx.

(** The world after node [v] has run a handler. *)
Definition after (v : Z) (a' : Algorithm) (fx : list effect)
    (net' delivered' : list WireMessage) (w : World) : World :=
  mkWorld (<[v := a']> (w_nodes w)) (net' ++ packets v fx) delivered'
    (w_votes w ++ vote_of v a') (w_leaders w ++ leader_of v a')
    (w_leader_logs w ++ leader_log_of a')
    (w_applied w ++ ((fun x => (v, x)) <$> applies fx)).

Lemma after_node {v a' fx net' delivered' w u b} :
  w_nodes (after v a' fx net' delivered' w) !! u = Some b ->
  (u = v /\ b = a') \/ (u <> v /\ w_nodes w !! u = Some b).
Proof.
  cbn. destruct (decide (u = v)) as [->|Hne].
  - rewrite lookup_insert_eq. intros [= <-]. by left.
  - rewrite lookup_insert_ne by done. by right.
Qed.

Section net.
Context `{Json} (ids : list Z).

Definition others (v : Z) : list Z := filter (fun u => u <> v) ids.

(** The environment of an invocation on [v]: its peers are the others, in some order. *)
Definition env_ok (v : Z) (e : Env) : Prop := env_ID e = v /\ env_Peers e ≡ₚ others v.

Lemma zlen_others v : NoDup ids -> v ∈ ids -> zlen (others v) = zlen ids - 1.
Proof.
  intros Hnd (l1 & l2 & E)%list_elem_of_split. unfold others. rewrite E in Hnd |- *.
  apply NoDup_app in Hnd as (_ & H1 & [H2 _]%NoDup_cons).
  rewrite filter_app, filter_cons, decide_False by tauto.
  assert (Hall : forall l : list Z, v ∉ l -> filter (fun u => u <> v) l = l).
  { intros l. induction l as [|x l IH]; intros Hl; [done|].
    rewrite filter_cons, decide_True, IH; set_solver. }
  rewrite !Hall; [|done|intros Hin; apply (H1 v Hin); left]. zlia.
Qed.

(** The handler a step runs, on which node, and what is then in flight and delivered. *)
Inductive event (w : World) : Z -> cmd unit -> list WireMessage -> list WireMessage -> Prop :=
  | ev_deliver m n1 n2 :
      w_net w = n1 ++ m :: n2 ->
      event w (To m) (OnMessage m) (n1 ++ n2) (w_delivered w ++ [m])
  | ev_tick v name : event w v (OnTick name) (w_net w) (w_delivered w)
  | ev_propose v command :
      event w v (Propose command;; mret tt) (w_net w) (w_delivered w)
  | ev_start v : event w v Start (w_net w) (w_delivered w).

Inductive step (w : World) : World -> Prop :=
  | step_handler v h net' delivered' e a a' fx :
      event w v h net' delivered' -> w_nodes w !! v = Some a -> env_ok v e ->
      h e a = Ret (tt, a', fx) ->
      step w (after v a' fx net' delivered' w).

Definition init (c : RaftConfig) (cb : bool) : World :=
  mkWorld (list_to_map ((fun v => (v, New c cb)) <$> ids)) [] [] [] [] [] [].

(** Worlds reachable in [n] steps. *)
Definition reach (c : RaftConfig) (cb : bool) (n : nat) (w : World) : Prop :=
  nsteps step n (init c cb) w.

(** * Running a schedule *)

Inductive action : Type :=
  | Deliver (i : nat)
  | Tick (v : Z) (name : string)
  | ProposeAt (v : Z) (command : bytes).

Definition env_at (v : Z) : Env := mkEnv v (others v) 0 (fun _ => 0).

Definition run_on (v : Z) (h : cmd unit) (net' delivered' : list WireMessage) (w : World)
    : option World :=
  match w_nodes w !! v with
  | Some a =>
      match h (env_at v) a with
      | Ret (_, a', fx) => Some (after v a' fx net' delivered' w)
      | Panic _ => None
      end
  | None => None
  end.

Definition exec (act : action) (w : World) : option World :=
  match act with
  | Deliver i =>
      match w_net w !! i with
      | Some m => run_on (To m) (OnMessage m) (delete i (w_net w)) (w_delivered w ++ [m]) w
      | None => None
      end
  | Tick v name => run_on v (OnTick name) (w_net w) (w_delivered w) w
  | ProposeAt v command => run_on v (Propose command;; mret tt) (w_net w) (w_delivered w) w
  end.

Fixpoint exec_all (acts : list action) (w : World) : option World :=
  match acts with
  | [] => Some w
  | act :: acts' => w' ← exec act w; exec_all acts' w'
  end.

Lemma run_on_step w v h net' delivered' w' :
  event w v h net' delivered' -> run_on v h net' delivered' w = Some w' -> step w w'.
Proof.
  unfold run_on. intros Hev E. destruct (w_nodes w !! v) as [a|] eqn:Ea; [|done].
  destruct (h (env_at v) a) as [[[[] a'] fx]|] eqn:Eh; [|done]. injection E as <-.
  by apply (step_handler w v h net' delivered' (env_at v) a a' fx).
Qed.

Lemma exec_step act w w' : exec act w = Some w' -> step w w'.
Proof.
  destruct act as [i|v name|v c]; cbn.
  - destruct (w_net w !! i) as [m|] eqn:Em; [|done]. apply run_on_step.
    rewrite delete_take_drop. constructor. symmetry. by apply take_drop_middle.
  - apply run_on_step. constructor.
  - apply run_on_step. constructor.
Qed.

Lemma exec_all_steps acts w w' :
  exec_all acts w = Some w' -> nsteps step (length acts) w w'.
Proof.
  revert w. induction acts as [|act acts IH]; intros w; cbn.
  - intros [= ->]. constructor.
  - destruct (exec act w) as [w1|] eqn:E1; [|done]. intros E. econstructor; [by eapply exec_step|].
    by apply IH.
Qed.

(** * The messages in flight, as payloads *)

Lemma decode_address v to m : decode (address v to m) = decode m.
Proof. done. Qed.

(** A message and its payload. *)
Definition carries (m : WireMessage) (p : payload) : Prop := decode m = Some p.

Lemma elem_of_packets v fx m p :
  m ∈ packets v fx -> carries m p -> From m = v /\ (To m, p) ∈ sent fx.
Proof.
  intros (x & Hx & E)%list_elem_of_omap Hd. destruct x as [to m0| | |]; try done.
  injection E as <-. split; [done|]. apply list_elem_of_omap. exists (ESend to m0).
  split; [done|]. unfold carries in Hd. rewrite decode_address in Hd. cbn. by rewrite Hd.
Qed.

(** Reading something off the messages in flight is reading it off what was sent. *)
Lemma omap_packets {A} v fx (f : Z -> Z -> payload -> option A) :
  omap (fun m => p ← decode m; f (From m) (To m) p) (packets v fx) =
  omap (fun x => f v x.1 x.2) (sent fx).
Proof.
  unfold packets, sent. induction fx as [|x fx IH]; [done|].
  destruct x as [to m| | |]; cbn; try done. rewrite decode_address.
  destruct (decode m) as [p|]; cbn; [|done]. by destruct (f v to p); rewrite IH.
Qed.

End net.
