(* ===== verification/RaftBounds.v ===== *)
(** RaftBounds: every reachable world keeps the bounds of [wf], so that no Raft
    handler panics: terms and log lengths are at most the number of steps, and
    fewer than 2^32 - 2 steps are taken. *)
From S2P Require Export RaftNet.

Definition out_ok `{Json} (k : Z) (e : Env) (fx : list effect) : Prop :=
  Forall (fun x : Z * payload => x.1 ∈ env_Peers e /\ payload_wf k x.2) (sent fx).

(** * Bounds kept by the state functions *)
Section states.
Implicit Types (k : Z) (e : Env) (a : Algorithm).

Lemma wf_mono k k' e a : k <= k' -> wf k e a -> wf k' e a.
Proof.
  intros Hk []; constructor; [done|lia|lia|lia|lia| |done].
  intros p i Hi. specialize (wf_next p i Hi). lia.
Qed.

Lemma wf_peers k e e' a : env_Peers e ≡ₚ env_Peers e' -> wf k e a -> wf k e' a.
Proof. intros He []; constructor; try done. intros Hl p Hp. apply wf_lead; [done|]. by rewrite He. Qed.

(** States that differ in nothing the bounds mention keep them. *)
Lemma wf_frame k e a a' :
  cfg a' = cfg a -> log a' = log a -> 0 <= currentTerm a' <= k -> commitIndex a' = commitIndex a ->
  lastApplied a' = lastApplied a -> nextIndex a' = nextIndex a ->
  (state a' = stateLeader -> state a = stateLeader) -> wf k e a -> wf k e a'.
Proof.
  intros Hc Hl Ht Hci Hla Hn Hs []; constructor; rewrite ?Hc, ?Hl, ?Hci, ?Hla, ?Hn; auto.
Qed.

Lemma wf_stepped k t e a : 0 <= t <= k -> wf k e a -> wf k e (stepped t a).
Proof. intros Ht. by apply wf_frame. Qed.

Lemma wf_newer_term k t e a : 0 <= t <= k -> wf k e a -> wf k e (newer_term t a).
Proof. unfold newer_term. intros Ht Hw. destruct (_ <? _); [by apply wf_stepped|done]. Qed.

Lemma wf_voted k rv e a : wf k e a -> wf k e (voted rv a).
Proof.
  intros Hw. unfold voted. destruct (grants rv a); [|done].
  apply (wf_frame k e a); try done; apply Hw.
Qed.

Lemma wf_campaigned k e a : k < k_max -> wf k e a -> wf (k + 1) e (campaigned e a).
Proof.
  unfold k_max. intros Hk Hw. apply (wf_mono k (k + 1)) in Hw as Hw'; [|lia].
  apply (wf_frame _ _ a); try done. pose proof (wf_term _ _ _ Hw). cbn.
  rewrite wrap_small by (unfold is_uint; lia). lia.
Qed.

Lemma wf_set_votes k n e a : wf k e a -> wf k e (set_votesReceived n a).
Proof. intros Hw. apply (wf_frame k e a); try done; apply Hw. Qed.

Lemma wf_led k e a : k <= k_max -> wf k e a -> wf k e (led e a).
Proof.
  intros Hk []. pose proof (zlen_nonneg (log a)). constructor; cbn; try done.
  - intros p i. rewrite lookup_set_all. case_decide; [|by apply wf_next].
    intros [= <-]. rewrite wrap_small by (unfold is_uint, k_max in *; lia). lia.
  - intros _ p Hp. rewrite lookup_set_all, decide_True by done. by eexists.
Qed.

Lemma wf_heard k t e a : 0 <= t <= k -> wf k e a -> wf k e (heard t a).
Proof.
  intros Ht Hw. unfold heard. destruct (_ <? _); [by apply wf_stepped|].
  apply (wf_frame k e a); try done; apply Hw.
Qed.

Lemma wf_contacted k ae e a : 0 <= ae_Term ae <= k -> wf k e a -> wf k e (contacted ae a).
Proof.
  intros Ht Hw. apply (wf_heard k (ae_Term ae)) in Hw; [|done].
  apply (wf_frame k e (heard (ae_Term ae) a)); try done; apply Hw.
Qed.

Lemma wf_set_log k l e a : zlen l <= k -> wf k e a -> wf k e (set_log l a).
Proof. intros Hl []. by constructor. Qed.

(** Moving the commit index within the log, and applying up to it. *)
Lemma wf_applied_commit k c e a :
  0 <= c <= k -> wf k e a -> wf k e (applied (set_commitIndex c a)).
Proof. intros Hc []. constructor; cbn; try done; lia. Qed.

Lemma wf_learn k lc e a : 0 <= lc -> wf k e a -> wf k e (applied (learn_commit lc a)).
Proof.
  intros Hlc Hw. pose proof (zlen_nonneg (log a)). pose proof (wf_len _ _ _ Hw).
  unfold learn_commit. destruct (_ <? _); [apply wf_applied_commit; [lia|done]|].
  destruct (applied_id a) as [E _]; [pose proof (wf_commit _ _ _ Hw); lia|]. by rewrite E.
Qed.

Lemma wf_acknowledged k from ar e a :
  0 <= ar_MatchIndex ar <= k -> wf k e a -> wf k e (acknowledged from ar a).
Proof.
  intros Hm []. constructor; cbn; try done.
  - intros p i. destruct (decide (p = from)) as [->|Hp].
    + rewrite lookup_insert_eq. intros [= <-]. lia.
    + rewrite lookup_insert_ne by done. apply wf_next.
  - intros Hl p Hp. rewrite lookup_insert_is_Some. destruct (decide (from = p)); [by left|right].
    split; [done|]. by apply wf_lead.
Qed.

Lemma wf_backed_off k from e a : wf k e a -> wf k e (backed_off from a).
Proof.
  intros Hw. unfold backed_off. destruct (Z.ltb_spec 1 (lookup0 (nextIndex a) from)); [|done].
  assert (Hi : lookup0 (nextIndex a) from <= k + 1).
  { unfold lookup0 in *. destruct (nextIndex a !! from) eqn:E; cbn in *; [|lia].
    apply (wf_next _ _ _ Hw) in E. lia. }
  destruct Hw. constructor; cbn; try done.
  - intros p i. destruct (decide (p = from)) as [->|Hp].
    + rewrite lookup_insert_eq. intros [= <-]. lia.
    + rewrite lookup_insert_ne by done. apply wf_next.
  - intros Hl p Hp. rewrite lookup_insert_is_Some. destruct (decide (from = p)); [by left|right].
    split; [done|]. by apply wf_lead.
Qed.

(** What is sent is within bounds. *)
Lemma ae_of_wf k e a p :
  wf k e a -> 1 <= lookup0 (nextIndex a) p <= k + 1 -> payload_wf k (PAppendEntries (ae_of e a p)).
Proof.
  intros Hw Hi. split; [done|]. cbn. unfold drop_log, zlen. rewrite length_drop.
  destruct Hw. unfold zlen in *. lia.
Qed.

Lemma payload_wf_mono k k' p : k <= k' -> payload_wf k p -> payload_wf k' p.
Proof. intros Hk [HK Hp]. split; [done|]. destruct p; lia. Qed.

End states.

(** * Every handler keeps the bounds *)
Section handlers.
Context `{Json}.

(** The postcondition of a step. *)
Definition keeps (k : Z) (e : Env) {A} (_ : A) (a' : Algorithm) (fx : list effect) : Prop :=
  wf k e a' /\ out_ok k e fx.

Lemma out_ok_nil k e fx : sent fx = [] -> out_ok k e fx.
Proof. unfold out_ok. intros ->. constructor. Qed.

Lemma out_ok_to_peer k e fx to p : sent fx = to_peer e to p -> payload_wf k p -> out_ok k e fx.
Proof.
  unfold out_ok, to_peer. intros -> Hp. case_decide; constructor; [done|constructor].
Qed.

Lemma out_ok_all k e fx (f : Z -> payload) :
  sent fx = (fun p => (p, f p)) <$> env_Peers e ->
  (forall p, p ∈ env_Peers e -> payload_wf k (f p)) -> out_ok k e fx.
Proof.
  unfold out_ok. intros -> Hp. rewrite Forall_fmap. apply Forall_forall.
  intros p Hin. split; [done|by apply Hp].
Qed.

Lemma out_ok_broadcast k e a fx :
  wf k e a -> state a = stateLeader -> sent fx = broadcast_of e a -> out_ok k e fx.
Proof.
  intros Hw Hl Hs. apply (out_ok_all _ _ _ _ Hs). intros p Hp. apply ae_of_wf; [done|].
  apply (wf_next_lookup0 k e); [done|]. by apply (wf_lead _ _ _ Hw).
Qed.

Lemma handleRequestVote_keeps k from rv e a :
  wf k e a -> payload_wf k (PRequestVote rv) ->
  wp False (handleRequestVote from rv) e a (keeps k e).
Proof.
  intros Hw [_ Ht]. apply handleRequestVote_spec; [apply Hw|]. intros a1 fx Hs _.
  assert (Hw1 : wf k e a1) by (by apply wf_newer_term).
  split; [by apply wf_voted|]. apply (out_ok_to_peer _ _ _ _ _ Hs). split; [done|].
  apply Hw1.
Qed.

Lemma handleRequestVoteReply_keeps k rvr e a :
  k <= k_max -> wf k e a -> payload_wf k (PRequestVoteReply rvr) ->
  wp False (handleRequestVoteReply rvr) e a (keeps k e).
Proof.
  intros Hk Hw [_ Ht]. pose proof (wf_len _ _ _ Hw).
  apply handleRequestVoteReply_spec; [apply Hw|lia|..].
  - intros _ fx [Hs _]. split; [by apply wf_stepped|by apply out_ok_nil].
  - intros _ _. split; [done|by apply out_ok_nil].
  - intros a1 _. assert (Hw1 : wf k e a1) by (by apply wf_set_votes). split.
    + intros _. split; [done|by apply out_ok_nil].
    + intros _ fx Hs _. assert (wf k e (led e a1)) by (by apply wf_led).
      split; [done|]. by apply (out_ok_broadcast k e (led e a1)).
Qed.

Lemma reply_to_wf k a ok mi e :
  wf k e a -> 0 <= mi <= k -> payload_wf k (reply_to a ok mi).
Proof. intros Hw Hm. split; [done|]. split; [apply Hw|done]. Qed.

Lemma handleAppendEntries_keeps k from ae e a :
  k <= k_max -> wf k e a -> payload_wf k (PAppendEntries ae) ->
  wp False (handleAppendEntries from ae) e a (keeps k e).
Proof.
  intros Hk Hw Hp. pose proof (wf_term _ _ _ Hw). pose proof Hp as (_ & Ht & Hpr & He & Hlc).
  apply (handleAppendEntries_spec k); [done..| |].
  - intros _ fx Hs _. split; [done|]. apply (out_ok_to_peer _ _ _ _ _ Hs).
    apply (reply_to_wf _ _ _ _ e); [done|lia].
  - intros a1 _. assert (Hw1 : wf k e a1) by (by apply wf_contacted). split.
    + intros _ fx Hs _. split; [done|]. apply (out_ok_to_peer _ _ _ _ _ Hs).
      apply (reply_to_wf _ _ _ _ e); [done|lia].
    + intros Hok a2 fx Hs _.
      assert (Hl : zlen (log (appended ae a1)) <= k).
      { cbn [appended log set_log]. unfold a1. rewrite contacted_log.
        unfold prev_ok in Hok. pose proof (zlen_nonneg (log a)).
        pose proof (merged_length (ae_PrevLogIndex ae) (ae_Entries ae) (log a) ltac:(lia)).
        pose proof (wf_len _ _ _ Hw). lia. }
      assert (Hw2 : wf k e (appended ae a1)) by (by apply wf_set_log).
      assert (Hl2 : log a2 = log (appended ae a1)) by (unfold a2, learn_commit; by case_match).
      split; [apply wf_learn; [lia|done]|]. apply (out_ok_to_peer _ _ _ _ _ Hs).
      apply (reply_to_wf _ _ _ _ e); [done|]. rewrite Hl2. split; [apply zlen_nonneg|done].
Qed.

Lemma handleAppendReply_keeps k from ar e a :
  k <= k_max -> wf k e a -> payload_wf k (PAppendReply ar) -> from ∈ env_Peers e ->
  wp False (handleAppendReply from ar) e a (keeps k e).
Proof.
  intros Hk Hw Hp Hfrom. pose proof Hp as (_ & Ht & Hmi).
  apply (handleAppendReply_spec k); [done..| | |].
  - intros _ fx [Hs _]. split; [by apply wf_stepped|by apply out_ok_nil].
  - intros _ _. split; [done|by apply out_ok_nil].
  - intros _ Hlead. split.
    + intros _ a1. assert (Hw1 : wf k e a1) by (by apply wf_acknowledged).
      split; [split; [done|by apply out_ok_nil]|].
      intros m [Hm _] fx Hs _. split; [|by apply out_ok_nil].
      pose proof (wf_commit _ _ _ Hw1). pose proof (wf_len _ _ _ Hw1).
      apply wf_applied_commit; [lia|done].
    + intros _ a1 fx Hs _. assert (Hw1 : wf k e a1) by (by apply wf_backed_off).
      split; [done|]. apply (out_ok_to_peer _ _ _ _ _ Hs). apply ae_of_wf; [done|].
      apply (wf_next_lookup0 k e); [done|]. apply (wf_lead _ _ _ Hw1); [|done].
      unfold a1, backed_off. by case_match.
Qed.

Lemma handle_payload_keeps k from p e a :
  k <= k_max -> wf k e a -> payload_wf k p -> from ∈ env_Peers e ->
  wp False (handle_payload from p) e a (keeps k e).
Proof.
  intros Hk Hw Hp Hf. destruct p; cbn [handle_payload].
  - by apply handleRequestVote_keeps.
  - by apply handleRequestVoteReply_keeps.
  - by apply handleAppendEntries_keeps.
  - by apply handleAppendReply_keeps.
Qed.

Lemma keeps_mono k k' e {A} (x : A) a fx : k <= k' -> keeps k e x a fx -> keeps k' e x a fx.
Proof.
  intros Hk [Hw Ho]. split; [by eapply wf_mono|].
  eapply Forall_impl; [exact Ho|]. intros y [? ?]. split; [done|by eapply payload_wf_mono].
Qed.

Lemma OnTick_keeps k name e a :
  k < k_max -> wf k e a -> wp False (OnTick name) e a (keeps (k + 1) e).
Proof.
  intros Hk Hw. apply (OnTick_spec k); [done|lia|..].
  - intros _ fx Hs _. assert (Hw' : wf (k + 1) e (campaigned e a)) by (by apply wf_campaigned).
    split; [done|]. apply (out_ok_all _ _ _ _ Hs). intros _ _. split; [done|]. apply Hw'.
  - intros Hl fx Hs _. apply (keeps_mono k); [lia|]. split; [done|]. by eapply out_ok_broadcast.
  - apply (keeps_mono k); [lia|]. split; [done|by apply out_ok_nil].
Qed.

Lemma Propose_keeps k c e a :
  k < k_max -> wf k e a -> wp False (Propose c;; mret tt) e a (keeps (k + 1) e).
Proof.
  intros Hk Hw. apply wp_bind. apply (Propose_spec k); [done|done|..].
  - intros _. wp_step. apply (keeps_mono k); [lia|]. split; [done|by apply out_ok_nil].
  - intros a1 Hl fx Hs _. wp_step. rewrite app_nil_r.
    assert (Hw1 : wf (k + 1) e a1).
    { apply wf_set_log; [|apply (wf_mono k); [lia|done]].
      rewrite zlen_app. change (zlen [_]) with 1. pose proof (wf_len _ _ _ Hw). lia. }
    split; [done|]. by apply (out_ok_broadcast _ _ a1).
Qed.

Lemma Start_keeps k e a : wf k e a -> wp False Start e a (keeps k e).
Proof.
  intros Hw. apply resetElectionTimer_spec; [apply Hw|]. intros d _.
  split; [|by apply out_ok_nil]. by apply (wf_frame k e a); try done; apply Hw.
Qed.

End handlers.

(** What the bounds say of a node, without the environment. *)
Definition log_bounds (k : Z) (a : Algorithm) : Prop :=
  0 <= currentTerm a <= k /\ zlen (log a) <= k /\ 0 <= commitIndex a <= lastApplied a /\ lastApplied a <= k.

(** * Reachable worlds *)
Section net.
Context `{Json} (ids : list Z).

Record bounded (k : Z) (w : World) : Prop := {
  bd_dom : forall v, is_Some (w_nodes w !! v) <-> v ∈ ids;
  bd_nodes : forall v a e, w_nodes w !! v = Some a -> env_ok ids v e -> wf k e a;
  bd_net : forall m p, m ∈ w_net w -> carries m p ->
    payload_wf k p /\ From m ∈ ids /\ To m ∈ ids /\ From m <> To m;
}.

Lemma env_ok_peers v e u : env_ok ids v e -> u ∈ env_Peers e <-> u ∈ ids /\ u <> v.
Proof. intros [_ Hp]. rewrite Hp. unfold others. rewrite list_elem_of_filter. tauto. Qed.

(** What a step runs keeps the bounds. *)
Lemma event_keeps k w v h net' delivered' e a :
  bounded k w -> k < k_max -> event w v h net' delivered' -> w_nodes w !! v = Some a ->
  env_ok ids v e -> wp False h e a (keeps (k + 1) e).
Proof.
  intros Hb Hk Hev Ha He. pose proof (bd_nodes _ _ Hb v a e Ha He) as Hw.
  destruct Hev as [m n1 n2 Hn|v name|v c|v].
  - rewrite OnMessage_decode. destruct (decode m) as [p|] eqn:Hp.
    2: { apply (keeps_mono k); [lia|]. split; [done|by apply out_ok_nil]. }
    destruct (bd_net _ _ Hb m p) as (Hpw & Hf & Ht & Hne); [rewrite Hn; set_solver|done|].
    eapply wp_mono.
    + apply (handle_payload_keeps k); [lia|done|done|]. by apply (env_ok_peers _ _ _ He).
    + intros x a' fx. apply keeps_mono. lia.
  - by apply OnTick_keeps.
  - by apply Propose_keeps.
  - eapply wp_mono; [by apply Start_keeps|]. intros x a' fx. apply keeps_mono. lia.
Qed.

Lemma event_net w v h net' delivered' m :
  event w v h net' delivered' -> m ∈ net' -> m ∈ w_net w.
Proof. intros Hev. destruct Hev as [m' n1 n2 Hn| | |]; [|done..]. rewrite Hn. set_solver. Qed.

Lemma bounded_step k w w' : bounded k w -> k < k_max -> step ids w w' -> bounded (k + 1) w'.
Proof.
  intros Hb Hk Hst. destruct Hst as [v h net' delivered' e a a' fx Hev Ha He Eh].
  pose proof (wp_elim _ _ _ _ _ _ _ _ (event_keeps _ _ _ _ _ _ _ _ Hb Hk Hev Ha He) Eh) as [Hw Ho].
  assert (Hv : v ∈ ids) by (apply (bd_dom _ _ Hb); eauto).
  split; cbn.
  - intros u. rewrite lookup_insert_is_Some, (bd_dom _ _ Hb).
    destruct (decide (v = u)) as [->|]; tauto.
  - intros u b e' Hu He'. destruct (decide (u = v)) as [->|Hne].
    + rewrite lookup_insert_eq in Hu. injection Hu as <-. apply (wf_peers _ e); [|done].
      destruct He as [_ ->], He' as [_ ->]. done.
    + rewrite lookup_insert_ne in Hu by done.
      apply (wf_mono k); [lia|]. by apply (bd_nodes _ _ Hb u).
  - intros m p [Hm|Hm]%elem_of_app Hp.
    + destruct (bd_net _ _ Hb m p) as (Hpw & ?); [by eapply event_net|done|].
      split; [apply (payload_wf_mono k); [lia|done]|done].
    + destruct (elem_of_packets v fx m p Hm Hp) as [Hf Hs].
      unfold out_ok in Ho. rewrite Forall_forall in Ho. destruct (Ho _ Hs) as [Hto Hpw].
      apply (env_ok_peers _ _ _ He) in Hto as [? ?]. rewrite Hf. split_and!; done.
Qed.

Lemma bounded_init c cb : NoDup ids -> cfg_ok c -> bounded 0 (init ids c cb).
Proof.
  intros Hnd Hc. assert (Hlk : forall v, w_nodes (init ids c cb) !! v =
    if decide (v ∈ ids) then Some (New c cb) else None).
  { intros v. cbn. case_decide as Hv.
    - apply elem_of_list_to_map.
      + rewrite <- list_fmap_compose. by rewrite list_fmap_id.
      + apply list_elem_of_fmap. by exists v.
    - apply not_elem_of_list_to_map. rewrite <- list_fmap_compose. by rewrite list_fmap_id. }
  split.
  - intros v. rewrite Hlk. by case_decide; split.
  - intros v a e. rewrite Hlk. case_decide; [|done]. intros [= <-] _. constructor; cbn; try done.
  - intros m p Hm. cbn in Hm. set_solver.
Qed.

Lemma bounded_reach c cb n w :
  NoDup ids -> cfg_ok c -> Z.of_nat n <= k_max -> reach ids c cb n w -> bounded (Z.of_nat n) w.
Proof.
  intros Hnd Hc. unfold reach. revert w. induction n as [|n IH]; intros w Hn Hr.
  - inversion Hr; subst. by apply bounded_init.
  - apply nsteps_inv_r in Hr as (w1 & Hr & Hs). replace (Z.of_nat (S n)) with (Z.of_nat n + 1) by lia.
    eapply bounded_step; [by apply IH; [lia|]|lia|done].
Qed.

End net.

(** C5: no Raft handler panics.  In a cluster with a fixed set of peers and a
    sane configuration, whatever happened before (fewer than 2^32 - 2 steps),
    every message delivery, timer tick, proposal or start on any node returns:
    no index or slice of the log is out of range, and no timer is set to a
    non-positive interval. *)
Theorem raft_handlers_never_panic `{Json} ids c cb n w v h net' delivered' e a :
  NoDup ids -> cfg_ok c -> Z.of_nat n < k_max -> reach ids c cb n w ->
  event w v h net' delivered' -> w_nodes w !! v = Some a -> env_ok ids v e ->
  exists a' fx, h e a = Ret (tt, a', fx) /\ log_bounds (Z.of_nat n + 1) a'.
Proof.
  intros Hnd Hc Hn Hr Hev Ha He.
  pose proof (bounded_reach ids c cb n w Hnd Hc ltac:(lia) Hr) as Hb.
  destruct (wp_total _ _ _ _ (event_keeps ids _ w v h net' delivered' e a Hb Hn Hev Ha He))
    as ([] & a' & fx & E & [Hw _]).
  exists a', fx. split; [done|]. destruct Hw. unfold log_bounds. lia.
Qed.

(** C21: what an accepted AppendEntries does.  The entries before PrevLogIndex
    stay; after it, entries that agree in term stay and the first disagreement
    replaces the rest; the commit index moves up to the leader's, but not past
    the log, and everything up to it is applied; the reply reports the length
    of the whole log.  A mismatch at PrevLogIndex changes neither. *)
Theorem AppendEntries_effect `{Json} k from ae e a :
  wf k e a -> k <= k_max -> payload_wf k (PAppendEntries ae) -> currentTerm a <= ae_Term ae ->
  exists a' fx, handleAppendEntries from ae e a = Ret (tt, a', fx) /\
    currentTerm a' = ae_Term ae /\ state a' = stateFollower /\ leaderID a' = ae_LeaderID ae /\
    if prev_ok ae (log a) then
      log a' = take (Z.to_nat (ae_PrevLogIndex ae)) (log a) ++
               merge_entries (ae_Entries ae) (drop (Z.to_nat (ae_PrevLogIndex ae)) (log a)) /\
      commitIndex a' = (if commitIndex a <? ae_LeaderCommit ae
                        then Z.min (ae_LeaderCommit ae) (zlen (log a')) else commitIndex a) /\
      lastApplied a' = Z.max (lastApplied a) (commitIndex a') /\
      sent fx = to_peer e from (reply_to a true (zlen (log a')))
    else
      log a' = log a /\ commitIndex a' = commitIndex a /\ lastApplied a' = lastApplied a /\
      sent fx = to_peer e from (reply_to a false 0).
Proof.
  intros Hw Hk Hp Hle. pose proof (wf_commit _ _ _ Hw) as Hcm.
  assert (Hc : let a1 := contacted ae a in currentTerm a1 = ae_Term ae /\ state a1 = stateFollower /\
    leaderID a1 = ae_LeaderID ae /\ log a1 = log a /\ commitIndex a1 = commitIndex a /\
    lastApplied a1 = lastApplied a).
  { unfold contacted, heard. destruct (Z.ltb_spec (currentTerm a) (ae_Term ae)); split_and!; cbn; done || lia. }
  match goal with |- exists a' fx, _ /\ @?Q a' fx =>
    destruct (wp_total (handleAppendEntries from ae) e a (fun _ a' fx => Q a' fx)) as ([] & a' & fx & E & HQ);
      [|by exists a', fx] end.
  apply (handleAppendEntries_spec k); [done..|lia|]. intros a1 _. cbv zeta in Hc. fold a1 in Hc.
  destruct Hc as (H1 & H2 & H3 & H4 & H5 & H6).
  destruct (prev_ok ae (log a)); (split; [try done|try done]).
  - intros _ a2 fx Hs _. unfold a2, learn_commit in *.
    change (commitIndex (appended ae a1)) with (commitIndex a1) in *. rewrite H5 in *.
    change (log (appended ae a1)) with (merged (ae_PrevLogIndex ae) (ae_Entries ae) (log a1)) in *.
    rewrite H4 in *. unfold merged in *.
    destruct (commitIndex a <? ae_LeaderCommit ae); split_and!;
      cbn [currentTerm state leaderID log commitIndex lastApplied applied appended set_lastApplied
           set_commitIndex set_log] in *; rewrite ?H4, ?H5, ?H6; first [done|by rewrite <- H4].
Qed.
