(* ===== verification/RaftElection.v ===== *)
(** RaftElection: election safety.  In a cluster with an odd number of nodes at
    most one node ever leads a term.

    A token (candidate, voter, term) stands for one vote in the making: the
    request in flight, the granted reply in flight, or the delivered grant.
    Tokens are unique, so a candidate's count is the number of distinct voters,
    and each voter votes for one candidate in a term. *)
From S2P Require Export RaftBounds.

Abbreviation token := (Z * Z * Z)%type.

(** * Tokens *)

Definition token_of (from to : Z) (p : payload) : option token :=
  match p with
  | PRequestVote rv => Some (from, to, rv_Term rv)
  | PRequestVoteReply rvr =>
      if rvr_VoteGranted rvr then Some (to, from, rvr_Term rvr) else None
  | _ => None
  end.

Definition grant_of (from to : Z) (p : payload) : option token :=
  match p with
  | PRequestVoteReply rvr =>
      if rvr_VoteGranted rvr then Some (to, from, rvr_Term rvr) else None
  | _ => None
  end.

Section election.
Context `{Json} (ids : list Z).

Definition read (f : Z -> Z -> payload -> option token) (ms : list WireMessage) : list token :=
  omap (fun m => p ← decode m; f (From m) (To m) p) ms.

Definition counted (w : World) : list token := read grant_of (w_delivered w).
Definition tokens (w : World) : list token := read token_of (w_net w) ++ counted w.
Definition granted (w : World) : list token := read grant_of (w_net w) ++ counted w.

(** The votes delivered to candidate [c] for term [t]. *)
Definition votes_for (c t : Z) (w : World) : list token :=
  filter (fun x : token => x.1.1 = c /\ x.2 = t) (counted w).

Definition quorum : Z := (zlen ids - 1) `div` 2 + 1.

Record einv (w : World) : Prop := {
  ei_nodup : NoDup (tokens w);
  ei_token : forall c v t, (c, v, t) ∈ tokens w -> v ∈ ids /\ v <> c /\
    exists a, w_nodes w !! c = Some a /\ t <= currentTerm a;
  ei_granted : forall c v t, (c, v, t) ∈ granted w -> (v, t, c) ∈ w_votes w;
  ei_request : forall m rv, m ∈ w_net w -> carries m (PRequestVote rv) -> rv_CandidateID rv = From m;
  ei_votes : forall v t c, (v, t, c) ∈ w_votes w -> c <> 0 /\
    exists a, w_nodes w !! v = Some a /\ t <= currentTerm a /\ (t = currentTerm a -> votedFor a = c);
  ei_voted : forall v a, w_nodes w !! v = Some a -> votedFor a <> 0 ->
    (v, currentTerm a, votedFor a) ∈ w_votes w;
  ei_unique : forall v t c1 c2, (v, t, c1) ∈ w_votes w -> (v, t, c2) ∈ w_votes w -> c1 = c2;
  ei_cand : forall c a, w_nodes w !! c = Some a -> state a = stateCandidate ->
    votedFor a = c /\ votesReceived a = 1 + zlen (votes_for c (currentTerm a) w);
  ei_leader : forall c a, w_nodes w !! c = Some a -> state a = stateLeader ->
    (currentTerm a, c) ∈ w_leaders w;
  ei_leaders : forall t c, (t, c) ∈ w_leaders w ->
    (c, t, c) ∈ w_votes w /\ quorum <= 1 + zlen (votes_for c t w);
}.

(** * One step of a node, as the election sees it *)

Record estep (v : Z) (a a' : Algorithm) (w : World) (net' delivered' : list WireMessage)
    (fx : list effect) : Prop := {
  es_term : currentTerm a <= currentTerm a';
  es_delivered : exists new, delivered' = w_delivered w ++ new /\
    forall x, x ∈ read grant_of new -> x.1.1 = v;
  es_nodup : NoDup (read token_of (net' ++ packets v fx) ++ read grant_of delivered');
  es_token : forall x, x ∈ read token_of (net' ++ packets v fx) ++ read grant_of delivered' ->
    x ∈ tokens w \/ (x.1.1 = v /\ x.1.2 ∈ ids /\ x.1.2 <> v /\ x.2 <= currentTerm a');
  es_granted : forall x, x ∈ read grant_of (net' ++ packets v fx) ++ read grant_of delivered' ->
    x ∈ granted w \/ (x.1.2 = v /\ x.1.1 = votedFor a' /\ x.1.1 <> 0 /\ x.2 = currentTerm a');
  es_request : forall m rv, m ∈ net' ++ packets v fx -> carries m (PRequestVote rv) ->
    m ∈ w_net w \/ rv_CandidateID rv = From m;
  es_vote : currentTerm a = currentTerm a' -> votedFor a <> 0 -> votedFor a' = votedFor a;
  es_cand : state a' = stateCandidate -> votedFor a' = v /\
    votesReceived a' = 1 + zlen (filter (fun x : token => x.1.1 = v /\ x.2 = currentTerm a')
                                   (read grant_of delivered'));
  es_leader : state a' = stateLeader ->
    (currentTerm a', v) ∈ w_leaders w \/
    (votedFor a' = v /\ v <> 0 /\
     quorum <= 1 + zlen (filter (fun x : token => x.1.1 = v /\ x.2 = currentTerm a')
                           (read grant_of delivered')));
}.

Lemma elem_of_vote_of v a x : x ∈ vote_of v a <-> votedFor a <> 0 /\ x = (v, currentTerm a, votedFor a).
Proof. unfold vote_of. case_decide; set_solver. Qed.

Lemma elem_of_leader_of v a x : x ∈ leader_of v a <-> state a = stateLeader /\ x = (currentTerm a, v).
Proof. unfold leader_of. case_decide; set_solver. Qed.

Lemma read_app f l1 l2 : read f (l1 ++ l2) = read f l1 ++ read f l2.
Proof. apply omap_app. Qed.

Section step.
Context (v : Z) (a a' : Algorithm) (fx : list effect) (w : World) (net' delivered' : list WireMessage).
#[local] Notation w' := (after v a' fx net' delivered' w).
Hypothesis Hi : einv w.
Hypothesis Ha : w_nodes w !! v = Some a.
Hypothesis Hs : estep v a a' w net' delivered' fx.

Lemma node_after_self : w_nodes w' !! v = Some a'.
Proof. apply lookup_insert_eq. Qed.

Lemma node_before u b :
  w_nodes w !! u = Some b -> exists b', w_nodes w' !! u = Some b' /\
    currentTerm b <= currentTerm b' /\
    (currentTerm b' = currentTerm b -> votedFor b <> 0 -> votedFor b' = votedFor b).
Proof.
  intros Hb. destruct (decide (u = v)) as [->|Hne].
  - exists a'. split; [apply node_after_self|]. rewrite Ha in Hb. injection Hb as <-.
    split; [apply Hs|]. intros E. apply Hs. done.
  - exists b. cbn. by rewrite lookup_insert_ne by done.
Qed.

Lemma votes_after x :
  x ∈ w_votes w' <-> x ∈ w_votes w \/ (votedFor a' <> 0 /\ x = (v, currentTerm a', votedFor a')).
Proof. cbn. by rewrite elem_of_app, elem_of_vote_of. Qed.

(** Counted votes only grow, and only for [v]. *)
Lemma votes_for_after c t : exists more, votes_for c t w' = votes_for c t w ++ more /\
  (c <> v -> more = []).
Proof.
  destruct (es_delivered _ _ _ _ _ _ _ Hs) as (new & Hdel & Hcand).
  exists (filter (fun x : token => x.1.1 = c /\ x.2 = t) (read grant_of new)). split.
  - unfold votes_for, counted. change (w_delivered w') with delivered'.
    by rewrite Hdel, read_app, filter_app.
  - intros Hc. apply filter_none. intros x Hx [E _]. by rewrite (Hcand x Hx) in E.
Qed.

Lemma vote_of_term t c : (v, t, c) ∈ w_votes w -> t = currentTerm a' -> c = votedFor a'.
Proof.
  intros Hin ->. destruct (ei_votes _ Hi _ _ _ Hin) as (Hc & b & Hb & Hle & Heq).
  rewrite Ha in Hb. injection Hb as <-. pose proof (es_term _ _ _ _ _ _ _ Hs).
  assert (Et : currentTerm a = currentTerm a') by lia.
  rewrite (es_vote _ _ _ _ _ _ _ Hs Et); rewrite (Heq ltac:(lia)); done.
Qed.

Lemma leader_elected_after t c :
  (t, c) ∈ w_leaders w' -> (c, t, c) ∈ w_votes w' /\ quorum <= 1 + zlen (votes_for c t w').
Proof.
  assert (Hold : (t, c) ∈ w_leaders w -> (c, t, c) ∈ w_votes w' /\ quorum <= 1 + zlen (votes_for c t w')).
  { intros Hin. destruct (ei_leaders _ Hi _ _ Hin) as [Hv Hq]. split; [apply votes_after; by left|].
    destruct (votes_for_after c t) as (more & -> & _). rewrite zlen_app.
    pose proof (zlen_nonneg more). lia. }
  cbn. intros [Hin|(Hst & [= -> ->])%elem_of_leader_of]%elem_of_app; [by apply Hold|].
  destruct (es_leader _ _ _ _ _ _ _ Hs Hst) as [Hin|(Hvf & H0 & Hq)]; [by apply Hold|].
  split; [|done]. apply votes_after. right. by rewrite Hvf.
Qed.

Lemma vote_recorded_after u t c :
  (u, t, c) ∈ w_votes w' -> c <> 0 /\ exists b, w_nodes w' !! u = Some b /\ t <= currentTerm b /\
    (t = currentTerm b -> votedFor b = c).
Proof.
  intros [Hin|[H0 [= -> -> ->]]]%votes_after.
  - destruct (ei_votes _ Hi _ _ _ Hin) as (Hc & b & Hb & Hle & Heq). split; [done|].
    destruct (node_before u b Hb) as (b' & Hb' & Hle' & Hsame). exists b'. split; [done|].
    split; [lia|]. intros ->. assert (Et : currentTerm b' = currentTerm b) by lia.
    rewrite Hsame; [by apply Heq|done|]. by rewrite Heq.
  - split; [done|]. exists a'. split; [apply node_after_self|done].
Qed.

Lemma einv_step : einv w'.
Proof.
  split.
  - apply Hs.
  - intros c u t Hin. destruct (es_token _ _ _ _ _ _ _ Hs _ Hin) as [Hin'|(Ec & Hu & Hne & Ht)].
    + destruct (ei_token _ Hi _ _ _ Hin') as (Hu & Hne & b & Hb & Ht). split; [done|]. split; [done|].
      destruct (node_before c b Hb) as (b' & Hb' & Hle & _). exists b'. split; [done|lia].
    + cbn in *. subst c. split; [done|]. split; [done|]. exists a'. split; [apply node_after_self|done].
  - intros c u t Hin. apply votes_after.
    destruct (es_granted _ _ _ _ _ _ _ Hs _ Hin) as [Hin'|(Eu & Ec & H0 & Et)].
    + left. by apply (ei_granted _ Hi).
    + right. cbn in *. subst. done.
  - intros m rv Hm Hc. destruct (es_request _ _ _ _ _ _ _ Hs m rv Hm Hc) as [Hm'|E]; [|done].
    by apply (ei_request _ Hi).
  - apply vote_recorded_after.
  - intros u b Hb H0. apply votes_after. destruct (after_node Hb) as [[-> ->]|[Hne Hb']]; [by right|left].
    by apply (ei_voted _ Hi).
  - intros u t c1 c2 [H1|[H1 [= -> -> ->]]]%votes_after [H2|[H2 E2]]%votes_after.
    + by apply (ei_unique _ Hi u t).
    + injection E2 as -> -> ->. by eapply vote_of_term.
    + symmetry. by eapply vote_of_term.
    + by injection E2 as ->.
  - intros c b Hb Hst. destruct (after_node Hb) as [[-> ->]|[Hne Hb']].
    + by apply Hs.
    + destruct (votes_for_after c (currentTerm b)) as (more & -> & ->); [|done].
      rewrite app_nil_r. by apply (ei_cand _ Hi).
  - intros c b Hb Hst. cbn. rewrite elem_of_app, elem_of_leader_of.
    destruct (after_node Hb) as [[-> ->]|[Hne Hb']]; [by right|left]. by apply (ei_leader _ Hi).
  - apply leader_elected_after.
Qed.

End step.

(** * Messages of a step *)

(** What is left in flight and delivered before the handler's own messages. *)
Record consumes (v : Z) (w : World) (net' new : list WireMessage) : Prop := {
  co_tokens : read token_of net' ++ read grant_of (w_delivered w ++ new) ⊆+ tokens w;
  co_granted : forall x, x ∈ read grant_of net' ++ read grant_of (w_delivered w ++ new) -> x ∈ granted w;
  co_net : forall m, m ∈ net' -> m ∈ w_net w;
  co_cand : forall x, x ∈ read grant_of new -> x.1.1 = v;
}.

Lemma grant_token from to p x : grant_of from to p = Some x -> token_of from to p = Some x.
Proof. by destruct p. Qed.

Lemma grant_cand from to p x : grant_of from to p = Some x -> x.1.1 = to.
Proof. destruct p as [|rvr| |]; cbn; try done. case_match; [|done]. by intros [= <-]. Qed.

Lemma elem_of_read f ms x :
  x ∈ read f ms <-> exists m p, m ∈ ms /\ carries m p /\ f (From m) (To m) p = Some x.
Proof.
  unfold read. rewrite list_elem_of_omap. split.
  - intros (m & Hm & E). unfold carries. destruct (decode m) as [p|] eqn:Ed; [|done]. eauto.
  - intros (m & p & Hm & Hc & E). exists m. split; [done|]. unfold carries in Hc. by rewrite Hc.
Qed.

Lemma read_single_submseteq m : read grant_of [m] ⊆+ read token_of [m].
Proof.
  unfold read. cbn. destruct (decode m) as [p|]; cbn; [|done].
  destruct (grant_of (From m) (To m) p) as [x|] eqn:E; [|apply submseteq_nil_l].
  by rewrite (grant_token _ _ _ _ E).
Qed.

Lemma consumes_none v w : consumes v w (w_net w) [].
Proof.
  split; rewrite ?app_nil_r; [done|done|done|]. intros x Hx. by apply elem_of_nil in Hx.
Qed.

Lemma consumes_deliver w m n1 n2 : w_net w = n1 ++ m :: n2 -> consumes (To m) w (n1 ++ n2) [m].
Proof.
  intros Hn. split.
  - unfold tokens, counted. rewrite Hn. change (m :: n2) with ([m] ++ n2). rewrite !read_app, <- !(assoc_L app).
    apply submseteq_app; [done|]. rewrite (comm app (read token_of [m])), <- (assoc_L app).
    apply submseteq_app; [done|]. apply submseteq_app; [done|apply read_single_submseteq].
  - intros x. unfold granted, counted. rewrite Hn. change (m :: n2) with ([m] ++ n2). rewrite !read_app, !elem_of_app. tauto.
  - intros m'. rewrite Hn. set_solver.
  - intros x (m' & p & Hm & _ & E)%elem_of_read. apply list_elem_of_singleton in Hm as ->.
    by apply grant_cand in E.
Qed.

(** A handler that sends no token. *)
Definition no_tokens (v : Z) (fx : list effect) : Prop :=
  Forall (fun x => token_of v x.1 x.2 = None) (sent fx).

Lemma read_packets f v fx : read f (packets v fx) = omap (fun x => f v x.1 x.2) (sent fx).
Proof. apply omap_packets. Qed.

Lemma omap_none {A B} (f : A -> option B) l : Forall (fun x => f x = None) l -> omap f l = [].
Proof. induction 1 as [|x l E _ IH]; [done|]. cbn. by rewrite E. Qed.

Lemma no_tokens_read v fx :
  no_tokens v fx -> read token_of (packets v fx) = [] /\ read grant_of (packets v fx) = [].
Proof.
  intros Hn. rewrite !read_packets. split; [by apply omap_none|].
  apply omap_none. eapply Forall_impl; [exact Hn|]. intros x E.
  destruct (grant_of v x.1 x.2) eqn:Eg; [|done]. apply grant_token in Eg. congruence.
Qed.

Lemma estep_no_tokens v a a' w net' new fx :
  einv w -> consumes v w net' new -> no_tokens v fx ->
  currentTerm a <= currentTerm a' ->
  (currentTerm a = currentTerm a' -> votedFor a <> 0 -> votedFor a' = votedFor a) ->
  (state a' = stateCandidate -> votedFor a' = v /\
     votesReceived a' = 1 + zlen (filter (fun x : token => x.1.1 = v /\ x.2 = currentTerm a')
                                    (read grant_of (w_delivered w ++ new)))) ->
  (state a' = stateLeader ->
    (currentTerm a', v) ∈ w_leaders w \/
    (votedFor a' = v /\ v <> 0 /\
     quorum <= 1 + zlen (filter (fun x : token => x.1.1 = v /\ x.2 = currentTerm a')
                           (read grant_of (w_delivered w ++ new))))) ->
  estep v a a' w net' (w_delivered w ++ new) fx.
Proof.
  intros Hi Hc Hn Ht Hv Hcand Hlead. destruct (no_tokens_read v fx Hn) as [Et Eg].
  pose proof (co_tokens _ _ _ _ Hc) as Hsub. split; try done.
  - exists new. split; [done|]. apply Hc.
  - rewrite read_app, Et, app_nil_r.
    destruct (submseteq_Permutation _ _ Hsub) as [k Hk].
    pose proof (ei_nodup _ Hi) as Hnd. rewrite Hk in Hnd. by apply NoDup_app in Hnd as (? & _).
  - rewrite read_app, Et, app_nil_r. intros x Hx. left. by eapply elem_of_submseteq.
  - rewrite read_app, Eg, app_nil_r. intros x Hx. left. by apply (co_granted _ _ _ _ Hc).
  - intros m rv [Hm|Hm]%elem_of_app Hcar; [left; by apply (co_net _ _ _ _ Hc)|].
    destruct (elem_of_packets v fx m _ Hm Hcar) as [_ Hs].
    unfold no_tokens in Hn. rewrite Forall_forall in Hn. by apply Hn in Hs.
Qed.

(** ... in which a candidate counts nothing and nobody becomes one. *)
Lemma estep_quiet v a a' w net' new fx :
  einv w -> w_nodes w !! v = Some a -> consumes v w net' new -> no_tokens v fx ->
  (currentTerm a < currentTerm a' /\ state a' = stateFollower \/
   currentTerm a' = currentTerm a /\ votedFor a' = votedFor a /\
   votesReceived a' = votesReceived a /\ (state a' = state a \/ state a' = stateFollower) /\
   (state a = stateCandidate -> forall x, x ∈ read grant_of new -> x.2 <> currentTerm a)) ->
  estep v a a' w net' (w_delivered w ++ new) fx.
Proof.
  intros Hi Ha Hc Hn [[Ht Hst]|(Ht & Hv & Hr & Hst & Hnew)]; apply estep_no_tokens; try done;
    try lia; rewrite ?Hst; try done.
  - intros Hcand. destruct Hst as [Hst|Hst]; [|congruence]. rewrite Hst in Hcand.
    destruct (ei_cand _ Hi v a Ha Hcand) as [E1 E2]. split; [congruence|].
    rewrite Hr, E2, Ht, read_app, filter_app, (filter_none _ (read grant_of new)), app_nil_r; [done|].
    intros x Hx [_ E]. by apply (Hnew Hcand x Hx).
  - intros Hl. left. destruct Hst as [Hst|Hst]; [|congruence]. rewrite Hst in Hl. rewrite Ht.
    by apply (ei_leader _ Hi).
Qed.

(** * The handlers *)
Context (Hnd : NoDup ids) (Hpos : 0 ∉ ids).

Lemma majority_quorum v e : v ∈ ids -> env_ok ids v e -> majority e = quorum.
Proof.
  intros Hv [_ Hp]. unfold majority, quorum. rewrite <- (zlen_others ids v Hnd Hv).
  unfold zlen. by rewrite Hp.
Qed.

Lemma no_tokens_nil v fx : sent fx = [] -> no_tokens v fx.
Proof. unfold no_tokens. intros ->. constructor. Qed.

Lemma no_tokens_to_peer v e to p fx :
  sent fx = to_peer e to p -> token_of v to p = None -> no_tokens v fx.
Proof. unfold no_tokens, to_peer. intros -> E. case_decide; repeat constructor; done. Qed.

Lemma no_tokens_broadcast v e a fx : sent fx = broadcast_of e a -> no_tokens v fx.
Proof.
  unfold no_tokens, broadcast_of. intros ->. rewrite Forall_fmap. by apply Forall_true.
Qed.

(** What a step on [v] is required to establish. *)
Definition elects (v : Z) (a : Algorithm) (w : World) (net' new : list WireMessage)
    {A} (_ : A) (a' : Algorithm) (fx : list effect) : Prop :=
  estep v a a' w net' (w_delivered w ++ new) fx.

Section on_node.
Context (k : Z) (w : World) (v : Z) (a : Algorithm) (e : Env).
Context (Hk : k < k_max) (Hb : bounded ids k w) (Hi : einv w) (Ha : w_nodes w !! v = Some a)
  (He : env_ok ids v e).

Lemma node_wf : wf k e a.
Proof. by apply (bd_nodes _ _ _ Hb v). Qed.

Lemma node_id : v ∈ ids.
Proof. apply (bd_dom _ _ _ Hb). eauto. Qed.

(** A delivered message that is no grant counts nothing. *)
Lemma no_grant m p :
  carries m p -> grant_of (From m) (To m) p = None -> read grant_of [m] = [].
Proof. unfold carries, read. intros Hc E. cbn. rewrite Hc. cbn. by rewrite E. Qed.

Lemma OnTick_elects name : wp False (OnTick name) e a (elects v a w (w_net w) []).
Proof.
  pose proof node_wf as Hw. pose proof node_id as Hv. apply (OnTick_spec k); [done|lia|..].
  - intros _ fx Hs _. pose proof (wf_term _ _ _ Hw) as Ht.
    assert (Et : currentTerm (campaigned e a) = currentTerm a + 1).
    { cbn. apply wrap_small. unfold is_uint, k_max in *. lia. }
    assert (Evf : votedFor (campaigned e a) = v) by apply He.
    assert (Etok : read token_of (packets v fx) =
              (fun p => (v, p, currentTerm a + 1)) <$> env_Peers e).
    { rewrite read_packets, Hs. rewrite <- Et. clear. generalize (campaigned e a). intros a1.
      induction (env_Peers e) as [|p ps IH]; [done|]. cbn in *. by rewrite IH. }
    assert (Egr : read grant_of (packets v fx) = []).
    { rewrite read_packets, Hs. apply omap_none. rewrite Forall_fmap. by apply Forall_true. }
    assert (Hold : forall x, x ∈ tokens w -> x.1.1 = v -> x.2 <= currentTerm a).
    { intros [[c u] t] Hx E. cbn in *. subst c.
      destruct (ei_token _ Hi _ _ _ Hx) as (_ & _ & b & Hb' & Hle). rewrite Ha in Hb'.
      injection Hb' as <-. done. }
    assert (Hin : forall x, x ∈ read token_of (w_net w ++ packets v fx) ++ counted w ->
      x ∈ tokens w \/ exists p, p ∈ env_Peers e /\ x = (v, p, currentTerm a + 1)).
    { intros x. unfold tokens. rewrite read_app, Etok, !elem_of_app, list_elem_of_fmap.
      intros [[Hx|(p & -> & Hp)]|Hx]; [by left; left|right; by exists p|by left; right]. }
    unfold elects. split; rewrite ?app_nil_r.
    + rewrite Et. lia.
    + exists []. rewrite app_nil_r. split; [done|]. intros x Hx. by apply elem_of_nil in Hx.
    + rewrite read_app, Etok, <- (assoc_L app), (comm app (fmap _ _)), (assoc_L app).
      apply NoDup_app. split; [apply (ei_nodup _ Hi)|]. split.
      * intros x Hx (p & -> & _)%list_elem_of_fmap. specialize (Hold _ Hx eq_refl). cbn in Hold. lia.
      * apply NoDup_fmap_2; [by intros ?? [= ->]|]. destruct He as [_ ->].
        by apply NoDup_filter.
    + intros x [Hx|(p & Hp & ->)]%Hin; [by left|right]. rewrite Et. cbn.
      apply (env_ok_peers _ _ _ _ He) in Hp as [? ?]. split_and!; [done..|lia].
    + intros x. rewrite read_app, Egr, app_nil_r. by left.
    + intros m rv [Hm|Hm]%elem_of_app Hc; [by left|right].
      destruct (elem_of_packets v fx m _ Hm Hc) as [-> Hin'].
      rewrite Hs in Hin'. apply list_elem_of_fmap in Hin' as (p & [= _ ->] & _). cbn. apply He.
    + intros E. rewrite Et in E. lia.
    + intros _. split; [done|]. rewrite filter_none; [done|].
      intros x Hx [E1 E2]. specialize (Hold x). rewrite Et in E2.
      assert (x ∈ tokens w) by (apply elem_of_app; by right). specialize (Hold ltac:(done) E1). lia.
    + done.
  - intros _ fx Hs _. apply estep_quiet; [done|done|apply consumes_none|by eapply no_tokens_broadcast|].
    right. split_and!; try done; [by left|]. intros _ x Hx. by apply elem_of_nil in Hx.
  - apply estep_quiet; [done|done|apply consumes_none|by apply no_tokens_nil|].
    right. split_and!; try done; [by left|]. intros _ x Hx. by apply elem_of_nil in Hx.
Qed.

Lemma Propose_elects c : wp False (Propose c;; mret tt) e a (elects v a w (w_net w) []).
Proof.
  pose proof node_wf as Hw. apply wp_bind. apply (Propose_spec k); [done|done|..].
  - intros _. wp_step. apply estep_quiet; [done|done|apply consumes_none|by apply no_tokens_nil|].
    right. split_and!; try done; [by left|]. intros _ x Hx. by apply elem_of_nil in Hx.
  - intros a1 Hl fx Hs _. wp_step. rewrite app_nil_r.
    apply estep_quiet; [done|done|apply consumes_none|by eapply no_tokens_broadcast|].
    right. split_and!; try done; [by left|]. intros _ x Hx. by apply elem_of_nil in Hx.
Qed.

Lemma Start_elects : wp False Start e a (elects v a w (w_net w) []).
Proof.
  pose proof node_wf as Hw. apply resetElectionTimer_spec; [apply Hw|]. intros d _.
  apply estep_quiet; [done|done|apply consumes_none|by apply no_tokens_nil|].
  right. split_and!; try done; [by left|]. intros _ x Hx. by apply elem_of_nil in Hx.
Qed.

Section delivery.
Context (m : WireMessage) (n1 n2 : list WireMessage) (Hn : w_net w = n1 ++ m :: n2) (Hto : To m = v).

Lemma consumes_m : consumes v w (n1 ++ n2) [m].
Proof. rewrite <- Hto. by apply consumes_deliver. Qed.

Lemma m_bounds p : carries m p -> payload_wf k p /\ From m ∈ ids /\ From m <> v.
Proof.
  intros Hc. destruct (bd_net _ _ _ Hb m p) as (? & ? & _ & ?); [rewrite Hn; set_solver|done|].
  by rewrite <- Hto.
Qed.

(** Raft messages that are no votes do not touch the election. *)
Lemma handleAppendEntries_elects ae :
  carries m (PAppendEntries ae) ->
  wp False (handleAppendEntries (From m) ae) e a (elects v a w (n1 ++ n2) [m]).
Proof.
  intros Hc. destruct (m_bounds _ Hc) as (Hp & _ & _). pose proof (no_grant m _ Hc eq_refl) as Hg.
  assert (Hq : forall a' fx to r, sent fx = to_peer e to (PAppendReply r) ->
    (currentTerm a < currentTerm a' /\ state a' = stateFollower \/
     currentTerm a' = currentTerm a /\ votedFor a' = votedFor a /\
     votesReceived a' = votesReceived a /\ (state a' = state a \/ state a' = stateFollower)) ->
    elects v a w (n1 ++ n2) [m] tt a' fx).
  { intros a' fx to r Hs Hcase. apply estep_quiet; [done|done|apply consumes_m| |].
    - by eapply no_tokens_to_peer.
    - destruct Hcase as [?|(?&?&?&?)]; [by left|right]. split_and!; try done.
      intros _ x Hx. rewrite Hg in Hx. by apply elem_of_nil in Hx. }
  assert (Hct : ae_Term ae < currentTerm a \/
    (let a1 := contacted ae a in
     currentTerm a < currentTerm a1 /\ state a1 = stateFollower \/
     currentTerm a1 = currentTerm a /\ votedFor a1 = votedFor a /\
     votesReceived a1 = votesReceived a /\ state a1 = stateFollower)).
  { destruct (decide (ae_Term ae < currentTerm a)) as [Hlt|Hge]; [by left|right].
    unfold contacted, heard. destruct (Z.ltb_spec (currentTerm a) (ae_Term ae)); [by left|right].
    cbn. split_and!; [lia|done..]. }
  pose proof node_wf as Hw.
  apply (handleAppendEntries_spec k); [done|lia|done| |].
  - intros _ fx Hs _. eapply Hq; [exact Hs|]. right. split_and!; try done. by left.
  - intros a1 Hle. destruct Hct as [Hlt|Hct]; [lia|]. fold a1 in Hct. cbv zeta in Hct. split.
    + intros _ fx Hs _. eapply Hq; [exact Hs|]. destruct Hct as [?|(?&?&?&?)]; [by left|right].
      split_and!; try done. by right.
    + intros _ a2 fx Hs _. eapply Hq; [exact Hs|].
      assert (E : currentTerm (applied a2) = currentTerm a1 /\ votedFor (applied a2) = votedFor a1 /\
        votesReceived (applied a2) = votesReceived a1 /\ state (applied a2) = state a1).
      { unfold a2, learn_commit, appended. by case_match. }
      destruct E as (-> & -> & -> & ->).
      destruct Hct as [?|(?&?&?&?)]; [by left|right]. split_and!; try done. by right.
Qed.

Lemma handleAppendReply_elects ar :
  carries m (PAppendReply ar) ->
  wp False (handleAppendReply (From m) ar) e a (elects v a w (n1 ++ n2) [m]).
Proof.
  intros Hc. destruct (m_bounds _ Hc) as (Hp & Hf & Hne). pose proof (no_grant m _ Hc eq_refl) as Hg.
  pose proof node_wf as Hw.
  assert (Hq : forall a' fx, no_tokens v fx -> currentTerm a' = currentTerm a ->
     votedFor a' = votedFor a -> votesReceived a' = votesReceived a -> state a' = state a ->
     elects v a w (n1 ++ n2) [m] tt a' fx).
  { intros a' fx Hnt ? ? ? ?. apply estep_quiet; [done|done|apply consumes_m|done|].
    right. split_and!; try done; [by left|].
    intros _ x Hx. rewrite Hg in Hx. by apply elem_of_nil in Hx. }
  apply (handleAppendReply_spec k); [done|lia|done|by apply (env_ok_peers _ _ _ _ He)|..].
  - intros Hlt fx [Hs _]. apply estep_quiet; [done|done|apply consumes_m|by apply no_tokens_nil|].
    left. done.
  - intros _ _. apply Hq; try done. by apply no_tokens_nil.
  - intros _ Hl. split.
    + intros _ a1. split; [apply Hq; try done; by apply no_tokens_nil|].
      intros i _ fx Hs _. apply Hq; try done. by apply no_tokens_nil.
    + intros _ a1 fx Hs _. assert (Hnt : no_tokens v fx) by (by eapply no_tokens_to_peer).
      apply Hq; [done|unfold a1, backed_off; by case_match..].
Qed.

(** A vote: the request's token becomes the reply's. *)
Lemma vote_granted_elects rv a' fx :
  carries m (PRequestVote rv) -> currentTerm a <= currentTerm a' -> currentTerm a' = rv_Term rv ->
  votedFor a' = rv_CandidateID rv ->
  sent fx = [(From m, PRequestVoteReply (mkRVR kindRequestVoteReply (rv_Term rv) true))] ->
  (currentTerm a = currentTerm a' -> votedFor a <> 0 -> votedFor a' = votedFor a) ->
  (currentTerm a < currentTerm a' /\ state a' = stateFollower \/
   currentTerm a' = currentTerm a /\ state a' = state a /\ votesReceived a' = votesReceived a) ->
  elects v a w (n1 ++ n2) [m] tt a' fx.
Proof.
  intros Hc Hle Ht Hvf Hs Hkeep Hcase. pose proof (no_grant m _ Hc eq_refl) as Hg.
  destruct (m_bounds _ Hc) as (Hp & Hf & Hne).
  assert (Hcid : rv_CandidateID rv = From m).
  { apply (ei_request _ Hi); [rewrite Hn; set_solver|done]. }
  assert (Etok : read token_of (packets v fx) = [(From m, v, rv_Term rv)]).
  { rewrite read_packets, Hs. done. }
  assert (Egr : read grant_of (packets v fx) = [(From m, v, rv_Term rv)]).
  { rewrite read_packets, Hs. done. }
  assert (Em : read token_of [m] = [(From m, v, rv_Term rv)]).
  { unfold read. cbn. unfold carries in Hc. rewrite Hc. cbn. by rewrite Hto. }
  assert (Hperm : read token_of ((n1 ++ n2) ++ packets v fx) ++
            read grant_of (w_delivered w ++ [m]) ≡ₚ tokens w).
  { unfold tokens, counted. rewrite Hn. change (m :: n2) with ([m] ++ n2).
    rewrite !read_app, Etok, Em, Hg, app_nil_r. solve_Permutation. }
  split.
  - done.
  - exists [m]. split; [done|]. rewrite Hg. intros x Hx. by apply elem_of_nil in Hx.
  - rewrite Hperm. apply (ei_nodup _ Hi).
  - intros x Hx. left. by rewrite <- Hperm.
  - intros x. rewrite read_app, Egr, !elem_of_app. intros [[Hx|Hx]|Hx].
    + left. apply (co_granted _ _ _ _ consumes_m). apply elem_of_app. by left.
    + right. apply list_elem_of_singleton in Hx as ->. cbn. split_and!; try done.
      * congruence.
      * intros E. apply Hpos. by rewrite <- E.
    + left. apply (co_granted _ _ _ _ consumes_m). apply elem_of_app. by right.
  - intros m' rv' [Hm|Hm]%elem_of_app Hc'; [left; by apply (co_net _ _ _ _ consumes_m)|].
    destruct (elem_of_packets v fx m' _ Hm Hc') as [_ Hin].
    rewrite Hs in Hin. by apply list_elem_of_singleton in Hin.
  - done.
  - intros Hst. destruct Hcase as [[_ E]|(Et & Es & Er)]; [congruence|]. rewrite Es in Hst.
    destruct (ei_cand _ Hi v a Ha Hst) as [E1 E2].
    assert (Hv0 : votedFor a <> 0).
    { rewrite E1. intros E. apply Hpos. rewrite <- E. apply node_id. }
    split; [rewrite Hkeep; done|]. by rewrite Er, E2, Et, read_app, Hg, app_nil_r.
  - intros Hst. destruct Hcase as [[_ E]|(Et & Es & Er)]; [congruence|]. left. rewrite Es in Hst.
    rewrite Et. by apply (ei_leader _ Hi).
Qed.

Lemma handleRequestVote_elects rv :
  carries m (PRequestVote rv) ->
  wp False (handleRequestVote (From m) rv) e a (elects v a w (n1 ++ n2) [m]).
Proof.
  intros Hc. destruct (m_bounds _ Hc) as (Hp & Hf & Hne). pose proof (no_grant m _ Hc eq_refl) as Hg.
  apply handleRequestVote_spec; [apply node_wf|]. intros a1 fx Hs _.
  assert (Ha1 : currentTerm a < currentTerm a1 /\ state a1 = stateFollower \/ a1 = a).
  { unfold a1, newer_term. destruct (Z.ltb_spec (currentTerm a) (rv_Term rv)); [by left|by right]. }
  unfold voted. destruct (grants rv a1) eqn:Egr.
  - assert (Ht : rv_Term rv = currentTerm a1 /\
      (votedFor a1 = 0 \/ votedFor a1 = rv_CandidateID rv)).
    { unfold grants in Egr. destruct (lastLogInfo a1). lia. }
    destruct Ht as [Ht Hv0]. apply (vote_granted_elects rv); [done|..]; cbn.
    + destruct Ha1 as [[? _]| ->]; lia.
    + done.
    + done.
    + rewrite Hs. unfold to_peer. rewrite decide_True; [by rewrite Ht|].
      by apply (env_ok_peers _ _ _ _ He).
    + destruct Ha1 as [[? _]| ->]; [lia|]. intros _ H0. destruct Hv0; [done|congruence].
    + destruct Ha1 as [?| ->]; [by left|by right].
  - apply estep_quiet; [done|done|apply consumes_m|by eapply no_tokens_to_peer|].
    destruct Ha1 as [?| ->]; [by left|right]. split_and!; try done; [by left|].
    intros _ x Hx. rewrite Hg in Hx. by apply elem_of_nil in Hx.
Qed.

(** A reply: a grant for the candidate's own term is one more vote. *)
Lemma handleRequestVoteReply_elects rvr :
  carries m (PRequestVoteReply rvr) ->
  wp False (handleRequestVoteReply rvr) e a (elects v a w (n1 ++ n2) [m]).
Proof.
  intros Hc. destruct (m_bounds _ Hc) as (Hp & Hf & Hne). pose proof node_wf as Hw.
  pose proof (wf_len _ _ _ Hw). pose proof consumes_m as Hco.
  assert (Hread : read grant_of [m] =
    if rvr_VoteGranted rvr then [(v, From m, rvr_Term rvr)] else []).
  { unfold read. cbn. unfold carries in Hc. rewrite Hc. cbn. rewrite Hto.
    by destruct (rvr_VoteGranted rvr). }
  apply handleRequestVoteReply_spec; [apply Hw|lia|..].
  - intros Hlt fx [Hs _]. apply estep_quiet; [done|done|done|by apply no_tokens_nil|by left].
  - intros Hle Hno. apply estep_quiet; [done|done|done|by apply no_tokens_nil|].
    right. split_and!; try done; [by left|]. intros Hst x Hx. rewrite Hread in Hx.
    destruct (rvr_VoteGranted rvr) eqn:Eg; [|by apply elem_of_nil in Hx].
    apply list_elem_of_singleton in Hx as ->. cbn. intros E. unfold counts in Hno.
    rewrite Eg, bool_decide_true in Hno by done. lia.
  - intros a1 Hyes. unfold counts in Hyes. apply andb_prop in Hyes as [Hyes Eg].
    apply andb_prop in Hyes as [Hst Et]. apply bool_decide_eq_true in Hst. apply Z.eqb_eq in Et.
    destruct (ei_cand _ Hi v a Ha Hst) as [E1 E2].
    assert (Hcount : votesReceived a1 = 1 + zlen (filter
      (fun x : token => x.1.1 = v /\ x.2 = currentTerm a) (read grant_of (w_delivered w ++ [m])))).
    { cbn. rewrite E2, read_app, filter_app, zlen_app, Hread, Eg.
      rewrite filter_cons, decide_True, filter_nil by done. change (zlen [_]) with 1.
      unfold votes_for, counted. lia. }
    assert (Hv0 : v <> 0).
    { intros E. apply Hpos. rewrite <- E. apply node_id. }
    split.
    + intros _. apply estep_no_tokens; try done; [by apply no_tokens_nil|].
      cbn. by rewrite Hst.
    + intros Hmaj fx Hs _. apply estep_no_tokens; try done; [by eapply no_tokens_broadcast|].
      intros _. right. split; [done|]. split; [done|].
      rewrite <- (majority_quorum v e node_id He). cbn [led currentTerm set_matchIndex set_nextIndex
        set_leaderID set_state]. change (currentTerm a1) with (currentTerm a).
      by rewrite <- Hcount.
Qed.

Lemma OnMessage_elects : wp False (OnMessage m) e a (elects v a w (n1 ++ n2) [m]).
Proof.
  rewrite OnMessage_decode. destruct (decode m) as [[]|] eqn:Ed; cbn [handle_payload].
  - by apply handleRequestVote_elects.
  - by apply handleRequestVoteReply_elects.
  - by apply handleAppendEntries_elects.
  - by apply handleAppendReply_elects.
  - wp_step. apply estep_quiet; [done|done|apply consumes_m|by apply no_tokens_nil|].
    right. split_and!; try done; [by left|]. intros _ x Hx. unfold read in Hx. cbn in Hx.
    rewrite Ed in Hx. by apply elem_of_nil in Hx.
Qed.

End delivery.
End on_node.

(** * Reachable worlds *)

Lemma einv_steps k w w' :
  einv w -> bounded ids k w -> k < k_max -> step ids w w' -> einv w'.
Proof.
  intros Hi Hb Hk Hst. destruct Hst as [v h net' delivered' e a a' fx Hev Ha He Eh].
  apply (einv_step v a); [done|done|].
  destruct Hev as [m n1 n2 Hn|v name|v c|v].
  - exact (wp_elim _ _ _ _ _ _ _ _ (OnMessage_elects k w (To m) a e Hk Hb Hi Ha He m n1 n2 Hn eq_refl) Eh).
  - pose proof (wp_elim _ _ _ _ _ _ _ _ (OnTick_elects k w v a e Hk Hb Hi Ha He name) Eh) as Hs.
    unfold elects in Hs. by rewrite app_nil_r in Hs.
  - pose proof (wp_elim _ _ _ _ _ _ _ _ (Propose_elects k w v a e Hk Hb Hi Ha He c) Eh) as Hs.
    unfold elects in Hs. by rewrite app_nil_r in Hs.
  - pose proof (wp_elim _ _ _ _ _ _ _ _ (Start_elects k w v a e Hb Hi Ha He) Eh) as Hs.
    unfold elects in Hs. by rewrite app_nil_r in Hs.
Qed.

Lemma init_node c cb v a : w_nodes (init ids c cb) !! v = Some a -> a = New c cb.
Proof.
  cbn. intros E. apply elem_of_list_to_map_2 in E. by apply list_elem_of_fmap in E as (u & [= _ ->] & _).
Qed.

Lemma einv_init c cb : einv (init ids c cb).
Proof.
  split.
  - constructor.
  - intros c0 v t Hx. by apply elem_of_nil in Hx.
  - intros c0 v t Hx. by apply elem_of_nil in Hx.
  - intros m rv Hx. by apply elem_of_nil in Hx.
  - intros v t c0 Hx. by apply elem_of_nil in Hx.
  - intros v a E. by apply init_node in E as ->.
  - intros v t c1 c2 Hx. by apply elem_of_nil in Hx.
  - intros v a E. by apply init_node in E as ->.
  - intros v a E. by apply init_node in E as ->.
  - intros t c0 Hx. by apply elem_of_nil in Hx.
Qed.

Lemma einv_reach c cb n w :
  cfg_ok c -> Z.of_nat n <= k_max -> reach ids c cb n w -> einv w.
Proof.
  intros Hc. unfold reach. revert w. induction n as [|n IH]; intros w Hn Hr.
  - inversion Hr; subst. apply einv_init.
  - apply nsteps_inv_r in Hr as (w1 & Hr & Hs). apply (einv_steps (Z.of_nat n) w1); [|..|done].
    + apply IH; [lia|done].
    + apply (bounded_reach ids c cb); [done|done|lia|done].
    + lia.
Qed.

(** * Counting *)

(** The voters that made [c] leader of [t]. *)
Definition voters (c t : Z) (w : World) : list Z := c :: ((fun x : token => x.1.2) <$> votes_for c t w).

Lemma elem_of_votes_for c t w x :
  x ∈ votes_for c t w <-> (exists v, x = (c, v, t)) /\ x ∈ counted w.
Proof.
  unfold votes_for. rewrite list_elem_of_filter. destruct x as [[c' v] t']. cbn. naive_solver.
Qed.

Lemma voters_ok c t w :
  einv w -> c ∈ ids -> NoDup (voters c t w) /\ (forall v, v ∈ voters c t w -> v ∈ ids).
Proof.
  intros Hi Hc.
  assert (Htok : forall x, x ∈ counted w -> x ∈ tokens w) by (intros; apply elem_of_app; by right).
  assert (Hin : forall v, v ∈ (fun x : token => x.1.2) <$> votes_for c t w -> v ∈ ids /\ v <> c).
  { intros v (x & -> & [(u & ->) Hx]%elem_of_votes_for)%list_elem_of_fmap.
    by destruct (ei_token _ Hi _ _ _ (Htok _ Hx)) as (? & ? & _). }
  split.
  - constructor; [intros Hin'; by destruct (Hin c Hin')|].
    apply NoDup_fmap_2_strong.
    + intros x y [[u ->] _]%elem_of_votes_for [[u' ->] _]%elem_of_votes_for. cbn. by intros ->.
    + apply NoDup_filter. pose proof (ei_nodup _ Hi) as Hn. unfold tokens in Hn.
      by apply NoDup_app in Hn as (_ & _ & ?).
  - intros v [->|Hv]%elem_of_cons; [done|by apply Hin].
Qed.

Lemma voters_voted c t w v : einv w -> (t, c) ∈ w_leaders w -> v ∈ voters c t w -> (v, t, c) ∈ w_votes w.
Proof.
  intros Hi Hl [->|Hv]%elem_of_cons; [by apply (ei_leaders _ Hi)|].
  apply list_elem_of_fmap in Hv as (x & -> & [(u & ->) Hx]%elem_of_votes_for).
  apply (ei_granted _ Hi). apply elem_of_app. by right.
Qed.

Lemma voters_quorum c t w : einv w -> (t, c) ∈ w_leaders w -> quorum <= zlen (voters c t w).
Proof.
  intros Hi Hl. destruct (ei_leaders _ Hi _ _ Hl) as [_ Hq]. unfold voters, zlen in *.
  cbn [length]. rewrite length_fmap. lia.
Qed.

Lemma leader_in_ids w n c cb t l :
  cfg_ok c -> Z.of_nat n <= k_max -> reach ids c cb n w -> einv w -> (t, l) ∈ w_leaders w -> l ∈ ids.
Proof.
  intros Hc Hn Hr Hi Hl. destruct (ei_leaders _ Hi _ _ Hl) as [Hv _].
  destruct (ei_votes _ Hi _ _ _ Hv) as (_ & a & Ha & _).
  apply (bd_dom ids _ w (bounded_reach ids c cb n w Hnd Hc Hn Hr)). eauto.
Qed.

Lemma quorums_meet l1 l2 :
  Z.odd (zlen ids) = true -> NoDup l1 -> NoDup l2 -> (forall v, v ∈ l1 -> v ∈ ids) ->
  (forall v, v ∈ l2 -> v ∈ ids) -> quorum <= zlen l1 -> quorum <= zlen l2 ->
  exists v, v ∈ l1 /\ v ∈ l2.
Proof.
  intros Hodd Hn1 Hn2 H1 H2 Hq1 Hq2.
  destruct (decide (Exists (fun v => v ∈ l2) l1)) as [Hex|Hno].
  { apply Exists_exists in Hex as (v & ? & ?). eauto. }
  exfalso. assert (Hdis : forall v, v ∈ l1 -> v ∉ l2).
  { intros v Hv1 Hv2. apply Hno, Exists_exists. eauto. }
  assert (Hle : (length (l1 ++ l2) <= length ids)%nat).
  { apply submseteq_length, NoDup_submseteq; [apply NoDup_app; split_and!; done|].
    intros v [?|?]%elem_of_app; auto. }
  rewrite length_app in Hle. unfold quorum in *. apply Z.odd_spec in Hodd as [h Hh]. rewrite Hh in *.
  replace ((2 * h + 1 - 1) `div` 2) with h in *; [unfold zlen in *; lia|].
  replace (2 * h + 1 - 1) with (h * 2) by lia. by rewrite Z.div_mul.
Qed.

End election.

Lemma leaders_agree `{Json} ids c cb n w t l1 l2 :
  NoDup ids -> 0 ∉ ids -> Z.odd (zlen ids) = true -> cfg_ok c -> Z.of_nat n <= k_max ->
  reach ids c cb n w -> (t, l1) ∈ w_leaders w -> (t, l2) ∈ w_leaders w -> l1 = l2.
Proof.
  intros Hnd Hpos Hodd Hc Hn Hr H1 H2.
  assert (Hi : einv ids w) by (by apply (einv_reach ids Hnd Hpos c cb n)).
  assert (Hl : forall l, (t, l) ∈ w_leaders w -> l ∈ ids) by (intros l; by apply (leader_in_ids ids Hnd w n c cb)).
  destruct (voters_ok ids l1 t w Hi (Hl _ H1)) as [Hn1 Hin1].
  destruct (voters_ok ids l2 t w Hi (Hl _ H2)) as [Hn2 Hin2].
  destruct (quorums_meet ids (voters l1 t w) (voters l2 t w)) as (v & Hv1 & Hv2); try done.
  - by apply (voters_quorum ids).
  - by apply (voters_quorum ids).
  - apply (ei_unique ids w Hi v t); by apply (voters_voted ids).
Qed.

(** C1: election safety.  In a cluster with an odd number of nodes, after fewer
    than 2^32 - 1 steps (so that terms have not wrapped), at most one node has
    ever been leader of any given term, whatever messages were lost, delayed or
    reordered and whenever timers ticked; in particular two current leaders of
    one term are the same node. *)
Theorem raft_election_safety `{Json} ids c cb n w :
  NoDup ids -> 0 ∉ ids -> Z.odd (zlen ids) = true -> cfg_ok c -> Z.of_nat n <= k_max ->
  reach ids c cb n w ->
  (forall t l1 l2, (t, l1) ∈ w_leaders w -> (t, l2) ∈ w_leaders w -> l1 = l2) /\
  (forall v1 v2 a1 a2, w_nodes w !! v1 = Some a1 -> w_nodes w !! v2 = Some a2 ->
     IsLeader a1 = true -> IsLeader a2 = true -> currentTerm a1 = currentTerm a2 -> v1 = v2).
Proof.
  intros Hnd Hpos Hodd Hc Hn Hr.
  assert (Hi : einv ids w) by (by apply (einv_reach ids Hnd Hpos c cb n)).
  assert (Hu : forall t l1 l2, (t, l1) ∈ w_leaders w -> (t, l2) ∈ w_leaders w -> l1 = l2).
  { intros t l1 l2. by apply (leaders_agree ids c cb n). }
  split; [exact Hu|]. intros v1 v2 a1 a2 H1 H2 L1 L2 Et.
  apply bool_decide_eq_true in L1, L2. apply (Hu (currentTerm a1)).
  - by apply (ei_leader ids w Hi).
  - rewrite Et. by apply (ei_leader ids w Hi).
Qed.
