(* ===== verification/RaftLog.v ===== *)
(** RaftLog: log matching.  In a cluster with an odd number of nodes, two logs
    that hold an entry of the same term at the same index are identical up to
    it; and the callback of every node is given the indices 1, 2, 3, ... in
    order, each once. *)
From S2P Require Export RaftElection.

(** * Merging two logs that match *)

Definition log_agree (l l' : list LogEntry) : Prop :=
  forall i, 1 <= i -> i <= zlen l -> i <= zlen l' -> term_at l i = term_at l' i ->
    take (Z.to_nat i) l = take (Z.to_nat i) l'.

Lemma term_at_lookup l p x : l !! p = Some x -> term_at l (Z.of_nat p + 1) = le_Term x.
Proof.
  intros E. unfold term_at. rewrite decide_True by lia.
  replace (Z.to_nat (Z.of_nat p + 1 - 1)) with p by lia. by rewrite E.
Qed.

Lemma merge_entries_either l l' n : forall p,
  log_agree l l' -> take p l = take p l' -> (length l' - p <= n)%nat ->
  merge_entries (drop p l') (drop p l) = drop p l \/
  merge_entries (drop p l') (drop p l) = drop p l'.
Proof.
  induction n as [|n IH]; intros p Ha Hp Hn.
  { rewrite (drop_ge l') by lia. by left. }
  destruct (l' !! p) as [e|] eqn:Ee; [|rewrite (drop_ge l') by (by apply lookup_ge_None); by left].
  destruct (l !! p) as [x|] eqn:Ex.
  2: { right. rewrite (drop_ge l) by (by apply lookup_ge_None). apply merge_entries_nil_r. }
  rewrite (drop_S _ _ _ Ee), (drop_S _ _ _ Ex). cbn [merge_entries].
  destruct (Z.eqb_spec (le_Term x) (le_Term e)) as [Ht|]; [|by right].
  pose proof (lookup_lt_Some _ _ _ Ex). pose proof (lookup_lt_Some _ _ _ Ee).
  assert (HS : take (S p) l = take (S p) l').
  { replace (S p) with (Z.to_nat (Z.of_nat p + 1)) by lia. apply Ha; unfold zlen; try lia.
    by rewrite (term_at_lookup _ _ _ Ex), (term_at_lookup _ _ _ Ee). }
  assert (Exe : x = e).
  { rewrite (take_S_r _ _ _ Ex), (take_S_r _ _ _ Ee), Hp in HS. by apply app_inv_head in HS as [= ?]. }
  subst e. destruct (IH (S p) Ha HS ltac:(lia)) as [-> | ->]; [by left|by right].
Qed.

(** What a follower's log becomes: its own or the leader's. *)
Lemma merged_either l l' prev :
  log_agree l l' -> 0 <= prev <= zlen l ->
  (prev = 0 \/ prev <= zlen l' /\ term_at l prev = term_at l' prev) ->
  merged prev (drop_log prev l') l = l \/ merged prev (drop_log prev l') l = l'.
Proof.
  intros Ha Hp Hprev.
  assert (Ht : take (Z.to_nat prev) l = take (Z.to_nat prev) l').
  { destruct Hprev as [->|[? ?]]; [done|]. destruct (decide (prev = 0)) as [->|]; [done|].
    apply Ha; lia. }
  unfold merged, drop_log.
  destruct (merge_entries_either l l' (length l') (Z.to_nat prev) Ha Ht ltac:(lia)) as [-> | ->].
  - left. apply take_drop.
  - right. rewrite Ht. apply take_drop.
Qed.

(** * One step of a node, as the logs see it *)
Section logs.
Context `{Json} (ids : list Z).

Record lstep (a a' : Algorithm) (inp : option payload) (fx : list effect) : Prop := {
  ls_term : currentTerm a <= currentTerm a';
  ls_log : log a' = log a \/
    (state a = stateLeader /\ state a' = stateLeader /\ currentTerm a' = currentTerm a /\
     exists c, log a' = log a ++ [mkEntry (currentTerm a) c]) \/
    (state a' = stateFollower /\ exists ae, inp = Some (PAppendEntries ae) /\
     prev_ok ae (log a) = true /\ log a' = merged (ae_PrevLogIndex ae) (ae_Entries ae) (log a));
  ls_sent : forall to ae, (to, PAppendEntries ae) ∈ sent fx ->
    state a' = stateLeader /\ ae_Term ae = currentTerm a' /\
    ae_PrevLogTerm ae = term_at (log a') (ae_PrevLogIndex ae) /\
    ae_Entries ae = drop_log (ae_PrevLogIndex ae) (log a');
  ls_leader : state a' = stateLeader -> currentTerm a' = currentTerm a /\
    (state a = stateLeader \/ state a = stateCandidate /\ log a' = log a);
  ls_cand : state a' = stateCandidate ->
    currentTerm a' = currentTerm a /\ state a = stateCandidate \/ currentTerm a < currentTerm a';
}.

Lemma lstep_follow a a' inp fx :
  currentTerm a <= currentTerm a' -> log a' = log a -> state a' = stateFollower ->
  (forall to ae, (to, PAppendEntries ae) ∉ sent fx) -> lstep a a' inp fx.
Proof.
  intros Ht Hl Hs Hf. split; try (by rewrite Hs); [done|by left|].
  intros to ae Hin. by apply Hf in Hin.
Qed.

Lemma lstep_same a a' inp fx :
  currentTerm a' = currentTerm a -> log a' = log a -> state a' = state a ->
  (forall to ae, (to, PAppendEntries ae) ∉ sent fx) -> lstep a a' inp fx.
Proof.
  intros Ht Hl Hs Hf. split.
  - lia.
  - by left.
  - intros to ae Hin. by apply Hf in Hin.
  - rewrite Hs. auto.
  - rewrite Hs. auto.
Qed.

Lemma not_in_nil to ae fx : sent fx = [] -> (to, PAppendEntries ae) ∉ sent fx.
Proof. intros ->. apply not_elem_of_nil. Qed.

Lemma not_in_to_peer e to0 p to ae fx :
  sent fx = to_peer e to0 p -> (forall x, p <> PAppendEntries x) -> (to, PAppendEntries ae) ∉ sent fx.
Proof.
  unfold to_peer. intros -> Hp. case_decide; [|apply not_elem_of_nil].
  intros [= _ E]%list_elem_of_singleton. by apply (Hp ae).
Qed.

Lemma in_broadcast e a to ae fx :
  sent fx = broadcast_of e a -> (to, PAppendEntries ae) ∈ sent fx -> ae = ae_of e a to.
Proof. intros -> (p & [= -> ->] & _)%list_elem_of_fmap. done. Qed.

Lemma handleRequestVote_lstep from rv e a :
  cfg_ok (cfg a) ->
  wp False (handleRequestVote from rv) e a (fun _ a' fx => lstep a a' (Some (PRequestVote rv)) fx).
Proof.
  intros Hc. apply handleRequestVote_spec; [done|]. intros a1 fx Hs _.
  assert (Hns : forall to ae, (to, PAppendEntries ae) ∉ sent fx).
  { intros to ae. by apply (not_in_to_peer _ _ _ _ _ _ Hs). }
  assert (E : currentTerm (voted rv a1) = currentTerm a1 /\ log (voted rv a1) = log a1 /\
    state (voted rv a1) = state a1) by (unfold voted; by case_match).
  destruct E as (Et & El & Es). unfold a1, newer_term in *.
  destruct (Z.ltb_spec (currentTerm a) (rv_Term rv)).
  - apply lstep_follow; rewrite ?Et, ?El, ?Es; [cbn; lia|done..].
  - by apply lstep_same; rewrite ?Et, ?El, ?Es.
Qed.

Lemma handleRequestVoteReply_lstep rvr e a :
  cfg_ok (cfg a) -> zlen (log a) <= k_max ->
  wp False (handleRequestVoteReply rvr) e a
    (fun _ a' fx => lstep a a' (Some (PRequestVoteReply rvr)) fx).
Proof.
  intros Hc Hl. apply handleRequestVoteReply_spec; [done|done|..].
  - intros Hlt fx [Hs _]. apply lstep_follow; [cbn; lia|done..|]. intros. by apply not_in_nil.
  - intros _ _. apply lstep_same; try done. intros. by apply not_in_nil.
  - intros a1 Hyes. assert (Hst : state a = stateCandidate).
    { unfold counts in Hyes. apply andb_prop in Hyes as [Hyes _].
      apply andb_prop in Hyes as [Hst _]. by apply bool_decide_eq_true in Hst. }
    split; [intros _; apply lstep_same; try done; intros; by apply not_in_nil|].
    intros _ fx Hs _. split.
    + done.
    + by left.
    + intros to ae Hin. by rewrite (in_broadcast _ _ _ _ _ Hs Hin).
    + intros _. split; [done|]. by right.
    + done.
Qed.

Lemma handleAppendEntries_lstep k from ae e a :
  wf k e a -> k <= k_max -> payload_wf k (PAppendEntries ae) ->
  wp False (handleAppendEntries from ae) e a
    (fun _ a' fx => lstep a a' (Some (PAppendEntries ae)) fx).
Proof.
  intros Hw Hk Hp.
  assert (Hf : forall b fx ok mi, sent fx = to_peer e from (reply_to b ok mi) ->
    forall to x, (to, PAppendEntries x) ∉ sent fx).
  { intros b fx ok mi Hs to x. by apply (not_in_to_peer _ _ _ _ _ _ Hs). }
  apply (handleAppendEntries_spec k); [done..| |].
  - intros _ fx Hs _. apply lstep_same; try done. by eapply Hf.
  - intros a1 Hle.
    assert (E : currentTerm a <= currentTerm a1 /\ state a1 = stateFollower).
    { unfold a1, contacted, heard. by destruct (Z.ltb_spec (currentTerm a) (ae_Term ae)); split; cbn; try lia. }
    destruct E as [Et Es]. assert (El : log a1 = log a) by apply contacted_log. split.
    + intros _ fx Hs _. apply lstep_follow; [done..|]. by eapply Hf.
    + intros Hok a2 fx Hs _.
      assert (E : currentTerm (applied a2) = currentTerm a1 /\ state (applied a2) = state a1 /\
        log (applied a2) = merged (ae_PrevLogIndex ae) (ae_Entries ae) (log a1)).
      { unfold a2, learn_commit, appended. by case_match. }
      destruct E as (E1 & E2 & E3). split; rewrite ?E1, ?E2, ?E3, ?Es; try done.
      * right. right. split; [done|]. exists ae. by rewrite El.
      * intros to x Hin. exfalso. by eapply Hf.
Qed.

Lemma handleAppendReply_lstep k from ar e a :
  wf k e a -> k <= k_max -> payload_wf k (PAppendReply ar) -> from ∈ env_Peers e ->
  wp False (handleAppendReply from ar) e a
    (fun _ a' fx => lstep a a' (Some (PAppendReply ar)) fx).
Proof.
  intros Hw Hk Hp Hf. apply (handleAppendReply_spec k); [done..| | |].
  - intros Hlt fx [Hs _]. apply lstep_follow; [cbn; lia|done..|]. intros. by apply not_in_nil.
  - intros _ _. apply lstep_same; try done. intros. by apply not_in_nil.
  - intros _ Hl. split.
    + intros _ a1. split; [|intros i _ fx Hs _]; apply lstep_same; try done; intros; by apply not_in_nil.
    + intros _ a1 fx Hs _.
      assert (E : currentTerm a1 = currentTerm a /\ log a1 = log a /\ state a1 = state a).
      { unfold a1, backed_off. by case_match. }
      destruct E as (Et & El & Es). split; rewrite ?Et, ?El, ?Es; try done.
      * by left.
      * intros to ae Hin. rewrite Hs in Hin. unfold to_peer in Hin.
        rewrite decide_True in Hin by done. apply list_elem_of_singleton in Hin as [= -> ->].
        unfold ae_of. cbn. by rewrite Et, El.
      * intros _. split; [done|by left].
      * by left.
Qed.

Lemma OnTick_lstep k name e a :
  wf k e a -> k < k_max -> wp False (OnTick name) e a (fun _ a' fx => lstep a a' None fx).
Proof.
  intros Hw Hk. pose proof (wf_term _ _ _ Hw). apply (OnTick_spec k); [done|lia|..].
  - intros _ fx Hs _.
    assert (Et : currentTerm (campaigned e a) = currentTerm a + 1).
    { cbn. apply wrap_small. unfold is_uint, k_max in *. lia. }
    split; rewrite ?Et; [lia|by left| |done|right; lia].
    intros to ae Hin. rewrite Hs in Hin. by apply list_elem_of_fmap in Hin as (p & [=] & _).
  - intros Hl fx Hs _. split; [done|by left| |intros _; split; [done|by left]|intros E; congruence].
    intros to ae Hin. rewrite (in_broadcast _ _ _ _ _ Hs Hin). done.
  - apply lstep_same; try done. intros. by apply not_in_nil.
Qed.

Lemma Propose_lstep k c e a :
  wf k e a -> k < k_max ->
  wp False (Propose c;; mret tt) e a (fun _ a' fx => lstep a a' None fx).
Proof.
  intros Hw Hk. apply wp_bind. apply (Propose_spec k); [done|done|..].
  - intros _. wp_step. apply lstep_same; try done. intros. by apply not_in_nil.
  - intros a1 Hl fx Hs _. wp_step. rewrite app_nil_r. split.
    + done.
    + right. left. split_and!; try done. by eexists.
    + intros to ae Hin. rewrite (in_broadcast _ _ _ _ _ Hs Hin). done.
    + intros _. split; [done|by left].
    + intros E. cbn in E. congruence.
Qed.

Lemma Start_lstep e a : cfg_ok (cfg a) -> wp False Start e a (fun _ a' fx => lstep a a' None fx).
Proof.
  intros Hc. apply resetElectionTimer_spec; [done|]. intros d _.
  apply lstep_same; try done. intros. by apply not_in_nil.
Qed.

End logs.

(** * The invariant *)
Section invariant.
Context `{Json} (ids : list Z).

Definition positive_terms (l : list LogEntry) : Prop := Forall (fun x => 1 <= le_Term x) l.

(** Every entry of [l] was put there, with everything before it, by the leader
    of its term. *)
Definition grounded (logs : list (Z * list LogEntry)) (l : list LogEntry) : Prop :=
  forall i, 1 <= i <= zlen l -> exists l', (term_at l i, l') ∈ logs /\ i <= zlen l' /\
    take (Z.to_nat i) l = take (Z.to_nat i) l'.

Definition chain (logs : list (Z * list LogEntry)) : Prop :=
  forall t l1 l2, (t, l1) ∈ logs -> (t, l2) ∈ logs -> l1 `prefix_of` l2 \/ l2 `prefix_of` l1.

Record linv (w : World) : Prop := {
  li_nodes : forall v a, w_nodes w !! v = Some a ->
    positive_terms (log a) /\ grounded (w_leader_logs w) (log a);
  li_logs : forall t l, (t, l) ∈ w_leader_logs w ->
    positive_terms l /\ grounded (w_leader_logs w) l;
  li_term : forall v a, w_nodes w !! v = Some a -> state a <> stateFollower -> 1 <= currentTerm a;
  li_chain : chain (w_leader_logs w);
  li_net : forall m ae, m ∈ w_net w -> carries m (PAppendEntries ae) ->
    exists l, (ae_Term ae, l) ∈ w_leader_logs w /\
      ae_PrevLogTerm ae = term_at l (ae_PrevLogIndex ae) /\
      ae_Entries ae = drop_log (ae_PrevLogIndex ae) l;
  li_leader : forall v a, w_nodes w !! v = Some a -> state a = stateLeader ->
    forall l, (currentTerm a, l) ∈ w_leader_logs w -> l `prefix_of` log a;
  li_link : forall t l, (t, l) ∈ w_leader_logs w -> exists v, (t, v) ∈ w_leaders w;
  li_past : forall t v, (t, v) ∈ w_leaders w -> exists a, w_nodes w !! v = Some a /\
    t <= currentTerm a /\ (t = currentTerm a -> state a <> stateCandidate);
}.

Lemma grounded_mono logs more l : grounded logs l -> grounded (logs ++ more) l.
Proof.
  intros Hg i Hi. destruct (Hg i Hi) as (l' & Hin & ? & ?). exists l'. split; [|done].
  apply elem_of_app. by left.
Qed.

Lemma prefix_take {A} n (l1 l2 : list A) :
  l1 `prefix_of` l2 -> (n <= length l1)%nat -> take n l1 = take n l2.
Proof. intros [k ->] Hn. rewrite take_app_le by done. done. Qed.

(** Grounded logs match. *)
Lemma grounded_agree logs l l' : chain logs -> grounded logs l -> grounded logs l' -> log_agree l l'.
Proof.
  intros Hc Hg Hg' i Hi Hl Hl' Ht.
  destruct (Hg i ltac:(lia)) as (x & Hx & Hlx & ->). destruct (Hg' i ltac:(lia)) as (y & Hy & Hly & ->).
  rewrite Ht in Hx. unfold zlen in *.
  destruct (Hc _ _ _ Hx Hy) as [Hp|Hp]; [|symmetry]; apply prefix_take; (done || lia).
Qed.

Lemma positive_term_at l i : positive_terms l -> 1 <= i <= zlen l -> 1 <= term_at l i.
Proof.
  intros Hp Hi. destruct (lookup_lt_is_Some_2 l (Z.to_nat (i - 1))) as [x Hx]; [unfold zlen in *; lia|].
  unfold term_at. rewrite decide_True by lia. rewrite Hx. cbn.
  unfold positive_terms in Hp. rewrite Forall_lookup in Hp. by apply (Hp _ _ Hx).
Qed.

Lemma term_at_beyond l i : zlen l < i -> term_at l i = 0.
Proof.
  intros Hi. unfold term_at. case_decide; [|done]. rewrite lookup_ge_None_2; [done|].
  unfold zlen in *. lia.
Qed.

(** Appending its own entry keeps a leader's log grounded once it is observed. *)
Lemma grounded_snoc logs t c l :
  grounded logs l -> (t, l ++ [mkEntry t c]) ∈ logs -> grounded logs (l ++ [mkEntry t c]).
Proof.
  intros Hg Hin i Hi. rewrite zlen_app in Hi. change (zlen [_]) with 1 in Hi.
  destruct (decide (i = zlen l + 1)) as [->|Hne].
  - exists (l ++ [mkEntry t c]). rewrite zlen_app. change (zlen [_]) with 1.
    split; [|split; [lia|done]]. unfold zlen at 1. rewrite (term_at_lookup _ _ (mkEntry t c)); [done|].
    by rewrite list_lookup_middle.
  - destruct (Hg i ltac:(lia)) as (l' & Hl' & Hle & Ht). exists l'.
    assert (Hn : (Z.to_nat i <= length l)%nat) by (unfold zlen in *; lia).
    rewrite take_app_le by done. split; [|done].
    unfold term_at in *. rewrite decide_True in * by lia. rewrite lookup_app_l by lia. done.
Qed.

(** The log after a step is grounded, and its terms are positive. *)
Lemma step_log_ok v a a' w inp fx logs' :
  linv w -> w_nodes w !! v = Some a -> lstep a a' inp fx ->
  (forall ae, inp = Some (PAppendEntries ae) -> 0 <= ae_PrevLogIndex ae /\
     exists m, m ∈ w_net w /\ carries m (PAppendEntries ae)) ->
  logs' = w_leader_logs w ++ leader_log_of a' ->
  positive_terms (log a') /\ grounded logs' (log a').
Proof.
  intros Hi Ha Hs Hinp ->. destruct (li_nodes _ Hi v a Ha) as [Hp Hg].
  destruct (ls_log _ _ _ _ Hs) as [->|[(Hl & Hl' & Ht & c & E)|(Hf & ae & -> & Hok & ->)]].
  - split; [done|by apply grounded_mono].
  - rewrite E. split.
    + apply Forall_app. split; [done|]. constructor; [|constructor]. cbn.
      apply (li_term _ Hi v a); [done|congruence].
    + apply grounded_snoc; [by apply grounded_mono|]. apply elem_of_app. right.
      unfold leader_log_of. rewrite decide_True by done. rewrite Ht, E. by left.
  - destruct (Hinp ae eq_refl) as (H0 & m & Hm & Hc).
    destruct (li_net _ Hi m ae Hm Hc) as (l' & Hl' & Hpt & ->).
    destruct (li_logs _ Hi _ _ Hl') as [Hp' Hg'].
    assert (Hagree : log_agree (log a) l').
    { by apply (grounded_agree (w_leader_logs w)); [apply (li_chain _ Hi)|..]. }
    assert (Hprev : ae_PrevLogIndex ae <= zlen (log a) /\ (ae_PrevLogIndex ae = 0 \/
      ae_PrevLogIndex ae <= zlen l' /\ term_at (log a) (ae_PrevLogIndex ae) = term_at l' (ae_PrevLogIndex ae))).
    { unfold prev_ok in Hok. pose proof (zlen_nonneg (log a)).
      destruct (decide (ae_PrevLogIndex ae = 0)) as [E|]; [rewrite E; split; [lia|by left]|].
      assert (ae_PrevLogIndex ae <= zlen (log a) /\
              term_at (log a) (ae_PrevLogIndex ae) = ae_PrevLogTerm ae) as [Hle Et] by lia.
      split; [done|right]. rewrite Et, Hpt. split; [|done].
      destruct (decide (ae_PrevLogIndex ae <= zlen l')); [done|].
      pose proof (positive_term_at (log a) (ae_PrevLogIndex ae) Hp ltac:(lia)) as Hpos.
      rewrite Et, Hpt, term_at_beyond in Hpos by lia. lia. }
    destruct Hprev as [Hle Hprev].
    destruct (merged_either (log a) l' (ae_PrevLogIndex ae) Hagree ltac:(lia) Hprev) as [-> | ->];
      (split; [done|by apply grounded_mono]).
Qed.


Lemma elem_of_leader_log_of a x :
  x ∈ leader_log_of a <-> state a = stateLeader /\ x = (currentTerm a, log a).
Proof. unfold leader_log_of. case_decide; set_solver. Qed.

(** Invariance, given what a step does to the logs, and that terms have one
    leader. *)
Section step.
Context (k v : Z) (a a' : Algorithm) (inp : option payload) (fx : list effect) (w : World)
  (net' delivered' : list WireMessage).
#[local] Notation w' := (after v a' fx net' delivered' w).
Hypothesis Hi : linv w.
Hypothesis Hei : einv ids w.
Hypothesis Ha : w_nodes w !! v = Some a.
Hypothesis Hs : lstep a a' inp fx.
Hypothesis Hnet : forall m, m ∈ net' -> m ∈ w_net w.
Hypothesis Huniq : forall t l1 l2, (t, l1) ∈ w_leaders w' -> (t, l2) ∈ w_leaders w' -> l1 = l2.

Lemma leader_logs_after t l :
  (t, l) ∈ w_leader_logs w' <->
  (t, l) ∈ w_leader_logs w \/ (state a' = stateLeader /\ t = currentTerm a' /\ l = log a').
Proof. cbn. rewrite elem_of_app, elem_of_leader_log_of. naive_solver. Qed.

Lemma leaders_after t u :
  (t, u) ∈ w_leaders w' <->
  (t, u) ∈ w_leaders w \/ (state a' = stateLeader /\ t = currentTerm a' /\ u = v).
Proof. cbn. rewrite elem_of_app, elem_of_leader_of. naive_solver. Qed.

(** The observed logs of a leader's term are prefixes of its log. *)
Lemma own_term_prefix l :
  state a' = stateLeader -> (currentTerm a', l) ∈ w_leader_logs w -> l `prefix_of` log a'.
Proof.
  intros Hl Hin. destruct (ls_leader _ _ _ _ Hs Hl) as [Et [Hst|[Hst _]]].
  - rewrite Et in Hin. pose proof (li_leader _ Hi v a Ha Hst l Hin) as Hpl.
    destruct (ls_log _ _ _ _ Hs) as [->|[(_ & _ & _ & c & ->)|(Hf & _)]]; [done| |congruence].
    by apply prefix_app_r.
  - exfalso. destruct (li_link _ Hi _ _ Hin) as [u Hu].
    assert (u = v) as ->.
    { apply (Huniq (currentTerm a')); apply leaders_after; [by left|by right]. }
    destruct (li_past _ Hi _ _ Hu) as (b & Hb' & _ & Hnc). rewrite Ha in Hb'. injection Hb' as <-.
    by apply Hnc.
Qed.

Lemma leader_log_after u b l :
  w_nodes w' !! u = Some b -> state b = stateLeader -> (currentTerm b, l) ∈ w_leader_logs w' ->
  l `prefix_of` log b.
Proof.
  intros Hu Hst Hin. destruct (after_node Hu) as [[-> ->]|[Hne Hu']].
  - apply leader_logs_after in Hin as [Hin|(_ & _ & ->)]; [by apply own_term_prefix|done].
  - apply leader_logs_after in Hin as [Hin|(Hl & Et & ->)]; [by apply (li_leader _ Hi u)|].
    exfalso. apply Hne. apply (Huniq (currentTerm b)); apply leaders_after.
    + left. by apply (ei_leader _ _ Hei).
    + right. done.
Qed.

Lemma past_leader_after t u :
  (t, u) ∈ w_leaders w' -> exists b, w_nodes w' !! u = Some b /\ t <= currentTerm b /\
    (t = currentTerm b -> state b <> stateCandidate).
Proof.
  pose proof (ls_term _ _ _ _ Hs) as Hterm. intros [Hin|(Hl & -> & ->)]%leaders_after.
  - destruct (li_past _ Hi _ _ Hin) as (b & Hb' & Hle & Hnc).
    destruct (decide (u = v)) as [->|Hne].
    + rewrite Ha in Hb'. injection Hb' as <-. exists a'. cbn. rewrite lookup_insert_eq.
      split; [done|]. split; [lia|]. intros Et Hc.
      destruct (ls_cand _ _ _ _ Hs Hc) as [[E1 E2]|]; [|lia]. apply Hnc; [lia|done].
    + exists b. cbn. by rewrite lookup_insert_ne by done.
  - exists a'. cbn. rewrite lookup_insert_eq. split; [done|]. split; [lia|]. by rewrite Hl.
Qed.

Lemma linv_step :
  bounded ids k w -> v ∈ ids -> (exists e, env_ok ids v e) ->
  (forall ae, inp = Some (PAppendEntries ae) -> 0 <= ae_PrevLogIndex ae /\
     exists m, m ∈ w_net w /\ carries m (PAppendEntries ae)) ->
  linv w'.
Proof.
  intros Hb Hv [e He] Hinp.
  assert (Hlog' : positive_terms (log a') /\ grounded (w_leader_logs w') (log a')).
  { by apply (step_log_ok v a a' w inp fx). }
  split.
  - intros u b Hu. destruct (after_node Hu) as [[-> ->]|[_ Hu']]; [done|].
    destruct (li_nodes _ Hi u b Hu'). split; [done|by apply grounded_mono].
  - intros t l [Hin|(_ & -> & ->)]%leader_logs_after; [|done].
    destruct (li_logs _ Hi _ _ Hin). split; [done|by apply grounded_mono].
  - intros u b Hu Hst. destruct (after_node Hu) as [[-> ->]|[_ Hu']]; [|by apply (li_term _ Hi u)].
    pose proof (wf_term _ _ _ (bd_nodes _ _ _ Hb v a e Ha He)).
    destruct (state a') eqn:Es; [done| |].
    + destruct (ls_cand _ _ _ _ Hs Es) as [[-> E]|]; [|lia]. apply (li_term _ Hi v a Ha). congruence.
    + destruct (ls_leader _ _ _ _ Hs Es) as [-> E]. apply (li_term _ Hi v a Ha).
      destruct E as [?|[? _]]; congruence.
  - intros t l1 l2 [H1|(Hl1 & E1 & ->)]%leader_logs_after [H2|(Hl2 & E2 & ->)]%leader_logs_after; subst.
    + by apply (li_chain _ Hi t).
    + left. by apply own_term_prefix.
    + right. by apply own_term_prefix.
    + by left.
  - intros m ae [Hm|Hm]%elem_of_app Hc.
    + destruct (li_net _ Hi m ae (Hnet _ Hm) Hc) as (l & Hl & ?). exists l. split; [|done].
      apply leader_logs_after. by left.
    + destruct (elem_of_packets v fx m _ Hm Hc) as [_ Hin].
      destruct (ls_sent _ _ _ _ Hs _ _ Hin) as (Hl & Et & Ep & Ee). exists (log a').
      split; [|done]. apply leader_logs_after. by right.
  - intros u b Hu Hst l. by apply (leader_log_after u).
  - intros t l [Hin|(Hl & -> & ->)]%leader_logs_after.
    + destruct (li_link _ Hi _ _ Hin) as [u Hu]. exists u. apply leaders_after. by left.
    + exists v. apply leaders_after. by right.
  - apply past_leader_after.
Qed.

End step.

End invariant.

(** * Reachable worlds *)
Section reachable.
Context `{Json} (ids : list Z) (c : RaftConfig) (cb : bool).
Context (Hnd : NoDup ids) (Hpos : 0 ∉ ids) (Hodd : Z.odd (zlen ids) = true) (Hc : cfg_ok c).

(** The step of any event, as the logs see it. *)
Lemma event_lstep k w v h net' delivered' e a :
  bounded ids k w -> k < k_max -> event w v h net' delivered' -> w_nodes w !! v = Some a ->
  env_ok ids v e -> exists inp,
    wp False h e a (fun _ a' fx => lstep a a' inp fx) /\
    (forall ae, inp = Some (PAppendEntries ae) -> 0 <= ae_PrevLogIndex ae /\
       exists m, m ∈ w_net w /\ carries m (PAppendEntries ae)).
Proof.
  intros Hb Hk Hev Ha He. pose proof (bd_nodes _ _ _ Hb v a e Ha He) as Hw.
  pose proof (wf_len _ _ _ Hw).
  destruct Hev as [m n1 n2 Hn|v name|v cm|v].
  - exists (decode m). assert (Hm : m ∈ w_net w) by (rewrite Hn; set_solver). split.
    + rewrite OnMessage_decode. destruct (decode m) as [p|] eqn:Ep.
      2: { apply lstep_same; try done. intros. by apply not_in_nil. }
      destruct (bd_net _ _ _ Hb m p Hm Ep) as (Hp & Hf & _ & Hne).
      assert (From m ∈ env_Peers e) by (by apply (env_ok_peers _ _ _ _ He)).
      destruct p; cbn [handle_payload].
      * apply handleRequestVote_lstep. apply Hw.
      * apply handleRequestVoteReply_lstep; [apply Hw|lia].
      * apply (handleAppendEntries_lstep k); [done|lia|done].
      * apply (handleAppendReply_lstep k); [done|lia|done..].
    + intros ae E. destruct (bd_net _ _ _ Hb m _ Hm E) as ((_ & _ & ? & _) & _).
      split; [done|]. by exists m.
  - exists None. split; [by apply (OnTick_lstep k)|done].
  - exists None. split; [by apply (Propose_lstep k)|done].
  - exists None. split; [apply Start_lstep; apply Hw|done].
Qed.

Lemma linv_init : linv (init ids c cb).
Proof.
  split.
  - intros v a E. apply init_node in E as ->. split; [constructor|].
    intros i Hi. unfold zlen in Hi. cbn in Hi. lia.
  - intros t l Hx. by apply elem_of_nil in Hx.
  - intros v a E. by apply init_node in E as ->.
  - intros t l1 l2 Hx. by apply elem_of_nil in Hx.
  - intros m ae Hx. by apply elem_of_nil in Hx.
  - intros v a E. by apply init_node in E as ->.
  - intros t l Hx. by apply elem_of_nil in Hx.
  - intros t v Hx. by apply elem_of_nil in Hx.
Qed.

Lemma linv_reach n w : Z.of_nat n <= k_max -> reach ids c cb n w -> linv w.
Proof.
  revert w. induction n as [|n IH]; intros w Hn Hr.
  - inversion Hr; subst. apply linv_init.
  - pose proof Hr as Hr'. apply nsteps_inv_r in Hr' as (w1 & Hr1 & Hs).
    pose proof (bounded_reach ids c cb n w1 Hnd Hc ltac:(lia) Hr1) as Hb.
    pose proof (einv_reach ids Hnd Hpos c cb n w1 Hc ltac:(lia) Hr1) as Hei.
    assert (Hu : forall t l1 l2, (t, l1) ∈ w_leaders w -> (t, l2) ∈ w_leaders w -> l1 = l2).
    { intros t l1 l2. by apply (leaders_agree ids c cb (S n)). }
    specialize (IH w1 ltac:(lia) Hr1).
    destruct Hs as [v h net' delivered' e a a' fx Hev Ha He Eh].
    destruct (event_lstep (Z.of_nat n) w1 v h net' delivered' e a Hb ltac:(lia) Hev Ha He)
      as (inp & Hwp & Hinp).
    apply (linv_step ids (Z.of_nat n) v a a' inp fx); try done.
    + exact (wp_elim _ _ _ _ _ _ _ _ Hwp Eh).
    + intros m. by eapply event_net.
    + apply (bd_dom _ _ _ Hb). eauto.
    + by exists e.
Qed.

End reachable.

(** C2: log matching.  In an odd cluster, whenever the logs of two nodes hold an
    entry of the same term at the same index, they are identical up to that
    index, commands included. *)
Theorem raft_log_matching `{Json} ids c cb n w v1 v2 a1 a2 i :
  NoDup ids -> 0 ∉ ids -> Z.odd (zlen ids) = true -> cfg_ok c -> Z.of_nat n <= k_max ->
  reach ids c cb n w -> w_nodes w !! v1 = Some a1 -> w_nodes w !! v2 = Some a2 ->
  1 <= i -> i <= zlen (log a1) -> i <= zlen (log a2) ->
  term_at (log a1) i = term_at (log a2) i ->
  take (Z.to_nat i) (log a1) = take (Z.to_nat i) (log a2).
Proof.
  intros Hnd Hpos Hodd Hc Hn Hr H1 H2.
  pose proof (linv_reach ids c cb Hnd Hpos Hodd Hc n w Hn Hr) as Hi.
  apply (grounded_agree (w_leader_logs w)); [apply Hi| |]; by eapply (li_nodes w Hi).
Qed.
