(* ===== verification/RaftApply.v ===== *)
(** RaftApply: the apply callback.  Every node gives its callback the indices
    1, 2, 3, ... in order and each once, up to its lastApplied. *)
From S2P Require Export RaftBounds.

Section steps.
Context `{Json}.

(** What a step does to the applied entries of its node. *)
Record astep (a a' : Algorithm) (fx : list effect) : Prop := {
  as_cb : applyCb a' = applyCb a;
  as_le : lastApplied a <= lastApplied a';
  as_indices : applyCb a = true ->
    (applies fx).*1 = seqZ (lastApplied a + 1) (lastApplied a' - lastApplied a);
}.

Lemma astep_none a a' fx :
  applyCb a' = applyCb a -> lastApplied a' = lastApplied a -> applies fx = [] -> astep a a' fx.
Proof.
  intros Hcb Hl Ha. split; [done|lia|]. intros _. by rewrite Ha, Hl, Z.sub_diag, seqZ_nil by lia.
Qed.

Lemma numbered_indices lo l : (numbered lo l).*1 = seqZ (lo + 1) (zlen l).
Proof.
  revert lo. induction l as [|x l IH]; intros lo; [done|].
  rewrite numbered_cons, zlen_cons. pose proof (zlen_nonneg l).
  rewrite seqZ_cons by lia. cbn [fmap list_fmap fst]. rewrite IH. do 2 f_equal; lia.
Qed.

Lemma between_length lo hi l : 0 <= lo <= hi -> hi <= zlen l -> zlen (between lo hi l) = hi - lo.
Proof. unfold between, zlen. intros. rewrite length_take, length_drop. lia. Qed.

Lemma to_apply_indices a :
  applyCb a = true -> 0 <= lastApplied a -> commitIndex a <= zlen (log a) ->
  (to_apply a).*1 = seqZ (lastApplied a + 1) (lastApplied (applied a) - lastApplied a).
Proof.
  intros Hcb Hl Hc. unfold to_apply. rewrite Hcb, numbered_indices.
  change (lastApplied (applied a)) with (Z.max (lastApplied a) (commitIndex a)).
  destruct (decide (commitIndex a <= lastApplied a)).
  - rewrite between_nil by done. f_equal. unfold zlen. cbn. lia.
  - rewrite between_length by lia. f_equal. lia.
Qed.

(** Steps that end in [applyCommitted]. *)
Lemma astep_applied a b fx :
  applyCb b = applyCb a -> lastApplied b = lastApplied a -> 0 <= lastApplied a ->
  commitIndex b <= zlen (log b) \/ commitIndex b <= lastApplied b ->
  applies fx = to_apply b -> astep a (applied b) fx.
Proof.
  intros Hcb Hl H0 Hc Ha. split; [done|cbn [applied lastApplied set_lastApplied]; lia|].
  intros Hy. rewrite Ha. rewrite <- Hl. destruct Hc as [Hc|Hc].
  - apply to_apply_indices; [congruence|lia|done].
  - destruct (applied_id b Hc) as [-> ->]. by rewrite Z.sub_diag, seqZ_nil by lia.
Qed.

Lemma handle_payload_astep k from p e a :
  k <= k_max -> wf k e a -> payload_wf k p -> from ∈ env_Peers e ->
  wp False (handle_payload from p) e a (fun _ a' fx => astep a a' fx).
Proof.
  intros Hk Hw Hp Hf. pose proof (wf_commit _ _ _ Hw). pose proof (wf_len _ _ _ Hw).
  destruct p as [rv|rvr|ae|ar]; cbn [handle_payload].
  - apply handleRequestVote_spec; [apply Hw|]. intros a1 fx _ Ha.
    apply astep_none; [unfold voted, a1, newer_term; by repeat case_match..|done].
  - apply handleRequestVoteReply_spec; [apply Hw|lia|..].
    + intros _ fx [_ Ha]. by apply astep_none.
    + intros _ _. by apply astep_none.
    + intros a1 _. split; [intros _; by apply astep_none|]. intros _ fx _ Ha. by apply astep_none.
  - apply (handleAppendEntries_spec k); [done..| |].
    + intros _ fx _ Ha. by apply astep_none.
    + intros a1 _. pose proof (contacted_applied ae a) as E1. pose proof (contacted_commit ae a) as E2.
      assert (E3 : applyCb a1 = applyCb a) by (unfold a1, contacted, heard; by case_match).
      split; [intros _ fx _ Ha; by apply astep_none|]. intros Hok a2 fx _ Ha.
      apply astep_applied; [..|done].
      * unfold a2, learn_commit. by case_match.
      * unfold a2, learn_commit. by case_match.
      * lia.
      * unfold a2, learn_commit. fold a1 in E1, E2.
        change (commitIndex (appended ae a1)) with (commitIndex a1).
        case_match; [left|right]; cbn [commitIndex set_commitIndex log lastApplied appended set_log]; lia.
  - apply (handleAppendReply_spec k); [done..| | |].
    + intros _ fx [_ Ha]. by apply astep_none.
    + intros _ _. by apply astep_none.
    + intros _ _. split.
      * intros _ a1. split; [by apply astep_none|]. intros i [Hi _] fx _ Ha.
        apply astep_applied; [done|done|lia| |done]. left. apply Hi.
      * intros _ a1 fx _ Ha. apply astep_none; [unfold a1, backed_off; by case_match..|done].
Qed.

End steps.

Section reachable.
Context `{Json} (ids : list Z).

Lemma event_astep k w v h net' delivered' e a :
  bounded ids k w -> k < k_max -> event w v h net' delivered' -> w_nodes w !! v = Some a ->
  env_ok ids v e -> wp False h e a (fun _ a' fx => astep a a' fx).
Proof.
  intros Hb Hk Hev Ha He. pose proof (bd_nodes _ _ _ Hb v a e Ha He) as Hw.
  destruct Hev as [m n1 n2 Hn|v name|v c|v].
  - rewrite OnMessage_decode. destruct (decode m) as [p|] eqn:Hp; [|by apply astep_none].
    destruct (bd_net _ _ _ Hb m p) as (Hpw & Hf & _ & Hne); [rewrite Hn; set_solver|done|].
    apply (handle_payload_astep k); [lia|done|done|]. by apply (env_ok_peers _ _ _ _ He).
  - apply (OnTick_spec k); [done|lia|..]; [intros _ fx _ Ha'..|]; by apply astep_none.
  - apply wp_bind. apply (Propose_spec k); [done|done|..].
    + intros _. by apply astep_none.
    + intros a1 _ fx _ Ha'. wp_step. apply astep_none; [done|done|]. by rewrite app_nil_r.
  - apply resetElectionTimer_spec; [apply Hw|]. intros d _. by apply astep_none.
Qed.

(** The indices node [v] has given to its callback, in order. *)
Definition applied_at (v : Z) (w : World) : list Z :=
  omap (fun x => if decide (x.1 = v) then Some x.2.1 else None) (w_applied w).

Lemma applied_at_after v u a' fx net' delivered' w :
  applied_at u (after v a' fx net' delivered' w) =
  applied_at u w ++ (if decide (v = u) then (applies fx).*1 else []).
Proof.
  unfold applied_at. cbn. rewrite omap_app. f_equal. case_decide as Hd.
  - subst. induction (applies fx) as [|x l IH]; [done|]. cbn. rewrite decide_True by done.
    by rewrite IH.
  - induction (applies fx) as [|x l IH]; [done|]. cbn. by rewrite decide_False by done.
Qed.

Lemma applied_reach c n w :
  NoDup ids -> cfg_ok c -> Z.of_nat n <= k_max -> reach ids c true n w ->
  forall v a, w_nodes w !! v = Some a ->
    applyCb a = true /\ applied_at v w = seqZ 1 (lastApplied a).
Proof.
  intros Hnd Hc. revert w. induction n as [|n IH]; intros w Hn Hr v a Ha.
  - inversion Hr; subst. cbn in Ha. apply elem_of_list_to_map_2 in Ha.
    by apply list_elem_of_fmap in Ha as (u & [= _ ->] & _).
  - apply nsteps_inv_r in Hr as (w1 & Hr1 & Hs).
    pose proof (bounded_reach ids c true n w1 Hnd Hc ltac:(lia) Hr1) as Hb.
    specialize (IH w1 ltac:(lia) Hr1).
    destruct Hs as [u h net' delivered' e b b' fx Hev Hu He Eh].
    pose proof (wp_elim _ _ _ _ _ _ _ _
      (event_astep (Z.of_nat n) w1 u h net' delivered' e b Hb ltac:(lia) Hev Hu He) Eh) as Has.
    rewrite applied_at_after. cbn in Ha. case_decide as Huv.
    + subst u. rewrite lookup_insert_eq in Ha. injection Ha as <-. destruct (IH v b Hu) as [Hcb ->].
      split; [rewrite (as_cb _ _ _ Has); done|]. rewrite (as_indices _ _ _ Has Hcb).
      pose proof (as_le _ _ _ Has). pose proof (bd_nodes _ _ _ Hb v b e Hu He) as Hw.
      pose proof (wf_commit _ _ _ Hw).
      replace (lastApplied b') with (lastApplied b + (lastApplied b' - lastApplied b)) at 2 by lia.
      rewrite seqZ_app by lia. do 2 f_equal. lia.
    + rewrite lookup_insert_ne in Ha by done. rewrite app_nil_r. by apply IH.
Qed.

End reachable.

(** C16: the apply callback of every node, follower or leader, is called with the
    indices 1, 2, ..., lastApplied: in order, without gaps, and never twice for
    an index.  (The comment on [New] says that it is invoked on the leader.) *)
Theorem raft_applies_in_order `{Json} ids c n w v a :
  NoDup ids -> cfg_ok c -> Z.of_nat n <= k_max -> reach ids c true n w ->
  w_nodes w !! v = Some a ->
  applied_at v w = seqZ 1 (lastApplied a) /\ commitIndex a <= lastApplied a.
Proof.
  intros Hnd Hc Hn Hr Ha. destruct (applied_reach ids c n w Hnd Hc Hn Hr v a Ha) as [_ E].
  split; [done|].
  pose proof (bd_nodes _ _ _ (bounded_reach ids c true n w Hnd Hc Hn Hr) v a
    (mkEnv v (others ids v) 0 (fun _ => 0)) Ha ltac:(done)) as Hw.
  apply (wf_commit _ _ _ Hw).
Qed.
