(* ===== verification/RaftTraces.v ===== *)
(** RaftTraces: concrete schedules of Raft clusters.  They show that the
    hypotheses of the Raft theorems can hold, and what the implementation does
    where it departs from Raft: two leaders in one term when the number of
    nodes is even, committed entries that are lost, and a leader that panics
    when a peer is added. *)
From stdpp Require Import countable.
From S2P Require Export RaftLog RaftApply Coding.
#[local] Open Scope Z_scope.

(** * A concrete serialisation

    Any injective encoding satisfies [Json]; here, the one of Coding. *)
#[export] Instance LogEntry_countable : Countable LogEntry.
Proof.
  refine (inj_countable' (fun x => (le_Term x, le_Command x)) (fun '(t, c) => mkEntry t c) _).
  by intros [].
Defined.

Definition payload_code : Type :=
  (Z * Z * Z * Z * Z) + (Z * Z * bool) + (Z * Z * Z * Z * Z * list LogEntry * Z) + (Z * Z * bool * Z).

Definition to_code (p : payload) : payload_code :=
  match p with
  | PRequestVote (mkRV k t c i lt) => inl (inl (inl (k, t, c, i, lt)))
  | PRequestVoteReply (mkRVR k t g) => inl (inl (inr (k, t, g)))
  | PAppendEntries (mkAE k t l pi pt es lc) => inl (inr (k, t, l, pi, pt, es, lc))
  | PAppendReply (mkAR k t s m) => inr (k, t, s, m)
  end.

Definition of_code (c : payload_code) : payload :=
  match c with
  | inl (inl (inl (k, t, c, i, lt))) => PRequestVote (mkRV k t c i lt)
  | inl (inl (inr (k, t, g))) => PRequestVoteReply (mkRVR k t g)
  | inl (inr (k, t, l, pi, pt, es, lc)) => PAppendEntries (mkAE k t l pi pt es lc)
  | inr (k, t, s, m) => PAppendReply (mkAR k t s m)
  end.

#[export] Instance payload_countable : Countable payload.
Proof. refine (inj_countable' to_code of_code _). by intros [[]|[]|[]|[]]. Defined.

Definition as_requestVote p := match p with PRequestVote x => Some x | _ => None end.
Definition as_requestVoteReply p := match p with PRequestVoteReply x => Some x | _ => None end.
Definition as_appendEntries p := match p with PAppendEntries x => Some x | _ => None end.
Definition as_appendReply p := match p with PAppendReply x => Some x | _ => None end.

#[export] Program Instance code_json : Json := {|
  Marshal := code;
  Unmarshal_envelope bs := payload_kind <$> uncode bs;
  Unmarshal_requestVote bs := uncode bs ≫= as_requestVote;
  Unmarshal_requestVoteReply bs := uncode bs ≫= as_requestVoteReply;
  Unmarshal_appendEntries bs := uncode bs ≫= as_appendEntries;
  Unmarshal_appendReply bs := uncode bs ≫= as_appendReply;
|}.
Next Obligation. intros p. apply (code_nonempty p). Qed.
Next Obligation. intros p. cbn beta. by rewrite code_roundtrip. Qed.
Next Obligation. intros p. cbn beta. by rewrite code_roundtrip. Qed.
Next Obligation. intros p. cbn beta. by rewrite code_roundtrip. Qed.
Next Obligation. intros p. cbn beta. by rewrite code_roundtrip. Qed.
Next Obligation. intros p. cbn beta. by rewrite code_roundtrip. Qed.

(** * Schedules *)

Definition start (ids : list Z) : World := init ids DefaultConfig true.

(** The newest message in flight from one node to another. *)
Fixpoint find_msg (from to : Z) (ms : list WireMessage) : nat :=
  match ms with
  | [] => 0
  | m :: ms' =>
      if decide (Exists (fun m' => From m' = from /\ To m' = to) ms') then S (find_msg from to ms')
      else if decide (From m = from /\ To m = to) then 0%nat else S (find_msg from to ms')
  end.

Inductive play : Type :=
  | Elect (v : Z) | Beat (v : Z) | Say (v : Z) (c : bytes) | Pass (from to : Z).

(** The actions a play stands for, resolved while it runs. *)
Fixpoint resolve (ids : list Z) (ps : list play) (w : World) : list action :=
  match ps with
  | [] => []
  | p :: ps' =>
      let act := match p with
                 | Elect v => Tick v timerElection
                 | Beat v => Tick v timerHeartbeat
                 | Say v c => ProposeAt v c
                 | Pass from to => Deliver (find_msg from to (w_net w))
                 end in
      match exec ids act w with
      | Some w' => act :: resolve ids ps' w'
      | None => [act]
      end
  end.

Definition schedule (ids : list Z) (ps : list play) : list action := resolve ids ps (start ids).
Definition outcome_of (ids : list Z) (ps : list play) : option World :=
  exec_all ids (schedule ids ps) (start ids).

Definition split_brain : list play :=
  [Elect 1; Elect 3; Pass 1 2; Pass 2 1; Pass 3 4; Pass 4 3].

Definition elected : list play := [Elect 1; Pass 1 2; Pass 2 1].

(** Node 2 leads term 1 and appends x, which it cannot replicate; node 1 leads
    term 2, and node 2 answers its empty heartbeat with the length of its own
    log; node 1 appends y and counts that answer as a replica of y, so it
    commits and applies y; node 2 leads term 3, replicates x to node 3 and
    applies x. *)
Definition lost_commit : list play :=
  [ Elect 2; Pass 2 3; Pass 3 2; Say 2 [Byte.x78];
    Elect 1; Elect 1; Pass 1 3; Pass 3 1; Pass 1 2; Say 1 [Byte.x79]; Pass 2 1;
    Elect 2; Pass 2 3; Pass 3 2; Pass 2 3; Pass 3 2; Pass 2 3; Pass 3 2; Say 2 [Byte.x7a];
    Pass 2 3; Pass 3 2].

Definition steps_of (ids : list Z) (ps : list play) : nat := length (schedule ids ps).

(** A play that runs, and what can be checked on the world it ends in. *)
Lemma run_result ids ps (P : World -> bool) :
  match outcome_of ids ps with Some w => P w | None => false end = true ->
  exists w, reach ids DefaultConfig true (steps_of ids ps) w /\ P w = true.
Proof.
  destruct (outcome_of ids ps) as [w|] eqn:E; [|done]. intros HP. exists w. split; [|done].
  by apply exec_all_steps.
Qed.

Definition leads (v : Z) (w : World) : bool :=
  match w_nodes w !! v with Some a => IsLeader a | None => false end.
Definition term_of (v : Z) (w : World) : Z :=
  match w_nodes w !! v with Some a => currentTerm a | None => 0 end.

(** C23: with an even number of nodes there can be two leaders in one term:
    [len(Peers())/2 + 1] votes are half of the cluster, so with four nodes two
    candidates can be elected by two votes each. *)
Theorem raft_even_cluster_split_brain :
  exists n w, reach [1; 2; 3; 4] DefaultConfig true n w /\
    leads 1 w = true /\ leads 3 w = true /\ term_of 1 w = term_of 3 w.
Proof.
  destruct (run_result [1; 2; 3; 4] split_brain
    (fun w => leads 1 w && leads 3 w && (term_of 1 w =? term_of 3 w))) as (w & Hr & HP);
    [by vm_compute|].
  apply andb_prop in HP as [HP Ht]. apply andb_prop in HP as [H1 H3]. apply Z.eqb_eq in Ht.
  exists (steps_of [1; 2; 3; 4] split_brain), w. split; [exact Hr|done].
Qed.

(** C22: committed entries can be lost, even with three nodes and one leader per
    term: a follower answers every accepted AppendEntries with the length of
    its whole log, which may hold entries the leader does not have, and the
    leader counts that as its own entries being replicated.  Two nodes then
    apply different commands at index 1. *)
Theorem raft_committed_entry_lost :
  exists n w, reach [1; 2; 3] DefaultConfig true n w /\
    (1, (1, [Byte.x79])) ∈ w_applied w /\ (2, (1, [Byte.x78])) ∈ w_applied w.
Proof.
  destruct (run_result [1; 2; 3] lost_commit
    (fun w => bool_decide ((1, (1, [Byte.x79])) ∈ w_applied w) &&
              bool_decide ((2, (1, [Byte.x78])) ∈ w_applied w))) as (w & Hr & HP);
    [by vm_compute|].
  apply andb_prop in HP as [H1%bool_decide_eq_true H2%bool_decide_eq_true].
  exists (steps_of [1; 2; 3] lost_commit), w. split; [exact Hr|done].
Qed.

(** A leader panics at its next heartbeat when a peer was registered after
    its election: the new peer has no next index, so the slice of the log
    starts at 2^32 - 1. *)
Theorem raft_added_peer_panics :
  exists n w a, reach [1; 2; 3] DefaultConfig true n w /\ w_nodes w !! 1 = Some a /\
    is_ret (OnTick timerHeartbeat (mkEnv 1 [2; 3] 0 (fun _ => 0)) a) /\
    OnTick timerHeartbeat (mkEnv 1 [2; 3; 4] 0 (fun _ => 0)) a = Panic (SliceOutOfRange (2 ^ 32 - 1) 0).
Proof.
  destruct (run_result [1; 2; 3] elected (fun w => match w_nodes w !! 1 with
    | Some a =>
        match OnTick timerHeartbeat (mkEnv 1 [2; 3] 0 (fun _ => 0)) a,
              OnTick timerHeartbeat (mkEnv 1 [2; 3; 4] 0 (fun _ => 0)) a with
        | Ret _, Panic p => bool_decide (p = SliceOutOfRange (2 ^ 32 - 1) 0)
        | _, _ => false
        end
    | None => false end)) as (w & Hr & HP); [by vm_compute|].
  destruct (w_nodes w !! 1) as [a|] eqn:Ea; [|done].
  exists (steps_of [1; 2; 3] elected), w, a. split; [exact Hr|]. split; [done|].
  destruct (OnTick _ (mkEnv 1 [2; 3] _ _) a); [|done].
  destruct (OnTick _ (mkEnv 1 [2; 3; 4] _ _) a); [done|]. apply bool_decide_eq_true in HP as ->.
  split; [by eexists|done].
Qed.

(** * Witnesses *)

Lemma raft_election_safety_witness :
  exists n w, reach [1; 2; 3] DefaultConfig true n w /\ (1, 1) ∈ w_leaders w /\
    forall l, (1, l) ∈ w_leaders w -> l = 1.
Proof.
  destruct (run_result [1; 2; 3] elected (fun w => bool_decide ((1, 1) ∈ w_leaders w)))
    as (w & Hr & HP); [by vm_compute|]. apply bool_decide_eq_true in HP.
  exists (steps_of [1; 2; 3] elected), w.
  split; [done|]. split; [done|]. intros l Hl.
  assert (Hnd : NoDup [1; 2; 3]) by (apply (bool_decide_unpack _); vm_compute; exact I).
  assert (Hpos : 0 ∉ [1; 2; 3]) by (apply (bool_decide_unpack _); vm_compute; exact I).
  assert (Hc : cfg_ok DefaultConfig) by (apply (bool_decide_unpack _); vm_compute; exact I).
  assert (Hn : Z.of_nat (steps_of [1; 2; 3] elected) <= k_max) by (vm_compute; discriminate).
  destruct (raft_election_safety [1; 2; 3] DefaultConfig true _ w Hnd Hpos eq_refl Hc Hn Hr) as [Hu _].
  by apply (Hu 1).
Defined.

Lemma raft_handlers_never_panic_witness :
  exists n w a, reach [1; 2; 3] DefaultConfig true n w /\ w_nodes w !! 1 = Some a /\
    exists a' fx, OnTick timerHeartbeat (env_at [1; 2; 3] 1) a = Ret (tt, a', fx) /\
      log_bounds (Z.of_nat n + 1) a'.
Proof.
  destruct (run_result [1; 2; 3] elected (fun w => bool_decide (is_Some (w_nodes w !! 1))))
    as (w & Hr & HP); [by vm_compute|]. apply bool_decide_eq_true in HP as [a Ha].
  exists (steps_of [1; 2; 3] elected), w, a.
  split; [done|]. split; [done|].
  apply (raft_handlers_never_panic [1; 2; 3] DefaultConfig true _ w 1 (OnTick timerHeartbeat)
    (w_net w) (w_delivered w) (env_at [1; 2; 3] 1) a).
  - apply (bool_decide_unpack _). vm_compute. exact I.
  - apply (bool_decide_unpack _). vm_compute. exact I.
  - by vm_compute.
  - exact Hr.
  - constructor.
  - exact Ha.
  - done.
Defined.

Definition replicated : list play := elected ++ [Say 1 [Byte.x78]; Pass 1 2].

Definition node_at (v : Z) (w : World) (P : Algorithm -> bool) : bool :=
  match w_nodes w !! v with Some a => P a | None => false end.

Lemma node_at_elim v w P : node_at v w P = true -> exists a, w_nodes w !! v = Some a /\ P a = true.
Proof. unfold node_at. destruct (w_nodes w !! v) as [a|]; [eauto|done]. Qed.

Lemma raft_log_matching_witness :
  exists n w a1 a2, reach [1; 2; 3] DefaultConfig true n w /\
    w_nodes w !! 1 = Some a1 /\ w_nodes w !! 2 = Some a2 /\
    term_at (log a2) 1 = 1 /\ take 1 (log a1) = take 1 (log a2).
Proof.
  destruct (run_result [1; 2; 3] replicated (fun w =>
    node_at 1 w (fun a => (zlen (log a) =? 1) && (term_at (log a) 1 =? 1)) &&
    node_at 2 w (fun a => (zlen (log a) =? 1) && (term_at (log a) 1 =? 1))))
    as (w & Hr & HP); [by vm_compute|].
  apply andb_prop in HP as [H1 H2].
  destruct (node_at_elim _ _ _ H1) as (a1 & Ha1 & E1). destruct (node_at_elim _ _ _ H2) as (a2 & Ha2 & E2).
  apply andb_prop in E1 as [L1%Z.eqb_eq T1%Z.eqb_eq], E2 as [L2%Z.eqb_eq T2%Z.eqb_eq].
  exists (steps_of [1; 2; 3] replicated), w, a1, a2. split_and!; [done..|].
  apply (raft_log_matching [1; 2; 3] DefaultConfig true (steps_of [1; 2; 3] replicated) w 1 2 a1 a2 1).
  - apply (bool_decide_unpack _). vm_compute. exact I.
  - apply (bool_decide_unpack _). vm_compute. exact I.
  - reflexivity.
  - apply (bool_decide_unpack _). vm_compute. exact I.
  - vm_compute. discriminate.
  - exact Hr.
  - exact Ha1.
  - exact Ha2.
  - lia.
  - by rewrite L1.
  - by rewrite L2.
  - by rewrite T1, T2.
Defined.

Lemma raft_applies_in_order_witness :
  exists n w a, reach [1; 2; 3] DefaultConfig true n w /\ w_nodes w !! 2 = Some a /\
    lastApplied a = 2 /\ applied_at 2 w = seqZ 1 2 /\ commitIndex a <= 2.
Proof.
  destruct (run_result [1; 2; 3] lost_commit (fun w => node_at 2 w (fun a => lastApplied a =? 2)))
    as (w & Hr & HP); [by vm_compute|].
  destruct (node_at_elim _ _ _ HP) as (a & Ha & El). apply Z.eqb_eq in El.
  exists (steps_of [1; 2; 3] lost_commit), w, a. split; [done|]. split; [done|]. split; [done|].
  assert (Hgoal : applied_at 2 w = seqZ 1 (lastApplied a) /\ commitIndex a <= lastApplied a);
    [|by rewrite El in Hgoal].
  apply (raft_applies_in_order [1; 2; 3] DefaultConfig (steps_of [1; 2; 3] lost_commit) w 2 a).
  - apply (bool_decide_unpack _). vm_compute. exact I.
  - apply (bool_decide_unpack _). vm_compute. exact I.
  - vm_compute. discriminate.
  - exact Hr.
  - exact Ha.
Defined.

(** A follower whose entry of term 1 is replaced by the leader's of term 2. *)
Definition stale_follower : Algorithm :=
  set_log [mkEntry 1 [Byte.x78]] (set_currentTerm 1 (New DefaultConfig true)).
Definition fresh_append : appendEntries :=
  mkAE kindAppendEntries 2 3 0 0 [mkEntry 2 [Byte.x79]; mkEntry 2 [Byte.x7a]] 1.

Lemma AppendEntries_effect_witness :
  exists a' fx, handleAppendEntries 3 fresh_append (mkEnv 1 [2; 3] 0 (fun _ => 0)) stale_follower
      = Ret (tt, a', fx) /\
    log a' = [mkEntry 2 [Byte.x79]; mkEntry 2 [Byte.x7a]] /\ commitIndex a' = 1 /\ lastApplied a' = 1.
Proof.
  destruct (AppendEntries_effect 10 3 fresh_append (mkEnv 1 [2; 3] 0 (fun _ => 0)) stale_follower)
    as (a' & fx & E & _ & _ & _ & Hl & Hc & Ha & _).
  - constructor; vm_compute; intuition discriminate.
  - vm_compute. discriminate.
  - split; [reflexivity|]. vm_compute. intuition discriminate.
  - vm_compute. discriminate.
  - exists a', fx. split; [exact E|]. split; [exact Hl|]. rewrite Hl in Hc. split; [exact Hc|].
    rewrite Hc in Ha. exact Ha.
Defined.
