(* ===== verification/RaftTalk.v ===== *)
(** RaftTalk: what the progress of a cluster needs of the network.

    The class [Talk] is a promise that a network can make: a node can always run
    a handler of its own, what a handler sends can be delivered next, and a
    delivery takes away only messages to the same receiver.  [RaftLive] and
    [RaftCommit] are proved against it; here the network of [RaftNet] is
    shown to keep it. *)
From S2P Require Export RaftBounds.

(** Handlers that run without a message *)
Inductive own_call `{Json} : cmd unit -> Prop :=
  | own_tick name : own_call (OnTick name)
  | own_propose command : own_call (Propose command;; mret tt).

(** [v] runs a handler, and the messages that [spared] tells stay ready, as the
    new ones are. *)
Definition reaction `{Json} {X} (nodes : X -> gmap Z Algorithm) (ready : X -> WireMessage -> Prop)
    (move : X -> X -> Prop) (bounds : Z -> X -> Prop) (k : Z) (x : X) (v : Z) (spared : WireMessage -> Prop)
    (Q : Algorithm -> list effect -> Prop) : Prop :=
  exists x' a' fx, Q a' fx /\ move x x' /\ bounds (k + 1) x' /\ nodes x' = <[v := a']> (nodes x) /\
    (forall to p, (to, p) ∈ sent fx -> exists m, ready x' m /\ From m = v /\ To m = to /\ carries m p) /\
    (forall r, ready x r -> spared r -> ready x' r).

(** [bounds k] holds after [k] steps, of which at most [limit] are allowed. *)
Class Talk `{Json} (ids : list Z) (limit : Z) (X : Type) := {
  nodes : X -> gmap Z Algorithm;
  ready : X -> WireMessage -> Prop;
  move : X -> X -> Prop;
  bounds : Z -> X -> Prop;
  talk_limit : limit <= k_max;
  talk_dom k x v : bounds k x -> is_Some (nodes x !! v) <-> v ∈ ids;
  talk_wf k x v a : bounds k x -> nodes x !! v = Some a -> wf k (env_at ids v) a;
  talk_ready k x m p : bounds k x -> ready x m -> carries m p -> payload_wf k p;
  talk_call k x v f a Q :
    bounds k x -> k < limit -> own_call f -> nodes x !! v = Some a ->
    wp False f (env_at ids v) a (fun _ => Q) ->
    reaction nodes ready move bounds k x v (fun _ => True) Q;
  talk_deliver k x m a Q :
    bounds k x -> k < limit -> ready x m -> nodes x !! To m = Some a ->
    wp False (OnMessage m) (env_at ids (To m)) a (fun _ => Q) ->
    reaction nodes ready move bounds k x (To m) (fun r => To r <> To m) Q;
}.
#[global] Hint Mode Talk ! - - ! : typeclass_instances.

(** * The network of [RaftNet] keeps the promise *)

Lemma packets_of_sent `{Json} v fx to p :
  (to, p) ∈ sent fx -> exists m, m ∈ packets v fx /\ From m = v /\ To m = to /\ carries m p.
Proof.
  intros (x & Hx & E)%list_elem_of_omap. destruct x as [to' m| | |]; try done. cbn in E.
  destruct (RaftFacts.decode m) as [p'|] eqn:Ed; [|done]. injection E as -> ->.
  exists (address v to m). split; [|by split_and!]. apply list_elem_of_omap. by exists (ESend to m).
Qed.

Section net.
Context `{Json} (ids : list Z).

Lemma event_reaction k w v f net' delivered' a (spared : WireMessage -> Prop) Q :
  bounded ids k w -> k < k_max -> event w v f net' delivered' -> w_nodes w !! v = Some a ->
  wp False f (env_at ids v) a (fun _ => Q) -> (forall r, r ∈ w_net w -> spared r -> r ∈ net') ->
  reaction w_nodes (fun w m => m ∈ w_net w) (step ids) (bounded ids) k w v spared Q.
Proof.
  intros Hb Hk Hev Ha Hw Hsp. destruct (wp_total _ _ _ _ Hw) as ([] & a' & fx & E & HQ).
  assert (Hst : step ids w (after v a' fx net' delivered' w)).
  { by apply (step_handler ids w v f net' delivered' (env_at ids v) a a' fx). }
  exists (after v a' fx net' delivered' w), a', fx. split; [done|]. split; [done|].
  split; [by eapply bounded_step|]. split; [done|]. split.
  - intros to p (m & Hm & ?)%(packets_of_sent v). exists m. split; [|done]. apply elem_of_app. by right.
  - intros r Hr Hs. apply elem_of_app. left. by apply Hsp.
Qed.

#[export] Program Instance net_talk : Talk ids k_max World := {|
  nodes := w_nodes; ready w m := m ∈ w_net w; move := step ids; bounds := bounded ids
|}.
Next Obligation. done. Qed.
Next Obligation. intros k w v Hb. apply (bd_dom _ _ _ Hb). Qed.
Next Obligation. intros k w v a Hb Ha. by apply (bd_nodes _ _ _ Hb v). Qed.
Next Obligation. intros k w m p Hb Hm Hc. by apply (bd_net _ _ _ Hb m). Qed.
Next Obligation.
  intros k w v f a Q Hb Hk Hf Ha Hw.
  assert (Hev : event w v f (w_net w) (w_delivered w)) by (destruct Hf; [apply ev_tick|apply ev_propose]).
  by apply (event_reaction k w v f _ _ a _ Q Hb Hk Hev).
Qed.
Next Obligation.
  intros k w m a Q Hb Hk Hm Ha Hw. apply list_elem_of_split in Hm as (n1 & n2 & Hn).
  apply (event_reaction k w (To m) (OnMessage m) _ _ a _ Q Hb Hk (ev_deliver w m n1 n2 Hn) Ha Hw).
  intros r Hr Hne. rewrite Hn in Hr. set_solver.
Qed.

End net.
