(* ===== verification/RaftLive.v ===== *)
(** RaftLive: an election stays possible.  From every reachable world, some
    node's timer ticks and the deliveries of its requests and of the replies
    elect it, over any network that keeps the promise of [Talk]; and a node
    without peers is never elected. *)
From S2P Require Import RaftTalk RaftTraces.

(** * Logs in the order of votes *)

(** The log [l1] is at most as up to date as [l2]: what a voter compares. *)
Definition log_key (l : list LogEntry) : Z * Z :=
  match last l with None => (0, 0) | Some x => (wrap 32 (zlen l), le_Term x) end.

Definition log_le (l1 l2 : list LogEntry) : Prop :=
  (log_key l1).2 < (log_key l2).2 \/
  (log_key l1).2 = (log_key l2).2 /\ (log_key l1).1 <= (log_key l2).1.

#[export] Instance log_le_preorder : PreOrder log_le.
Proof. split; unfold log_le; repeat intro; lia. Qed.

#[export] Instance log_le_total : Total log_le.
Proof. unfold log_le. intros l1 l2. lia. Qed.

Lemma lastLogInfo_key a : lastLogInfo a = log_key (log a).
Proof. done. Qed.

(** Some element has the greatest log. *)
Lemma greatest_log {A} (f : A -> list LogEntry) (xs : list A) :
  xs <> [] -> exists x, x ∈ xs /\ forall y, y ∈ xs -> log_le (f y) (f x).
Proof.
  induction xs as [|x xs IH]; [done|]. intros _. destruct (decide (xs = [])) as [->|Hne].
  { exists x. split; [by left|]. intros y ->%list_elem_of_singleton. done. }
  destruct (IH Hne) as (z & Hz & Hmax). destruct (total log_le (f x) (f z)) as [Hle|Hle].
  - exists z. split; [by right|]. intros y [->|Hy]%elem_of_cons; [done|by apply Hmax].
  - exists x. split; [by left|]. intros y [->|Hy]%elem_of_cons; [done|].
    etrans; [by apply Hmax|done].
Qed.

Lemma zlen_pos_of_elem {A} (x : A) xs : x ∈ xs -> 1 <= zlen xs.
Proof. destruct xs; [by intros ?%elem_of_nil|]. rewrite zlen_cons. pose proof (zlen_nonneg xs). lia. Qed.

Section live.
Context `{Json} (ids : list Z) (Hnd : NoDup ids) {limit : Z} {X : Type} `{!Talk ids limit X}.
Implicit Types w : X.
#[local] Abbreviation others v := (RaftNet.others ids v).

(** No node is in a later term. *)
Definition within (t : Z) w : Prop := forall u b, nodes w !! u = Some b -> currentTerm b <= t.

Lemma within_after t v a' w w' :
  nodes w' = <[v := a']> (nodes w) -> within t w -> currentTerm a' <= t -> within t w'.
Proof.
  intros E Hw Ha u b. rewrite E. destruct (decide (u = v)) as [->|Hne].
  - rewrite lookup_insert_eq. by intros [= <-].
  - rewrite lookup_insert_ne by done. apply Hw.
Qed.

(** * Candidacy *)

Definition request (v t : Z) (l : list LogEntry) : payload :=
  PRequestVote (mkRV kindRequestVote t v (log_key l).1 (log_key l).2).

Definition requested (v t : Z) (l : list LogEntry) (p : Z) w : Prop :=
  exists m, ready w m /\ From m = v /\ To m = p /\ carries m (request v t l).

Lemma tick_once k v a w :
  bounds k w -> k < limit -> nodes w !! v = Some a ->
  exists w', move w w' /\ bounds (k + 1) w' /\ nodes w' = <[v := campaigned (env_at ids v) a]> (nodes w) /\
    forall p, p ∈ others v -> requested v (currentTerm a +[32] 1) (log a) p w'.
Proof.
  intros Hb Hk Ha.
  destruct (talk_call k w v (OnTick timerElection) a (fun a' fx => a' = campaigned (env_at ids v) a /\
      sent fx = (fun p => (p, PRequestVote (rv_of (env_at ids v) (campaigned (env_at ids v) a)))) <$> others v) Hb Hk)
      as (w' & a' & fx & [-> Hs] & Hst & Hb' & Hn & Hsent & _); [constructor|done| |].
  { unfold OnTick. rewrite decide_True by done. apply startElection_spec; [|done].
    apply (wf_cfg _ _ _ (talk_wf k w v a Hb Ha)). }
  exists w'. split_and!; try done. intros p Hp. apply Hsent. rewrite Hs. apply list_elem_of_fmap. by exists p.
Qed.

(** The candidate of term [t] with log [l] and [votes] votes *)
Definition candidate (v t : Z) (l : list LogEntry) (votes : Z) w : Prop :=
  exists a, nodes w !! v = Some a /\ state a = stateCandidate /\ currentTerm a = t /\ log a = l /\
    votesReceived a = votes.

(** After [S j] ticks the candidate's term has grown by as much. *)
Lemma ticks j k v a w :
  bounds k w -> k + Z.of_nat (S j) <= limit -> nodes w !! v = Some a ->
  currentTerm a + Z.of_nat (S j) < 2 ^ 32 ->
  exists w', nsteps move (S j) w w' /\ bounds (k + Z.of_nat (S j)) w' /\
    candidate v (currentTerm a + Z.of_nat (S j)) (log a) 1 w' /\
    (forall u, u <> v -> nodes w' !! u = nodes w !! u) /\
    (forall p, p ∈ others v -> requested v (currentTerm a + Z.of_nat (S j)) (log a) p w').
Proof.
  revert k a w. induction j as [|j IH]; intros k a w Hb Hk Ha Ht;
    pose proof (wf_term _ _ _ (talk_wf k w v a Hb Ha)) as H0;
    destruct (tick_once k v a w Hb ltac:(lia) Ha) as (w1 & Hst & Hb1 & Hn & Hreq);
    rewrite wrap_small in Hreq by (unfold is_uint; lia).
  - exists w1. split; [by apply nsteps_once|]. split; [done|]. split; [|split; [|done]].
    + exists (campaigned (env_at ids v) a). rewrite Hn, lookup_insert_eq. split_and!; try done.
      cbn. rewrite wrap_small by (unfold is_uint; lia). done.
    + intros u Hu. by rewrite Hn, lookup_insert_ne.
  - destruct (IH (k + 1) (campaigned (env_at ids v) a) w1) as (w2 & Hs & Hb2 & Hcand & Hu & Hr); [done|lia|..].
    + by rewrite Hn, lookup_insert_eq.
    + cbn. rewrite wrap_small by (unfold is_uint; lia). lia.
    + assert (Et : currentTerm (campaigned (env_at ids v) a) + Z.of_nat (S j) = currentTerm a + Z.of_nat (S (S j))).
      { cbn [campaigned currentTerm set_rng set_votesReceived set_votedFor set_currentTerm].
        rewrite wrap_small by (unfold is_uint; lia). lia. }
      rewrite Et in Hcand, Hr. exists w2. split; [by eapply nsteps_l|].
      split; [by replace (k + Z.of_nat (S (S j))) with (k + 1 + Z.of_nat (S j)) by lia|]. split; [done|]. split; [|done].
      intros u Hne. rewrite Hu by done. by rewrite Hn, lookup_insert_ne.
Qed.

(** * Collecting votes *)

(** A voter that has not been in term [t] and whose log is not ahead of [l] *)
Definition willing (t : Z) (l : list LogEntry) (p : Z) w : Prop :=
  exists b, nodes w !! p = Some b /\ currentTerm b < t /\ log_le (log b) l.

(** The candidate [v] has the votes of all but the peers [ps], and its requests
    to these are on their way. *)
Record asking (v t : Z) (l : list LogEntry) (ps : list Z) w : Prop := {
  ak_candidate : candidate v t l (zlen ids - zlen ps) w;
  ak_request : forall p, p ∈ ps -> requested v t l p w;
  ak_willing : forall p, p ∈ ps -> willing t l p w;
}.

Definition leading (v t : Z) (l : list LogEntry) w : Prop :=
  exists a, nodes w !! v = Some a /\ state a = stateLeader /\ currentTerm a = t /\ log a = l.

Lemma grants_willing v t l b :
  currentTerm b < t -> log_le (log b) l ->
  grants (mkRV kindRequestVote t v (log_key l).1 (log_key l).2) (newer_term t b) = true.
Proof.
  intros Ht Hl. unfold newer_term. rewrite (proj2 (Z.ltb_lt _ _) Ht). unfold grants.
  rewrite lastLogInfo_key. change (log (stepped t b)) with (log b). destruct (log_key (log b)) as [i k] eqn:E.
  unfold log_le in Hl. rewrite E in Hl. cbn in *. rewrite Z.eqb_refl. cbn.
  rewrite andb_true_r. apply orb_true_iff. rewrite andb_true_iff, Z.ltb_lt, Z.eqb_eq, Z.leb_le. lia.
Qed.

(** The request to [p] arrives, and [p] answers with its vote. *)
Lemma request_arrives k v t l p w :
  bounds k w -> k < limit -> v ∈ others p -> requested v t l p w -> willing t l p w ->
  exists w', move w w' /\ bounds (k + 1) w' /\
    (exists m, ready w' m /\ From m = p /\ To m = v /\
       carries m (PRequestVoteReply (mkRVR kindRequestVoteReply t true))) /\
    (forall u, u <> p -> nodes w' !! u = nodes w !! u) /\
    (forall m, ready w m -> To m <> p -> ready w' m) /\ (within t w -> within t w').
Proof.
  intros Hb Hk Hv (m & Hm & Hf & <- & Hc) (b & Hnb & Ht & Hle).
  destruct (talk_deliver k w m b (fun a' fx => currentTerm a' = t /\ sent fx =
      [(v, PRequestVoteReply (mkRVR kindRequestVoteReply t true))]) Hb Hk Hm Hnb)
    as (w' & a' & fx & (Hat & Hs) & Hst & Hb' & Hn & Hsent & Hkeep).
  { rewrite OnMessage_decode, Hc. cbn [handle_payload].
    apply handleRequestVote_spec; [apply (wf_cfg _ _ _ (talk_wf k w _ b Hb Hnb))|].
    intros a1 fx Hs _. subst a1. rewrite Hs. unfold voted. cbn [rv_Term]. rewrite grants_willing by done.
    unfold to_peer. rewrite Hf, decide_True by done. unfold newer_term.
    by rewrite (proj2 (Z.ltb_lt _ _) Ht). }
  exists w'. split; [done|]. split; [done|]. split; [apply Hsent; rewrite Hs; by left|]. split; [|split; [done|]].
  - intros u Hu. by rewrite Hn, lookup_insert_ne.
  - intros Hw. apply (within_after t (To m) a' w); [done..|lia].
Qed.

(** A vote arrives at the candidate. *)
Lemma vote_arrives k v t l votes m w :
  bounds k w -> k < limit -> candidate v t l votes w -> ready w m -> To m = v ->
  carries m (PRequestVoteReply (mkRVR kindRequestVoteReply t true)) ->
  exists w', move w w' /\ bounds (k + 1) w' /\
    (if votes + 1 <? majority (env_at ids v) then candidate v t l (votes + 1) w' else leading v t l w') /\
    (forall u, u <> v -> nodes w' !! u = nodes w !! u) /\
    (forall r, ready w r -> To r <> v -> ready w' r) /\ (within t w -> within t w').
Proof.
  intros Hb Hk (a & Ha & Hst & Ht & Hl & Hvotes) Hm <- Hc.
  pose proof (talk_wf k w _ a Hb Ha) as Hwf. pose proof (wf_len _ _ _ Hwf). pose proof (@talk_limit _ ids limit X _).
  destruct (talk_deliver k w m a (fun a' _ =>
      currentTerm a' = t /\ log a' = l /\
      if votes + 1 <? majority (env_at ids (To m)) then state a' = stateCandidate /\ votesReceived a' = votes + 1
      else state a' = stateLeader) Hb Hk Hm Ha)
    as (w' & a' & fx & (Ht' & Hl' & Hrole) & Hstep & Hb' & Hn & _ & Hkeep).
  { rewrite OnMessage_decode, Hc. cbn [handle_payload].
    assert (Hcount : counts (mkRVR kindRequestVoteReply t true) a = true).
    { unfold counts. cbn. rewrite bool_decide_true, Ht, Z.eqb_refl by done. done. }
    apply handleRequestVoteReply_spec; [apply Hwf|lia|cbn; lia|rewrite Hcount; done|].
    intros a1 _. subst a1. cbn [votesReceived set_votesReceived]. rewrite Hvotes. split.
    - intros Hlt. rewrite (proj2 (Z.ltb_lt _ _) Hlt). by split_and!.
    - intros Hge fx _ _. rewrite (proj2 (Z.ltb_ge _ _) Hge). by split_and!. }
  exists w'. split; [done|]. split; [done|]. split; [|split; [|split; [done|]]].
  - destruct (_ <? _); exists a'; rewrite Hn, lookup_insert_eq; [|by split_and!].
    destruct Hrole. by split_and!.
  - intros u Hu. by rewrite Hn, lookup_insert_ne.
  - intros Hw. apply (within_after t (To m) a' w); [done..|lia].
Qed.

Lemma ask_all k v t l ps w :
  bounds k w -> k + 2 * zlen ps <= limit -> v ∈ ids -> NoDup ps -> ps ⊆ others v -> ps <> [] ->
  asking v t l ps w -> within t w ->
  exists j w', (j <= 2 * length ps)%nat /\ nsteps move j w w' /\ bounds (k + Z.of_nat j) w' /\
    leading v t l w' /\ within t w'.
Proof.
  intros Hb Hk Hv. revert k w Hb Hk. induction ps as [|p ps IH]; intros k w Hb Hk Hps Hsub Hne [Hc Hr Hw] Hwi; [done|].
  apply NoDup_cons in Hps as [Hp Hps]. rewrite zlen_cons in Hk. pose proof (zlen_nonneg ps).
  assert (Hother : forall q, q ∈ p :: ps -> q <> v) by (intros q Hq%Hsub; by apply list_elem_of_filter in Hq as [? _]).
  assert (Hpv : v ∈ others p) by (apply list_elem_of_filter; split; [|done]; apply not_eq_sym, Hother; left).
  destruct (request_arrives k v t l p w Hb) as (w1 & S1 & Hb1 & (m & Hm & Hf & Hto & Hcm) & Hn1 & Hk1 & Hwi1);
    [lia|done|by apply Hr; left|by apply Hw; left|].
  assert (Hc1 : candidate v t l (zlen ids - zlen (p :: ps)) w1).
  { destruct Hc as (a & Ha & ?). exists a. rewrite Hn1; [done|]. apply not_eq_sym, Hother. left. }
  destruct (vote_arrives (k + 1) v t l _ m w1 Hb1 ltac:(lia) Hc1 Hm Hto Hcm) as (w2 & S2 & Hb2 & Hrole & Hn2 & Hk2 & Hwi2).
  assert (S12 : nsteps move 2 w w2) by (eapply nsteps_l; [exact S1|by apply nsteps_once]).
  rewrite <- Z.add_assoc in Hb2.
  rewrite zlen_cons in Hrole. destruct (Z.ltb_spec (zlen ids - (1 + zlen ps) + 1) (majority (env_at ids v))) as [Hlt|Hge].
  2: { exists 2%nat, w2. split; [cbn; lia|]. split_and!; [done..|]. by apply Hwi2, Hwi1. }
  assert (Hne' : ps <> []).
  { intros ->. revert Hlt. unfold majority. cbn [env_at env_Peers]. rewrite (zlen_others ids v Hnd Hv).
    rewrite zlen_nil. pose proof (zlen_pos_of_elem v ids Hv). Z.div_mod_to_equations. lia. }
  destruct (IH (k + (1 + 1)) w2 Hb2) as (j & w' & Hj & Hs & Hb' & Hl & Hwi'); [lia|done|set_solver|done|..| |].
  - split.
    + by replace (zlen ids - zlen ps) with (zlen ids - (1 + zlen ps) + 1) by lia.
    + intros q Hq. destruct (Hr q ltac:(by right)) as (r & Hr1 & Hr2 & Hr3 & Hr4).
      exists r. split; [|done]. apply Hk2; [apply Hk1; [done|]|]; rewrite Hr3; [by intros ->|].
      apply Hother. by right.
    + intros q Hq. destruct (Hw q ltac:(by right)) as (b & Hqb & ?). exists b.
      rewrite Hn2, Hn1; [done|by intros ->|]. apply Hother. by right.
  - by apply Hwi2, Hwi1.
  - exists (2 + j)%nat, w'. split; [cbn; lia|]. split; [by eapply nsteps_trans|]. split; [|done].
    by replace (k + Z.of_nat (2 + j)) with (k + (1 + 1) + Z.of_nat j) by lia.
Qed.

(** From a world with these bounds, an election *)
Lemma elect n w :
  2 <= zlen ids -> bounds (Z.of_nat n) w -> 2 * Z.of_nat n + 1 + 2 * zlen ids <= limit ->
  exists v k w' a a', Z.of_nat k <= Z.of_nat n + 1 + 2 * zlen ids /\ nsteps move k w w' /\
    bounds (Z.of_nat n + Z.of_nat k) w' /\
    nodes w !! v = Some a /\ nodes w' !! v = Some a' /\ state a' = stateLeader /\ log a' = log a /\
    (forall u b, nodes w !! u = Some b -> currentTerm b < currentTerm a' /\ log_le (log b) (log a')) /\
    within (currentTerm a') w'.
Proof.
  intros Hsz Hb Hn. pose proof (@talk_limit _ ids limit X _) as Hlim. unfold k_max in Hlim.
  assert (Hwf : forall u b, nodes w !! u = Some b -> wf (Z.of_nat n) (env_at ids u) b) by (intros u b; by apply talk_wf).
  destruct (greatest_log (fun u => match nodes w !! u with Some b => log b | None => [] end) ids)
    as (v & Hv & Hmax); [intros E; rewrite E, zlen_nil in Hsz; lia|].
  destruct (proj2 (talk_dom _ _ v Hb) Hv) as [a Ha]. rewrite Ha in Hmax.
  pose proof (wf_term _ _ _ (Hwf v a Ha)). pose proof (wf_len _ _ _ (Hwf v a Ha)).
  destruct (ticks n (Z.of_nat n) v a w Hb) as (w1 & S1 & Hb1 & Hc & Hu & Hr); [lia|done|lia|].
  set (t := currentTerm a + Z.of_nat (S n)) in *.
  assert (Hall : forall u b, nodes w !! u = Some b -> currentTerm b < t /\ log_le (log b) (log a)).
  { intros u b Hub. pose proof (wf_term _ _ _ (Hwf u b Hub)). split; [lia|].
    specialize (Hmax u (proj1 (talk_dom _ _ u Hb) ltac:(eauto))). by rewrite Hub in Hmax. }
  pose proof (zlen_others ids v Hnd Hv) as Ho.
  destruct (ask_all (Z.of_nat n + Z.of_nat (S n)) v t (log a) (others v) w1 Hb1)
    as (k & w' & Hk & S2 & Hb2 & (a' & Ha' & Hl & Ht & Hlog) & Hwi); [lia|done|by apply NoDup_filter|done|..].
  - intros E. rewrite E, zlen_nil in Ho. lia.
  - split; [|done|].
    + rewrite Ho. by replace (zlen ids - (zlen ids - 1)) with 1 by lia.
    + intros p [Hpv Hpi]%list_elem_of_filter. destruct (proj2 (talk_dom _ _ p Hb) Hpi) as [b Hpb].
      exists b. rewrite Hu by done. destruct (Hall p b Hpb). by split_and!.
  - intros u b Hub. destruct (decide (u = v)) as [->|Hne'].
    + destruct Hc as (c & Hvc & _ & Htc & _). rewrite Hvc in Hub. injection Hub as <-. lia.
    + rewrite Hu in Hub by done. destruct (Hall u b Hub). lia.
  - exists v, (S n + k)%nat, w', a, a'. split; [unfold zlen in *; lia|].
    split; [by eapply nsteps_trans|].
    split; [by replace (Z.of_nat n + Z.of_nat (S n + k)) with (Z.of_nat n + Z.of_nat (S n) + Z.of_nat k) by lia|].
    split_and!; try done; [|by rewrite Ht].
    intros u b Hub. rewrite Ht, Hlog. by apply (Hall u).
Qed.
End live.

(** * A node without peers *)

Lemma lone_step `{Json} v k w w' :
  bounded [v] k w -> k < k_max -> step [v] w w' ->
  (forall a, w_nodes w !! v = Some a -> state a <> stateLeader) ->
  forall a, w_nodes w' !! v = Some a -> state a <> stateLeader.
Proof.
  intros Hb Hk Hst Hno. destruct Hst as [u h net' delivered' e a a' fx Hev Ha He Eh].
  assert (Hu : u = v) by (apply list_elem_of_singleton, (bd_dom _ _ _ Hb); eauto). subst u.
  intros b. cbn. rewrite lookup_insert_eq. intros [= <-].
  pose proof (bd_nodes _ _ _ Hb v a e Ha He) as Hw. specialize (Hno a Ha).
  enough (Hq : wp False h e a (fun _ s _ => state s <> stateLeader)).
  { exact (wp_elim _ _ _ _ _ _ _ _ Hq Eh). }
  inversion Hev as [m n1 n2 Hn|name|c|]; subst.
  - rewrite OnMessage_decode. destruct (RaftFacts.decode m) as [p|] eqn:Hp; [|done].
    destruct (bd_net _ _ _ Hb m p) as (_ & Hf & Ht & Hne); [rewrite Hn; set_solver|done|].
    apply list_elem_of_singleton in Hf, Ht. congruence.
  - by apply (OnTick_spec k); [done|lia|..].
  - apply wp_bind. by apply (Propose_spec k).
  - by apply resetElectionTimer_spec; [apply Hw|].
Qed.

(** Its election timer makes it a candidate again and again, but the majority is
    only counted when a vote arrives, and nobody else votes. *)
Lemma lone_node_never_leads `{Json} v c cb n w a :
  cfg_ok c -> Z.of_nat n <= k_max -> reach [v] c cb n w ->
  w_nodes w !! v = Some a -> state a <> stateLeader.
Proof.
  intros Hc. unfold reach. revert w a. induction n as [|n IH]; intros w a Hn Hr Ha.
  - inversion Hr; subst. cbn in Ha. rewrite lookup_insert_eq in Ha. by injection Ha as <-.
  - apply nsteps_inv_r in Hr as (w1 & Hr & Hs). revert a Ha. eapply lone_step; [|..|exact Hs|].
    + eapply (bounded_reach [v] c cb n); [apply NoDup_singleton|done|lia|exact Hr].
    + lia.
    + intros a Ha. apply (IH w1); [lia|done|done].
Qed.

(** * Property *)

(** A cluster is never stuck without a leader.  With at least two nodes, from
    every world it can reach, whatever was lost or promised so far, at most
    [n + 1] ticks of one node's election timer and [2 |ids|] deliveries make a
    node leader of a term later than all others were in, and no node is in a
    later one; its log is untouched and at least as up to date as any other. *)
Theorem raft_can_elect `{Json} ids c cb n w :
  NoDup ids -> 2 <= zlen ids -> cfg_ok c -> 2 * Z.of_nat n + 1 + 2 * zlen ids <= k_max -> reach ids c cb n w ->
  exists v k w' a a', Z.of_nat k <= Z.of_nat n + 1 + 2 * zlen ids /\ nsteps (step ids) k w w' /\
    w_nodes w !! v = Some a /\ w_nodes w' !! v = Some a' /\ state a' = stateLeader /\ log a' = log a /\
    (forall u b, w_nodes w !! u = Some b -> currentTerm b < currentTerm a' /\ log_le (log b) (log a')) /\
    within ids (currentTerm a') w'.
Proof.
  intros Hnd Hsz Hc Hn Hr. pose proof (zlen_nonneg ids).
  destruct (elect ids Hnd n w Hsz) as (v & k & w' & a & a' & Hk & S & _ & Hrest); [|done|by exists v, k, w', a, a'].
  apply (bounded_reach ids c cb n); [done|done|lia|done].
Qed.

Lemma raft_can_elect_witness :
  exists v k w' a a', Z.of_nat k <= 7 /\ nsteps (step [1; 2; 3]) k (init [1; 2; 3] DefaultConfig true) w' /\
    w_nodes (init [1; 2; 3] DefaultConfig true) !! v = Some a /\ w_nodes w' !! v = Some a' /\
    state a' = stateLeader /\ log a' = log a /\
    (forall u b, w_nodes (init [1; 2; 3] DefaultConfig true) !! u = Some b ->
       currentTerm b < currentTerm a' /\ log_le (log b) (log a')) /\
    within [1; 2; 3] (currentTerm a') w'.
Proof.
  apply (raft_can_elect [1; 2; 3] DefaultConfig true 0).
  - apply (bool_decide_unpack _). vm_compute. exact I.
  - vm_compute. discriminate.
  - apply (bool_decide_unpack _). vm_compute. exact I.
  - vm_compute. discriminate.
  - constructor.
Defined.
