(* ===== verification/RaftCommit.v ===== *)
(** RaftCommit: a proposal can always be committed.  A leader of the latest term
    that proposes a command and then exchanges messages with its peers, backing
    off where a log disagrees, brings its commit index to the proposed entry, over any network that keeps
    the promise of [Talk]. *)
From S2P Require Import RaftTalk RaftTraces RaftLive.

(** * Committing, exactly *)
Section exact.
Context `{Json}.

#[export] Instance may_commit_dec e a n : Decision (may_commit e a n).
Proof. unfold may_commit. apply _. Defined.

(** [maybeCommit_spec] says what may be committed; the last entry is committed
    whenever it can be. *)
Lemma maybeCommit_last e a Q :
  zlen (log a) <= k_max -> 0 <= commitIndex a -> 0 <= lastApplied a ->
  (~ may_commit e a (zlen (log a)) -> Q tt a []) ->
  (forall m, may_commit e a m -> (may_commit e a (zlen (log a)) -> m = zlen (log a)) ->
     forall fx, sent fx = [] -> Q tt (applied (set_commitIndex m a)) fx) ->
  wp False maybeCommit e a Q.
Proof.
  intros Hl Hc Hla Hno Hyes. pose proof (zlen_nonneg (log a)) as Hge.
  destruct (decide (may_commit e a (zlen (log a)))) as [Hm|Hm].
  2: { apply maybeCommit_spec; [done..|by apply Hno|]. intros m Hm' fx Hs _. by apply Hyes. }
  pose proof Hm as ([Hlt _] & Ht & Hq). unfold maybeCommit. wp_step. wp_step.
  unfold k_max in *. rewrite wrap_small by (unfold is_uint; lia).
  destruct (Z.to_nat (zlen (log a))) as [|fuel] eqn:Ef; [lia|]. cbn [maybeCommit_loop].
  do 4 wp_step. rewrite (proj2 (Z.ltb_lt _ _) Hlt). wp_step. apply wp_lift.
  rewrite wrap_small by (unfold is_uint; lia).
  destruct (index_in_range (zlen (log a) - 1) (log a)) as (x & Hx & _); [lia|]. rewrite Hx.
  rewrite <- Ht, (index_term_at _ _ x), Z.eqb_refl by (done || lia). cbn [negb].
  fold (has_quorum e (zlen (log a)) a). rewrite Hq. wp_step. wp_step.
  apply applyCommitted_spec; [done|cbn; unfold k_max; lia|]. intros fx Hs _. by apply Hyes.
Qed.

(** A success arrives at the leader. *)
Lemma success_spec k from ar e a Q :
  wf k e a -> k <= k_max -> payload_wf k (PAppendReply ar) -> state a = stateLeader ->
  ar_Term ar <= currentTerm a -> ar_Success ar = true ->
  (let a1 := acknowledged from ar a in
   (~ may_commit e a1 (zlen (log a)) -> Q tt a1 []) /\
   (forall m, may_commit e a1 m -> (may_commit e a1 (zlen (log a)) -> m = zlen (log a)) ->
      forall fx, sent fx = [] -> Q tt (applied (set_commitIndex m a1)) fx)) ->
  wp False (handleAppendReply from ar) e a Q.
Proof.
  intros Hw Hk (_ & Ht & Hmi) Hst Hterm Hok [HQ1 HQ2]. unfold handleAppendReply. wp_step. wp_step.
  pose proof (wf_len _ _ _ Hw). pose proof (wf_commit _ _ _ Hw). unfold k_max in *.
  rewrite (proj2 (Z.ltb_ge _ _) Hterm), bool_decide_true, Hok by done. cbn [negb].
  do 4 wp_step. rewrite wrap_small by (unfold is_uint; lia).
  change (set_nextIndex _ _) with (acknowledged from ar a).
  apply maybeCommit_last; unfold k_max; cbn; [lia..| |]; [exact HQ1|exact HQ2].
Qed.

(** Peers whose match index reaches [n] are counted. *)
Lemma count_match_at_least n (m : gmap Z Z) ps :
  NoDup ps -> (forall p, p ∈ ps -> exists i, m !! p = Some i /\ n <= i) -> zlen ps <= count_match n m.
Proof.
  intros Hnd Hps. unfold count_match, zlen.
  set (l := filter (fun p : Z * Z => n <= p.2) (map_to_list m)).
  assert (Hsub : ps ⊆+ l.*1).
  { apply NoDup_submseteq; [done|]. intros p Hp. destruct (Hps p Hp) as (i & Hi & Hn).
    apply list_elem_of_fmap. exists (p, i). split; [done|].
    apply list_elem_of_filter. split; [done|]. by apply elem_of_map_to_list. }
  apply submseteq_length in Hsub. rewrite length_fmap in Hsub. lia.
Qed.

(** Entries after a common prefix never make the log shorter. *)
Lemma merge_entries_long es s : (length es <= length (merge_entries es s))%nat.
Proof.
  revert s. induction es as [|e es IH]; intros [|x s]; cbn; [lia..|].
  destruct (_ =? _); cbn; [specialize (IH s); lia|lia].
Qed.

Lemma merged_covers prev l f :
  0 <= prev <= zlen f -> zlen l <= zlen (merged prev (drop_log prev l) f).
Proof.
  unfold merged, drop_log, zlen. intros Hp.
  pose proof (merge_entries_long (drop (Z.to_nat prev) l) (drop (Z.to_nat prev) f)) as Hm.
  rewrite length_drop in Hm. rewrite length_app, length_take. lia.
Qed.
End exact.

Section live.
Context `{Json} (ids : list Z) (Hnd : NoDup ids) {limit : Z} {X : Type} `{!Talk ids limit X}.
Implicit Types w : X.
#[local] Abbreviation others v := (RaftNet.others ids v).
#[local] Abbreviation env v := (env_at ids v).

(** * One exchange with a follower *)

(** An AppendEntries of leader [v] to [p] is on its way that offers the log [l]
    from index [i] on. *)
Definition offered (v t : Z) (l : list LogEntry) (p i : Z) w : Prop :=
  exists m ae, ready w m /\ From m = v /\ To m = p /\ carries m (PAppendEntries ae) /\
    ae_Term ae = t /\ ae_PrevLogIndex ae = i - 1 /\ ae_Entries ae = drop_log (i - 1) l.

(** An answer of [p]: a success covers the log, and without a previous entry
    there is nothing to refuse. *)
Definition answered (v t : Z) (l : list LogEntry) (p i : Z) w : Prop :=
  exists m ar, ready w m /\ From m = p /\ To m = v /\ carries m (PAppendReply ar) /\
    ar_Term ar <= t /\ (ar_Success ar = true -> zlen l <= ar_MatchIndex ar) /\
    (i <= 1 -> ar_Success ar = true).

Definition behind (t p : Z) w : Prop := exists b, nodes w !! p = Some b /\ currentTerm b <= t.

Lemma peer_in_others p v : v ∈ ids -> p ∈ others v -> p ∈ ids /\ p <> v /\ v ∈ others p.
Proof.
  unfold RaftNet.others. rewrite !list_elem_of_filter. by intros ? [? ?].
Qed.

(** What a follower does with an offer *)
Lemma offer_taken k v t l p i b ae :
  wf k (env p) b -> payload_wf k (PAppendEntries ae) -> k < k_max -> v ∈ others p -> 1 <= i ->
  ae_Term ae = t -> ae_PrevLogIndex ae = i - 1 -> ae_Entries ae = drop_log (i - 1) l -> currentTerm b <= t ->
  wp False (handleAppendEntries v ae) (env p) b (fun _ a' fx => currentTerm a' <= t /\
    exists ar, sent fx = [(v, PAppendReply ar)] /\ ar_Term ar <= t /\
      (ar_Success ar = true -> zlen l <= ar_MatchIndex ar) /\ (i <= 1 -> ar_Success ar = true)).
Proof.
  intros Hw Hpw Hk Hvp Hi Ht Hprev Hes Hbt.
  assert (Hpeer : forall x, to_peer (env p) v x = [(v, x)]) by (intros x; unfold to_peer; by rewrite decide_True).
  apply (handleAppendEntries_spec k); [done|lia|done|lia|]. intros a1 _. subst a1.
  assert (Hct : currentTerm (contacted ae b) <= t).
  { unfold contacted, heard. destruct (_ <? _); cbn; lia. }
  split.
  - intros Hno fx Hs _. split; [done|]. eexists. split; [by rewrite Hs, Hpeer|]. cbn. split_and!; [done..|].
    intros Hi1. unfold prev_ok in Hno. rewrite Hprev in Hno. destruct (Z.leb_spec (i - 1) 0); [done|lia].
  - intros Hok a2 fx Hs _. subst a2.
    assert (Hlog : log (learn_commit (ae_LeaderCommit ae) (appended ae (contacted ae b)))
                   = merged (i - 1) (drop_log (i - 1) l) (log b)).
    { unfold learn_commit. rewrite <- Hes, <- Hprev, <- (contacted_log ae b). by destruct (_ <? _). }
    split; [unfold learn_commit; by destruct (_ <? _)|]. eexists. split; [by rewrite Hs, Hpeer|].
    cbn. split_and!; [done| |done]. intros _. rewrite Hlog. apply merged_covers.
    unfold prev_ok in Hok. rewrite Hprev in Hok. pose proof (zlen_nonneg (log b)). lia.
Qed.

Lemma offer_arrives k v t l p i w :
  bounds k w -> k < limit -> v ∈ ids -> p ∈ others v -> 1 <= i ->
  offered v t l p i w -> behind t p w ->
  exists w', move w w' /\ bounds (k + 1) w' /\ answered v t l p i w' /\ behind t p w' /\
    (forall u, u <> p -> nodes w' !! u = nodes w !! u) /\
    (forall r, ready w r -> To r <> p -> ready w' r).
Proof.
  intros Hb Hk Hv Hp Hi (m & ae & Hm & Hf & <- & Hc & Ht & Hprev & Hes) (b & Hnb & Hbt).
  destruct (peer_in_others (To m) v Hv Hp) as (_ & _ & Hvp). pose proof (@talk_limit _ ids limit X _).
  destruct (talk_deliver k w m b (fun a' fx => currentTerm a' <= t /\
      exists ar, sent fx = [(v, PAppendReply ar)] /\ ar_Term ar <= t /\
        (ar_Success ar = true -> zlen l <= ar_MatchIndex ar) /\ (i <= 1 -> ar_Success ar = true))
      Hb Hk Hm Hnb) as (w' & a' & fx & (Hat & ar & Hs & Har) & Hst & Hb' & Hn & Hsent & Hkeep).
  { rewrite OnMessage_decode, Hc. cbn [handle_payload]. rewrite Hf.
    apply (offer_taken k); [by apply (talk_wf k w)|by apply (talk_ready k w m)|lia|done..]. }
  exists w'. split; [done|]. split; [done|]. split; [|split; [|split; [|done]]].
  - destruct (Hsent v (PAppendReply ar)) as (r & Hr & ?); [rewrite Hs; by left|]. exists r, ar. tauto.
  - exists a'. split; [|done]. by rewrite Hn, lookup_insert_eq.
  - intros u Hu. by rewrite Hn, lookup_insert_ne.
Qed.

(** * The leader *)

(** [v] leads term [t] with log [l], which the peers [acks] have acknowledged;
    if these are all peers, the log is committed. *)
Record leader_with (v t : Z) (l : list LogEntry) (acks : list Z) (a : Algorithm) w : Prop := {
  lw_node : nodes w !! v = Some a;
  lw_role : state a = stateLeader;
  lw_term : currentTerm a = t;
  lw_log : log a = l;
  lw_acks : forall q, q ∈ acks -> exists i, matchIndex a !! q = Some i /\ zlen l <= i;
  lw_commit : others v ⊆ acks -> zlen l <= commitIndex a;
}.

(** With the acknowledgement of the last peer the log can be committed. *)
Lemma acknowledged_commits v t l acks a w p mi k ar :
  leader_with v t l acks a w -> term_at l (zlen l) = t -> wf k (env v) a -> v ∈ ids ->
  ar_MatchIndex ar = mi -> zlen l <= mi -> others v ⊆ p :: acks ->
  commitIndex a < zlen l -> may_commit (env v) (acknowledged p ar a) (zlen l).
Proof.
  intros [Hn Hr Ht Hl Ha Hc] Hlast Hw Hv <- Hmi Hsub Hlt. split; [by cbn; rewrite Hl|].
  split; [cbn; by rewrite Hl, Hlast, Ht|]. unfold has_quorum. cbn [env_at env_Peers]. apply Z.ltb_lt.
  assert (Hcount : zlen (others v) <= count_match (zlen l) (matchIndex (acknowledged p ar a))).
  { apply count_match_at_least; [by apply NoDup_filter|]. intros q Hq. cbn.
    destruct (decide (q = p)) as [->|Hne]; [rewrite lookup_insert_eq; eauto|].
    rewrite lookup_insert_ne by done. apply Ha. specialize (Hsub q Hq). by apply elem_of_cons in Hsub as [?|?]. }
  pose proof (zlen_nonneg (others v)). Z.div_mod_to_equations. lia.
Qed.

(** The delivery of an answer *)
Section answer.
Context (k v t : Z) (l : list LogEntry) (acks : list Z) (a : Algorithm) (p : Z) (w : X)
  (m : WireMessage) (ar : appendReply).
Context (Hb : bounds k w) (Hk : k < limit) (Hv : v ∈ ids) (Hp : p ∈ others v)
  (Hlast : term_at l (zlen l) = t) (HL : leader_with v t l acks a w).
Context (Hm : ready w m) (Hf : From m = p) (Hto : To m = v)
  (Hc : carries m (PAppendReply ar)) (Ht : ar_Term ar <= t).

Lemma answer_wf : wf k (env v) a /\ payload_wf k (PAppendReply ar) /\ k < k_max.
Proof.
  split; [apply (talk_wf k w); [done|apply HL]|]. split; [by apply (talk_ready k w m)|].
  pose proof (@talk_limit _ ids limit X _). lia.
Qed.

Lemma answer_reaction Q :
  wp False (handleAppendReply p ar) (env v) a (fun _ => Q) ->
  reaction nodes ready move bounds k w v (fun r => To r <> v) Q.
Proof.
  intros HQ. rewrite <- Hto. apply (talk_deliver k w m a); [done..|rewrite Hto; apply HL|].
  rewrite OnMessage_decode, Hc, Hto. cbn [handle_payload]. by rewrite Hf.
Qed.

(** A success may commit the log; it does when it is the last. *)
Lemma success_result :
  ar_Success ar = true -> zlen l <= ar_MatchIndex ar ->
  wp False (handleAppendReply p ar) (env v) a (fun _ a' _ => exists c,
    (a' = acknowledged p ar a /\ c = commitIndex a \/
     a' = applied (set_commitIndex c (acknowledged p ar a))) /\ (others v ⊆ p :: acks -> zlen l <= c)).
Proof.
  intros Es Hmi. destruct answer_wf as (Hw & Hpw & Hkm). pose proof HL as [Hn Hr Hterm Hl Hacks Hcommit].
  apply (success_spec k); [done|lia|done|done|lia|done|]. rewrite Hl. split.
  - intros Hno. exists (commitIndex a). split; [by left|]. intros Hsub.
    destruct (Z.lt_ge_cases (commitIndex a) (zlen l)); [|done]. exfalso. apply Hno.
    by eapply acknowledged_commits; eauto.
  - intros c Hmc Hmax fx _. exists c. split; [by right|]. intros Hsub.
    destruct Hmc as ([Hlo Hhi] & _). cbn in Hlo, Hhi. rewrite Hl in Hhi.
    rewrite Hmax; [done|]. eapply acknowledged_commits; eauto. lia.
Qed.

(** What the delivery leaves for the others *)
Definition spared (a' : Algorithm) (w' : X) : Prop :=
  (forall q, q <> p -> nextIndex a' !! q = nextIndex a !! q) /\
  (forall u, u <> v -> nodes w' !! u = nodes w !! u) /\ (forall r, ready w r -> To r <> v -> ready w' r).

Lemma success_arrives :
  ar_Success ar = true -> zlen l <= ar_MatchIndex ar ->
  exists a' w', move w w' /\ bounds (k + 1) w' /\ spared a' w' /\ leader_with v t l (p :: acks) a' w'.
Proof.
  intros Es Hmi. pose proof HL as [Hn Hr Hterm Hl Hacks Hcommit].
  destruct (answer_reaction _ (success_result Es Hmi)) as (w' & a' & fx & (c & Ha' & Hc') & Hst & Hb' & En & _ & Hkeep).
  exists a', w'. split; [done|]. split; [done|]. split; [split; [|split; [|done]]|].
  - intros q Hq. destruct Ha' as [(-> & _)| ->]; cbn; by rewrite lookup_insert_ne.
  - intros u Hu. by rewrite En, lookup_insert_ne.
  - assert (Hm' : forall q, q ∈ p :: acks -> exists i,
      matchIndex (acknowledged p ar a) !! q = Some i /\ zlen l <= i).
    { intros q Hq. cbn. destruct (decide (q = p)) as [->|Hne]; [rewrite lookup_insert_eq; eauto|].
      rewrite lookup_insert_ne by done. apply Hacks. by apply elem_of_cons in Hq as [?|?]. }
    destruct Ha' as [(-> & ->)| ->]; (split; [by rewrite En, lookup_insert_eq|..]); done.
Qed.

(** After a failure the leader offers one entry more. *)
Lemma failure_arrives :
  ar_Success ar = false -> 1 < lookup0 (nextIndex a) p ->
  exists a' w', move w w' /\ bounds (k + 1) w' /\ spared a' w' /\ leader_with v t l acks a' w' /\
    lookup0 (nextIndex a') p = lookup0 (nextIndex a) p - 1 /\ offered v t l p (lookup0 (nextIndex a') p) w'.
Proof.
  intros Es Hi. pose proof HL as [Hn Hr Hterm Hl Hacks Hcommit]. destruct answer_wf as (Hw & Hpw & Hkm).
  destruct (answer_reaction (fun a' fx => a' = backed_off p a /\
      sent fx = [(p, PAppendEntries (ae_of (env v) a' p))])) as (w' & a' & fx & (Ha' & Hs) & Hst & Hb' & En & Hsent & Hkeep).
  { apply (handleAppendReply_spec k); [done|lia|done|done|lia|done|]. intros _ _.
    split; [by rewrite Es|]. intros _ a1 fx Hs _. split; [done|]. rewrite Hs. unfold to_peer. by rewrite decide_True. }
  unfold backed_off in Ha'. rewrite (proj2 (Z.ltb_lt _ _) Hi) in Ha'.
  exists a', w'. split; [done|]. split; [done|]. split; [split; [|split; [|done]]|split; [|split]].
  - intros q Hq. rewrite Ha'. cbn. by rewrite lookup_insert_ne.
  - intros u Hu. by rewrite En, lookup_insert_ne.
  - split; rewrite ?Ha'; try done. by rewrite En, lookup_insert_eq, Ha'.
  - rewrite Ha'. unfold lookup0 at 1. cbn. by rewrite lookup_insert_eq.
  - destruct (Hsent p (PAppendEntries (ae_of (env v) a' p))) as (r & Hr2 & Hr3 & Hr4 & Hr5); [rewrite Hs; by left|].
    exists r, (ae_of (env v) a' p). split_and!; [done..| |done|]; rewrite Ha'; cbn; [done|by rewrite Hl].
Qed.
End answer.

Lemma answer_arrives k v t l acks a p w :
  bounds k w -> k < limit -> v ∈ ids -> p ∈ others v -> term_at l (zlen l) = t ->
  leader_with v t l acks a w -> answered v t l p (lookup0 (nextIndex a) p) w ->
  exists a' w', move w w' /\ bounds (k + 1) w' /\ spared v a p w a' w' /\
    (leader_with v t l (p :: acks) a' w' \/
     leader_with v t l acks a' w' /\ 1 <= lookup0 (nextIndex a') p /\
       lookup0 (nextIndex a') p = lookup0 (nextIndex a) p - 1 /\ offered v t l p (lookup0 (nextIndex a') p) w').
Proof.
  intros Hb Hk Hv Hp Hlast HL (m & ar & Hm & Hf & Hto & Hc & Ht & Hok & Hfirst). destruct (ar_Success ar) eqn:Es.
  - destruct (success_arrives k v t l acks a p w m ar) as (a' & w' & ? & ? & ? & ?); auto.
    exists a', w'. split_and!; try done. by left.
  - assert (Hi : 1 < lookup0 (nextIndex a) p).
    { destruct (Z.lt_ge_cases 1 (lookup0 (nextIndex a) p)); [done|]. by specialize (Hfirst ltac:(lia)). }
    destruct (failure_arrives k v t l acks a p w m ar) as (a' & w' & ? & ? & ? & ? & ? & ?); auto.
    exists a', w'. split_and!; try done. right. split_and!; [done|lia|done|done].
Qed.

(** * All followers *)

(** The rest of the world stays as it is for the other peers. *)
Definition spares (v p : Z) w w' : Prop :=
  (forall u, u <> v -> u <> p -> nodes w' !! u = nodes w !! u) /\
  (forall r, ready w r -> To r <> v -> To r <> p -> ready w' r).

Lemma spares_trans v p w1 w2 w3 : spares v p w1 w2 -> spares v p w2 w3 -> spares v p w1 w3.
Proof.
  intros [Hn1 Hm1] [Hn2 Hm2]. split; [intros u ??; by rewrite Hn2, Hn1|]. intros r ???. apply Hm2; [by apply Hm1|done..].
Qed.

(** Offers and answers go back and forth until [p] has taken the log. *)
Lemma converse j k v t l acks a p w :
  bounds k w -> k + 2 * Z.of_nat j <= limit -> v ∈ ids -> p ∈ others v -> term_at l (zlen l) = t ->
  leader_with v t l acks a w -> 1 <= lookup0 (nextIndex a) p <= Z.of_nat j ->
  offered v t l p (lookup0 (nextIndex a) p) w -> behind t p w ->
  exists s a' w', (s <= 2 * j)%nat /\ nsteps move s w w' /\ bounds (k + Z.of_nat s) w' /\ spares v p w w' /\
    (forall q, q <> p -> nextIndex a' !! q = nextIndex a !! q) /\ leader_with v t l (p :: acks) a' w'.
Proof.
  intros Hb Hk Hv Hp Hlast. revert k a w Hb Hk.
  induction j as [|j IH]; intros k a w Hb Hk HL Hi Hoff Hbeh; [lia|].
  destruct (peer_in_others p v Hv Hp) as (_ & Hpv & _).
  destruct (offer_arrives k v t l p (lookup0 (nextIndex a) p) w Hb)
    as (w1 & S1 & Hb1 & Hans & Hbeh1 & Hn1 & Hm1); [lia|done|done|lia|done..|].
  assert (HL1 : leader_with v t l acks a w1) by (destruct HL; split; rewrite ?Hn1; done).
  destruct (answer_arrives (k + 1) v t l acks a p w1 Hb1) as (a2 & w2 & S2 & Hb2 & (Hnx & Hn2 & Hm2) & Hcase);
    [lia|done..|]. rewrite <- Z.add_assoc in Hb2.
  assert (Hsp : spares v p w w2).
  { split; [intros u ??; by rewrite Hn2, Hn1|]. intros r ???. apply Hm2; [by apply Hm1|done..]. }
  assert (S12 : nsteps move 2 w w2) by (eapply nsteps_l; [exact S1|by apply nsteps_once]).
  destruct Hcase as [HL2|(HL2 & Hi2 & Hnext & Hoff2)].
  { exists 2%nat, a2, w2. split; [lia|]. by split_and!. }
  destruct (IH (k + (1 + 1)) a2 w2 Hb2) as (s & a3 & w3 & Hs & S3 & Hb3 & Hsp3 & Hnx3 & HL3); try done; try lia.
  - destruct Hbeh1 as (b & Hb' & ?). exists b. by rewrite Hn2.
  - exists (2 + s)%nat, a3, w3. split; [lia|]. split; [by eapply nsteps_trans|].
    split; [by replace (k + Z.of_nat (2 + s)) with (k + (1 + 1) + Z.of_nat s) by lia|].
    split; [by eapply spares_trans|]. split; [|done]. intros q Hq. by rewrite Hnx3, Hnx.
Qed.

Lemma converse_all M k v t l acks a ps w :
  bounds k w -> k + 2 * Z.of_nat M * zlen ps <= limit -> v ∈ ids -> NoDup ps -> ps ⊆ others v ->
  term_at l (zlen l) = t -> leader_with v t l acks a w ->
  (forall p, p ∈ ps -> 1 <= lookup0 (nextIndex a) p <= Z.of_nat M /\
     offered v t l p (lookup0 (nextIndex a) p) w /\ behind t p w) ->
  exists s a' w', Z.of_nat s <= 2 * Z.of_nat M * zlen ps /\ nsteps move s w w' /\ bounds (k + Z.of_nat s) w' /\
    leader_with v t l (rev ps ++ acks) a' w'.
Proof.
  intros Hb Hk Hv. revert k acks a w Hb Hk.
  induction ps as [|p ps IH]; intros k acks a w Hb Hk Hps Hsub Hlast HL Hwait.
  { exists 0%nat, a, w. split; [by rewrite (zlen_nil (A:=Z)), Z.mul_0_r|]. split; [constructor|]. by rewrite Z.add_0_r. }
  rewrite zlen_cons in Hk |- *. apply NoDup_cons in Hps as [Hp Hps].
  destruct (Hwait p ltac:(left)) as (Hi & Hoff & Hbeh). pose proof (zlen_nonneg ps).
  assert (Hpo : p ∈ others v) by (apply Hsub; left).
  destruct (converse M k v t l acks a p w Hb) as (s1 & a1 & w1 & Hs1 & S1 & Hb1 & [Hn1 Hm1] & Hnx & HL1);
    [nia|done..|].
  destruct (IH (k + Z.of_nat s1) (p :: acks) a1 w1 Hb1) as (s2 & a2 & w2 & Hs2 & S2 & Hb2 & HL2); try done.
  - nia.
  - set_solver.
  - intros q Hq. assert (Hqp : q <> p) by (by intros ->).
    destruct (peer_in_others q v Hv) as (_ & Hqv & _); [apply Hsub; by right|].
    destruct (Hwait q ltac:(by right)) as (Hiq & (m & ae & Hm & Hf & Hto & Hrest) & (b & Hqb & Hbt)).
    assert (El : lookup0 (nextIndex a1) q = lookup0 (nextIndex a) q) by (unfold lookup0; by rewrite Hnx).
    rewrite El. split; [done|]. split.
    + exists m, ae. split; [|done]. apply Hm1; rewrite ?Hto; done.
    + exists b. by rewrite Hn1.
  - exists (s1 + s2)%nat, a2, w2. split; [nia|]. split; [by eapply nsteps_trans|].
    split; [by rewrite Nat2Z.inj_add, Z.add_assoc|]. cbn [rev]. by rewrite <- app_assoc.
Qed.

(** * A proposal *)

Lemma propose k v a w command :
  bounds k w -> k < limit -> v ∈ ids -> 2 <= zlen ids -> nodes w !! v = Some a ->
  state a = stateLeader -> within ids (currentTerm a) w ->
  let l := log a ++ [mkEntry (currentTerm a) command] in
  exists a' w', move w w' /\ bounds (k + 1) w' /\ leader_with v (currentTerm a) l [] a' w' /\
    forall p, p ∈ others v -> 1 <= lookup0 (nextIndex a') p <= k + 1 /\
      offered v (currentTerm a) l p (lookup0 (nextIndex a') p) w' /\ behind (currentTerm a) p w'.
Proof.
  intros Hb Hk Hv Hsz Ha Hlead Hwi l. pose proof (talk_wf k w v a Hb Ha) as Hw. pose proof (@talk_limit _ ids limit X _).
  destruct (talk_call k w v (Propose command;; mret tt) a (fun a' fx => a' = set_log l a /\
      sent fx = broadcast_of (env v) a') Hb Hk ltac:(constructor) Ha)
    as (w' & a' & fx & [-> Hs] & Hst & Hb' & En & Hsent & _).
  { apply wp_bind. apply (Propose_spec k); [done|lia|done|].
    intros a1 _ fx Hs _. wp_step. by rewrite app_nil_r. }
  exists (set_log l a), w'. split; [done|]. split; [done|]. split.
  - split; try done; [by rewrite En, lookup_insert_eq|by intros q ?%elem_of_nil|].
    intros Hsub. pose proof (zlen_others ids v Hnd Hv) as Ho. apply list_nil_subseteq in Hsub.
    rewrite Hsub, zlen_nil in Ho. lia.
  - intros p Hp. pose proof (wf_next_lookup0 _ _ _ p Hw (wf_lead _ _ _ Hw Hlead p Hp)).
    split; [done|]. destruct (peer_in_others p v Hv Hp) as (Hpi & Hpv & _). split.
    + destruct (Hsent p (PAppendEntries (ae_of (env v) (set_log l a) p))) as (m & Hm & Hf & Hto & Hc).
      { rewrite Hs. apply list_elem_of_fmap. by exists p. }
      by exists m, (ae_of (env v) (set_log l a) p).
    + destruct (proj2 (talk_dom _ _ p Hb) Hpi) as [b Hpb].
      exists b. rewrite En, lookup_insert_ne by done. split; [done|]. by eapply Hwi.
Qed.

Lemma last_term l x : term_at (l ++ [x]) (zlen (l ++ [x])) = le_Term x.
Proof.
  rewrite zlen_app. change (zlen [x]) with 1. unfold term_at, zlen. rewrite decide_True by lia.
  replace (Z.to_nat _) with (length l) by lia. by rewrite lookup_app_r, Nat.sub_diag by lia.
Qed.

(** Steps of an election, of a replication, and of both *)
Definition election_steps (n : Z) : Z := n + 1 + 2 * zlen ids.
Definition commit_steps (n : Z) : Z := 1 + 2 * (n + 1) * zlen ids.
Definition service_steps (n : Z) : Z := election_steps n + commit_steps (n + election_steps n).

(** Within [bound] steps the leader [v], whose log was [l], appends the command
    in its term, and its commit index and its applied index reach that entry. *)
Definition commits (v : Z) (l : list LogEntry) (command : bytes) (bound : Z) w : Prop :=
  exists s w' a', Z.of_nat s <= bound /\ nsteps move s w w' /\ nodes w' !! v = Some a' /\
    state a' = stateLeader /\ log a' = l ++ [mkEntry (currentTerm a') command] /\
    zlen (log a') <= commitIndex a' <= lastApplied a'.

Lemma commit n v a w command :
  bounds (Z.of_nat n) w -> v ∈ ids -> 2 <= zlen ids -> nodes w !! v = Some a ->
  state a = stateLeader -> within ids (currentTerm a) w ->
  Z.of_nat n + commit_steps (Z.of_nat n) <= limit ->
  commits v (log a) command (commit_steps (Z.of_nat n)) w.
Proof.
  unfold commit_steps. intros Hb Hv Hsz Ha Hlead Hwi Hk.
  destruct (propose (Z.of_nat n) v a w command Hb) as (a1 & w1 & S1 & Hb1 & HL & Hp); [nia|done..|].
  set (l := log a ++ _) in *. pose proof (zlen_others ids v Hnd Hv) as Ho.
  destruct (converse_all (S n) (Z.of_nat n + 1) v (currentTerm a) l [] a1 (others v) w1 Hb1)
    as (s & a2 & w2 & Hs & S2 & Hb2 & HL2); try done.
  - nia.
  - by apply NoDup_filter.
  - by apply last_term.
  - intros p Hpo. destruct (Hp p Hpo) as (? & ? & ?). split; [lia|done].
  - exists (S s), w2, a2. destruct HL2 as [Hn Hr Ht Hl _ Hc]. split; [nia|]. split; [by eapply nsteps_l|].
    pose proof (wf_commit _ _ _ (talk_wf _ _ _ _ Hb2 Hn)). rewrite Hl, Ht.
    split_and!; try done; [|lia]. apply Hc. rewrite app_nil_r.
    intros q Hq. apply list_elem_of_In. rewrite <- in_rev. by apply list_elem_of_In.
Qed.

(** A cluster can serve: with a leader that no node has overtaken, or after an
    election. *)
Lemma serve n w command :
  2 <= zlen ids -> bounds (Z.of_nat n) w -> Z.of_nat n + service_steps (Z.of_nat n) <= limit ->
  (forall v a, nodes w !! v = Some a -> state a = stateLeader -> within ids (currentTerm a) w ->
     commits v (log a) command (commit_steps (Z.of_nat n)) w) /\
  exists v a, nodes w !! v = Some a /\ commits v (log a) command (service_steps (Z.of_nat n)) w.
Proof.
  unfold service_steps, election_steps. intros Hsz Hb Hk. split.
  - intros v a Ha Hlead Hwi. apply commit; try done; [by apply (talk_dom _ _ v Hb)|]. unfold commit_steps in *. nia.
  - destruct (elect ids Hnd n w Hsz Hb) as (v & k & w1 & a & a1 & Hk1 & S1 & Hb1 & Ha & Ha1 & Hl1 & Hlog1 & _ & Hwi);
      [unfold commit_steps in *; nia|].
    exists v, a. split; [done|]. rewrite <- Nat2Z.inj_add in Hb1.
    destruct (commit (n + k) v a1 w1 command Hb1) as (s & w' & a' & Hs & S2 & Ha' & Hl' & Hlog & Hci);
      [by apply (talk_dom _ _ v Hb1)|done..|unfold commit_steps in *; nia|].
    exists (k + s)%nat, w', a'. split; [unfold commit_steps in *; nia|]. split; [by eapply nsteps_trans|].
    rewrite Hlog1 in Hlog. split; [done|]. split; [done|]. by split.
Qed.
End live.

(** * Property *)

(** A cluster can always serve.  In every world that at least two nodes reach
    in [n] steps, a leader that no node has overtaken can get any command
    committed and applied in a bounded number of steps, backing off for each
    peer whose log disagrees; and if there is no such leader, one can be
    elected that does so, on top of the log it has. *)
Theorem raft_can_commit `{Json} ids c cb n w command :
  NoDup ids -> 2 <= zlen ids -> cfg_ok c -> reach ids c cb n w ->
  Z.of_nat n + service_steps ids (Z.of_nat n) <= k_max ->
  (forall v a, w_nodes w !! v = Some a -> state a = stateLeader -> within ids (currentTerm a) w ->
     commits ids v (log a) command (commit_steps ids (Z.of_nat n)) w) /\
  exists v a, w_nodes w !! v = Some a /\ commits ids v (log a) command (service_steps ids (Z.of_nat n)) w.
Proof.
  intros Hnd Hsz Hc Hr Hk. assert (Hb : bounds (ids := ids) (Z.of_nat n) w).
  { apply (bounded_reach ids c cb n); [done|done| |done].
    unfold service_steps, election_steps, commit_steps in Hk. nia. }
  exact (serve ids Hnd n w command Hsz Hb Hk).
Qed.

Lemma raft_can_commit_witness :
  exists n w v a, reach [1; 2; 3] DefaultConfig true n w /\ leads 1 w = true /\
    w_nodes w !! v = Some a /\ commits [1; 2; 3] v (log a) [Byte.x78] (service_steps [1; 2; 3] (Z.of_nat n)) w.
Proof.
  destruct (run_result [1; 2; 3] elected (leads 1)) as (w & Hr & HP); [by vm_compute|].
  assert (Hgoal : exists v a, w_nodes w !! v = Some a /\
    commits [1; 2; 3] v (log a) [Byte.x78] (service_steps [1; 2; 3] (Z.of_nat (steps_of [1; 2; 3] elected))) w).
  { apply (raft_can_commit [1; 2; 3] DefaultConfig true (steps_of [1; 2; 3] elected) w [Byte.x78]).
    - apply (bool_decide_unpack _). vm_compute. exact I.
    - vm_compute. discriminate.
    - apply (bool_decide_unpack _). vm_compute. exact I.
    - exact Hr.
    - vm_compute. discriminate. }
  destruct Hgoal as (v & a & Hg). exists (steps_of [1; 2; 3] elected), w, v, a. tauto.
Defined.
