(* ===== verification/Lww.v ===== *)
(** Lww: versioned key-value states and their last-write-wins merge, as the
    gossip and weaknet algorithms both implement it (gossip.go merge,
    weaknet.go mergeState); they differ in the type of the values. *)
From S2P Require Export Prelude.

Record Entry (V : Type) := mkEntry { Value : V; Version : Z }.
Arguments mkEntry {V} _ _.
Arguments Value {V} _.
Arguments Version {V} _.

#[export] Instance Entry_eq_dec {V} `{EqDecision V} : EqDecision (Entry V).
Proof. solve_decision. Defined.

Section lww.
Context {V : Type}.

(** The body of the loop: last write wins by version, the local entry on a tie. *)
Definition merge_one (st : gmap string (Entry V)) (kv : string * Entry V) : gmap string (Entry V) :=
  match st !! kv.1 with
  | Some local => if Version local <? Version kv.2 then <[kv.1 := kv.2]> st else st
  | None => <[kv.1 := kv.2]> st
  end.

(** [for k, re := range remote], in the order [kvs] of the map iteration. *)
Definition merge_in (kvs : list (string * Entry V)) (st : gmap string (Entry V))
    : gmap string (Entry V) := foldl merge_one st kvs.

(** * Merge is a join *)

Definition newer (local remote : Entry V) : Entry V :=
  if Version local <? Version remote then remote else local.

(** Key by key, whatever the order of the iteration. *)
Definition join_state (st remote : gmap string (Entry V)) : gmap string (Entry V) :=
  union_with (fun l r => Some (newer l r)) st remote.

Lemma lookup_join st r k :
  join_state st r !! k = match st !! k, r !! k with
                   | Some l, Some x => Some (newer l x)
                   | Some l, None => Some l
                   | None, o => o
                   end.
Proof. unfold join_state. rewrite lookup_union_with. by destruct (st !! k), (r !! k). Qed.

Lemma merge_one_lookup st kv k :
  merge_one st kv !! k =
  if decide (kv.1 = k) then Some (match st !! k with Some l => newer l kv.2 | None => kv.2 end)
  else st !! k.
Proof.
  unfold merge_one, newer. destruct kv as [k' e]. cbn. case_decide as Hk.
  - subst k'. destruct (st !! k) as [l|] eqn:El; [|by rewrite lookup_insert_eq].
    destruct (_ <? _); [by rewrite lookup_insert_eq|done].
  - destruct (st !! k') as [l|]; [destruct (_ <? _)|]; rewrite ?lookup_insert_ne by done; done.
Qed.

Lemma merge_in_join kvs st : NoDup kvs.*1 -> merge_in kvs st = join_state st (list_to_map kvs).
Proof.
  revert st. induction kvs as [|[k' e] kvs IH]; intros st Hnd.
  - cbn. apply map_eq. intros k. rewrite lookup_join, lookup_empty. by destruct (st !! k).
  - apply NoDup_cons in Hnd as [Hk Hnd]. cbn [merge_in foldl]. fold (merge_in kvs (merge_one st (k', e))).
    rewrite IH by done. apply map_eq. intros k. rewrite !lookup_join, merge_one_lookup. cbn.
    case_decide as Hd.
    + subst k'. rewrite lookup_insert_eq. rewrite (not_elem_of_list_to_map_1 kvs k Hk).
      by destruct (st !! k).
    + by rewrite lookup_insert_ne.
Qed.


Lemma newer_cases l r : newer l r = l \/ newer l r = r.
Proof. unfold newer. destruct (_ <? _); auto. Qed.

Lemma newer_ge l r : Version l <= Version (newer l r).
Proof. unfold newer. destruct (Z.ltb_spec (Version l) (Version r)); lia. Qed.

Lemma newer_ge_r l r : Version r <= Version (newer l r).
Proof. unfold newer. destruct (Z.ltb_spec (Version l) (Version r)); lia. Qed.

Lemma newer_assoc (x y z : Entry V) : newer (newer x y) z = newer x (newer y z).
Proof.
  unfold newer.
  destruct (Z.ltb_spec (Version x) (Version y)), (Z.ltb_spec (Version y) (Version z));
    repeat (case_match; try done); rewrite ?Z.ltb_lt, ?Z.ltb_ge in *; try lia; done.
Qed.

Lemma join_state_assoc (s t u : gmap string (Entry V)) :
  join_state (join_state s t) u = join_state s (join_state t u).
Proof.
  apply map_eq. intros k. rewrite !lookup_join.
  destruct (s !! k) as [x|], (t !! k) as [y|], (u !! k) as [z|]; try done. by rewrite newer_assoc.
Qed.

Lemma join_state_absorb (s t : gmap string (Entry V)) : join_state (join_state s t) t = join_state s t.
Proof.
  apply map_eq. intros k. rewrite !lookup_join. destruct (s !! k) as [x|], (t !! k) as [y|]; try done.
  - unfold newer. destruct (Version x <? Version y) eqn:E; [by rewrite Z.ltb_irrefl|by rewrite E].
  - unfold newer. by rewrite Z.ltb_irrefl.
Qed.

(** Entries that are equal whenever their versions are. *)
Definition consistent (s t : gmap string (Entry V)) : Prop :=
  forall k x y, s !! k = Some x -> t !! k = Some y -> Version x = Version y -> x = y.

Lemma join_state_comm s t : consistent s t -> join_state s t = join_state t s.
Proof.
  intros Hc. apply map_eq. intros k. rewrite !lookup_join.
  destruct (s !! k) as [x|] eqn:Ex, (t !! k) as [y|] eqn:Ey; try done.
  f_equal. unfold newer. destruct (Z.ltb_spec (Version x) (Version y)), (Z.ltb_spec (Version y) (Version x));
    try lia; try done. apply (Hc k); [done..|lia].
Qed.

End lww.

Arguments join_state : simpl never.
