(* ===== verification/Gossip.v ===== *)
(** Gossip: the push gossip algorithm (node/algorithm/gossip/gossip.go): the
    versioned key-value state, its merge, the cache of seen messages, and the
    handlers. *)
From Stdlib Require Import Ascii.
From stdpp Require Import pretty.
From S2P Require Export Sample Lww.
#[local] Open Scope Z_scope.

(** * State *)

Definition timerGossip : string := "gossip".

Abbreviation State := (gmap string (Entry string)).

(** encoding/json on [gossipPayload].  Strings survive it when they are valid
    UTF-8; the law is stated for the ASCII ones. *)
Definition ascii_string (s : string) : bool :=
  forallb (fun c => bool_decide (Ascii.nat_of_ascii c < 128)%nat) (String.list_ascii_of_string s).
Definition ascii_state (st : State) : Prop :=
  map_Forall (fun k e => ascii_string k = true /\ ascii_string (Value e) = true) st.

Class GossipJson := {
  Marshal : State -> option bytes;
  Unmarshal : bytes -> option State;
  Marshal_roundtrip st : ascii_state st -> exists bs, Marshal st = Some bs /\ Unmarshal bs = Some st;
}.

(** [seen] maps a message key to the time it was received; durations and
    times are in nanoseconds. *)
Record Algorithm := mkAlgorithm {
  state : State;
  seen : gmap string Z;
  seenTTL : Z;
  fanout : Z;
  interval : Z;
  rng : nat;
}.

Definition set_state (x : State) (a : Algorithm) : Algorithm :=
  mkAlgorithm x (seen a) (seenTTL a) (fanout a) (interval a) (rng a).
Definition set_seen (x : gmap string Z) (a : Algorithm) : Algorithm :=
  mkAlgorithm (state a) x (seenTTL a) (fanout a) (interval a) (rng a).
Definition set_rng (x : nat) (a : Algorithm) : Algorithm :=
  mkAlgorithm (state a) (seen a) (seenTTL a) (fanout a) (interval a) x.

Definition Millisecond : Z := 1000000.
Definition Second : Z := 1000 * Millisecond.

Definition New (fanout0 interval0 : Z) : Algorithm :=
  mkAlgorithm ∅ ∅ (5 * Second)
    (if fanout0 <=? 0 then 3 else fanout0)
    (if interval0 <=? 0 then 200 * Millisecond else interval0) 0.

(** * Local operations *)

Definition SetKey (key value : string) (a : Algorithm) : Algorithm :=
  let ver := match state a !! key with Some e => Version e +[64] 1 | None => 1 end in
  set_state (<[key := mkEntry value ver]> (state a)) a.

Definition Get (key : string) (a : Algorithm) : option (Entry string) := state a !! key.

(** A copy of the map: the same map. *)
Definition StateSnapshot (a : Algorithm) : State :=
  list_to_map (map_to_list (state a)).

(** * Merging *)

Definition merge (remote : State) (a : Algorithm) : Algorithm :=
  set_state (merge_in (map_to_list remote) (state a)) a.

(** * The seen cache *)

Definition seenKey (from seq : Z) : string :=
  (pretty (Z.to_N from) +:+ ":" +:+ pretty (Z.to_N seq))%string.

Definition evictSeen (now : Z) (a : Algorithm) : Algorithm :=
  set_seen (filter (fun kt : string * Z => ~ (now - kt.2 > seenTTL a)) (seen a)) a.

(** * Handlers *)
Section handlers.
Context `{GossipJson}.

Definition Start : prog Algorithm unit :=
  a ← get; api_SetTimer timerGossip (interval a).

Definition Stop : prog Algorithm unit := api_CancelTimer timerGossip.

Definition OnMessage (msg : WireMessage) : prog Algorithm unit :=
  if negb (Type_ msg =? TypeState) then mret tt
  else
    e ← ask; a ← get;
    let key := seenKey (From msg) (Seq msg) in
    match seen a !! key with
    | Some _ => mret tt
    | None =>
        modify (set_seen (<[key := env_Now e]> (seen a)));;
        match Unmarshal (Payload msg) with
        | None => mret tt
        | Some remote => modify (merge remote)
        end
    end.

Definition gossipMsg (now : Z) (pl : bytes) : WireMessage :=
  mkMessage TypeState 0 0 0 now 0 0 TTLState PriorityState pl.

Definition gossipRound : prog Algorithm unit :=
  e ← ask; a ← get;
  if zlen (env_Peers e) =? 0 then mret tt
  else
    match Marshal (state a) with
    | None => mret tt
    | Some pl =>
        tp ← lift (sampleN (env_rand e) (rng a) (env_Peers e) (fanout a));
        modify (set_rng tp.2);;
        for_each (fun p => api_Send p (gossipMsg (UnixMilli e) pl);; mret tt) tp.1
    end.

Definition OnTick (name : string) : prog Algorithm unit :=
  if negb (bool_decide (name = timerGossip)) then mret tt
  else
    e ← ask;
    modify (evictSeen (env_Now e));;
    gossipRound.

End handlers.

Lemma merge_join remote a : state (merge remote a) = join_state (state a) remote.
Proof.
  unfold merge. cbn. rewrite merge_in_join by apply NoDup_fst_map_to_list.
  by rewrite list_to_map_to_list.
Qed.

Lemma StateSnapshot_state a : StateSnapshot a = state a.
Proof. apply list_to_map_to_list. Qed.

(** * The seen key identifies sender and sequence number *)

Definition no_colon (s : string) : Prop := ":"%char ∉ String.list_ascii_of_string s.

Lemma pretty_N_go_no_colon x : forall s, no_colon s -> no_colon (pretty_N_go x s).
Proof.
  induction (N.lt_wf_0 x) as [x _ IH]; intros s Hs.
  destruct (decide (0 < x)%N) as [Hx|Hx].
  - rewrite pretty_N_go_step by done. apply IH; [by apply N.div_lt|].
    unfold no_colon in *. cbn. rewrite not_elem_of_cons. split; [|done].
    unfold pretty_N_char. by repeat case_match.
  - replace x with 0%N by lia. by rewrite pretty_N_go_0.
Qed.

Lemma pretty_no_colon (n : N) : no_colon (pretty n).
Proof.
  unfold pretty, pretty_N. case_decide; [|apply pretty_N_go_no_colon]; unfold no_colon; cbn.
  - rewrite not_elem_of_cons. split; [done|apply not_elem_of_nil].
  - apply not_elem_of_nil.
Qed.

Lemma colon_split s1 s2 t1 t2 :
  no_colon s1 -> no_colon t1 -> (s1 +:+ ":" +:+ s2 = t1 +:+ ":" +:+ t2)%string -> s1 = t1 /\ s2 = t2.
Proof.
  unfold no_colon. revert t1.
  assert (Happ : forall c (s t : string), (String c s +:+ t = String c (s +:+ t))%string) by done.
  assert (Hnil : forall t : string, ("" +:+ t = t)%string) by done.
  induction s1 as [|c s1 IH]; intros [|d t1] Hs Ht; rewrite ?Happ, ?Hnil;
    cbn [String.list_ascii_of_string] in *; intros E.
  - by injection E as ->.
  - injection E as <- _. exfalso. apply Ht. left.
  - injection E as -> _. exfalso. apply Hs. left.
  - injection E as -> E. rewrite not_elem_of_cons in Hs, Ht. destruct Hs as [_ Hs], Ht as [_ Ht].
    destruct (IH t1 Hs Ht) as [-> ->]; [|done]. by rewrite !Happ, !Hnil.
Qed.

Lemma seenKey_inj from seq from' seq' :
  0 <= from -> 0 <= seq -> 0 <= from' -> 0 <= seq' ->
  seenKey from seq = seenKey from' seq' -> from = from' /\ seq = seq'.
Proof.
  intros ? ? ? ? E. apply colon_split in E as [E1 E2]; [|apply pretty_no_colon..].
  apply (inj pretty) in E1, E2. lia.
Qed.

(** * The handlers *)
Section specs.
Context `{GossipJson}.

(** The state map after a message, and whether it is new. *)
Definition heard_before (m : WireMessage) (a : Algorithm) : bool :=
  bool_decide (is_Some (seen a !! seenKey (From m) (Seq m))).

Definition note_seen (now : Z) (m : WireMessage) (a : Algorithm) : Algorithm :=
  set_seen (<[seenKey (From m) (Seq m) := now]> (seen a)) a.

Definition received (now : Z) (m : WireMessage) (a : Algorithm) : Algorithm :=
  if negb (Type_ m =? TypeState) || heard_before m a then a
  else
    match Unmarshal (Payload m) with
    | None => note_seen now m a
    | Some r => set_state (join_state (state a) r) (note_seen now m a)
    end.

Lemma OnMessage_received m e a : OnMessage m e a = Ret (tt, received (env_Now e) m a, []).
Proof.
  unfold OnMessage, received, heard_before. destruct (negb _); [done|].
  unfold mbind, prog_bind, ask, get. cbn [orb].
  destruct (seen a !! seenKey (From m) (Seq m)); cbn.
  - done.
  - unfold modify. destruct (Unmarshal (Payload m)) as [r|]; cbn; [|done].
    do 3 f_equal. unfold merge. rewrite merge_in_join by apply NoDup_fst_map_to_list.
    by rewrite list_to_map_to_list.
Qed.

Definition in_range (m : WireMessage) : Prop := is_uint 16 (From m) /\ is_uint 32 (Seq m).

Lemma heard_before_received now m m' a :
  in_range m -> in_range m' -> From m' <> From m \/ Seq m' <> Seq m ->
  heard_before m' (received now m a) = heard_before m' a.
Proof.
  unfold in_range, is_uint. intros ? ? Hne.
  assert (Hk : seenKey (From m) (Seq m) <> seenKey (From m') (Seq m')).
  { intros E. apply seenKey_inj in E; lia. }
  unfold heard_before at 1. unfold received. destruct (negb _ || _); [done|]. unfold heard_before.
  destruct (Unmarshal (Payload m)); cbn; by rewrite lookup_insert_ne by done.
Qed.

Lemma evictSeen_state now a : state (evictSeen now a) = state a.
Proof. done. Qed.

(** What a gossip round sends: the whole state, to distinct registered peers. *)
Lemma gossipRound_spec e a (Q : unit -> Algorithm -> list effect -> Prop) :
  NoDup (env_Peers e) -> 0 < fanout a ->
  (Q tt a []) ->
  (forall pl targets pos,
     Marshal (state a) = Some pl -> NoDup targets -> targets ⊆ env_Peers e ->
     zlen targets = Z.min (fanout a) (zlen (env_Peers e)) ->
     Q tt (set_rng pos a) ((fun p => ESend p (gossipMsg (UnixMilli e) pl)) <$> targets)) ->
  wp False gossipRound e a Q.
Proof.
  intros Hnd Hf Hno Hyes. unfold gossipRound. do 4 wp_step.
  destruct (zlen (env_Peers e) =? 0); [by wp_step|].
  destruct (Marshal (state a)) as [pl|]; [|by wp_step].
  destruct (sampleN_spec (env_rand e) (rng a) (env_Peers e) (fanout a) Hnd ltac:(lia))
    as (targets & pos & -> & Ht1 & Ht2 & Ht3).
  do 4 wp_step. cbn [fst snd].
  eapply wp_mono.
  - apply (wp_for_each_in _ _ (fun done s fx => s = set_rng pos a /\
      fx = (fun p => ESend p (gossipMsg (UnixMilli e) pl)) <$> done) e targets); [|done].
    intros done s fx p Hp (-> & ->). wp_steps. rewrite app_nil_r, fmap_app. split; [done|].
    unfold sends_to. rewrite decide_True by (by apply Ht2). done.
  - intros [] s fx (-> & ->). by apply (Hyes pl).
Qed.

End specs.

(** C34: the result of a merge does not depend on the order in which the map of
    the remote state is iterated: key by key it is the entry with the higher
    version, the local one on a tie; and merging is idempotent and associative. *)
Theorem gossip_merge_is_join remote a kvs s t :
  kvs ≡ₚ map_to_list remote ->
  merge_in kvs (state a) = state (merge remote a) /\
  (forall k, state (merge remote a) !! k =
     match state a !! k, remote !! k with
     | Some l, Some r => Some (if Version l <? Version r then r else l)
     | Some l, None => Some l
     | None, o => o
     end) /\
  state (merge remote (merge remote a)) = state (merge remote a) /\
  state (merge t (merge s a)) = state (merge (state (merge t (set_state s a))) a).
Proof.
  intros Hp. assert (Hnd : NoDup kvs.*1) by (rewrite Hp; apply NoDup_fst_map_to_list). split_and!.
  - rewrite merge_join, merge_in_join by done. f_equal.
    rewrite <- (list_to_map_to_list remote). by apply list_to_map_proper.
  - intros k. by rewrite merge_join, lookup_join.
  - rewrite !merge_join. apply join_state_absorb.
  - rewrite !merge_join. apply join_state_assoc.
Qed.

(** Concurrent writes of one key do not converge: when two nodes have set a
    key to different values and hold it in the same version, each keeps its own
    value whatever it receives from the other. *)
Theorem gossip_tie_diverges k v1 v2 fo iv :
  v1 <> v2 ->
  let a1 := SetKey k v1 (New fo iv) in let a2 := SetKey k v2 (New fo iv) in
  state (merge (state a2) a1) = state a1 /\ state (merge (state a1) a2) = state a2 /\
  Get k a1 <> Get k a2.
Proof.
  intros Hne a1 a2. rewrite !merge_join. unfold a1, a2, SetKey, Get, New. cbn.
  rewrite lookup_empty. cbn. rewrite !lookup_insert_eq. split_and!; [| |congruence].
  - apply map_eq. intros k'. rewrite lookup_join. destruct (decide (k' = k)) as [->|].
    + by rewrite !lookup_insert_eq.
    + by rewrite !lookup_insert_ne, lookup_empty by done.
  - apply map_eq. intros k'. rewrite lookup_join. destruct (decide (k' = k)) as [->|].
    + by rewrite !lookup_insert_eq.
    + by rewrite !lookup_insert_ne, lookup_empty by done.
Qed.

(** A received message is merged exactly once per seen period: receiving it
    again (same sender and sequence number) changes nothing, and a message with
    another sender or sequence number is not mistaken for it. *)
Theorem gossip_seen_once `{GossipJson} e1 e2 m m' a :
  in_range m -> in_range m' -> Type_ m = TypeState ->
  exists a1, OnMessage m e1 a = Ret (tt, a1, []) /\
    (From m' = From m -> Seq m' = Seq m -> OnMessage m' e2 a1 = Ret (tt, a1, [])) /\
    (From m' <> From m \/ Seq m' <> Seq m -> heard_before m' a1 = heard_before m' a).
Proof.
  intros Hm Hm' HT. eexists. split; [apply OnMessage_received|].
  split; [|by apply heard_before_received].
  set (a1 := received _ _ _). intros Ef Es. rewrite OnMessage_received. do 3 f_equal.
  assert (Hseen : seen a1 !! seenKey (From m) (Seq m) <> None).
  { unfold a1, received, heard_before. rewrite HT. cbn [negb orb].
    case_bool_decide as Hb; [by apply not_eq_None_Some|].
    destruct (Unmarshal (Payload m)); cbn; by rewrite lookup_insert_eq. }
  unfold received, heard_before. rewrite Ef, Es.
  rewrite bool_decide_true by (by apply not_eq_None_Some). by rewrite orb_true_r.
Qed.
