(* ===== verification/GossipNet.v ===== *)
(** GossipNet: nodes running the gossip algorithm over a network that may lose,
    duplicate and reorder messages.  When every key is written by one node
    only, a version stands for one value everywhere, and nodes that have
    received everyone's state agree. *)
From stdpp Require Import countable.
From S2P Require Export Coding Gossip.
#[local] Open Scope Z_scope.

(** [g_net] keeps every message ever sent, so that it can be delivered any
    number of times; [g_writes] is history: every entry a node has written. *)
Record World := mkWorld {
  g_nodes : gmap Z Algorithm;
  g_net : list WireMessage;
  g_writes : list (string * Entry string);
}.

(** The messages a node puts on the wire, with the sequence numbers it chose. *)
Definition stamp_sends (v : Z) (seqs : nat -> Z) (fx : list effect) : list WireMessage :=
  omap (fun x => x) (imap (fun i x =>
    match x with
    | ESend to m => Some (mkMessage (Type_ m) v to (seqs i) (Timestamp m) (DataTime m) (StreamID m)
                            (TTL m) (Priority m) (Payload m))
    | _ => None
    end) fx).

Section net.
Context `{GossipJson} (ids : list Z) (owner : string -> Z).

Definition env_ok (v : Z) (e : Env) : Prop :=
  env_ID e = v /\ env_Peers e ≡ₚ filter (fun u => u <> v) ids.

Inductive event (w : World) : Z -> prog Algorithm unit -> Prop :=
  | ev_deliver m : m ∈ g_net w -> event w (To m) (OnMessage m)
  | ev_tick v name : event w v (OnTick name)
  | ev_start v : event w v Start.

Inductive step (w : World) : World -> Prop :=
  | step_set k value a :
      g_nodes w !! owner k = Some a -> ascii_string k = true -> ascii_string value = true ->
      step w (mkWorld (<[owner k := SetKey k value a]> (g_nodes w)) (g_net w)
                (g_writes w ++ from_option (fun e => [(k, e)]) [] (Get k (SetKey k value a))))
  | step_handler v h e a a' fx seqs :
      event w v h -> g_nodes w !! v = Some a -> env_ok v e -> h e a = Ret (tt, a', fx) ->
      step w (mkWorld (<[v := a']> (g_nodes w)) (g_net w ++ stamp_sends v seqs fx) (g_writes w)).

Definition init (fo iv : Z) : World :=
  mkWorld (list_to_map ((fun v => (v, New fo iv)) <$> ids)) [] [].

Definition reach (fo iv : Z) (n : nat) (w : World) : Prop := nsteps step n (init fo iv) w.

(** * The invariant *)

Record ginv (n : Z) (w : World) : Prop := {
  gi_dom : forall v, is_Some (g_nodes w !! v) <-> v ∈ ids;
  gi_fanout : forall v a, g_nodes w !! v = Some a -> 0 < fanout a /\ 0 < interval a;
  gi_nodes : forall v a k e, g_nodes w !! v = Some a -> state a !! k = Some e -> (k, e) ∈ g_writes w;
  gi_net : forall m r k e, m ∈ g_net w -> Unmarshal (Payload m) = Some r -> r !! k = Some e ->
    (k, e) ∈ g_writes w;
  gi_unique : forall k e1 e2, (k, e1) ∈ g_writes w -> (k, e2) ∈ g_writes w ->
    Version e1 = Version e2 -> e1 = e2;
  gi_owner : forall k e, (k, e) ∈ g_writes w -> exists a o,
    g_nodes w !! owner k = Some a /\ state a !! k = Some o /\ Version e <= Version o;
  gi_wf : forall k e, (k, e) ∈ g_writes w ->
    1 <= Version e <= n /\ ascii_string k = true /\ ascii_string (Value e) = true;
}.

Lemma elem_of_stamp_sends v seqs fx m :
  m ∈ stamp_sends v seqs fx -> exists to m0, ESend to m0 ∈ fx /\ Payload m = Payload m0.
Proof.
  unfold stamp_sends. intros (o & Ho & E)%list_elem_of_omap. subst o.
  apply elem_of_lookup_imap in Ho as (i & x & E & Hx). destruct x as [to m0| | |]; try done.
  injection E as ->. exists to, m0. split; [by eapply list_elem_of_lookup_2|done].
Qed.

(** What a handler does to the replicated state. *)
Definition gstep (w : World) (a a' : Algorithm) (fx : list effect) : Prop :=
  (fanout a' = fanout a /\ interval a' = interval a) /\
  (state a' = state a \/ exists m r, m ∈ g_net w /\ Unmarshal (Payload m) = Some r /\
     state a' = join_state (state a) r) /\
  (forall to m, ESend to m ∈ fx -> Marshal (state a) = Some (Payload m)).

Lemma event_gstep w v h e a :
  NoDup ids -> event w v h -> 0 < fanout a -> 0 < interval a -> env_ok v e ->
  wp False h e a (fun _ a' fx => gstep w a a' fx).
Proof.
  intros Hnd Hev Hf Hiv [_ Hp]. destruct Hev as [m Hm|v name|v].
  - unfold wp. rewrite OnMessage_received. unfold received.
    destruct (negb _ || _).
    { split; [done|]. split; [by left|]. intros to m0 Hin. by apply elem_of_nil in Hin. }
    destruct (Unmarshal (Payload m)) as [r|] eqn:Er.
    + split; [done|]. split; [right; by exists m, r|]. intros to m0 Hin. by apply elem_of_nil in Hin.
    + split; [done|]. split; [by left|]. intros to m0 Hin. by apply elem_of_nil in Hin.
  - unfold OnTick. destruct (negb _).
    { wp_step. split; [done|]. split; [by left|]. intros to m0 Hin. by apply elem_of_nil in Hin. }
    do 4 wp_step. apply gossipRound_spec; [rewrite Hp; by apply NoDup_filter|done| |].
    + split; [done|]. split; [by left|]. intros to m0 Hin. by apply elem_of_nil in Hin.
    + intros pl targets pos Hpl _ _ _. split; [done|]. split; [by left|].
      intros to m0 Hin. cbn in Hin. apply list_elem_of_fmap in Hin as (p & [= -> ->] & _). done.
  - unfold Start. wp_steps. apply wp_SetTimer; [intros _|lia].
    split; [done|]. split; [by left|]. intros to m0 Hin. cbn in Hin.
    by apply list_elem_of_singleton in Hin.
Qed.

Lemma ascii_writes n w st :
  ginv n w -> (forall k e, st !! k = Some e -> (k, e) ∈ g_writes w) -> ascii_state st.
Proof.
  intros Hi Hst. apply map_Forall_lookup_2. intros k e E.
  by destruct (gi_wf _ _ Hi k e (Hst k e E)) as (_ & ? & ?).
Qed.

Lemma ginv_handler n w v a a' fx seqs :
  ginv n w -> g_nodes w !! v = Some a -> gstep w a a' fx ->
  ginv n (mkWorld (<[v := a']> (g_nodes w)) (g_net w ++ stamp_sends v seqs fx) (g_writes w)).
Proof.
  intros Hi Ha (Hf & Hst & Hsend).
  assert (Hw : forall k x, state a' !! k = Some x -> (k, x) ∈ g_writes w).
  { intros k x. destruct Hst as [->|(m & r & Hm & Er & ->)]; [by apply (gi_nodes _ _ Hi v)|].
    rewrite lookup_join. destruct (state a !! k) as [l|] eqn:El, (r !! k) as [y|] eqn:Ey; intros [= <-].
    - destruct (newer_cases l y) as [-> | ->]; [by apply (gi_nodes _ _ Hi v a)|by apply (gi_net _ _ Hi m r)].
    - by apply (gi_nodes _ _ Hi v a).
    - by apply (gi_net _ _ Hi m r). }
  assert (Hmono : forall k l, state a !! k = Some l ->
    exists l', state a' !! k = Some l' /\ Version l <= Version l').
  { intros k l El. destruct Hst as [->|(m & r & Hm & Er & ->)]; [by exists l|].
    rewrite lookup_join, El. destruct (r !! k) as [y|]; [|by exists l].
    exists (newer l y). split; [done|apply newer_ge]. }
  split; cbn; try apply Hi.
  - intros u. rewrite lookup_insert_is_Some, (gi_dom _ _ Hi).
    destruct (decide (v = u)) as [->|]; [|tauto]. rewrite <- (gi_dom _ _ Hi). split; eauto.
  - intros u b. destruct (decide (u = v)) as [->|].
    + rewrite lookup_insert_eq. intros [= <-]. destruct Hf as [-> ->]. by apply (gi_fanout _ _ Hi v).
    + rewrite lookup_insert_ne by done. apply (gi_fanout _ _ Hi).
  - intros u b k x. destruct (decide (u = v)) as [->|].
    + rewrite lookup_insert_eq. intros [= <-]. apply Hw.
    + rewrite lookup_insert_ne by done. apply (gi_nodes _ _ Hi).
  - intros m r k x [Hm|Hm]%elem_of_app; [by apply (gi_net _ _ Hi)|].
    apply elem_of_stamp_sends in Hm as (to & m0 & Hin & ->). intros Er Ex.
    assert (Hst' : forall k e, state a !! k = Some e -> (k, e) ∈ g_writes w).
    { intros k' e'. by apply (gi_nodes _ _ Hi v). }
    destruct (Marshal_roundtrip (state a)) as (bs & Hbs & Hun); [by apply (ascii_writes n w)|].
    rewrite (Hsend _ _ Hin) in Hbs. injection Hbs as <-. rewrite Er in Hun. injection Hun as ->.
    by apply Hst'.
  - intros k x Hx. destruct (gi_owner _ _ Hi k x Hx) as (b & o & Hb & Ho & Hle).
    destruct (decide (owner k = v)) as [E|].
    + rewrite E in *. rewrite Ha in Hb. injection Hb as <-. rewrite lookup_insert_eq.
      destruct (Hmono k o Ho) as (l' & Hl' & Hle'). exists a', l'. split_and!; [done..|lia].
    + rewrite lookup_insert_ne by done. by exists b, o.
Qed.

(** A write's version is later than those of the earlier writes of its key. *)
Lemma set_version n w k (value : string) a :
  ginv n w -> 0 <= n -> n + 1 < 2 ^ 64 -> g_nodes w !! owner k = Some a ->
  let e := mkEntry value match state a !! k with Some e => Version e +[64] 1 | None => 1 end in
  Version e <= n + 1 /\ 1 <= Version e /\ forall x, (k, x) ∈ g_writes w -> Version x < Version e.
Proof.
  intros Hi Hn0 Hn Ha. cbn. destruct (state a !! k) as [o|] eqn:Eo.
  - destruct (gi_wf _ _ Hi k o) as [Ho _]; [by apply (gi_nodes _ _ Hi (owner k) a)|].
    rewrite wrap_small by (unfold is_uint; lia). split; [lia|]. split; [lia|].
    intros x Hx. destruct (gi_owner _ _ Hi k x Hx) as (b & o' & Hb & Ho' & Hle).
    rewrite Ha in Hb. injection Hb as <-. rewrite Eo in Ho'. injection Ho' as <-. lia.
  - split; [lia|]. split; [lia|]. intros x Hx.
    destruct (gi_owner _ _ Hi k x Hx) as (b & o' & Hb & Ho' & Hle).
    rewrite Ha in Hb. injection Hb as <-. congruence.
Qed.

Lemma ginv_set n w k value a :
  ginv n w -> 0 <= n -> n + 1 < 2 ^ 64 -> g_nodes w !! owner k = Some a ->
  ascii_string k = true -> ascii_string value = true ->
  ginv (n + 1) (mkWorld (<[owner k := SetKey k value a]> (g_nodes w)) (g_net w)
                  (g_writes w ++ from_option (fun e => [(k, e)]) [] (Get k (SetKey k value a)))).
Proof.
  intros Hi Hn0 Hn Ha Hk Hv.
  set (e := mkEntry value match state a !! k with Some e => Version e +[64] 1 | None => 1 end).
  assert (Hget : forall k', state (SetKey k value a) !! k' = if decide (k' = k) then Some e else state a !! k').
  { intros k'. cbn. case_decide as Hd; [subst; by rewrite lookup_insert_eq|by rewrite lookup_insert_ne by done]. }
  pose proof (set_version n w k value a Hi Hn0 Hn Ha) as Hver. fold e in Hver. cbv zeta in Hver.
  destruct Hver as (Hle & Hge & Hlt).
  unfold Get. rewrite Hget, decide_True by done. cbn [from_option].
  assert (Hin : forall k' x, (k', x) ∈ g_writes w ++ [(k, e)] <->
    (k', x) ∈ g_writes w \/ (k' = k /\ x = e)).
  { intros k' x. rewrite elem_of_app, list_elem_of_singleton. naive_solver. }
  split; cbn [g_nodes g_net g_writes].
  - intros u. rewrite lookup_insert_is_Some, (gi_dom _ _ Hi).
    destruct (decide (owner k = u)) as [<-|]; [|tauto]. rewrite <- (gi_dom _ _ Hi). split; eauto.
  - intros u b. destruct (decide (u = owner k)) as [->|].
    + rewrite lookup_insert_eq. intros [= <-]. exact (gi_fanout _ _ Hi (owner k) a Ha).
    + rewrite lookup_insert_ne by done. apply (gi_fanout _ _ Hi).
  - intros u b k' x Hu Hx. apply Hin. destruct (decide (u = owner k)) as [->|].
    + rewrite lookup_insert_eq in Hu. injection Hu as <-. rewrite Hget in Hx.
      case_decide; [right; naive_solver|left; by apply (gi_nodes _ _ Hi (owner k) a)].
    + rewrite lookup_insert_ne in Hu by done. left. by apply (gi_nodes _ _ Hi u b).
  - intros m r k' x Hm Er Ex. apply Hin. left. by apply (gi_net _ _ Hi m r).
  - intros k' e1 e2 [H1|[-> ->]]%Hin [H2|[Ek ->]]%Hin Hv12; try done.
    + by apply (gi_unique _ _ Hi k').
    + subst k'. specialize (Hlt _ H1). lia.
    + specialize (Hlt _ H2). lia.
  - intros k' x Hx. assert (Hcase : (k' = k /\ Version x <= Version e) \/ (k' <> k /\ (k', x) ∈ g_writes w)).
    { apply Hin in Hx as [Hx|[-> ->]]; [|by left; split; [|lia]].
      destruct (decide (k' = k)) as [->|]; [left|by right]. specialize (Hlt _ Hx). split; [done|lia]. }
    destruct Hcase as [[-> Hx']|[Hne Hx']].
    + exists (SetKey k value a), e. rewrite lookup_insert_eq. split; [done|]. split; [|done].
      by rewrite Hget, decide_True.
    + destruct (gi_owner _ _ Hi k' x Hx') as (b & o & Hb & Ho & Hle').
      destruct (decide (owner k' = owner k)) as [E|].
      * rewrite E in *. rewrite Ha in Hb. injection Hb as <-. exists (SetKey k value a), o.
        rewrite lookup_insert_eq, Hget, decide_False by done. done.
      * exists b, o. by rewrite lookup_insert_ne by done.
  - intros k' x [Hx|[-> ->]]%Hin.
    + destruct (gi_wf _ _ Hi k' x Hx) as (? & ? & ?). split_and!; [lia..|done|done].
    + split_and!; [lia..|done|done].
Qed.


Lemma ginv_init fo iv : ginv 0 (init fo iv).
Proof.
  assert (Hlk : forall v, g_nodes (init fo iv) !! v =
    if decide (v ∈ ids) then Some (New fo iv) else None).
  { intros v. cbn. induction ids as [|u l IH]; cbn; [done|].
    destruct (decide (u = v)) as [->|Hne].
    - rewrite lookup_insert_eq. by rewrite decide_True by left.
    - rewrite lookup_insert_ne by done. rewrite IH. repeat case_decide; set_solver. }
  split.
  - intros v. rewrite Hlk. by case_decide; split.
  - intros v a. rewrite Hlk. case_decide; [|done]. intros [= <-]. cbn. unfold Millisecond.
    destruct (Z.leb_spec fo 0), (Z.leb_spec iv 0); lia.
  - intros v a k e. rewrite Hlk. case_decide; [|done]. by intros [= <-].
  - intros m r k e Hx. by apply elem_of_nil in Hx.
  - intros k e1 e2 Hx. by apply elem_of_nil in Hx.
  - intros k e Hx. by apply elem_of_nil in Hx.
  - intros k e Hx. by apply elem_of_nil in Hx.
Qed.

Lemma ginv_reach fo iv n w :
  NoDup ids -> Z.of_nat n < 2 ^ 64 -> reach fo iv n w -> ginv (Z.of_nat n) w.
Proof.
  intros Hnd. unfold reach. revert w. induction n as [|n IH]; intros w Hn Hr.
  - inversion Hr; subst. apply ginv_init.
  - apply nsteps_inv_r in Hr as (w1 & Hr & Hs). specialize (IH w1 ltac:(lia) Hr).
    replace (Z.of_nat (S n)) with (Z.of_nat n + 1) by lia.
    destruct Hs as [k value a Ha Hk Hv|v h e a a' fx seqs Hev Ha He Eh].
    + apply ginv_set; [done|lia|lia|done..].
    + assert (Hi : ginv (Z.of_nat n + 1) w1).
      { destruct IH; split; try done. intros k x Hx. destruct (gi_wf0 k x Hx) as (? & ?).
        split; [lia|done]. }
      destruct (gi_fanout _ _ Hi v a Ha). eapply ginv_handler; [done..|].
      exact (wp_elim _ _ _ _ _ _ _ _ (event_gstep w1 v h e a Hnd Hev ltac:(done) ltac:(done) He) Eh).
Qed.

(** * Receiving everyone's state *)

Definition receive (now : Z) (a : Algorithm) (m : WireMessage) : Algorithm := received now m a.

Lemma OnMessage_all ms e a :
  for_each OnMessage ms e a = Ret (tt, foldl (receive (env_Now e)) a ms, []).
Proof.
  revert a. induction ms as [|m ms IH]; intros a; [done|]. cbn [for_each foldl].
  unfold mbind, prog_bind. rewrite OnMessage_received, IH. done.
Qed.

Definition msg_key (m : WireMessage) : Z * Z := (From m, Seq m).

(** New state messages, each from its own sender and sequence number. *)
Definition unseen (ms : list WireMessage) (a : Algorithm) : Prop :=
  NoDup (msg_key <$> ms) /\
  forall m, m ∈ ms -> in_range m /\ Type_ m = TypeState /\ heard_before m a = false.

Lemma receive_bounds n w now ms : forall a,
  ginv n w -> unseen ms a -> (forall k e, state a !! k = Some e -> (k, e) ∈ g_writes w) ->
  (forall m r k e, m ∈ ms -> Unmarshal (Payload m) = Some r -> r !! k = Some e -> (k, e) ∈ g_writes w) ->
  let a' := foldl (receive now) a ms in
  (forall k e, state a' !! k = Some e -> (k, e) ∈ g_writes w) /\
  (forall k l, state a !! k = Some l -> exists l', state a' !! k = Some l' /\ Version l <= Version l') /\
  (forall m r k e, m ∈ ms -> Unmarshal (Payload m) = Some r -> r !! k = Some e ->
     exists l', state a' !! k = Some l' /\ Version e <= Version l').
Proof.
  induction ms as [|m ms IH]; intros a Hi [Hnd Hun] Hst Hms; cbn [foldl].
  { split; [done|]. split; [intros k l El; exists l; split; [done|lia]|]. intros m r k e Hm. by apply elem_of_nil in Hm. }
  apply NoDup_cons in Hnd as [Hfresh Hnd].
  destruct (Hun m ltac:(by left)) as (Hrange & HT & Hh).
  set (a1 := receive now a m).
  assert (Hs1 : state a1 = match Unmarshal (Payload m) with
                           | Some r => join_state (state a) r | None => state a end).
  { unfold a1, receive, received. rewrite HT, Hh. cbn. by destruct (Unmarshal (Payload m)). }
  assert (Hun1 : unseen ms a1).
  { split; [done|]. intros m' Hm'. destruct (Hun m' ltac:(by right)) as (Hr' & HT' & Hh').
    split; [done|]. split; [done|]. unfold a1, receive. rewrite heard_before_received; [exact Hh'|done|done|].
    destruct (decide (From m' = From m)) as [Ef|]; [|by left]. right. intros Es. apply Hfresh.
    apply list_elem_of_fmap. exists m'. split; [unfold msg_key; congruence|done]. }
  assert (Hst1 : forall k e, state a1 !! k = Some e -> (k, e) ∈ g_writes w).
  { intros k e. rewrite Hs1. destruct (Unmarshal (Payload m)) as [r|] eqn:Er; [|by apply Hst].
    assert (Hr : forall y, r !! k = Some y -> (k, y) ∈ g_writes w).
    { intros y. by apply (Hms m r); [left|]. }
    rewrite lookup_join. destruct (state a !! k) as [l|] eqn:El, (r !! k) as [y|] eqn:Ey; intros [= <-].
    - destruct (newer_cases l y) as [-> | ->]; auto.
    - by apply Hst.
    - by apply Hr. }
  destruct (IH a1 Hi Hun1 Hst1) as (HA & HB & HC); [intros m' r k e Hm'; apply Hms; by right|].
  split; [exact HA|]. split.
  - intros k l El. assert (Hl1 : exists l1, state a1 !! k = Some l1 /\ Version l <= Version l1).
    { rewrite Hs1. destruct (Unmarshal (Payload m)) as [r|]; [|by exists l].
      rewrite lookup_join, El. destruct (r !! k) as [y|]; [|by exists l].
      exists (newer l y). split; [done|apply newer_ge]. }
    destruct Hl1 as (l1 & E1 & Hle). destruct (HB k l1 E1) as (l' & E' & Hle'). exists l'. split; [done|lia].
  - intros m' r k e [->|Hm']%elem_of_cons Er Ee; [|by apply (HC m' r)].
    assert (Hl1 : exists l1, state a1 !! k = Some l1 /\ Version e <= Version l1).
    { rewrite Hs1, Er, lookup_join, Ee. destruct (state a !! k) as [l|]; [|by exists e].
      exists (newer l e). split; [done|]. unfold newer. destruct (Z.ltb_spec (Version l) (Version e)); lia. }
    destruct Hl1 as (l1 & E1 & Hle). destruct (HB k l1 E1) as (l' & E' & Hle'). exists l'. split; [done|lia].
Qed.

End net.

(** With one writer per key, an entry's version determines it everywhere:
    nodes that hold a key in the same version hold the same value, and no node
    is ahead of the key's owner. *)
Theorem gossip_version_determines_entry `{GossipJson} ids owner fo iv n w v1 v2 a1 a2 k e1 e2 :
  NoDup ids -> Z.of_nat n < 2 ^ 64 -> reach ids owner fo iv n w ->
  g_nodes w !! v1 = Some a1 -> g_nodes w !! v2 = Some a2 ->
  Get k a1 = Some e1 -> Get k a2 = Some e2 ->
  (Version e1 = Version e2 -> e1 = e2) /\
  exists a o, g_nodes w !! owner k = Some a /\ Get k a = Some o /\ Version e1 <= Version o.
Proof.
  intros Hnd Hn Hr H1 H2 E1 E2.
  pose proof (ginv_reach ids owner fo iv n w Hnd Hn Hr) as Hi.
  pose proof (gi_nodes _ _ _ _ Hi v1 a1 k e1 H1 E1) as W1.
  pose proof (gi_nodes _ _ _ _ Hi v2 a2 k e2 H2 E2) as W2.
  split; [by apply (gi_unique _ _ _ _ Hi k)|]. by apply (gi_owner _ _ _ _ Hi k).
Qed.

(** C11: convergence.  With one writer per key, a node that receives, in any
    order, new messages carrying the current states of all nodes ends up with
    exactly the owners' entries, so any two such nodes have the same state;
    receiving never panics. *)
Theorem gossip_convergence `{GossipJson} ids owner fo iv n w v a ms e :
  NoDup ids -> Z.of_nat n < 2 ^ 64 -> reach ids owner fo iv n w -> g_nodes w !! v = Some a ->
  unseen ms a ->
  (forall m, m ∈ ms -> exists u b, g_nodes w !! u = Some b /\ Unmarshal (Payload m) = Some (state b)) ->
  (forall u b, g_nodes w !! u = Some b -> exists m, m ∈ ms /\ Unmarshal (Payload m) = Some (state b)) ->
  exists a', for_each OnMessage ms e a = Ret (tt, a', []) /\
    forall k, Get k a' = b ← g_nodes w !! owner k; Get k b.
Proof.
  intros Hnd Hn Hr Ha Hun Hfrom Hall.
  pose proof (ginv_reach ids owner fo iv n w Hnd Hn Hr) as Hi.
  eexists. split; [apply OnMessage_all|]. intros k. unfold Get.
  destruct (receive_bounds ids owner _ w (env_Now e) ms a Hi Hun) as (HA & _ & HC).
  { intros k' x. by apply (gi_nodes _ _ _ _ Hi v). }
  { intros m r k' x Hm Er Ex. destruct (Hfrom m Hm) as (u & b & Hu & Eu).
    rewrite Er in Eu. injection Eu as ->. by apply (gi_nodes _ _ _ _ Hi u b). }
  set (a' := foldl _ a ms) in *.
  destruct (state a' !! k) as [y|] eqn:Ey.
  - destruct (gi_owner _ _ _ _ Hi k y (HA k y Ey)) as (b & o & Hb & Ho & Hle).
    rewrite Hb. cbn. rewrite Ho. f_equal.
    destruct (Hall _ b Hb) as (m & Hm & Er). destruct (HC m _ k o Hm Er Ho) as (l' & El & Hle').
    rewrite Ey in El. injection El as <-.
    apply (gi_unique _ _ _ _ Hi k); [by apply HA|by apply (gi_nodes _ _ _ _ Hi (owner k) b)|lia].
  - destruct (g_nodes w !! owner k) as [b|] eqn:Hb; [|done]. cbn.
    destruct (state b !! k) as [o|] eqn:Ho; [|done].
    destruct (Hall _ b Hb) as (m & Hm & Er). destruct (HC m _ k o Hm Er Ho) as (l' & El & _). congruence.
Qed.

(** * Witnesses *)

#[export] Instance Entry_countable : Countable (Entry string).
Proof.
  refine (inj_countable' (fun x => (Value x, Version x)) (fun '(v, n) => mkEntry v n) _). by intros [].
Defined.

#[export] Program Instance code_gossip_json : GossipJson := {|
  Marshal st := Some (code st);
  Unmarshal := uncode;
|}.
Next Obligation. intros st _. exists (code st). split; [done|apply code_roundtrip]. Qed.

(** Two nodes; node 1 owns every key and has set one. *)
Definition two_nodes : list Z := [1; 2].
Definition all_mine (_ : string) : Z := 1.
Definition set_once : Algorithm := SetKey "k" "v" (New 3 0).
Definition after_set : World :=
  mkWorld (<[1 := set_once]> (g_nodes (init two_nodes 3 0))) [] [("k", mkEntry "v" 1)].

Lemma after_set_reach : reach two_nodes all_mine 3 0 1 after_set.
Proof.
  apply nsteps_once.
  exact (step_set two_nodes all_mine (init two_nodes 3 0) "k" "v" (New 3 0) eq_refl eq_refl eq_refl).
Qed.

Definition state_msg (from : Z) (st : State) : WireMessage :=
  mkMessage TypeState from 0 1 0 0 0 TTLState PriorityState (code st).

Lemma two_nodes_NoDup : NoDup two_nodes.
Proof. apply (bool_decide_unpack _). vm_compute. exact I. Qed.

Lemma after_set_nodes u b :
  g_nodes after_set !! u = Some b -> (u = 1 /\ b = set_once) \/ (u = 2 /\ b = New 3 0).
Proof.
  cbn. destruct (decide (u = 1)) as [->|H1].
  - rewrite lookup_insert_eq. intros [= <-]. by left.
  - rewrite !lookup_insert_ne by done. destruct (decide (u = 2)) as [->|H2].
    + rewrite lookup_insert_eq. intros [= <-]. by right.
    + rewrite !lookup_insert_ne by done. by rewrite lookup_empty.
Qed.

Definition both_states : list WireMessage := [state_msg 1 (state set_once); state_msg 2 ∅].

Lemma gossip_convergence_witness :
  exists a', for_each OnMessage both_states (mkEnv 2 [1] 0 (fun _ => 0)) (New 3 0) = Ret (tt, a', []) /\
    forall k, Get k a' = b ← g_nodes after_set !! 1; Get k b.
Proof.
  apply (gossip_convergence two_nodes all_mine 3 0 1 after_set 2).
  - apply two_nodes_NoDup.
  - lia.
  - apply after_set_reach.
  - reflexivity.
  - split; [apply (bool_decide_unpack _); vm_compute; exact I|].
    intros m [->|[->|Hm]%elem_of_cons]%elem_of_cons.
    + split; [split; vm_compute; intuition discriminate|]. split; [reflexivity|vm_compute; reflexivity].
    + split; [split; vm_compute; intuition discriminate|]. split; [reflexivity|vm_compute; reflexivity].
    + by apply elem_of_nil in Hm.
  - intros m [->|[->|Hm]%elem_of_cons]%elem_of_cons.
    + exists 1, set_once. split; [reflexivity|]. apply code_roundtrip.
    + exists 2, (New 3 0). split; [reflexivity|]. apply code_roundtrip.
    + by apply elem_of_nil in Hm.
  - intros u b [[-> ->]|[-> ->]]%after_set_nodes.
    + exists (state_msg 1 (state set_once)). split; [left|apply code_roundtrip].
    + exists (state_msg 2 ∅). split; [right; left|apply code_roundtrip].
Defined.

Lemma gossip_version_determines_entry_witness :
  (Version (mkEntry "v" 1) = Version (mkEntry "v" 1) -> mkEntry "v" 1 = mkEntry "v" 1) /\
  exists a o, g_nodes after_set !! 1 = Some a /\ Get "k" a = Some o /\ Version (mkEntry "v" 1) <= Version o.
Proof.
  apply (gossip_version_determines_entry two_nodes all_mine 3 0 1 after_set 1 1 set_once set_once "k").
  - apply two_nodes_NoDup.
  - lia.
  - apply after_set_reach.
  - reflexivity.
  - reflexivity.
  - reflexivity.
  - reflexivity.
Defined.

Lemma gossip_merge_is_join_witness :
  merge_in [("k", mkEntry "v" 1)] ∅ = state (merge {["k" := mkEntry "v" 1]} (New 3 0)).
Proof.
  apply (gossip_merge_is_join {["k" := mkEntry "v" 1]} (New 3 0) [("k", mkEntry "v" 1)] ∅ ∅).
  apply (bool_decide_unpack _). vm_compute. exact I.
Defined.

Lemma gossip_tie_diverges_witness :
  Get "k" (SetKey "k" "red" (New 3 0)) <> Get "k" (SetKey "k" "blue" (New 3 0)).
Proof. apply (gossip_tie_diverges "k" "red" "blue" 3 0). discriminate. Defined.

Lemma gossip_seen_once_witness :
  exists a1, OnMessage (state_msg 1 ∅) (mkEnv 2 [1] 5 (fun _ => 0)) (New 3 0) = Ret (tt, a1, []) /\
    OnMessage (state_msg 1 ∅) (mkEnv 2 [1] 6 (fun _ => 0)) a1 = Ret (tt, a1, []).
Proof.
  destruct (gossip_seen_once (mkEnv 2 [1] 5 (fun _ => 0)) (mkEnv 2 [1] 6 (fun _ => 0))
    (state_msg 1 ∅) (state_msg 1 ∅) (New 3 0)) as (a1 & E1 & E2 & _).
  - split; vm_compute; intuition discriminate.
  - split; vm_compute; intuition discriminate.
  - reflexivity.
  - exists a1. split; [exact E1|]. apply E2; reflexivity.
Defined.
