(* ===== verification/WeakNet.v ===== *)
(** WeakNet: the Push-Pull Delta-Sync algorithm
    (node/algorithm/weaknet/weaknet.go): state and deltas, per-peer statistics,
    the retransmission buffer, and every handler. *)
From S2P Require Export Sample Lww.
#[local] Open Scope Z_scope.

(** * Data *)

Definition timerSync : string := "wn_sync".
Definition timerRetx : string := "wn_retx".
Definition timerPurge : string := "wn_purge".

Definition kindPushPull : Z := 1.
Definition kindAck : Z := 2.

Abbreviation StateEntry := (Entry bytes).
Abbreviation State := (gmap string StateEntry).

Record pushPullPayload := mkPushPull {
  pp_Kind : Z; pp_IsReply : bool; pp_PeerID : Z; pp_Delta : State; pp_KnownVer : Z }.
Record ackPayload := mkAck { ack_Kind : Z; ack_AckSeq : Z }.

(** encoding/json on the wire payloads.  Values are byte strings (base64), so
    only the keys must be strings JSON preserves: ASCII here. *)
Definition ascii_string (s : string) : bool :=
  forallb (fun c => bool_decide (Ascii.nat_of_ascii c < 128)%nat) (String.list_ascii_of_string s).
Definition ascii_keys (st : State) : Prop := map_Forall (fun k _ => ascii_string k = true) st.

Class WeakJson := {
  Marshal : pushPullPayload -> option bytes;
  Unmarshal_envelope : bytes -> option Z;
  Unmarshal_pushPull : bytes -> option pushPullPayload;
  Unmarshal_ack : bytes -> option ackPayload;
  Marshal_roundtrip pp : ascii_keys (pp_Delta pp) -> exists bs,
    Marshal pp = Some bs /\ bs <> [] /\ Unmarshal_envelope bs = Some (pp_Kind pp) /\
    Unmarshal_pushPull bs = Some pp;
}.

(** [lastSeen = None] is the zero time. *)
Record peerStats := mkStats { knownVer : Z; lastSeen : option Z; active : bool }.
Record pendingMsg := mkPending { pm_msg : WireMessage; pm_peerID : Z; pm_deadline : Z }.

Record Config := mkConfig {
  SyncInterval : Z; Fanout : Z; RetransmitTimeout : Z; PeerStaleDuration : Z }.

Definition Millisecond : Z := 1000000.

Definition DefaultConfig : Config :=
  mkConfig (150 * Millisecond) 3 (200 * Millisecond) (2000 * Millisecond).

Record Algorithm := mkAlgorithm {
  cfg : Config;
  state : State;
  peers : gmap Z peerStats;
  pending : gmap Z pendingMsg;
  rng : nat;
}.

Definition set_state (x : State) (a : Algorithm) : Algorithm :=
  mkAlgorithm (cfg a) x (peers a) (pending a) (rng a).
Definition set_peers (x : gmap Z peerStats) (a : Algorithm) : Algorithm :=
  mkAlgorithm (cfg a) (state a) x (pending a) (rng a).
Definition set_pending (x : gmap Z pendingMsg) (a : Algorithm) : Algorithm :=
  mkAlgorithm (cfg a) (state a) (peers a) x (rng a).
Definition set_rng (x : nat) (a : Algorithm) : Algorithm :=
  mkAlgorithm (cfg a) (state a) (peers a) (pending a) x.

Definition New (c : Config) : Algorithm := mkAlgorithm c ∅ ∅ ∅ 0.

(** * State *)

Definition SetKey (key : string) (value : bytes) (a : Algorithm) : Algorithm :=
  let ver := match state a !! key with Some e => Version e +[64] 1 | None => 1 end in
  set_state (<[key := mkEntry value ver]> (state a)) a.

Definition Get (key : string) (a : Algorithm) : option StateEntry := state a !! key.

Definition deltaFor (sinceVer : Z) (a : Algorithm) : State :=
  filter (fun ke : string * StateEntry => sinceVer < Version ke.2) (state a).

(** [for k, re := range remote], in the order [pick] gives; also the maximal
    version seen. *)
Definition mergeState (pick : nat -> nat) (remote : State) (a : Algorithm) : Z * Algorithm :=
  let kvs := shuffle pick (map_to_list remote) in
  (foldl (fun v kv => if v <? Version kv.2 then Version kv.2 else v) 0 kvs,
   set_state (merge_in kvs (state a)) a).

Definition getPeerStats (peerID : Z) (a : Algorithm) : peerStats * Algorithm :=
  match peers a !! peerID with
  | Some ps => (ps, a)
  | None => let ps := mkStats 0 None true in (ps, set_peers (<[peerID := ps]> (peers a)) a)
  end.

(** [ps.lastSeen.After(cutoff)] and [Before(cutoff)]; the zero time is before
    every other. *)
Definition seen_after (cutoff : Z) (t : option Z) : bool :=
  match t with Some t => cutoff <? t | None => false end.
Definition stale (cutoff : Z) (t : option Z) : bool :=
  match t with Some t => t <? cutoff | None => false end.

Definition activePeers (now : Z) (all : list Z) (a : Algorithm) : list Z :=
  let cutoff := now - PeerStaleDuration (cfg a) in
  let out := filter (fun id =>
    from_option (fun ps => seen_after cutoff (lastSeen ps)) false (peers a !! id) = true) all in
  if zlen out =? 0 then all else out.

Definition purgeStalePeers (now : Z) (a : Algorithm) : Algorithm :=
  let cutoff := now - PeerStaleDuration (cfg a) * 3 in
  set_peers (filter (fun ip : Z * peerStats => stale cutoff (lastSeen ip.2) = false) (peers a)) a.

(** * Handlers *)

(** Messages as the composite literals leave them. *)
Definition stateMsg (now : Z) (pl : bytes) : WireMessage :=
  mkMessage TypeState 0 0 0 now 0 0 TTLState PriorityState pl.
Definition criticalMsg (now : Z) (pl : bytes) : WireMessage :=
  mkMessage TypeControl 0 0 0 now 0 0 TTLCollision PriorityCollision pl.
Definition with_timestamp (t : Z) (m : WireMessage) : WireMessage :=
  mkMessage (Type_ m) (From m) (To m) (Seq m) t (DataTime m) (StreamID m) (TTL m) (Priority m)
    (Payload m).

Section handlers.
Context `{WeakJson}.

Definition Start : prog Algorithm unit :=
  a ← get;
  api_SetTimer timerSync (SyncInterval (cfg a));;
  api_SetTimer timerRetx (RetransmitTimeout (cfg a) `quot` 2);;
  api_SetTimer timerPurge (PeerStaleDuration (cfg a) `quot` 2).

Definition Stop : prog Algorithm unit :=
  api_CancelTimer timerSync;; api_CancelTimer timerRetx;; api_CancelTimer timerPurge.

Definition SendCritical (peerID : Z) (pl : bytes) : prog Algorithm bool :=
  e ← ask;
  let msg := criticalMsg (UnixMilli e) pl in
  ok ← api_Send peerID msg;
  if (ok : bool) then
    let syntheticSeq := Z.land (env_Now e) (2 ^ 32 - 1) in
    a ← get;
    modify (set_pending (<[syntheticSeq :=
      mkPending msg peerID (env_Now e + TTL msg * Millisecond)]> (pending a)));;
    mret true
  else mret false.

Definition sendPushPull (peerID : Z) (isReply : bool) : prog Algorithm unit :=
  e ← ask; a ← get;
  let '(ps, a1) := getPeerStats peerID a in
  modify (fun _ => a1);;
  match Marshal (mkPushPull kindPushPull isReply (env_ID e) (deltaFor (knownVer ps) a1) (knownVer ps)) with
  | None => mret tt
  | Some pl => api_Send peerID (stateMsg (UnixMilli e) pl);; mret tt
  end.

Definition handlePushPull (from : Z) (pp : pushPullPayload) : prog Algorithm unit :=
  e ← ask; a ← get;
  let '(maxVer, a1) := mergeState (iteration e) (pp_Delta pp) a in
  let '(ps, a2) := getPeerStats from a1 in
  let known := if knownVer ps <? pp_KnownVer pp then pp_KnownVer pp else knownVer ps in
  modify (fun _ => set_peers (<[from := mkStats known (Some (env_Now e)) (active ps)]> (peers a2)) a2);;
  if negb (pp_IsReply pp) then sendPushPull from true else mret tt.

Definition OnMessage (msg : WireMessage) : prog Algorithm unit :=
  if zlen (Payload msg) =? 0 then mret tt
  else
    match Unmarshal_envelope (Payload msg) with
    | None => mret tt
    | Some kind =>
        if kind =? kindPushPull then
          match Unmarshal_pushPull (Payload msg) with
          | None => mret tt
          | Some pp => handlePushPull (From msg) pp
          end
        else if kind =? kindAck then
          match Unmarshal_ack (Payload msg) with
          | None => mret tt
          | Some ack => modify (fun a => set_pending (delete (ack_AckSeq ack) (pending a)) a)
          end
        else mret tt
    end.

Definition syncRound : prog Algorithm unit :=
  e ← ask;
  if zlen (env_Peers e) =? 0 then mret tt
  else
    a ← get;
    tp ← lift (sampleN (env_rand e) (rng a) (activePeers (env_Now e) (env_Peers e) a) (Fanout (cfg a)));
    modify (set_rng tp.2);;
    for_each (fun p => sendPushPull p false) tp.1.

(** [for seq, pm := range a.pending]: expired entries are deleted, the others
    are stamped with the current time and sent again. *)
Definition retransmit_one (sp : Z * pendingMsg) : prog Algorithm unit :=
  e ← ask;
  if pm_deadline sp.2 <? env_Now e then
    modify (fun a => set_pending (delete sp.1 (pending a)) a)
  else
    let msg := with_timestamp (UnixMilli e) (pm_msg sp.2) in
    modify (fun a => set_pending
      (<[sp.1 := mkPending msg (pm_peerID sp.2) (pm_deadline sp.2)]> (pending a)) a);;
    api_Send (pm_peerID sp.2) msg;; mret tt.

Definition retransmitCheck : prog Algorithm unit :=
  e ← ask; a ← get;
  for_each retransmit_one (shuffle (iteration e) (map_to_list (pending a))).

Definition OnTick (name : string) : prog Algorithm unit :=
  if decide (name = timerSync) then syncRound
  else if decide (name = timerRetx) then retransmitCheck
  else if decide (name = timerPurge) then
    e ← ask; modify (purgeStalePeers (env_Now e))
  else mret tt.

End handlers.
