(* ===== verification/WeakNetFacts.v ===== *)
(** WeakNetFacts: what the weaknet handlers do.  The version a node remembers of
    a peer never leaves zero, so every delta is the whole state; nothing ever
    acknowledges a critical message, so it is sent again until its deadline; and
    one push-pull exchange makes two nodes agree. *)
From stdpp Require Import countable.
From S2P Require Export Coding WeakNet.
#[local] Open Scope Z_scope.

(** * One node *)
Section node.
Context `{WeakJson}.

(** What holds of every node: no version is remembered, versions start at 1. *)
Record good (a : Algorithm) : Prop := {
  gd_known : forall p ps, peers a !! p = Some ps -> knownVer ps = 0;
  gd_versions : forall k x, state a !! k = Some x -> 1 <= Version x;
  gd_keys : ascii_keys (state a);
}.

Definition touch (p : Z) (a : Algorithm) : Algorithm := (getPeerStats p a).2.

Lemma getPeerStats_good p a :
  good a -> exists ps, getPeerStats p a = (ps, touch p a) /\ knownVer ps = 0 /\
    state (touch p a) = state a /\ pending (touch p a) = pending a /\ cfg (touch p a) = cfg a /\
    rng (touch p a) = rng a /\ good (touch p a).
Proof.
  intros Hg. unfold touch, getPeerStats. destruct (peers a !! p) as [ps|] eqn:E.
  - exists ps. split_and!; try done. by apply (gd_known _ Hg p).
  - exists (mkStats 0 None true). split_and!; try done. split; [|apply Hg..]. cbn.
    intros q ps. destruct (decide (q = p)) as [->|].
    + rewrite lookup_insert_eq. by intros [= <-].
    + rewrite lookup_insert_ne by done. apply (gd_known _ Hg).
Qed.

Lemma deltaFor_all a : good a -> deltaFor 0 a = state a.
Proof.
  intros Hg. apply map_filter_id. intros k x Hx. cbn.
  pose proof (gd_versions _ Hg k x Hx). lia.
Qed.

(** The push-pull message a node sends: all it has. *)
Definition full_push (e : Env) (isReply : bool) (a : Algorithm) : pushPullPayload :=
  mkPushPull kindPushPull isReply (env_ID e) (state a) 0.

Lemma sendPushPull_spec p r e a Q :
  good a ->
  (forall pl, Marshal (full_push e r a) = Some pl ->
     Q tt (touch p a) (sends_to e p (stateMsg (UnixMilli e) pl))) ->
  wp False (sendPushPull p r) e a Q.
Proof.
  intros Hg HQ. destruct (getPeerStats_good p a Hg) as (ps & Eps & Hk & Hst & _ & _ & _ & Hg').
  unfold sendPushPull. do 4 wp_step. rewrite Eps. do 2 wp_step. rewrite Hk.
  rewrite deltaFor_all, Hst by done. fold (full_push e r a).
  destruct (Marshal_roundtrip (full_push e r a)) as (pl & Em & _); [apply Hg|].
  rewrite Em. do 3 wp_step. rewrite app_nil_r. cbn [app]. by apply HQ.
Qed.

(** The state after receiving a push-pull payload, before any reply. *)
Definition absorbed (now : Z) (from : Z) (delta : State) (a : Algorithm) : Algorithm :=
  let a1 := set_state (join_state (state a) delta) a in
  let ps := (getPeerStats from a1).1 in
  set_peers (<[from := mkStats 0 (Some now) (active ps)]> (peers (touch from a1))) (touch from a1).

Lemma join_versions (s t : State) k x :
  (forall k x, s !! k = Some x -> 1 <= Version x) -> (forall k x, t !! k = Some x -> 1 <= Version x) ->
  join_state s t !! k = Some x -> 1 <= Version x.
Proof.
  intros Hs Ht. rewrite lookup_join. destruct (s !! k) as [l|] eqn:El, (t !! k) as [y|] eqn:Ey; intros [= <-].
  - destruct (newer_cases l y) as [-> | ->]; eauto.
  - eauto.
  - eauto.
Qed.

Lemma join_keys (s t : State) : ascii_keys s -> ascii_keys t -> ascii_keys (join_state s t).
Proof.
  intros Hs Ht. apply map_Forall_lookup_2. intros k x. rewrite lookup_join.
  destruct (s !! k) as [l|] eqn:El; intros E.
  - by apply (map_Forall_lookup_1 _ _ _ _ Hs El).
  - by apply (map_Forall_lookup_1 _ _ _ _ Ht E).
Qed.

Definition good_payload (pp : pushPullPayload) : Prop :=
  pp_Kind pp = kindPushPull /\ pp_KnownVer pp = 0 /\
  (forall k x, pp_Delta pp !! k = Some x -> 1 <= Version x) /\ ascii_keys (pp_Delta pp).

Lemma absorbed_good now from pp a :
  good a -> good_payload pp ->
  let a' := absorbed now from (pp_Delta pp) a in
  good a' /\ state a' = join_state (state a) (pp_Delta pp) /\ pending a' = pending a /\ cfg a' = cfg a.
Proof.
  intros Hg (_ & _ & Hv & Hk).
  assert (Hg1 : good (set_state (join_state (state a) (pp_Delta pp)) a)).
  { destruct Hg. split; cbn; [done| |by apply join_keys]. intros k x. by apply join_versions. }
  destruct (getPeerStats_good from _ Hg1) as (ps & Eps & _ & Hst & Hpe & Hc & _ & Hg2).
  unfold absorbed. cbv zeta. rewrite Eps. cbn [fst]. split; [|done].
  destruct Hg2. split; cbn; [|done|done]. intros q qs. destruct (decide (q = from)) as [->|].
  - rewrite lookup_insert_eq. by intros [= <-].
  - rewrite lookup_insert_ne by done. apply gd_known0.
Qed.

Lemma handlePushPull_spec from pp e a Q :
  good a -> good_payload pp ->
  (let a1 := absorbed (env_Now e) from (pp_Delta pp) a in
   if pp_IsReply pp then Q tt a1 []
   else forall pl, Marshal (full_push e true a1) = Some pl ->
     Q tt (touch from a1) (sends_to e from (stateMsg (UnixMilli e) pl))) ->
  wp False (handlePushPull from pp) e a Q.
Proof.
  intros Hg Hpp HQ. destruct (absorbed_good (env_Now e) from pp a Hg Hpp) as (Hg1 & _).
  destruct Hpp as (_ & Hk0 & Hv & Hk).
  assert (Hgj : good (set_state (join_state (state a) (pp_Delta pp)) a)).
  { destruct Hg. split; cbn; [done| |by apply join_keys]. intros k x. by apply join_versions. }
  destruct (getPeerStats_good from _ Hgj) as (ps & Eps & Hps & _).
  unfold handlePushPull. do 4 wp_step. unfold mergeState.
  rewrite merge_in_join by apply NoDup_fst_shuffle. rewrite shuffle_to_map.
  rewrite Eps, Hps, Hk0. cbn [Z.ltb Z.compare]. do 2 wp_step.
  assert (Ea : set_peers (<[from := mkStats 0 (Some (env_Now e)) (active ps)]>
      (peers (touch from (set_state (join_state (state a) (pp_Delta pp)) a))))
      (touch from (set_state (join_state (state a) (pp_Delta pp)) a))
    = absorbed (env_Now e) from (pp_Delta pp) a).
  { unfold absorbed. cbv zeta. by rewrite Eps. }
  rewrite Ea. destruct (pp_IsReply pp); cbn [negb]; [by wp_step|].
  apply sendPushPull_spec; [done|]. intros pl Hpl. by apply HQ.
Qed.

End node.

(** * The retransmission buffer *)
Section retransmit.
Context `{WeakJson}.

Definition expired (now : Z) (pm : pendingMsg) : bool := pm_deadline pm <? now.
Definition restamped (t : Z) (pm : pendingMsg) : pendingMsg :=
  mkPending (with_timestamp t (pm_msg pm)) (pm_peerID pm) (pm_deadline pm).

(** One entry's effect on the buffer, and what is sent for it. *)
Definition retx_entry (e : Env) (m : gmap Z pendingMsg) (sp : Z * pendingMsg) : gmap Z pendingMsg :=
  if expired (env_Now e) sp.2 then delete sp.1 m else <[sp.1 := restamped (UnixMilli e) sp.2]> m.
Definition retx_sends (e : Env) (sp : Z * pendingMsg) : list effect :=
  if expired (env_Now e) sp.2 then []
  else sends_to e (pm_peerID sp.2) (pm_msg (restamped (UnixMilli e) sp.2)).

Lemma retransmit_one_spec e sp a Q :
  Q tt (set_pending (retx_entry e (pending a) sp) a) (retx_sends e sp) ->
  wp False (retransmit_one sp) e a Q.
Proof.
  unfold retransmit_one, retx_entry, retx_sends. fold (expired (env_Now e) sp.2). intros HQ.
  do 2 wp_step. unfold expired in *.
  destruct (pm_deadline sp.2 <? env_Now e); wp_steps; [done|by rewrite !app_nil_r].
Qed.

Lemma retransmit_loop e l a Q :
  Q tt (set_pending (foldl (retx_entry e) (pending a) l) a) (concat (retx_sends e <$> l)) ->
  wp False (for_each retransmit_one l) e a Q.
Proof.
  intros HQ. eapply wp_mono.
  - apply (wp_for_each_in _ _ (fun done s fx =>
      s = set_pending (foldl (retx_entry e) (pending a) done) a /\
      fx = concat (retx_sends e <$> done)) e l).
    + intros done s fx sp _ (-> & ->). apply retransmit_one_spec.
      rewrite fmap_app, concat_app, foldl_app. split; [done|]. cbn. by rewrite app_nil_r.
    + split; [by destruct a|done].
  - intros [] s fx (-> & ->). exact HQ.
Qed.

Lemma foldl_retx_lookup e l m seq :
  NoDup l.*1 -> (forall sp, sp ∈ l -> m !! sp.1 = Some sp.2) ->
  foldl (retx_entry e) m l !! seq =
  if decide (seq ∈ l.*1)
  then pm ← m !! seq; if expired (env_Now e) pm then None else Some (restamped (UnixMilli e) pm)
  else m !! seq.
Proof.
  revert m. induction l as [|[s pm] l IH]; intros m Hnd Hm; [done|].
  apply NoDup_cons in Hnd as [Hs Hnd]. cbn [foldl].
  assert (Hother : forall k, k <> s -> retx_entry e m (s, pm) !! k = m !! k).
  { intros k Hk. unfold retx_entry. cbn. destruct (expired _ _);
      [by rewrite lookup_delete_ne|by rewrite lookup_insert_ne]. }
  rewrite IH; [|done|].
  2: { intros sp Hsp. rewrite Hother; [apply Hm; by right|]. intros <-. apply Hs.
       apply list_elem_of_fmap. by exists sp. }
  cbn [fmap list_fmap fst]. destruct (decide (seq = s)) as [->|Hne].
  - rewrite decide_False by done. rewrite (decide_True (P := s ∈ s :: l.*1)) by left.
    pose proof (Hm (s, pm) ltac:(left)) as E. cbn in E. rewrite E. cbn. unfold retx_entry. cbn.
    destruct (expired _ _); [by rewrite lookup_delete_eq|by rewrite lookup_insert_eq].
  - rewrite Hother by done. destruct (decide (seq ∈ l.*1)) as [Hin|Hin].
    + by rewrite decide_True by (by right).
    + rewrite decide_False; [done|]. by intros [?|?]%elem_of_cons.
Qed.

Lemma retransmitCheck_spec e a Q :
  (forall a', state a' = state a -> peers a' = peers a -> cfg a' = cfg a ->
     (forall seq, pending a' !! seq =
        pm ← pending a !! seq;
        if expired (env_Now e) pm then None else Some (restamped (UnixMilli e) pm)) ->
     Q tt a' (concat (retx_sends e <$> shuffle (iteration e) (map_to_list (pending a))))) ->
  wp False retransmitCheck e a Q.
Proof.
  intros HQ. unfold retransmitCheck. do 4 wp_step. apply retransmit_loop. apply HQ; try done.
  intros seq. cbn. rewrite foldl_retx_lookup.
  - case_decide as Hin; [done|]. destruct (pending a !! seq) as [pm|] eqn:E; [|done].
    exfalso. apply Hin. apply list_elem_of_fmap. exists (seq, pm).
    split; [done|]. by apply elem_of_shuffle_map.
  - apply NoDup_fst_shuffle.
  - intros [s pm] Hsp. by apply elem_of_shuffle_map in Hsp.
Qed.

End retransmit.

(** * Rounds *)
Section rounds.
Context `{WeakJson}.

(** Every message of a round is the whole state. *)
Lemma syncRound_spec e a Q :
  good a -> NoDup (env_Peers e) -> 0 <= Fanout (cfg a) ->
  (forall a' fx, good a' -> state a' = state a -> pending a' = pending a -> cfg a' = cfg a ->
     (forall to m, ESend to m ∈ fx -> exists pl, Marshal (full_push e false a) = Some pl /\
        m = stateMsg (UnixMilli e) pl) -> Q tt a' fx) ->
  wp False syncRound e a Q.
Proof.
  intros Hg Hnd Hf HQ. unfold syncRound. do 2 wp_step.
  destruct (zlen (env_Peers e) =? 0).
  { wp_step. apply HQ; try done. intros to m Hin. by apply elem_of_nil in Hin. }
  assert (Hact : NoDup (activePeers (env_Now e) (env_Peers e) a)).
  { unfold activePeers. case_match; [done|by apply NoDup_filter]. }
  destruct (sampleN_spec (env_rand e) (rng a) (activePeers (env_Now e) (env_Peers e) a)
    (Fanout (cfg a)) Hact Hf) as (targets & pos & Es & _).
  do 2 wp_step. rewrite Es. do 4 wp_step. cbn [fst snd].
  assert (Hgs : good (set_rng pos a)) by (split; apply Hg).
  eapply wp_mono.
  - apply (wp_for_each_in _ _ (fun done s fx => good s /\ state s = state a /\ pending s = pending a /\
      cfg s = cfg a /\ forall to m, ESend to m ∈ fx -> exists pl,
        Marshal (full_push e false a) = Some pl /\ m = stateMsg (UnixMilli e) pl) e targets).
    + intros done s fx p _ (Hg' & Hst & Hpe & Hc & Hfx). apply sendPushPull_spec; [done|].
      intros pl Hpl. destruct (getPeerStats_good p s Hg') as (ps & _ & _ & E1 & E2 & E3 & _ & Hg2).
      rewrite E1, E2, E3. split_and!; try done. intros to m [Hin|Hin]%elem_of_app; [by eapply Hfx|].
      unfold sends_to in Hin. case_decide; [|by apply elem_of_nil in Hin].
      apply list_elem_of_singleton in Hin as [= -> ->]. exists pl. split; [|done].
      unfold full_push in *. by rewrite <- Hst.
    + split_and!; try done. intros to m Hin. by apply elem_of_nil in Hin.
  - intros [] s fx (Hg' & Hst & Hpe & Hc & Hfx). by apply HQ.
Qed.

Lemma purge_good now a : good a -> good (purgeStalePeers now a).
Proof.
  intros Hg. split; [|apply Hg..]. cbn. intros p ps. rewrite map_lookup_filter_Some.
  intros [Hp _]. by apply (gd_known _ Hg p).
Qed.

Lemma SetKey_good k value a :
  good a -> ascii_string k = true ->
  (forall x, state a !! k = Some x -> Version x + 1 < 2 ^ 64) -> good (SetKey k value a).
Proof.
  intros Hg Hk Hb. split; [apply Hg| |].
  - intros k' x. cbn. destruct (decide (k' = k)) as [->|].
    + rewrite lookup_insert_eq. intros [= <-]. cbn. destruct (state a !! k) as [o|] eqn:E; [|lia].
      pose proof (gd_versions _ Hg k o E). specialize (Hb o eq_refl).
      rewrite wrap_small by (unfold is_uint; lia). lia.
    + rewrite lookup_insert_ne by done. apply (gd_versions _ Hg).
  - apply map_Forall_insert_2; [done|apply Hg].
Qed.

End rounds.

Section messages.
Context `{WeakJson}.

(** A message that carries a push-pull payload is handled as one. *)
Lemma OnMessage_pushPull m pp :
  Payload m <> [] -> Unmarshal_envelope (Payload m) = Some kindPushPull ->
  Unmarshal_pushPull (Payload m) = Some pp -> OnMessage m = handlePushPull (From m) pp.
Proof.
  intros Hne He Hp. unfold OnMessage. destruct (Z.eqb_spec (zlen (Payload m)) 0) as [E|_].
  { destruct (Payload m); [done|]. unfold zlen in E. cbn in E. lia. }
  by rewrite He, Z.eqb_refl, Hp.
Qed.

Lemma full_push_good e r a : good a -> good_payload (full_push e r a).
Proof. intros Hg. split_and!; [done|done|apply Hg|apply Hg]. Qed.

Lemma full_push_payload e r a pl :
  good a -> Marshal (full_push e r a) = Some pl ->
  pl <> [] /\ Unmarshal_envelope pl = Some kindPushPull /\
  Unmarshal_pushPull pl = Some (full_push e r a).
Proof.
  intros Hg Em. destruct (Marshal_roundtrip (full_push e r a)) as (bs & Eb & Hr); [apply Hg|].
  rewrite Em in Eb. injection Eb as <-. done.
Qed.

End messages.

(** C19: one push-pull exchange synchronises two nodes: when no key has different
    values of one version at the two ([consistent]; otherwise each would keep its
    own), and each is a peer of the other, the request of one node, its handling
    at the other and the handling of the one reply leave both with the join of
    their states; no further message is sent. *)
Theorem weaknet_exchange_synchronises `{WeakJson} a b ea eb ea' :
  good a -> good b -> consistent (state a) (state b) ->
  env_ID eb ∈ env_Peers ea -> env_ID ea ∈ env_Peers eb ->
  exists a1 m1 b1 m2 a2,
    sendPushPull (env_ID eb) false ea a = Ret (tt, a1, [ESend (env_ID eb) m1]) /\
    OnMessage (address (env_ID ea) (env_ID eb) m1) eb b = Ret (tt, b1, [ESend (env_ID ea) m2]) /\
    OnMessage (address (env_ID eb) (env_ID ea) m2) ea' a1 = Ret (tt, a2, []) /\
    state a2 = state b1 /\ state b1 = join_state (state b) (state a).
Proof.
  intros Ha Hb Hc Hpb Hpa.
  (* the request *)
  destruct (wp_total (sendPushPull (env_ID eb) false) ea a (fun _ a1 fx => exists pl,
    Marshal (full_push ea false a) = Some pl /\ a1 = touch (env_ID eb) a /\
    fx = [ESend (env_ID eb) (stateMsg (UnixMilli ea) pl)])) as ([] & a1 & fx1 & E1 & pl1 & M1 & -> & ->).
  { apply sendPushPull_spec; [done|]. intros pl Hpl. exists pl. split; [done|]. split; [done|].
    unfold sends_to. by rewrite decide_True. }
  destruct (full_push_payload ea false a pl1 Ha M1) as (N1 & V1 & U1).
  set (m1 := address (env_ID ea) (env_ID eb) (stateMsg (UnixMilli ea) pl1)).
  (* its handling *)
  pose proof (full_push_good ea false a Ha) as Hp1.
  destruct (absorbed_good (env_Now eb) (env_ID ea) _ b Hb Hp1) as (Hgb & Esb & _).
  destruct (wp_total (OnMessage m1) eb b (fun _ b1 fx => exists pl,
    Marshal (full_push eb true (absorbed (env_Now eb) (env_ID ea) (state a) b)) = Some pl /\
    state b1 = join_state (state b) (state a) /\
    fx = [ESend (env_ID ea) (stateMsg (UnixMilli eb) pl)])) as ([] & b1 & fx2 & E2 & pl2 & M2 & S2 & ->).
  { rewrite (OnMessage_pushPull m1 (full_push ea false a)) by done.
    apply handlePushPull_spec; [done|done|]. intros a1 pl Hpl. exists pl. split; [done|].
    destruct (getPeerStats_good (From m1) a1) as (_ & _ & _ & Est & _); [done|].
    split; [by rewrite Est|]. unfold sends_to. by rewrite decide_True. }
  destruct (full_push_payload eb true _ pl2 Hgb M2) as (N2 & V2 & U2).
  set (m2 := address (env_ID eb) (env_ID ea) (stateMsg (UnixMilli eb) pl2)).
  (* the reply *)
  destruct (getPeerStats_good (env_ID eb) a Ha) as (_ & _ & _ & Sta & _ & _ & _ & Hga).
  pose proof (full_push_good eb true _ Hgb) as Hp2.
  destruct (wp_total (OnMessage m2) ea' (touch (env_ID eb) a) (fun _ a2 fx =>
    state a2 = join_state (state a) (join_state (state b) (state a)) /\ fx = []))
    as ([] & a2 & fx3 & E3 & S3 & ->).
  { rewrite (OnMessage_pushPull m2 (full_push eb true (absorbed (env_Now eb) (env_ID ea) (state a) b))) by done.
    apply handlePushPull_spec; [done|done|]. cbn [full_push pp_IsReply]. split; [|done].
    destruct (absorbed_good (env_Now ea') (From m2) _ _ Hga Hp2) as (_ & Es & _).
    etransitivity; [exact Es|]. rewrite Sta. exact (f_equal (join_state (state a)) Esb). }
  eexists _, _, b1, _, a2. split; [exact E1|]. split; [exact E2|]. split; [exact E3|].
  split; [|done]. rewrite S3, S2, <- join_state_assoc, (join_state_comm _ _ Hc).
  apply join_state_absorb.
Qed.

(** What a retransmission tick does: every critical message past its
    deadline is forgotten, every other one is stamped with the current time and
    sent again to its peer, in some order, and stays in the buffer. *)
Theorem weaknet_retransmits_until_deadline `{WeakJson} e a :
  exists a' fx, OnTick timerRetx e a = Ret (tt, a', fx) /\
    (forall seq, pending a' !! seq =
       pm ← pending a !! seq;
       if pm_deadline pm <? env_Now e then None
       else Some (mkPending (with_timestamp (UnixMilli e) (pm_msg pm)) (pm_peerID pm) (pm_deadline pm))) /\
    (forall to m, ESend to m ∈ fx <-> exists seq pm, pending a !! seq = Some pm /\
       env_Now e <= pm_deadline pm /\ to = pm_peerID pm /\ to ∈ env_Peers e /\
       m = with_timestamp (UnixMilli e) (pm_msg pm)) /\
    state a' = state a.
Proof.
  destruct (wp_total (OnTick timerRetx) e a (fun _ a' fx =>
    (forall seq, pending a' !! seq = pm ← pending a !! seq;
       if expired (env_Now e) pm then None else Some (restamped (UnixMilli e) pm)) /\
    fx = concat (retx_sends e <$> shuffle (iteration e) (map_to_list (pending a))) /\ state a' = state a))
    as ([] & a' & fx & E & Hp & -> & Hs).
  { apply (retransmitCheck_spec e a). intros a' Hs _ _ Hp. done. }
  exists a', (concat (retx_sends e <$> shuffle (iteration e) (map_to_list (pending a)))). split; [exact E|]. split; [exact Hp|].
  split; [|done]. intros to m. rewrite elem_of_concat. split.
  - intros (l & Hin & Hl). apply list_elem_of_fmap in Hl as ([seq pm] & -> & Hpm).
    apply elem_of_shuffle_map in Hpm. unfold retx_sends, sends_to, expired in Hin. cbn in Hin.
    destruct (Z.ltb_spec (pm_deadline pm) (env_Now e)); [by apply elem_of_nil in Hin|].
    case_decide; [|by apply elem_of_nil in Hin].
    apply list_elem_of_singleton in Hin as [= -> ->]. by exists seq, pm.
  - intros (seq & pm & Hpm & Hle & -> & Hto & ->).
    exists (retx_sends e (seq, pm)). split.
    + unfold retx_sends, sends_to, expired. cbn.
      destruct (Z.ltb_spec (pm_deadline pm) (env_Now e)); [lia|]. rewrite decide_True by done. by left.
    + apply list_elem_of_fmap. exists (seq, pm). split; [done|]. by apply elem_of_shuffle_map.
Qed.
