(* ===== verification/WeakNetNet.v ===== *)
(** WeakNetNet: nodes running the weaknet algorithm over a network that may
    lose, duplicate and reorder messages.  In every reachable world each
    push-pull message is the sender's whole state, no version is ever remembered
    of a peer, and no acknowledgement is ever in flight. *)
From stdpp Require Import countable.
From S2P Require Export WeakNetFacts.
#[local] Open Scope Z_scope.

(** Each message in flight is kept with its sender's state when it was sent. *)
Record World := mkWorld {
  wn_nodes : gmap Z Algorithm;
  wn_net : list (WireMessage * State);
}.

Definition kept_sends (v : Z) (st : State) (fx : list effect) : list (WireMessage * State) :=
  omap (fun x => match x with ESend to m => Some (address v to m, st) | _ => None end) fx.

Definition cfg_ok (c : Config) : Prop :=
  0 < SyncInterval c /\ 1 < RetransmitTimeout c /\ 1 < PeerStaleDuration c /\ 0 <= Fanout c.

#[export] Instance cfg_ok_dec c : Decision (cfg_ok c).
Proof. unfold cfg_ok. apply _. Defined.

Section net.
Context `{WeakJson} (ids : list Z).

Definition env_ok (v : Z) (e : Env) : Prop :=
  env_ID e = v /\ env_Peers e ≡ₚ filter (fun u => u <> v) ids.

(** The payload of an application message is not taken for one of the
    algorithm's own: it is no envelope, or one of another kind, as is a JSON
    object without a kind. *)
Definition opaque (pl : bytes) : Prop :=
  forall kind, Unmarshal_envelope pl = Some kind -> kind <> kindPushPull /\ kind <> kindAck.

Inductive event (w : World) : Z -> prog Algorithm unit -> Prop :=
  | ev_deliver m st : (m, st) ∈ wn_net w -> event w (To m) (OnMessage m)
  | ev_tick v name : event w v (OnTick name)
  | ev_start v : event w v Start.

Inductive step (w : World) : World -> Prop :=
  | step_set v k value a :
      wn_nodes w !! v = Some a -> ascii_string k = true ->
      step w (mkWorld (<[v := SetKey k value a]> (wn_nodes w)) (wn_net w))
  | step_critical v peerID pl e a ok a' fx :
      wn_nodes w !! v = Some a -> env_ok v e -> opaque pl ->
      SendCritical peerID pl e a = Ret (ok, a', fx) ->
      step w (mkWorld (<[v := a']> (wn_nodes w)) (wn_net w ++ kept_sends v (state a') fx))
  | step_handler v h e a a' fx :
      event w v h -> wn_nodes w !! v = Some a -> env_ok v e -> h e a = Ret (tt, a', fx) ->
      step w (mkWorld (<[v := a']> (wn_nodes w)) (wn_net w ++ kept_sends v (state a') fx)).

Definition init (c : Config) : World :=
  mkWorld (list_to_map ((fun v => (v, New c)) <$> ids)) [].

Definition reach (c : Config) (n : nat) (w : World) : Prop := nsteps step n (init c) w.

(** * The invariant *)

(** A push-pull message that carries [st] and remembers nothing. *)
Definition carries_all (m : WireMessage) (st : State) : Prop :=
  Payload m <> [] /\ Unmarshal_envelope (Payload m) = Some kindPushPull /\
  exists pp, Unmarshal_pushPull (Payload m) = Some pp /\ good_payload pp /\ pp_Delta pp = st.

Definition versions_upto (n : Z) (st : State) : Prop := forall k x, st !! k = Some x -> Version x <= n.

Record node_inv (n : Z) (a : Algorithm) : Prop := {
  ni_good : good a;
  ni_cfg : cfg_ok (cfg a);
  ni_versions : versions_upto n (state a);
  ni_pending : forall seq pm, pending a !! seq = Some pm -> opaque (Payload (pm_msg pm));
}.

Definition msg_inv (n : Z) (ms : WireMessage * State) : Prop :=
  opaque (Payload ms.1) \/ (carries_all ms.1 ms.2 /\ versions_upto n ms.2).

Record winv (n : Z) (w : World) : Prop := {
  wi_nodes : forall v a, wn_nodes w !! v = Some a -> node_inv n a;
  wi_net : forall ms, ms ∈ wn_net w -> msg_inv n ms;
}.

(** A critical message stays pending unless its deadline has passed. *)
Definition retains (now : Z) (a a' : Algorithm) : Prop :=
  forall seq pm, pending a !! seq = Some pm -> pm_deadline pm < now \/
    exists pm', pending a' !! seq = Some pm' /\ pm_deadline pm' = pm_deadline pm /\
      pm_peerID pm' = pm_peerID pm /\ Payload (pm_msg pm') = Payload (pm_msg pm).

Definition sends_ok (a' : Algorithm) (fx : list effect) : Prop :=
  forall to m, ESend to m ∈ fx -> opaque (Payload m) \/ carries_all m (state a').

Definition wstep (n now : Z) (a a' : Algorithm) (fx : list effect) : Prop :=
  node_inv n a' /\ retains now a a' /\ sends_ok a' fx.

Lemma retains_same now a a' : pending a' = pending a -> retains now a a'.
Proof. intros E seq pm Hp. right. exists pm. by rewrite E. Qed.

Lemma node_inv_same n a a' :
  node_inv n a -> good a' -> state a' = state a -> pending a' = pending a -> cfg a' = cfg a ->
  node_inv n a'.
Proof. intros [] Hg Hs Hp Hc. split; rewrite ?Hs, ?Hp, ?Hc; done. Qed.

Lemma sends_ok_nil a' : sends_ok a' [].
Proof. intros to m Hin. by apply elem_of_nil in Hin. Qed.

Lemma full_push_carries e r a pl now :
  good a -> Marshal (full_push e r a) = Some pl -> carries_all (stateMsg now pl) (state a).
Proof.
  intros Hg Hm. destruct (full_push_payload e r a pl Hg Hm) as (? & ? & ?).
  split; [done|]. split; [done|]. exists (full_push e r a). split; [done|].
  split; [by apply full_push_good|done].
Qed.

Lemma OnMessage_wstep n m st e a :
  node_inv n a -> msg_inv n (m, st) ->
  wp False (OnMessage m) e a (fun _ a' fx => wstep n (env_Now e) a a' fx).
Proof.
  intros Hi [Hop|[(Hne & Hk & pp & Hpp & Hgp & Est) Hv]]; cbn [fst snd] in *.
  - assert (Hskip : wstep n (env_Now e) a a []).
    { split; [done|split; [by apply retains_same|apply sends_ok_nil]]. }
    unfold OnMessage. destruct (zlen (Payload m) =? 0); [by wp_step|].
    destruct (Unmarshal_envelope (Payload m)) as [kind|] eqn:E; [|by wp_step].
    destruct (Hop kind E) as [H1%Z.eqb_neq H2%Z.eqb_neq]. rewrite H1, H2. by wp_step.
  - rewrite (OnMessage_pushPull m pp) by done. pose proof (ni_good _ _ Hi) as Hg.
    destruct (absorbed_good (env_Now e) (From m) pp a Hg Hgp) as (Hg1 & Es & Ep & Ec).
    assert (Hi1 : node_inv n (absorbed (env_Now e) (From m) (pp_Delta pp) a)).
    { split; [done|by rewrite Ec; apply Hi| |by rewrite Ep; apply Hi].
      rewrite Es. intros k x. rewrite lookup_join, Est.
      destruct (state a !! k) as [l|] eqn:El, (st !! k) as [y|] eqn:Ey; intros [= <-].
      - destruct (newer_cases l y) as [-> | ->]; [by apply (ni_versions _ _ Hi k)|by apply (Hv k)].
      - by apply (ni_versions _ _ Hi k).
      - by apply (Hv k). }
    apply handlePushPull_spec; [done|done|]. intros a1. destruct (pp_IsReply pp).
    + split; [done|]. split; [by apply retains_same|apply sends_ok_nil].
    + intros pl Hpl.
      destruct (getPeerStats_good (From m) a1 Hg1) as (_ & _ & _ & E1 & E2 & E3 & _ & Hg2).
      split; [by apply (node_inv_same n a1)|]. split; [apply retains_same; by rewrite E2|].
      intros to m' Hin. right. unfold sends_to in Hin. case_decide; [|by apply elem_of_nil in Hin].
      apply list_elem_of_singleton in Hin as [= -> ->]. rewrite E1. by apply (full_push_carries e true).
Qed.

Lemma OnTick_wstep n name e a :
  node_inv n a -> NoDup (env_Peers e) ->
  wp False (OnTick name) e a (fun _ a' fx => wstep n (env_Now e) a a' fx).
Proof.
  intros Hi Hnd. pose proof (ni_good _ _ Hi) as Hg. unfold OnTick.
  case_decide; [|case_decide; [|case_decide]].
  - apply syncRound_spec; [done|done|apply Hi|]. intros a' fx Hg' Es Ep Ec Hfx.
    split; [by apply (node_inv_same n a)|]. split; [by apply retains_same|].
    intros to m Hin. destruct (Hfx to m Hin) as (pl & Hpl & ->). right. rewrite Es.
    by apply (full_push_carries e false).
  - apply retransmitCheck_spec. intros a' Es Epe Ec Hp. split; [|split].
    + split.
      * destruct Hg. split; rewrite ?Epe, ?Es; done.
      * rewrite Ec. apply Hi.
      * rewrite Es. apply Hi.
      * intros seq pm. rewrite Hp. destruct (pending a !! seq) as [pm0|] eqn:E; [|done]. cbn.
        destruct (expired _ _); [done|]. intros [= <-]. cbn. by apply (ni_pending _ _ Hi seq).
    + intros seq pm E. specialize (Hp seq). rewrite E in Hp. cbn in Hp. unfold expired in Hp.
      destruct (Z.ltb_spec (pm_deadline pm) (env_Now e)); [by left|right].
      by exists (restamped (UnixMilli e) pm).
    + intros to m (l & Hin & Hl)%elem_of_concat. left.
      apply list_elem_of_fmap in Hl as ([seq pm] & -> & Hpm). apply elem_of_shuffle_map in Hpm.
      unfold retx_sends, sends_to in Hin. cbn in Hin. destruct (expired _ _); [by apply elem_of_nil in Hin|].
      case_decide; [|by apply elem_of_nil in Hin]. apply list_elem_of_singleton in Hin as [= -> ->].
      cbn. by apply (ni_pending _ _ Hi seq).
  - do 3 wp_step. split; [|split; [by apply retains_same|apply sends_ok_nil]].
    apply (node_inv_same n a); try done. by apply purge_good.
  - wp_step. split; [done|]. split; [by apply retains_same|apply sends_ok_nil].
Qed.

Lemma Start_wstep n e a :
  node_inv n a -> wp False Start e a (fun _ a' fx => wstep n (env_Now e) a a' fx).
Proof.
  intros Hi. pose proof (ni_cfg _ _ Hi) as (? & ? & ? & _). unfold Start.
  assert (Hq : forall d, 1 < d -> 0 < d `quot` 2) by (intros; apply Z.quot_str_pos; lia).
  do 3 wp_step. apply wp_SetTimer; [intros _|lia]. wp_step. apply wp_SetTimer; [intros _|].
  2: { pose proof (Hq (RetransmitTimeout (cfg a)) ltac:(done)). lia. }
  apply wp_SetTimer; [intros _|].
  2: { pose proof (Hq (PeerStaleDuration (cfg a)) ltac:(done)). lia. }
  split; [done|]. split; [by apply retains_same|]. intros to m Hin. exfalso. cbn in Hin. set_solver.
Qed.

Lemma SendCritical_wstep n p pl e a :
  node_inv n a -> opaque pl ->
  wp False (SendCritical p pl) e a (fun _ a' fx => node_inv n a' /\ sends_ok a' fx).
Proof.
  intros Hi Hop. unfold SendCritical. do 4 wp_step. case_bool_decide as Hp.
  - wp_steps. split.
    + split; [split; apply Hi|apply Hi|apply Hi|]. cbn. intros seq pm.
      rewrite lookup_insert_Some. intros [[_ <-]|[_ E]]; [done|by apply (ni_pending _ _ Hi seq)].
    + intros to m Hin. left. cbn in Hin. rewrite app_nil_r in Hin. unfold sends_to in Hin.
      rewrite decide_True in Hin by done. by apply list_elem_of_singleton in Hin as [= -> ->].
  - wp_step. split; [done|]. intros to m Hin. cbn in Hin. rewrite app_nil_r in Hin.
    unfold sends_to in Hin. rewrite decide_False in Hin by done. by apply elem_of_nil in Hin.
Qed.


Lemma elem_of_kept_sends v st fx ms :
  ms ∈ kept_sends v st fx -> exists to m, ESend to m ∈ fx /\ ms = (address v to m, st).
Proof.
  unfold kept_sends. intros (x & Hx & E)%list_elem_of_omap. destruct x as [to m| | |]; try done.
  injection E as <-. by exists to, m.
Qed.

Lemma node_inv_mono n n' a : n <= n' -> node_inv n a -> node_inv n' a.
Proof.
  intros Hn []. split; try done. intros k x Hx. specialize (ni_versions0 k x Hx). lia.
Qed.

Lemma msg_inv_mono n n' ms : n <= n' -> msg_inv n ms -> msg_inv n' ms.
Proof.
  intros Hn [?|[? Hv]]; [by left|right]. split; [done|]. intros k x Hx. specialize (Hv k x Hx). lia.
Qed.

Lemma winv_mono n n' w : n <= n' -> winv n w -> winv n' w.
Proof.
  intros Hn [Hno Hne]. split.
  - intros v a Ha. apply (node_inv_mono n); [done|by apply (Hno v)].
  - intros ms Hms. apply (msg_inv_mono n); [done|by apply Hne].
Qed.

(** Adding what a node that keeps its invariant has sent. *)
Lemma winv_after n w v a' fx :
  winv n w -> node_inv n a' -> sends_ok a' fx ->
  winv n (mkWorld (<[v := a']> (wn_nodes w)) (wn_net w ++ kept_sends v (state a') fx)).
Proof.
  intros [Hno Hne] Hi Hs. split; cbn.
  - intros u b. destruct (decide (u = v)) as [->|].
    + rewrite lookup_insert_eq. by intros [= <-].
    + rewrite lookup_insert_ne by done. apply Hno.
  - intros ms [Hms|Hms]%elem_of_app; [by apply Hne|].
    apply elem_of_kept_sends in Hms as (to & m & Hin & ->).
    destruct (Hs to m Hin) as [Hop|Hc]; [by left|right]. split; [done|apply Hi].
Qed.

Lemma SetKey_inv n k value a :
  node_inv n a -> ascii_string k = true -> 0 <= n -> n + 1 < 2 ^ 64 -> node_inv (n + 1) (SetKey k value a).
Proof.
  intros Hi Hk Hn0 Hn. split; [|apply Hi| |apply Hi].
  - apply SetKey_good; [apply Hi|done|]. intros x Hx. pose proof (ni_versions _ _ Hi k x Hx). lia.
  - intros k' x. cbn. destruct (decide (k' = k)) as [->|].
    + rewrite lookup_insert_eq. intros [= <-]. cbn. destruct (state a !! k) as [o|] eqn:E; [|lia].
      pose proof (ni_versions _ _ Hi k o E). pose proof (gd_versions _ (ni_good _ _ Hi) k o E).
      rewrite wrap_small by (unfold is_uint; lia). lia.
    + rewrite lookup_insert_ne by done. intros Hx. pose proof (ni_versions _ _ Hi k' x Hx). lia.
Qed.

Lemma event_wstep n w v h e a :
  NoDup ids -> winv n w -> event w v h -> wn_nodes w !! v = Some a -> env_ok v e ->
  wp False h e a (fun _ a' fx => wstep n (env_Now e) a a' fx).
Proof.
  intros Hnd Hw Hev Ha [_ Hp]. pose proof (wi_nodes _ _ Hw v a Ha) as Hi.
  destruct Hev as [m st Hm|v name|v].
  - apply (OnMessage_wstep n m st); [done|]. by apply (wi_net _ _ Hw).
  - apply OnTick_wstep; [done|]. rewrite Hp. by apply NoDup_filter.
  - by apply Start_wstep.
Qed.

Lemma winv_step n w w' :
  NoDup ids -> 0 <= n -> n + 1 < 2 ^ 64 -> winv n w -> step w w' -> winv (n + 1) w'.
Proof.
  intros Hnd Hn0 Hn Hw Hs. pose proof (winv_mono n (n + 1) w ltac:(lia) Hw) as Hw'.
  destruct Hs as [v k value a Ha Hk|v peerID pl e a ok a' fx Ha He Hop E|v h e a a' fx Hev Ha He E].
  - pose proof (winv_after (n + 1) w v (SetKey k value a) [] Hw'
      (SetKey_inv n k value a (wi_nodes _ _ Hw v a Ha) Hk Hn0 Hn) (sends_ok_nil _)) as Hr.
    cbn in Hr. by rewrite app_nil_r in Hr.
  - destruct (wp_elim _ _ _ _ _ _ _ _ (SendCritical_wstep (n + 1) peerID pl e a
      (wi_nodes _ _ Hw' v a Ha) Hop) E) as [Hi Hso]. by apply winv_after.
  - destruct (wp_elim _ _ _ _ _ _ _ _ (event_wstep (n + 1) w v h e a Hnd Hw' Hev Ha He) E)
      as (Hi & _ & Hso). by apply winv_after.
Qed.

Lemma winv_init c : cfg_ok c -> winv 0 (init c).
Proof.
  intros Hc. split.
  - intros v a E. cbn in E. apply elem_of_list_to_map_2 in E.
    apply list_elem_of_fmap in E as (u & [= _ ->] & _). split; try done.
  - intros ms Hx. by apply elem_of_nil in Hx.
Qed.

Lemma winv_reach c n w :
  NoDup ids -> cfg_ok c -> Z.of_nat n < 2 ^ 64 -> reach c n w -> winv (Z.of_nat n) w.
Proof.
  intros Hnd Hc. unfold reach. revert w. induction n as [|n IH]; intros w Hn Hr.
  - inversion Hr; subst. by apply winv_init.
  - apply nsteps_inv_r in Hr as (w1 & Hr & Hs).
    replace (Z.of_nat (S n)) with (Z.of_nat n + 1) by lia.
    apply (winv_step _ w1); [done|lia|lia|apply IH; [lia|done]|done].
Qed.

End net.

(** C35: the deltas are never smaller than the state.  In every reachable world
    the version a node remembers of a peer is 0, and every push-pull message in
    flight carries its sender's complete state at the time of sending and the
    known version 0: the field the delta is computed from is only ever raised
    to a value that is itself such a 0. *)
Theorem weaknet_delta_is_whole_state `{WeakJson} ids c n w :
  NoDup ids -> cfg_ok c -> Z.of_nat n < 2 ^ 64 -> reach ids c n w ->
  (forall v a p ps, wn_nodes w !! v = Some a -> peers a !! p = Some ps -> knownVer ps = 0) /\
  (forall m st pp, (m, st) ∈ wn_net w -> Unmarshal_envelope (Payload m) = Some kindPushPull ->
     Unmarshal_pushPull (Payload m) = Some pp -> pp_Delta pp = st /\ pp_KnownVer pp = 0).
Proof.
  intros Hnd Hc Hn Hr. pose proof (winv_reach ids c n w Hnd Hc Hn Hr) as Hw. split.
  - intros v a p ps Ha. apply (gd_known a). by apply (ni_good _ _ (wi_nodes _ _ Hw v a Ha)).
  - intros m st pp Hm Hk Hpp. destruct (wi_net _ _ Hw _ Hm) as [Hop|[(_ & _ & pp' & Hpp' & Hg & Est) _]].
    + by destruct (Hop _ Hk).
    + cbn in *. rewrite Hpp in Hpp'. injection Hpp' as <-. split; [done|apply Hg].
Qed.

(** Critical messages are never acknowledged.  Whatever message is
    delivered, timer ticks or start happens on a node, the handler returns, and
    a pending critical message stays in the retransmission buffer with its
    deadline, receiver and payload, unless its deadline has passed. *)
Theorem weaknet_pending_until_deadline `{WeakJson} ids c n w v h e a :
  NoDup ids -> cfg_ok c -> Z.of_nat n < 2 ^ 64 -> reach ids c n w ->
  event w v h -> wn_nodes w !! v = Some a -> env_ok ids v e ->
  exists a' fx, h e a = Ret (tt, a', fx) /\
    forall seq pm, pending a !! seq = Some pm -> env_Now e <= pm_deadline pm ->
      exists pm', pending a' !! seq = Some pm' /\ pm_deadline pm' = pm_deadline pm /\
        pm_peerID pm' = pm_peerID pm /\ Payload (pm_msg pm') = Payload (pm_msg pm).
Proof.
  intros Hnd Hc Hn Hr Hev Ha He. pose proof (winv_reach ids c n w Hnd Hc Hn Hr) as Hw.
  destruct (wp_total _ _ _ _ (event_wstep ids _ w v h e a Hnd Hw Hev Ha He))
    as ([] & a' & fx & E & _ & Hret & _).
  exists a', fx. split; [done|]. intros seq pm Hpm Hle. destruct (Hret seq pm Hpm) as [?|?]; [lia|done].
Qed.

(** * Witnesses *)

Definition pp_code : Type := Z * bool * Z * State * Z.
#[export] Instance entry_countable : Countable StateEntry.
Proof.
  refine (inj_countable' (fun x => (Value x, Version x)) (fun '(v, n) => mkEntry v n) _). by intros [].
Defined.
Definition pp_to (pp : pushPullPayload) : pp_code :=
  (pp_Kind pp, pp_IsReply pp, pp_PeerID pp, pp_Delta pp, pp_KnownVer pp).
Definition pp_of (x : pp_code) : pushPullPayload :=
  let '(k, r, p, d, v) := x in mkPushPull k r p d v.
#[export] Instance pushPull_eq_dec : EqDecision pushPullPayload.
Proof. solve_decision. Defined.
#[export] Instance pp_countable : Countable pushPullPayload.
Proof. refine (inj_countable' pp_to pp_of _). by intros []. Defined.

#[export] Program Instance code_weak_json : WeakJson := {|
  Marshal pp := Some (code pp);
  Unmarshal_envelope bs := pp_Kind <$> uncode bs;
  Unmarshal_pushPull := uncode;
  Unmarshal_ack _ := None;
|}.
Next Obligation.
  intros pp _. exists (code pp). split; [done|]. split; [apply code_nonempty|].
  split; [by rewrite code_roundtrip|apply code_roundtrip].
Qed.

(** Two nodes; node 1 has set a key and its sync timer has ticked. *)
Definition pair_ids : list Z := [1; 2].
Definition holder : Algorithm := SetKey "k" [Byte.x01] (New DefaultConfig).
Definition pushed : WireMessage :=
  stateMsg 0 (code (mkPushPull kindPushPull false 1 (state holder) 0)).
Definition holder_ticked : Algorithm := touch 2 (set_rng 0 holder).
Definition holding : World := mkWorld (<[1 := holder]> (wn_nodes (init pair_ids DefaultConfig))) [].
Definition after_push : World :=
  mkWorld (<[1 := holder_ticked]> (wn_nodes holding))
    (wn_net holding ++ kept_sends 1 (state holder_ticked) [ESend 2 pushed]).
Definition pair_env (v now : Z) : Env := mkEnv v [3 - v] now (fun _ => 0).

Lemma pair_env_ok v now : v ∈ pair_ids -> env_ok pair_ids v (pair_env v now).
Proof.
  intros Hv. split; [done|]. apply elem_of_cons in Hv as [-> |Hv].
  - apply (bool_decide_unpack _). vm_compute. exact I.
  - apply list_elem_of_singleton in Hv as ->. apply (bool_decide_unpack _). vm_compute. exact I.
Qed.

Lemma holder_tick : OnTick timerSync (pair_env 1 0) holder = Ret (tt, holder_ticked, [ESend 2 pushed]).
Proof. vm_compute. reflexivity. Qed.

Lemma after_push_reach : reach pair_ids DefaultConfig 2 after_push.
Proof.
  eapply (nsteps_l _ _ _ holding).
  - exact (step_set pair_ids (init pair_ids DefaultConfig) 1 "k" [Byte.x01] (New DefaultConfig)
      eq_refl eq_refl).
  - apply nsteps_once.
    exact (step_handler pair_ids holding 1 (OnTick timerSync) (pair_env 1 0) holder
      holder_ticked [ESend 2 pushed] (ev_tick holding 1 timerSync) eq_refl
      (pair_env_ok 1 0 ltac:(left)) holder_tick).
Qed.

Lemma pair_ids_ok : NoDup pair_ids /\ cfg_ok DefaultConfig.
Proof. split; apply (bool_decide_unpack _); vm_compute; exact I. Qed.

Lemma weaknet_delta_is_whole_state_witness :
  pp_Delta (mkPushPull kindPushPull false 1 (state holder) 0) = state holder /\
  exists ps, peers holder_ticked !! 2 = Some ps /\ knownVer ps = 0.
Proof.
  destruct (weaknet_delta_is_whole_state pair_ids DefaultConfig 2 after_push
    (proj1 pair_ids_ok) (proj2 pair_ids_ok) ltac:(lia) after_push_reach) as [Hk Hd].
  split.
  - apply (Hd (address 1 2 pushed) (state holder)); [left| |]; vm_compute; reflexivity.
  - exists (mkStats 0 None true). split; [reflexivity|].
    apply (Hk 1 holder_ticked 2); [reflexivity|reflexivity].
Defined.

Lemma weaknet_pending_until_deadline_witness :
  exists a' fx, OnMessage (address 1 2 pushed) (pair_env 2 5) (New DefaultConfig)
      = Ret (tt, a', fx) /\
    forall seq pm, pending (New DefaultConfig) !! seq = Some pm -> 5 <= pm_deadline pm ->
      exists pm', pending a' !! seq = Some pm' /\ pm_deadline pm' = pm_deadline pm /\
        pm_peerID pm' = pm_peerID pm /\ Payload (pm_msg pm') = Payload (pm_msg pm).
Proof.
  apply (weaknet_pending_until_deadline pair_ids DefaultConfig 2 after_push 2
    (OnMessage (address 1 2 pushed)) (pair_env 2 5) (New DefaultConfig)).
  - apply pair_ids_ok.
  - apply pair_ids_ok.
  - lia.
  - apply after_push_reach.
  - exact (ev_deliver after_push (address 1 2 pushed) (state holder) ltac:(left)).
  - reflexivity.
  - apply pair_env_ok. right. left.
Defined.

Lemma holder_good : good holder.
Proof.
  apply SetKey_good; [|reflexivity|intros x [=]]. apply (ni_good 0).
  exact (wi_nodes _ _ (winv_init pair_ids DefaultConfig (proj2 pair_ids_ok)) 1 _ eq_refl).
Qed.

Lemma weaknet_exchange_synchronises_witness :
  exists a1 m1 b1 m2 a2,
    sendPushPull 2 false (pair_env 1 0) holder = Ret (tt, a1, [ESend 2 m1]) /\
    OnMessage (address 1 2 m1) (pair_env 2 3) (New DefaultConfig) = Ret (tt, b1, [ESend 1 m2]) /\
    OnMessage (address 2 1 m2) (pair_env 1 6) a1 = Ret (tt, a2, []) /\
    state a2 = state b1 /\ state b1 = join_state (state (New DefaultConfig)) (state holder).
Proof.
  apply (weaknet_exchange_synchronises holder (New DefaultConfig) (pair_env 1 0) (pair_env 2 3)
    (pair_env 1 6)).
  - apply holder_good.
  - apply (ni_good 0). exact (wi_nodes _ _ (winv_init pair_ids DefaultConfig (proj2 pair_ids_ok)) 2 _ eq_refl).
  - intros k x y _ [=].
  - left.
  - left.
Defined.
