(* ===== verification/Stack.v ===== *)
(** Stack: nodes that run an algorithm, with their queues, routers and timers,
    over a network that loses, repeats and reorders what the nodes put on the
    wire.

    This is the composition of the layers, for any algorithm that keeps to the
    interface of [Host]: a message is issued by a handler, stamped and queued
    by the node, possibly evicted, transmitted by the send loop, repeated by
    the network, filtered by the receiver's router and handed to the algorithm.
    Every step of it is a step of an abstract network of handlers alone, in
    which a message is delivered at most once, or is invisible there. *)
From S2P Require Import Prelude Message Heap SendQueue Router Peer Node Host.
From S2P Require Timer.

(** * Definitions *)

(** [f_wire]: every message transmitted so far, which the network may deliver
    any number of times; [f_issued] is history: every message queued so far. *)
Record Fleet (St : Type) := mkFleet {
  f_hosts : gmap Z (Host St);
  f_wire : list WireMessage;
  f_issued : list WireMessage;
}.
Arguments mkFleet {St} _ _ _.
Arguments f_hosts {St} w : rename.
Arguments f_wire {St} w : rename.
Arguments f_issued {St} w : rename.

(** The abstract network: what the algorithms are, what is on its way, and, as
    history, everything sent so far *)
Record Flow (St : Type) := mkFlow {
  fl_nodes : gmap Z St;
  fl_net : list WireMessage;
  fl_sent : list WireMessage;
}.
Arguments mkFlow {St} _ _ _.
Arguments fl_nodes {St} w : rename.
Arguments fl_net {St} w : rename.
Arguments fl_sent {St} w : rename.

(** [for id, addr := range peers { n.AddPeer(id, addr) }] *)
Fixpoint add_peers (addr : Z -> string) (ps : list Z) (n : Node) : result peer_error Node :=
  match ps with
  | [] => Ok n
  | p :: ps => match AddPeer p (addr p) n with Ok n => add_peers addr ps n | Err e => Err e end
  end.

(** The clock is a 64-bit one, and [order] an order in which the map of the
    peers may be iterated. *)
Definition call_env {St} (now : Z) (order : list Z) (h : Host St) : Prop :=
  is_int64 (now `div` 1000000) /\ is_List (n_pm (h_node h)) order.

Definition put {St} (v : Z) (h : Host St) (ms : list WireMessage) (w : Fleet St) : Fleet St :=
  mkFleet (<[v := h]> (f_hosts w)) (f_wire w) (f_issued w ++ ms).

(** The handler returns, and its calls are carried out, unless sequence numbers
    would wrap. *)
Definition completes {St} (w : Fleet St) (f : prog St unit) (now : Z) (order : list Z) (rand : nat -> Z)
    (h : Host St) (r : outcome (list WireMessage * Host St)) : Prop :=
  exists a' fx, f (host_env h now order rand) (h_alg h) = Ret (tt, a', fx) /\
    (zlen (f_issued w) + zlen (sends fx) < 2 ^ 32 ->
     exists ms h', r = Ret (ms, h') /\ h_alg h' = a' /\ length ms = length (sends fx)).

(** [hist v]: the numbers the router of [v] has accepted. *)
Definition unseen (hist : Z -> history) (m : WireMessage) : Prop :=
  Seq m ∉ hist (To m) (From m) (StreamID m).

#[export] Instance unseen_dec hist m : Decision (unseen hist m).
Proof. unfold unseen. apply _. Defined.

(** ** What the routers have accepted *)

Definition accept (m : WireMessage) (hist : Z -> history) : Z -> history := fun v =>
  if decide (v = To m) then record_hist (From m) (StreamID m) (Seq m) (hist v) else hist v.

Lemma elem_of_accept m hist v f s q :
  q ∈ accept m hist v f s <-> (v = To m /\ (f, s, q) = msg_id m) \/ q ∈ hist v f s.
Proof.
  unfold accept, record_hist, msg_id. repeat case_decide; set_solver.
Qed.

(** Accepting a message takes it, and only it, off the unseen ones. *)
Lemma filter_accept m hist l :
  NoDup (msg_id <$> l) -> m ∈ l -> unseen hist m ->
  filter (unseen hist) l ≡ₚ m :: filter (unseen (accept m hist)) l.
Proof.
  assert (Hother : forall x, msg_id x <> msg_id m -> unseen (accept m hist) x <-> unseen hist x).
  { intros x Hne. unfold unseen. rewrite elem_of_accept. unfold msg_id in *. naive_solver. }
  assert (Hself : ~ unseen (accept m hist) m).
  { unfold unseen. rewrite elem_of_accept. tauto. }
  induction l as [|x l IH]; cbn [fmap list_fmap]; intros Hnd Hin Hu; [by apply elem_of_nil in Hin|].
  apply NoDup_cons in Hnd as [Hx Hnd]. rewrite !filter_cons. apply elem_of_cons in Hin as [<-|Hin].
  - rewrite decide_True, decide_False by done. f_equiv. apply reflexive_eq.
    apply filter_agree. intros y Hy. symmetry. apply Hother. intros E. apply Hx.
    rewrite <- E. apply list_elem_of_fmap. by exists y.
  - assert (Hne : msg_id x <> msg_id m).
    { intros E. apply Hx. rewrite E. apply list_elem_of_fmap. by exists m. }
    specialize (IH Hnd Hin Hu). destruct (decide (unseen hist x)) as [Hux|Hux].
    + rewrite decide_True by (by apply Hother). rewrite IH. apply Permutation_swap.
    + rewrite decide_False by (by rewrite Hother). done.
Qed.

(** ** Messages a handler issues *)

Section fleet.
Context {St : Type}.
Implicit Types w : Fleet St.

(** A sequence number the sender has counted. *)
Definition numbered_by w (m : WireMessage) : Prop :=
  exists h c, f_hosts w !! From m = Some h /\
    seqCounters (h_node h) !! Z.to_nat (StreamID m) = Some c /\ Seq m <= c.

(** A message issued now has an identity that no earlier one has. *)
Lemma issued_fresh w v h n' ms m m0 :
  f_hosts w !! v = Some h -> n_id (h_node h) = v -> issued (h_node h) n' ms -> m ∈ ms ->
  numbered_by w m0 -> msg_id m0 <> msg_id m.
Proof.
  intros Hh Hid [_ Hf] Hm (h0 & c0 & Hh0 & Hc0 & Hle) E. rewrite Forall_forall in Hf.
  destruct (Hf m Hm) as (_ & Ef & c & c' & Hc & _ & Hlt). unfold msg_id in E.
  injection E as E1 E2 E3. rewrite E1, Ef, Hid, Hh in Hh0. injection Hh0 as <-.
  rewrite E2, Hc in Hc0. injection Hc0 as <-. lia.
Qed.

Lemma host_ok_mono k k' (h : Host St) : host_ok k h -> k <= k' -> host_ok k' h.
Proof. intros [Hn Ht Hp] Hk. split; [by eapply node_ok_weaken|done|done]. Qed.

(** The counters only go up, so what was numbered stays numbered. *)
Lemma numbered_by_put w v h h' ms m :
  f_hosts w !! v = Some h -> counters_le (h_node h) (h_node h') ->
  numbered_by w m -> numbered_by (put v h' ms w) m.
Proof.
  intros Hh [_ Hle] (h0 & c & Hh0 & Hc & Hs). unfold numbered_by. cbn.
  destruct (decide (From m = v)) as [E|Hne].
  - rewrite E, Hh in Hh0. injection Hh0 as <-. rewrite E, lookup_insert_eq.
    destruct (Forall2_lookup_l _ _ _ _ _ Hle Hc) as (c' & Hc' & ?). exists h', c'.
    split; [done|]. split; [done|lia].
  - rewrite lookup_insert_ne by done. by exists h0, c.
Qed.

(** The host [h1] is [h], perhaps with another router. *)
Definition same_but_router (h h1 : Host St) : Prop :=
  h_alg h1 = h_alg h /\ seqCounters (h_node h1) = seqCounters (h_node h) /\
  n_id (h_node h1) = n_id (h_node h) /\ n_pm (h_node h1) = n_pm (h_node h) /\
  n_sq (h_node h1) = n_sq (h_node h) /\ h_tm h1 = h_tm h.

End fleet.

Section stack.
Context {St : Type} (alg : Algorithm St) `{!LawfulAlgorithm alg}.
Context (ids : list Z) (op : Z -> prog St unit -> Prop).
Hypothesis op_polite : forall v f, op v f -> polite alg_inv f.
Implicit Types (w : Fleet St) (fw : Flow St) (hist : Z -> history).

Definition others (v : Z) : list Z := filter (fun u => u <> v) ids.

(** Handlers that run without a message from the network: [op] has the calls of
    the application. *)
Inductive local_handler (v : Z) : prog St unit -> Prop :=
  | local_start : local_handler v (alg_Start alg)
  | local_tick name : local_handler v (alg_OnTick alg name)
  | local_op f : op v f -> local_handler v f.

(** Every node of [ids] knows the others, and no message is on its way. *)
Definition booted (size : Z) (addr : Z -> string) (init : St) w : Prop :=
  f_wire w = [] /\ f_issued w = [] /\ (forall v, v ∈ ids <-> is_Some (f_hosts w !! v)) /\
  forall v h, f_hosts w !! v = Some h -> exists mc n0 n,
    NewNode v size mc = Ret n0 /\ add_peers addr (others v) n0 = Ok n /\
    h = mkHost n Timer.NewTimerManager init.

(** A message of the wire reaches its receiver; a node starts, a timer ticks or
    the application calls; the send loop transmits some of what is queued. *)
Inductive step w : Fleet St -> Prop :=
  | step_arrive m h now order rand ms h' :
      m ∈ f_wire w -> f_hosts w !! To m = Some h -> call_env now order h ->
      receive alg now order rand m h = Ret (ms, h') ->
      step w (put (To m) h' ms w)
  | step_local v f h now order rand ms h' :
      local_handler v f -> f_hosts w !! v = Some h -> call_env now order h ->
      run_handler f now order rand h = Ret (ms, h') ->
      step w (put v h' ms w)
  | step_transmit v h fuel tr out n' :
      f_hosts w !! v = Some h -> send_pending fuel tr (h_node h) = Ret (out, n') ->
      step w (mkFleet (<[v := mkHost n' (h_tm h) (h_alg h)]> (f_hosts w))
                (f_wire w ++ out.*2) (f_issued w)).

(** A run of [n] steps, in which sequence numbers have not wrapped *)
Definition runs (size : Z) (addr : Z -> string) (init : St) (n : nat) w : Prop :=
  NoDup ids /\ Forall (is_uint 16) ids /\ 0 < size /\ zlen (f_issued w) < 2 ^ 32 /\
  exists w0, booted size addr init w0 /\ nsteps step n w0 w.

(** ** The abstract network *)

Record flow_env (v : Z) (e : Env) : Prop := {
  fe_id : env_ID e = v;
  fe_peers : env_Peers e ≡ₚ others v;
  fe_now : is_int64 (UnixMilli e);
}.

(** The handler a step runs, on which node, and what is then on its way *)
Inductive flow_event fw : Z -> prog St unit -> list WireMessage -> Prop :=
  | fev_deliver m n1 n2 :
      fl_net fw = n1 ++ m :: n2 -> flow_event fw (To m) (alg_OnMessage alg m) (n1 ++ n2)
  | fev_local v f : local_handler v f -> flow_event fw v f (fl_net fw).

Inductive flow_step fw : Flow St -> Prop :=
  | flow_step_handler v f net' e a a' fx ms :
      flow_event fw v f net' -> fl_nodes fw !! v = Some a -> flow_env v e ->
      f e a = Ret (tt, a', fx) -> Forall2 (queued_as v (UnixMilli e)) (sends fx) ms ->
      flow_step fw (mkFlow (<[v := a']> (fl_nodes fw)) (net' ++ ms) (fl_sent fw ++ ms)).

Definition flow_init (init : St) : Flow St :=
  mkFlow (list_to_map ((fun v => (v, init)) <$> ids)) [] [].

(** * The simulation *)

Record host_inv w (v : Z) (h : Host St) : Prop := {
  hi_ok : host_ok (zlen (f_issued w)) h;
  hi_alg : alg_inv (h_alg h);
  hi_id : n_id (h_node h) = v;
  hi_peers : List (n_pm (h_node h)) ≡ₚ others v;
  hi_queue : forall m, queued (h_node h) m -> m ∈ f_issued w;
}.

Record sim hist w fw : Prop := {
  sim_nodes : forall v, fl_nodes fw !! v = h_alg <$> f_hosts w !! v;
  sim_hosts : forall v h, f_hosts w !! v = Some h ->
    host_inv w v h /\ router_inv (n_rt (h_node h)) (hist v);
  sim_ids : NoDup (msg_id <$> f_issued w);
  sim_issued : forall m, m ∈ f_issued w -> msg_wf m /\ numbered_by w m;
  sim_wire : forall m, m ∈ f_wire w -> m ∈ f_issued w;
  sim_hist : forall v f s q, q ∈ hist v f s -> exists m, m ∈ f_issued w /\ msg_id m = (f, s, q);
  sim_net : fl_net fw ≡ₚ filter (unseen hist) (f_issued w);
  sim_sent : fl_sent fw = f_issued w;
}.

Lemma local_polite v f : local_handler v f -> polite alg_inv f.
Proof.
  intros [|name|f' Hf]; [apply law_Start|apply law_OnTick|by eapply op_polite].
Qed.

(** ** Keeping the relation *)

Section run.
Context hist hist' w fw (v : Z) (h h1 : Host St)
  (now : Z) (ms : list WireMessage) (a' : St) (fx : list effect) (h' : Host St) (net' : list WireMessage).
Hypothesis Hsim : sim hist w fw.
Hypothesis Hh : f_hosts w !! v = Some h.
Hypothesis Hsame : same_but_router h h1.
Hypothesis Hrouter : router_inv (n_rt (h_node h1)) (hist' v).
Hypothesis Hothers : forall u, u <> v -> hist' u = hist u.
Hypothesis Hseen : forall u f s q, q ∈ hist' u f s -> exists m, m ∈ f_issued w /\ msg_id m = (f, s, q).
Hypothesis Hnet : net' ≡ₚ filter (unseen hist') (f_issued w).
Hypothesis Hrun : carried_out alg (zlen (f_issued w)) now a' fx h1 (Ret (ms, h')).

#[local] Notation w' := (put v h' ms w).

Lemma stack_run_result : h_alg h' = a' /\ alg_inv a' /\ host_ok (zlen (f_issued w')) h' /\
  issued (h_node h1) (h_node h') ms /\ counters_le (h_node h) (h_node h') /\
  frame (h_node h1) (h_node h') ms /\ Forall2 (queued_as v (now `div` 1000000)) (sends fx) ms.
Proof.
  destruct Hrun as (ms1 & h2 & [= <- <-] & Ea & Hinv & Hok & Hi & [Eid Hle] & Hf & Hq & _).
  destruct Hsame as (_ & Ec & Ei & _). destruct (sim_hosts _ _ _ Hsim v h Hh) as [Hhi _].
  assert (El : zlen (sends fx) = zlen ms) by (unfold zlen; by rewrite (Forall2_length _ _ _ Hq)).
  split; [done|]. split; [done|]. split; [cbn; by rewrite zlen_app, <- El|]. split; [done|].
  split; [split; [congruence|by rewrite <- Ec]|]. split; [done|].
  by rewrite Ei, (hi_id _ _ _ Hhi) in Hq.
Qed.

Lemma run_queued : Forall2 (queued_as v (now `div` 1000000)) (sends fx) ms.
Proof. apply stack_run_result. Qed.

(** What is issued now, the sender being [h] or [h1] *)
Lemma run_issued : issued (h_node h) (h_node h') ms.
Proof.
  destruct stack_run_result as (_ & _ & _ & [Hn Hf] & _). destruct Hsame as (_ & Ec & Ei & _).
  split; [done|]. by rewrite <- Ei, <- Ec.
Qed.

Lemma run_fresh m m0 : m ∈ ms -> m0 ∈ f_issued w -> msg_id m0 <> msg_id m.
Proof.
  intros Hm Hm0. destruct (sim_hosts _ _ _ Hsim v h Hh) as [Hhi _].
  apply (issued_fresh w v h (h_node h') ms m m0 Hh (hi_id _ _ _ Hhi) run_issued Hm).
  by apply (sim_issued _ _ _ Hsim).
Qed.

Lemma new_unseen m : m ∈ ms -> unseen hist' m.
Proof.
  intros Hm Hin. destruct (Hseen _ _ _ _ Hin) as (m0 & Hm0 & E). by apply (run_fresh m m0).
Qed.

Lemma issued_ids : NoDup (msg_id <$> f_issued w').
Proof.
  cbn. rewrite fmap_app. apply NoDup_app. split; [apply Hsim|]. split; [|apply run_issued].
  intros x (m0 & -> & Hm0)%list_elem_of_fmap (m & E & Hm)%list_elem_of_fmap. by apply (run_fresh m m0).
Qed.

Lemma host_inv_after u b :
  f_hosts w' !! u = Some b -> host_inv w' u b /\ router_inv (n_rt (h_node b)) (hist' u).
Proof.
  destruct stack_run_result as (Ea & Hinv & Hok & _ & _ & (Fi & Fp & Fr & Fq) & _).
  destruct Hsame as (_ & _ & Ei & Ep & Eq & _). destruct (sim_hosts _ _ _ Hsim v h Hh) as [Hhi _].
  cbn. destruct (decide (u = v)) as [->|Hne].
  - rewrite lookup_insert_eq. intros [= <-]. split; [|by rewrite Fr]. split; [done|by rewrite Ea|..].
    + rewrite Fi, Ei. apply Hhi.
    + rewrite Fp, Ep. apply Hhi.
    + intros m [[c Hm]|Hm]%Fq; cbn; apply elem_of_app; [left|by right].
      apply (hi_queue _ _ _ Hhi). exists c. by rewrite <- Eq.
  - rewrite lookup_insert_ne by done. intros Hu. rewrite (Hothers u Hne).
    destruct (sim_hosts _ _ _ Hsim u b Hu) as [[Ho Hal Hi Hp Hq] Hr]. split; [|done]. split; try done.
    + eapply host_ok_mono; [done|]. cbn. rewrite zlen_app. pose proof (zlen_nonneg ms). lia.
    + intros m Hm. cbn. apply elem_of_app. left. by apply Hq.
Qed.

Lemma sim_run : sim hist' w' (mkFlow (<[v := a']> (fl_nodes fw)) (net' ++ ms) (fl_sent fw ++ ms)).
Proof.
  destruct stack_run_result as (Ea & _ & Hok & _ & Hle & Hf & Hpk). split.
  - intros u. cbn. destruct (decide (u = v)) as [->|Hne].
    + rewrite !lookup_insert_eq. cbn. by rewrite Ea.
    + rewrite !lookup_insert_ne by done. apply Hsim.
  - apply host_inv_after.
  - apply issued_ids.
  - intros m [Hm|Hm]%elem_of_app.
    + destruct (sim_issued _ _ _ Hsim m Hm) as [Hw Hn]. split; [done|]. by eapply numbered_by_put.
    + destruct run_issued as [_ Hfa]. rewrite Forall_forall in Hfa.
      destruct (Hfa m Hm) as (Hw & Ef & c & c' & _ & Hc' & _ & Hle'). split; [done|].
      destruct (sim_hosts _ _ _ Hsim v h Hh) as [Hhi _].
      exists h', c'. cbn. rewrite Ef, (hi_id _ _ _ Hhi), lookup_insert_eq. done.
  - intros m Hm. cbn. apply elem_of_app. left. by apply (sim_wire _ _ _ Hsim).
  - intros u f s q Hq. destruct (Hseen u f s q Hq) as (m & Hm & E). exists m.
    split; [|done]. cbn. apply elem_of_app. by left.
  - cbn. rewrite filter_app, Hnet. f_equiv. by rewrite (filter_all (unseen hist') ms) by apply new_unseen.
  - cbn. by rewrite (sim_sent _ _ _ Hsim).
Qed.

End run.

(** ** Every step *)

(** A run that returned was a run of the handler, carried out. *)
Lemma run_carried_out k f now order rand (h : Host St) ms h' :
  polite alg_inv f -> alg_inv (h_alg h) -> host_ok k h -> call_env now order h ->
  k + zlen ms < 2 ^ 32 -> run_handler f now order rand h = Ret (ms, h') ->
  exists a' fx, f (host_env h now order rand) (h_alg h) = Ret (tt, a', fx) /\
    carried_out alg k now a' fx h (Ret (ms, h')).
Proof.
  intros Hf Hinv Hok [Hnow Hl] Hk E. pose proof E as E1. unfold run_handler in E1.
  destruct (f (host_env h now order rand) (h_alg h)) as [[[[] a'] fx]|] eqn:Ef; [|done].
  destruct (wp_elim _ _ _ _ _ _ _ _ (Hf (host_env h now order rand) _ Hinv Hnow) Ef) as [_ Hfx].
  cbn in E1. destruct (run_effects _ fx _ _) as [[[ms1 n1] tm1]|] eqn:Er; [|done].
  cbn in E1. injection E1 as -> <-. apply run_effects_length with (e := host_env h now order rand) in Er;
    [|done..].
  exists a', fx. split; [done|]. rewrite <- E.
  apply (run_handler_spec alg f k now order rand h a' fx); try done.
  unfold zlen in *. by rewrite <- Er.
Qed.

Lemma flow_env_host w v h now order rand :
  host_inv w v h -> call_env now order h -> flow_env v (host_env h now order rand).
Proof.
  intros Hi [Hn Hl]. split; [apply Hi| |exact Hn]. cbn. rewrite Hl. apply Hi.
Qed.

Lemma sim_local hist w fw v f h now order rand ms h' :
  sim hist w fw -> local_handler v f -> f_hosts w !! v = Some h -> call_env now order h ->
  run_handler f now order rand h = Ret (ms, h') -> zlen (f_issued w) + zlen ms < 2 ^ 32 ->
  exists fw', sim hist (put v h' ms w) fw' /\ flow_step fw fw'.
Proof.
  intros Hs Hf Hh Henv E Hk. destruct (sim_hosts _ _ _ Hs v h Hh) as [Hi Hr].
  destruct (run_carried_out (zlen (f_issued w)) f now order rand h ms h')
    as (a' & fx & Ef & Hrun); [by eapply local_polite|apply Hi|apply Hi|done..|].
  eexists. split.
  - apply (sim_run hist hist w fw v h h now ms a' fx h' (fl_net fw)); try done; apply Hs.
  - apply (flow_step_handler fw v f _ (host_env h now order rand) (h_alg h) a' fx ms); [| |by eapply flow_env_host|done|].
    + by apply fev_local.
    + rewrite (sim_nodes _ _ _ Hs), Hh. done.
    + by apply (run_queued hist w fw v h h now ms a' fx h').
Qed.

(** A reception the router did not refuse: its message is one not yet seen. *)
Lemma recv_accepts hist w fw m h now d n :
  sim hist w fw -> m ∈ f_wire w -> f_hosts w !! To m = Some h ->
  recv_msg now m (h_node h) = Ret (d, n) ->
  same_but_router h (mkHost n (h_tm h) (h_alg h)) /\
  match d with
  | None => router_inv (n_rt n) (hist (To m))
  | Some m' => m' = m /\ unseen hist m /\ router_inv (n_rt n) (accept m hist (To m))
  end.
Proof.
  intros Hs Hm Hh E. destruct (sim_hosts _ _ _ Hs _ h Hh) as [Hi Hr].
  destruct (recv_msg_frame _ _ _ _ _ E) as (_ & Ei & Ep & Eq & Es). split; [by split_and!|].
  destruct (sim_issued _ _ _ Hs m (sim_wire _ _ _ Hs m Hm)) as [Hw _].
  destruct (Dispatch_spec now m (n_rt (h_node h)) (hist (To m)) Hr Hw)
    as (v & rt & Ed & _ & Hd & Hr').
  unfold recv_msg in E. rewrite Ed in E. cbn in E. injection E as <- <-. cbn.
  case_decide as Hv; [|done]. split; [done|].
  unfold accept. rewrite decide_True by done. split; [|done].
  apply Hd in Hv as [_ [Hv _]]. exact Hv.
Qed.

(** A host that only forgets or files away what the algorithm does not see. *)
Lemma sim_quiet hist w fw v h h2 wire' :
  sim hist w fw -> f_hosts w !! v = Some h -> h_alg h2 = h_alg h ->
  seqCounters (h_node h2) = seqCounters (h_node h) -> host_inv w v h2 ->
  router_inv (n_rt (h_node h2)) (hist v) -> (forall m, m ∈ wire' -> m ∈ f_issued w) ->
  sim hist (mkFleet (<[v := h2]> (f_hosts w)) wire' (f_issued w)) fw.
Proof.
  intros Hs Hh Ea Ec [Ho Hal Hid Hp Hq] Hr Hwire. split; try apply Hs; try done; cbn.
  - intros u. destruct (decide (u = v)) as [->|Hne].
    + rewrite lookup_insert_eq, (sim_nodes _ _ _ Hs), Hh. cbn. by rewrite Ea.
    + rewrite lookup_insert_ne by done. apply Hs.
  - intros u b. destruct (decide (u = v)) as [->|Hne].
    + rewrite lookup_insert_eq. intros [= <-]. by split; [split|].
    + rewrite lookup_insert_ne by done. intros Hu.
      destruct (sim_hosts _ _ _ Hs u b Hu) as [[] ?]. by split; [split|].
  - intros m Hm. destruct (sim_issued _ _ _ Hs m Hm) as [Hw Hn]. split; [done|].
    apply (numbered_by_put w v h h2 [] m Hh) in Hn; [exact Hn|]. split; [|by rewrite Ec].
    rewrite Hid. symmetry. by apply (sim_hosts _ _ _ Hs v h Hh).
Qed.

Lemma sim_transmit hist w fw v h fuel tr out n' :
  sim hist w fw -> f_hosts w !! v = Some h -> send_pending fuel tr (h_node h) = Ret (out, n') ->
  sim hist (mkFleet (<[v := mkHost n' (h_tm h) (h_alg h)]> (f_hosts w))
              (f_wire w ++ out.*2) (f_issued w)) fw.
Proof.
  intros Hs Hh E. destruct (sim_hosts _ _ _ Hs v h Hh) as [[[Hn Ht Hp16] Hal Hid Hp Hq] Hr].
  destruct (send_pending_frame tr fuel _ _ Hn) as (out1 & n1 & E1 & Hn1 & (Fi & Fp & Fr & Fq) & Fs & Hout).
  rewrite E in E1. injection E1 as <- <-.
  apply (sim_quiet hist w fw v h); try done; cbn; [|by rewrite Fr|].
  - split; cbn; [split; [done|done|unfold peers_16; cbn; by rewrite Fp]|done|by rewrite Fi|by rewrite Fp|].
    intros m [Hm|Hm]%Fq; [auto|by apply elem_of_nil in Hm].
  - intros m [Hm|(x & -> & Hx)%list_elem_of_fmap]%elem_of_app; [by apply Hs|]. apply Hq. by apply Hout.
Qed.

(** An unseen message is on its way in the abstract network. *)
Lemma in_flight hist w fw m :
  sim hist w fw -> m ∈ f_wire w -> unseen hist m ->
  exists n1 n2, fl_net fw = n1 ++ m :: n2 /\ n1 ++ n2 ≡ₚ filter (unseen (accept m hist)) (f_issued w).
Proof.
  intros Hs Hm Hu. apply (sim_wire _ _ _ Hs) in Hm.
  pose proof (sim_net _ _ _ Hs) as Hnet.
  rewrite (filter_accept m hist _ (sim_ids _ _ _ Hs) Hm Hu) in Hnet.
  assert (Hin : m ∈ fl_net fw) by (rewrite Hnet; left).
  apply list_elem_of_split in Hin as (n1 & n2 & E). exists n1, n2. split; [done|].
  rewrite E, <- Permutation_middle in Hnet. by apply Permutation_cons_inv in Hnet.
Qed.

Lemma sim_arrive hist w fw m h now order rand ms h' :
  sim hist w fw -> m ∈ f_wire w -> f_hosts w !! To m = Some h -> call_env now order h ->
  receive alg now order rand m h = Ret (ms, h') ->
  zlen (f_issued w) + zlen ms < 2 ^ 32 ->
  exists hist' fw', sim hist' (put (To m) h' ms w) fw' /\ (fw' = fw \/ flow_step fw fw') /\
    forall u, u <> To m -> hist' u = hist u.
Proof.
  intros Hs Hm Hh Henv E Hk. destruct (sim_hosts _ _ _ Hs _ h Hh) as [Hi Hr].
  unfold receive in E. destruct (recv_msg _ m (h_node h)) as [[d n]|] eqn:Er; [|done]. cbn in E.
  destruct (recv_accepts _ _ _ _ _ _ _ _ Hs Hm Hh Er) as [Hsame Hd].
  pose proof (recv_msg_host_ok _ _ _ _ _ _ (hi_ok _ _ _ Hi) Er) as Hok1.
  pose proof Hsame as (Ea & Ec & Ei & Ep & Eq & Et). destruct d as [m'|].
  - destruct Hd as (-> & Hu & Hr').
    destruct (run_carried_out (zlen (f_issued w)) (alg_OnMessage alg m) now order rand
                (mkHost n (h_tm h) (h_alg h)) ms h') as (a' & fx & Ef & Hrun);
      [apply law_OnMessage|apply Hi|done| |done..|].
    { destruct Henv as [H1 H2]. split; [done|]. cbn in Ep |- *. by rewrite Ep. }
    destruct (in_flight hist w fw m Hs Hm Hu) as (n1 & n2 & En & Hnet).
    assert (Hseen : forall u f s q, q ∈ accept m hist u f s ->
      exists m0, m0 ∈ f_issued w /\ msg_id m0 = (f, s, q)).
    { intros u f s q [[-> Eid]|Hq]%elem_of_accept; [|by apply (sim_hist _ _ _ Hs u)].
      exists m. split; [by apply Hs|done]. }
    assert (Hothers : forall u, u <> To m -> accept m hist u = hist u).
    { intros u Hne. unfold accept. by rewrite decide_False. }
    exists (accept m hist). eexists. split.
    + by apply (sim_run hist (accept m hist) w fw (To m) h (mkHost n (h_tm h) (h_alg h)) now ms a' fx h' (n1 ++ n2)).
    + split; [right|exact Hothers].
      apply (flow_step_handler fw (To m) (alg_OnMessage alg m) _ (host_env h now order rand) (h_alg h) a' fx ms);
        [by apply fev_deliver|rewrite (sim_nodes _ _ _ Hs), Hh; done|by eapply flow_env_host| |].
      * unfold host_env in *. cbn in Ef, Ei. by rewrite Ei in Ef.
      * by apply (run_queued hist w fw (To m) h (mkHost n (h_tm h) (h_alg h)) now ms a' fx h').
  - injection E as <- <-. exists hist, fw. split; [|by split; [left|]].
    unfold put. rewrite app_nil_r. apply (sim_quiet hist w fw (To m) h); try done; [|by apply Hs].
    destruct Hi as [_ H1 H2 H3 H4]. cbn in Ei, Ep, Eq. split; cbn; [done|done|by rewrite Ei|by rewrite Ep|].
    intros x [c Hx]. apply H4. exists c. by rewrite <- Eq.
Qed.

Lemma sim_step hist w fw w' :
  sim hist w fw -> step w w' -> zlen (f_issued w') < 2 ^ 32 ->
  exists hist' fw', sim hist' w' fw' /\ (fw' = fw \/ flow_step fw fw').
Proof.
  intros Hs [m h now order rand ms h' Hm Hh Henv E|v f h now order rand ms h' Hf Hh Henv E
            |v h fuel tr out n' Hh E] Hk; cbn in Hk; rewrite ?zlen_app in Hk.
  - destruct (sim_arrive hist w fw m h now order rand ms h') as (hist' & fw' & ? & ? & _); eauto.
  - destruct (sim_local hist w fw v f h now order rand ms h') as (fw' & ? & ?); [done..|].
    exists hist, fw'. auto.
  - exists hist, fw. split; [by eapply sim_transmit|by left].
Qed.

(** * Booting *)

Lemma add_peers_spec addr ps n n' :
  add_peers addr ps n = Ok n' ->
  (n_id n' = n_id n /\ n_sq n' = n_sq n /\ n_rt n' = n_rt n /\ seqCounters n' = seqCounters n) /\
  forall p, is_Some (Get p (n_pm n')) <-> p ∈ ps \/ is_Some (Get p (n_pm n)).
Proof.
  revert n. induction ps as [|q ps IH]; intros n; cbn [add_peers].
  { intros [= ->]. split; [done|]. intros p. split; [by right|]. by intros [?%elem_of_nil|]. }
  unfold AddPeer, Peer.Add. case_decide as Hq; [done|]. intros E. apply IH in E as [E1 E2].
  split; [done|]. intros p. rewrite E2, elem_of_cons. unfold Get. cbn.
  rewrite lookup_insert_is_Some. destruct (decide (q = p)) as [->|]; naive_solver.
Qed.

Lemma add_peers_List addr ps n n' :
  NoDup ps -> n_pm n = NewPeerManager -> add_peers addr ps n = Ok n' -> List (n_pm n') ≡ₚ ps.
Proof.
  intros Hnd En E. apply add_peers_spec in E as [_ E]. apply NoDup_Permutation; [|done|].
  - by apply (NoDup_List (n_pm n') _ (Permutation_refl _)).
  - intros p. rewrite (elem_of_List (n_pm n') _ p (Permutation_refl _)), E, En. unfold Get, NewPeerManager.
    rewrite lookup_empty. split; [|by left]. by intros [?|[? ?]].
Qed.

Definition unused (v : Z) : history := fun _ _ => ∅.

Lemma booted_host size addr init w v h :
  NoDup ids -> Forall (is_uint 16) ids -> 0 < size -> alg_inv init -> booted size addr init w ->
  f_hosts w !! v = Some h ->
  host_inv w v h /\ router_inv (n_rt (h_node h)) (unused v) /\ h_alg h = init.
Proof.
  intros Hnd H16 Hsz Hinit (_ & Ei & Hdom & Hb) Hh.
  destruct (Hb v h Hh) as (mc & n0 & n & En & Ea & ->). cbn.
  assert (Hv : v ∈ ids) by (apply Hdom; eauto).
  rewrite Forall_forall in H16.
  destruct (NewNode_ok v size mc (H16 v Hv) Hsz) as (n1 & E1 & Hn1 & Hid).
  rewrite En in E1. injection E1 as <-.
  assert (Epm : n_pm n0 = NewPeerManager /\ n_rt n0 = NewRouter v).
  { unfold NewNode in En. destruct (NewSendQueue size); [|done]. by injection En as <-. }
  pose proof (add_peers_List addr (others v) n0 n (NoDup_filter _ _ Hnd) (proj1 Epm) Ea) as Hl.
  destruct (add_peers_spec _ _ _ _ Ea) as [(F1 & F2 & F3 & F4) _].
  assert (Hempty : forall m, ~ queued n m).
  { intros m [k Hk]. rewrite F2 in Hk. unfold NewNode in En.
    destruct (NewSendQueue size) as [q|] eqn:Eq; [|done]. injection En as <-. cbn in Hk.
    unfold NewSendQueue in Eq. rewrite decide_False in Eq by lia. injection Eq as <-. cbn in Hk.
    by apply elem_of_nil in Hk. }
  split; [|split; [rewrite F3, (proj2 Epm); apply router_inv_new|done]].
  split; cbn; [|done|congruence|done|by intros m Hm%Hempty].
  rewrite Ei. split; cbn; [|apply Timer.tm_ok_new|].
  - destruct Hn1. split; by rewrite ?F1, ?F2, ?F4.
  - intros p Hp. apply (elem_of_List (n_pm n) _ p (Permutation_refl _)) in Hp. rewrite Hl in Hp.
    apply list_elem_of_filter in Hp as [_ Hp]. auto.
Qed.

Lemma sim_booted size addr init w :
  NoDup ids -> Forall (is_uint 16) ids -> 0 < size -> alg_inv init -> booted size addr init w ->
  sim unused w (flow_init init).
Proof.
  intros Hnd H16 Hsz Hinit Hb. pose proof Hb as (Ew & Ei & Hdom & _). split; rewrite ?Ew, ?Ei.
  - intros v. cbn [flow_init fl_nodes].
    destruct (f_hosts w !! v) as [h|] eqn:Hh; cbn [fmap option_fmap option_map].
    + destruct (booted_host _ _ _ _ v h Hnd H16 Hsz Hinit Hb Hh) as (_ & _ & ->).
      apply elem_of_list_to_map.
      * rewrite <- list_fmap_compose. by rewrite list_fmap_id.
      * apply list_elem_of_fmap. exists v. split; [done|]. apply Hdom. eauto.
    + apply not_elem_of_list_to_map. rewrite <- list_fmap_compose, list_fmap_id.
      intros Hv%Hdom. rewrite Hh in Hv. by destruct Hv.
  - intros v h Hh. by destruct (booted_host _ _ _ _ v h Hnd H16 Hsz Hinit Hb Hh) as (? & ? & _).
  - constructor.
  - by intros m Hm%elem_of_nil.
  - by intros m Hm%elem_of_nil.
  - intros v f s q Hq. by apply elem_of_empty in Hq.
  - done.
  - done.
Qed.

(** * Runs *)

Lemma step_issued w w' : step w w' -> f_issued w `prefix_of` f_issued w'.
Proof. intros []; cbn; try by eexists. done. Qed.

Lemma steps_issued n w w' : nsteps step n w w' -> f_issued w `prefix_of` f_issued w'.
Proof. induction 1 as [|n x y z Hs _ IH]; [done|]. apply step_issued in Hs. by etrans. Qed.

(** A run of the fleet is a run of the network, perhaps a shorter one. *)
Lemma sim_steps n hist w fw w' :
  sim hist w fw -> nsteps step n w w' -> zlen (f_issued w') < 2 ^ 32 ->
  exists hist' fw' k, sim hist' w' fw' /\ (k <= n)%nat /\ nsteps flow_step k fw fw'.
Proof.
  intros Hs Hn. revert hist fw Hs. induction Hn as [w|n w w1 w' Hst Hn IH]; intros hist fw Hs Hk.
  { exists hist, fw, 0%nat. split; [done|]. split; [lia|constructor]. }
  assert (H1 : zlen (f_issued w1) < 2 ^ 32).
  { destruct (steps_issued _ _ _ Hn) as [more E]. rewrite E, zlen_app in Hk.
    pose proof (zlen_nonneg more). lia. }
  destruct (sim_step _ _ _ _ Hs Hst H1) as (hist1 & fw1 & Hs1 & Hfw).
  destruct (IH hist1 fw1 Hs1 Hk) as (hist2 & fw2 & k & Hs2 & Hle & Hr).
  exists hist2, fw2. destruct Hfw as [-> | Hfw].
  - exists k. split; [done|]. split; [lia|done].
  - exists (S k). split; [done|]. split; [lia|by econstructor].
Qed.

Lemma sim_runs size addr init n w :
  alg_inv init -> runs size addr init n w ->
  exists hist fw k, sim hist w fw /\ (k <= n)%nat /\ nsteps flow_step k (flow_init init) fw.
Proof.
  intros Hinit (Hnd & H16 & Hsz & Hk & w0 & Hb & Hn).
  exact (sim_steps n _ w0 _ w (sim_booted _ _ _ _ Hnd H16 Hsz Hinit Hb) Hn Hk).
Qed.

(** What is in the abstract network was sent, and what was sent is well-formed. *)
Lemma sim_net_sent hist w fw m : sim hist w fw -> m ∈ fl_net fw -> m ∈ fl_sent fw.
Proof.
  intros Hs Hm. rewrite (sim_net _ _ _ Hs) in Hm. apply list_elem_of_filter in Hm as [_ Hm].
  by rewrite (sim_sent _ _ _ Hs).
Qed.

(** * No step gets stuck *)

Definition all_return fw : Prop := forall v f net' e a,
  flow_event fw v f net' -> fl_nodes fw !! v = Some a -> flow_env v e ->
  exists a' fx, f e a = Ret (tt, a', fx).

(** A handler that the network would run completes on the host. *)
Lemma event_completes hist w fw v f net' now order rand h h1 :
  sim hist w fw -> all_return fw -> f_hosts w !! v = Some h ->
  same_but_router h h1 -> host_ok (zlen (f_issued w)) h1 -> call_env now order h ->
  polite alg_inv f -> flow_event fw v f net' ->
  completes w f now order rand h1 (run_handler f now order rand h1).
Proof.
  intros Hs Ht Hh (Ea & Ec & Ei & Ep & _) Hok [Hnow Hl] Hf Hev.
  destruct (sim_hosts _ _ _ Hs v h Hh) as [Hi _].
  destruct (Ht v f net' (host_env h1 now order rand) (h_alg h1) Hev) as (a' & fx & Ef).
  { by rewrite (sim_nodes _ _ _ Hs), Hh, Ea. }
  { split; [cbn; rewrite Ei; apply Hi| |exact Hnow]. cbn. rewrite Hl. apply Hi. }
  exists a', fx. split; [done|]. intros Hk'.
  destruct (run_handler_spec alg f (zlen (f_issued w)) now order rand h1 a' fx)
    as (ms & h' & E & Ea' & _ & _ & _ & _ & _ & Hq & _); try done.
  - rewrite Ea. apply Hi.
  - by rewrite Ep.
  - exists ms, h'. split; [done|]. split; [done|]. by rewrite (Forall2_length _ _ _ Hq).
Qed.

(** A message the network delivers is refused or its handler runs to its end,
    every local handler does, and the send loop can always run. *)
Definition unstuck w (v : Z) (h : Host St) (now : Z) (order : list Z) (rand : nat -> Z) : Prop :=
  (forall m, m ∈ f_wire w -> To m = v ->
     (exists h', receive alg now order rand m h = Ret ([], h') /\ h_alg h' = h_alg h) \/
     (exists h1, h_alg h1 = h_alg h /\
        completes w (alg_OnMessage alg m) now order rand h1 (receive alg now order rand m h))) /\
  (forall f, local_handler v f -> completes w f now order rand h (run_handler f now order rand h)) /\
  (forall fuel tr, exists out n', send_pending fuel tr (h_node h) = Ret (out, n')).

Lemma sim_unstuck hist w fw v h now order rand :
  sim hist w fw -> all_return fw -> f_hosts w !! v = Some h -> call_env now order h ->
  unstuck w v h now order rand.
Proof.
  intros Hs Ht Hh Henv. destruct (sim_hosts _ _ _ Hs v h Hh) as [Hi Hrt]. split_and!.
  - intros m Hm <-.
    destruct (sim_issued _ _ _ Hs m (sim_wire _ _ _ Hs m Hm)) as [Hw _].
    destruct (Dispatch_spec (now `div` 1000000) m _ _ Hrt Hw) as (vd & rt & Ed & _).
    destruct (recv_msg (now `div` 1000000) m (h_node h)) as [[d n1]|s] eqn:Er;
      [|unfold recv_msg in Er; by rewrite Ed in Er].
    destruct (recv_accepts hist w fw m h _ d n1 Hs Hm Hh Er) as [Hsame Hd].
    unfold receive. rewrite Er, bind_Ret. cbv beta zeta. destruct d as [m'|]; [right|left; by eexists].
    destruct Hd as (-> & Hu & _). exists (mkHost n1 (h_tm h) (h_alg h)). split; [done|].
    destruct (in_flight hist w fw m Hs Hm Hu) as (n1' & n2 & En & _).
    apply (event_completes hist w fw (To m) _ (n1' ++ n2) _ _ _ h); try done.
    + eapply recv_msg_host_ok; [apply Hi|done].
    + apply law_OnMessage.
    + by constructor.
  - intros f Hf. apply (event_completes hist w fw v f (fl_net fw) _ _ _ h); try done;
      [apply Hi|by eapply local_polite|by apply fev_local].
  - intros fuel tr. destruct (send_pending_frame tr fuel _ _ (hk_node _ _ (hi_ok _ _ _ Hi)))
      as (out & n' & E & _). by exists out, n'.
Qed.

End stack.

(** * Networks that the abstract one refines *)

(** A relation that every step of the network keeps, for a step of another. *)
Lemma flow_simulates {St W} (alg : Algorithm St) ids op (R : Flow St -> W -> Prop) (astep : W -> W -> Prop) :
  (forall fw fw' x, R fw x -> flow_step alg ids op fw fw' -> exists x', R fw' x' /\ astep x x') ->
  forall k fw fw' x, R fw x -> nsteps (flow_step alg ids op) k fw fw' ->
  exists x', R fw' x' /\ nsteps astep k x x'.
Proof.
  intros Hstep k fw fw' x HR Hn. revert x HR. induction Hn as [fw|k fw fw1 fw' Hs _ IH]; intros x HR.
  { exists x. split; [done|constructor]. }
  destruct (Hstep _ _ _ HR Hs) as (x1 & HR1 & Hx1). destruct (IH x1 HR1) as (x' & HR' & Hx').
  exists x'. split; [done|]. by econstructor.
Qed.
