(* ===== verification/StackRun.v ===== *)
(** StackRun: fleets, executed.  A schedule of deliveries, local handlers and
    transmissions runs nodes through the whole stack; it provides the concrete
    instances of what is proved with [Stack]. *)
From S2P Require Import Prelude Message Heap SendQueue Router Peer Node Host Stack.
From S2P Require Timer.

Inductive fleet_action (St : Type) : Type :=
  | Arrive (i : nat)
  | Begin (v : Z)
  | TickAt (v : Z) (name : string)
  | CallAt (v : Z) (f : prog St unit)
  | Transmit (v : Z).
Arguments Arrive {St} i.
Arguments Begin {St} v.
Arguments TickAt {St} v name.
Arguments CallAt {St} v f.
Arguments Transmit {St} v.

Section exec.
Context {St : Type} (alg : Algorithm St) `{!LawfulAlgorithm alg} (ids : list Z) (op : Z -> prog St unit -> Prop).
Implicit Types w : Fleet St.

Definition boot_host (size : Z) (addr : Z -> string) (init : St) (v : Z) : option (Host St) :=
  match NewNode v size None with
  | Ret n =>
      match add_peers addr (others ids v) n with
      | Ok n => Some (mkHost n Timer.NewTimerManager init)
      | Err _ => None
      end
  | Panic _ => None
  end.

Definition boot (size : Z) (addr : Z -> string) (init : St) : option (Fleet St) :=
  hs ← mapM (fun v => pair v <$> boot_host size addr init v) ids;
  Some (mkFleet (list_to_map hs) [] []).

Definition settle (v : Z) (r : outcome (list WireMessage * Host St)) w : option (Fleet St) :=
  match r with Ret (ms, h) => Some (put v h ms w) | Panic _ => None end.

Definition local_at (v : Z) (f : prog St unit) w : option (Fleet St) :=
  h ← f_hosts w !! v; settle v (run_handler f 0 (List (n_pm (h_node h))) (fun _ => 0) h) w.

Definition exec (act : fleet_action St) w : option (Fleet St) :=
  match act with
  | Arrive i =>
      m ← f_wire w !! i; h ← f_hosts w !! To m;
      settle (To m) (receive alg 0 (List (n_pm (h_node h))) (fun _ => 0) m h) w
  | Begin v => local_at v (alg_Start alg) w
  | TickAt v name => local_at v (alg_OnTick alg name) w
  | CallAt v f => local_at v f w
  | Transmit v =>
      h ← f_hosts w !! v;
      match send_pending 100 (fun _ _ => true) (h_node h) with
      | Ret (out, n) => Some (mkFleet (<[v := mkHost n (h_tm h) (h_alg h)]> (f_hosts w))
                                (f_wire w ++ out.*2) (f_issued w))
      | Panic _ => None
      end
  end.

Fixpoint exec_all (acts : list (fleet_action St)) w : option (Fleet St) :=
  match acts with
  | [] => Some w
  | act :: acts => w ← exec act w; exec_all acts w
  end.

(** The calls of a schedule are the application's. *)
Definition allowed (act : fleet_action St) : Prop := match act with CallAt v f => op v f | _ => True end.

Lemma env_at_0 (h : Host St) : call_env 0 (List (n_pm (h_node h))) h.
Proof. split; [done|apply Permutation_refl]. Qed.

Lemma local_at_step v f w w' : local_handler alg op v f -> local_at v f w = Some w' -> step alg op w w'.
Proof.
  unfold local_at. intros Hf. destruct (f_hosts w !! v) as [h|] eqn:Hh; [|done]. cbn [mbind option_bind].
  destruct (run_handler _ _ _ _ _) as [[ms h']|] eqn:E; [|done]. intros [= <-].
  by eapply step_local; [..|apply env_at_0|].
Qed.

Lemma fleet_exec_step act w w' : allowed act -> exec act w = Some w' -> step alg op w w'.
Proof.
  destruct act as [i|v|v name|v f|v]; cbn [exec allowed]; intros Hact;
    try (apply local_at_step; by constructor).
  - destruct (f_wire w !! i) as [m|] eqn:Em; [|done]. cbn [mbind option_bind].
    destruct (f_hosts w !! To m) as [h|] eqn:Hh; [|done]. cbn [mbind option_bind].
    destruct (receive _ _ _ _ _ _) as [[ms h']|] eqn:E; [|done]. intros [= <-].
    eapply step_arrive; [by eapply list_elem_of_lookup_2|done|apply env_at_0|done].
  - destruct (f_hosts w !! v) as [h|] eqn:Hh; [|done]. cbn [mbind option_bind].
    destruct (send_pending _ _ _) as [[out n]|] eqn:E; [|done]. intros [= <-].
    by eapply step_transmit.
Qed.

Lemma fleet_exec_all_steps acts w w' :
  Forall allowed acts -> exec_all acts w = Some w' -> nsteps (step alg op) (length acts) w w'.
Proof.
  intros Hall. revert w. induction Hall as [|act acts Hact _ IH]; intros w; cbn; [intros [= ->]; constructor|].
  destruct (exec act w) as [w1|] eqn:E1; [|done]. intros E.
  econstructor; [by eapply fleet_exec_step|by apply IH].
Qed.

Lemma boot_booted size addr init w : NoDup ids -> boot size addr init = Some w -> booted ids size addr init w.
Proof.
  unfold boot. intros Hnd. destruct (mapM _ ids) as [hs|] eqn:Eh; [|done]. cbn. intros [= <-].
  apply mapM_Some in Eh.
  assert (Ek : hs.*1 = ids).
  { clear Hnd. induction Eh as [|v x l k Hx _ IH]; [done|].
    apply fmap_Some in Hx as (h & _ & ->). rewrite fmap_cons. by rewrite IH. }
  split_and!; try done; cbn.
  - intros v. rewrite <- Ek, list_elem_of_fmap. split.
    + intros ([v' h] & -> & Hin). exists h. apply elem_of_list_to_map; [by rewrite Ek|done].
    + intros [h Hh]. exists (v, h). split; [done|]. by apply elem_of_list_to_map_2.
  - intros v h Hh%elem_of_list_to_map_2. apply list_elem_of_lookup in Hh as [i Hi].
    destruct (Forall2_lookup_r _ _ _ _ _ Eh Hi) as (u & _ & Hx).
    apply fmap_Some in Hx as (h' & Eb & [= -> ->]).
    unfold boot_host in Eb. destruct (NewNode u size None) as [n0|] eqn:En; [|done].
    destruct (add_peers addr (others ids u) n0) as [n|] eqn:Ea; [|done]. injection Eb as <-.
    by exists None, n0, n.
Qed.

Definition few w : bool := zlen (f_issued w) <? 2 ^ 32.

(** The fleet a schedule ends in *)
Definition run_from_boot size addr init (acts : list (fleet_action St)) : option (Fleet St) :=
  w ← boot size addr init; exec_all acts w.

(** A schedule that runs, and what can be checked on the fleet it ends in. *)
Lemma schedule_runs size addr init acts (P : Fleet St -> bool) :
  NoDup ids -> Forall (is_uint 16) ids -> 0 < size -> Forall allowed acts ->
  match run_from_boot size addr init acts with Some w => few w && P w | None => false end = true ->
  exists w, runs alg ids op size addr init (length acts) w /\ P w = true.
Proof.
  intros Hnd H16 Hsz Hall. unfold run_from_boot. destruct (boot size addr init) as [w0|] eqn:E0; [|done].
  cbn [mbind option_bind]. destruct (exec_all acts w0) as [w|] eqn:E; [|done].
  intros [Hf HP]%andb_prop. apply Z.ltb_lt in Hf.
  exists w. split; [|done]. split_and!; [done..|]. exists w0.
  split; [by apply boot_booted|by apply fleet_exec_all_steps].
Qed.

Definition host_at (v : Z) w (P : St -> bool) : bool :=
  match f_hosts w !! v with Some h => P (h_alg h) | None => false end.

Lemma host_at_elim v w P :
  host_at v w P = true -> exists h, f_hosts w !! v = Some h /\ P (h_alg h) = true.
Proof. unfold host_at. destruct (f_hosts w !! v) as [h|]; [eauto|done]. Qed.

End exec.
