(* ===== verification/StackLive.v ===== *)
(** StackLive: what a fleet can always do.  A node can flush its queue, and with
    a flushed queue what a handler sends reaches the wire; a message just
    issued is accepted by its receiver.  These are the steps from which
    progress on whole nodes is built. *)
From S2P Require Import Prelude Message Heap SendQueue Router Peer Node Host Stack.
From S2P Require Timer.

(** * Queues with room *)

Lemma Push_room q msg :
  queue_ok q -> sq_counter q < 2 ^ 64 - 1 -> zlen (sq_h q) < sq_cap q ->
  exists q' d c, Push msg q = Ret (q', d) /\ keys (sq_h q') ≡ₚ (msg, c) :: keys (sq_h q) /\ sq_cap q' = sq_cap q.
Proof.
  intros Hok Hc Hroom. destruct (abstracts_exists q Hok) as [s Ha].
  destruct (Push_refines q s msg Hok Ha Hc) as (q' & d & s' & E & Hp & [Ha' _] & _ & Hcap & _).
  destruct Ha as [Ha _].
  assert (Hl : zlen s = zlen (sq_h q)).
  { apply Permutation_length in Ha. unfold zlen. rewrite <- Ha, length_keys. done. }
  exists q', d, (sq_counter q + 1). split; [done|]. split; [|done].
  inversion Hp; subst; [|lia]. by rewrite Ha', insert_entry_Permutation, Ha.
Qed.

Lemma queued_keys n n' m c :
  keys (sq_h (n_sq n')) ≡ₚ (m, c) :: keys (sq_h (n_sq n)) ->
  queued n' m /\ (forall x, queued n x -> queued n' x) /\ zlen (sq_h (n_sq n')) = zlen (sq_h (n_sq n)) + 1.
Proof.
  intros Hk. split; [exists c; rewrite Hk; left|]. split.
  - intros x [d Hx]. exists d. rewrite Hk. by right.
  - apply Permutation_length in Hk. cbn in Hk. rewrite !length_keys in Hk. unfold zlen. lia.
Qed.

(** One call that sends, when the queue has room *)
Lemma issue_room k now p msg n m n' :
  node_ok k n -> k < 2 ^ 32 - 1 -> zlen (sq_h (n_sq n)) < sq_cap (n_sq n) -> issue now p msg n = Ret (m, n') ->
  queued n' m /\ (forall x, queued n x -> queued n' x) /\
  zlen (sq_h (n_sq n')) = zlen (sq_h (n_sq n)) + 1 /\ sq_cap (n_sq n') = sq_cap (n_sq n).
Proof.
  intros [Hq _ Hc _ _] Hk Hroom. unfold issue, nextSeq. destruct (index _ _) as [c|]; [|done]. rewrite !bind_Ret.
  set (n1 := mkNode _ _ _ _ _ _). set (x := stamp _ _ _ _ _). unfold enqueue.
  destruct (Push_room (n_sq n1) x) as (q' & d & e & E & Hkeys & Hcap); [done|cbn; lia|done|].
  rewrite E, bind_Ret, bind_Ret. intros [= <- <-]. cbn [n_sq].
  pose proof (queued_keys n (mkNode (n_id n1) (n_pm n1) q' (n_rt n1)
    (match d with Some _ => Collector.RecordQueueDrop <$> n_mc n1 | None => n_mc n1 end) (seqCounters n1)) x e Hkeys)
    as (H1 & H2 & H3). by split_and!.
Qed.

(** The messages of a handler stay queued if there is room for all of them. *)
Definition keeps_queue (n n' : Node) (ms : list WireMessage) : Prop :=
  (forall m, m ∈ ms -> queued n' m) /\ (forall m, queued n m -> queued n' m) /\
  zlen (sq_h (n_sq n')) = zlen (sq_h (n_sq n)) + zlen ms /\ sq_cap (n_sq n') = sq_cap (n_sq n).

Lemma keeps_queue_refl n : keeps_queue n n [].
Proof. split_and!; [by intros m ?%elem_of_nil|done|zlia|done]. Qed.

Lemma keeps_queue_app n1 n2 n3 ms1 ms2 :
  keeps_queue n1 n2 ms1 -> keeps_queue n2 n3 ms2 -> keeps_queue n1 n3 (ms1 ++ ms2).
Proof.
  intros (A1 & B1 & C1 & D1) (A2 & B2 & C2 & D2). split_and!; [|auto|zlia|congruence].
  intros m [Hm|Hm]%elem_of_app; auto.
Qed.

Lemma run_effect_room now e x k n tm ms n' tm' :
  node_ok k n -> k + zlen (sends [x]) < 2 ^ 32 -> is_List (n_pm n) (env_Peers e) -> call_ok e x ->
  zlen (sq_h (n_sq n)) + zlen (sends [x]) <= sq_cap (n_sq n) ->
  run_effect now x n tm = Ret (ms, n', tm') -> keeps_queue n n' ms.
Proof.
  intros Hn Hk Hl Hx Hroom. destruct x as [to m|name d|name|i c]; cbn [run_effect].
  - change (zlen (sends [ESend to m])) with 1 in *.
    destruct Hx as [Hto _]. apply (elem_of_List _ _ to Hl) in Hto as [p Hp]. rewrite Send_issue, Hp.
    destruct (issue now to m n) as [[m' n1]|] eqn:E; [|done]. cbn. intros [= <- <- _].
    destruct (issue_room k now to m n m' n1 Hn ltac:(lia) ltac:(lia) E) as (H1 & H2 & H3 & H4).
    split_and!; [by intros y ->%list_elem_of_singleton|done|zlia|done].
  - destruct (Timer.SetTimer name d tm); [|done]. cbn. intros [= <- <- _]. apply keeps_queue_refl.
  - destruct (Timer.Cancel name tm); [|done]. cbn. intros [= <- <- _]. apply keeps_queue_refl.
  - intros [= <- <- _]. apply keeps_queue_refl.
Qed.

Lemma run_effects_room now e fx k n tm ms n' tm' :
  node_ok k n -> Timer.tm_ok tm -> peers_16 n -> k + zlen (sends fx) < 2 ^ 32 -> is_int64 now ->
  is_List (n_pm n) (env_Peers e) -> Forall (call_ok e) fx ->
  zlen (sq_h (n_sq n)) + zlen (sends fx) <= sq_cap (n_sq n) ->
  run_effects now fx n tm = Ret (ms, n', tm') -> keeps_queue n n' ms.
Proof.
  intros Hn Ht Hp Hk Hnow Hl Hf. revert k n tm ms Hn Ht Hp Hk Hl.
  induction Hf as [|x fx Hx Hf IH]; intros k n tm ms Hn Ht Hp Hk Hl Hroom; cbn [run_effects].
  { intros [= <- <- _]. apply keeps_queue_refl. }
  rewrite sends_cons, zlen_app in *. pose proof (zlen_nonneg (sends fx)).
  destruct (run_effect_spec now e x k n tm) as (ms1 & n1 & tm1 & E1 & Hn1 & Ht1 & Hf1 & _ & _ & Hq1 & _);
    try done; try lia. rewrite E1, bind_Ret. pose proof Hf1 as (_ & Epm & _).
  pose proof (run_effect_room now e x k n tm ms1 n1 tm1 Hn ltac:(lia) Hl Hx ltac:(lia) E1) as K1.
  assert (El : zlen ms1 = zlen (sends [x])) by (unfold zlen; by rewrite (Forall2_length _ _ _ Hq1)).
  pose proof K1 as (_ & _ & C1 & D1).
  destruct (run_effects now fx n1 tm1) as [[[ms2 n2] tm2]|] eqn:E2; [|done].
  rewrite bind_Ret. intros [= <- -> ->]. eapply keeps_queue_app; [done|].
  apply (IH (k + zlen (sends [x])) n1 tm1); try done; [unfold peers_16; by rewrite Epm|lia|by rewrite Epm|lia].
Qed.

(** ** Capacities do not change *)

Lemma Push_cap q msg q' d : Push msg q = Ret (q', d) -> sq_cap q' = sq_cap q.
Proof.
  unfold Push. case_decide; [|by intros [= <- _]].
  destruct (index _ _) as [first|]; [|done]. cbn. destruct (heap_Remove _ _) as [[it h]|]; [|done].
  by intros [= <- _].
Qed.

Lemma Pop_cap q m q' : Pop q = Ret (m, q') -> sq_cap q' = sq_cap q.
Proof.
  unfold Pop. case_decide; [by intros [= _ <-]|]. destruct (heap_Pop _) as [[it h]|]; [|done]. by intros [= _ <-].
Qed.

Lemma issue_cap now p msg n m n' : issue now p msg n = Ret (m, n') -> sq_cap (n_sq n') = sq_cap (n_sq n).
Proof.
  unfold issue, nextSeq, enqueue. destruct (index _ _) as [c|]; [|done]. cbn.
  destruct (Push _ _) as [[q d]|] eqn:E; [|done]. cbn. intros [= _ <-]. by apply Push_cap in E.
Qed.

Lemma run_effect_cap now x n tm ms n' tm' :
  run_effect now x n tm = Ret (ms, n', tm') -> sq_cap (n_sq n') = sq_cap (n_sq n).
Proof.
  destruct x as [to m|name d|name|i c]; cbn [run_effect].
  - rewrite Send_issue. destruct (Get to (n_pm n)) as [p|]; [|by intros [= _ <- _]].
    destruct (issue now to m n) as [[m' n1]|] eqn:E; [|done]. intros [= _ <- _]. by eapply issue_cap.
  - destruct (Timer.SetTimer name d tm); [|done]. by intros [= _ <- _].
  - destruct (Timer.Cancel name tm); [|done]. by intros [= _ <- _].
  - by intros [= _ <- _].
Qed.

Lemma run_effects_cap now fx n tm ms n' tm' :
  run_effects now fx n tm = Ret (ms, n', tm') -> sq_cap (n_sq n') = sq_cap (n_sq n).
Proof.
  revert n tm ms. induction fx as [|x fx IH]; intros n tm ms; cbn [run_effects]; [by intros [= _ <- _]|].
  destruct (run_effect now x n tm) as [[[ms1 n1] tm1]|] eqn:E1; [|done]. rewrite bind_Ret.
  destruct (run_effects now fx n1 tm1) as [[[ms2 n2] tm2]|] eqn:E2; [|done]. rewrite bind_Ret.
  intros [= _ <- <-]. apply IH in E2. apply run_effect_cap in E1. congruence.
Qed.

Lemma send_pending_cap fuel tr n out n' :
  send_pending fuel tr n = Ret (out, n') -> sq_cap (n_sq n') = sq_cap (n_sq n).
Proof.
  revert n out. induction fuel as [|fuel IH]; intros n out; cbn [send_pending]; [by intros [= _ <-]|].
  destruct (Pop (n_sq n)) as [[m q]|] eqn:E; [|done]. rewrite bind_Ret. apply Pop_cap in E. cbv beta iota zeta.
  assert (Hnext : forall mc out', send_pending fuel tr (mkNode (n_id n) (n_pm n) q (n_rt n) mc (seqCounters n))
    = Ret (out', n') -> sq_cap (n_sq n') = sq_cap (n_sq n)) by (intros mc out' E'%IH; by rewrite E').
  destruct m as [msg|]; [|by intros [= _ <-]].
  destruct (Get (To msg) (n_pm n)) as [p|]; [|apply Hnext]. destruct (tr _ _); [|apply Hnext].
  destruct (send_pending fuel tr _) as [[out1 n1]|] eqn:E1; [|done]. rewrite bind_Ret.
  intros [= _ <-]. by eapply Hnext.
Qed.

(** ** Flushing *)

(** Everything queued for a peer is transmitted. *)
Lemma flush_node n :
  queue_ok (n_sq n) -> exists fuel out n', send_pending fuel (fun _ _ => true) n = Ret (out, n') /\
    sq_h (n_sq n') = [] /\ forall m, queued n m -> is_Some (Get (To m) (n_pm n)) -> m ∈ out.*2.
Proof.
  intros Hok. destruct (abstracts_exists (n_sq n) Hok) as [s Hs].
  destruct (send_pending_service_order (fun _ _ => true) (S (length s)) n s Hok Hs ltac:(lia)) as (n' & E & Hh & _).
  exists (S (length s)), (omap (transmission (fun _ _ => true) (n_pm n)) s), n'. split; [done|]. split; [done|].
  intros m [c Hc] [p Hp]. rewrite (proj1 Hs) in Hc. apply list_elem_of_fmap. exists (Addr p, m). split; [done|].
  apply list_elem_of_omap. exists (m, c). split; [done|]. unfold transmission. cbn. by rewrite Hp.
Qed.

(** * Steps of a fleet *)
Section live.
Context {St : Type} (alg : Algorithm St) `{!LawfulAlgorithm alg}.
Context (ids : list Z) (op : Z -> prog St unit -> Prop).
Hypothesis op_polite : forall v f, op v f -> polite alg_inv f.
Implicit Types (w : Fleet St) (fw : Flow St) (hist : Z -> history) (h : Host St).

#[local] Notation step := (step alg op).
#[local] Notation sim := (sim alg ids).
#[local] Notation flow_step := (flow_step alg ids op).

(** Every queue has the capacity it was made with. *)
Definition sized (size : Z) w : Prop := forall v h, f_hosts w !! v = Some h -> sq_cap (n_sq (h_node h)) = size.

Lemma run_handler_cap f now order rand h ms h' :
  run_handler f now order rand h = Ret (ms, h') -> sq_cap (n_sq (h_node h')) = sq_cap (n_sq (h_node h)).
Proof.
  unfold run_handler. destruct (f _ _) as [[[u a] fx]|]; [|done]. rewrite bind_Ret. cbv beta iota zeta.
  destruct (run_effects _ fx _ _) as [[[ms1 n1] tm1]|] eqn:E; [|done]. rewrite bind_Ret.
  intros [= _ <-]. by eapply run_effects_cap.
Qed.

Lemma receive_cap now order rand m h ms h' :
  receive alg now order rand m h = Ret (ms, h') -> sq_cap (n_sq (h_node h')) = sq_cap (n_sq (h_node h)).
Proof.
  unfold receive. destruct (recv_msg _ m (h_node h)) as [[d n]|] eqn:E; [|done]. rewrite bind_Ret.
  destruct (recv_msg_frame _ _ _ _ _ E) as (_ & _ & _ & Eq & _). cbv beta iota zeta.
  destruct d as [m'|]; [|intros [= _ <-]; cbn; by rewrite Eq].
  intros E'%run_handler_cap. rewrite E'. cbn. by rewrite Eq.
Qed.

Lemma sized_insert size w v h h' wire iss :
  sized size w -> f_hosts w !! v = Some h -> sq_cap (n_sq (h_node h')) = sq_cap (n_sq (h_node h)) ->
  sized size (mkFleet (<[v := h']> (f_hosts w)) wire iss).
Proof.
  intros Hs Hh E u b. cbn. destruct (decide (u = v)) as [->|Hne].
  - rewrite lookup_insert_eq. intros [= <-]. rewrite E. by eapply Hs.
  - rewrite lookup_insert_ne by done. apply Hs.
Qed.

Lemma step_sized size w w' : step w w' -> sized size w -> sized size w'.
Proof.
  intros [m h now order rand ms h' _ Hh _ E|v f h now order rand ms h' _ Hh _ E|v h fuel tr out n' Hh E] Hs;
    (eapply sized_insert; [exact Hs|exact Hh|]).
  - by eapply receive_cap.
  - by eapply run_handler_cap.
  - by eapply send_pending_cap.
Qed.

Lemma steps_sized size n w w' : nsteps step n w w' -> sized size w -> sized size w'.
Proof. induction 1 as [|n x y z Hs _ IH]; [done|]. intros Hz. apply IH. by eapply step_sized. Qed.

Lemma booted_sized size addr init w : booted ids size addr init w -> sized size w.
Proof.
  intros (_ & _ & _ & Hb) v h Hh. destruct (Hb v h Hh) as (mc & n0 & n & En & Ea & ->). cbn.
  destruct (add_peers_spec _ _ _ _ Ea) as [(_ & -> & _) _]. unfold NewNode, NewSendQueue in En.
  case_decide; [done|]. by injection En as <-.
Qed.

Lemma runs_sized size addr init n w : runs alg ids op size addr init n w -> sized size w.
Proof.
  intros (_ & _ & _ & _ & w0 & Hb%booted_sized & Hn). by eapply steps_sized.
Qed.

(** ** What can always be done *)

(** A node can transmit all that it has queued. *)
Lemma flush hist w fw v h :
  sim hist w fw -> f_hosts w !! v = Some h ->
  exists wire n', let w' := mkFleet (<[v := mkHost n' (h_tm h) (h_alg h)]> (f_hosts w)) (f_wire w ++ wire) (f_issued w) in
    step w w' /\ sim hist w' fw /\ n_pm n' = n_pm (h_node h) /\ sq_h (n_sq n') = [] /\
    forall m, queued (h_node h) m -> is_Some (Get (To m) (n_pm (h_node h))) -> m ∈ wire.
Proof.
  intros Hs Hh. destruct (sim_hosts _ _ _ _ _ Hs v h Hh) as [Hi _].
  destruct (flush_node (h_node h)) as (fuel & out & n' & E & Hempty & Hout); [apply (hi_ok _ _ _ _ _ Hi)|].
  exists (out.*2), n'. split; [by eapply step_transmit|]. split; [by eapply sim_transmit|].
  destruct (send_pending_frame (fun _ _ => true) fuel _ _ (hk_node _ _ (hi_ok _ _ _ _ _ Hi)))
    as (out1 & n1 & E1 & _ & (_ & Ep & _) & _). rewrite E in E1. by injection E1 as <- <-.
Qed.

(** A handler that runs on an empty queue with room for what it sends *)
Lemma run_handler_room k f now order rand h a' fx :
  polite alg_inv f -> alg_inv (h_alg h) -> host_ok k h -> call_env now order h -> k + zlen (sends fx) < 2 ^ 32 ->
  f (host_env h now order rand) (h_alg h) = Ret (tt, a', fx) ->
  sq_h (n_sq (h_node h)) = [] -> zlen (sends fx) <= sq_cap (n_sq (h_node h)) ->
  exists ms h', run_handler f now order rand h = Ret (ms, h') /\ h_alg h' = a' /\ issued (h_node h) (h_node h') ms /\
    n_pm (h_node h') = n_pm (h_node h) /\
    Forall2 (queued_as (n_id (h_node h)) (now `div` 1000000)) (sends fx) ms /\
    forall m, m ∈ ms -> queued (h_node h') m /\ is_Some (Get (To m) (n_pm (h_node h))).
Proof.
  intros Hf Hinv Hok [Hnow Hl] Hk Ef Hempty Hroom.
  destruct (run_handler_spec alg f k now order rand h a' fx Hf Hinv Hok Hnow Hl Hk Ef)
    as (ms & h' & E & Ea & _ & _ & Hi & _ & (_ & Ep & _) & Hq & _).
  exists ms, h'. split_and!; try done. intros m Hm.
  destruct (wp_elim _ _ _ _ _ _ _ _ (Hf (host_env h now order rand) _ Hinv Hnow) Ef) as [_ Hfx]. split.
  - unfold run_handler in E. rewrite Ef, bind_Ret in E. cbv beta iota zeta in E.
    destruct (run_effects _ fx _ _) as [[[ms1 n1] tm1]|] eqn:Er; [|done]. rewrite bind_Ret in E.
    injection E as <- <-. destruct Hok as [Hn Ht Hp].
    destruct (run_effects_room (now `div` 1000000) (host_env h now order rand) fx k (h_node h) (h_tm h) ms1 n1 tm1) as [Hin _]; try done.
    + rewrite Hempty. zlia.
    + by apply Hin.
  - apply (elem_of_List _ _ (To m) Hl). apply list_elem_of_lookup in Hm as [i Hmi].
    destruct (Forall2_lookup_r _ _ _ _ _ Hq Hmi) as ([to m0] & Hsi & seq & ->). cbn.
    apply list_elem_of_lookup_2 in Hsi. unfold sends in Hsi. apply list_elem_of_omap in Hsi as (x & Hx & Es).
    rewrite Forall_forall in Hfx. specialize (Hfx x Hx). destruct x as [to' m'| | |]; try done.
    injection Es as -> _. by destruct Hfx.
Qed.

(** The receiver has accepted neither this number nor a later one of its stream. *)
Definition newest hist (m : WireMessage) : Prop :=
  forall q, q ∈ hist (To m) (From m) (StreamID m) -> q < Seq m.

Lemma issued_newest hist w fw v h n' ms m :
  sim hist w fw -> f_hosts w !! v = Some h -> issued (h_node h) n' ms -> m ∈ ms -> newest hist m.
Proof.
  intros Hs Hh [_ Hf] Hm q Hq. rewrite Forall_forall in Hf.
  destruct (Hf m Hm) as (_ & Ef & c & c' & Hc & _ & Hlt).
  destruct (sim_hist _ _ _ _ _ Hs _ _ _ _ Hq) as (m0 & Hm0 & [= E1 E2 E3]).
  destruct (sim_issued _ _ _ _ _ Hs m0 Hm0) as [_ (h0 & c0 & Hh0 & Hc0 & Hle)].
  destruct (sim_hosts _ _ _ _ _ Hs v h Hh) as [Hi _]. rewrite (hi_id _ _ _ _ _ Hi) in Ef.
  rewrite E1, Ef, Hh in Hh0. injection Hh0 as <-. rewrite E2, Hc in Hc0. injection Hc0 as <-. lia.
Qed.

(** The fleet [w'] is [w] after a call on the node [v] that left its algorithm in
    [a'] and whose messages, for the calls [fx], are [ms]: they are on the wire,
    and their receivers can take them. *)
Record called w (v now : Z) (a' : St) (fx : list effect) hist w' : Prop := {
  cd_host : exists h', f_hosts w' = <[v := h']> (f_hosts w) /\ h_alg h' = a';
  cd_sent : exists ms, f_issued w' = f_issued w ++ ms /\
    Forall2 (queued_as v (now `div` 1000000)) (sends fx) ms /\
    forall m, m ∈ ms -> m ∈ f_wire w' /\ newest hist m;
  cd_wire : forall m, m ∈ f_wire w -> m ∈ f_wire w';
}.

(** A call whose messages are queued can be completed by a flush. *)
Lemma flush_called hist w fw w1 v h h' ms now fx :
  sim hist (put v h' ms w1) fw -> f_hosts w1 = <[v := h]> (f_hosts w) -> f_issued w1 = f_issued w ->
  (forall m, m ∈ f_wire w -> m ∈ f_wire w1) -> n_pm (h_node h') = n_pm (h_node h) ->
  Forall2 (queued_as v (now `div` 1000000)) (sends fx) ms ->
  (forall m, m ∈ ms -> queued (h_node h') m /\ is_Some (Get (To m) (n_pm (h_node h)))) ->
  (forall m, m ∈ ms -> newest hist m) ->
  exists w', step (put v h' ms w1) w' /\ sim hist w' fw /\ called w v now (h_alg h') fx hist w'.
Proof.
  intros Hs Eh Ei Hwire Ep Hq Hms Hnew. assert (Hh : f_hosts (put v h' ms w1) !! v = Some h') by apply lookup_insert_eq.
  destruct (flush hist _ fw v h' Hs Hh) as (wire & n' & S & Hs' & _ & _ & Hout).
  eexists. split; [exact S|]. split; [exact Hs'|]. split; cbn.
  - exists (mkHost n' (h_tm h') (h_alg h')). split; [by rewrite Eh, !insert_insert_eq|done].
  - exists ms. rewrite Ei. split; [done|]. split; [done|]. intros m Hm. destruct (Hms m Hm) as [Hqu Hp].
    split; [|by apply Hnew]. apply elem_of_app. right. apply Hout; [done|by rewrite Ep].
  - intros m Hm. apply elem_of_app. left. by apply Hwire.
Qed.

(** What a handler sends can reach the wire: the node transmits what it has
    queued, runs the handler, and transmits again. *)
Lemma speak size hist w fw v h f now order rand a' fx :
  sim hist w fw -> sized size w -> f_hosts w !! v = Some h -> local_handler alg op v f -> call_env now order h ->
  f (mkEnv v order now rand) (h_alg h) = Ret (tt, a', fx) ->
  zlen (sends fx) <= size -> zlen (f_issued w) + zlen (sends fx) < 2 ^ 32 ->
  exists w' fw', nsteps step 3 w w' /\ sim hist w' fw' /\ flow_step fw fw' /\ called w v now a' fx hist w'.
Proof.
  intros Hs Hsz Hh Hf [Hnow Hl] Ef Hroom Hk.
  destruct (flush hist w fw v h Hs Hh) as (wire & n1 & S1 & Hs1 & Ep1 & Eq1 & _).
  set (h1 := mkHost n1 (h_tm h) (h_alg h)) in *. set (w1 := mkFleet _ _ _) in *.
  assert (Hh1 : f_hosts w1 !! v = Some h1) by apply lookup_insert_eq.
  pose proof (step_sized size w w1 S1 Hsz v h1 Hh1) as Ecap.
  destruct (sim_hosts _ _ _ _ _ Hs1 v h1 Hh1) as [[Hok Hal Hid Hpeers _] _].
  assert (Henv : call_env now order h1) by (split; [done|cbn; by rewrite Ep1]).
  destruct (run_handler_room (zlen (f_issued w1)) f now order rand h1 a' fx) as (ms & h2 & E2 & Ea & Hi & Ep & Hq & Hms);
    try done; [by eapply local_polite|by unfold host_env; rewrite Hid|by rewrite Ecap|].
  rewrite Hid in Hq.
  destruct (sim_local alg ids op op_polite hist w1 fw v f h1 now order rand ms h2 Hs1 Hf Hh1 Henv E2)
    as (fw' & Hs2 & Hfs); [unfold zlen in *; by rewrite <- (Forall2_length _ _ _ Hq)|].
  destruct (flush_called hist w fw' w1 v h1 h2 ms now fx Hs2) as (w' & S3 & Hs3 & Hc); try done.
  { intros m Hm. cbn. apply elem_of_app. by left. }
  { intros m Hm. exact (issued_newest hist w1 fw v h1 (h_node h2) ms m Hs1 Hh1 Hi Hm). }
  exists w', fw'. rewrite <- Ea. split; [|done]. eapply nsteps_l; [exact S1|].
  eapply nsteps_l; [by eapply step_local|by apply nsteps_once].
Qed.

(** The router lets a new message through. *)
Lemma accepts_newest hist w fw m h now :
  sim hist w fw -> m ∈ f_wire w -> newest hist m -> f_hosts w !! To m = Some h -> IsExpired now m = false ->
  exists n, recv_msg now m (h_node h) = Ret (Some m, n).
Proof.
  intros Hs Hm Hnew Hh Hexp. destruct (sim_hosts _ _ _ _ _ Hs _ h Hh) as [_ Hrt].
  destruct (sim_issued _ _ _ _ _ Hs m (sim_wire _ _ _ _ _ Hs m Hm)) as [Hw _].
  destruct (Dispatch_spec now m _ _ Hrt Hw) as (vd & rt & Ed & _ & Hdel & _).
  assert (Hfresh : Router.fresh (stream_of (n_rt (h_node h)) (From m) (StreamID m)) (hist (To m) (From m) (StreamID m)) (Seq m)).
  { split; [intros Hin%Hnew; lia|]. intros Einit.
    assert (Hst : stream_inv (stream_of (n_rt (h_node h)) (From m) (StreamID m)) (hist (To m) (From m) (StreamID m)))
      by (apply Hrt, Hw).
    unfold stream_inv in Hst. rewrite Einit in Hst. destruct Hst as [Hhi%Hnew _]. unfold dedupWindowSize. lia. }
  destruct Hdel as [_ Hdel]. specialize (Hdel (conj Hexp Hfresh)) as ->.
  unfold recv_msg. rewrite Ed. by eexists.
Qed.

(** A new message on the wire can be received, and what its handler sends
    reaches the wire. *)
Lemma hear size hist w fw m h now order rand a' fx :
  sim hist w fw -> sized size w -> m ∈ f_wire w -> newest hist m -> f_hosts w !! To m = Some h ->
  call_env now order h -> IsExpired (now `div` 1000000) m = false ->
  alg_OnMessage alg m (mkEnv (To m) order now rand) (h_alg h) = Ret (tt, a', fx) ->
  zlen (sends fx) <= size -> zlen (f_issued w) + zlen (sends fx) < 2 ^ 32 ->
  exists w' fw' hist', nsteps step 3 w w' /\ sim hist' w' fw' /\ (fw' = fw \/ flow_step fw fw') /\
    called w (To m) now a' fx hist' w' /\ forall u, u <> To m -> hist' u = hist u.
Proof.
  intros Hs Hsz Hm Hnew Hh [Hnow Hl] Hexp Ef Hroom Hk.
  destruct (flush hist w fw (To m) h Hs Hh) as (wire & n1 & S1 & Hs1 & Ep1 & Eq1 & _).
  set (h1 := mkHost n1 (h_tm h) (h_alg h)) in *. set (w1 := mkFleet _ _ _) in *.
  assert (Hh1 : f_hosts w1 !! To m = Some h1) by apply lookup_insert_eq.
  assert (Hwire : forall x, x ∈ f_wire w -> x ∈ f_wire w1) by (intros x Hx; cbn; apply elem_of_app; by left).
  pose proof (step_sized size w w1 S1 Hsz (To m) h1 Hh1) as Ecap.
  destruct (sim_hosts _ _ _ _ _ Hs1 (To m) h1 Hh1) as [[Hok Hal Hid Hpeers _] _].
  destruct (accepts_newest hist w1 fw m h1 (now `div` 1000000) Hs1 (Hwire m Hm) Hnew Hh1 Hexp) as [n2 Er].
  destruct (recv_msg_frame _ _ _ _ _ Er) as (_ & Ei & Ep & Eq & Es). set (h2 := mkHost n2 (h_tm h1) (h_alg h1)).
  destruct (run_handler_room (zlen (f_issued w1)) (alg_OnMessage alg m) now order rand h2 a' fx)
    as (ms & h3 & E3 & Ea & Hi & Ep3 & Hq & Hms); try done.
  { apply law_OnMessage. }
  { by eapply recv_msg_host_ok. }
  { split; [done|]. cbn. rewrite Ep. cbn. by rewrite Ep1. }
  { unfold host_env. cbn. by rewrite Ei, Hid. }
  { cbn. by rewrite Eq. }
  { cbn. rewrite Eq. by rewrite Ecap. }
  change (n_id (h_node h2)) with (n_id n2) in Hq. rewrite Ei, Hid in Hq.
  assert (E : receive alg now order rand m h1 = Ret (ms, h3)) by (unfold receive; rewrite Er, bind_Ret; exact E3).
  assert (Henv : call_env now order h1) by (split; [done|cbn; by rewrite Ep1]).
  destruct (sim_arrive alg ids op hist w1 fw m h1 now order rand ms h3 Hs1 (Hwire m Hm) Hh1 Henv E)
    as (hist' & fw' & Hs' & Hfs & Hothers); [unfold zlen in *; by rewrite <- (Forall2_length _ _ _ Hq)|].
  destruct (flush_called hist' w fw' w1 (To m) h1 h3 ms now fx Hs') as (w' & S3 & Hs3 & Hc); try done.
  { rewrite Ep3. exact Ep. }
  { intros x Hx. rewrite <- Ep. by apply Hms. }
  { intros x Hx. unfold newest. rewrite Hothers.
    - apply (issued_newest hist w1 fw (To m) h1 (h_node h3) ms x Hs1 Hh1); [|done].
      unfold issued in *. change (h_node h2) with n2 in Hi. by rewrite Ei, Es in Hi.
    - destruct (Hms x Hx) as [_ Hget]. change (n_pm (h_node h2)) with (n_pm n2) in Hget. rewrite Ep in Hget.
      apply (elem_of_List (n_pm n1) (List (n_pm n1)) (To x) (Permutation_refl _)) in Hget.
      change (n_pm n1) with (n_pm (h_node h1)) in Hget. rewrite Hpeers in Hget. by apply list_elem_of_filter in Hget as [? _]. }
  exists w', fw', hist'. rewrite <- Ea. split; [|done]. eapply nsteps_l; [exact S1|].
  eapply nsteps_l; [exact (step_arrive alg op w1 m h1 now order rand ms h3 (Hwire m Hm) Hh1 Henv E)|by apply nsteps_once].
Qed.

End live.

(** Without calls of the application *)
Definition silent {St} (v : Z) (f : prog St unit) : Prop := False.

Lemma local_handler_mono {St} (alg : Algorithm St) (op op' : Z -> prog St unit -> Prop) v f :
  (forall v f, op v f -> op' v f) -> local_handler alg op v f -> local_handler alg op' v f.
Proof. intros Hop [|name|g Hg]; constructor. by apply Hop. Qed.

Lemma flow_event_mono {St} (alg : Algorithm St) (op op' : Z -> prog St unit -> Prop) fw v f net' :
  (forall v f, op v f -> op' v f) -> flow_event alg op fw v f net' -> flow_event alg op' fw v f net'.
Proof.
  intros Hop [m n1 n2 En|u g Hg]; [by apply fev_deliver|]. apply fev_local. by eapply local_handler_mono.
Qed.

Lemma flow_step_mono {St} (alg : Algorithm St) ids (op op' : Z -> prog St unit -> Prop) fw fw' :
  (forall v f, op v f -> op' v f) -> flow_step alg ids op fw fw' -> flow_step alg ids op' fw fw'.
Proof.
  intros Hop [v f net' e a a' fx ms Hev Ha He Ef Hq].
  apply (flow_step_handler alg ids op' fw v f net' e a a' fx ms); try done. by eapply flow_event_mono.
Qed.
