(* ===== verification/Agents.v ===== *)
(** Agents: the three algorithms as instances of the interface a node relies
    on, and a node that runs one of them. *)
From S2P Require Import Prelude Message SendQueue Router Peer Node Host.
From S2P Require Timer Raft Gossip GossipNet WeakNet.

(** Messages as the composite literals of the algorithms leave them. *)
Lemma literal_wf ty ttl pri now (pl : bytes) :
  is_uint 8 ty -> is_uint 16 ttl -> is_uint 8 pri -> is_int64 now ->
  msg_wf (mkMessage ty 0 0 0 now 0 0 ttl pri pl).
Proof. intros. unfold msg_wf, is_uint, is_int64 in *. cbn. lia. Qed.

Ltac constant := apply (bool_decide_unpack _); vm_compute; exact I.

(** * Raft *)
Section raft.
Context `{Raft.Json}.

Definition raft_algorithm : Algorithm Raft.Algorithm :=
  mkAlg _ Raft.Start Raft.Stop Raft.OnMessage Raft.OnTick.

Notation polite_raft := (polite (fun _ : Raft.Algorithm => True)).

Lemma consensusMsg_wf now ttl pri pl :
  is_uint 16 ttl -> is_uint 8 pri -> is_int64 now -> msg_wf (Raft.consensusMsg now ttl pri pl).
Proof. intros. by apply literal_wf. Qed.

Ltac raft_steps := polite; try done; try (apply consensusMsg_wf; [constant|constant|done]).

Lemma polite_resetElectionTimer : polite_raft Raft.resetElectionTimer.
Proof. unfold Raft.resetElectionTimer, Raft.Int63n. raft_steps. Qed.
#[local] Hint Resolve polite_resetElectionTimer : polite.

Lemma polite_stepDown term : polite_raft (Raft.stepDown term).
Proof. unfold Raft.stepDown. raft_steps. Qed.
#[local] Hint Resolve polite_stepDown : polite.

Lemma polite_sendAppendEntries p : polite_raft (Raft.sendAppendEntries p).
Proof. unfold Raft.sendAppendEntries. raft_steps. Qed.
#[local] Hint Resolve polite_sendAppendEntries : polite.

Lemma polite_broadcastAppendEntries : polite_raft Raft.broadcastAppendEntries.
Proof. unfold Raft.broadcastAppendEntries. raft_steps. Qed.
#[local] Hint Resolve polite_broadcastAppendEntries : polite.

Lemma polite_applyCommitted_loop n : polite_raft (Raft.applyCommitted_loop n).
Proof. induction n; cbn [Raft.applyCommitted_loop]; raft_steps. Qed.
#[local] Hint Resolve polite_applyCommitted_loop : polite.

Lemma polite_maybeCommit_loop n i : polite_raft (Raft.maybeCommit_loop n i).
Proof.
  revert i. induction n; intros i; cbn [Raft.maybeCommit_loop]; unfold Raft.applyCommitted; raft_steps.
Qed.
#[local] Hint Resolve polite_maybeCommit_loop : polite.

Lemma polite_becomeLeader : polite_raft Raft.becomeLeader.
Proof. unfold Raft.becomeLeader. raft_steps. Qed.
#[local] Hint Resolve polite_becomeLeader : polite.

#[export] Program Instance raft_lawful : LawfulAlgorithm raft_algorithm := {|
  alg_inv _ := True
|}.
Next Obligation. apply polite_resetElectionTimer. Qed.
Next Obligation. unfold raft_algorithm, Raft.Stop. cbn. raft_steps. Qed.
Next Obligation.
  intros m. cbn. unfold Raft.OnMessage, Raft.handleRequestVote, Raft.handleRequestVoteReply,
    Raft.handleAppendEntries, Raft.handleAppendReply, Raft.sendAppendReply, Raft.applyCommitted, Raft.maybeCommit. raft_steps.
Qed.
Next Obligation.
  intros name. cbn. unfold Raft.OnTick, Raft.startElection, Raft.sendToAll. raft_steps.
Qed.

Lemma polite_Propose command : polite_raft (Raft.Propose command).
Proof. unfold Raft.Propose. raft_steps. Qed.

End raft.

(** * Gossip *)
Section gossip.
Context `{Gossip.GossipJson}.

Definition gossip_algorithm : Algorithm Gossip.Algorithm :=
  mkAlg _ Gossip.Start Gossip.Stop Gossip.OnMessage Gossip.OnTick.

#[export] Program Instance gossip_lawful : LawfulAlgorithm gossip_algorithm := {|
  alg_inv _ := True
|}.
Next Obligation. cbn. unfold Gossip.Start. polite. Qed.
Next Obligation. cbn. unfold Gossip.Stop. polite. Qed.
Next Obligation. intros m. cbn. unfold Gossip.OnMessage. by polite. Qed.
Next Obligation.
  intros name. cbn. unfold Gossip.OnTick, Gossip.gossipRound. polite; try done; by apply literal_wf.
Qed.

End gossip.

(** * WeakNet: the messages it keeps for retransmission are well-formed *)
Section weaknet.
Context `{WeakNet.WeakJson}.

Definition weaknet_algorithm : Algorithm WeakNet.Algorithm :=
  mkAlg _ WeakNet.Start WeakNet.Stop WeakNet.OnMessage WeakNet.OnTick.

Definition pending_wf (a : WeakNet.Algorithm) : Prop :=
  map_Forall (fun _ pm => msg_wf (WeakNet.pm_msg pm)) (WeakNet.pending a).

Lemma getPeerStats_pending p a :
  WeakNet.pending (WeakNet.getPeerStats p a).2 = WeakNet.pending a.
Proof. unfold WeakNet.getPeerStats. by destruct (WeakNet.peers a !! p). Qed.

Lemma polite_sendPushPull p r : polite pending_wf (WeakNet.sendPushPull p r).
Proof.
  unfold WeakNet.sendPushPull. polite_step. polite_step. pose proof (getPeerStats_pending p s) as E.
  destruct (WeakNet.getPeerStats p s) as [ps a1]. cbn in E. polite.
  - intros _ _. unfold pending_wf. by rewrite E.
  - by apply literal_wf; [constant..|].
Qed.
#[local] Hint Resolve polite_sendPushPull : polite.

Lemma polite_handlePushPull from pp : polite pending_wf (WeakNet.handlePushPull from pp).
Proof.
  unfold WeakNet.handlePushPull. polite_step. polite_step.
  pose proof (getPeerStats_pending from (WeakNet.mergeState (iteration e) (WeakNet.pp_Delta pp) s).2) as E.
  change (WeakNet.pending (WeakNet.mergeState _ _ s).2) with (WeakNet.pending s) in E.
  destruct (WeakNet.mergeState _ _ s) as [v a1]. cbn [snd] in E.
  destruct (WeakNet.getPeerStats from a1) as [ps a2]. cbn in E. polite.
  intros _ _. unfold pending_wf. cbn. by rewrite E.
Qed.
#[local] Hint Resolve polite_handlePushPull : polite.

Lemma polite_retransmit_one sp :
  msg_wf (WeakNet.pm_msg sp.2) -> polite pending_wf (WeakNet.retransmit_one sp).
Proof.
  intros Hm. unfold WeakNet.retransmit_one. polite_step.
  assert (Hw : msg_wf (WeakNet.with_timestamp (UnixMilli e) (WeakNet.pm_msg sp.2))).
  { unfold msg_wf in *. cbn. tauto. }
  polite; try done; intros a Ha; unfold pending_wf; cbn.
  - by apply map_Forall_delete.
  - by apply map_Forall_insert_2.
Qed.

#[export] Program Instance weaknet_lawful : LawfulAlgorithm weaknet_algorithm := {|
  alg_inv := pending_wf
|}.
Next Obligation. cbn. unfold WeakNet.Start. polite. Qed.
Next Obligation. cbn. unfold WeakNet.Stop. polite. Qed.
Next Obligation.
  intros m. cbn. unfold WeakNet.OnMessage. polite.
  intros s Hs. by apply map_Forall_delete.
Qed.
Next Obligation.
  intros name. cbn. unfold WeakNet.OnTick, WeakNet.syncRound, WeakNet.retransmitCheck. polite; try done.
  apply polite_retransmit_one. destruct p as [seq pm]. cbn.
  lazymatch goal with Hw : pending_wf _ |- _ => apply (Hw seq) end.
  by eapply elem_of_shuffle_map.
Qed.

End weaknet.

(** * Witness: a node that runs the gossip algorithm and knows one peer *)

Definition gossip_node : Node :=
  mkNode 1 {[2 := mkPeer 2 "host:2"]} (mkQueue [] false 0 512) (NewRouter 1) None (replicate 256 0).
Definition gossip_host : Host Gossip.Algorithm :=
  mkHost gossip_node Timer.NewTimerManager GossipNet.set_once.

#[local] Existing Instance GossipNet.code_gossip_json.
Definition pushed_fx : list effect :=
  [ESend 2 (Gossip.gossipMsg 5 (default [] (Gossip.Marshal (Gossip.state GossipNet.set_once))))].

Lemma gossip_host_ok : host_ok 0 gossip_host.
Proof.
  split.
  - destruct (NewSendQueue_ok 512 ltac:(lia)) as (q & E & Hq & _). injection E as <-.
    split; [exact Hq|by split|done|done|]. apply Forall_replicate. lia.
  - apply Timer.tm_ok_new.
  - intros p [x Hx]. cbn in Hx. unfold Get in Hx. apply lookup_singleton_Some in Hx as [<- _]. by split.
Qed.

Lemma host_carries_out_handlers_witness :
  carried_out gossip_algorithm 0 5000000 GossipNet.set_once pushed_fx gossip_host
    (tick gossip_algorithm Gossip.timerGossip 5000000 [2] (fun _ => 0) gossip_host).
Proof.
  apply (host_carries_out_handlers gossip_algorithm 0 5000000 [2] (fun _ => 0) gossip_host).
  - exact I.
  - apply gossip_host_ok.
  - split; vm_compute; congruence.
  - vm_compute. reflexivity.
  - reflexivity.
  - vm_compute. reflexivity.
Defined.
