(* ===== verification/Cluster.v ===== *)
(** Cluster: Raft on whole nodes.

    [Stack] runs an algorithm on nodes with their queues, routers and timers,
    over a network that loses, repeats and reorders what they transmit, and
    shows that each of its steps is one of an abstract network of handlers.  For
    Raft, where applications propose commands, a step of that network is one of
    [RaftNet], which looks at less of a message; so what holds of every world
    of [RaftNet] holds of running nodes. *)
From S2P Require Import Prelude Message Heap SendQueue Router Peer Node Host Agents Stack.
From S2P Require Timer.
From S2P Require Import RaftLog.

(** * Definitions *)

(** What an application asks of Raft *)
Definition proposal `{Json} (v : Z) (f : cmd unit) : Prop := exists command, f = (Propose command;; mret tt).

Lemma polite_proposal `{Json} v f : proposal v f -> polite (alg_inv (alg := raft_algorithm)) f.
Proof.
  intros [command ->]. apply polite_bind; [apply polite_Propose|]. intros _. apply polite_ret.
Qed.

Abbreviation Cluster := (Fleet Algorithm).

Definition cstep `{Json} : Cluster -> Cluster -> Prop := Stack.step raft_algorithm proposal.

(** A cluster as [main] sets it up, in which sequence numbers have not wrapped. *)
Definition runs `{Json} (ids : list Z) (size : Z) (addr : Z -> string) (c : RaftConfig) (cb : bool)
    (n : nat) (w : Cluster) : Prop :=
  Stack.runs raft_algorithm ids proposal size addr (New c cb) n w.

(** * From the abstract network to [RaftNet] *)

(** What the algorithm sees of a message *)
Definition packet (m : WireMessage) : Z * Z * Z * bytes := (From m, To m, Type_ m, Payload m).

Lemma OnMessage_packet `{Json} m m' : packet m = packet m' -> OnMessage m = OnMessage m'.
Proof.
  intros E. rewrite !OnMessage_decode. unfold decode. injection E as E1 _ E2 E3.
  by rewrite E1, E2, E3.
Qed.

Lemma packets_match v now fx ms :
  Forall2 (queued_as v now) (sends fx) ms -> packet <$> packets v fx = packet <$> ms.
Proof.
  assert (E : packets v fx = (fun s : Z * WireMessage => address v s.1 s.2) <$> sends fx).
  { unfold packets, sends. induction fx as [|[] fx IH]; cbn; by rewrite ?IH. }
  rewrite E. generalize (sends fx). clear E. intros ss. induction 1 as [|s m ss ms [seq ->] _ IH]; [done|].
  rewrite !fmap_cons. by f_equal.
Qed.

Section raft.
Context `{Json} (ids : list Z).

#[local] Notation flow_step := (flow_step raft_algorithm ids proposal).
#[local] Notation flow_event := (flow_event raft_algorithm proposal).

Record world_of (fw : Flow Algorithm) (rw : World) : Prop := {
  wo_nodes : forall v, w_nodes rw !! v = fl_nodes fw !! v;
  wo_net : packet <$> w_net rw ≡ₚ packet <$> fl_net fw;
}.

(** The event in [RaftNet] that stands for one of the network *)
Lemma raft_event_of fw rw v f net' :
  world_of fw rw -> flow_event fw v f net' ->
  exists rnet delivered, event rw v f rnet delivered /\ packet <$> rnet ≡ₚ packet <$> net'.
Proof.
  intros Hw [m n1 n2 En|u g [|name|g' [command ->]]].
  - pose proof (wo_net _ _ Hw) as Hnet. rewrite En, fmap_app, fmap_cons, <- Permutation_middle in Hnet.
    assert (Hin : packet m ∈ packet <$> w_net rw) by (rewrite Hnet; left).
    apply list_elem_of_fmap in Hin as (m0 & Ep & (r1 & r2 & E)%list_elem_of_split).
    assert (To m0 = To m) as Et by (by injection Ep).
    exists (r1 ++ r2), (w_delivered rw ++ [m0]). split.
    + change (alg_OnMessage raft_algorithm m) with (OnMessage m).
      rewrite <- Et, (OnMessage_packet m m0 Ep). by constructor.
    + rewrite E, fmap_app, fmap_cons, <- Permutation_middle, <- Ep in Hnet.
      rewrite !fmap_app. by apply Permutation_cons_inv in Hnet.
  - exists (w_net rw), (w_delivered rw). split; [apply ev_start|apply Hw].
  - exists (w_net rw), (w_delivered rw). split; [apply ev_tick|apply Hw].
  - exists (w_net rw), (w_delivered rw). split; [apply ev_propose|apply Hw].
Qed.

Lemma raft_world_step fw fw' rw :
  world_of fw rw -> flow_step fw fw' -> exists rw', world_of fw' rw' /\ step ids rw rw'.
Proof.
  intros Hw [v f net' e a a' fx ms Hev Ha [Eid Hp _] Ef Hq].
  destruct (raft_event_of fw rw v f net' Hw Hev) as (rnet & delivered & Hev' & Hnet).
  exists (after v a' fx rnet delivered rw). split.
  - split; cbn.
    + intros u. destruct (decide (u = v)) as [->|Hne]; [by rewrite !lookup_insert_eq|].
      rewrite !lookup_insert_ne by done. apply Hw.
    + rewrite !fmap_app, Hnet. f_equiv. apply reflexive_eq. by eapply packets_match.
  - apply (step_handler ids rw v f rnet delivered e a a' fx); [done|by rewrite (wo_nodes _ _ Hw)|by split|done].
Qed.

Lemma raft_world_init c cb : world_of (flow_init ids (New c cb)) (init ids c cb).
Proof. split; [done|]. done. Qed.

(** A run of the cluster, a world it stands for, and how long it takes to get there *)
Lemma runs_world size addr c cb n w :
  runs ids size addr c cb n w ->
  exists hist fw rw k, sim raft_algorithm ids hist w fw /\ world_of fw rw /\ (k <= n)%nat /\ reach ids c cb k rw.
Proof.
  intros Hr. destruct (sim_runs raft_algorithm ids proposal polite_proposal size addr (New c cb) n w I Hr)
    as (hist & fw & k & Hs & Hle & Hf).
  destruct (flow_simulates raft_algorithm ids proposal world_of (step ids) raft_world_step k _ _ _ (raft_world_init c cb) Hf)
    as (rw & Hw & Hrw).
  by exists hist, fw, rw, k.
Qed.

Lemma steps_world hist n w fw rw w' :
  sim raft_algorithm ids hist w fw -> world_of fw rw -> nsteps cstep n w w' -> zlen (f_issued w') < 2 ^ 32 ->
  exists hist' fw' rw' k, sim raft_algorithm ids hist' w' fw' /\ world_of fw' rw' /\ (k <= n)%nat /\
    nsteps (step ids) k rw rw'.
Proof.
  intros Hs Hw Hn Hk.
  destruct (sim_steps raft_algorithm ids proposal polite_proposal n hist w fw w' Hs Hn Hk)
    as (hist' & fw' & k & Hs' & Hle & Hf).
  destruct (flow_simulates raft_algorithm ids proposal world_of (step ids) raft_world_step k _ _ _ Hw Hf)
    as (rw' & Hw' & Hrw).
  by exists hist', fw', rw', k.
Qed.

(** What every node has as its algorithm's state, in the cluster and in the
    network. *)
Definition same_algorithms (w : Cluster) (rw : World) : Prop :=
  forall v, w_nodes rw !! v = h_alg <$> f_hosts w !! v.

Lemma sim_world hist w fw rw : sim raft_algorithm ids hist w fw -> world_of fw rw -> same_algorithms w rw.
Proof. intros Hs Hw v. by rewrite (wo_nodes _ _ Hw), (sim_nodes _ _ _ _ _ Hs). Qed.

(** In a bounded world every handler returns. *)
Lemma raft_world_total fw rw k : world_of fw rw -> bounded ids k rw -> k < k_max -> all_return raft_algorithm ids proposal fw.
Proof.
  intros Hw Hb Hk v f net' e a Hev Ha [Eid Hp _].
  destruct (raft_event_of fw rw v f net' Hw Hev) as (rnet & delivered & Hev' & _).
  destruct (wp_total _ _ _ _ (event_keeps ids k rw v f rnet delivered e a Hb Hk Hev'
    ltac:(by rewrite (wo_nodes _ _ Hw)) ltac:(by split))) as ([] & a' & fx & Ef & _).
  by exists a', fx.
Qed.

End raft.

(** * Properties *)

(** C3: the stack implements the network Raft is proved on.  Whatever nodes that
    run Raft do in [n] steps, over a network that loses, repeats and reorders
    what they transmit, and whatever their queues evict and their routers
    refuse, the algorithms are in states that the network of [RaftNet], where
    every message is delivered at most once, reaches in at most [n] steps (as
    long as fewer than 2^32 messages were queued). *)
Theorem cluster_refines_raft `{Json} ids size addr c cb n w :
  runs ids size addr c cb n w ->
  exists rw k, (k <= n)%nat /\ reach ids c cb k rw /\ same_algorithms w rw.
Proof.
  intros Hr. destruct (runs_world ids size addr c cb n w Hr) as (hist & fw & rw & k & Hs & Hw & Hle & Hrw).
  exists rw, k. split; [done|]. split; [done|]. by eapply sim_world.
Qed.

Lemma steps_leaders `{Json} ids n w w' x : nsteps (step ids) n w w' -> x ∈ w_leaders w -> x ∈ w_leaders w'.
Proof.
  induction 1 as [|n w w1 w' Hs _ IH]; [done|]. intros Hx. apply IH. destruct Hs. cbn.
  apply elem_of_app. by left.
Qed.

(** The host runs the leader of the term [t]. *)
Definition leads_in (t v : Z) (w : Cluster) : Prop :=
  exists h, f_hosts w !! v = Some h /\ IsLeader (h_alg h) = true /\ currentTerm (h_alg h) = t.

Lemma leads_recorded `{Json} ids w rw t v :
  same_algorithms w rw -> einv ids rw -> leads_in t v w -> (t, v) ∈ w_leaders rw.
Proof.
  intros Hs Hi (h & Hh & Hl & <-). apply bool_decide_eq_true in Hl.
  apply (ei_leader ids rw Hi); [|done]. by rewrite Hs, Hh.
Qed.

(** C4: safety of running clusters.  With an odd number of nodes, two nodes that
    are leader of the same term, at the same time or one long after the other,
    are the same node, and two logs that hold an entry of the same term at the
    same index are the same up to it. *)
Theorem cluster_safety `{Json} ids size addr c cb n m w w' :
  0 ∉ ids -> Z.odd (zlen ids) = true -> cfg_ok c -> Z.of_nat (n + m) <= k_max ->
  runs ids size addr c cb n w -> nsteps cstep m w w' -> zlen (f_issued w') < 2 ^ 32 ->
  (forall t v v', leads_in t v w -> leads_in t v' w' -> v = v') /\
  (forall v1 v2 h1 h2 i, f_hosts w !! v1 = Some h1 -> f_hosts w !! v2 = Some h2 ->
     1 <= i <= zlen (log (h_alg h1)) -> i <= zlen (log (h_alg h2)) ->
     term_at (log (h_alg h1)) i = term_at (log (h_alg h2)) i ->
     take (Z.to_nat i) (log (h_alg h1)) = take (Z.to_nat i) (log (h_alg h2))).
Proof.
  intros Hpos Hodd Hc Hb Hr Hm Hk'. pose proof Hr as (Hnd & _).
  destruct (runs_world ids size addr c cb n w Hr) as (hist & fw & rw & k & Hs & Hw & Hle & Hrw).
  pose proof (sim_world ids hist w fw rw Hs Hw) as Hsame. split.
  - intros t v v' Hl Hl'.
    destruct (steps_world ids hist m w fw rw w' Hs Hw Hm Hk')
      as (hist' & fw' & rw' & k' & Hs' & Hw' & Hle' & Hrw').
    assert (Hr' : reach ids c cb (k + k') rw') by (by eapply nsteps_trans).
    apply (leaders_agree ids c cb (k + k') rw' t v v' Hnd Hpos Hodd Hc ltac:(lia) Hr').
    + apply (steps_leaders ids k' rw rw' _ Hrw'), (leads_recorded ids w); [done| |done].
      apply (einv_reach ids Hnd Hpos c cb k); [done|lia|done].
    + apply (leads_recorded ids w'); [by eapply sim_world| |done].
      apply (einv_reach ids Hnd Hpos c cb (k + k')); [done|lia|done].
  - intros v1 v2 h1 h2 i H1 H2 Hi1 Hi2.
    pose proof (linv_reach ids c cb Hnd Hpos Hodd Hc k rw ltac:(lia) Hrw) as Hi.
    assert (Hg : forall v h, f_hosts w !! v = Some h -> grounded (w_leader_logs rw) (log (h_alg h))).
    { intros v h Hh. eapply (li_nodes rw Hi). by rewrite Hsame, Hh. }
    apply (grounded_agree (w_leader_logs rw)); [apply Hi| | |lia..]; by eapply Hg.
Qed.

(** C6: a running node does not panic.  Whatever happened before in the cluster
    (fewer than 2^32 - 2 steps, with a sane configuration), a message the
    network delivers is refused by the router or its handler runs to its end,
    every local handler runs to its end, what they send is queued, and the send
    loop can always run. *)
Theorem cluster_never_panics `{Json} ids size addr c cb n w v h now order rand :
  cfg_ok c -> Z.of_nat n < k_max -> runs ids size addr c cb n w ->
  f_hosts w !! v = Some h -> call_env now order h ->
  unstuck raft_algorithm proposal w v h now order rand.
Proof.
  intros Hc Hb Hr Hh Henv. pose proof Hr as (Hnd & _).
  destruct (runs_world ids size addr c cb n w Hr) as (hist & fw & rw & k & Hs & Hw & Hle & Hrw).
  apply (sim_unstuck raft_algorithm ids proposal polite_proposal hist w fw v h now order rand Hs); [|done..].
  apply (raft_world_total ids fw rw (Z.of_nat k) Hw); [|lia]. by apply (bounded_reach ids c cb k rw); [..|lia|].
Qed.
