(* ===== verification/ClusterLive.v ===== *)
(** ClusterLive: Raft on whole nodes can always elect and serve.

    Nodes with their queues, routers and timers keep the promise of [Talk]: what
    a node can do in one step there takes three here, in which it transmits what
    it has queued, runs the handler, and transmits what that sent; and a message
    that is newer than what its receiver has accepted, and has just been sent,
    is neither refused nor expired. *)
From S2P Require Import Prelude Message Heap SendQueue Router Peer Node Host Agents Stack StackRun StackLive.
From S2P Require Timer.
From S2P Require Import RaftTalk RaftTraces RaftLive RaftCommit Cluster.

(** * What Raft sends *)

(** At most [n] messages, of this moment *)
Definition modest `{Json} {A} (e : Env) (n : Z) (f : cmd A) : Prop := forall a,
  wp True f e a (fun _ _ fx => zlen (sends fx) <= n /\ Forall (fun s => Timestamp s.2 = UnixMilli e) (sends fx)).

Section modest.
Context `{Json} (e : Env).

Lemma sends_app f1 f2 : sends (f1 ++ f2) = sends f1 ++ sends f2.
Proof. apply omap_app. Qed.

Lemma modest_none {A} n (f : cmd A) : 0 <= n ->
  (forall a, wp True f e a (fun _ _ fx => sends fx = [])) -> modest e n f.
Proof. intros Hn Hf a. eapply wp_mono; [apply Hf|]. intros x s fx ->. split; [done|constructor]. Qed.

Lemma modest_ret {A} n (x : A) : 0 <= n -> modest e n (mret x).
Proof. intros Hn. by apply modest_none. Qed.

Lemma modest_modify n f : 0 <= n -> modest e n (modify f).
Proof. intros Hn. by apply modest_none. Qed.

Lemma modest_lift {A} n (o : outcome A) : 0 <= n -> modest e n (lift o).
Proof. intros Hn. apply modest_none; [done|]. intros a. apply wp_lift. by destruct o. Qed.

Lemma modest_apply n i c : 0 <= n -> modest e n (emit (EApply i c)).
Proof. intros Hn. by apply modest_none. Qed.

Lemma modest_CancelTimer n name : 0 <= n -> modest e n (api_CancelTimer name).
Proof. intros Hn. by apply modest_none. Qed.

Lemma modest_SetTimer n name d : 0 <= n -> modest e n (api_SetTimer name d).
Proof. intros Hn. apply modest_none; [done|]. intros a. by apply wp_SetTimer. Qed.

Lemma modest_Send n to m : 1 <= n -> Timestamp m = UnixMilli e -> modest e n (api_Send to m).
Proof.
  intros Hn Ht a. apply wp_Send. unfold sends_to. case_decide; cbn; (split; [zlia|]); [|constructor].
  by repeat constructor.
Qed.

Lemma modest_bind {A B} n n1 n2 (m : cmd A) (k : A -> cmd B) :
  modest e n1 m -> (forall x, modest e n2 (k x)) -> n1 + n2 <= n -> modest e n (m ≫= k).
Proof.
  intros Hm Hk Hn a. apply wp_bind. eapply wp_mono; [apply Hm|]. intros x s1 f1 [L1 F1].
  eapply wp_mono; [apply Hk|]. cbn. intros y s2 f2 [L2 F2]. rewrite sends_app, zlen_app.
  split; [lia|]. by apply Forall_app.
Qed.

(** Of two parts, one sends. *)
Lemma modest_first {A B} n (m : cmd A) (k : A -> cmd B) :
  modest e n m -> (forall x, modest e 0 (k x)) -> modest e n (m ≫= k).
Proof. intros Hm Hk. eapply modest_bind; [exact Hm|exact Hk|lia]. Qed.

Lemma modest_then {A B} n (m : cmd A) (k : A -> cmd B) :
  modest e 0 m -> (forall x, modest e n (k x)) -> modest e n (m ≫= k).
Proof. intros Hm Hk. eapply modest_bind; [exact Hm|exact Hk|lia]. Qed.

Lemma modest_ask {B} n (k : Env -> cmd B) : modest e n (k e) -> modest e n (ask ≫= k).
Proof. intros Hk a. do 2 wp_step. apply Hk. Qed.

Lemma modest_get {B} n (k : Algorithm -> cmd B) : (forall s, modest e n (k s)) -> modest e n (get ≫= k).
Proof. intros Hk a. do 2 wp_step. apply Hk. Qed.

Lemma modest_weaken {A} n n' (f : cmd A) : modest e n f -> n <= n' -> modest e n' f.
Proof. intros Hf Hn a. eapply wp_mono; [apply Hf|]. cbn. intros x s fx [? ?]. split; [lia|done]. Qed.

Lemma modest_for_each {Y} n c (f : Y -> cmd unit) ps :
  (forall p, modest e c (f p)) -> c * zlen ps <= n -> modest e n (for_each f ps).
Proof.
  intros Hf. revert n. induction ps as [|p ps IH]; intros n Hn; cbn [for_each].
  { apply modest_ret. by rewrite zlen_nil, Z.mul_0_r in Hn. }
  rewrite zlen_cons in Hn. eapply modest_bind; [apply Hf|intros []; by apply IH|lia].
Qed.

End modest.

Ltac modest_step :=
  cbn beta iota zeta;
  lazymatch goal with
  | |- modest _ _ (mbind _ ask) => apply modest_ask
  | |- modest _ _ (mbind _ get) => apply modest_get; intros ?
  | |- modest _ _ (mbind _ (api_Send _ _)) => apply modest_first; [apply modest_Send|intros ?]
  | |- modest _ _ (mbind _ _) => apply modest_then; [|intros ?]
  | |- modest _ _ (mret _) => apply modest_ret
  | |- modest _ _ (lift _) => apply modest_lift
  | |- modest _ _ (modify _) => apply modest_modify
  | |- modest _ _ (emit (EApply _ _)) => apply modest_apply
  | |- modest _ _ (api_SetTimer _ _) => apply modest_SetTimer
  | |- modest _ _ (api_CancelTimer _) => apply modest_CancelTimer
  | |- modest _ _ (match ?b with _ => _ end) => destruct b
  end.
Create HintDb modest.
#[local] Hint Extern 1 (_ <= _) => lia : modest.
Ltac modest := repeat (modest_step || (progress auto with modest nocore)); try done; try lia.

Section raft.
Context `{Json} (e : Env).

Lemma modest_resetElectionTimer n : 0 <= n -> modest e n resetElectionTimer.
Proof. intros Hn. unfold resetElectionTimer, Int63n. modest. Qed.
#[local] Hint Resolve modest_resetElectionTimer : modest.

Lemma modest_stepDown n term : 0 <= n -> modest e n (stepDown term).
Proof. intros Hn. unfold stepDown. modest. Qed.
#[local] Hint Resolve modest_stepDown : modest.

Lemma modest_sendAppendEntries n p : 1 <= n -> modest e n (sendAppendEntries p).
Proof. intros Hn. unfold sendAppendEntries. modest. Qed.
#[local] Hint Resolve modest_sendAppendEntries : modest.

Lemma modest_sendAppendReply n to r : 1 <= n -> modest e n (sendAppendReply to r).
Proof. intros Hn. unfold sendAppendReply. modest. Qed.
#[local] Hint Resolve modest_sendAppendReply : modest.

Lemma modest_applyCommitted_loop fuel n : 0 <= n -> modest e n (applyCommitted_loop fuel).
Proof. intros Hn. induction fuel; cbn [applyCommitted_loop]; modest. Qed.

Lemma modest_applyCommitted n : 0 <= n -> modest e n applyCommitted.
Proof. intros Hn. unfold applyCommitted. modest_step. by apply modest_applyCommitted_loop. Qed.
#[local] Hint Resolve modest_applyCommitted : modest.

Lemma modest_maybeCommit n : 0 <= n -> modest e n maybeCommit.
Proof.
  intros Hn. unfold maybeCommit. modest_step. generalize (wrap 32 (zlen (log s))) at 2.
  induction (Z.to_nat _) as [|fuel IH]; intros i; cbn [maybeCommit_loop]; modest.
Qed.
#[local] Hint Resolve modest_maybeCommit : modest.

(** One message to each peer *)
Lemma modest_broadcast n : zlen (env_Peers e) <= n -> modest e n broadcastAppendEntries.
Proof.
  intros Hn. unfold broadcastAppendEntries. modest_step.
  apply (modest_for_each _ _ 1); [|lia]. intros p. by apply modest_sendAppendEntries.
Qed.
#[local] Hint Resolve modest_broadcast : modest.

Lemma modest_becomeLeader n : zlen (env_Peers e) <= n -> modest e n becomeLeader.
Proof.
  intros Hn. pose proof (zlen_nonneg (env_Peers e)). unfold becomeLeader. modest.
  apply (modest_for_each _ _ 0); [|lia]. intros p. modest.
Qed.
#[local] Hint Resolve modest_becomeLeader : modest.



End raft.

(** * Whole nodes keep the promise of [Talk] *)

(** A cluster, and the numbers its routers have accepted *)
Abbreviation Accepted := (Cluster * (Z -> history))%type.



Section talk.
Context `{Json} (ids : list Z) (size base limit : Z).
Hypothesis ids_NoDup : NoDup ids.
Hypothesis limit_small : limit <= k_max.
Hypothesis room : zlen ids <= size.
Hypothesis numbers_left : base + limit * zlen ids < 2 ^ 32.

#[local] Notation sim := (sim raft_algorithm ids).
#[local] Notation flow_step := (flow_step raft_algorithm ids proposal).










End talk.

(** * Properties *)







