(* ===== verification/ClusterTraces.v ===== *)
(** ClusterTraces: clusters of nodes that run Raft, executed.  A schedule elects
    a leader through the whole stack; it is the concrete instance of the
    theorems of [Cluster] and [ClusterLive]. *)
From stdpp Require Import countable.
From S2P Require Import Prelude Message Heap SendQueue Router Peer Node Host Agents Stack StackRun.
From S2P Require Import RaftLog RaftTraces RaftLive RaftCommit Cluster ClusterLive.
#[local] Open Scope Z_scope.

(** * A leader, through the whole stack *)

Definition trio : list Z := [1; 2; 3].
Definition trio_addr (v : Z) : string := "10.0.0.1:9000".

Definition trio_after (acts : list (fleet_action Algorithm)) : option Cluster :=
  run_from_boot raft_algorithm trio 16 trio_addr (New DefaultConfig true) acts.

(** Node 1 campaigns; its request reaches node 2, twice; the reply, also twice. *)
Definition campaign : list (fleet_action Algorithm) :=
  [Begin 1; Begin 2; TickAt 1 timerElection; Transmit 1; Arrive 0; Arrive 0; Arrive 1;
   Transmit 2; Transmit 3; Arrive 2; Arrive 2].

(** The leader replicates a command to node 2. *)
Definition replication : list (fleet_action Algorithm) :=
  [Transmit 1; CallAt 1 (Propose [Byte.x78];; mret tt); Transmit 1; Arrive 6].

Lemma campaign_allowed : Forall (allowed proposal) campaign.
Proof. by repeat constructor. Qed.
Lemma replication_allowed : Forall (allowed proposal) replication.
Proof. repeat constructor. by exists [Byte.x78]. Qed.

Lemma trio_runs acts (P : Cluster -> bool) :
  Forall (allowed proposal) acts ->
  match trio_after acts with Some w => few w && P w | None => false end = true ->
  exists w, runs trio 16 trio_addr DefaultConfig true (length acts) w /\ P w = true.
Proof.
  intros Hall HP. apply (schedule_runs raft_algorithm trio proposal 16 trio_addr); [..|done|done|exact HP];
    apply (bool_decide_unpack _); vm_compute; exact I.
Qed.

(** * Witnesses *)

Lemma cluster_refines_raft_witness :
  exists w rw k, leads_in 1 1 w /\ (k <= length campaign)%nat /\
    reach trio DefaultConfig true k rw /\ same_algorithms w rw.
Proof.
  destruct (trio_runs campaign (fun w => host_at 1 w (fun a => IsLeader a && (currentTerm a =? 1))))
    as (w & Hr & HP); [apply campaign_allowed|by vm_compute|].
  apply host_at_elim in HP as (h & Hh & [Hl Ht%Z.eqb_eq]%andb_prop).
  destruct (cluster_refines_raft trio 16 trio_addr DefaultConfig true _ w Hr) as (rw & k & H1 & H2 & H3).
  exists w, rw, k. split; [by exists h|]. done.
Defined.

Lemma cluster_safety_witness :
  exists w h1 h3, f_hosts w !! 1 = Some h1 /\ f_hosts w !! 3 = Some h3 /\
    leads_in 1 1 w /\ (forall v, leads_in 1 v w -> v = 1) /\
    term_at (log (h_alg h3)) 1 = 1 /\ take 1 (log (h_alg h1)) = take 1 (log (h_alg h3)).
Proof.
  destruct (trio_runs (campaign ++ replication) (fun w =>
    host_at 1 w (fun a => IsLeader a && (currentTerm a =? 1) && (zlen (log a) =? 1) && (term_at (log a) 1 =? 1)) &&
    host_at 3 w (fun a => (zlen (log a) =? 1) && (term_at (log a) 1 =? 1))))
    as (w & Hr & [H1 H3]%andb_prop);
    [apply Forall_app; split; [apply campaign_allowed|apply replication_allowed]|by vm_compute|].
  apply host_at_elim in H1 as (h1 & Hh1 & [[[Hl Ht%Z.eqb_eq]%andb_prop L1%Z.eqb_eq]%andb_prop T1%Z.eqb_eq]%andb_prop).
  apply host_at_elim in H3 as (h3 & Hh3 & [L3%Z.eqb_eq T3%Z.eqb_eq]%andb_prop).
  assert (Hlead : leads_in 1 1 w) by (by exists h1).
  destruct (cluster_safety trio 16 trio_addr DefaultConfig true (length (campaign ++ replication)) 0 w w)
    as [Hu Hm].
  - apply (bool_decide_unpack _). vm_compute. exact I.
  - reflexivity.
  - apply (bool_decide_unpack _). vm_compute. exact I.
  - vm_compute. discriminate.
  - exact Hr.
  - constructor.
  - apply Hr.
  - exists w, h1, h3. split_and!; try done.
    + intros v Hv. by apply (Hu 1).
    + apply (Hm 1 3 h1 h3 1 Hh1 Hh3); [by rewrite L1|by rewrite L3|by rewrite T1].
Defined.

Lemma cluster_never_panics_witness :
  exists w h, f_hosts w !! 1 = Some h /\ IsLeader (h_alg h) = true /\
    completes w (OnTick timerHeartbeat) 0 (List (n_pm (h_node h))) (fun _ => 0) h
      (run_handler (OnTick timerHeartbeat) 0 (List (n_pm (h_node h))) (fun _ => 0) h).
Proof.
  destruct (trio_runs campaign (fun w => host_at 1 w IsLeader)) as (w & Hr & HP); [apply campaign_allowed|by vm_compute|].
  apply host_at_elim in HP as (h & Hh & Hl). exists w, h. split; [done|]. split; [done|].
  refine (proj1 (proj2 (cluster_never_panics trio 16 trio_addr DefaultConfig true (length campaign) w 1 h
    0 (List (n_pm (h_node h))) (fun _ => 0) _ _ Hr Hh (env_at_0 h))) _ _).
  - apply (bool_decide_unpack _). vm_compute. exact I.
  - by vm_compute.
  - apply (local_tick raft_algorithm proposal 1 timerHeartbeat).
Defined.





