(* ===== verification/GossipCluster.v ===== *)
(** GossipCluster: gossip on whole nodes.

    The abstract network of [Stack] delivers what the nodes send at most once;
    [GossipNet] keeps every message and may repeat it.  So a step of the former
    is one of the latter, which looks at less of a message, and what holds of
    the worlds of [GossipNet] holds of running nodes. *)
From stdpp Require Import countable.
From S2P Require Import Prelude Message Heap SendQueue Router Peer Node Host Agents Stack StackRun.
From S2P Require Import GossipNet.
#[local] Open Scope Z_scope.

(** * Definitions *)

(** What an application asks of gossip: a key is set where it is owned. *)
Definition write `{GossipJson} (owner : string -> Z) (v : Z) (f : prog Algorithm unit) : Prop :=
  exists k value, owner k = v /\ ascii_string k = true /\ ascii_string value = true /\
    f = modify (SetKey k value).

Lemma polite_write `{GossipJson} owner v f :
  write owner v f -> polite (alg_inv (alg := gossip_algorithm)) f.
Proof. intros (k & value & _ & _ & _ & ->). by apply polite_modify. Qed.

(** A cluster in which sequence numbers have not wrapped *)
Definition gossip_runs `{GossipJson} (ids : list Z) (owner : string -> Z) (size : Z) (addr : Z -> string)
    (fo iv : Z) (n : nat) (w : Fleet Algorithm) : Prop :=
  runs gossip_algorithm ids (write owner) size addr (New fo iv) n w.

(** * From the abstract network to [GossipNet] *)

(** What the algorithm sees of a message *)
Definition gpacket (m : WireMessage) : Z * Z * Z * Z * bytes := (From m, To m, Type_ m, Seq m, Payload m).

Lemma OnMessage_gpacket `{GossipJson} m m' : gpacket m = gpacket m' -> OnMessage m = OnMessage m'.
Proof. intros E. injection E as E1 _ E2 E3 E4. unfold OnMessage. by rewrite E1, E2, E3, E4. Qed.

(** The numbers a node chose for what a handler sent *)
Lemma stamp_sends_match v now fx ms :
  Forall2 (queued_as v now) (sends fx) ms ->
  exists seqs, gpacket <$> stamp_sends v seqs fx = gpacket <$> ms.
Proof.
  assert (Hcons : forall seqs x fx, stamp_sends v seqs (x :: fx) =
    (match x with
     | ESend to m => [mkMessage (Type_ m) v to (seqs 0%nat) (Timestamp m) (DataTime m) (StreamID m)
                        (TTL m) (Priority m) (Payload m)]
     | _ => []
     end) ++ stamp_sends v (fun i => seqs (S i)) fx).
  { intros seqs x l. unfold stamp_sends. cbn [imap]. by destruct x. }
  revert ms. induction fx as [|x fx IH]; intros ms Hms.
  { inversion Hms; subst. by exists (fun _ => 0). }
  rewrite sends_cons in Hms. apply Forall2_app_inv_l in Hms as (ms1 & ms2 & H1 & H2 & ->).
  destruct (IH ms2 H2) as [seqs E]. unfold sends in H1.
  destruct x as [to m|name d|name|i c];
    try (apply Forall2_nil_inv_l in H1 as ->; exists (fun i => seqs (pred i)); rewrite Hcons; exact E).
  inversion H1 as [|? ? ? ? [seq ->] Hnil]; subst. inversion Hnil; subst.
  exists (fun i => match i with O => seq | S i => seqs i end). rewrite Hcons.
  change (fun i => seqs i) with seqs. cbn [app fmap list_fmap]. by rewrite <- E.
Qed.

Section gossip.
Context `{GossipJson} (ids : list Z) (owner : string -> Z).

#[local] Notation flow_step := (flow_step gossip_algorithm ids (write owner)).
#[local] Notation flow_event := (flow_event gossip_algorithm (write owner)).

Record world_of (fw : Flow Algorithm) (gw : World) : Prop := {
  wo_nodes : forall v, g_nodes gw !! v = fl_nodes fw !! v;
  wo_net : forall m, m ∈ fl_net fw -> m ∈ fl_sent fw;
  wo_sent : forall m, m ∈ fl_sent fw -> exists m', m' ∈ g_net gw /\ gpacket m' = gpacket m;
}.

(** What the world looks like after a handler that sent [ms] *)
Lemma gossip_world_after fw gw gw' v a' net' ms :
  world_of fw gw -> g_nodes gw' = <[v := a']> (g_nodes gw) ->
  (forall m, m ∈ net' -> m ∈ fl_net fw) ->
  (forall m, m ∈ g_net gw -> m ∈ g_net gw') ->
  (forall m, m ∈ ms -> exists m', m' ∈ g_net gw' /\ gpacket m' = gpacket m) ->
  world_of (mkFlow (<[v := a']> (fl_nodes fw)) (net' ++ ms) (fl_sent fw ++ ms)) gw'.
Proof.
  intros Hw En Hnet Hold Hnew. split; cbn.
  - intros u. rewrite En. destruct (decide (u = v)) as [->|Hne]; [by rewrite !lookup_insert_eq|].
    rewrite !lookup_insert_ne by done. apply Hw.
  - intros m [Hm|Hm]%elem_of_app; apply elem_of_app; [left|by right]. by apply (wo_net _ _ Hw), Hnet.
  - intros m [Hm|Hm]%elem_of_app; [|by apply Hnew].
    destruct (wo_sent _ _ Hw m Hm) as (m' & Hm' & E). exists m'. auto.
Qed.

Lemma gossip_event_net fw v f net' m : flow_event fw v f net' -> m ∈ net' -> m ∈ fl_net fw.
Proof.
  intros [m0 n1 n2 En|u g _]; [|done]. rewrite En, !elem_of_app, elem_of_cons. tauto.
Qed.

(** An event is one of [GossipNet], or a write. *)
Lemma gossip_event_of fw gw v f net' :
  world_of fw gw -> flow_event fw v f net' -> event gw v f \/ write owner v f.
Proof.
  intros Hw [m n1 n2 En|u g [|name|g' Hg]]; [left|left|left|by right].
  - destruct (wo_sent _ _ Hw m) as (m' & Hm' & E).
    { apply (wo_net _ _ Hw). rewrite En. apply elem_of_app. right. left. }
    assert (To m' = To m) as Et by (by injection E).
    change (alg_OnMessage gossip_algorithm m) with (OnMessage m).
    rewrite <- Et, <- (OnMessage_gpacket m' m E). by constructor.
  - apply ev_start.
  - apply ev_tick.
Qed.

(** A handler that an event runs *)
Lemma gossip_world_handler fw gw v net' e a' fx ms :
  world_of fw gw -> (forall m, m ∈ net' -> m ∈ fl_net fw) -> Forall2 (queued_as v (UnixMilli e)) (sends fx) ms ->
  exists seqs, world_of (mkFlow (<[v := a']> (fl_nodes fw)) (net' ++ ms) (fl_sent fw ++ ms))
    (mkWorld (<[v := a']> (g_nodes gw)) (g_net gw ++ stamp_sends v seqs fx) (g_writes gw)).
Proof.
  intros Hw Hnet Hq. destruct (stamp_sends_match v (UnixMilli e) fx ms Hq) as [seqs E]. exists seqs.
  apply (gossip_world_after fw gw); [done|done|done|cbn; intros; apply elem_of_app; by left|].
  intros m Hm. assert (Hin : gpacket m ∈ gpacket <$> stamp_sends v seqs fx).
  { rewrite E. apply list_elem_of_fmap. by exists m. }
  apply list_elem_of_fmap in Hin as (m' & Em & Hm'). exists m'. split; [|done].
  cbn. apply elem_of_app. by right.
Qed.

Lemma gossip_world_step fw fw' gw :
  world_of fw gw -> flow_step fw fw' -> exists gw', world_of fw' gw' /\ step ids owner gw gw'.
Proof.
  intros Hw [v f net' e a a' fx ms Hev Ha [Eid Hp _] Ef Hq].
  assert (Hnet : forall m, m ∈ net' -> m ∈ fl_net fw) by (intros m; by eapply gossip_event_net).
  rewrite <- (wo_nodes _ _ Hw) in Ha.
  destruct (gossip_event_of fw gw v f net' Hw Hev) as [Hev'|(k & value & <- & Hk & Hv & ->)].
  - destruct (gossip_world_handler fw gw v net' e a' fx ms Hw Hnet Hq) as [seqs Hw']. eexists.
    split; [exact Hw'|]. by apply (step_handler ids owner gw v f e a a' fx seqs).
  - unfold modify in Ef. injection Ef as <- <-. inversion Hq; subst. eexists. split.
    2: { by apply (step_set ids owner gw k value a). }
    apply (gossip_world_after fw gw); [done|done|done|done|]. by intros m ?%elem_of_nil.
Qed.

Lemma gossip_world_init fo iv : world_of (flow_init ids (New fo iv)) (init ids fo iv).
Proof. split; [done|..]; by intros m ?%elem_of_nil. Qed.

(** A run of the cluster, and a world it stands for *)
Lemma gossip_runs_world size addr fo iv n w :
  gossip_runs ids owner size addr fo iv n w ->
  exists hist fw gw k, sim gossip_algorithm ids hist w fw /\ world_of fw gw /\ (k <= n)%nat /\
    reach ids owner fo iv k gw.
Proof.
  intros Hr.
  destruct (sim_runs gossip_algorithm ids (write owner) (polite_write owner) size addr (New fo iv) n w I Hr)
    as (hist & fw & k & Hs & Hle & Hf).
  destruct (flow_simulates gossip_algorithm ids (write owner) world_of (step ids owner) gossip_world_step k _ _ _
    (gossip_world_init fo iv) Hf) as (gw & Hw & Hg).
  by exists hist, fw, gw, k.
Qed.

(** Every handler returns. *)
Lemma gossip_world_total fw gw n :
  NoDup ids -> world_of fw gw -> ginv ids owner n gw -> all_return gossip_algorithm ids (write owner) fw.
Proof.
  intros Hnd Hw Hi v f net' e a Hev Ha [Eid Hp _]. rewrite <- (wo_nodes _ _ Hw) in Ha.
  destruct (gossip_event_of fw gw v f net' Hw Hev) as [Hev'|(k & value & _ & _ & _ & ->)]; [|by do 2 eexists].
  destruct (gi_fanout _ _ _ _ Hi v a Ha).
  destruct (wp_total _ _ _ _ (event_gstep ids gw v f e a Hnd Hev' ltac:(done) ltac:(done) ltac:(by split)))
    as ([] & a' & fx & Ef & _).
  by exists a', fx.
Qed.

End gossip.

(** * Properties *)

(** C33: gossip on whole nodes.  Nodes with their queues, routers and timers
    gossip over a network that loses, repeats and reorders what they transmit,
    and applications write keys, each key at one node.  Then an entry's version
    determines it everywhere: nodes that hold a key in the same version hold
    the same value, and no node is ahead of the key's owner; and no node is
    stuck: an arrival is refused or handled, every tick and call is carried
    out, and the send loop can run. *)
Theorem gossip_cluster_versions `{GossipJson} ids owner size addr fo iv n w :
  gossip_runs ids owner size addr fo iv n w -> Z.of_nat n < 2 ^ 64 ->
  (forall v1 v2 h1 h2 k e1 e2, f_hosts w !! v1 = Some h1 -> f_hosts w !! v2 = Some h2 ->
     Get k (h_alg h1) = Some e1 -> Get k (h_alg h2) = Some e2 -> Version e1 = Version e2 -> e1 = e2) /\
  (forall v h k e, f_hosts w !! v = Some h -> Get k (h_alg h) = Some e ->
     exists ho o, f_hosts w !! owner k = Some ho /\ Get k (h_alg ho) = Some o /\ Version e <= Version o) /\
  (forall v h now order rand, f_hosts w !! v = Some h -> call_env now order h ->
     unstuck gossip_algorithm (write owner) w v h now order rand).
Proof.
  intros Hr Hn. pose proof Hr as (Hnd & _).
  destruct (gossip_runs_world ids owner size addr fo iv n w Hr) as (hist & fw & gw & k & Hs & Hw & Hle & Hg).
  pose proof (ginv_reach ids owner fo iv k gw Hnd ltac:(lia) Hg) as Hi.
  assert (Hsame : forall v, g_nodes gw !! v = h_alg <$> f_hosts w !! v).
  { intros v. by rewrite (wo_nodes _ _ Hw), (sim_nodes _ _ _ _ _ Hs). }
  assert (Hin : forall v h key e, f_hosts w !! v = Some h -> Get key (h_alg h) = Some e -> (key, e) ∈ g_writes gw).
  { intros v h key e Hh E. apply (gi_nodes _ _ _ _ Hi v (h_alg h)); [by rewrite Hsame, Hh|exact E]. }
  split_and!.
  - intros v1 v2 h1 h2 key e1 e2 H1 H2 E1 E2.
    apply (gi_unique _ _ _ _ Hi key); [by apply (Hin v1 h1)|by apply (Hin v2 h2)].
  - intros v h key e Hh E. destruct (gi_owner _ _ _ _ Hi key e (Hin v h key e Hh E)) as (a & o & Ha & Ho & Hle').
    rewrite Hsame in Ha. apply fmap_Some in Ha as (ho & Hho & ->). by exists ho, o.
  - intros v h now order rand Hh Henv.
    apply (sim_unstuck gossip_algorithm ids (write owner) (polite_write owner) hist w fw v h now order rand Hs);
      [|done..].
    by apply (gossip_world_total ids owner fw gw (Z.of_nat k)).
Qed.

(** * Witness: two nodes, through the whole stack *)

#[local] Existing Instance GossipNet.code_gossip_json.

(** Node 1 writes a key and gossips it; the message arrives twice. *)
Definition gossip_schedule : list (fleet_action Algorithm) :=
  [Begin 1; Begin 2; CallAt 1 (modify (SetKey "k" "v")); TickAt 1 timerGossip; Transmit 1; Arrive 0; Arrive 0].

Definition by_first (k : string) : Z := 1.

Lemma gossip_cluster_versions_witness :
  exists w h1 h2 e, f_hosts w !! 1 = Some h1 /\ f_hosts w !! 2 = Some h2 /\
    Get "k" (h_alg h2) = Some e /\
    (forall e1, Get "k" (h_alg h1) = Some e1 -> Version e1 = Version e -> e1 = e).
Proof.
  destruct (schedule_runs gossip_algorithm [1; 2] (write by_first) 16 (fun _ => "host:1") (New 3 0)
    gossip_schedule (fun w => host_at 2 w (fun a => bool_decide (is_Some (Get "k" a))) &&
                              host_at 1 w (fun a => true))) as (w & Hr & [H2 H1]%andb_prop).
  - apply (bool_decide_unpack _). vm_compute. exact I.
  - apply (bool_decide_unpack _). vm_compute. exact I.
  - done.
  - repeat constructor. by exists "k", "v".
  - by vm_compute.
  - apply host_at_elim in H2 as (h2 & Hh2 & [e He]%bool_decide_eq_true).
    apply host_at_elim in H1 as (h1 & Hh1 & _). exists w, h1, h2, e. split_and!; [done..|].
    intros e1 E1 Ev.
    by apply (proj1 (gossip_cluster_versions [1; 2] by_first 16 (fun _ => "host:1") 3 0 _ w Hr ltac:(vm_compute; reflexivity))
      1 2 h1 h2 "k" e1 e).
Defined.
