(* ===== verification/WeakCluster.v ===== *)
(** WeakCluster: weaknet on whole nodes.

    As for gossip, a step of the abstract network of [Stack] is one of
    [WeakNetNet], in which every message may be repeated; applications write
    keys and send critical messages, whose payload is their own. *)
From stdpp Require Import countable.
From S2P Require Import Prelude Message Heap SendQueue Router Peer Node Host Agents Stack StackRun.
From S2P Require Import WeakNetNet.
#[local] Open Scope Z_scope.

(** * Definitions *)

(** What an application asks of weaknet *)
Inductive request `{WeakJson} (v : Z) : prog Algorithm unit -> Prop :=
  | request_set k value : ascii_string k = true -> request v (modify (SetKey k value))
  | request_critical p pl : opaque pl -> request v (SendCritical p pl;; mret tt).

Lemma polite_request `{WeakJson} v f : request v f -> polite (alg_inv (alg := weaknet_algorithm)) f.
Proof.
  intros [k value _|p pl _]; [by apply polite_modify|]. unfold SendCritical.
  apply polite_bind; [|intros _; apply polite_ret]. polite; try done.
  intros a Ha. cbn in *. unfold pending_wf. cbn. apply map_Forall_insert_2; [|done].
  cbn. by apply literal_wf; [constant..|].
Qed.

(** A cluster in which sequence numbers have not wrapped *)
Definition weaknet_runs `{WeakJson} (ids : list Z) (size : Z) (addr : Z -> string) (c : Config)
    (n : nat) (w : Fleet Algorithm) : Prop :=
  runs weaknet_algorithm ids request size addr (New c) n w.

(** * From the abstract network to [WeakNetNet] *)

(** What the algorithm sees of a message *)
Definition wpacket (m : WireMessage) : Z * Z * bytes := (From m, To m, Payload m).

Lemma OnMessage_wpacket `{WeakJson} m m' : wpacket m = wpacket m' -> OnMessage m = OnMessage m'.
Proof. intros E. injection E as E1 _ E2. unfold OnMessage. by rewrite E1, E2. Qed.

(** What a handler sent, as it is kept with its sender's state *)
Lemma kept_sends_match v now st fx ms m :
  Forall2 (queued_as v now) (sends fx) ms -> m ∈ ms ->
  exists m', (m', st) ∈ kept_sends v st fx /\ wpacket m' = wpacket m.
Proof.
  intros Hq [i Hi]%list_elem_of_lookup.
  destruct (Forall2_lookup_r _ _ _ _ _ Hq Hi) as ([to m0] & Hs & [seq ->]).
  apply list_elem_of_lookup_2 in Hs. unfold sends in Hs. apply list_elem_of_omap in Hs as (x & Hx & E).
  destruct x as [to' m1| | |]; try done. injection E as -> ->.
  exists (address v to m0). split; [|done]. unfold kept_sends. apply list_elem_of_omap. by exists (ESend to m0).
Qed.

Section weaknet.
Context `{WeakJson} (ids : list Z).

#[local] Notation flow_step := (flow_step weaknet_algorithm ids request).
#[local] Notation flow_event := (flow_event weaknet_algorithm request).

Record world_of (fw : Flow Algorithm) (ww : World) : Prop := {
  wo_nodes : forall v, wn_nodes ww !! v = fl_nodes fw !! v;
  wo_net : forall m, m ∈ fl_net fw -> m ∈ fl_sent fw;
  wo_sent : forall m, m ∈ fl_sent fw -> exists m' st, (m', st) ∈ wn_net ww /\ wpacket m' = wpacket m;
}.

(** The world after a handler that sent [ms] *)
Lemma weaknet_world_after fw ww v a' fx now net' ms :
  world_of fw ww -> (forall m, m ∈ net' -> m ∈ fl_net fw) -> Forall2 (queued_as v now) (sends fx) ms ->
  world_of (mkFlow (<[v := a']> (fl_nodes fw)) (net' ++ ms) (fl_sent fw ++ ms))
           (mkWorld (<[v := a']> (wn_nodes ww)) (wn_net ww ++ kept_sends v (state a') fx)).
Proof.
  intros Hw Hnet Hq. split; cbn.
  - intros u. destruct (decide (u = v)) as [->|Hne]; [by rewrite !lookup_insert_eq|].
    rewrite !lookup_insert_ne by done. apply Hw.
  - intros m [Hm|Hm]%elem_of_app; apply elem_of_app; [left|by right]. by apply (wo_net _ _ Hw), Hnet.
  - intros m [Hm|Hm]%elem_of_app.
    + destruct (wo_sent _ _ Hw m Hm) as (m' & st & Hm' & E). exists m', st. split; [|done].
      apply elem_of_app. by left.
    + destruct (kept_sends_match v now (state a') fx ms m Hq Hm) as (m' & Hm' & E).
      exists m', (state a'). split; [|done]. apply elem_of_app. by right.
Qed.

Lemma weaknet_event_net fw v f net' m : flow_event fw v f net' -> m ∈ net' -> m ∈ fl_net fw.
Proof.
  intros [m0 n1 n2 En|u g _]; [|done]. rewrite En, !elem_of_app, elem_of_cons. tauto.
Qed.

(** An event is one of [WeakNetNet], or a request. *)
Lemma weaknet_event_of fw ww v f net' :
  world_of fw ww -> flow_event fw v f net' -> event ww v f \/ request v f.
Proof.
  intros Hw [m n1 n2 En|u g [|name|g' Hg]]; [left|left|left|by right].
  - destruct (wo_sent _ _ Hw m) as (m' & st & Hm' & E).
    { apply (wo_net _ _ Hw). rewrite En. apply elem_of_app. right. left. }
    assert (To m' = To m) as Et by (by injection E).
    change (alg_OnMessage weaknet_algorithm m) with (OnMessage m).
    rewrite <- Et, <- (OnMessage_wpacket m' m E). by apply (ev_deliver ww m' st).
  - apply ev_start.
  - apply ev_tick.
Qed.

Lemma bind_ret_inv (A : Type) (p : prog Algorithm A) e a a' fx :
  (p;; mret tt) e a = Ret (tt, a', fx) -> exists x, p e a = Ret (x, a', fx).
Proof.
  unfold mbind, prog_bind. destruct (p e a) as [[[x b] gx]|]; [|done]. cbn.
  intros [= -> E]. rewrite app_nil_r in E. subst. by exists x.
Qed.

Lemma weaknet_world_step fw fw' ww :
  world_of fw ww -> flow_step fw fw' -> exists ww', world_of fw' ww' /\ step ids ww ww'.
Proof.
  intros Hw [v f net' e a a' fx ms Hev Ha [Eid Hp _] Ef Hq].
  assert (Hnet : forall m, m ∈ net' -> m ∈ fl_net fw) by (intros m; by eapply weaknet_event_net).
  rewrite <- (wo_nodes _ _ Hw) in Ha. eexists. split; [by eapply weaknet_world_after|].
  destruct (weaknet_event_of fw ww v f net' Hw Hev) as [Hev'|Hreq];
    [by apply (step_handler ids ww v f e a a' fx)|].
  clear Hev. destruct Hreq as [k value Hk|p pl Hop].
  - unfold modify in Ef. injection Ef as <- <-. cbn. rewrite app_nil_r. by apply step_set.
  - apply bind_ret_inv in Ef as [ok Ef]. by apply (step_critical ids ww v p pl e a ok a' fx).
Qed.

Lemma weaknet_world_init c : world_of (flow_init ids (New c)) (init ids c).
Proof. split; [done|..]; by intros m ?%elem_of_nil. Qed.

(** A run of the cluster, and a world it stands for *)
Lemma weaknet_runs_world size addr c n w :
  weaknet_runs ids size addr c n w ->
  exists hist fw ww k, sim weaknet_algorithm ids hist w fw /\ world_of fw ww /\ (k <= n)%nat /\
    reach ids c k ww.
Proof.
  intros Hr.
  destruct (sim_runs weaknet_algorithm ids request polite_request size addr (New c) n w)
    as (hist & fw & k & Hs & Hle & Hf); [by apply map_Forall_empty|done|].
  destruct (flow_simulates weaknet_algorithm ids request world_of (step ids) weaknet_world_step k _ _ _
    (weaknet_world_init c) Hf) as (ww & Hw & Hg).
  by exists hist, fw, ww, k.
Qed.

(** Every handler returns. *)
Lemma weaknet_world_total fw ww n :
  NoDup ids -> world_of fw ww -> winv n ww -> all_return weaknet_algorithm ids request fw.
Proof.
  intros Hnd Hw Hi v f net' e a Hev Ha [Eid Hp _]. rewrite <- (wo_nodes _ _ Hw) in Ha.
  destruct (weaknet_event_of fw ww v f net' Hw Hev) as [Hev'|[k value _|p pl Hop]]; [|by do 2 eexists|].
  - destruct (wp_total _ _ _ _ (event_wstep ids n ww v f e a Hnd Hi Hev' Ha ltac:(by split)))
      as ([] & a' & fx & Ef & _). by exists a', fx.
  - destruct (wp_total _ _ _ _ (SendCritical_wstep n p pl e a (wi_nodes _ _ Hi v a Ha) Hop))
      as (ok & a' & fx & Ef & _). exists a', (fx ++ []). unfold mbind, prog_bind. by rewrite Ef.
Qed.

End weaknet.

(** * Properties *)

(** C36: weaknet on whole nodes acknowledges nothing.  Nodes with their queues,
    routers and timers exchange their states over a network that loses, repeats
    and reorders what they transmit, and applications write keys and send
    critical messages whose payload is not taken for one of the algorithm's own
    ([opaque]: it does not unmarshal as an envelope of kind 1 or 2).  No message that any node ever queued is an
    acknowledgement, and none carries a known version; a critical message stays
    in the retransmission buffer, whatever arrives and whichever timer ticks,
    until its deadline has passed; and no node is stuck. *)
Theorem weaknet_cluster_never_acks `{WeakJson} ids size addr c n w :
  weaknet_runs ids size addr c n w -> cfg_ok c -> Z.of_nat n < 2 ^ 64 ->
  (forall m, m ∈ f_issued w -> Unmarshal_envelope (Payload m) <> Some kindAck /\
     forall pp, Unmarshal_envelope (Payload m) = Some kindPushPull -> Unmarshal_pushPull (Payload m) = Some pp ->
       pp_KnownVer pp = 0) /\
  (forall v h, f_hosts w !! v = Some h ->
     (forall p ps, peers (h_alg h) !! p = Some ps -> knownVer ps = 0) /\
     forall f now order rand, call_env now order h ->
       (exists name, f = OnTick name) \/ (exists m, m ∈ f_wire w /\ To m = v /\ f = OnMessage m) ->
       exists a' fx, f (host_env h now order rand) (h_alg h) = Ret (tt, a', fx) /\ retains now (h_alg h) a') /\
  (forall v h now order rand, f_hosts w !! v = Some h -> call_env now order h ->
     unstuck weaknet_algorithm request w v h now order rand).
Proof.
  intros Hr Hc Hn. pose proof Hr as (Hnd & _).
  destruct (weaknet_runs_world ids size addr c n w Hr) as (hist & fw & ww & k & Hs & Hw & Hle & Hg).
  pose proof (winv_reach ids c k ww Hnd Hc ltac:(lia) Hg) as Hi.
  assert (Hhost : forall v h, f_hosts w !! v = Some h -> wn_nodes ww !! v = Some (h_alg h)).
  { intros v h Hh. by rewrite (wo_nodes _ _ Hw), (sim_nodes _ _ _ _ _ Hs), Hh. }
  assert (Hmsg : forall m, m ∈ f_issued w -> exists m' st, (m', st) ∈ wn_net ww /\ wpacket m' = wpacket m).
  { intros m Hm. apply (wo_sent _ _ Hw). by rewrite (sim_sent _ _ _ _ _ Hs). }
  split_and!.
  - intros m Hm. destruct (Hmsg m Hm) as (m' & st & Hm' & E).
    assert (Ep : Payload m = Payload m') by (by injection E). rewrite Ep.
    destruct (wi_net _ _ Hi _ Hm') as [Hop|[(_ & Hk & pp & Hpp & Hgp & _) _]]; cbn [fst] in *.
    + split; [intros E'|intros pp E' _]; by destruct (Hop _ E').
    + rewrite Hk. split; [done|]. intros pp' _ E'. rewrite Hpp in E'. injection E' as <-. apply Hgp.
  - intros v h Hh. pose proof (Hhost v h Hh) as Ha. split.
    { intros p ps. apply (gd_known (h_alg h)), (ni_good _ _ (wi_nodes _ _ Hi v _ Ha)). }
    intros f now order rand Henv Hf. destruct (sim_hosts _ _ _ _ _ Hs v h Hh) as [Hhi _].
    destruct (flow_env_host _ _ _ _ _ now order rand Hhi Henv) as [Eid Hp _].
    assert (Hev : event ww v f).
    { destruct Hf as [[name ->]|(m & Hm & <- & ->)]; [constructor|].
      destruct (Hmsg m (sim_wire _ _ _ _ _ Hs m Hm)) as (m' & st & Hm' & E).
      assert (To m' = To m) as <- by (by injection E). rewrite <- (OnMessage_wpacket m' m E).
      by apply (ev_deliver ww m' st). }
    destruct (wp_total _ _ _ _ (event_wstep ids (Z.of_nat k) ww v f (host_env h now order rand) (h_alg h)
      Hnd Hi Hev Ha ltac:(by split))) as ([] & a' & fx & Ef & _ & Hret & _).
    by exists a', fx.
  - intros v h now order rand Hh Henv.
    apply (sim_unstuck weaknet_algorithm ids request polite_request hist w fw v h now order rand Hs); [|done..].
    by apply (weaknet_world_total ids fw ww (Z.of_nat k)).
Qed.

(** * Witness: two nodes, through the whole stack *)

Definition plain_payload : bytes := [Byte.x00].

(** Node 1 sends a critical message and pushes its state to node 2. *)
Definition weaknet_schedule : list (fleet_action Algorithm) :=
  [Begin 1; Begin 2; CallAt 1 (modify (SetKey "k" [Byte.x01]));
   CallAt 1 (SendCritical 2 plain_payload;; mret tt); TickAt 1 timerSync; Transmit 1; Arrive 0; Arrive 1; Arrive 1].

Lemma weaknet_cluster_never_acks_witness :
  exists w h1 seq pm, f_hosts w !! 1 = Some h1 /\ pending (h_alg h1) !! seq = Some pm /\
    (forall m, m ∈ f_issued w -> Unmarshal_envelope (Payload m) <> Some kindAck) /\
    exists a' fx, OnTick timerRetx (host_env h1 0 (List (n_pm (h_node h1))) (fun _ => 0)) (h_alg h1) = Ret (tt, a', fx) /\
      retains 0 (h_alg h1) a'.
Proof.
  destruct (schedule_runs weaknet_algorithm pair_ids request 16 (fun _ => "host:1") (New DefaultConfig)
    weaknet_schedule (fun w => host_at 1 w (fun a => bool_decide (is_Some (pending a !! 0))) &&
                               host_at 2 w (fun a => bool_decide (is_Some (Get "k" a))))) as (w & Hr & [H1 H2]%andb_prop).
  - apply pair_ids_ok.
  - apply (bool_decide_unpack _). vm_compute. exact I.
  - done.
  - by repeat constructor.
  - by vm_compute.
  - apply host_at_elim in H1 as (h1 & Hh1 & [pm Hpm]%bool_decide_eq_true). exists w, h1, 0, pm.
    destruct (weaknet_cluster_never_acks pair_ids 16 (fun _ => "host:1") DefaultConfig _ w Hr (proj2 pair_ids_ok)
      ltac:(vm_compute; reflexivity)) as (Hack & Hh & _).
    split_and!; [done|done|by apply Hack|].
    apply (proj2 (Hh 1 h1 Hh1)); [apply env_at_0|left]. by exists timerRetx.
Defined.
