(* ===== verification/GossipLive.v ===== *)
(** GossipLive: gossip can always converge.  From every state a cluster can
    reach there is a continuation, in which nodes only tick and receive, after
    which every node holds every entry in its latest version; so no schedule of
    losses, repetitions and reorderings makes convergence impossible. *)
From stdpp Require Import countable.
From S2P Require Export GossipNet.
#[local] Open Scope Z_scope.

(** * A draw that samples a given peer *)

(** Draw 0 at step [i0] and the step's own number elsewhere. *)
Definition pick (pos i0 : nat) (p : nat) : Z := if decide ((p - pos)%nat = i0) then 0 else Z.of_nat (p - pos).

Lemma Perm_loop_pick pos i0 todo i m :
  length m = i -> (i0 < i)%nat /\ m !! 0%nat = Some i0 \/ (i <= i0 < i + todo)%nat ->
  Perm_loop (pick pos i0) (pos + i) todo i m !! 0%nat = Some i0.
Proof.
  revert i m. induction todo as [|todo IH]; intros i m Hl Hcase; cbn [Perm_loop].
  { destruct Hcase as [[_ ?]|?]; [done|lia]. }
  assert (Hj : Z.to_nat (pick pos i0 (pos + i) `mod` Z.of_nat (S i)) = if decide (i = i0) then 0%nat else i).
  { unfold pick. replace (pos + i - pos)%nat with i by lia. case_decide; [by rewrite Z.mod_0_l by lia|].
    rewrite Z.mod_small by lia. lia. }
  rewrite Hj, <- Nat.add_succ_r. apply IH; [rewrite length_insert, length_app; cbn; lia|].
  destruct (decide (i = i0)) as [->|Hi].
  - left. split; [lia|]. rewrite list_lookup_insert_eq; [done|]. rewrite length_app. cbn. lia.
  - destruct Hcase as [[Hlt Hm]|Hin]; [left|right; lia]. split; [lia|].
    rewrite list_lookup_insert_ne by lia. by apply lookup_app_l_Some.
Qed.

(** With a fanout of at least one, any peer may be among the targets. *)
Lemma sampleN_hits pos peers n p :
  p ∈ peers -> NoDup peers -> 0 < n ->
  exists draw targets pos', sampleN draw pos peers n = Ret (targets, pos') /\ p ∈ targets /\ targets ⊆ peers /\
    zlen targets <= zlen peers.
Proof.
  intros [i0 Hi0]%list_elem_of_lookup Hnd Hn. pose proof (lookup_lt_Some _ _ _ Hi0) as Hl.
  destruct (sampleN_spec (pick pos i0) pos peers n Hnd ltac:(lia)) as (targets & pos' & E & _ & Hsub & Hlen).
  exists (pick pos i0), targets, pos'. split; [done|]. split; [|split; [done|lia]].
  unfold sampleN in E. destruct (zlen peers <=? n).
  { injection E as <- <-. by eapply list_elem_of_lookup_2. }
  destruct (Z.ltb_spec n 0); [lia|]. injection E as <- <-.
  apply list_elem_of_fmap. exists i0. split; [by rewrite Hi0|].
  apply (list_elem_of_lookup_2 _ 0%nat). rewrite lookup_take_lt by lia.
  unfold Perm. rewrite <- (Nat.add_0_r pos) at 2. apply Perm_loop_pick; [done|]. right. lia.
Qed.

(** * Collecting what everyone holds *)

(** [s] holds every entry of [t], perhaps in a later version. *)
Definition covers (s t : State) : Prop := forall k x, t !! k = Some x ->
  exists y, s !! k = Some y /\ Version x <= Version y.

#[export] Instance covers_preorder : PreOrder covers.
Proof.
  split.
  - intros s k x E. exists x. split; [done|lia].
  - intros s t u H1 H2 k x (y & Ey & ?)%H2. destruct (H1 k y Ey) as (z & Ez & ?). exists z. split; [done|lia].
Qed.

Lemma covers_join s t : covers (join_state s t) s /\ covers (join_state s t) t.
Proof.
  split; intros k x E; rewrite lookup_join, E.
  - destruct (t !! k) as [y|]; eexists; (split; [done|]); [apply newer_ge|lia].
  - destruct (s !! k) as [y|]; eexists; (split; [done|]); [apply newer_ge_r|lia].
Qed.

(** The nodes other than [v] keep their replicated states. *)
Definition others_keep (v : Z) (ns ns' : gmap Z Algorithm) : Prop := forall x c, x <> v -> ns !! x = Some c ->
  exists c', ns' !! x = Some c' /\ state c' = state c.

(** Systems in which a node can pull the state of another, each time at a cost:
    [inv b] says that [b] is left to spend. *)
Section pulls.
Context {X : Type} (nodes : X -> gmap Z Algorithm) (ids : list Z) (inv : Z -> X -> Prop)
  (moves : relation X) `{!PreOrder moves} (cost : Z).
Hypothesis cost_nonneg : 0 <= cost.
Hypothesis inv_dom : forall b x, inv b x -> forall v, is_Some (nodes x !! v) <-> v ∈ ids.
Hypothesis inv_weaken : forall b b' x, inv b x -> b' <= b -> inv b' x.
Hypothesis pull : forall b x v u a c, 0 <= b -> inv (b + cost) x -> u <> v ->
  nodes x !! v = Some a -> nodes x !! u = Some c ->
  exists x' a', moves x x' /\ inv b x' /\ nodes x' !! v = Some a' /\
    state a' = join_state (state a) (state c) /\ others_keep v (nodes x) (nodes x').

Lemma collect b x v a (us : list Z) :
  0 <= b -> inv (b + zlen us * cost) x -> v ∉ us -> nodes x !! v = Some a ->
  exists x' a', moves x x' /\ inv b x' /\ nodes x' !! v = Some a' /\ covers (state a') (state a) /\
    (forall u c, u ∈ us -> nodes x !! u = Some c -> covers (state a') (state c)) /\
    others_keep v (nodes x) (nodes x').
Proof.
  intros Hb. revert x a. induction us as [|u us IH]; intros x a Hi Hv Ha.
  { exists x, a. split; [done|]. split; [by eapply inv_weaken; [exact Hi|zlia]|]. split; [done|]. split; [done|].
    split; [by intros u c ?%elem_of_nil|]. intros y c _ Hc. by exists c. }
  apply not_elem_of_cons in Hv as [Hne Hv]. rewrite zlen_cons in Hi. pose proof (zlen_nonneg us).
  destruct (nodes x !! u) as [c|] eqn:Hc.
  2: { destruct (IH x a) as (x' & a' & Hm & Hi' & Ha' & H1 & H2 & H3); [eapply inv_weaken; [exact Hi|nia]|done..|].
       exists x', a'. split_and!; try done. intros y d [->|Hy]%elem_of_cons Hd; [congruence|by apply (H2 y)]. }
  destruct (pull (b + zlen us * cost) x v u a c) as (x1 & a1 & Hm1 & Hi1 & Ha1 & Es & Hk1); try done; [nia| |].
  { eapply inv_weaken; [exact Hi|nia]. }
  destruct (IH x1 a1 Hi1 Hv Ha1) as (x' & a' & Hm & Hi' & Ha' & Hca & Hcu & Hk).
  destruct (covers_join (state a) (state c)) as [Hja Hjc]. rewrite <- Es in Hja, Hjc.
  exists x', a'. split; [by etrans|]. split; [done|]. split; [done|]. split; [by etrans|]. split.
  - intros y d [->|Hy]%elem_of_cons Hd; [rewrite Hc in Hd; injection Hd as <-; by etrans|].
    assert (Hyv : y <> v) by (by intros ->). destruct (Hk1 y d Hyv Hd) as (d1 & Hd1 & <-). by apply (Hcu y).
  - intros y d Hy Hd. destruct (Hk1 y d Hy Hd) as (d1 & Hd1 & <-). by apply Hk.
Qed.

(** The nodes of [vs], one after the other, collect from all. *)
Lemma collect_everywhere b x (vs : list Z) :
  0 <= b -> inv (b + zlen vs * (zlen ids * cost)) x ->
  exists x', moves x x' /\ inv b x' /\
    (forall v a u c, v ∈ vs -> nodes x' !! v = Some a -> nodes x !! u = Some c -> covers (state a) (state c)) /\
    (forall u c, nodes x !! u = Some c -> exists c', nodes x' !! u = Some c' /\ covers (state c') (state c)).
Proof.
  pose proof (zlen_nonneg ids). assert (Hcost : 0 <= zlen ids * cost) by nia.
  revert b x. induction vs as [|v vs IH]; intros b x Hb Hi.
  { exists x. split; [done|]. split; [eapply inv_weaken; [exact Hi|zlia]|].
    split; [by intros v a u c ?%elem_of_nil|]. intros u c Hu. by exists c. }
  rewrite zlen_cons in Hi. destruct (IH (b + zlen ids * cost) x) as (x1 & Hm1 & Hi1 & Hc1 & Hg1); [lia|..].
  { eapply inv_weaken; [exact Hi|lia]. }
  set (us := filter (fun u => u <> v) ids). pose proof (length_filter (fun u => u <> v) ids) as Hlen.
  destruct (nodes x1 !! v) as [a|] eqn:Ha.
  2: { exists x1. split; [done|]. split; [eapply inv_weaken; [exact Hi1|lia]|]. split; [|done].
       intros y d u c [->|Hy]%elem_of_cons Hd; [congruence|by apply (Hc1 y)]. }
  destruct (collect b x1 v a us Hb) as (x' & a' & Hm & Hi' & Ha' & Hca & Hcu & Hk); [|by intros [? _]%list_elem_of_filter|done|].
  { eapply inv_weaken; [exact Hi1|]. apply Z.add_le_mono_l, Z.mul_le_mono_nonneg_r; [done|]. unfold zlen. fold us in Hlen. lia. }
  assert (Hcov : forall u c, nodes x1 !! u = Some c -> covers (state a') (state c)).
  { intros u c Hu. destruct (decide (u = v)) as [->|Hne]; [rewrite Ha in Hu; by injection Hu as <-|].
    apply (Hcu u); [|done]. apply list_elem_of_filter. split; [done|]. apply (inv_dom _ _ Hi1). eauto. }
  exists x'. split; [by etrans|]. split; [done|]. split.
  - intros y d u c Hy Hd Hu. destruct (Hg1 u c Hu) as (c1 & Hu1 & Hle1). destruct (decide (y = v)) as [->|Hne].
    + rewrite Ha' in Hd. injection Hd as <-. etrans; [by apply (Hcov u)|done].
    + assert (Hy1 : is_Some (nodes x1 !! y)) by (apply (inv_dom _ _ Hi1), (inv_dom _ _ Hi'); eauto).
      destruct Hy1 as [d1 Hd1]. destruct (Hk y d1 Hne Hd1) as (d' & Hd' & E). rewrite Hd in Hd'.
      injection Hd' as <-. rewrite E. apply elem_of_cons in Hy as [->|Hy]; [done|]. by apply (Hc1 y d1 u).
  - intros u c Hu. destruct (Hg1 u c Hu) as (c1 & Hu1 & Hle1). destruct (decide (u = v)) as [->|Hne].
    + exists a'. split; [done|]. etrans; [by apply (Hcov v)|done].
    + destruct (Hk u c1 Hne Hu1) as (c' & Hu' & E). exists c'. by rewrite E.
Qed.

End pulls.

(** * Steps without writes *)
Section live.
Context `{GossipJson} (ids : list Z) (owner : string -> Z).

Inductive quiet (w : World) : World -> Prop :=
  | quiet_step v h e a a' fx seqs :
      event w v h -> g_nodes w !! v = Some a -> env_ok ids v e -> h e a = Ret (tt, a', fx) ->
      quiet w (mkWorld (<[v := a']> (g_nodes w)) (g_net w ++ stamp_sends v seqs fx) (g_writes w)).

Lemma quiet_is_step w w' : quiet w w' -> step ids owner w w'.
Proof. intros []. by eapply step_handler. Qed.

Lemma ginv_quiet n w w' : NoDup ids -> ginv ids owner n w -> quiet w w' -> ginv ids owner n w'.
Proof.
  intros Hnd Hi [v h e a a' fx seqs Hev Ha He Eh]. destruct (gi_fanout _ _ _ _ Hi v a Ha).
  eapply ginv_handler; [done..|].
  exact (wp_elim _ _ _ _ _ _ _ _ (event_gstep ids w v h e a Hnd Hev ltac:(done) ltac:(done) He) Eh).
Qed.

Lemma quiet_writes w w' : rtc quiet w w' -> g_writes w' = g_writes w.
Proof. induction 1 as [|x y z [] _ IH]; [done|]. by rewrite IH. Qed.

Lemma ginv_quiets n w w' : NoDup ids -> ginv ids owner n w -> rtc quiet w w' -> ginv ids owner n w'.
Proof. intros Hnd Hi. induction 1 as [|x y z Hq _ IH]; [done|]. apply IH. by eapply ginv_quiet. Qed.

(** A tick with chosen targets *)
Lemma OnTick_run e a pl targets pos :
  env_Peers e <> [] -> Marshal (state a) = Some pl ->
  sampleN (env_rand e) (rng a) (env_Peers e) (fanout a) = Ret (targets, pos) -> targets ⊆ env_Peers e ->
  OnTick timerGossip e a =
    Ret (tt, set_rng pos (evictSeen (env_Now e) a),
         (fun p => ESend p (gossipMsg (UnixMilli e) pl)) <$> targets).
Proof.
  intros Hne Hm Hs Hsub. set (a1 := set_rng pos (evictSeen (env_Now e) a)).
  set (sends := (fun p => ESend p (gossipMsg (UnixMilli e) pl)) <$> targets).
  assert (Hwp : wp False (OnTick timerGossip) e a (fun _ s fx => s = a1 /\ fx = sends)).
  { unfold OnTick. rewrite bool_decide_true by done. cbn [negb]. do 4 wp_step.
    unfold gossipRound. do 4 wp_step.
    destruct (zlen (env_Peers e) =? 0) eqn:Ez.
    { apply Z.eqb_eq in Ez. destruct (env_Peers e) as [|p ps]; [done|].
      rewrite zlen_cons in Ez. pose proof (zlen_nonneg ps). lia. }
    cbn [state evictSeen set_seen rng fanout]. rewrite Hm, Hs. do 4 wp_step. cbn [fst snd].
    eapply wp_mono.
    - apply (wp_for_each_in _ _ (fun done s fx => s = a1 /\
        fx = (fun p => ESend p (gossipMsg (UnixMilli e) pl)) <$> done) e targets); [|done].
      intros done s fx p Hp (-> & ->). wp_steps. rewrite app_nil_r, fmap_app. split; [done|].
      unfold sends_to. rewrite decide_True by (by apply Hsub). done.
    - intros [] s fx (-> & ->). done. }
  destruct (wp_total _ _ _ _ Hwp) as ([] & s & fx & -> & -> & ->). done.
Qed.

Definition peers_of (v : Z) : list Z := filter (fun u => u <> v) ids.

Lemma elem_of_peers_of u v : u ∈ peers_of v <-> u <> v /\ u ∈ ids.
Proof. unfold peers_of. by rewrite list_elem_of_filter. Qed.

(** A node ticks at [now], and [p] is among the peers it sends its state to. *)
Lemma tick n w v a p now :
  NoDup ids -> ginv ids owner n w -> g_nodes w !! v = Some a -> p ∈ peers_of v ->
  exists pl pos m net, Marshal (state a) = Some pl /\ Unmarshal pl = Some (state a) /\
    quiet w (mkWorld (<[v := set_rng pos (evictSeen now a)]> (g_nodes w)) net (g_writes w)) /\
    m ∈ net /\ To m = p /\ Payload m = pl /\ Type_ m = TypeState.
Proof.
  intros Hnd Hi Ha Hp. destruct (gi_fanout _ _ _ _ Hi v a Ha) as [Hf _].
  destruct (Marshal_roundtrip (state a)) as (pl & Hm & Hu).
  { apply (ascii_writes ids owner n w); [done|]. intros k x. by apply (gi_nodes _ _ _ _ Hi v a). }
  destruct (sampleN_hits (rng a) (peers_of v) (fanout a) p Hp (NoDup_filter _ _ Hnd) Hf)
    as (draw & targets & pos & Es & Hin & Hsub & _).
  set (e := mkEnv v (peers_of v) now draw).
  pose proof (OnTick_run e a pl targets pos ltac:(by intros E; cbn in E; rewrite E in Hp; apply elem_of_nil in Hp) Hm Es Hsub) as Et.
  apply list_elem_of_lookup in Hin as [i Hin].
  set (m := mkMessage TypeState v p 0 (UnixMilli e) 0 0 TTLState PriorityState pl).
  exists pl, pos, m. eexists. split; [done|]. split; [done|]. split.
  - exact (quiet_step w v _ e a _ _ (fun _ => 0) (ev_tick w v timerGossip) Ha (conj eq_refl (Permutation_refl _)) Et).
  - split; [|done]. apply elem_of_app. right. unfold stamp_sends. apply list_elem_of_omap.
    exists (Some m). split; [|done]. apply elem_of_lookup_imap. exists i, (ESend p (gossipMsg (UnixMilli e) pl)).
    split; [done|]. by rewrite list_lookup_fmap, Hin.
Qed.

(** A time at which everything in the cache has expired *)
Lemma all_expired (sn : gmap string Z) ttl : exists T, filter (fun kt : string * Z => ~ (T - kt.2 > ttl)) sn = ∅.
Proof.
  assert (Hb : exists T, forall k t, sn !! k = Some t -> t + ttl < T).
  { induction sn as [|k t sn Hk IH] using map_ind; [exists 0; intros k t; by rewrite lookup_empty|].
    destruct IH as [T HT]. exists (Z.max T (t + ttl + 1)). intros k' t'.
    rewrite lookup_insert. case_decide; [intros [= <-]; lia|]. intros E%HT. lia. }
  destruct Hb as [T HT]. exists T. apply map_eq. intros k. rewrite lookup_empty.
  apply map_lookup_filter_None. right. intros t E. specialize (HT k t E). cbn. lia.
Qed.

(** A node can always receive what another holds. *)
Lemma collect_one n w v u a b :
  NoDup ids -> ginv ids owner n w -> u <> v -> g_nodes w !! v = Some a -> g_nodes w !! u = Some b ->
  exists w' a', nsteps quiet 3 w w' /\ g_nodes w' !! v = Some a' /\
    state a' = join_state (state a) (state b) /\ others_keep v (g_nodes w) (g_nodes w').
Proof.
  intros Hnd Hi Hne Ha Hb.
  assert (Hids : forall x, is_Some (g_nodes w !! x) -> x ∈ ids) by (intros x; apply (gi_dom _ _ _ _ Hi)).
  (* [v] forgets what it has seen *)
  destruct (all_expired (seen a) (seenTTL a)) as [T HT].
  destruct (tick n w v a u T Hnd Hi Ha) as (_ & pos1 & _ & net1 & _ & _ & Q1 & _).
  { apply elem_of_peers_of. split; [done|]. apply Hids. eauto. }
  set (a1 := set_rng pos1 (evictSeen T a)) in *. set (w1 := mkWorld _ _ _) in Q1.
  assert (Ha1 : g_nodes w1 !! v = Some a1) by (cbn; by rewrite lookup_insert_eq).
  assert (Hb1 : g_nodes w1 !! u = Some b) by (cbn; by rewrite lookup_insert_ne).
  pose proof (ginv_quiet n w w1 Hnd Hi Q1) as Hi1.
  (* [u] sends its state to [v] *)
  destruct (tick n w1 u b v 0 Hnd Hi1 Hb1) as (pl & pos2 & m & net2 & _ & Hun & Q2 & Hm & Hto & Hpl & HT2).
  { apply elem_of_peers_of. split; [done|]. apply Hids. eauto. }
  set (w2 := mkWorld _ _ _) in Q2.
  assert (Ha2 : g_nodes w2 !! v = Some a1) by (cbn; by rewrite lookup_insert_ne, lookup_insert_eq by done).
  (* and [v] receives it *)
  set (e := mkEnv v (peers_of v) 0 (fun _ => 0)). set (a' := received 0 m a1).
  assert (Hfresh : heard_before m a1 = false).
  { unfold heard_before. apply bool_decide_eq_false. unfold a1, evictSeen. cbn. rewrite HT, lookup_empty.
    by intros [? ?]. }
  exists (mkWorld (<[v := a']> (g_nodes w2)) (g_net w2 ++ stamp_sends v (fun _ => 0) []) (g_writes w2)), a'.
  split_and!.
  - apply nsteps_l with w1; [done|]. apply nsteps_l with w2; [done|]. apply nsteps_once. rewrite <- Hto.
    apply (quiet_step w2 (To m) (OnMessage m) e a1); [by constructor|by rewrite Hto|by rewrite Hto|].
    apply OnMessage_received.
  - cbn. by rewrite lookup_insert_eq.
  - unfold a', received. rewrite Hfresh, HT2, Hpl, Hun. done.
  - intros x c Hx Hc. cbn. rewrite lookup_insert_ne by done. destruct (decide (x = u)) as [->|Hxu].
    + rewrite lookup_insert_eq. eexists. split; [done|]. rewrite Hb in Hc. by injection Hc as <-.
    + rewrite !lookup_insert_ne by done. by exists c.
Qed.

(** The node holds every entry ever written, or a later one. *)
Definition complete (w : World) (a : Algorithm) : Prop := forall k x, (k, x) ∈ g_writes w ->
  exists y, state a !! k = Some y /\ Version x <= Version y.

Lemma covering_complete n w w' a :
  ginv ids owner n w -> g_writes w' = g_writes w ->
  (forall u c, g_nodes w !! u = Some c -> covers (state a) (state c)) -> complete w' a.
Proof.
  intros Hi Ew Hc k x. rewrite Ew. intros Hx.
  destruct (gi_owner _ _ _ _ Hi k x Hx) as (b & o & Hb & Ho & Hle).
  destruct (Hc _ b Hb k o Ho) as (y & Hy & ?). exists y. split; [done|lia].
Qed.

(** A node that is complete holds what the owners hold. *)
Lemma complete_owner n w v a k :
  ginv ids owner n w -> g_nodes w !! v = Some a -> complete w a ->
  Get k a = b ← g_nodes w !! owner k; Get k b.
Proof.
  intros Hi Ha Hc. unfold Get. destruct (state a !! k) as [y|] eqn:Ey.
  - pose proof (gi_nodes _ _ _ _ Hi v a k y Ha Ey) as Hy.
    destruct (gi_owner _ _ _ _ Hi k y Hy) as (b & o & Hb & Ho & Hle). rewrite Hb. cbn. rewrite Ho. f_equal.
    pose proof (gi_nodes _ _ _ _ Hi (owner k) b k o Hb Ho) as Hwo.
    destruct (Hc k o Hwo) as (y' & Ey' & ?). rewrite Ey in Ey'. injection Ey' as <-.
    apply (gi_unique _ _ _ _ Hi k); [done..|lia].
  - destruct (g_nodes w !! owner k) as [b|] eqn:Hb; [|done]. cbn.
    destruct (state b !! k) as [o|] eqn:Ho; [|done].
    destruct (Hc k o (gi_nodes _ _ _ _ Hi (owner k) b k o Hb Ho)) as (y' & Ey' & _). congruence.
Qed.

(** What an owner holds of its keys stays as long as nothing is written. *)
Lemma owner_keeps n w w' k b :
  NoDup ids -> ginv ids owner n w -> rtc quiet w w' -> g_nodes w !! owner k = Some b ->
  exists b', g_nodes w' !! owner k = Some b' /\ Get k b' = Get k b.
Proof.
  intros Hnd Hi Hq Hb. pose proof (ginv_quiets n w w' Hnd Hi Hq) as Hi'.
  assert (Hk : owner k ∈ ids) by (apply (gi_dom _ _ _ _ Hi); eauto).
  apply (gi_dom _ _ _ _ Hi') in Hk as [b' Hb']. exists b'. split; [done|]. unfold Get.
  destruct (state b' !! k) as [y|] eqn:Ey.
  - pose proof (gi_nodes _ _ _ _ Hi' _ b' k y Hb' Ey) as Hy. rewrite (quiet_writes _ _ Hq) in Hy.
    destruct (gi_owner _ _ _ _ Hi k y Hy) as (b0 & o & Hb0 & Ho & Hle). rewrite Hb in Hb0. injection Hb0 as <-.
    rewrite Ho. f_equal. pose proof (gi_nodes _ _ _ _ Hi _ b k o Hb Ho) as Hwo.
    pose proof Hwo as Hwo'. rewrite <- (quiet_writes _ _ Hq) in Hwo'.
    destruct (gi_owner _ _ _ _ Hi' k o Hwo') as (b1 & o' & Hb1 & Ho' & Hle').
    rewrite Hb' in Hb1. injection Hb1 as <-. rewrite Ey in Ho'. injection Ho' as <-.
    apply (gi_unique _ _ _ _ Hi k); [done..|lia].
  - destruct (state b !! k) as [o|] eqn:Ho; [|done].
    pose proof (gi_nodes _ _ _ _ Hi _ b k o Hb Ho) as Hwo. rewrite <- (quiet_writes _ _ Hq) in Hwo.
    destruct (gi_owner _ _ _ _ Hi' k o Hwo) as (b1 & o' & Hb1 & Ho' & _).
    rewrite Hb' in Hb1. injection Hb1 as <-. congruence.
Qed.

(** Nodes that cover what everyone held have converged. *)
Lemma covering_converged n w w' v a k :
  NoDup ids -> ginv ids owner n w -> rtc quiet w w' -> g_nodes w' !! v = Some a ->
  (forall u c, g_nodes w !! u = Some c -> covers (state a) (state c)) ->
  Get k a = b ← g_nodes w !! owner k; Get k b.
Proof.
  intros Hnd Hi Hq Ha Hc. pose proof (ginv_quiets n w w' Hnd Hi Hq) as Hi'.
  rewrite (complete_owner n w' v a k Hi' Ha (covering_complete n w w' a Hi (quiet_writes _ _ Hq) Hc)).
  destruct (g_nodes w !! owner k) as [b|] eqn:Hb.
  - destruct (owner_keeps n w w' k b Hnd Hi Hq Hb) as (b' & -> & E). cbn. by rewrite E.
  - destruct (g_nodes w' !! owner k) as [b'|] eqn:Hb'; [|done].
    assert (Hk : owner k ∈ ids) by (apply (gi_dom _ _ _ _ Hi'); eauto).
    apply (gi_dom _ _ _ _ Hi) in Hk as [? ?]. congruence.
Qed.

End live.

(** Convergence stays possible.  With one writer per key and a fanout of at
    least one, from every world the cluster can reach, whatever was lost so far,
    there is a continuation of ticks and deliveries alone after which every
    node holds exactly the entries that the owners of the keys hold now. *)
Theorem gossip_can_converge `{GossipJson} ids owner fo iv n w :
  NoDup ids -> Z.of_nat n < 2 ^ 64 -> reach ids owner fo iv n w ->
  exists w', rtc (quiet ids) w w' /\ rtc (step ids owner) w w' /\
    forall v a k, g_nodes w' !! v = Some a -> Get k a = b ← g_nodes w !! owner k; Get k b.
Proof.
  intros Hnd Hn Hr. pose proof (ginv_reach ids owner fo iv n w Hnd Hn Hr) as Hi. set (b := Z.of_nat n) in *.
  destruct (collect_everywhere g_nodes ids (fun _ => ginv ids owner b) (rtc (quiet ids)) 0) with (b := 0) (x := w) (vs := ids)
    as (w' & Hq & Hi' & Hc & _); try done.
  { intros _ x Hx. apply (gi_dom _ _ _ _ Hx). }
  { intros _ x v u a c _ Hx Hne Ha Hu.
    destruct (collect_one ids owner b x v u a c Hnd Hx Hne Ha Hu) as (x' & a' & Hq%rtc_nsteps_2 & Ha' & E & Hk).
    exists x', a'. split_and!; try done. by eapply ginv_quiets. }
  exists w'. split; [done|]. split.
  { clear -Hq. induction Hq as [|x y z Hs _ IH]; [done|]. eapply rtc_l; [by apply quiet_is_step|done]. }
  intros v a k Ha. apply (covering_converged ids owner b w w' v a k Hnd Hi Hq Ha). intros u c Hu.
  apply (Hc v a u c); [|done..]. apply (gi_dom _ _ _ _ Hi'). eauto.
Qed.

Lemma gossip_can_converge_witness :
  exists w', rtc (quiet two_nodes) after_set w' /\ rtc (step two_nodes all_mine) after_set w' /\
    forall v a k, g_nodes w' !! v = Some a -> Get k a = b ← g_nodes after_set !! 1; Get k b.
Proof.
  apply (gossip_can_converge two_nodes all_mine 3 0 1 after_set).
  - apply two_nodes_NoDup.
  - lia.
  - apply after_set_reach.
Defined.
