(* ===== verification/GossipClusterLive.v ===== *)
(** GossipClusterLive: gossip on whole nodes can always converge.

    A node pulls the state of another in four steps: the other transmits what it
    has queued, ticks with the node among its targets, transmits what it sent,
    and the message arrives.  It is neither refused by the router nor taken for
    one already heard, since its sequence number is new. *)
From stdpp Require Import countable.
From S2P Require Import Prelude Message Heap SendQueue Router Peer Node Host Agents Stack StackRun StackLive.
From S2P Require Import GossipNet GossipLive GossipCluster.
#[local] Open Scope Z_scope.

(** * What the nodes have heard was sent *)
Section heard.
Context `{GossipJson} (ids : list Z) (owner : string -> Z).

(** Gossip uses one stream. *)
Record heard_sent (fw : Flow Algorithm) : Prop := {
  hs_stream : forall m, m ∈ fl_sent fw -> StreamID m = 0;
  hs_seen : forall v a k, fl_nodes fw !! v = Some a -> is_Some (seen a !! k) ->
    exists m, m ∈ fl_sent fw /\ k = seenKey (From m) (Seq m);
  hs_net : forall m, m ∈ fl_net fw -> m ∈ fl_sent fw;
}.

(** What a handler hears of, and the stream it sends on *)
Definition hears (keys : string -> Prop) (f : prog Algorithm unit) : Prop := forall e a,
  wp True f e a (fun _ a' fx =>
    (forall k, is_Some (seen a' !! k) -> keys k \/ is_Some (seen a !! k)) /\
    forall to m, ESend to m ∈ fx -> StreamID m = 0).

Lemma hears_nothing (keys : string -> Prop) (a a' : Algorithm) :
  (forall k, is_Some (seen a' !! k) -> is_Some (seen a !! k)) ->
  (forall k, is_Some (seen a' !! k) -> keys k \/ is_Some (seen a !! k)) /\
  forall to m, ESend to m ∈ [] -> StreamID m = 0.
Proof. intros Hs. split; [auto|]. by intros to m ?%elem_of_nil. Qed.

Lemma OnMessage_hears m : hears (fun k => k = seenKey (From m) (Seq m)) (OnMessage m).
Proof.
  intros e a. unfold wp. rewrite OnMessage_received. unfold received. split; [|by intros to m0 ?%elem_of_nil].
  intros k. destruct (negb _ || _); [by right|].
  assert (Hk : is_Some (seen (note_seen (env_Now e) m a) !! k) -> k = seenKey (From m) (Seq m) \/ is_Some (seen a !! k)).
  { cbn. rewrite lookup_insert. case_decide; auto. }
  destruct (Unmarshal (Payload m)); exact Hk.
Qed.

Lemma OnTick_hears keys name : hears keys (OnTick name).
Proof.
  intros e a. unfold OnTick. destruct (negb _); [wp_step; by apply hears_nothing|].
  do 4 wp_step. set (a1 := evictSeen (env_Now e) a).
  assert (Hseen : forall k, is_Some (seen a1 !! k) -> is_Some (seen a !! k)).
  { intros k [t Ht]. cbn in Ht. apply map_lookup_filter_Some in Ht as [Ht _]. eauto. }
  unfold gossipRound. do 4 wp_step. destruct (zlen (env_Peers e) =? 0); [wp_step; by apply hears_nothing|].
  destruct (Marshal (state a1)) as [pl|]; [|wp_step; by apply hears_nothing].
  apply wp_bind, wp_lift. destruct (sampleN _ _ _ _) as [[targets pos]|]; [|done]. do 2 wp_step. cbn [fst snd].
  eapply wp_mono.
  - apply (wp_for_each_in _ _ (fun _ s fx => s = set_rng pos a1 /\
      forall to m, ESend to m ∈ fx -> StreamID m = 0) e targets).
    + intros _ s fx p _ (-> & Hfx). wp_steps. rewrite app_nil_r. split; [done|].
      intros to m [Hm|Hm]%elem_of_app; [by apply (Hfx to)|]. unfold sends_to in Hm.
      case_decide; [|by apply elem_of_nil in Hm]. apply list_elem_of_singleton in Hm. by injection Hm as _ ->.
    + split; [done|]. by intros to m ?%elem_of_nil.
  - intros [] s fx (-> & Hfx). split; [|done]. intros k Hk. right. by apply Hseen.
Qed.

Lemma local_hears keys v f : local_handler gossip_algorithm (write owner) v f -> hears keys f.
Proof.
  intros [|name|g (k & value & _ & _ & _ & ->)] e a; [|by apply OnTick_hears|by apply hears_nothing].
  cbn. unfold Start. wp_steps. apply wp_SetTimer; [|done]. intros _. split; [by right|].
  intros to m Hm. cbn in Hm. by apply list_elem_of_singleton in Hm.
Qed.

Lemma queued_stream v now fx ms :
  Forall2 (queued_as v now) (sends fx) ms -> (forall to m, ESend to m ∈ fx -> StreamID m = 0) ->
  forall m, m ∈ ms -> StreamID m = 0.
Proof.
  intros Hq Hfx m [i Hi]%list_elem_of_lookup. destruct (Forall2_lookup_r _ _ _ _ _ Hq Hi) as ([to m0] & Hs & seq & ->).
  apply list_elem_of_lookup_2 in Hs. unfold sends in Hs. apply list_elem_of_omap in Hs as (x & Hx & Es).
  destruct x as [to' m'| | |]; try done. injection Es as -> ->. cbn. by eapply Hfx.
Qed.

Lemma heard_sent_step fw fw' :
  flow_step gossip_algorithm ids (write owner) fw fw' -> heard_sent fw -> heard_sent fw'.
Proof.
  intros [v f net' e a a' fx ms Hev Ha _ Ef Hq] [Hst Hse Hne].
  assert (Hh : hears (fun k => exists m, m ∈ fl_sent fw /\ k = seenKey (From m) (Seq m)) f /\
               forall m, m ∈ net' -> m ∈ fl_sent fw).
  { destruct Hev as [m n1 n2 En|u g Hg]; [|split; [by eapply local_hears|done]]. rewrite En in Hne. split.
    - intros e0 a0. eapply wp_mono; [apply OnMessage_hears|]. intros _ s fx0 [H1 H2]. split; [|done].
      intros k [->|Hk]%H1; [left|by right]. exists m. split; [|done]. apply Hne. set_solver.
    - intros x Hx. apply Hne. set_solver. }
  destruct Hh as [Hh Hnet]. destruct (wp_elim _ _ _ _ _ _ _ _ (Hh e a) Ef) as [Hs Hfx].
  assert (Hold : forall m, m ∈ fl_sent fw -> m ∈ fl_sent fw ++ ms) by set_solver. split; cbn.
  - intros m [Hm|Hm]%elem_of_app; [auto|by eapply queued_stream].
  - intros u b k Hu Hk. destruct (decide (u = v)) as [->|Hne'].
    + rewrite lookup_insert_eq in Hu. injection Hu as <-. apply Hs in Hk as [(m & ? & ->)|Hk]; [eauto|].
      destruct (Hse v a k Ha Hk) as (m & ? & ->). eauto.
    + rewrite lookup_insert_ne in Hu by done. destruct (Hse u b k Hu Hk) as (m & ? & ->). eauto.
  - intros m [Hm|Hm]%elem_of_app; [auto|by apply elem_of_app; right].
Qed.

Lemma heard_sent_init fo iv : heard_sent (flow_init ids (New fo iv)).
Proof.
  split; cbn; try (by intros m ?%elem_of_nil). intros v a k Hv [t Ht]. exfalso.
  apply elem_of_list_to_map_2, list_elem_of_fmap in Hv as (u & [= _ ->] & _). cbn in Ht. by rewrite lookup_empty in Ht.
Qed.

End heard.

(** * Pulling a state, on whole nodes *)

(** What a tick with chosen targets sends *)
Lemma sends_to_all (ps : list Z) m : sends ((fun p => ESend p m) <$> ps) = (fun p => (p, m)) <$> ps.
Proof. unfold sends. induction ps as [|p ps IH]; [done|]. cbn. by f_equal. Qed.

Section pull.
Context `{GossipJson} (ids : list Z) (owner : string -> Z) (size N : Z) (gw0 : World).
Hypothesis ids_NoDup : NoDup ids.
Hypothesis init_inv : ginv ids owner N gw0.
Hypothesis size_enough : zlen ids <= size.

#[local] Notation step := (Stack.step gossip_algorithm silent).
#[local] Notation flow_step := (flow_step gossip_algorithm ids silent).
#[local] Notation sim := (sim gossip_algorithm ids).

(** The network stands for a world that came from [gw0] without writes. *)
Definition stands (fw : Flow Algorithm) (gw : World) : Prop :=
  world_of fw gw /\ rtc (quiet ids) gw0 gw /\ heard_sent fw.

(** So does the fleet, and [b] more messages can be numbered. *)
Definition quiet_fleet (b : Z) (w : Fleet Algorithm) : Prop :=
  exists hist fw gw, sim hist w fw /\ stands fw gw /\ sized size w /\ zlen (f_issued w) + b < 2 ^ 32.

Definition states (w : Fleet Algorithm) : gmap Z Algorithm := h_alg <$> f_hosts w.

Lemma silent_polite v f : silent v f -> polite (alg_inv (alg := gossip_algorithm)) f.
Proof. done. Qed.

Lemma silent_world_step fw fw' gw :
  world_of fw gw -> flow_step fw fw' -> exists gw', world_of fw' gw' /\ quiet ids gw gw'.
Proof.
  intros Hw [v f net' e a a' fx ms Hev Ha [Eid Hp _] Ef Hq].
  assert (Hev' : flow_event gossip_algorithm (write owner) fw v f net').
  { by apply (flow_event_mono gossip_algorithm silent). }
  assert (Hnet : forall m, m ∈ net' -> m ∈ fl_net fw) by (intros m; by eapply gossip_event_net).
  assert (Hg : event gw v f).
  { destruct Hev as [m n1 n2 En|u g [|name|g' []]]; [|apply ev_start|apply ev_tick].
    destruct (wo_sent _ _ Hw m) as (m' & Hm' & E).
    { apply (wo_net _ _ Hw). rewrite En. apply elem_of_app. right. left. }
    assert (To m' = To m) as <- by (by injection E).
    change (alg_OnMessage gossip_algorithm m) with (OnMessage m). rewrite <- (OnMessage_gpacket m' m E).
    by constructor. }
  destruct (gossip_world_handler fw gw v net' e a' fx ms Hw Hnet Hq) as [seqs Hw']. eexists.
  split; [exact Hw'|]. rewrite <- (wo_nodes _ _ Hw) in Ha. by apply (quiet_step ids gw v f e a a' fx seqs).
Qed.

Lemma quiet_fleet_inv w hist fw gw :
  sim hist w fw -> world_of fw gw -> rtc (quiet ids) gw0 gw -> ginv ids owner N gw /\
  forall v, g_nodes gw !! v = states w !! v.
Proof.
  intros Hs Hw Hq. split; [by eapply ginv_quiets|]. intros v.
  unfold states. by rewrite (wo_nodes _ _ Hw), (sim_nodes _ _ _ _ _ Hs), lookup_fmap.
Qed.
(** A node ticks, and its state is on the wire to [v] under a new number. *)
Lemma tell hist w fw gw u v hu :
  sim hist w fw -> world_of fw gw -> rtc (quiet ids) gw0 gw -> sized size w ->
  f_hosts w !! u = Some hu -> v ∈ others ids u -> zlen (f_issued w) + zlen ids < 2 ^ 32 ->
  exists w' fw' hu' pl seq, let m := stamp u v seq 0 (gossipMsg 0 pl) in
    nsteps step 3 w w' /\ sim hist w' fw' /\ flow_step fw fw' /\ m ∈ f_wire w' /\ newest hist m /\
    Unmarshal pl = Some (state (h_alg hu)) /\ msg_id m ∉ msg_id <$> f_issued w /\
    f_hosts w' = <[u := hu']> (f_hosts w) /\ state (h_alg hu') = state (h_alg hu) /\
    zlen (f_issued w') <= zlen (f_issued w) + zlen ids.
Proof.
  intros Hs Hw Hq Hsz Hu Hv Hk. destruct (quiet_fleet_inv w hist fw gw Hs Hw Hq) as [Hi Hst].
  destruct (sim_hosts _ _ _ _ _ Hs u hu Hu) as [[_ _ _ Hpeers _] _].
  set (order := List (n_pm (h_node hu))) in *. set (c := h_alg hu) in *.
  assert (Hc : g_nodes gw !! u = Some c) by (rewrite Hst; unfold states; by rewrite lookup_fmap, Hu).
  destruct (gi_fanout _ _ _ _ Hi u c Hc) as [Hf _].
  assert (Hnd : NoDup order) by (rewrite Hpeers; by apply NoDup_filter).
  assert (Hvo : v ∈ order) by (by rewrite Hpeers).
  destruct (Marshal_roundtrip (state c)) as (pl & Hm & Hun).
  { apply (ascii_writes ids owner N gw); [done|]. intros k x. by apply (gi_nodes _ _ _ _ Hi u c). }
  destruct (sampleN_hits (rng c) order (fanout c) v Hvo Hnd Hf) as (draw & targets & pos & Es & Hin & Hsub & Hlen).
  set (e := mkEnv u order 0 draw). set (fx := (fun p => ESend p (gossipMsg 0 pl)) <$> targets).
  assert (Et : OnTick timerGossip e c = Ret (tt, set_rng pos (evictSeen 0 c), fx)).
  { apply (OnTick_run e c pl targets pos); try done. intros E. cbn in E. rewrite E in Hvo. by apply elem_of_nil in Hvo. }
  assert (Hsends : zlen (sends fx) <= zlen ids).
  { unfold fx. rewrite sends_to_all. unfold zlen in *. rewrite length_fmap.
    pose proof (Permutation_length Hpeers) as El. pose proof (length_filter (fun x => x <> u) ids). unfold others in El. lia. }
  destruct (speak gossip_algorithm ids silent silent_polite size hist w fw u hu (OnTick timerGossip) 0 order draw
    (set_rng pos (evictSeen 0 c)) fx Hs Hsz Hu) as (w' & fw' & S1 & Hs1 & Hf1 & [(hu' & Eh & Ea) (ms & Ei & Hq1 & Hms) _]);
    [exact (local_tick gossip_algorithm silent u timerGossip)|apply env_at_0|done|lia|lia|].
  apply list_elem_of_lookup in Hin as [i Hin].
  assert (Hsi : sends fx !! i = Some (v, gossipMsg 0 pl)) by (unfold fx; by rewrite sends_to_all, list_lookup_fmap, Hin).
  destruct (Forall2_lookup_l _ _ _ _ _ Hq1 Hsi) as (m & Hmi & seq & ->).
  apply list_elem_of_lookup_2 in Hmi. destruct (Hms _ Hmi) as [Hwire Hnew].
  exists w', fw', hu', pl, seq. split_and!; try done; [|by rewrite Ea|].
  - pose proof (sim_ids _ _ _ _ _ Hs1) as Hids. rewrite Ei, fmap_app in Hids. apply NoDup_app in Hids as (_ & Hd & _).
    intros Hx. apply (Hd _ Hx). apply list_elem_of_fmap. by eexists.
  - rewrite Ei, zlen_app. unfold zlen in *. rewrite <- (Forall2_length _ _ _ Hq1). lia.
Qed.

Lemma stands_step fw fw' gw : stands fw gw -> fw' = fw \/ flow_step fw fw' -> exists gw', stands fw' gw'.
Proof.
  intros (Hw & Hq & Hh) [-> | F]; [by exists gw|].
  destruct (silent_world_step fw fw' gw Hw F) as (gw' & Hw' & Q). exists gw'. split_and!; [done|by eapply rtc_r|].
  apply (heard_sent_step ids owner fw); [|done]. by apply (flow_step_mono gossip_algorithm ids silent).
Qed.

(** A message whose number is new was not heard before. *)
Lemma new_not_heard hist w fw v h m :
  sim hist w fw -> heard_sent fw -> f_hosts w !! v = Some h -> msg_wf m -> StreamID m = 0 ->
  msg_id m ∉ msg_id <$> f_issued w -> heard_before m (h_alg h) = false.
Proof.
  intros Hs Hh Hv (_ & Hf & _ & Hq & _) Hst Hnew. apply bool_decide_eq_false. intros Hseen.
  destruct (hs_seen _ Hh v (h_alg h) _ ltac:(by rewrite (sim_nodes _ _ _ _ _ Hs), Hv) Hseen) as (m0 & Hm0 & E).
  pose proof (hs_stream _ Hh m0 Hm0) as Hst0. rewrite (sim_sent _ _ _ _ _ Hs) in Hm0.
  destruct (sim_issued _ _ _ _ _ Hs m0 Hm0) as [(_ & Hf0 & _ & Hq0 & _) _]. unfold is_uint in *.
  apply seenKey_inj in E as [E1 E2]; [|lia..]. apply Hnew, list_elem_of_fmap. exists m0. split; [|done].
  unfold msg_id. congruence.
Qed.

Lemma pull_state b w v u a c :
  0 <= b -> quiet_fleet (b + zlen ids) w -> u <> v -> states w !! v = Some a -> states w !! u = Some c ->
  exists w' a', rtc step w w' /\ quiet_fleet b w' /\ states w' !! v = Some a' /\
    state a' = join_state (state a) (state c) /\ others_keep v (states w) (states w').
Proof.
  intros Hb (hist & fw & gw & Hs & (Hw & Hq & Hh) & Hsz & Hk) Hne Ha Hc.
  destruct (quiet_fleet_inv w hist fw gw Hs Hw Hq) as [Hi Hst].
  unfold states in Ha, Hc. rewrite lookup_fmap in Ha, Hc.
  apply fmap_Some in Ha as (hv & Hv & ->), Hc as (hu & Hu & ->).
  pose proof (zlen_nonneg ids). assert (Hvo : v ∈ others ids u).
  { apply list_elem_of_filter. split; [done|]. apply (gi_dom _ _ _ _ Hi). rewrite Hst. unfold states.
    rewrite lookup_fmap, Hv. by eexists. }
  destruct (tell hist w fw gw u v hu Hs Hw Hq Hsz Hu Hvo) as (w1 & fw1 & hu1 & pl & seq & S1 & Hs1 & F1 & Hwire
    & Hnew & Hun & Hid & Eh1 & Eu & Hlen); [lia|]. set (m := stamp u v seq 0 (gossipMsg 0 pl)) in *.
  destruct (stands_step fw fw1 gw ltac:(by split_and!) (or_intror F1)) as (gw1 & Hst1).
  pose proof (steps_sized _ _ _ _ _ _ S1 Hsz) as Hsz1.
  assert (Hv1 : f_hosts w1 !! To m = Some hv) by (rewrite Eh1; cbn; by rewrite lookup_insert_ne).
  destruct (sim_issued _ _ _ _ _ Hs1 m (sim_wire _ _ _ _ _ Hs1 m Hwire)) as [Hwf _].
  pose proof (new_not_heard hist w fw v hv m Hs Hh Hv Hwf eq_refl Hid) as Hfresh.
  destruct (hear gossip_algorithm ids silent size hist w1 fw1 m hv 0 (List (n_pm (h_node hv))) (fun _ => 0)
    (received 0 m (h_alg hv)) [] Hs1 Hsz1 Hwire Hnew Hv1) as (w2 & fw2 & hist2 & S2 & Hs2 & F2 & [(hv2 & Eh2 & Ea) (ms & Ei & Hms & _) _] & _);
    [apply env_at_0|done|apply OnMessage_received|change (sends []) with (@nil (Z * WireMessage)); zlia..|].
  apply Forall2_nil_inv_l in Hms as ->. rewrite app_nil_r in Ei.
  destruct (stands_step fw1 fw2 gw1 Hst1 F2) as (gw2 & Hst2).
  exists w2, (received 0 m (h_alg hv)). split; [|split; [|split; [|split]]].
  - apply rtc_nsteps_2 in S1, S2. by etrans.
  - exists hist2, fw2, gw2. split_and!; try done; [|rewrite Ei; lia]. by eapply steps_sized.
  - unfold states. by rewrite Eh2, lookup_fmap, lookup_insert_eq, <- Ea.
  - unfold received. rewrite Hfresh. change (Type_ m) with TypeState. change (Payload m) with pl. by rewrite Hun.
  - intros x d Hx. unfold states. rewrite !lookup_fmap, Eh2, lookup_insert_ne, Eh1 by done.
    destruct (decide (x = u)) as [->|Hxu].
    + rewrite lookup_insert_eq, Hu. intros [= <-]. by exists (h_alg hu1).
    + rewrite lookup_insert_ne by done. intros ->. by exists d.
Qed.

End pull.

(** * Properties *)

(** A run of the cluster, and what it stands for *)
Lemma gossip_runs_heard `{GossipJson} ids owner size addr fo iv n w :
  gossip_runs ids owner size addr fo iv n w ->
  exists hist fw gw k, sim gossip_algorithm ids hist w fw /\ world_of fw gw /\ heard_sent fw /\ (k <= n)%nat /\
    reach ids owner fo iv k gw.
Proof.
  intros Hr.
  destruct (sim_runs gossip_algorithm ids (write owner) (polite_write owner) size addr (New fo iv) n w I Hr)
    as (hist & fw & k & Hs & Hle & Hf).
  destruct (flow_simulates gossip_algorithm ids (write owner) (fun fw gw => world_of fw gw /\ heard_sent fw)
    (step ids owner)) with (k := k) (fw := flow_init ids (New fo iv)) (fw' := fw) (x := init ids fo iv)
    as (gw & [Hw Hh] & Hg); [|by split; [apply gossip_world_init|apply heard_sent_init]|done|by exists hist, fw, gw, k].
  intros x y gx [Hw Hh] Hxy. destruct (gossip_world_step ids owner x y gx Hw Hxy) as (gy & Hy & Hst).
  exists gy. split; [|done]. split; [done|]. by eapply heard_sent_step.
Qed.

(** C12: gossip on whole nodes can always converge.  From every state in which
    nodes with their queues, routers and timers can be, whatever was lost,
    evicted or is still on its way, there is a continuation of ticks,
    transmissions and arrivals, without calls of the application, after which
    every node holds exactly the entries that the owners of the keys hold now;
    provided a queue has room for a message to each node, and the cube of the
    number of nodes is left of the 32-bit sequence numbers. *)
Theorem gossip_cluster_can_converge `{GossipJson} ids owner size addr fo iv n w :
  gossip_runs ids owner size addr fo iv n w -> Z.of_nat n < 2 ^ 64 ->
  zlen ids <= size -> zlen (f_issued w) + zlen ids * (zlen ids * zlen ids) < 2 ^ 32 ->
  exists w', rtc (Stack.step gossip_algorithm silent) w w' /\
    forall v, v ∈ ids -> exists h, f_hosts w' !! v = Some h /\
      forall k, Get k (h_alg h) = ho ← f_hosts w !! owner k; Get k (h_alg ho).
Proof.
  intros Hr Hn Hsz Hk. pose proof Hr as (Hnd & _).
  destruct (gossip_runs_heard ids owner size addr fo iv n w Hr) as (hist & fw & gw & j & Hs & Hw & Hh & Hle & Hg).
  pose proof (ginv_reach ids owner fo iv j gw Hnd ltac:(lia) Hg) as Hi.
  assert (Hdom : forall b x, quiet_fleet ids size gw b x -> forall v, is_Some (states x !! v) <-> v ∈ ids).
  { intros b x (hi & fx & gx & Hx & (Hwx & Hqx & _) & _) v.
    destruct (quiet_fleet_inv ids owner (Z.of_nat j) gw Hnd Hi x hi fx gx Hx Hwx Hqx) as [Hix Hst].
    rewrite <- Hst. apply Hix. }
  destruct (collect_everywhere states ids (quiet_fleet ids size gw) (rtc (Stack.step gossip_algorithm silent)) (zlen ids))
    with (b := 0) (x := w) (vs := ids) as (w' & Hsteps & Hq' & Hc & _); [zlia|done| | |done| |].
  - intros b b' x (hi & fx & gx & Hx & Hst & Hzx & Hkx) Hb. exists hi, fx, gx. split_and!; [done..|lia].
  - intros b x v u a c Hb. by apply (pull_state ids owner size (Z.of_nat j) gw Hnd Hi Hsz).
  - exists hist, fw, gw. split; [done|]. split; [done|]. split; [by eapply runs_sized|lia].
  - exists w'. split; [done|]. intros v Hv. destruct (proj2 (Hdom 0 w' Hq' v) Hv) as [a Ha].
    destruct Hq' as (hist' & fw' & gw' & Hs' & (Hw' & Hq' & _) & _).
    destruct (quiet_fleet_inv ids owner (Z.of_nat j) gw Hnd Hi w hist fw gw Hs Hw (rtc_refl _ _)) as [_ Hst].
    destruct (quiet_fleet_inv ids owner (Z.of_nat j) gw Hnd Hi w' hist' fw' gw' Hs' Hw' Hq') as [_ Hst'].
    pose proof Ha as Ha'. unfold states in Ha'. rewrite lookup_fmap in Ha'. apply fmap_Some in Ha' as (h & Hh' & ->).
    exists h. split; [done|]. intros k.
    rewrite (covering_converged ids owner (Z.of_nat j) gw gw' v (h_alg h) k Hnd Hi Hq').
    + rewrite Hst. unfold states. rewrite lookup_fmap. by destruct (f_hosts w !! owner k).
    + by rewrite Hst'.
    + intros u c. rewrite Hst. intros Hu. by apply (Hc v (h_alg h) u c).
Qed.

(** ** Witness: a key that is known to its owner only *)

#[local] Existing Instance GossipNet.code_gossip_json.

Definition unheard_schedule : list (fleet_action Algorithm) :=
  [Begin 1; Begin 2; CallAt 1 (modify (SetKey "k" "v")); TickAt 1 timerGossip; Transmit 1].

(** The message of node 1 is lost. *)
Definition unheard (w : Fleet Algorithm) : bool :=
  host_at 1 w (fun a => bool_decide (Get "k" a = Some (mkEntry "v" 1))) &&
  host_at 2 w (fun a => bool_decide (Get "k" a = None)) && (zlen (f_issued w) <? 10).

Lemma gossip_cluster_can_converge_witness :
  exists w w' h, unheard w = true /\ rtc (Stack.step gossip_algorithm silent) w w' /\
    f_hosts w' !! 2 = Some h /\ Get "k" (h_alg h) = Some (mkEntry "v" 1).
Proof.
  destruct (schedule_runs gossip_algorithm [1; 2] (write by_first) 16 (fun _ => "host:1") (New 3 0)
    unheard_schedule unheard) as (w & Hr & Hw).
  - apply (bool_decide_unpack _). vm_compute. exact I.
  - apply (bool_decide_unpack _). vm_compute. exact I.
  - done.
  - repeat constructor. by exists "k", "v".
  - by vm_compute.
  - pose proof Hw as [[H1 _]%andb_prop Hi%Z.ltb_lt]%andb_prop.
    apply host_at_elim in H1 as (h1 & Hh1 & E1%bool_decide_eq_true).
    destruct (gossip_cluster_can_converge [1; 2] by_first 16 (fun _ => "host:1") 3 0 _ w Hr)
      as (w' & Hs & Hc); [vm_compute; reflexivity|by vm_compute|change (zlen [1; 2]) with 2; lia|].
    destruct (Hc 2) as (h & Hh & Hk); [by right; left|]. exists w, w', h. split_and!; [done..|].
    rewrite Hk. change (by_first "k") with 1. rewrite Hh1. exact E1.
Defined.
