(* ===== verification/GoFloat.v ===== *)
(** GoFloat: what the metrics use of Go's [float64] and of [fmt].

    A [float64] is an IEEE 754 double, for which the Standard Library has an
    executable specification, SpecFloat, with rounding to nearest even; the
    verbs [%d], [%8d] and [%.2f] of [fmt] are exact functions on strings. *)
From stdpp Require Import pretty.
From Stdlib Require Import Ascii SpecFloat.
From S2P Require Import Prelude.
#[local] Open Scope Z_scope.

(** * Definitions *)

Abbreviation float64 := spec_float.

Definition precision : Z := 53.
Definition max_exponent : Z := 1024.

(** [float64(z)] for an integer [z], and the constant [n/d] *)
Definition of_int (z : Z) : float64 := binary_normalize precision max_exponent z 0 false.
Definition fdiv : float64 -> float64 -> float64 := SFdiv precision max_exponent.
Definition fmul : float64 -> float64 -> float64 := SFmul precision max_exponent.
Definition fadd : float64 -> float64 -> float64 := SFadd precision max_exponent.
Definition constant (n d : Z) : float64 := fdiv (of_int n) (of_int d).

(** [int(x)] drops the fraction; of an infinity or a NaN it is whatever the
    machine gives. *)
Definition trunc (x : float64) : option Z :=
  match x with
  | S754_zero _ => Some 0
  | S754_finite s m e => Some (cond_Zopp s (Z.shiftl (Zpos m) e))
  | _ => None
  end.

(** [time.Duration] in nanoseconds, [Duration.Seconds] *)
Definition second : Z := 1000000000.
Definition Seconds (d : Z) : float64 :=
  fadd (of_int (d `quot` second)) (fdiv (of_int (d `rem` second)) (of_int second)).

(** ** Formatting *)

Definition decimal (z : Z) : string := pretty z.

Fixpoint repeat_char (c : Ascii.ascii) (n : nat) : string :=
  match n with O => EmptyString | S n => String c (repeat_char c n) end.

(** [%8d] and [%-4d] *)
Definition pad_left (w : nat) (s : string) : string :=
  repeat_char " "%char (w - String.length s) +:+ s.
Definition pad_right (w : nat) (s : string) : string :=
  s +:+ repeat_char " "%char (w - String.length s).

Definition round_half_even (num den : Z) : Z :=
  let q := num `div` den in
  let r := num `mod` den in
  if 2 * r <? den then q
  else if den <? 2 * r then q + 1
  else if Z.even q then q else q + 1.

(** The value of [|x| * 10^k], rounded to an integer *)
Definition scaled (k : nat) (m : positive) (e : Z) : Z :=
  round_half_even (Zpos m * 10 ^ Z.of_nat k * 2 ^ Z.max e 0) (2 ^ Z.max (- e) 0).

(** The digits of an integer with the point [k] places from the right *)
Definition with_point (k : nat) (z : Z) : string :=
  let s := decimal z in
  let s := repeat_char "0"%char (S k - String.length s) +:+ s in
  let n := (String.length s - k)%nat in
  String.substring 0 n s +:+ (if k is O then EmptyString else "." +:+ String.substring n k s).

(** [%.kf] *)
Definition fixed (k : nat) (x : float64) : string :=
  match x with
  | S754_nan => "NaN"
  | S754_infinity s => if s then "-Inf" else "+Inf"
  | S754_zero s => (if s then "-" else "") +:+ with_point k 0
  | S754_finite s m e => (if s then "-" else "") +:+ with_point k (scaled k m e)
  end.

(** * Small integers are exact *)

Lemma digits2_pos_spec p : 2 ^ (Zpos (digits2_pos p) - 1) <= Zpos p < 2 ^ Zpos (digits2_pos p).
Proof.
  induction p as [p IH|p IH|]; cbn [digits2_pos]; [| |done];
    rewrite Pos2Z.inj_succ; unfold Z.succ; rewrite Z.add_simpl_r;
    rewrite Z.pow_add_r by lia; replace (Zpos (digits2_pos p)) with (Zpos (digits2_pos p) - 1 + 1) at 1 by lia;
    rewrite Z.pow_add_r in * by lia; lia.
Qed.

Lemma digits2_pos_bound p n : 0 <= n -> Zpos p < 2 ^ n -> Zpos (digits2_pos p) <= n.
Proof.
  intros Hn Hp. destruct (digits2_pos_spec p) as [Hl _].
  destruct (Z.le_gt_cases (Zpos (digits2_pos p)) n) as [|Hgt]; [done|].
  assert (2 ^ n <= 2 ^ (Zpos (digits2_pos p) - 1)) by (apply Z.pow_le_mono_r; lia). lia.
Qed.

Lemma iter_xO p k : Zpos (Pos.iter xO p k) = Zpos p * 2 ^ Zpos k /\
  Zpos (digits2_pos (Pos.iter xO p k)) = Zpos (digits2_pos p) + Zpos k.
Proof.
  induction k as [|k [IH1 IH2]] using Pos.peano_ind; [cbn; lia|].
  rewrite Pos.iter_succ. cbn [digits2_pos]. rewrite !Pos2Z.inj_succ, IH2. split; [|lia].
  rewrite Pos2Z.inj_xO, IH1, Z.pow_succ_r by lia. lia.
Qed.

(** A mantissa of full length is not rounded. *)
Lemma round_exact mz ez :
  Zpos (digits2_pos mz) = precision -> -1074 <= ez <= 971 ->
  binary_round_aux precision max_exponent false (Zpos mz) ez loc_Exact = S754_finite false mz ez.
Proof.
  intros Hd He. unfold binary_round_aux.
  assert (E : shr_fexp precision max_exponent (Zpos mz) ez loc_Exact
              = (Build_shr_record (Zpos mz) false false, ez)).
  { unfold shr_fexp, fexp, emin. cbn [Zdigits2]. rewrite Hd. unfold precision, max_exponent.
    replace (Z.max (53 + ez - 53) (3 - 1024 - 53) - ez) with 0 by lia. done. }
  rewrite E. cbn [shr_m loc_of_shr_record round_nearest_even]. rewrite E. cbn [shr_m].
  unfold max_exponent, precision. by rewrite (proj2 (Z.leb_le _ _)) by lia.
Qed.

(** [int(float64(z))] is [z]: integers below 2^53 are floats. *)
Lemma trunc_of_int z : 0 <= z < 2 ^ 53 -> trunc (of_int z) = Some z.
Proof.
  intros Hz. destruct z as [|p|]; [done| |lia]. unfold of_int, binary_normalize, binary_round, fexp, emin.
  pose proof (digits2_pos_bound p 53 ltac:(lia) ltac:(lia)) as Hd.
  rewrite Z.add_0_r. unfold precision at 1 2, max_exponent at 1. rewrite Z.max_l by lia.
  unfold shl_align. rewrite Z.sub_0_r. destruct (Zpos (digits2_pos p) - 53) as [|k|k] eqn:Ek; [|lia|].
  - rewrite round_exact by (unfold precision; lia). done.
  - destruct (iter_xO p k) as [E1 E2]. rewrite round_exact by (unfold precision; lia).
    cbn [trunc cond_Zopp]. f_equal. rewrite Z.shiftl_div_pow2 by lia. rewrite E1.
    apply Z.div_mul. lia.
Qed.

(** * What the verbs print *)

Lemma length_repeat_char c n : String.length (repeat_char c n) = n.
Proof. induction n; cbn; congruence. Qed.

Example fixed_examples :
  fixed 3 (constant 1 3) = "0.333" /\ fixed 1 (of_int 1234) = "1234.0" /\
  fixed 2 (constant 5 1000) = "0.01" /\ fixed 1 (constant 5 100) = "0.1" /\
  fixed 0 (constant 5 2) = "2" /\ fixed 2 (constant (-1) 8) = "-0.12" /\
  pad_left 8 (decimal 42) = "      42".
Proof. vm_compute. done. Qed.
