(* ===== verification/Snapshot.v ===== *)
(** Snapshot: derived metrics ([src/node/metrics/snapshot.go]).

    Counters are atomic, but [Snapshot] loads them one after the other while
    other goroutines record: [load i] is the collector at the i-th load.  The
    wall clock, formatted, and the JSON encoder are arguments. *)
From stdpp Require Import sorting pretty.
From Stdlib Require Import SpecFloat.
From S2P Require Import Prelude Message Collector Node.
From S2P Require Export GoFloat.
#[local] Open Scope Z_scope.

(** * Definitions *)

Record MetricsSnapshot := mkSnapshot {
  s_NodeID : Z;
  s_Timestamp : string;     (* formatted by time.RFC3339 *)
  s_Uptime : Z;
  s_UptimeSec : float64;
  s_MessagesSent : Z;
  s_MessagesRecv : Z;
  s_BytesSent : Z;
  s_BytesRecv : Z;
  s_MsgSentPerSec : float64;
  s_MsgRecvPerSec : float64;
  s_BytesSentPerSec : float64;
  s_BytesRecvPerSec : float64;
  s_MsgSentByType : gmap string Z;
  s_MsgRecvByType : gmap string Z;
  s_DedupDropped : Z;
  s_TTLExpiredDropped : Z;
  s_QueueOverflowDropped : Z;
  s_SendErrors : Z;
  s_DropRate : float64;
  s_AvgLatencyMs : float64;
  s_MaxLatencyMs : float64;
  s_MinLatencyMs : float64;
  s_P50LatencyMs : float64;
  s_P95LatencyMs : float64;
  s_P99LatencyMs : float64;
  s_CompressedBytes : Z;
  s_UncompressedBytes : Z;
  s_CompressionRatio : float64;
}.

(** The array literal with the message types as its indices *)
Definition typeNames : list string :=
  ["HEARTBEAT"; "STATE"; "CONTROL"; "CONSENSUS"; "CUSTOM"].

Definition zero : float64 := S754_zero false.

(** The constants 0.50, 0.95, 0.99 and 0.001 *)
Definition half : float64 := Eval vm_compute in constant 1 2.
Definition ninety_five : float64 := Eval vm_compute in constant 95 100.
Definition ninety_nine : float64 := Eval vm_compute in constant 99 100.
Definition one_thousandth : float64 := Eval vm_compute in constant 1 1000.

Definition percentile (sorted : list Z) (p : float64) : outcome float64 :=
  if decide (zlen sorted = 0) then Ret zero
  else
    let idx := default 0 (trunc (fmul p (of_int (zlen sorted - 1)))) in
    let idx := if decide (idx < 0) then 0 else idx in
    let idx := if decide (idx >= zlen sorted) then zlen sorted - 1 else idx in
    v ← index idx sorted; Ret (of_int v).

(** [avg, max, min, p50, p95, p99] *)
Definition latencyStats (lats : list Z)
    : outcome (float64 * float64 * float64 * float64 * float64 * float64) :=
  if decide (zlen lats = 0) then Ret (zero, zero, zero, zero, zero, zero)
  else
    let sorted := merge_sort Z.le lats in
    let sum := foldl (fun sum v => int64_of_uint64 (wrap 64 (sum + v))) 0 sorted in
    let n := zlen sorted in
    let avg := fdiv (of_int sum) (of_int n) in
    min ← index 0 sorted;
    max ← index (n - 1) sorted;
    p50 ← percentile sorted half;
    p95 ← percentile sorted ninety_five;
    p99 ← percentile sorted ninety_nine;
    Ret (avg, of_int max, of_int min, p50, p95, p99).

Definition Uptime (now : Z) (c : Collector) : Z := now - startTime c.

(** One of the per-type maps; the i-th entry is loaded at [at_ i]. *)
Fixpoint byType (k : Z -> counter) (at_ : nat -> Collector) (types : list Z) (m : gmap string Z)
    : outcome (gmap string Z) :=
  match types with
  | [] => Ret m
  | i :: types =>
      name ← index i typeNames;
      byType k at_ types (<[name := counters (at_ (Z.to_nat i)) (k i)]> m)
  end.

(** Fraction of arrivals that were dropped *)
Definition drop_rate (recv dedup ttl : Z) : float64 :=
  let totalArrived := (recv +[64] dedup) +[64] ttl in
  if decide (totalArrived > 0) then fdiv (of_int (dedup +[64] ttl)) (of_int totalArrived) else zero.

Definition ratio (compressed uncompressed : Z) : float64 :=
  if decide (uncompressed > 0) then fdiv (of_int compressed) (of_int uncompressed) else zero.

Definition Snapshot (now : Z) (timestamp : string) (load : nat -> Collector) : outcome MetricsSnapshot :=
  let uptime := Uptime now (load 0%nat) in
  let sec := Seconds uptime in
  let sec := if SFltb sec one_thousandth then one_thousandth else sec in
  let msgSent := counters (load 1%nat) MsgSent in
  let msgRecv := counters (load 2%nat) MsgRecv in
  let bytesSent := counters (load 3%nat) BytesSent in
  let bytesRecv := counters (load 4%nat) BytesRecv in
  let dedupDrop := counters (load 5%nat) DedupDropped in
  let ttlDrop := counters (load 6%nat) TtlExpiredDropped in
  let queueDrop := counters (load 7%nat) QueueOverflowDrop in
  let sendErr := counters (load 8%nat) SendErrors in
  let compB := counters (load 9%nat) CompressedBytes in
  let uncompB := counters (load 10%nat) UncompressedBytes in
  sentByType ← byType MsgSentByType (fun i => load (11 + 2 * i)%nat) (seqZ 0 5) ∅;
  recvByType ← byType MsgRecvByType (fun i => load (12 + 2 * i)%nat) (seqZ 0 5) ∅;
  let dropRate := drop_rate msgRecv dedupDrop ttlDrop in
  let compRatio := ratio compB uncompB in
  '(avg, max, min, p50, p95, p99) ← latencyStats (latencies (load 21%nat));
  Ret (mkSnapshot (co_nodeID (load 22%nat)) timestamp uptime sec msgSent msgRecv bytesSent bytesRecv
         (fdiv (of_int msgSent) sec) (fdiv (of_int msgRecv) sec)
         (fdiv (of_int bytesSent) sec) (fdiv (of_int bytesRecv) sec)
         sentByType recvByType dedupDrop ttlDrop queueDrop sendErr dropRate
         avg max min p50 p95 p99 compB uncompB compRatio).

(** * Export *)

Definition csvHeader : list string :=
  ["timestamp"; "node_id"; "uptime_sec";
   "msg_sent"; "msg_recv"; "bytes_sent"; "bytes_recv";
   "msg_sent_per_sec"; "msg_recv_per_sec";
   "bytes_sent_per_sec"; "bytes_recv_per_sec";
   "dedup_dropped"; "ttl_expired_dropped";
   "queue_overflow_dropped"; "send_errors"; "drop_rate";
   "avg_latency_ms"; "max_latency_ms"; "min_latency_ms";
   "p50_latency_ms"; "p95_latency_ms"; "p99_latency_ms";
   "compressed_bytes"; "uncompressed_bytes"; "compression_ratio"].

Definition csvRow (s : MetricsSnapshot) : list string :=
  [s_Timestamp s;
   decimal (s_NodeID s);
   fixed 3 (s_UptimeSec s);
   decimal (s_MessagesSent s);
   decimal (s_MessagesRecv s);
   decimal (s_BytesSent s);
   decimal (s_BytesRecv s);
   fixed 2 (s_MsgSentPerSec s);
   fixed 2 (s_MsgRecvPerSec s);
   fixed 2 (s_BytesSentPerSec s);
   fixed 2 (s_BytesRecvPerSec s);
   decimal (s_DedupDropped s);
   decimal (s_TTLExpiredDropped s);
   decimal (s_QueueOverflowDropped s);
   decimal (s_SendErrors s);
   fixed 6 (s_DropRate s);
   fixed 3 (s_AvgLatencyMs s);
   fixed 3 (s_MaxLatencyMs s);
   fixed 3 (s_MinLatencyMs s);
   fixed 3 (s_P50LatencyMs s);
   fixed 3 (s_P95LatencyMs s);
   fixed 3 (s_P99LatencyMs s);
   decimal (s_CompressedBytes s);
   decimal (s_UncompressedBytes s);
   fixed 6 (s_CompressionRatio s)].

Definition times_100 (x : float64) : float64 := fmul x (of_int 100).
Definition kilobytes (bytes : Z) : float64 := fdiv (of_int bytes) (of_int 1024).

(** [String()] *)
Definition summary (s : MetricsSnapshot) : string :=
  "[node " +:+ decimal (s_NodeID s) +:+ "] uptime=" +:+ fixed 1 (s_UptimeSec s) +:+ "s " +:+
  "sent=" +:+ decimal (s_MessagesSent s) +:+ "(" +:+ fixed 1 (s_MsgSentPerSec s) +:+ "/s," +:+
    fixed 1 (kilobytes (s_BytesSent s)) +:+ "KB) recv=" +:+ decimal (s_MessagesRecv s) +:+ "(" +:+
    fixed 1 (s_MsgRecvPerSec s) +:+ "/s," +:+ fixed 1 (kilobytes (s_BytesRecv s)) +:+ "KB) " +:+
  "drop(dedup=" +:+ decimal (s_DedupDropped s) +:+ ",ttl=" +:+ decimal (s_TTLExpiredDropped s) +:+
    ",queue=" +:+ decimal (s_QueueOverflowDropped s) +:+ ",err=" +:+ decimal (s_SendErrors s) +:+
    ",rate=" +:+ fixed 2 (times_100 (s_DropRate s)) +:+ "%) " +:+
  "latency(avg=" +:+ fixed 1 (s_AvgLatencyMs s) +:+ ",p50=" +:+ fixed 1 (s_P50LatencyMs s) +:+
    ",p95=" +:+ fixed 1 (s_P95LatencyMs s) +:+ ",p99=" +:+ fixed 1 (s_P99LatencyMs s) +:+
    ",max=" +:+ fixed 1 (s_MaxLatencyMs s) +:+ " ms)" +:+
  (if decide (s_UncompressedBytes s > 0)
   then " compress=" +:+ fixed 2 (times_100 (s_CompressionRatio s)) +:+ "%" else "").

(** * Percentiles *)

(** The entry of a sorted list at the fraction [num/den] of its last index,
    rounded down *)
Definition rank (num den : Z) (sorted : list Z) : Z :=
  default 0 (sorted !! Z.to_nat ((num * (zlen sorted - 1)) `div` den)).

(** Below 4096 samples the index is exact although the product is rounded. *)
Definition index_exact (p : float64) (num den : Z) : bool :=
  forallb (fun n => bool_decide (trunc (fmul p (of_int (n - 1))) = Some ((num * (n - 1)) `div` den)))
    (seqZ 1 latencyRingSize).

Lemma index_exact_half : index_exact half 1 2 = true.
Proof. by vm_compute. Qed.

Lemma index_exact_95 : index_exact ninety_five 95 100 = true.
Proof. by vm_compute. Qed.

Lemma index_exact_99 : index_exact ninety_nine 99 100 = true.
Proof. by vm_compute. Qed.

Lemma rank_in_range num den n : 0 <= num <= den -> 0 < den -> 0 < n -> 0 <= (num * (n - 1)) `div` den < n.
Proof.
  intros Hn Hd Hl. split; [apply Z.div_pos; nia|]. apply Z.div_lt_upper_bound; [done|nia].
Qed.

Lemma index_rank num den sorted :
  0 <= num <= den -> 0 < den -> 0 < zlen sorted ->
  index ((num * (zlen sorted - 1)) `div` den) sorted = Ret (rank num den sorted).
Proof.
  intros Hn Hd Hl. pose proof (rank_in_range num den (zlen sorted) Hn Hd Hl) as Hr.
  destruct (index_in_range _ sorted Hr) as (x & E & Hx). unfold rank. by rewrite E, Hx.
Qed.

Lemma percentile_rank p num den sorted :
  index_exact p num den = true -> 0 <= num <= den -> 0 < den ->
  0 < zlen sorted <= latencyRingSize ->
  percentile sorted p = Ret (of_int (rank num den sorted)).
Proof.
  intros He Hn Hd Hl. unfold percentile. rewrite decide_False by lia.
  unfold index_exact in He. rewrite forallb_forall in He.
  specialize (He (zlen sorted) ltac:(apply list_elem_of_In, elem_of_seqZ; unfold latencyRingSize in *; lia)).
  apply bool_decide_eq_true in He as ->. cbn [from_option]. unfold id.
  pose proof (rank_in_range num den (zlen sorted) Hn Hd ltac:(lia)).
  repeat (case_decide; try lia).
  by rewrite index_rank by lia.
Qed.

(** Whatever the number of samples, the index is kept in range. *)
Lemma percentile_total sorted p : exists x, percentile sorted p = Ret x.
Proof.
  unfold percentile. case_decide; [eauto|]. pose proof (zlen_nonneg sorted).
  set (idx := default 0 _). destruct (index_in_range
    (let idx := if decide (idx < 0) then 0 else idx in
     if decide (idx >= zlen sorted) then zlen sorted - 1 else idx) sorted) as (v & E & _).
  { cbv zeta. repeat case_decide; lia. }
  cbv zeta in E. rewrite E. eauto.
Qed.

Lemma zlen_merge_sort lats : zlen (merge_sort Z.le lats) = zlen lats.
Proof. unfold zlen. by rewrite (merge_sort_Permutation Z.le lats). Qed.

Lemma latencyStats_total lats : exists r, latencyStats lats = Ret r.
Proof.
  unfold latencyStats. case_decide as Hn; [eauto|]. cbv zeta.
  pose proof (zlen_merge_sort lats) as Hl. set (sorted := merge_sort Z.le lats) in *.
  pose proof (zlen_nonneg lats).
  destruct (index_in_range 0 sorted ltac:(lia)) as (min & -> & _).
  destruct (index_in_range (zlen sorted - 1) sorted ltac:(lia)) as (max & -> & _).
  destruct (percentile_total sorted half) as [p50 ->].
  destruct (percentile_total sorted ninety_five) as [p95 ->].
  destruct (percentile_total sorted ninety_nine) as [p99 ->]. eauto.
Qed.

Definition total (l : list Z) : Z := foldr Z.add 0 l.

Lemma total_perm l l' : l ≡ₚ l' -> total l = total l'.
Proof. unfold total. induction 1; cbn; lia. Qed.

(** Sums that fit in 63 bits do not wrap. *)
Lemma sum_exact l s :
  Forall (fun v => 0 <= v) l -> 0 <= s -> s + total l < 2 ^ 63 ->
  foldl (fun sum v => int64_of_uint64 (wrap 64 (sum + v))) s l = s + total l.
Proof.
  intros Hl. revert s. induction Hl as [|v l Hv Hl IH]; intros s Hs Hb; cbn [foldl total foldr] in *; [lia|].
  fold (total l) in *. assert (0 <= total l).
  { clear -Hl. induction Hl; cbn; [done|]. fold (total l). lia. }
  rewrite wrap_small by (unfold is_uint; lia).
  assert (E : int64_of_uint64 (s + v) = s + v).
  { unfold int64_of_uint64. repeat case_decide; lia. }
  rewrite E, IH by lia. lia.
Qed.

Lemma latencyStats_ranks lats :
  0 < zlen lats <= latencyRingSize ->
  let sorted := merge_sort Z.le lats in
  latencyStats lats =
    Ret (fdiv (of_int (foldl (fun sum v => int64_of_uint64 (wrap 64 (sum + v))) 0 sorted))
              (of_int (zlen lats)),
         of_int (rank 1 1 sorted), of_int (rank 0 1 sorted), of_int (rank 1 2 sorted),
         of_int (rank 95 100 sorted), of_int (rank 99 100 sorted)).
Proof.
  intros Hn sorted. assert (Hl : zlen sorted = zlen lats) by apply zlen_merge_sort.
  unfold latencyStats. rewrite decide_False by lia. cbv zeta. fold sorted.
  replace (index 0 sorted) with (index ((0 * (zlen sorted - 1)) `div` 1) sorted) by done.
  replace (index (zlen sorted - 1) sorted) with (index ((1 * (zlen sorted - 1)) `div` 1) sorted)
    by (f_equal; rewrite Z.div_1_r; lia).
  rewrite !index_rank by lia. rewrite !bind_Ret.
  rewrite (percentile_rank half 1 2 sorted index_exact_half) by lia.
  rewrite (percentile_rank ninety_five 95 100 sorted index_exact_95) by lia.
  rewrite (percentile_rank ninety_nine 99 100 sorted index_exact_99) by lia.
  by rewrite !bind_Ret, Hl.
Qed.

Lemma sorted_lookup_le l i j x y :
  Sorted Z.le l -> (i <= j)%nat -> l !! i = Some x -> l !! j = Some y -> x <= y.
Proof.
  intros Hs%Sorted_StronglySorted; [|intros ???; lia]. revert i j.
  induction Hs as [|z l Hs IH Hz]; intros i j Hij Hi Hj; [by rewrite lookup_nil in Hi|].
  destruct i as [|i], j as [|j]; cbn in Hi, Hj; [|..|by eapply IH; [|done..]; lia]; [|
    |lia].
  - injection Hi as <-. injection Hj as <-. done.
  - injection Hi as <-. rewrite Forall_forall in Hz. eapply Hz, list_elem_of_lookup_2, Hj.
Qed.

Lemma rank_lookup num den l :
  0 <= num <= den -> 0 < den -> 0 < zlen l ->
  l !! Z.to_nat ((num * (zlen l - 1)) `div` den) = Some (rank num den l).
Proof.
  intros Hn Hd Hl. unfold rank. destruct (lookup_lt_is_Some_2 l (Z.to_nat ((num * (zlen l - 1)) `div` den))) as [x E].
  - pose proof (rank_in_range num den (zlen l) Hn Hd Hl). unfold zlen in *. lia.
  - by rewrite E.
Qed.

(** A larger fraction is a later entry. *)
Lemma rank_mono n1 d1 n2 d2 l :
  0 <= n1 <= d1 -> 0 < d1 -> 0 <= n2 <= d2 -> 0 < d2 -> n1 * d2 <= n2 * d1 ->
  0 < zlen l -> Sorted Z.le l -> rank n1 d1 l <= rank n2 d2 l.
Proof.
  intros H1 D1 H2 D2 Hle Hl Hs. eapply (sorted_lookup_le l); [done| |by apply rank_lookup..].
  apply Z2Nat.inj_le; [apply Z.div_pos; nia..|].
  set (a := zlen l - 1). assert (0 <= a) by lia.
  apply Z.div_le_lower_bound; [done|].
  assert (Hq : d1 * ((n1 * a) `div` d1) <= n1 * a) by (apply Z.mul_div_le; lia).
  set (q := (n1 * a) `div` d1) in *. assert (0 <= q) by (apply Z.div_pos; nia). nia.
Qed.

(** What the ranks say of a sample. *)
Lemma ranks_bound l v : Sorted Z.le l -> v ∈ l -> rank 0 1 l <= v <= rank 1 1 l.
Proof.
  intros Hs (i & Hi)%list_elem_of_lookup. pose proof (lookup_lt_Some _ _ _ Hi) as Hl.
  assert (Hz : 0 < zlen l) by (unfold zlen; lia).
  split.
  - refine (sorted_lookup_le l _ i _ _ Hs _ (rank_lookup 0 1 l _ _ Hz) Hi); [|lia..].
    rewrite Z.mul_0_l, Z.div_0_l by lia. lia.
  - refine (sorted_lookup_le l i _ _ _ Hs _ Hi (rank_lookup 1 1 l _ _ Hz)); [|lia..].
    unfold zlen. rewrite Z.div_1_r. lia.
Qed.

(** * Snapshots *)

Lemma Snapshot_stats now ts load :
  exists s, Snapshot now ts load = Ret s /\
    latencyStats (latencies (load 21%nat))
    = Ret (s_AvgLatencyMs s, s_MaxLatencyMs s, s_MinLatencyMs s,
           s_P50LatencyMs s, s_P95LatencyMs s, s_P99LatencyMs s) /\
    s_DropRate s = drop_rate (counters (load 2%nat) MsgRecv) (counters (load 5%nat) DedupDropped)
                     (counters (load 6%nat) TtlExpiredDropped).
Proof.
  destruct (latencyStats_total (latencies (load 21%nat))) as [[[[[[avg max] min] p50] p95] p99] E].
  unfold Snapshot. rewrite E. eexists. split; [reflexivity|]. done.
Qed.

(** The drop rate from the counters of one moment *)
Lemma drop_rate_counters c :
  0 < counters c MsgRecv + drops c < 2 ^ 64 -> 0 <= counters c MsgRecv -> 0 <= drops c ->
  drop_rate (counters c MsgRecv) (counters c DedupDropped) (counters c TtlExpiredDropped)
  = fdiv (of_int (drops c)) (of_int (counters c MsgRecv + drops c)).
Proof.
  intros Ht Hr Hd. unfold drop_rate, drops, wrap in *. rewrite Zplus_mod_idemp_l.
  rewrite <- Z.add_assoc, !(Z.mod_small (counters c DedupDropped + _)) by lia.
  rewrite Z.mod_small by lia. by rewrite decide_True by lia.
Qed.

Lemma recv_all_length arrivals n ds n' : recv_all arrivals n = Ret (ds, n') -> zlen ds <= zlen arrivals.
Proof.
  revert n ds. induction arrivals as [|[now msg] arrivals IH]; intros n ds; cbn [recv_all].
  { by intros [= <- _]. }
  destruct (recv_msg now msg n) as [[d n1]|]; [|done]. cbn.
  destruct (recv_all arrivals n1) as [[ds1 n2]|] eqn:E; [|done]. cbn. intros [= <- <-].
  apply IH in E. rewrite zlen_cons. destruct d; rewrite ?zlen_cons; lia.
Qed.

(** * Properties *)

(** C29: the latency figures of a snapshot.  Of the last 4096 latencies recorded,
    put in order, the percentiles are the entries at the fractions 50/100,
    95/100 and 99/100 of the last index, exactly, although the index is computed
    in floating point; minimum and maximum bound every latency; the average is
    the sum by the number, unless the sum overflows.  No index is out of range. *)
Theorem snapshot_latency_ranks now ts load samples :
  ring_inv (load 21%nat) samples -> samples <> [] ->
  exists s sorted, Snapshot now ts load = Ret s /\
    sorted ≡ₚ last_n (Z.to_nat latencyRingSize) samples /\ Sorted Z.le sorted /\
    s_P50LatencyMs s = of_int (rank 1 2 sorted) /\
    s_P95LatencyMs s = of_int (rank 95 100 sorted) /\
    s_P99LatencyMs s = of_int (rank 99 100 sorted) /\
    rank 1 2 sorted <= rank 95 100 sorted <= rank 99 100 sorted /\
    exists min max, s_MinLatencyMs s = of_int min /\ s_MaxLatencyMs s = of_int max /\
      (forall v, v ∈ last_n (Z.to_nat latencyRingSize) samples -> min <= v <= max) /\
      (Forall (fun v => 0 <= v) samples -> total sorted < 2 ^ 63 ->
       s_AvgLatencyMs s = fdiv (of_int (total sorted)) (of_int (zlen sorted))).
Proof.
  intros Hring Hne. destruct (Snapshot_stats now ts load) as (s & E & Est & _).
  rewrite (latencies_ring _ _ Hring) in Est.
  set (recent := last_n (Z.to_nat latencyRingSize) samples) in *.
  assert (Hlen : 0 < zlen recent <= latencyRingSize).
  { unfold recent, last_n, zlen, latencyRingSize. rewrite length_drop.
    destruct samples; [done|]. cbn [length]. lia. }
  rewrite (latencyStats_ranks recent Hlen) in Est. cbv zeta in Est.
  pose proof (merge_sort_Permutation Z.le recent) as Hp.
  pose proof (Sorted_merge_sort Z.le recent) as Hs. pose proof (zlen_merge_sort recent) as Hz.
  set (sorted := merge_sort Z.le recent) in *. injection Est as Eavg Emax Emin E50 E95 E99.
  exists s, sorted. rewrite <- E50, <- E95, <- E99, <- Emin, <- Emax, <- Eavg.
  split_and!; try done; try (apply rank_mono; [lia..|done]).
  exists (rank 0 1 sorted), (rank 1 1 sorted). split_and!; [done..| |].
  - intros v Hv. apply ranks_bound; [done|]. by rewrite Hp.
  - intros Hnn Ht. rewrite Hz, (sum_exact sorted 0) by (try lia; rewrite Hp; by apply Forall_drop). done.
Qed.

(** C30: the drop rate of a node that has recorded from its start.  After any
    list of arrivals, of which [dropped] were refused, the snapshot reports
    dropped / (arrivals + dropped): the counter of received messages counts the
    refused ones already, so the rate never exceeds one half, even when every
    message is dropped. *)
Theorem snapshot_drop_rate id now0 arrivals n ds n' c now ts :
  n_mc n = Some (NewCollector id now0) -> recv_all arrivals n = Ret (ds, n') ->
  0 < zlen arrivals < 2 ^ 63 -> n_mc n' = Some c ->
  exists s, Snapshot now ts (fun _ => c) = Ret s /\
    let dropped := zlen arrivals - zlen ds in
    s_DropRate s = fdiv (of_int dropped) (of_int (zlen arrivals + dropped)) /\
    2 * dropped <= zlen arrivals + dropped.
Proof.
  intros Hmc E Hl Hc. pose proof (recv_all_length _ _ _ _ E). pose proof (zlen_nonneg ds).
  destruct (recv_all_counts arrivals n _ ds n' Hmc E) as (c1 & Hc1 & R & D); [cbn; lia..|].
  rewrite Hc in Hc1. injection Hc1 as <-. unfold drops in D at 2. cbn in R, D.
  destruct (Snapshot_stats now ts (fun _ => c)) as (s & Es & _ & Ed). exists s. split; [done|].
  cbv zeta. rewrite Ed, drop_rate_counters by lia. rewrite R, D. split; [done|lia].
Qed.

(** ** Witnesses *)

(** Twenty-one latencies of 10, 20, ..., 210 milliseconds *)
Definition observed : list Z := (fun k => 10 * k) <$> seqZ 1 21.
Definition observing : Collector := foldl (fun c ms => recordLatency ms c) (NewCollector 1 0) observed.

Lemma observing_ring : ring_inv observing observed.
Proof.
  unfold observing. rewrite <- (app_nil_l observed) at 2.
  generalize (ring_inv_new 1 0). generalize (NewCollector 1 0) (@nil Z).
  induction observed as [|x samples IH]; intros c l Hc; cbn; [by rewrite app_nil_r|].
  rewrite cons_middle, app_assoc. by apply IH, recordLatency_ring.
Qed.

Lemma snapshot_latency_ranks_witness :
  exists s sorted, Snapshot 0 "now" (fun _ => observing) = Ret s /\ sorted ≡ₚ observed /\
    s_P95LatencyMs s = of_int (rank 95 100 sorted).
Proof.
  destruct (snapshot_latency_ranks 0 "now" (fun _ => observing) observed observing_ring ltac:(done))
    as (s & sorted & Es & Hp & _ & _ & E95 & _).
  exists s, sorted. by split_and!.
Defined.

Example snapshot_p95 :
  match Snapshot 0 "now" (fun _ => observing) with
  | Ret s => (fixed 1 (s_P95LatencyMs s), fixed 1 (s_AvgLatencyMs s)) = ("200.0", "110.0")
  | Panic _ => False
  end.
Proof. by vm_compute. Qed.

(** Two arrivals of which one is dropped: a rate of one third. *)
Lemma snapshot_drop_rate_witness :
  exists ds n' c s, recv_all replayed metered_node = Ret (ds, n') /\ n_mc n' = Some c /\
    Snapshot 9 "now" (fun _ => c) = Ret s /\ s_DropRate s = fdiv (of_int 1) (of_int 3).
Proof.
  destruct (recv_all replayed metered_node) as [[ds n']|] eqn:E;
    [|vm_compute in E; discriminate E].
  assert (Hc : is_Some (n_mc n') /\ zlen ds = 1).
  { replace (n_mc n') with (match recv_all replayed metered_node with
                            | Ret (_, n) => n_mc n | Panic _ => None end) by (by rewrite E).
    replace ds with (match recv_all replayed metered_node with
                     | Ret (l, _) => l | Panic _ => [] end) by (by rewrite E).
    split; [eexists; vm_compute; reflexivity|by vm_compute]. }
  destruct Hc as [[c Hc] Hds].
  destruct (snapshot_drop_rate 1 0 replayed metered_node ds n' c 9 "now" eq_refl E
    ltac:(vm_compute; split; reflexivity) Hc) as (s & Es & Er & _).
  exists ds, n', c, s. rewrite Hds in Er. by split_and!.
Defined.
