(* ===== verification/Reporter.v ===== *)
(** Reporter: periodic output of snapshots ([src/node/metrics/reporter.go]).

    The log is the list of lines printed, a CSV file the list of its records.
    What the operating system answers to a call (does the file open, does a
    write succeed) is an argument of the call; the snapshots, which [Snapshot]
    describes, come with the calls too. *)
From stdpp Require Import strings.
From S2P Require Import Prelude Collector Snapshot.
#[local] Open Scope Z_scope.

(** * Definitions *)

(** [csvFile] is nil, an open file, or one that [Stop] has closed. *)
Inductive handle : Set := Nil | Open | Closed.

(** The standard output with its prefix, or a logger of the caller *)
Inductive Logger : Set := Stdout | Custom (name : string).

Record Reporter := mkReporter {
  interval : Z;
  logger : Logger;
  csvPath : string;         (* empty: no CSV output *)
  csvFile : handle;
  stop_closed : bool;       (* stopCh is closed *)
  wg : Z;                   (* loops that have not ended *)
}.

Record Output := mkOutput { logged : list (Logger * string); disk : gmap string (list (list string)) }.

Abbreviation ReporterOption := (Reporter -> Reporter).

Definition WithCSVOutput (path : string) : ReporterOption := fun r =>
  mkReporter (interval r) (logger r) path (csvFile r) (stop_closed r) (wg r).

(** [WithLogger(l)] *)
Definition WithLogger (l : Logger) : ReporterOption := fun r =>
  mkReporter (interval r) l (csvPath r) (csvFile r) (stop_closed r) (wg r).

Definition NewReporter (interval : Z) (opts : list ReporterOption) : Reporter :=
  foldl (fun r opt => opt r) (mkReporter interval Stdout "" Nil false 0) opts.

(** Does [OpenFile] succeed, does [Stat], do the two writes? *)
Record Io := mkIo { io_open : bool; io_stat : bool; io_header : bool; io_row : bool }.

Definition set_csvFile (f : handle) (r : Reporter) : Reporter :=
  mkReporter (interval r) (logger r) (csvPath r) f (stop_closed r) (wg r).

Definition print (l : Logger) (line : string) (out : Output) : Output :=
  mkOutput (logged out ++ [(l, line)]) (disk out).

(** [os.OpenFile] with [O_CREATE|O_APPEND] creates the file if it is missing. *)
Definition open_file (path : string) (out : Output) : Output :=
  mkOutput (logged out) (<[path := default [] (disk out !! path)]> (disk out)).

(** A write that fails is taken to leave the file as it was; a record that is
    written in part is not modelled. *)
Definition write_record (ok : bool) (path : string) (rec : list string) (out : Output) : Output :=
  if ok then mkOutput (logged out) (<[path := default [] (disk out !! path) ++ [rec]]> (disk out))
  else out.

Definition appendCSV (io : Io) (snap : MetricsSnapshot) (r : Reporter) (out : Output)
    : Reporter * Output :=
  match csvFile r with
  | Nil =>
      if io_open io then
        let out := open_file (csvPath r) out in
        let empty := bool_decide (default [] (disk out !! csvPath r) = []) in
        let out := if io_stat io && empty
                   then write_record (io_header io) (csvPath r) csvHeader out else out in
        (set_csvFile Open r, write_record (io_row io) (csvPath r) (csvRow snap) out)
      else (r, print (logger r) "csv open error" out)
  | Open => (r, write_record (io_row io) (csvPath r) (csvRow snap) out)
  | Closed => (r, out)
  end.

Definition output (io : Io) (snap : MetricsSnapshot) (r : Reporter) (out : Output)
    : Reporter * Output :=
  let out := print (logger r) (summary snap) out in
  if decide (csvPath r = "") then (r, out) else appendCSV io snap r out.

Definition Flush (io : Io) (now : Z) (timestamp : string) (load : nat -> Collector)
    (r : Reporter) (out : Output) : outcome (Reporter * Output) :=
  snap ← Snapshot now timestamp load;
  Ret (output io snap r out).

(** What [os.WriteFile] comes to: all is written, the file cannot be opened, or
    it has been truncated and only that many bytes reach it. *)
Inductive write_result : Set := Complete | NotOpened | Partial (bytes : nat).

(** The first bytes of a document, given as its lines *)
Fixpoint cut (bytes : nat) (doc : list string) : list string :=
  match doc with
  | [] => []
  | l :: ls =>
      if (bytes <=? String.length l)%nat then [String.substring 0 bytes l]
      else l :: cut (bytes - S (String.length l)) ls
  end.

(** [os.WriteFile(path, data, 0644)], which truncates the file before it writes;
    true if there is no error. *)
Definition WriteFile (w : write_result) (path : string) (doc : list string) (out : Output) : bool * Output :=
  match w with
  | Complete => (true, mkOutput (logged out) (<[path := [doc]]> (disk out)))
  | NotOpened => (false, out)
  | Partial bytes => (false, mkOutput (logged out) (<[path := [cut bytes doc]]> (disk out)))
  end.

(** [json] is [json.MarshalIndent]: the lines of the document. *)
Definition ExportJSON (json : MetricsSnapshot -> option (list string)) (w : write_result)
    (s : MetricsSnapshot) (path : string) (out : Output) : bool * Output :=
  match json s with
  | None => (false, out)
  | Some doc => WriteFile w path doc out
  end.

Definition FlushToFile (json : MetricsSnapshot -> option (list string)) (w : write_result)
    (now : Z) (timestamp : string) (load : nat -> Collector) (path : string) (out : Output)
    : outcome (bool * Output) :=
  snap ← Snapshot now timestamp load;
  Ret (ExportJSON json w snap path out).

Definition set_wg (n : Z) (r : Reporter) : Reporter :=
  mkReporter (interval r) (logger r) (csvPath r) (csvFile r) (stop_closed r) n.

Definition Start (r : Reporter) : Reporter := set_wg (wg r + 1) r.

(** What a [select] of [loop] chose: the ticker, or the closed [stopCh]. *)
Inductive choice := OnTicker (io : Io) (snap : MetricsSnapshot) | OnStop (io : Io) (snap : MetricsSnapshot).

(** The iterations of [loop], given what each chose; true when it has returned *)
Fixpoint rounds (cs : list choice) (r : Reporter) (out : Output) : bool * Reporter * Output :=
  match cs with
  | [] => (false, r, out)
  | OnTicker io snap :: cs => let '(r, out) := output io snap r out in rounds cs r out
  | OnStop io snap :: _ =>
      let '(r, out) := output io snap r out in (true, set_wg (wg r - 1) r, out)
  end.

(** [loop]: [time.NewTicker] panics when the interval is not positive. *)
Definition loop (cs : list choice) (r : Reporter) (out : Output) : outcome (bool * Reporter * Output) :=
  if interval r <=? 0 then Panic InvalidArgument else Ret (rounds cs r out).

(** [Stop] up to [wg.Wait()], and what follows when every loop has ended. *)
Definition Stop_begin (r : Reporter) : outcome Reporter :=
  if stop_closed r then Panic CloseOfClosedChannel
  else Ret (mkReporter (interval r) (logger r) (csvPath r) (csvFile r) true (wg r)).

Definition Stop_end (r : Reporter) : option Reporter :=
  if decide (wg r = 0) then
    Some (match csvFile r with Nil => r | _ => set_csvFile Closed r end)
  else None.

(** * The summary table *)

Definition line_top : string :=
  "╔══════════════════════════════════════════════════════════════════╗".
Definition line_title : string :=
  "║                    EXPERIMENT METRICS SUMMARY                   ║".
Definition line_mid : string :=
  "╠══════════════════════════════════════════════════════════════════╣".
Definition line_bottom : string :=
  "╚══════════════════════════════════════════════════════════════════╝".

Definition summary_lines (s : MetricsSnapshot) : list string :=
  ["║ Node " +:+ pad_right 4 (decimal (s_NodeID s)) +:+ " │ uptime=" +:+ fixed 1 (s_UptimeSec s) +:+
     "s                                       ║";
   "║   Sent: " +:+ pad_left 8 (decimal (s_MessagesSent s)) +:+ " msgs  " +:+
     pad_left 10 (decimal (s_BytesSent s)) +:+ " bytes  (" +:+ fixed 1 (s_MsgSentPerSec s) +:+
     " msg/s)           ║";
   "║   Recv: " +:+ pad_left 8 (decimal (s_MessagesRecv s)) +:+ " msgs  " +:+
     pad_left 10 (decimal (s_BytesRecv s)) +:+ " bytes  (" +:+ fixed 1 (s_MsgRecvPerSec s) +:+
     " msg/s)           ║";
   "║   Drop: dedup=" +:+ decimal (s_DedupDropped s) +:+ " ttl=" +:+ decimal (s_TTLExpiredDropped s) +:+
     " queue=" +:+ decimal (s_QueueOverflowDropped s) +:+ " err=" +:+ decimal (s_SendErrors s) +:+
     " rate=" +:+ fixed 2 (times_100 (s_DropRate s)) +:+ "%          ║";
   "║   Latency: avg=" +:+ fixed 1 (s_AvgLatencyMs s) +:+ " p50=" +:+ fixed 1 (s_P50LatencyMs s) +:+
     " p95=" +:+ fixed 1 (s_P95LatencyMs s) +:+ " p99=" +:+ fixed 1 (s_P99LatencyMs s) +:+
     " max=" +:+ fixed 1 (s_MaxLatencyMs s) +:+ " ms    ║"] ++
  (if decide (s_UncompressedBytes s > 0)
   then ["║   Compression: " +:+ fixed 2 (times_100 (s_CompressionRatio s)) +:+ "% (" +:+
           decimal (s_UncompressedBytes s) +:+ " → " +:+ decimal (s_CompressedBytes s) +:+
           " bytes)                       ║"]
   else []) ++
  [line_mid].

Definition PrintSummary (snaps : list MetricsSnapshot) : list string :=
  if decide (snaps = []) then []
  else [line_top; line_title; line_mid] ++ concat (map summary_lines snaps) ++ [line_bottom].

(** * Two goroutines in [appendCSV]

    [Flush] may be called while the loop runs; the steps of the two calls of
    [appendCSV] then interleave, and nothing guards [csvFile]. *)
Module Race.

Inductive pc : Set := CheckFile | OpenIt | StatIt | WriteHeader | WriteRow | Finished.

Record State := mkState { file_set : bool; records : list (list string); pcs : pc * pc }.

(** One step of the call whose program counter is [p]. *)
Definition step1 (row : list string) (p : pc) (f : bool) (rs : list (list string))
    : pc * bool * list (list string) :=
  match p with
  | CheckFile => (if f then WriteRow else OpenIt, f, rs)
  | OpenIt => (StatIt, true, rs)
  | StatIt => (if bool_decide (rs = []) then WriteHeader else WriteRow, f, rs)
  | WriteHeader => (WriteRow, f, rs ++ [csvHeader])
  | WriteRow => (Finished, f, rs ++ [row])
  | Finished => (Finished, f, rs)
  end.

Definition step (row1 row2 : list string) (second : bool) (s : State) : State :=
  if second
  then let '(p, f, rs) := step1 row2 (pcs s).2 (file_set s) (records s) in mkState f rs ((pcs s).1, p)
  else let '(p, f, rs) := step1 row1 (pcs s).1 (file_set s) (records s) in mkState f rs (p, (pcs s).2).

Definition run (row1 row2 : list string) (schedule : list bool) : State :=
  foldl (fun s second => step row1 row2 second s) (mkState false [] (CheckFile, CheckFile)) schedule.

End Race.

(** * The file *)

Definition writes_ok (io : Io) : Prop := io_stat io = true /\ io_header io = true /\ io_row io = true.

Definition contents (path : string) (out : Output) : list (list string) := default [] (disk out !! path).

(** What the snapshots [snaps] add to a file that holds [old]. *)
Definition with_rows (old : list (list string)) (snaps : list MetricsSnapshot) : list (list string) :=
  old ++ (if decide (old = [] /\ snaps <> []) then [csvHeader] else []) ++ (csvRow <$> snaps).

(** The snapshots from the first one for which the file could be opened. *)
Fixpoint reached (outs : list (Io * MetricsSnapshot)) : list MetricsSnapshot :=
  match outs with
  | [] => []
  | (io, snap) :: rest => if io_open io then outs.*2 else reached rest
  end.

(** The outputs that a loop makes. *)
Fixpoint outputs (cs : list choice) : list (Io * MetricsSnapshot) :=
  match cs with
  | [] => []
  | OnTicker io snap :: cs => (io, snap) :: outputs cs
  | OnStop io snap :: _ => [(io, snap)]
  end.

Definition is_stop (c : choice) : bool := match c with OnStop _ _ => true | _ => false end.

Lemma contents_write path rec out :
  contents path (write_record true path rec out) = contents path out ++ [rec].
Proof. unfold contents. cbn. by rewrite lookup_insert_eq. Qed.

Lemma contents_open path out : contents path (open_file path out) = contents path out.
Proof. unfold contents. cbn. by rewrite lookup_insert_eq. Qed.

Lemma contents_print path l line out : contents path (print l line out) = contents path out.
Proof. done. Qed.

Lemma with_rows_nil old : with_rows old [] = old.
Proof. unfold with_rows. rewrite decide_False by naive_solver. by rewrite !app_nil_r. Qed.

(** What a file holds after [ExportJSON]: the document, what it held before, or
    the beginning of the document when the write broke off. *)
Definition exported_file (json : MetricsSnapshot -> option (list string)) (w : write_result)
    (s : MetricsSnapshot) (old : option (list (list string))) : option (list (list string)) :=
  match json s, w with
  | None, _ | Some _, NotOpened => old
  | Some doc, Complete => Some [doc]
  | Some doc, Partial bytes => Some [cut bytes doc]
  end.

Lemma ExportJSON_disk js w snap path out :
  let '(ok, out') := ExportJSON js w snap path out in
  (ok = true <-> is_Some (js snap) /\ w = Complete) /\ logged out' = logged out /\
  disk out' !! path = exported_file js w snap (disk out !! path) /\
  forall other, other <> path -> disk out' !! other = disk out !! other.
Proof.
  unfold ExportJSON, WriteFile, exported_file.
  destruct (js snap), w; cbn; split_and!; try done; try (by rewrite lookup_insert_eq);
    try (by intros other Ho; rewrite lookup_insert_ne); naive_solver.
Qed.

(** The loop with an open file: one row per output. *)
Lemma loop_open cs r out :
  csvPath r <> "" -> csvFile r = Open -> Forall writes_ok (outputs cs).*1 ->
  exists b r' out', rounds cs r out = (b, r', out') /\ csvFile r' = Open /\
    wg r' = (if b then wg r - 1 else wg r) /\ b = existsb is_stop cs /\
    contents (csvPath r) out' = contents (csvPath r) out ++ (csvRow <$> (outputs cs).*2) /\
    logged out' = logged out ++ ((fun s => (logger r, summary s)) <$> (outputs cs).*2).
Proof.
  intros Hp Hf. revert r out Hp Hf. induction cs as [|[io snap|io snap] cs IH]; intros r out Hp Hf Hok; cbn [rounds outputs].
  - exists false, r, out. by rewrite !app_nil_r.
  - apply Forall_cons in Hok as [(_ & _ & Hrow) Hok]. cbn in Hrow. unfold output, appendCSV.
    rewrite decide_False, Hf, Hrow by done.
    destruct (IH r (write_record true (csvPath r) (csvRow snap) (print (logger r) (summary snap) out)) Hp Hf Hok)
      as (b & r' & out' & E & Hf' & Hwg & Hb & Hc & Hl).
    exists b, r', out'. rewrite Hc, contents_write, Hl. cbn. by rewrite <- !app_assoc.
  - apply Forall_cons in Hok as [(_ & _ & Hrow) _]. cbn in Hrow. unfold output, appendCSV.
    rewrite decide_False, Hf, Hrow by done. do 3 eexists. split; [reflexivity|].
    split_and!; try done. by rewrite contents_write.
Qed.

(** One output of a reporter that has not opened its file. *)
Lemma output_nil io snap r out :
  csvPath r <> "" -> csvFile r = Nil -> writes_ok io ->
  exists out', output io snap r out = (if io_open io then set_csvFile Open r else r, out') /\
    contents (csvPath r) out' =
      (if io_open io then with_rows (contents (csvPath r) out) [snap] else contents (csvPath r) out) /\
    (io_open io = true -> logged out' = logged out ++ [(logger r, summary snap)]) /\
    (io_open io = false -> logged out' = logged out ++ [(logger r, summary snap); (logger r, "csv open error")]).
Proof.
  intros Hp Hf (Hst & Hh & Hrow). unfold output, appendCSV. rewrite decide_False, Hf by done.
  destruct (io_open io).
  - rewrite Hst, Hh, Hrow. eexists. split; [reflexivity|]. fold (contents (csvPath r)).
    rewrite contents_write. unfold with_rows. cbn [andb fmap list_fmap].
    set (o := open_file _ _). assert (Eo : contents (csvPath r) o = contents (csvPath r) out).
    { unfold o. by rewrite contents_open. }
    unfold contents in Eo at 1. rewrite Eo.
    destruct (contents (csvPath r) out) as [|rec recs] eqn:Ec.
    + rewrite bool_decide_true, decide_True by done. rewrite contents_write. unfold contents. by rewrite Eo.
    + rewrite bool_decide_false, decide_False by naive_solver. unfold contents. by rewrite Eo.
  - eexists. split; [reflexivity|]. split; [done|]. split; [done|]. intros _. cbn. by rewrite <- app_assoc.
Qed.

Lemma with_rows_app old snap snaps :
  with_rows old (snap :: snaps) = with_rows old [snap] ++ (csvRow <$> snaps).
Proof.
  unfold with_rows. rewrite fmap_cons. destruct old as [|rec old].
  - by rewrite !decide_True by naive_solver.
  - rewrite !decide_False by naive_solver. cbn. by rewrite <- app_assoc.
Qed.

Lemma loop_nil cs r out :
  csvPath r <> "" -> csvFile r = Nil -> Forall writes_ok (outputs cs).*1 ->
  exists b r' out', rounds cs r out = (b, r', out') /\ wg r' = (if b then wg r - 1 else wg r) /\
    b = existsb is_stop cs /\
    contents (csvPath r) out' = with_rows (contents (csvPath r) out) (reached (outputs cs)).
Proof.
  revert out. induction cs as [|[io snap|io snap] cs IH]; intros out Hp Hf Hok; cbn [rounds outputs reached].
  - exists false, r, out. by rewrite with_rows_nil.
  - apply Forall_cons in Hok as [Hio Hok]. cbn in Hio.
    destruct (output_nil io snap r out Hp Hf Hio) as (out1 & E & Ec & _). rewrite E.
    destruct (io_open io).
    + destruct (loop_open cs (set_csvFile Open r) out1 Hp eq_refl Hok)
        as (b & r' & out' & E' & _ & Hwg & Hb & Hc & _).
      exists b, r', out'. cbn [csvPath set_csvFile wg fmap list_fmap snd] in *.
      by rewrite Hc, Ec, (with_rows_app _ snap (outputs cs).*2).
    + destruct (IH out1 Hp Hf Hok) as (b & r' & out' & E' & Hwg & Hb & Hc).
      exists b, r', out'. by rewrite Hc, Ec.
  - apply Forall_cons in Hok as [Hio Hok]. cbn in Hio.
    destruct (output_nil io snap r out Hp Hf Hio) as (out1 & E & Ec & _). rewrite E.
    do 3 eexists. split; [reflexivity|]. split_and!; [by destruct (io_open io)|done|].
    cbn. destruct (io_open io); [by rewrite Ec|]. by rewrite Ec, with_rows_nil.
Qed.

Lemma csvRow_width s : length (csvRow s) = length csvHeader.
Proof. done. Qed.

Lemma with_rows_table old snaps :
  Forall (fun rec => length rec = length csvHeader) old ->
  Forall (fun rec => length rec = length csvHeader) (with_rows old snaps).
Proof.
  intros Ho. unfold with_rows. rewrite !Forall_app. split; [done|]. split.
  - case_decide; [|done]. by constructor.
  - apply Forall_fmap, Forall_true. intros s. apply csvRow_width.
Qed.

(** * Properties *)

(** The metrics file.  Whatever the loop of a reporter with a positive
    interval does, if its writes succeed then the file holds what it held before, the header if and only if it was
    empty, and one row for every snapshot from the first one for which the
    file could be opened, in order; a file of 25 columns stays one; and the
    loop returns exactly when it has seen the stop signal, after a last row,
    upon which [Stop] closes the file. *)
Theorem reporter_csv_file d path cs out :
  0 < d -> path <> "" -> Forall writes_ok (outputs cs).*1 ->
  let r := Start (NewReporter d [WithCSVOutput path]) in
  exists ended r' out', loop cs r out = Ret (ended, r', out') /\
    ended = existsb is_stop cs /\
    contents path out' = with_rows (contents path out) (reached (outputs cs)) /\
    (Forall (fun rec => length rec = 25%nat) (contents path out) ->
     Forall (fun rec => length rec = 25%nat) (contents path out')) /\
    (is_Some (Stop_end r') <-> ended = true).
Proof.
  intros Hd Hp Hok r. destruct (loop_nil cs r out Hp eq_refl Hok) as (b & r' & out' & E & Hwg & Hb & Hc).
  exists b, r', out'. split.
  { unfold loop. change (interval r) with d. by rewrite (proj2 (Z.leb_gt _ _) Hd), E. } split; [done|]. cbn [r csvPath] in Hc.
  change (csvPath r) with path in Hc. split; [done|]. split.
  - rewrite Hc. apply with_rows_table.
  - unfold Stop_end. rewrite Hwg. destruct b; cbn; [by rewrite decide_True by done; split; eauto|].
    rewrite decide_False by done. split; [by intros [? ?]|done].
Qed.

(** Two interleaved calls on an empty file write the header twice: the file is
    not what two calls in a row leave. *)
Lemma flush_race_two_headers row1 row2 :
  exists schedule, Race.pcs (Race.run row1 row2 schedule) = (Race.Finished, Race.Finished) /\
    Race.records (Race.run row1 row2 schedule) = [csvHeader; csvHeader; row1; row2].
Proof.
  by exists [false; true; false; true; false; true; false; true; false; true].
Qed.

(** [Stop] is not idempotent: a second one closes a closed channel. *)
Lemma reporter_stop_twice r r' : Stop_begin r = Ret r' -> Stop_begin r' = Panic CloseOfClosedChannel.
Proof. unfold Stop_begin. destruct (stop_closed r); [done|]. by intros [= <-]. Qed.

(** ** Witnesses *)

Definition all_ok : Io := mkIo true true true true.
Definition no_open : Io := mkIo false true true true.

Definition a_snapshot (n : Z) : MetricsSnapshot :=
  mkSnapshot 1 "2025-01-01T00:00:00Z" 0 half n 0 0 0 zero zero zero zero ∅ ∅ 0 0 0 0 zero
    zero zero zero zero zero zero 0 0 zero.

(** The file opens at the second output only. *)
Definition a_loop : list choice :=
  [OnTicker no_open (a_snapshot 1); OnTicker all_ok (a_snapshot 2); OnStop all_ok (a_snapshot 3)].

Lemma reporter_csv_file_witness :
  exists r' out', loop a_loop (Start (NewReporter 5 [WithCSVOutput "m.csv"])) (mkOutput [] ∅)
      = Ret (true, r', out') /\
    contents "m.csv" out' = [csvHeader; csvRow (a_snapshot 2); csvRow (a_snapshot 3)] /\
    is_Some (Stop_end r').
Proof.
  destruct (reporter_csv_file 5 "m.csv" a_loop (mkOutput [] ∅)) as (b & r' & out' & E & Hb & Hc & _ & Hs).
  - done.
  - done.
  - by repeat constructor.
  - cbn in Hb. subst b. exists r', out'. split; [exact E|]. split; [exact Hc|by apply Hs].
Defined.
