(* ===== verification/Config.v ===== *)
(** Config: the configuration records and their defaults
    ([src/node/config/config.go]), and how they compare with the defaults the
    layers use.  Durations are in nanoseconds. *)
From stdpp Require Import strings.
From S2P Require Import Prelude Message Router SendQueue Node Transport.
From S2P Require Raft Gossip WeakNet.
#[local] Open Scope Z_scope.

(** * Definitions *)

Definition Millisecond : Z := 1000000.
Definition Second : Z := 1000 * Millisecond.

Record NodeConfig := mkNodeConfig {
  NodeID : Z;
  Transport : string;
  ListenAddr : string;
  Peers : gmap Z string;
  SendQueueSize : Z;
  RecvBufSize : Z;
  DedupWindowSize : Z;
}.

Record TCPConfig := mkTCPConfig {
  DialTimeout : Z;
  ReconnectBaseDelay : Z;
  ReconnectMaxDelay : Z;
  MaxConnections : Z;
}.

Record UDPConfig := mkUDPConfig { ReadBufferSize : Z }.

Record GossipConfig := mkGossipConfig {
  g_Fanout : Z;
  g_Interval : Z;
  g_SeenCacheTTL : Z;
}.

Record RaftConfig := mkRaftConfig {
  ElectionTimeoutMin : Z;
  ElectionTimeoutMax : Z;
  HeartbeatInterval : Z;
}.

Record WeakNetConfig := mkWeakNetConfig {
  w_SyncInterval : Z;
  w_Fanout : Z;
  w_CompressThreshold : Z;
  w_RetransmitTimeout : Z;
}.

Definition DefaultNodeConfig (id : Z) (listenAddr : string) : NodeConfig :=
  mkNodeConfig id "udp" listenAddr ∅ 512 256 256.

Definition DefaultTCPConfig : TCPConfig :=
  mkTCPConfig (3 * Second) (100 * Millisecond) (30 * Second) 64.

Definition DefaultGossipConfig : GossipConfig :=
  mkGossipConfig 3 (200 * Millisecond) (5 * Second).

Definition DefaultRaftConfig : RaftConfig :=
  mkRaftConfig (150 * Millisecond) (300 * Millisecond) (50 * Millisecond).

Definition DefaultWeakNetConfig : WeakNetConfig :=
  mkWeakNetConfig (150 * Millisecond) 3 256 (200 * Millisecond).

(** * The defaults of the layers

    No layer imports this package; each repeats its defaults.  They agree. *)

Definition raft_config (c : RaftConfig) : Raft.RaftConfig :=
  Raft.mkConfig (ElectionTimeoutMin c) (ElectionTimeoutMax c) (HeartbeatInterval c).

Lemma defaults_agree id addr :
  raft_config DefaultRaftConfig = Raft.DefaultConfig /\
  w_SyncInterval DefaultWeakNetConfig = WeakNet.SyncInterval WeakNet.DefaultConfig /\
  w_Fanout DefaultWeakNetConfig = WeakNet.Fanout WeakNet.DefaultConfig /\
  w_RetransmitTimeout DefaultWeakNetConfig = WeakNet.RetransmitTimeout WeakNet.DefaultConfig /\
  Gossip.New (g_Fanout DefaultGossipConfig) (g_Interval DefaultGossipConfig) = Gossip.New 0 0 /\
  DedupWindowSize (DefaultNodeConfig id addr) = dedupWindowSize /\
  New_recvCh (RecvBufSize (DefaultNodeConfig id addr)) = New_recvCh 0.
Proof. done. Qed.
