(* ===== verification/NodeCmd.v ===== *)
(** NodeCmd: the command line of a node ([src/cmd/node/main.go]): the peer list
    and what [main] builds from the flags.

    [strings.Split], [SplitN], [TrimSpace] and [strconv.ParseUint] are functions
    on the bytes of a string; a space is one of the UTF-8 encodings of the
    characters Unicode calls white. *)
From stdpp Require Import pretty sorting.
From Stdlib Require Import Ascii.
From S2P Require Import Prelude Message SendQueue Router Collector Peer Node GoFloat.
From S2P Require Raft Gossip WeakNet.
#[local] Open Scope Z_scope.

(** * Definitions *)

Abbreviation chars := (list ascii).
Definition to_chars (s : string) : chars := String.list_ascii_of_string s.
Definition of_chars (s : chars) : string := String.string_of_list_ascii s.

(** [strings.Split(s, sep)] for a separator of one byte *)
Fixpoint Split (sep : ascii) (s : chars) : list chars :=
  match s with
  | [] => [[]]
  | c :: s =>
      if decide (c = sep) then [] :: Split sep s
      else match Split sep s with p :: ps => (c :: p) :: ps | [] => [[c]] end
  end.

(** [strings.SplitN(s, sep, 2)] when it has two parts *)
Fixpoint SplitN2 (sep : ascii) (s : chars) : option (chars * chars) :=
  match s with
  | [] => None
  | c :: s =>
      if decide (c = sep) then Some ([], s)
      else '(a, b) ← SplitN2 sep s; Some (c :: a, b)
  end.

(** The encodings of U+0009..000D, U+0020, U+0085, U+00A0, U+1680, U+2000..200A,
    U+2028, U+2029, U+202F, U+205F and U+3000 *)
Definition bytes_of (codes : list nat) : chars := ascii_of_nat <$> codes.
Definition spaces : list chars :=
  bytes_of <$>
    ([[9]; [10]; [11]; [12]; [13]; [32]; [194; 133]; [194; 160]; [225; 154; 128]] ++
     ((fun k => [226; 128; k]) <$> [128; 129; 130; 131; 132; 133; 134; 135; 136; 137; 138; 168; 169; 175]) ++
     [[226; 129; 159]; [227; 128; 128]])%nat.

Fixpoint strip (w s : chars) : option chars :=
  match w, s with
  | [], _ => Some s
  | c :: w, d :: s => if decide (c = d) then strip w s else None
  | _ :: _, [] => None
  end.

Fixpoint strip_any (ws : list chars) (s : chars) : option chars :=
  match ws with
  | [] => None
  | w :: ws => match strip w s with Some s => Some s | None => strip_any ws s end
  end.

Fixpoint trim (ws : list chars) (fuel : nat) (s : chars) : chars :=
  match fuel with
  | O => s
  | S fuel => match strip_any ws s with Some s => trim ws fuel s | None => s end
  end.

(** [strings.TrimSpace]; every round takes at least one byte. *)
Definition TrimSpace (s : chars) : chars :=
  let s := trim spaces (length s) s in
  rev (trim (@rev ascii <$> spaces) (length s) (rev s)).

Inductive num_error : Set := ErrSyntax | ErrRange.

Definition digit (c : ascii) : option Z :=
  let z := Z.of_nat (nat_of_ascii c) - 48 in
  if decide (0 <= z <= 9) then Some z else None.

Fixpoint parse_digits (max n : Z) (s : chars) : result num_error Z :=
  match s with
  | [] => Ok n
  | c :: s =>
      match digit c with
      | None => Err ErrSyntax
      | Some d => if decide (n * 10 + d > max) then Err ErrRange else parse_digits max (n * 10 + d) s
      end
  end.

(** [strconv.ParseUint(s, 10, bits)] *)
Definition ParseUint (bits : Z) (s : chars) : result num_error Z :=
  match s with [] => Err ErrSyntax | _ => parse_digits (2 ^ bits - 1) 0 s end.

Inductive parse_error : Set :=
  | InvalidPeerSpec (item : chars)
  | InvalidPeerID (part : chars) (e : num_error).

Fixpoint parse_items (items : list chars) (out : gmap Z string) : result parse_error (gmap Z string) :=
  match items with
  | [] => Ok out
  | item :: items =>
      match SplitN2 "=" item with
      | None => Err (InvalidPeerSpec item)
      | Some (id, addr) =>
          match ParseUint 16 (TrimSpace id) with
          | Err e => Err (InvalidPeerID id e)
          | Ok id64 => parse_items items (<[id64 := of_chars (TrimSpace addr)]> out)
          end
      end
  end.

Definition parsePeers (s : string) : result parse_error (gmap Z string) :=
  if decide (s = "") then Ok ∅ else parse_items (Split "," (to_chars s)) ∅.

(** ** What [main] builds *)

Inductive algo_kind : Set := AGossip | ARaft | AWeakNet.

Inductive main_error : Set :=
  | ParsePeers (e : parse_error)
  | UnknownAlgorithm (name : string).

(** The node, the algorithm's state and the callback's presence *)
Inductive algorithm_state : Type :=
  | RunGossip (a : Gossip.Algorithm)
  | RunRaft (a : Raft.Algorithm)
  | RunWeakNet (a : WeakNet.Algorithm).

(** [for id, addr := range peers { n.AddPeer(id, addr) }]: an error is a warning *)
Fixpoint add_all (ps : list (Z * string)) (n : Node) (warnings : list Z) : Node * list Z :=
  match ps with
  | [] => (n, warnings)
  | (id, addr) :: ps =>
      match AddPeer id addr n with
      | Ok n => add_all ps n warnings
      | Err _ => add_all ps n (warnings ++ [id])
      end
  end.

Definition make_algorithm (algo : string) (nodeID : Z) : result main_error algorithm_state :=
  if decide (algo = "gossip") then Ok (RunGossip (Gossip.New 3 (200 * Gossip.Millisecond)))
  else if decide (algo = "raft") then Ok (RunRaft (Raft.New Raft.DefaultConfig true))
  else if decide (algo = "weaknet") then
    Ok (RunWeakNet (WeakNet.SetKey "nodeID" (String.list_byte_of_string (decimal nodeID))
                      (WeakNet.New WeakNet.DefaultConfig)))
  else Err (UnknownAlgorithm algo).

(** From the flags to the node before [Start], and the identifiers warned about
    on the way; [order] is the iteration order of the map of the peers. *)
Definition setup (idFlag : Z) (peersFlag algoFlag : string) (now : Z)
    (order : gmap Z string -> list (Z * string))
    : outcome (list Z * result main_error (Node * algorithm_state)) :=
  let nodeID := wrap 16 idFlag in
  match parsePeers peersFlag with
  | Err e => Ret ([], Err (ParsePeers e))
  | Ok peers =>
      let mc := NewCollector nodeID now in
      n ← NewNodeWith nodeID [WithSendQueueSize 512; WithRecvBufSize 256; WithMetrics mc];
      let '(n, warnings) := add_all (order peers) n [] in
      match make_algorithm algoFlag nodeID with
      | Err e => Ret (warnings, Err e)
      | Ok a => Ret (warnings, Ok (n, a))
      end
  end.

(** * Numbers *)

Lemma digit_char x : (x < 10)%N -> digit (pretty_N_char x) = Some (Z.of_N x).
Proof.
  intros Hx. assert (Hc : x ∈ [0; 1; 2; 3; 4; 5; 6; 7; 8; 9]%N).
  { assert (x = 0 \/ x = 1 \/ x = 2 \/ x = 3 \/ x = 4 \/ x = 5 \/ x = 6 \/ x = 7 \/ x = 8 \/ x = 9)%N by lia.
    set_solver. }
  repeat (apply elem_of_cons in Hc as [-> | Hc]; [done|]). by apply elem_of_nil in Hc.
Qed.

(** Printing adds digits in front, and reading them back gives the number. *)
Lemma parse_pretty_go max x acc :
  Z.of_N x <= max ->
  parse_digits max 0 (to_chars (pretty_N_go x acc)) = parse_digits max (Z.of_N x) (to_chars acc) /\
  exists pre, to_chars (pretty_N_go x acc) = pre ++ to_chars acc /\
    Forall (fun c => is_Some (digit c)) pre /\ (x <> 0%N -> pre <> []).
Proof.
  revert acc. induction (N.lt_wf_0 x) as [x _ IH]; intros acc Hx.
  destruct (decide (x = 0)%N) as [->|Hne].
  { rewrite pretty_N_go_0. split; [done|]. by exists []. }
  assert (Hlt : (x `div` 10 < x)%N) by (apply N.div_lt; lia).
  assert (Hmod : (x `mod` 10 < 10)%N) by (by apply N.mod_upper_bound).
  rewrite pretty_N_go_step by lia.
  pose proof (N.div_mod' x 10) as Hdm.
  destruct (IH (x `div` 10)%N Hlt (String (pretty_N_char (x `mod` 10)) acc) ltac:(lia))
    as (E & pre & Ep & Hd & _). split.
  - rewrite E. cbn [to_chars String.list_ascii_of_string parse_digits]. rewrite digit_char by done.
    rewrite decide_False by lia. f_equal. lia.
  - exists (pre ++ [pretty_N_char (x `mod` 10)]). split; [by rewrite Ep, <- app_assoc|]. split.
    + apply Forall_app. split; [done|]. apply Forall_singleton. by rewrite digit_char.
    + intros _. by destruct pre.
Qed.

Lemma decimal_digits z :
  0 <= z -> to_chars (decimal z) <> [] /\ Forall (fun c => is_Some (digit c)) (to_chars (decimal z)).
Proof.
  intros Hz. destruct z as [|p|]; [by repeat constructor| |lia].
  change (decimal (Z.pos p)) with (pretty (N.pos p)). unfold pretty, pretty_N. rewrite decide_False by done.
  destruct (parse_pretty_go (Z.pos p) (N.pos p) "" ltac:(lia)) as (_ & pre & -> & Hd & Hne).
  rewrite app_nil_r. split; [by apply Hne|done].
Qed.

(** Reading back a printed number *)
Lemma ParseUint_decimal bits z : is_uint bits z -> ParseUint bits (to_chars (decimal z)) = Ok z.
Proof.
  intros [H0 Hz]. pose proof (decimal_digits z H0) as [Hne _]. unfold ParseUint.
  assert (E : parse_digits (2 ^ bits - 1) 0 (to_chars (decimal z)) = Ok z).
  { destruct z as [|p|]; [|..|lia].
    - change (to_chars (decimal 0)) with ["0"%char]. cbn [parse_digits].
      change (digit "0") with (Some 0). cbn iota. by rewrite decide_False by lia.
    - change (decimal (Z.pos p)) with (pretty (N.pos p)). unfold pretty, pretty_N. rewrite decide_False by done.
      by destruct (parse_pretty_go (2 ^ bits - 1) (N.pos p) "" ltac:(lia)) as [-> _]. }
  by destruct (to_chars (decimal z)).
Qed.

(** What [ParseUint] accepts is in range. *)
Lemma parse_digits_range max n s v : 0 <= n -> n <= max -> parse_digits max n s = Ok v -> 0 <= v <= max.
Proof.
  revert n. induction s as [|c s IH]; intros n H0 Hn; cbn; [intros [= <-]; lia|].
  unfold digit. case_decide as Hd; [|done]. case_decide; [done|]. apply IH; lia.
Qed.

Lemma ParseUint_range bits s v : 0 <= bits -> ParseUint bits s = Ok v -> is_uint bits v.
Proof.
  unfold ParseUint, is_uint. intros Hb. destruct s; [done|]. intros E%parse_digits_range; lia.
Qed.

Lemma list_ascii_app s t :
  String.list_ascii_of_string (s +:+ t) = String.list_ascii_of_string s ++ String.list_ascii_of_string t.
Proof. induction s as [|c s IH]; [done|]. cbn. by rewrite <- IH. Qed.

(** * Spaces *)

(** No space begins with, or ends in, a digit. *)
Lemma digit_not_space c s :
  is_Some (digit c) -> strip_any spaces (c :: s) = None /\
    strip_any (@rev ascii <$> spaces) (c :: s) = None.
Proof.
  intros [d Hd]. unfold digit in Hd. case_decide as Hc; [|done].
  assert (Hb : 48 <= Z.of_nat (nat_of_ascii c) <= 57) by lia. clear -Hb.
  assert (Hin : c ∈ bytes_of [48; 49; 50; 51; 52; 53; 54; 55; 56; 57]%nat).
  { rewrite <- (ascii_nat_embedding c). apply list_elem_of_fmap. eexists. split; [reflexivity|].
    assert (nat_of_ascii c ∈ seq 48 10) by (apply elem_of_seq; lia). done. }
  cbn in Hin. repeat (apply elem_of_cons in Hin as [-> | Hin]; [done|]). by apply elem_of_nil in Hin.
Qed.

Lemma trim_fixed ws fuel s : strip_any ws s = None -> trim ws fuel s = s.
Proof. destruct fuel; cbn; [done|]. by intros ->. Qed.

Lemma strip_any_nil ws : Forall (fun w => w <> []) ws -> strip_any ws [] = None.
Proof. induction 1 as [|w ws Hw _ IH]; [done|]. cbn. by destruct w. Qed.

Lemma TrimSpace_digits s : Forall (fun c => is_Some (digit c)) s -> TrimSpace s = s.
Proof.
  intros Hs. unfold TrimSpace.
  assert (E1 : strip_any spaces s = None).
  { destruct Hs as [|c s Hc _]; [done|]. exact (proj1 (digit_not_space c s Hc)). }
  rewrite (trim_fixed _ _ _ E1).
  assert (E2 : strip_any (@rev ascii <$> spaces) (rev s) = None).
  { apply Forall_rev in Hs. destruct Hs as [|c s' Hc _]; [done|]. exact (proj2 (digit_not_space c s' Hc)). }
  by rewrite (trim_fixed _ _ _ E2), rev_involutive.
Qed.

(** * Peer lists *)

(** The list as the flag takes it: [id=addr,id=addr] *)
Definition print_peer (p : Z * string) : chars := to_chars (decimal p.1) ++ "="%char :: to_chars p.2.

Fixpoint join (sep : ascii) (items : list chars) : chars :=
  match items with
  | [] => []
  | [item] => item
  | item :: items => item ++ sep :: join sep items
  end.

Definition print_peers (ps : list (Z * string)) : string := of_chars (join "," (map print_peer ps)).

Lemma Split_none sep s : sep ∉ s -> Split sep s = [s].
Proof.
  induction s as [|c s IH]; cbn; [done|]. intros [Hc Hs]%not_elem_of_cons.
  by rewrite decide_False, IH by done.
Qed.

Lemma Split_app sep s t : sep ∉ s -> Split sep (s ++ sep :: t) = s :: Split sep t.
Proof.
  induction s as [|c s IH]; cbn; [by rewrite decide_True|]. intros [Hc Hs]%not_elem_of_cons.
  by rewrite decide_False, IH by done.
Qed.

Lemma Split_join sep items :
  items <> [] -> Forall (fun s => sep ∉ s) items -> Split sep (join sep items) = items.
Proof.
  induction items as [|s items IH]; [done|]. intros _ [Hs Hi]%Forall_cons.
  destruct items as [|t items]; [by apply Split_none|].
  change (join sep (s :: t :: items)) with (s ++ sep :: join sep (t :: items)).
  by rewrite Split_app, IH.
Qed.

Lemma SplitN2_app sep s t : sep ∉ s -> SplitN2 sep (s ++ sep :: t) = Some (s, t).
Proof.
  induction s as [|c s IH]; cbn; [by rewrite decide_True|]. intros [Hc Hs]%not_elem_of_cons.
  by rewrite decide_False, IH by done.
Qed.

(** An address as the flag can carry it. *)
Definition plain (addr : string) : Prop :=
  ","%char ∉ to_chars addr /\ TrimSpace (to_chars addr) = to_chars addr.

Lemma digits_no sep s : digit sep = None -> Forall (fun c => is_Some (digit c)) s -> sep ∉ s.
Proof. intros Hsep Hs Hin. rewrite Forall_forall in Hs. destruct (Hs _ Hin) as [d Hd]. congruence. Qed.

Lemma parse_items_print ps out :
  Forall (fun p => is_uint 16 p.1 /\ plain p.2) ps ->
  parse_items (map print_peer ps) out = Ok (foldl (fun m p => <[p.1 := p.2]> m) out ps).
Proof.
  intros Hp. revert out. induction Hp as [|[id addr] ps [Hid [_ Ht]] _ IH]; intros out; [done|].
  cbn [map parse_items foldl fst snd] in *. destruct (decimal_digits id ltac:(by destruct Hid)) as [_ Hd].
  unfold print_peer at 1. cbn [fst snd].
  rewrite SplitN2_app by (by apply digits_no). rewrite TrimSpace_digits, ParseUint_decimal by done.
  rewrite Ht. unfold of_chars, to_chars. rewrite String.string_of_list_ascii_of_string. apply IH.
Qed.

Lemma foldl_insert (ps : list (Z * string)) (out : gmap Z string) :
  foldl (fun m p => <[p.1 := p.2]> m) out ps = list_to_map (reverse ps) ∪ out.
Proof.
  revert out. induction ps as [|[id addr] ps IH]; intros out; cbn [foldl].
  - change (list_to_map (reverse [])) with (∅ : gmap Z string). by rewrite (left_id_L ∅ (∪)).
  - rewrite IH, reverse_cons, list_to_map_app. cbn. rewrite <- (assoc_L (∪)). f_equal.
    by rewrite <- insert_union_l, (left_id_L ∅ (∪)).
Qed.

(** A list of the entries of a map, in any order *)
Lemma foldl_insert_map (m : gmap Z string) ps :
  ps ≡ₚ map_to_list m -> foldl (fun m p => <[p.1 := p.2]> m) ∅ ps = m.
Proof.
  intros Hp. rewrite foldl_insert, (right_id_L ∅ (∪)). rewrite <- (list_to_map_to_list m).
  apply list_to_map_proper; [|by rewrite reverse_Permutation].
  rewrite reverse_Permutation, Hp. apply NoDup_fst_map_to_list.
Qed.

Lemma print_peer_no_comma p : 0 <= p.1 -> plain p.2 -> ","%char ∉ print_peer p.
Proof.
  intros H0 [Hc _]. unfold print_peer. rewrite elem_of_app, elem_of_cons.
  intros [Hin|[Heq|Hin]]; [|done|done]. revert Hin. apply digits_no; [done|by apply decimal_digits].
Qed.

Lemma parsePeers_list ps :
  Forall (fun p => is_uint 16 p.1 /\ plain p.2) ps ->
  parsePeers (print_peers ps) = Ok (foldl (fun m p => <[p.1 := p.2]> m) ∅ ps).
Proof.
  intros Hp. destruct ps as [|p ps]; [done|]. set (l := p :: ps) in *. unfold parsePeers, print_peers.
  assert (Hs : Split "," (to_chars (of_chars (join "," (map print_peer l)))) = map print_peer l).
  { unfold to_chars, of_chars. rewrite String.list_ascii_of_string_of_list_ascii.
    apply Split_join; [done|]. rewrite Forall_forall. intros s (q & <- & Hq)%list_elem_of_In%in_map_iff.
    apply list_elem_of_In in Hq. rewrite Forall_forall in Hp. destruct (Hp q Hq) as [[? _] ?].
    by apply print_peer_no_comma. }
  rewrite decide_False, Hs; [by apply parse_items_print|].
  intros E. rewrite E in Hs. assert (print_peer p = []) as Hnil by (by injection Hs).
  unfold print_peer in Hnil. by apply app_nil in Hnil as [_ ?].
Qed.

(** * What [main] builds *)

Lemma add_all_spec ps n ws :
  NoDup ps.*1 ->
  (forall v, n_pm (add_all ps n ws).1 !! v =
     match list_to_map (M := gmap Z string) ps !! v with
     | Some addr => if decide (v = 0) then n_pm n !! v else Some (mkPeer v addr)
     | None => n_pm n !! v
     end) /\
  (add_all ps n ws).2 = ws ++ filter (fun v => v = 0) ps.*1 /\
  n_id (add_all ps n ws).1 = n_id n /\ n_sq (add_all ps n ws).1 = n_sq n /\
  n_mc (add_all ps n ws).1 = n_mc n /\ seqCounters (add_all ps n ws).1 = seqCounters n.
Proof.
  revert n ws. induction ps as [|[id addr] ps IH]; intros n ws Hnd; cbn [add_all].
  { split; [by intros v; cbn; rewrite lookup_empty|]. by rewrite app_nil_r. }
  apply NoDup_cons in Hnd as [Hid Hnd]. apply not_elem_of_list_to_map_1 in Hid as Hno. cbn in Hno.
  unfold AddPeer, Peer.Add. destruct (decide (id = 0)) as [->|Hne].
  - destruct (IH n (ws ++ [0]) Hnd) as (E & Ew & Es). split; [|split; [|done]].
    + intros v. rewrite E. cbn. destruct (decide (v = 0)) as [->|Hv].
      * rewrite lookup_insert_eq. by rewrite (Hno : list_to_map ps !! 0 = None).
      * rewrite lookup_insert_ne by done. done.
    + rewrite Ew. cbn. by rewrite <- app_assoc.
  - set (n1 := mkNode _ _ _ _ _ _). destruct (IH n1 ws Hnd) as (E & Ew & Es). split; [|split; [|done]].
    + intros v. rewrite E. cbn. destruct (decide (v = id)) as [->|Hv].
      * rewrite Hno, !lookup_insert_eq. by rewrite decide_False.
      * rewrite !lookup_insert_ne by done. done.
    + rewrite Ew, fmap_cons, filter_cons. cbn [fst]. by rewrite decide_False.
Qed.

Definition algorithms : list string := ["gossip"; "raft"; "weaknet"].

Lemma make_algorithm_ok algo id : algo ∈ algorithms -> exists a, make_algorithm algo id = Ok a.
Proof.
  intros Hin. unfold algorithms in Hin. unfold make_algorithm.
  repeat (case_decide; [by eexists|]). by repeat (apply elem_of_cons in Hin as [-> | Hin]; [done|]);
    apply elem_of_nil in Hin.
Qed.

(** * What [parsePeers] accepts *)

Lemma strip_app w s t : strip w s = Some t <-> s = w ++ t.
Proof.
  revert s. induction w as [|c w IH]; intros s; cbn; [naive_solver|].
  destruct s as [|d s]; [naive_solver|]. case_decide as Hc; [subst; rewrite IH|]; naive_solver.
Qed.

Lemma strip_any_None ws s : strip_any ws s = None <-> forall w t, w ∈ ws -> s <> w ++ t.
Proof.
  induction ws as [|w ws IH]; cbn.
  { split; [|done]. by intros _ w t ?%elem_of_nil. }
  destruct (strip w s) as [t|] eqn:E.
  - apply strip_app in E. split; [done|]. intros Hn. exfalso. apply (Hn w t); [left|done].
  - rewrite IH. split; [|intros Hn v t Hv; apply Hn; by right].
    intros Hn v t [->|Hv]%elem_of_cons Es; [|by eapply Hn]. apply strip_app in Es. congruence.
Qed.

Lemma strip_any_Some ws s t : strip_any ws s = Some t -> exists w, w ∈ ws /\ s = w ++ t.
Proof.
  induction ws as [|w ws IH]; cbn; [done|]. destruct (strip w s) as [t'|] eqn:E.
  - intros [= <-]. exists w. split; [left|by apply strip_app].
  - intros (v & Hv & ->)%IH. exists v. split; [by right|done].
Qed.

(** Enough rounds take every space off the front, and nothing else. *)
Lemma trim_spec ws fuel s :
  Forall (fun w => w <> []) ws -> (length s <= fuel)%nat ->
  strip_any ws (trim ws fuel s) = None /\ exists pre, s = pre ++ trim ws fuel s.
Proof.
  intros Hws. revert s. induction fuel as [|fuel IH]; intros s Hl; cbn.
  { destruct s; [|cbn in Hl; lia]. split; [by apply strip_any_nil|by exists []]. }
  destruct (strip_any ws s) as [t|] eqn:E; [|split; [done|by exists []]].
  apply strip_any_Some in E as (w & Hw & ->).
  rewrite Forall_forall in Hws. specialize (Hws w Hw). rewrite length_app in Hl.
  destruct (IH t) as [Hn [pre Ep]]; [destruct w; [done|cbn in Hl; lia]|].
  split; [done|]. exists (w ++ pre). by rewrite <- app_assoc, <- Ep.
Qed.

Lemma spaces_nonempty : Forall (fun w => w <> []) spaces /\ Forall (fun w => w <> []) (@rev ascii <$> spaces).
Proof. split; apply (bool_decide_unpack _); vm_compute; exact I. Qed.

Lemma TrimSpace_spec s :
  strip_any spaces (TrimSpace s) = None /\ strip_any (@rev ascii <$> spaces) (rev (TrimSpace s)) = None /\
  exists pre post, s = pre ++ TrimSpace s ++ post.
Proof.
  destruct spaces_nonempty as [H1 H2]. unfold TrimSpace.
  destruct (trim_spec spaces (length s) s H1 ltac:(lia)) as [N1 [pre E1]].
  set (s1 := trim spaces (length s) s) in *.
  destruct (trim_spec (@rev ascii <$> spaces) (length s1) (rev s1) H2 ltac:(by rewrite length_rev)) as [N2 [post E2]].
  set (s2 := trim _ _ (rev s1)) in *. rewrite rev_involutive.
  apply (f_equal (@rev ascii)) in E2. rewrite rev_involutive, rev_app_distr in E2.
  split_and!; [|done|by exists pre, (rev post); rewrite <- E2].
  rewrite strip_any_None in N1 |- *. intros w t Hw E. apply (N1 w (t ++ rev post) Hw).
  by rewrite E2, E, <- app_assoc.
Qed.

Lemma TrimSpace_idempotent s : TrimSpace (TrimSpace s) = TrimSpace s.
Proof.
  destruct (TrimSpace_spec s) as (N1 & N2 & _). set (t := TrimSpace s) in *.
  unfold TrimSpace at 1. rewrite (trim_fixed _ _ _ N1), (trim_fixed _ _ _ N2). apply rev_involutive.
Qed.

Lemma Split_pieces sep s : Forall (fun p => sep ∉ p) (Split sep s).
Proof.
  induction s as [|c s IH]; cbn; [by repeat constructor; apply not_elem_of_nil|].
  case_decide as Hc; [constructor; [apply not_elem_of_nil|done]|].
  destruct (Split sep s) as [|p ps]; [by repeat constructor; apply not_elem_of_cons; split; [done|apply not_elem_of_nil]|].
  apply Forall_cons in IH as [Hp IH]. constructor; [|done]. by apply not_elem_of_cons.
Qed.

Lemma SplitN2_Some sep s a b : SplitN2 sep s = Some (a, b) -> s = a ++ sep :: b.
Proof.
  revert a. induction s as [|c s IH]; intros a; cbn; [done|]. case_decide as Hc.
  - intros [= <- <-]. by subst.
  - destruct (SplitN2 sep s) as [[a' b']|]; [|done]. cbn. intros [= <- <-]. by rewrite (IH a').
Qed.

Lemma TrimSpace_plain s : ","%char ∉ s -> plain (of_chars (TrimSpace s)).
Proof.
  intros Hs. unfold plain, to_chars, of_chars. rewrite String.list_ascii_of_string_of_list_ascii.
  split; [|apply TrimSpace_idempotent]. destruct (TrimSpace_spec s) as (_ & _ & pre & post & E).
  rewrite E in Hs. rewrite !not_elem_of_app in Hs. tauto.
Qed.

Lemma parse_items_type items out m :
  map_Forall (fun id addr => is_uint 16 id /\ plain addr) out -> Forall (fun p => ","%char ∉ p) items ->
  parse_items items out = Ok m -> map_Forall (fun id addr => is_uint 16 id /\ plain addr) m.
Proof.
  intros Ho Hi. revert out Ho. induction Hi as [|item items Hc _ IH]; intros out Ho; cbn [parse_items].
  { by intros [= <-]. }
  destruct (SplitN2 "=" item) as [[id addr]|] eqn:Es; [|done].
  destruct (ParseUint 16 (TrimSpace id)) as [v|] eqn:Ev; [|done].
  apply IH. apply map_Forall_insert_2; [|done]. apply SplitN2_Some in Es as ->.
  split; [by eapply ParseUint_range|]. apply TrimSpace_plain. set_solver.
Qed.

Lemma print_parse (m : gmap Z string) ps :
  map_Forall (fun id addr => is_uint 16 id /\ plain addr) m -> ps ≡ₚ map_to_list m ->
  parsePeers (print_peers ps) = Ok m.
Proof.
  intros Hm Hp. rewrite parsePeers_list, (foldl_insert_map m ps Hp); [done|].
  rewrite Hp, Forall_forall. intros [id addr] Hin%elem_of_map_to_list. by apply Hm.
Qed.

Lemma parsePeers_plain s m :
  parsePeers s = Ok m -> map_Forall (fun id addr => is_uint 16 id /\ plain addr) m.
Proof.
  unfold parsePeers. case_decide; [intros [= <-]; apply map_Forall_empty|].
  apply parse_items_type; [apply map_Forall_empty|apply Split_pieces].
Qed.

(** The warnings are about the identifier 0, once. *)
Lemma filter_zero (l : list Z) :
  NoDup l -> filter (fun v => v = 0) l = if decide (0 ∈ l) then [0] else [].
Proof.
  intros Hnd. case_decide as Hin.
  - apply list_elem_of_split in Hin as (l1 & l2 & ->). apply NoDup_app in Hnd as (_ & H1 & [H2 _]%NoDup_cons).
    rewrite filter_app, filter_cons, decide_True by done. rewrite !filter_none; [done|..].
    + by intros v Hv ->.
    + intros v Hv ->. apply (H1 0 Hv). left.
  - apply filter_none. by intros v Hv ->.
Qed.

Lemma make_algorithm_known algo id a : make_algorithm algo id = Ok a -> algo ∈ algorithms.
Proof.
  unfold make_algorithm, algorithms. intros E.
  repeat (case_decide; [subst; set_solver|]). done.
Qed.

(** The warnings about a list of peers *)
Definition zero_warning (m : gmap Z string) : list Z := if decide (is_Some (m !! 0)) then [0] else [].

Lemma setup_builds idFlag peersFlag algo now order :
  (forall m, order m ≡ₚ map_to_list m) ->
  match parsePeers peersFlag, make_algorithm algo (wrap 16 idFlag) with
  | Err e, _ => setup idFlag peersFlag algo now order = Ret ([], Err (ParsePeers e))
  | Ok m, Err e => setup idFlag peersFlag algo now order = Ret (zero_warning m, Err e)
  | Ok m, Ok a =>
      exists n, setup idFlag peersFlag algo now order = Ret (zero_warning m, Ok (n, a)) /\
        node_ok 0 n /\ n_id n = wrap 16 idFlag /\
        (forall v, PeerAddr v n = if decide (v = 0) then None else m !! v)
  end.
Proof.
  intros Ho. unfold setup. destruct (parsePeers peersFlag) as [m|e]; [|done].
  specialize (Ho m).
  assert (Hnd : NoDup (order m).*1) by (rewrite Ho; apply NoDup_fst_map_to_list).
  assert (Hmap : list_to_map (order m) = m).
  { rewrite <- (list_to_map_to_list m) at 2. by apply list_to_map_proper. }
  set (mc := NewCollector (wrap 16 idFlag) now).
  destruct (NewNode_ok (wrap 16 idFlag) 512 (Some mc)) as (n0 & En & [O1 O2 O3 O4 O5] & Hid);
    [by apply wrap_bound|lia|].
  destruct (add_all_spec (order m) n0 [] Hnd) as (Hl & Hw & Hi & Hq & _ & Hs).
  change (NewNodeWith _ _) with (NewNode (wrap 16 idFlag) 512 (Some mc)).
  rewrite En, bind_Ret. destruct (add_all (order m) n0 []) as [n ws] eqn:Eadd. cbn [fst snd] in *.
  assert (Ews : ws = zero_warning m).
  { rewrite Hw, filter_zero by done. cbn [app]. unfold zero_warning.
    rewrite (decide_ext (0 ∈ (order m).*1) (is_Some (m !! 0))); [done|].
    pose proof (not_elem_of_list_to_map_2 (M := gmap Z) (order m) 0) as H1.
    pose proof (elem_of_list_to_map_2 (M := gmap Z) (order m) 0) as H2. rewrite Hmap in H1, H2. split.
    + intros Hin. apply not_eq_None_Some. by intros Hno%H1.
    + intros [addr Ha]. apply list_elem_of_fmap. exists (0, addr). auto. }
  rewrite Ews. destruct (make_algorithm algo (wrap 16 idFlag)) as [a|e]; [|done].
  assert (Hn0 : n_pm n0 = ∅).
  { unfold NewNode in En. destruct (NewSendQueue 512); [|done]. by injection En as <-. }
  exists n. split; [done|]. split; [split; by rewrite ?Hq, ?Hi, ?Hs|]. split; [congruence|].
  intros v. unfold PeerAddr, Get. rewrite Hl, Hmap, Hn0, lookup_empty.
  destruct (m !! v); by case_decide.
Qed.

(** * Properties *)

(** C27: printing and parsing a peer list.  Whatever 16-bit identifiers and
    addresses (without commas, and without white space around them) a map of
    peers holds, and in whatever order its entries are written after each
    other as id=addr, separated by commas, [parsePeers] returns this map. *)
Theorem parsePeers_roundtrip (m : gmap Z string) ps :
  map_Forall (fun id addr => is_uint 16 id /\ plain addr) m -> ps ≡ₚ map_to_list m ->
  parsePeers (print_peers ps) = Ok m.
Proof. apply print_parse. Qed.

(** C32: the type of [parsePeers].  Whatever string it accepts, the identifiers
    are 16-bit numbers and the addresses have no comma in them and no white
    space around them; so printing the result and parsing it again gives the
    result. *)
Theorem parsePeers_type s m :
  parsePeers s = Ok m ->
  map_Forall (fun id addr => is_uint 16 id /\ plain addr) m /\
  parsePeers (print_peers (map_to_list m)) = Ok m.
Proof. intros E%parsePeers_plain. split; [done|by apply print_parse]. Qed.

(** C28: from the command line to the node.  [main] stops on a peer list that does
    not parse and on an unknown algorithm.  Otherwise, in whatever order it
    iterates over the map of the peers, it builds a well-formed node that has
    the identifier of the flag, reduced to 16 bits, and as its peers exactly
    those of the list but for the reserved identifier 0, about which it warns. *)
Theorem setup_node idFlag peersFlag algo now order :
  (forall m, order m ≡ₚ map_to_list m) ->
  match parsePeers peersFlag, make_algorithm algo (wrap 16 idFlag) with
  | Err e, _ => setup idFlag peersFlag algo now order = Ret ([], Err (ParsePeers e))
  | Ok m, Err e => setup idFlag peersFlag algo now order = Ret (zero_warning m, Err e)
  | Ok m, Ok a =>
      exists n, setup idFlag peersFlag algo now order = Ret (zero_warning m, Ok (n, a)) /\
        node_ok 0 n /\ n_id n = wrap 16 idFlag /\
        (forall v, PeerAddr v n = if decide (v = 0) then None else m !! v)
  end.
Proof. apply setup_builds. Qed.

(** The flag [--id] is documented to be between 1 and 65535, but any number is
    taken, modulo 65536. *)
Lemma id_truncated algo : algo = "raft" ->
  exists n ws a n' ws' a', setup 65537 "" algo 0 map_to_list = Ret (ws, Ok (n, a)) /\ n_id n = 1 /\
    setup 0 "" algo 0 map_to_list = Ret (ws', Ok (n', a')) /\ n_id n' = 0.
Proof. intros ->. by repeat eexists. Qed.

(** ** Witnesses *)

Definition two_peers : gmap Z string := {[2 := ":9002"; 3 := ":9003"]}.

Lemma parsePeers_roundtrip_witness :
  print_peers [(2, ":9002"); (3, ":9003")] = "2=:9002,3=:9003" /\
  parsePeers (print_peers [(2, ":9002"); (3, ":9003")]) = Ok two_peers.
Proof.
  split; [by vm_compute|]. apply parsePeers_roundtrip; apply (bool_decide_unpack _); vm_compute; exact I.
Defined.

Lemma parsePeers_type_witness :
  exists m, parsePeers " 2 = :9002 ,2=:1" = Ok m /\
    map_Forall (fun id addr => is_uint 16 id /\ plain addr) m /\
    parsePeers (print_peers (map_to_list m)) = Ok m.
Proof.
  eexists. split; [vm_compute; reflexivity|].
  apply (parsePeers_type " 2 = :9002 ,2=:1"). vm_compute. reflexivity.
Defined.

Example parsePeers_errors :
  parsePeers "2=a,3" = Err (InvalidPeerSpec (to_chars "3")) /\
  parsePeers "65536=a" = Err (InvalidPeerID (to_chars "65536") ErrRange) /\
  parsePeers "+2=a" = Err (InvalidPeerID (to_chars "+2") ErrSyntax) /\
  parsePeers "=a" = Err (InvalidPeerID [] ErrSyntax) /\
  parsePeers "2=a=b" = Ok {[2 := "a=b"]}.
Proof. by vm_compute. Qed.

Lemma setup_node_witness :
  exists n a, setup 1 "2=:9002,0=x" "raft" 0 map_to_list = Ret ([0], Ok (n, a)) /\
    PeerAddr 2 n = Some ":9002" /\ PeerAddr 0 n = None.
Proof.
  destruct (parsePeers "2=:9002,0=x") as [m|e] eqn:E; [|vm_compute in E; discriminate E].
  assert (Em : m !! 2 = Some ":9002" /\ zero_warning m = [0]).
  { vm_compute in E. injection E as <-. by vm_compute. }
  pose proof (setup_node 1 "2=:9002,0=x" "raft" 0 map_to_list (fun m => Permutation_refl _)) as Hs.
  rewrite E in Hs. destruct Hs as (n & Es & _ & _ & Hp). rewrite (proj2 Em) in Es.
  exists n, (RunRaft (Raft.New Raft.DefaultConfig true)).
  split; [exact Es|]. split; [|by rewrite Hp]. by rewrite Hp, (proj1 Em).
Defined.
