(* ===== verification/NodeMain.v ===== *)
(** NodeMain: a run of [src/cmd/node/main.go] from the flags to the exit code.

    [main] is sequential: it builds the node ([NodeCmd]), starts it, starts the
    reporter, waits for a signal, stops both.  The node's goroutines and the
    reporter's loop run meanwhile; what they do is in [Host], [Shutdown] and
    [Reporter], and what [main] sees of them, and of the operating system, is
    the argument [World].  The lines of the log are data. *)
From stdpp Require Import pretty strings.
From S2P Require Import Prelude Message SendQueue Router Collector Peer Node Snapshot Reporter NodeCmd.
#[local] Open Scope Z_scope.

(** * Definitions *)

(** The lines [main] logs, in order *)
Inductive line : Set :=
  | WarnAddPeer (id : Z)
  | Running (algo : string)
  | Fatal (e : main_error)
  | FatalStart (e : Lifecycle.start_error)
  | ListeningOn (addr : string)
  | ShuttingDown.

(** [log.Fatalf] and [os.Exit(1)] end with 1. *)
Inductive outcome_of_main : Type :=
  | Exit (code : Z) (log : list line) (out : Output)
  | Waits (log : list line) (out : Output).

Record World := mkWorld {
  listens : option string;                    (* the transport's address, if it starts *)
  ticks : list (Io * MetricsSnapshot);        (* the reporter's ticks before the signal *)
  late_ticks : list (Io * MetricsSnapshot);   (* those its loop chose over the stop signal *)
  last_output : Io * MetricsSnapshot;
  json : MetricsSnapshot -> option (list string);
  json_written : write_result;
  flush_now : Z;
  flush_time : string;
  load : nat -> Collector;
}.

Definition csv_name (id : Z) : string := "node_" +:+ decimal id +:+ "_metrics.csv".
Definition json_name (id : Z) : string := "node_" +:+ decimal id +:+ "_final.json".

Definition Second : Z := 1000000000.

Definition ticker (o : Io * MetricsSnapshot) : choice := OnTicker o.1 o.2.

(** The reporter from its start to its stop, around the wait for the signal *)
Definition report (id : Z) (x : World) (out : Output) : outcome (option Output) :=
  let r := Reporter.Start (NewReporter (5 * Second) [WithCSVOutput (csv_name id)]) in
  '(_, r, out) ← loop (ticker <$> ticks x) r out;
  r ← Stop_begin r;
  let '(_, r, out) := rounds ((ticker <$> late_ticks x) ++ [OnStop (last_output x).1 (last_output x).2]) r out in
  Ret (match Stop_end r with Some _ => Some out | None => None end).

Definition main (idFlag : Z) (peersFlag algoFlag : string) (now : Z)
    (order : gmap Z string -> list (Z * string)) (x : World) (out : Output) : outcome outcome_of_main :=
  let nodeID := wrap 16 idFlag in
  '(warnings, s) ← setup idFlag peersFlag algoFlag now order;
  let log := WarnAddPeer <$> warnings in
  match s with
  | Err e => Ret (Exit 1 (log ++ [Fatal e]) out)
  | Ok (n, a) =>
      let log := log ++ [Running algoFlag] in
      '(err, st) ← Lifecycle.Start (bool_decide (is_Some (listens x))) true Lifecycle.New;
      match err with
      | Some e => Ret (Exit 1 (log ++ [FatalStart e]) out)
      | None =>
          let log := log ++ [ListeningOn (default "" (listens x))] in
          reported ← report nodeID x out;
          let log := log ++ [ShuttingDown] in
          match reported with
          | None => Ret (Waits log out)
          | Some out =>
              '(_, out) ← FlushToFile (json x) (json_written x) (flush_now x) (flush_time x) (load x)
                            (json_name nodeID) out;
              _ ← Lifecycle.Stop st;
              Ret (Exit 0 log out)
          end
      end
  end.

(** * The reporter's run *)

(** An iteration of [loop] only touches the file and the log. *)
Lemma output_frame io snap r out r' out' :
  output io snap r out = (r', out') ->
  csvPath r' = csvPath r /\ interval r' = interval r /\ logger r' = logger r /\ wg r' = wg r /\
  stop_closed r' = stop_closed r /\
  forall path, path <> csvPath r -> disk out' !! path = disk out !! path.
Proof.
  unfold output, appendCSV. intros E.
  repeat case_match; simplify_eq; cbn; split_and!; try done; intros path Hp;
    unfold write_record; repeat case_match; cbn; by rewrite ?lookup_insert_ne by done.
Qed.

Lemma rounds_frame cs r out b r' out' :
  rounds cs r out = (b, r', out') ->
  forall path, path <> csvPath r -> disk out' !! path = disk out !! path.
Proof.
  revert r out. induction cs as [|[io snap|io snap] cs IH]; intros r out; cbn [rounds].
  - by intros [= _ _ <-].
  - destruct (output io snap r out) as [r1 out1] eqn:E1. intros E path Hp.
    destruct (output_frame _ _ _ _ _ _ E1) as (Ep & _ & _ & _ & _ & Hf).
    rewrite (IH _ _ E path); [by apply Hf|by rewrite Ep].
  - destruct (output io snap r out) as [r1 out1] eqn:E1. intros [= _ _ <-] path Hp.
    by apply (output_frame _ _ _ _ _ _ E1).
Qed.

(** Closing [stopCh] changes nothing an iteration looks at. *)
Definition closing (r : Reporter) : Reporter :=
  mkReporter (interval r) (logger r) (csvPath r) (csvFile r) true (wg r).

Lemma output_closing io snap r out :
  output io snap (closing r) out = (closing (output io snap r out).1, (output io snap r out).2).
Proof. unfold output, appendCSV. cbn. by repeat case_match. Qed.

(** Ticks, the stop signal and more iterations are one run of the loop. *)
Lemma rounds_app ts cs r out :
  rounds ((ticker <$> ts) ++ cs) r out
  = let '(_, r, out) := rounds (ticker <$> ts) r out in rounds cs r out.
Proof.
  revert r out. induction ts as [|[io snap] ts IH]; intros r out; [done|].
  cbn [fmap list_fmap app rounds ticker fst snd]. destruct (output io snap r out). apply IH.
Qed.

Lemma rounds_closing cs r out :
  rounds cs (closing r) out = (let '(b, r, out) := rounds cs r out in (b, closing r, out)).
Proof.
  revert r out. induction cs as [|[io snap|io snap] cs IH]; intros r out; cbn [rounds]; [done|..];
    rewrite output_closing; destruct (output io snap r out); cbn; [apply IH|done].
Qed.

Lemma rounds_open_stop ts r out :
  stop_closed r = false -> exists r' out', rounds (ticker <$> ts) r out = (false, r', out') /\
    stop_closed r' = false.
Proof.
  revert r out. induction ts as [|[io snap] ts IH]; intros r out Hr; cbn [fmap list_fmap rounds ticker fst snd].
  - by exists r, out.
  - destruct (output io snap r out) as [r1 out1] eqn:E. apply IH.
    by destruct (output_frame _ _ _ _ _ _ E) as (_ & _ & _ & _ & -> & _).
Qed.

(** Everything the reporter puts out in its life, in order *)
Definition all_outputs (x : World) : list (Io * MetricsSnapshot) := ticks x ++ late_ticks x ++ [last_output x].

Definition all_choices (x : World) : list choice :=
  (ticker <$> ticks x) ++ (ticker <$> late_ticks x) ++ [OnStop (last_output x).1 (last_output x).2].

Lemma outputs_all x : outputs (all_choices x) = all_outputs x.
Proof.
  unfold all_choices, all_outputs. induction (ticks x) as [|[io snap] ts IH]; cbn; [|by rewrite IH].
  induction (late_ticks x) as [|[io snap] ls IH]; cbn; [by destruct (last_output x)|by rewrite IH].
Qed.

Lemma stops_all x : existsb is_stop (all_choices x) = true.
Proof. unfold all_choices. rewrite !existsb_app. cbn. by rewrite !orb_true_r. Qed.

Definition io_ok (x : World) : Prop := Forall writes_ok (all_outputs x).*1.

(** The reporter never blocks [main], and its file is the one of all its outputs. *)
Lemma report_spec id x out :
  io_ok x -> exists out', report id x out = Ret (Some out') /\
    contents (csv_name id) out' = with_rows (contents (csv_name id) out) (reached (all_outputs x)) /\
    forall path, path <> csv_name id -> disk out' !! path = disk out !! path.
Proof.
  intros Hio. unfold report. set (r := Reporter.Start _).
  assert (Hp : csvPath r <> "") by done.
  destruct (loop_nil (all_choices x) r out Hp eq_refl) as (b & r' & out' & E & Hwg & Hb & Hc);
    [by rewrite outputs_all|].
  rewrite stops_all in Hb. subst b. rewrite outputs_all in Hc. pose proof (rounds_frame _ _ _ _ _ _ E) as Hf.
  unfold all_choices in E. rewrite rounds_app in E. unfold loop.
  change (interval r <=? 0) with false. cbv iota.
  destruct (rounds_open_stop (ticks x) r out eq_refl) as (r1 & out1 & E1 & Hs). rewrite E1 in E |- *.
  rewrite bind_Ret. cbv beta iota zeta. unfold Stop_begin. rewrite Hs, bind_Ret. fold (closing r1).
  rewrite rounds_closing, E. unfold Stop_end. cbn [closing wg]. rewrite Hwg. cbn.
  exists out'. split; [done|]. by split.
Qed.

(** The two files of a node, and of two nodes, have different names. *)
Lemma csv_not_json i j : csv_name i <> json_name j.
Proof.
  unfold csv_name, json_name. intros E.
  apply (f_equal (fun s => head (rev (String.list_ascii_of_string s)))) in E.
  by rewrite !list_ascii_app, !rev_app_distr in E.
Qed.

(** What [main] leaves behind when it ends regularly *)
Record shut_down (id : Z) (x : World) (m : gmap Z string) (algo : string) (log : list line)
    (out out' : Output) : Prop := {
  sd_log : exists addr, listens x = Some addr /\
    log = (WarnAddPeer <$> zero_warning m) ++
          [Running algo; ListeningOn addr; ShuttingDown];
  sd_csv : contents (csv_name id) out' = with_rows (contents (csv_name id) out) (reached (all_outputs x));
  sd_json : exists snap, Snapshot (flush_now x) (flush_time x) (load x) = Ret snap /\
    disk out' !! json_name id = exported_file (json x) (json_written x) snap (disk out !! json_name id);
  sd_rest : forall path, path <> csv_name id -> path <> json_name id -> disk out' !! path = disk out !! path;
}.

(** * Properties *)

(** C31: a run of the node command.  For every command line, [main] ends, unless
    the peer list does not parse, the algorithm is unknown or the transport does
    not start, in which case it exits with 1 and has touched no file.  Otherwise
    it warns about the peer 0 at most, runs until the signal and exits with 0.
    When the file system carries out every write to the CSV file and every
    [Stat] of it ([io_ok]; opening it may fail), that file then holds what it
    held before, the header if it held nothing, and a row for every output of
    the reporter from the first one for which it could be opened ([reached]),
    the last output, after the signal, included.  The JSON file holds the final
    snapshot, what it held before if the snapshot could not be marshalled or the
    file not opened, or the beginning of the document if the write broke off;
    and no other file has changed. *)
Theorem node_main_run idFlag peersFlag algo now order x out :
  (forall m, order m ≡ₚ map_to_list m) -> io_ok x ->
  exists code log out', main idFlag peersFlag algo now order x out = Ret (Exit code log out') /\
    match parsePeers peersFlag with
    | Ok m =>
        if decide (algo ∈ algorithms /\ is_Some (listens x))
        then code = 0 /\ shut_down (wrap 16 idFlag) x m algo log out out'
        else code = 1 /\ out' = out
    | Err e => code = 1 /\ log = [Fatal (ParsePeers e)] /\ out' = out
    end.
Proof.
  intros Ho Hio. pose proof (setup_builds idFlag peersFlag algo now order Ho) as Hs. unfold main.
  set (id := wrap 16 idFlag) in *.
  destruct (parsePeers peersFlag) as [m|e]; [|rewrite Hs, bind_Ret; by do 3 eexists].
  destruct (make_algorithm algo id) as [a|e] eqn:Ea.
  2: { rewrite Hs, bind_Ret. do 3 eexists. split; [done|]. rewrite decide_False; [done|].
       intros [(a & Ha)%(make_algorithm_ok _ id) _]. congruence. }
  destruct Hs as (n & Es & _). rewrite Es, bind_Ret. cbv beta iota zeta.
  apply make_algorithm_known in Ea. destruct (listens x) as [addr|] eqn:El.
  2: { do 3 eexists. split; [reflexivity|]. rewrite decide_False; [done|]. by intros [_ [? ?]]. }
  destruct (decide (algo ∈ algorithms /\ is_Some (Some addr))) as [_|[]]; [|by split].
  destruct (report_spec id x out Hio) as (out1 & Er & Hc & Hf).
  destruct (Snapshot_stats (flush_now x) (flush_time x) (load x)) as (snap & Esnap & _).
  change (bool_decide (is_Some (Some addr))) with true. unfold Lifecycle.Start, Lifecycle.Stop.
  cbn [negb Lifecycle.New Lifecycle.stop_closed]. rewrite bind_Ret. cbv beta iota zeta.
  rewrite Er, bind_Ret. cbv beta iota zeta. unfold FlushToFile. rewrite Esnap, bind_Ret.
  pose proof (ExportJSON_disk (json x) (json_written x) snap (json_name id) out1) as Ej.
  destruct (ExportJSON _ _ _ _ _) as [ok out2]. destruct Ej as (_ & _ & Ej & Eo). rewrite bind_Ret. cbv beta iota zeta.
  do 3 eexists. split; [reflexivity|]. split; [done|]. split.
  - exists addr. split; [done|]. by rewrite <- !app_assoc.
  - rewrite <- Hc. unfold contents. by rewrite Eo by apply csv_not_json.
  - exists snap. split; [done|]. by rewrite Ej, (Hf (json_name id)) by (intros E; by apply (csv_not_json id id)).
  - intros path H1 H2. by rewrite Eo, Hf.
Qed.

(** ** Witness *)

Definition quiet_collector : Collector := NewCollector 7 0.

(** Two ticks before the signal and one after it; the disk is full after two
    bytes of the last snapshot. *)
Definition some_world : World :=
  mkWorld (Some ":9001") [(all_ok, a_snapshot 1); (no_open, a_snapshot 2)] [(all_ok, a_snapshot 3)]
    (all_ok, a_snapshot 4) (fun s => Some [s_Timestamp s]) (Partial 2) 5 "2025" (fun _ => quiet_collector).

Lemma node_main_run_witness :
  exists log out', main 7 "2=:9002,0=x" "raft" 0 map_to_list some_world (mkOutput [] ∅) = Ret (Exit 0 log out') /\
    contents "node_7_metrics.csv" out' = csvHeader :: (csvRow <$> [a_snapshot 1; a_snapshot 2; a_snapshot 3; a_snapshot 4]) /\
    disk out' !! "node_7_final.json" = Some [["20"]].
Proof.
  destruct (node_main_run 7 "2=:9002,0=x" "raft" 0 map_to_list some_world (mkOutput [] ∅))
    as (code & log & out' & E & Hr); [done|by repeat constructor|].
  destruct (parsePeers "2=:9002,0=x") as [m|e] eqn:Em; [|vm_compute in Em; discriminate Em].
  rewrite decide_True in Hr by (split; [apply (bool_decide_unpack _); vm_compute; exact I|by eexists]).
  destruct Hr as (-> & [_ Hc (snap & Es & Hj) _]). exists log, out'. split; [exact E|]. split; [exact Hc|].
  etrans; [exact Hj|].
  vm_compute in Es. by injection Es as <-.
Defined.
