(* ===== verification/Bench.v ===== *)
(** Bench: the gossip convergence benchmark ([src/cmd/gossip_bench/main.go]).

    [main] builds a full mesh of gossip nodes, lets every node set one key of
    its own, polls the sizes of the replicated states until each has as many
    entries as there are nodes, then checks that no key is missing.  The nodes
    run meanwhile: the run is that of [GossipNet], whose only writes are the
    seeds. *)
From stdpp Require Import countable pretty.
From Stdlib Require Import Ascii.
From S2P Require Import Prelude Message SendQueue Router Collector Peer Node.
From S2P Require Import GossipLive Snapshot NodeCmd.
#[local] Open Scope Z_scope.

(** * Set-up *)

Record nodeBundle := mkBundle { nb_id : Z; nb_node : Node; nb_algo : Gossip.Algorithm }.

(** [uint16(i + 1)] *)
Definition bench_id (i : Z) : Z := wrap 16 (i + 1).

Fixpoint build_nodes (indices : list Z) (fanout interval now : Z) : outcome (list nodeBundle) :=
  match indices with
  | [] => Ret []
  | i :: indices =>
      let id := bench_id i in
      let mc := NewCollector id now in
      n ← NewNodeWith id [WithSendQueueSize 512; WithRecvBufSize 256; WithMetrics mc];
      nodes ← build_nodes indices fanout interval now;
      Ret (mkBundle id n (Gossip.New fanout interval) :: nodes)
  end.

(** The inner loop of the registration of peers; errors are ignored. *)
Fixpoint mesh_one (addr : Z -> string) (i : Z) (peers : list (Z * Z)) (n : Node) : Node :=
  match peers with
  | [] => n
  | (j, id) :: peers =>
      if decide (i = j) then mesh_one addr i peers n
      else mesh_one addr i peers (match AddPeer id (addr j) n with Ok n => n | Err _ => n end)
  end.

Definition mesh (addr : Z -> string) (nodes : list nodeBundle) : list nodeBundle :=
  let indexed := imap (fun j nb => (Z.of_nat j, nb_id nb)) nodes in
  imap (fun i nb => mkBundle (nb_id nb) (mesh_one addr (Z.of_nat i) indexed (nb_node nb)) (nb_algo nb)) nodes.

Definition build (numNodes fanout interval now : Z) (addr : Z -> string) : outcome (list nodeBundle) :=
  if decide (numNodes < 0) then Panic InvalidArgument
  else nodes ← build_nodes (seqZ 0 numNodes) fanout interval now; Ret (mesh addr nodes).

(** [fmt.Sprintf("pos_%d", id)] and the position *)
Definition pos_key (id : Z) : string := "pos_" +:+ decimal id.
Definition pos_value (id : Z) : string :=
  "x=" +:+ fixed 1 (fmul (of_int id) (of_int 10)) +:+ ",y=" +:+ fixed 1 (fmul (of_int id) (of_int 5)) +:+
  ",z=" +:+ fixed 1 (of_int 100).

(** [nodes[i].algo.Set(key, val)] *)
Definition seed (id : Z) (a : Gossip.Algorithm) : Gossip.Algorithm :=
  Gossip.SetKey (pos_key id) (pos_value id) a.

(** * Polling and verification *)

(** What the [select] of the loop chose; the snapshots are those the loop over
    the nodes takes.  The loop stops at the first node with too few keys: the
    snapshots after that one do not matter. *)
Inductive poll : Type :=
  | Deadline
  | PollTick (elapsed : Z) (snaps : list (Z * Gossip.Algorithm)).

Definition allConverged (expectedKeys : Z) (snaps : list (Z * Gossip.Algorithm)) : bool :=
  forallb (fun s => expectedKeys <=? Z.of_nat (size (Gossip.StateSnapshot s.2))) snaps.

(** [convergedAt], 0 after a timeout; [None] while the loop is still waiting *)
Fixpoint convergenceLoop (expectedKeys : Z) (polls : list poll) : option Z :=
  match polls with
  | [] => None
  | Deadline :: _ => Some 0
  | PollTick elapsed snaps :: polls =>
      if allConverged expectedKeys snaps then Some elapsed else convergenceLoop expectedKeys polls
  end.

Definition missing (ids : list Z) (a : Gossip.Algorithm) : Z :=
  zlen (filter (fun id => Gossip.StateSnapshot a !! pos_key id = None) ids).

Definition allMatch (ids : list Z) (snaps : list (Z * Gossip.Algorithm)) : bool :=
  forallb (fun s => negb (missing ids s.2 >? 0)) snaps.

Definition success (convergedAt : Z) : bool := convergedAt >? 0.
Definition exit_code (all_match : bool) : Z := if all_match then 0 else 1.

(** The [uint64] totals of the report *)
Definition total_of (field : MetricsSnapshot -> Z) (snaps : list MetricsSnapshot) : Z :=
  foldl (fun t s => t +[64] field s) 0 snaps.

Definition totals (snaps : list MetricsSnapshot) : list Z :=
  (fun field => total_of field snaps) <$>
    [s_MessagesSent; s_MessagesRecv; s_BytesSent; s_BytesRecv;
     s_DedupDropped; s_TTLExpiredDropped; s_QueueOverflowDropped; s_SendErrors].

(** * The mesh *)

(** A node before its peers are registered *)
Definition fresh_bundle (fanout interval : Z) (nb : nodeBundle) : Prop :=
  node_ok 0 (nb_node nb) /\ n_id (nb_node nb) = nb_id nb /\ n_pm (nb_node nb) = NewPeerManager /\
  nb_algo nb = Gossip.New fanout interval.

Lemma build_nodes_spec indices fanout interval now :
  exists nodes, build_nodes indices fanout interval now = Ret nodes /\
    nb_id <$> nodes = bench_id <$> indices /\ Forall (fresh_bundle fanout interval) nodes.
Proof.
  induction indices as [|i indices (nodes & E & Ei & Hf)]; cbn [build_nodes]; [by exists []|].
  change (NewNodeWith _ _) with (NewNode (bench_id i) 512 (Some (NewCollector (bench_id i) now))).
  destruct (NewNode_ok (bench_id i) 512 (Some (NewCollector (bench_id i) now)))
    as (n & En & Hn & Hid); [by apply wrap_bound|lia|]. rewrite En, bind_Ret, E, bind_Ret.
  eexists. split; [reflexivity|]. split; [cbn; by rewrite Ei|]. constructor; [|done].
  split; [done|]. split; [done|]. split; [|done].
  unfold NewNode in En. destruct (NewSendQueue 512); [|done]. by injection En as <-.
Qed.

(** The inner loop registers every other node, and changes nothing else. *)
Lemma mesh_one_spec addr i peers n :
  NoDup peers.*2 -> (forall j id, (j, id) ∈ peers -> id <> 0) ->
  let n' := mesh_one addr i peers n in
  (forall j v, (j, v) ∈ peers -> j <> i -> PeerAddr v n' = Some (addr j)) /\
  (forall v, (forall j, (j, v) ∈ peers -> j = i) -> PeerAddr v n' = PeerAddr v n) /\
  n_id n' = n_id n /\ (forall k, node_ok k n -> node_ok k n').
Proof.
  revert n. induction peers as [|[j id] peers IH]; intros n Hnd H0; cbn [mesh_one].
  { split; [by intros j v ?%elem_of_nil|]. by split_and!. }
  apply NoDup_cons in Hnd as [Hid Hnd]. cbn [fst snd] in Hid.
  assert (Hnew : forall k, (k, id) ∉ peers) by (intros k Hk; apply Hid, list_elem_of_fmap; by exists (k, id)).
  assert (H0' : forall k v, (k, v) ∈ peers -> v <> 0) by (intros k v Hk; apply (H0 k); by right).
  destruct (decide (i = j)) as [<-|Hij].
  - destruct (IH n Hnd H0') as (A & B & C & D). split; [|split; [|done]].
    + intros k v [[= -> ->]|Hk]%elem_of_cons Hne; [done|by apply A].
    + intros v Hv. apply B. intros k Hk. apply Hv. by right.
  - unfold AddPeer, Peer.Add. rewrite decide_False by (apply (H0 j); left).
    set (n1 := mkNode _ _ _ _ _ _). destruct (IH n1 Hnd H0') as (A & B & C & D).
    split; [|split; [|split; [done|]]].
    + intros k v [[= -> ->]|Hk]%elem_of_cons Hne; [|by apply A].
      rewrite B; [|intros k Hk; by destruct (Hnew k)].
      unfold PeerAddr, Peer.Get. cbn. by rewrite lookup_insert_eq.
    + intros v Hv. rewrite B; [|intros k Hk; apply Hv; by right].
      unfold PeerAddr, Peer.Get. cbn. rewrite lookup_insert_ne; [done|].
      intros <-. apply Hij. symmetry. apply Hv. left.
    + intros k []. apply D. by split.
Qed.

(** * The keys *)

Lemma pos_key_inj i j : pos_key i = pos_key j -> i = j.
Proof. intros E. apply (inj pretty). unfold pos_key, decimal in E. by simplify_eq. Qed.

Lemma ascii_string_app s t : ascii_string s = true -> ascii_string t = true -> ascii_string (s +:+ t) = true.
Proof.
  unfold ascii_string. intros Hs Ht. induction s as [|c s IH]; [done|].
  change (String c s +:+ t) with (String c (s +:+ t)). cbn [String.list_ascii_of_string forallb] in *.
  apply andb_prop in Hs as [-> Hs]. by rewrite IH.
Qed.

Lemma ascii_string_cons c s :
  ascii_string (String c s) = bool_decide (nat_of_ascii c < 128)%nat && ascii_string s.
Proof. done. Qed.

Lemma ascii_substring n m s : ascii_string s = true -> ascii_string (String.substring n m s) = true.
Proof.
  revert n m. induction s as [|c s IH]; intros n m Hs; [by destruct n, m|].
  rewrite ascii_string_cons in Hs. apply andb_prop in Hs as [Hc Hs].
  destruct n, m; cbn [String.substring]; try done; rewrite ?ascii_string_cons, ?Hc; by apply IH.
Qed.

Lemma ascii_repeat c n : (nat_of_ascii c < 128)%nat -> ascii_string (repeat_char c n) = true.
Proof.
  intros Hc. induction n as [|n IH]; [done|]. cbn [repeat_char]. rewrite ascii_string_cons, IH.
  by rewrite bool_decide_true.
Qed.

Lemma digit_ascii c : is_Some (digit c) -> (nat_of_ascii c < 128)%nat.
Proof. intros [d Hd]. unfold digit in Hd. case_decide; [lia|done]. Qed.

Lemma ascii_decimal z : 0 <= z -> ascii_string (decimal z) = true.
Proof.
  intros Hz. destruct (decimal_digits z Hz) as [_ Hd]. unfold ascii_string. fold (to_chars (decimal z)).
  apply forallb_forall. intros c Hc%list_elem_of_In. rewrite Forall_forall in Hd.
  apply bool_decide_eq_true. by apply digit_ascii, Hd.
Qed.

Lemma scaled_nonneg k m e : 0 <= scaled k m e.
Proof.
  unfold scaled, round_half_even.
  assert (0 <= (Zpos m * 10 ^ Z.of_nat k * 2 ^ Z.max e 0) `div` 2 ^ Z.max (- e) 0).
  { apply Z.div_pos; [|apply Z.pow_pos_nonneg; lia].
    pose proof (Z.pow_pos_nonneg 10 (Z.of_nat k) ltac:(lia) ltac:(lia)).
    pose proof (Z.pow_pos_nonneg 2 (Z.max e 0) ltac:(lia) ltac:(lia)). nia. }
  repeat case_match; lia.
Qed.

Lemma ascii_with_point k z : 0 <= z -> ascii_string (with_point k z) = true.
Proof.
  intros Hz. unfold with_point. cbv zeta.
  assert (Hs : ascii_string (repeat_char "0" (S k - String.length (decimal z)) +:+ decimal z) = true).
  { apply ascii_string_app; [|by apply ascii_decimal]. apply ascii_repeat. apply Nat.ltb_lt. by vm_compute. }
  apply ascii_string_app; [by apply ascii_substring|]. destruct k; [done|].
  apply ascii_string_app; [done|by apply ascii_substring].
Qed.

Lemma ascii_fixed k x : ascii_string (fixed k x) = true.
Proof.
  unfold fixed. destruct x as [s|s| |s m e]; try (by destruct s); try done; apply ascii_string_app;
    try (by destruct s); apply ascii_with_point; [done|apply scaled_nonneg].
Qed.

Lemma ascii_pos id : 0 <= id -> ascii_string (pos_key id) = true /\ ascii_string (pos_value id) = true.
Proof.
  intros Hid. unfold pos_key, pos_value.
  split; repeat apply ascii_string_app; try done; first [by apply ascii_decimal|apply ascii_fixed].
Qed.

(** * The run *)

Section bench.
Context `{GossipJson} (n : Z).

Definition ids : list Z := bench_id <$> seqZ 0 n.

(** The node that sets a key *)
Definition owner (k : string) : Z := default 0 (List.find (fun v => bool_decide (pos_key v = k)) ids).

Definition seeds (s : list Z) : list (string * Entry string) :=
  (fun v => (pos_key v, mkEntry (pos_value v) 1)) <$> s.

(** The nodes tick and receive; [main] seeds each of them once. *)
Inductive bstep : World * list Z -> World * list Z -> Prop :=
  | b_quiet w w' s : quiet ids w w' -> bstep (w, s) (w', s)
  | b_seed w s v a :
      v ∈ ids -> v ∉ s -> g_nodes w !! v = Some a ->
      bstep (w, s) (mkWorld (<[v := seed v a]> (g_nodes w)) (g_net w)
                      (g_writes w ++ from_option (fun e => [(pos_key v, e)]) [] (Gossip.Get (pos_key v) (seed v a))),
                    s ++ [v]).

Definition breach (fo iv : Z) (k : nat) (ws : World * list Z) : Prop :=
  nsteps bstep k (GossipNet.init ids fo iv, []) ws.

Hypothesis Hn : 0 <= n < 2 ^ 16.

Lemma ids_seqZ : ids = seqZ 1 n.
Proof.
  unfold ids. apply list_eq. intros i. rewrite list_lookup_fmap.
  destruct (decide (Z.of_nat i < n)) as [Hi|Hi].
  - rewrite !lookup_seqZ_lt by lia. cbn. unfold bench_id. f_equal. rewrite wrap_small by (unfold is_uint; lia). lia.
  - by rewrite !lookup_seqZ_ge by lia.
Qed.

Lemma ids_NoDup : NoDup ids.
Proof. rewrite ids_seqZ. apply NoDup_seqZ. Qed.

Lemma elem_of_ids v : v ∈ ids <-> 1 <= v <= n.
Proof. rewrite ids_seqZ, elem_of_seqZ. lia. Qed.

Lemma owner_pos v : v ∈ ids -> owner (pos_key v) = v.
Proof.
  intros Hv. unfold owner. destruct (List.find _ ids) as [u|] eqn:E.
  - apply find_some in E as [_ E]. apply bool_decide_eq_true in E. by apply pos_key_inj.
  - apply list_elem_of_In in Hv. apply (List.find_none _ _ E) in Hv. by apply bool_decide_eq_false in Hv.
Qed.

Lemma bstep_step w s w' s' : bstep (w, s) (w', s') -> GossipNet.step ids owner w w'.
Proof.
  inversion 1 as [? ? ? Hq|? ? v a Hv Hs Ha]; subst; [by apply quiet_is_step|].
  destruct (ascii_pos v) as [H1 H2]; [apply elem_of_ids in Hv; lia|].
  pose proof (step_set ids owner w (pos_key v) (pos_value v) a) as Hst. rewrite (owner_pos v Hv) in Hst.
  by apply Hst.
Qed.

Lemma breach_reach fo iv k ws : breach fo iv k ws -> GossipNet.reach ids owner fo iv k ws.1.
Proof.
  unfold breach, GossipNet.reach. intros Hr.
  assert (Hg : forall k ws0 ws, nsteps bstep k ws0 ws -> nsteps (GossipNet.step ids owner) k ws0.1 ws.1).
  { clear -Hn. induction 1 as [|k [w0 s0] [w1 s1] ws Hs _ IH]; [constructor|].
    econstructor; [by eapply bstep_step|exact IH]. }
  exact (Hg _ _ _ Hr).
Qed.

(** What has been written is what has been seeded. *)
Lemma bench_writes fo iv k w s :
  Z.of_nat k < 2 ^ 64 -> breach fo iv k (w, s) -> g_writes w = seeds s /\ forall v, v ∈ s -> v ∈ ids.
Proof.
  revert w s. induction k as [|k IH]; intros w s Hk Hr.
  { inversion Hr; subst. split; [done|]. by intros v ?%elem_of_nil. }
  apply nsteps_inv_r in Hr as ([w1 s1] & Hr & Hs). destruct (IH w1 s1 ltac:(lia) Hr) as [Ew Hs1].
  inversion Hs as [? ? ? Hq|? ? v a Hv Hnew Ha]; subst; [by destruct Hq|].
  split; [|intros u [Hu| ->%list_elem_of_singleton]%elem_of_app; auto].
  cbn [g_writes]. unfold seeds. rewrite fmap_app, Ew. f_equal.
  unfold Gossip.Get, seed, Gossip.SetKey. cbn. rewrite lookup_insert_eq. cbn.
  destruct (Gossip.state a !! pos_key v) as [e|] eqn:Ee; [|done]. exfalso. apply Hnew.
  pose proof (ginv_reach ids owner fo iv k w1 ids_NoDup ltac:(lia) (breach_reach _ _ _ _ Hr)) as Hi.
  pose proof (gi_nodes _ _ _ _ Hi v a _ e Ha Ee) as Hin. rewrite Ew in Hin.
  apply list_elem_of_fmap in Hin as (u & E & Hu).
  assert (Ek : pos_key v = pos_key u) by congruence. by apply pos_key_inj in Ek as ->.
Qed.

(** No step removes a key. *)
Lemma bstep_keeps_key fo iv m w s w' s' v a k :
  Z.of_nat m < 2 ^ 64 -> breach fo iv m (w, s) -> bstep (w, s) (w', s') ->
  g_nodes w !! v = Some a -> is_Some (Gossip.state a !! k) ->
  exists a', g_nodes w' !! v = Some a' /\ is_Some (Gossip.state a' !! k).
Proof.
  intros Hm Hr Hs Ha Hk.
  pose proof (ginv_reach ids owner fo iv m w ids_NoDup Hm (breach_reach _ _ _ _ Hr)) as Hi.
  inversion Hs as [? ? ? Hq|? ? u b Hu Hnew Hb]; subst.
  - destruct Hq as [u h e b b' fx seqs Hev Hb He Eh]. cbn. destruct (decide (v = u)) as [->|Hne].
    + rewrite lookup_insert_eq. eexists. split; [done|]. rewrite Ha in Hb. injection Hb as <-.
      destruct (gi_fanout _ _ _ _ Hi u a Ha) as [Hf Hiv].
      pose proof (wp_elim _ _ _ _ _ _ _ _ (event_gstep ids w u h e a ids_NoDup Hev Hf Hiv He) Eh)
        as (_ & [-> | (m0 & r & _ & _ & ->)] & _); [done|].
      destruct Hk as [x Hx]. rewrite lookup_join, Hx. destruct (r !! k); eauto.
    + rewrite lookup_insert_ne by done. eauto.
  - cbn. destruct (decide (v = u)) as [->|Hne].
    + rewrite lookup_insert_eq. eexists. split; [done|]. rewrite Ha in Hb. injection Hb as <-.
      cbn. rewrite lookup_insert. case_decide; eauto.
    + rewrite lookup_insert_ne by done. eauto.
Qed.

(** A world of the run, and one that the run reaches from it *)
Definition earlier (fo iv : Z) (k : nat) (w0 : World) (w : World) (s : list Z) : Prop :=
  exists k0 k1 s0, (k0 + k1)%nat = k /\ breach fo iv k0 (w0, s0) /\ nsteps bstep k1 (w0, s0) (w, s).

Lemma earlier_keeps_key fo iv k w0 w s v a key :
  Z.of_nat k < 2 ^ 64 -> earlier fo iv k w0 w s -> g_nodes w0 !! v = Some a ->
  is_Some (Gossip.state a !! key) ->
  exists a', g_nodes w !! v = Some a' /\ is_Some (Gossip.state a' !! key).
Proof.
  intros Hk (k0 & k1 & s0 & <- & Hr & Hs). revert k0 w0 s0 a Hk Hr Hs.
  induction k1 as [|k1 IH]; intros k0 w0 s0 a Hk Hr Hs Ha Hkey.
  { inversion Hs; subst. by exists a. }
  inversion Hs as [|? ? [w1 s1] ? Hs1 Hs2]; subst.
  destruct (bstep_keeps_key fo iv k0 w0 s0 w1 s1 v a key ltac:(lia) Hr Hs1 Ha Hkey) as (a1 & Ha1 & Hk1).
  apply (IH (S k0) w1 s1 a1); [lia| |done..]. apply nsteps_r with (w0, s0); done.
Qed.

Definition all_keys : gset string := list_to_set (pos_key <$> ids).

Lemma state_keys fo iv k w s v a :
  Z.of_nat k < 2 ^ 64 -> breach fo iv k (w, s) -> g_nodes w !! v = Some a -> dom (Gossip.state a) ⊆ all_keys.
Proof.
  intros Hk Hr Ha key [e He]%elem_of_dom. destruct (bench_writes fo iv k w s Hk Hr) as [Ew Hs].
  pose proof (ginv_reach ids owner fo iv k w ids_NoDup Hk (breach_reach _ _ _ _ Hr)) as Hi.
  pose proof (gi_nodes _ _ _ _ Hi v a key e Ha He) as Hin. rewrite Ew in Hin.
  apply list_elem_of_fmap in Hin as (u & [= -> _] & Hu). apply elem_of_list_to_set, list_elem_of_fmap.
  exists u. auto.
Qed.

(** As many keys as nodes are all the keys. *)
Lemma enough_keys fo iv k w s v a :
  Z.of_nat k < 2 ^ 64 -> breach fo iv k (w, s) -> g_nodes w !! v = Some a ->
  n <= Z.of_nat (size (Gossip.StateSnapshot a)) -> dom (Gossip.state a) = all_keys.
Proof.
  intros Hk Hr Ha Hsz. rewrite Gossip.StateSnapshot_state, <- size_dom in Hsz.
  apply leibniz_equiv, set_subseteq_size_equiv; [by eapply state_keys|].
  unfold all_keys. rewrite size_list_to_set.
  - rewrite length_fmap, ids_seqZ, length_seqZ. lia.
  - apply NoDup_fmap_2; [intros i j; apply pos_key_inj|apply ids_NoDup].
Qed.

(** The state in which every node has every seed. *)
Definition agreed : Gossip.State := list_to_map (seeds ids).

Lemma all_seeds fo iv k w s v a :
  Z.of_nat k < 2 ^ 64 -> breach fo iv k (w, s) -> g_nodes w !! v = Some a ->
  all_keys ⊆ dom (Gossip.state a) -> Gossip.StateSnapshot a = agreed.
Proof.
  intros Hk Hr Ha Hkeys. rewrite Gossip.StateSnapshot_state. apply map_eq. intros key.
  destruct (bench_writes fo iv k w s Hk Hr) as [Ew Hs].
  pose proof (ginv_reach ids owner fo iv k w ids_NoDup Hk (breach_reach _ _ _ _ Hr)) as Hi.
  assert (Hnd : NoDup (seeds ids).*1).
  { unfold seeds. rewrite <- list_fmap_compose. apply NoDup_fmap_2; [intros i j; apply pos_key_inj|apply ids_NoDup]. }
  destruct (Gossip.state a !! key) as [e|] eqn:Ee.
  - pose proof (gi_nodes _ _ _ _ Hi v a key e Ha Ee) as Hin. rewrite Ew in Hin.
    apply list_elem_of_fmap in Hin as (u & [= -> ->] & Hu). symmetry. apply elem_of_list_to_map; [done|].
    apply list_elem_of_fmap. exists u. auto.
  - symmetry. apply not_elem_of_list_to_map. intros Hin. apply not_elem_of_dom in Ee. apply Ee, Hkeys.
    unfold all_keys, seeds in *. rewrite <- list_fmap_compose in Hin. by apply elem_of_list_to_set.
Qed.

(** [main] reads the states of the nodes one after the other, and the nodes go
    on meanwhile: between two reads, before the first and after the last. *)
Inductive reads : nat -> list Z -> World * list Z -> list (Z * Gossip.Algorithm) -> World * list Z -> Prop :=
  | reads_end k ws ws' : nsteps bstep k ws ws' -> reads k [] ws [] ws'
  | reads_node k k' v vs ws ws1 a snaps ws' :
      nsteps bstep k ws ws1 -> g_nodes ws1.1 !! v = Some a -> reads k' vs ws1 snaps ws' ->
      reads (k + k') (v :: vs) ws ((v, a) :: snaps) ws'.

Lemma reads_ids k vs ws snaps ws' : reads k vs ws snaps ws' -> snaps.*1 = vs.
Proof. induction 1 as [|???????????? IH]; [done|]. cbn. by rewrite IH. Qed.

Lemma reads_steps k vs ws snaps ws' : reads k vs ws snaps ws' -> nsteps bstep k ws ws'.
Proof. induction 1; [done|]. by eapply nsteps_trans. Qed.

(** What is read of a node is its state at a moment in between. *)
Lemma reads_moment k vs ws snaps ws' v a :
  reads k vs ws snaps ws' -> (v, a) ∈ snaps ->
  exists k1 k2 ws1, (k1 + k2)%nat = k /\ nsteps bstep k1 ws ws1 /\ nsteps bstep k2 ws1 ws' /\
    g_nodes ws1.1 !! v = Some a.
Proof.
  induction 1 as [|k k' u vs ws ws1 b snaps ws' Hs Hb Hr IH]; [by intros ?%elem_of_nil|].
  intros [[= -> ->]|Hin]%elem_of_cons.
  - exists k, k', ws1. split_and!; [done..|by eapply reads_steps|done].
  - destruct (IH Hin) as (k1 & k2 & ws2 & <- & H1 & H2 & Ha).
    exists (k + k1)%nat, k2, ws2. split_and!; [lia|by eapply nsteps_trans|done..].
Qed.

Lemma elem_of_agreed key : key ∈ dom agreed <-> key ∈ all_keys.
Proof.
  unfold agreed, all_keys, seeds. by rewrite dom_list_to_map, <- list_fmap_compose.
Qed.

(** A node that has every seed keeps them. *)
Lemma agreed_kept fo iv k w0 w s v a0 a :
  Z.of_nat k < 2 ^ 64 -> earlier fo iv k w0 w s ->
  g_nodes w0 !! v = Some a0 -> Gossip.StateSnapshot a0 = agreed ->
  g_nodes w !! v = Some a -> Gossip.StateSnapshot a = agreed.
Proof.
  intros Hk He Ha0 E Ha. pose proof He as (k0 & k1 & s0 & <- & Hr & Hs).
  eapply (all_seeds fo iv _ w s v a); [done|by eapply nsteps_trans|done|]. intros key Hkey.
  rewrite Gossip.StateSnapshot_state in E. apply elem_of_agreed in Hkey. rewrite <- E in Hkey.
  apply elem_of_dom in Hkey.
  destruct (earlier_keeps_key fo iv _ w0 w s v a0 key Hk He Ha0 Hkey) as (a' & Ha' & Hk').
  rewrite Ha in Ha'. injection Ha' as <-. by apply elem_of_dom.
Qed.

End bench.

(** * What is built *)

(** Every node knows exactly the others, at the addresses they listen on. *)
Record full_mesh (n fanout interval : Z) (addr : Z -> string) (nodes : list nodeBundle) : Prop := {
  fm_ids : nb_id <$> nodes = ids n;
  fm_nodes : forall nb, nb ∈ nodes -> node_ok 0 (nb_node nb) /\ n_id (nb_node nb) = nb_id nb /\
    nb_algo nb = Gossip.New fanout interval;
  fm_peers : forall nb v, nb ∈ nodes -> PeerAddr v (nb_node nb)
    = if decide (v ∈ ids n /\ v <> nb_id nb) then Some (addr (v - 1)) else None;
}.

Lemma indexed_spec n (nodes : list nodeBundle) :
  0 <= n < 2 ^ 16 -> nb_id <$> nodes = ids n ->
  let indexed := imap (fun j nb => (Z.of_nat j, nb_id nb)) nodes in
  indexed.*2 = ids n /\ (forall i nb, nodes !! i = Some nb -> nb_id nb = Z.of_nat i + 1) /\
  (forall j v, (j, v) ∈ indexed <-> v ∈ ids n /\ j = v - 1).
Proof.
  intros Hn Ei indexed.
  assert (Hnth : forall i nb, nodes !! i = Some nb -> nb_id nb = Z.of_nat i + 1).
  { intros i nb Hi. assert (Hl : ids n !! i = Some (nb_id nb)) by (by rewrite <- Ei, list_lookup_fmap, Hi).
    rewrite (ids_seqZ n Hn) in Hl. apply lookup_seqZ in Hl as [-> _]. lia. }
  split; [|split; [done|]].
  - rewrite <- Ei. unfold indexed. rewrite fmap_imap, <- (imap_const nb_id nodes). by apply imap_ext.
  - intros j v. unfold indexed. rewrite elem_of_lookup_imap. split.
    + intros (i & nb & [= -> ->] & Hi). split; [|rewrite (Hnth i nb Hi); lia].
      rewrite <- Ei. apply list_elem_of_fmap. exists nb. split; [done|]. by eapply list_elem_of_lookup_2.
    + intros [Hv ->]. rewrite <- Ei in Hv. apply list_elem_of_fmap in Hv as (nb & -> & Hnb).
      apply list_elem_of_lookup in Hnb as [i Hi]. exists i, nb. split; [|done].
      f_equal. rewrite (Hnth i nb Hi). lia.
Qed.

Lemma build_spec n fanout interval now addr :
  0 <= n < 2 ^ 16 ->
  exists nodes, build_nodes (seqZ 0 n) fanout interval now = Ret nodes /\ nb_id <$> nodes = ids n /\
    build n fanout interval now addr = Ret (mesh addr nodes) /\
    full_mesh n fanout interval addr (mesh addr nodes).
Proof.
  intros Hn. unfold build. rewrite decide_False by lia.
  destruct (build_nodes_spec (seqZ 0 n) fanout interval now) as (nodes & E & Ei & Hf).
  change (bench_id <$> seqZ 0 n) with (ids n) in Ei. rewrite E, bind_Ret.
  exists nodes. do 3 (split; [done|]). rewrite Forall_forall in Hf.
  destruct (indexed_spec n nodes Hn Ei) as (Eids & Hnth & Hix). set (indexed := imap _ _) in *.
  assert (Hin : forall nb', nb' ∈ mesh addr nodes -> exists i nb, nodes !! i = Some nb /\
    nb' = mkBundle (nb_id nb) (mesh_one addr (Z.of_nat i) indexed (nb_node nb)) (nb_algo nb)).
  { intros nb' (i & nb & -> & Hi)%elem_of_lookup_imap. by exists i, nb. }
  assert (Hone : forall i m, _) by exact (fun i m => mesh_one_spec addr i indexed m
    ltac:(rewrite Eids; by apply ids_NoDup)
    ltac:(intros j v [Hv _]%Hix ->; apply (elem_of_ids n Hn) in Hv; lia)).
  split.
  - rewrite <- Ei. unfold mesh. rewrite fmap_imap, <- (imap_const nb_id nodes). by apply imap_ext.
  - intros nb' (i & nb & Hi & ->)%Hin. cbn. destruct (Hf nb) as (H1 & H2 & _ & H3); [by eapply list_elem_of_lookup_2|].
    destruct (Hone (Z.of_nat i) (nb_node nb)) as (_ & _ & -> & Hk). auto.
  - intros nb' v (i & nb & Hi & ->)%Hin. cbn.
    destruct (Hf nb) as (_ & _ & Hpm & _); [by eapply list_elem_of_lookup_2|].
    destruct (Hone (Z.of_nat i) (nb_node nb)) as (A & B & _). pose proof (Hnth i nb Hi) as Ev.
    case_decide as Hv.
    + destruct Hv. apply A; [by apply Hix|lia].
    + rewrite B; [unfold PeerAddr; by rewrite Hpm|]. intros j [Hj ->]%Hix.
      assert (v = nb_id nb) by (destruct (decide (v = nb_id nb)); [done|exfalso; by apply Hv]). lia.
Qed.

(** * Properties *)

(** The snapshots of a poll: one of each node, each taken earlier in the run. *)
Definition taken `{GossipJson} (n fo iv : Z) (k : nat) (w : World) (s : list Z)
    (snaps : list (Z * Gossip.Algorithm)) : Prop :=
  snaps.*1 = ids n /\ forall v a, (v, a) ∈ snaps ->
    exists w0, earlier n fo iv k w0 w s /\ g_nodes w0 !! v = Some a.

Lemma convergenceLoop_tick n polls t :
  convergenceLoop n polls = Some t -> t <> 0 ->
  exists snaps, PollTick t snaps ∈ polls /\ allConverged n snaps = true.
Proof.
  induction polls as [|[|elapsed snaps] polls IH]; cbn [convergenceLoop]; [done|intros [= <-]; done|].
  intros E Ht. destruct (allConverged n snaps) eqn:Ea.
  - injection E as ->. exists snaps. split; [left|done].
  - destruct (IH E Ht) as (snaps' & Hin & ?). exists snaps'. split; [by right|done].
Qed.

(** All nodes have every key when one poll finds enough of them everywhere. *)
Lemma success_agreed `{GossipJson} n fo iv k w s polls t :
  0 <= n < 2 ^ 16 -> Z.of_nat k < 2 ^ 64 -> breach n fo iv k (w, s) ->
  (forall elapsed snaps, PollTick elapsed snaps ∈ polls -> taken n fo iv k w s snaps) ->
  convergenceLoop n polls = Some t -> success t = true ->
  forall v a, g_nodes w !! v = Some a -> Gossip.StateSnapshot a = agreed n.
Proof.
  intros Hn Hk Hr Htaken E Ht. unfold success in Ht. apply Z.gtb_lt in Ht.
  destruct (convergenceLoop_tick n polls t E ltac:(lia)) as (snaps & Hin & Hc).
  destruct (Htaken t snaps Hin) as [Hids Hsn]. unfold allConverged in Hc. rewrite forallb_forall in Hc.
  intros v a Ha. eapply (all_seeds n Hn fo iv k w s v a); [done..|]. intros key Hkey.
  pose proof (ginv_reach (ids n) (owner n) fo iv k w (ids_NoDup n Hn) Hk (breach_reach n Hn _ _ _ _ Hr)) as Hi.
  assert (Hv : v ∈ snaps.*1) by (rewrite Hids; apply (gi_dom _ _ _ _ Hi); eauto).
  apply list_elem_of_fmap in Hv as ([v' a0] & -> & Hva). cbn [fst] in *.
  pose proof (Hc (v', a0) (proj1 (list_elem_of_In _ _) Hva)) as Hsz. apply Z.leb_le in Hsz. cbn [snd] in Hsz.
  destruct (Hsn v' a0 Hva) as (w0 & He & Ha0). pose proof He as (k0 & k1 & s0 & Ek & Hr0 & _).
  rewrite <- (enough_keys n Hn fo iv k0 w0 s0 v' a0 ltac:(lia) Hr0 Ha0 Hsz) in Hkey.
  apply elem_of_dom in Hkey.
  destruct (earlier_keeps_key n Hn fo iv k w0 w s v' a0 key Hk He Ha0 Hkey) as (a' & Ha' & Hk').
  rewrite Ha in Ha'. injection Ha' as <-. by apply elem_of_dom.
Qed.

(** Nothing is missing in a state of the run exactly if it is the agreed one. *)
Lemma missing_agreed `{GossipJson} n fo iv k w s v a :
  0 <= n < 2 ^ 16 -> Z.of_nat k < 2 ^ 64 -> breach n fo iv k (w, s) -> g_nodes w !! v = Some a ->
  negb (missing (ids n) a >? 0) = true <-> Gossip.StateSnapshot a = agreed n.
Proof.
  intros Hn Hk Hr Ha. unfold missing. split.
  - intros Hall. eapply (all_seeds n Hn fo iv k w s v a); [done..|]. intros key Hkey.
    apply elem_of_list_to_set, list_elem_of_fmap in Hkey as (u & -> & Hu).
    apply elem_of_dom, not_eq_None_Some. intros Hno.
    assert (Hin : u ∈ filter (fun id => Gossip.StateSnapshot a !! pos_key id = None) (ids n)).
    { apply list_elem_of_filter. by rewrite Gossip.StateSnapshot_state. }
    destruct (filter _ (ids n)) as [|y l]; [by apply elem_of_nil in Hin|].
    apply negb_true_iff in Hall. rewrite Z.gtb_ltb in Hall. apply Z.ltb_ge in Hall. zlia.
  - intros E. rewrite E, filter_none; [done|]. intros u Hu Hno%not_elem_of_dom.
    apply Hno, elem_of_agreed, elem_of_list_to_set, list_elem_of_fmap. by exists u.
Qed.

(** The verification finds nothing missing exactly if every node has the agreed
    state when it is read; it then keeps it, and had it if polling succeeded. *)
Lemma exit_code_agreed `{GossipJson} n fo iv k k' w s w' s' final :
  0 <= n < 2 ^ 16 -> Z.of_nat (k + k') < 2 ^ 64 -> breach n fo iv k (w, s) ->
  reads n k' (ids n) (w, s) final (w', s') ->
  let agree (ns : gmap Z Gossip.Algorithm) :=
    forall v a, ns !! v = Some a -> Gossip.StateSnapshot a = agreed n in
  (exit_code (allMatch (ids n) final) = 0 <->
     forall v a, (v, a) ∈ final -> Gossip.StateSnapshot a = agreed n) /\
  (exit_code (allMatch (ids n) final) = 0 -> agree (g_nodes w')) /\
  (agree (g_nodes w) -> exit_code (allMatch (ids n) final) = 0).
Proof.
  intros Hn Hk Hr Hf agree.
  assert (Hmoment : forall v a, (v, a) ∈ final -> exists k1 k2 w1 s1, (k1 + k2)%nat = k' /\
    nsteps (bstep n) k1 (w, s) (w1, s1) /\ nsteps (bstep n) k2 (w1, s1) (w', s') /\
    breach n fo iv (k + k1) (w1, s1) /\ g_nodes w1 !! v = Some a).
  { intros v a Hva. destruct (reads_moment n _ _ _ _ _ v a Hf Hva) as (k1 & k2 & [w1 s1] & E & H1 & H2 & Ha).
    exists k1, k2, w1, s1. split_and!; [done..|by eapply nsteps_trans|done]. }
  assert (Hcode : exit_code (allMatch (ids n) final) = 0 <->
    forall v a, (v, a) ∈ final -> Gossip.StateSnapshot a = agreed n).
  { trans (allMatch (ids n) final = true); [unfold exit_code; destruct (allMatch _ _); naive_solver|].
    unfold allMatch. rewrite forallb_forall. split.
    - intros Hall v a Hva. destruct (Hmoment v a Hva) as (k1 & k2 & w1 & s1 & E & _ & _ & Hr1 & Ha).
      apply (missing_agreed n fo iv (k + k1) w1 s1 v a); [done|lia|done..|].
      apply (Hall (v, a)). by apply list_elem_of_In.
    - intros Hall [v a] Hva%list_elem_of_In. destruct (Hmoment v a Hva) as (k1 & k2 & w1 & s1 & E & _ & _ & Hr1 & Ha).
      apply (missing_agreed n fo iv (k + k1) w1 s1 v a); [done|lia|done..|]. by apply (Hall v). }
  split; [exact Hcode|]. split.
  - intros Hall v a Ha. rewrite Hcode in Hall.
    assert (Hr' : breach n fo iv (k + k') (w', s')) by (eapply nsteps_trans; [exact Hr|by eapply reads_steps]).
    pose proof (ginv_reach (ids n) (owner n) fo iv _ w' (ids_NoDup n Hn) Hk (breach_reach n Hn _ _ _ _ Hr')) as Hi.
    assert (Hv : v ∈ final.*1) by (rewrite (reads_ids n _ _ _ _ _ Hf); apply (gi_dom _ _ _ _ Hi); eauto).
    apply list_elem_of_fmap in Hv as ([v' a0] & -> & Hva).
    destruct (Hmoment v' a0 Hva) as (k1 & k2 & w1 & s1 & E & _ & H2 & Hr1 & Ha0).
    apply (agreed_kept n Hn fo iv (k + k') w1 w' s' v' a0 a); [done| |done|by apply (Hall v')|done].
    exists (k + k1)%nat, k2, s1. split_and!; [lia|done..].
  - intros Hall. apply Hcode. intros v a Hva.
    destruct (Hmoment v a Hva) as (k1 & k2 & w1 & s1 & E & H1 & _ & Hr1 & Ha).
    pose proof (ginv_reach (ids n) (owner n) fo iv (k + k1) w1 (ids_NoDup n Hn) ltac:(lia) (breach_reach n Hn _ _ _ _ Hr1)) as Hi1.
    pose proof (ginv_reach (ids n) (owner n) fo iv k w (ids_NoDup n Hn) ltac:(lia) (breach_reach n Hn _ _ _ _ Hr)) as Hi.
    destruct (proj2 (gi_dom _ _ _ _ Hi v)) as [a0 Ha0]; [apply (gi_dom _ _ _ _ Hi1); eauto|].
    apply (agreed_kept n Hn fo iv (k + k1) w w1 s1 v a0 a); [lia| |done|by apply (Hall v)|done].
    exists k, k1, s. by split_and!.
Qed.

(** ** An example: two nodes *)

Definition seeded_one : World :=
  mkWorld (<[1 := seed 1 (Gossip.New 3 0)]> (g_nodes (GossipNet.init (ids 2) 3 0))) [] (seeds [1]).
Definition seeded_two : World :=
  mkWorld (<[2 := seed 2 (Gossip.New 3 0)]> (g_nodes seeded_one)) [] (seeds [1; 2]).

Lemma seeded_two_breach : breach 2 3 0 2 (seeded_two, [1; 2]).
Proof.
  eapply nsteps_l.
  - apply (b_seed 2 (GossipNet.init (ids 2) 3 0) [] 1 (Gossip.New 3 0)); [|apply not_elem_of_nil|by vm_compute].
    apply (bool_decide_unpack _). vm_compute. exact I.
  - apply nsteps_once. apply (b_seed 2 seeded_one [1] 2 (Gossip.New 3 0)); [..|by vm_compute];
      apply (bool_decide_unpack _); vm_compute; exact I.
Qed.

Lemma quiets_bsteps `{GossipJson} n k w w' s :
  nsteps (quiet (ids n)) k w w' -> nsteps (bstep n) k (w, s) (w', s).
Proof. induction 1 as [|k x y z Hq _ IH]; [constructor|]. econstructor; [by constructor|exact IH]. Qed.

(** A continuation in which both nodes have both keys *)
Lemma two_continue : exists w a1 a2, nsteps (bstep 2) 6 (seeded_two, [1; 2]) (w, [1; 2]) /\
  g_nodes w !! 1 = Some a1 /\ g_nodes w !! 2 = Some a2 /\
  Gossip.state a1 = agreed 2 /\ Gossip.state a2 = agreed 2.
Proof.
  assert (Hn : 0 <= 2 < 2 ^ 16) by lia.
  pose proof (ginv_reach (ids 2) (owner 2) 3 0 2 seeded_two (ids_NoDup 2 Hn) ltac:(lia)
    (breach_reach 2 Hn _ _ _ _ seeded_two_breach)) as Hi.
  set (b1 := seed 1 (Gossip.New 3 0)). set (b2 := seed 2 (Gossip.New 3 0)).
  destruct (collect_one (ids 2) (owner 2) _ seeded_two 2 1 b2 b1 (ids_NoDup 2 Hn) Hi)
    as (w1 & a2 & Q1 & Ha2 & E2 & Hk1); [done|by vm_compute|by vm_compute|].
  destruct (Hk1 1 b1) as (b1' & Hb1' & E1); [done|by vm_compute|].
  pose proof (ginv_quiets (ids 2) (owner 2) _ _ _ (ids_NoDup 2 Hn) Hi (rtc_nsteps_2 _ _ _ Q1)) as Hi1.
  destruct (collect_one (ids 2) (owner 2) _ w1 1 2 b1' a2 (ids_NoDup 2 Hn) Hi1)
    as (w & a1 & Q2 & Ha1 & E1' & Hk2); [done..|].
  destruct (Hk2 2 a2) as (a2' & Ha2' & E2'); [done..|].
  exists w, a1, a2'. split.
  - apply (nsteps_trans 3 3 _ (w1, [1; 2])); by apply quiets_bsteps.
  - rewrite E1', E1, E2', E2. split_and!; [done..|by vm_compute|by vm_compute].
Qed.

Lemma two_converge : exists w a1 a2, breach 2 3 0 8 (w, [1; 2]) /\
  g_nodes w !! 1 = Some a1 /\ g_nodes w !! 2 = Some a2 /\
  Gossip.state a1 = agreed 2 /\ Gossip.state a2 = agreed 2.
Proof.
  destruct two_continue as (w & a1 & a2 & Hs & H). exists w, a1, a2. split; [|exact H].
  apply (nsteps_trans 2 6 _ (seeded_two, [1; 2])); [apply seeded_two_breach|exact Hs].
Qed.

(** The verification may find a key missing although all nodes have all keys by
    the time it ends: node 1 is read before the last key has reached it. *)
Lemma verification_too_early : exists final w a1 a2,
  breach 2 3 0 2 (seeded_two, [1; 2]) /\
  reads 2 6 (ids 2) (seeded_two, [1; 2]) final (w, [1; 2]) /\
  exit_code (allMatch (ids 2) final) = 1 /\
  g_nodes w !! 1 = Some a1 /\ g_nodes w !! 2 = Some a2 /\
  Gossip.state a1 = agreed 2 /\ Gossip.state a2 = agreed 2.
Proof.
  destruct two_continue as (w & a1 & a2 & Hs & H1 & H2 & E).
  exists [(1, seed 1 (Gossip.New 3 0)); (2, a2)], w, a1, a2. split; [apply seeded_two_breach|].
  split; [|by vm_compute]. change (ids 2) with [1; 2].
  apply (reads_node 2 0 6 1 [2] _ (seeded_two, [1; 2])); [constructor|by vm_compute|].
  apply (reads_node 2 6 0 2 [] _ (w, [1; 2])); [done..|]. repeat constructor.
Qed.
