(* ===== verification/BenchMain.v ===== *)
(** BenchMain: a run of [src/cmd/gossip_bench/main.go] from the flags to the
    exit code, with all it prints.

    [Bench] has the parts, and what they mean for the nodes that gossip
    meanwhile; here they are composed as [main] composes them.  What [main]
    sees of the nodes and of the operating system is the argument [World];
    the text of a duration ([%v]) is an argument, too, and that of an error is
    left out. *)
From stdpp Require Import pretty strings.
From Stdlib Require Import Ascii.
From S2P Require Import Prelude Message SendQueue Router Collector Peer Node.
From S2P Require Import GossipLive GoFloat Snapshot Reporter NodeCmd Bench.
#[local] Open Scope Z_scope.

(** * What is printed *)

Definition rule : string := "══════════════════════════════════════════════════════════════".

Definition seed_line (id : Z) : string :=
  "  节点 " +:+ decimal id +:+ " 设置 " +:+ pos_key id +:+ " = " +:+ pos_value id.

(** [%v] of a slice of integers *)
Definition show_ints (ns : list Z) : string :=
  "[" +:+ of_chars (join " "%char (to_chars ∘ decimal <$> ns)) +:+ "]".

Definition progress_line (elapsed expectedKeys : Z) (counts : list Z) : string :=
  "  [" +:+ fixed 1 (Seconds elapsed) +:+ "s] 各节点状态条目数: " +:+ show_ints counts +:+
  " (目标=" +:+ decimal expectedKeys +:+ ")".

Definition verdict_line (ids : list Z) (expectedKeys : Z) (s : Z * Gossip.Algorithm) : string :=
  if missing ids s.2 >? 0
  then "  ❌ 节点 " +:+ decimal s.1 +:+ ": 缺少 " +:+ decimal (missing ids s.2) +:+ " 个 key"
  else "  ✅ 节点 " +:+ decimal s.1 +:+ ": 拥有全部 " +:+ decimal expectedKeys +:+ " 个 key".

Definition node_report (s : MetricsSnapshot) : list string :=
  ["── 节点 " +:+ decimal (s_NodeID s) +:+ " ──";
   "  发送: " +:+ decimal (s_MessagesSent s) +:+ " 条 (" +:+ decimal (s_BytesSent s) +:+ " 字节, " +:+
     fixed 1 (s_MsgSentPerSec s) +:+ " msg/s, " +:+
     fixed 1 (fdiv (s_BytesSentPerSec s) (of_int 1024)) +:+ " KB/s)";
   "  接收: " +:+ decimal (s_MessagesRecv s) +:+ " 条 (" +:+ decimal (s_BytesRecv s) +:+ " 字节, " +:+
     fixed 1 (s_MsgRecvPerSec s) +:+ " msg/s, " +:+
     fixed 1 (fdiv (s_BytesRecvPerSec s) (of_int 1024)) +:+ " KB/s)";
   "  丢弃: dedup=" +:+ decimal (s_DedupDropped s) +:+ "  ttl=" +:+ decimal (s_TTLExpiredDropped s) +:+
     "  queue=" +:+ decimal (s_QueueOverflowDropped s) +:+ "  err=" +:+ decimal (s_SendErrors s) +:+
     "  丢弃率=" +:+ fixed 2 (times_100 (s_DropRate s)) +:+ "%";
   "  延迟: avg=" +:+ fixed 1 (s_AvgLatencyMs s) +:+ "ms  p50=" +:+ fixed 1 (s_P50LatencyMs s) +:+
     "ms  p95=" +:+ fixed 1 (s_P95LatencyMs s) +:+ "ms  p99=" +:+ fixed 1 (s_P99LatencyMs s) +:+
     "ms  max=" +:+ fixed 1 (s_MaxLatencyMs s) +:+ "ms"].

Definition success_line (convergedAt : Z) : string :=
  if success convergedAt then "  共识成功:       ✅ (所有节点一致)"
  else "  共识成功:       ❌ (未能收敛)".

Definition totals_report (show : Z -> string) (numNodes convergedAt : Z) (snaps : list MetricsSnapshot)
    : list string :=
  let sent := total_of s_MessagesSent snaps in
  let bytesSent := total_of s_BytesSent snaps in
  let bytesRecv := total_of s_BytesRecv snaps in
  [""; "── 汇总 ──";
   "  收敛时间:       " +:+ show convergedAt;
   "  总发送消息:     " +:+ decimal sent +:+ " 条";
   "  总接收消息:     " +:+ decimal (total_of s_MessagesRecv snaps) +:+ " 条";
   "  总发送字节:     " +:+ decimal bytesSent +:+ " (" +:+ fixed 2 (kilobytes bytesSent) +:+ " KB)";
   "  总接收字节:     " +:+ decimal bytesRecv +:+ " (" +:+ fixed 2 (kilobytes bytesRecv) +:+ " KB)";
   "  平均每节点发送: " +:+ fixed 1 (fdiv (of_int sent) (of_int numNodes)) +:+ " 条  " +:+
     fixed 2 (fdiv (fdiv (of_int bytesSent) (of_int numNodes)) (of_int 1024)) +:+ " KB";
   "  去重丢弃总计:   " +:+ decimal (total_of s_DedupDropped snaps);
   "  TTL过期总计:    " +:+ decimal (total_of s_TTLExpiredDropped snaps);
   "  队列溢出总计:   " +:+ decimal (total_of s_QueueOverflowDropped snaps);
   "  发送失败总计:   " +:+ decimal (total_of s_SendErrors snaps);
   success_line convergedAt; rule].

(** * Polling, with its progress lines *)

(** A poll, and the clock at the test and at the reset of [lastReport] *)
Record poll_tick := mkTick { t_poll : poll; t_check : Z; t_counts : list Z; t_reset : Z }.

Fixpoint polling (show : Z -> string) (expectedKeys lastReport : Z) (ts : list poll_tick) (log : list string)
    : option (Z * list string) :=
  match ts with
  | [] => None
  | t :: ts =>
      match t_poll t with
      | Deadline => Some (0, log ++ ["⚠ 超时未收敛！"])
      | PollTick elapsed snaps =>
          let late := t_check t - lastReport >? second in
          let log := if late then log ++ [progress_line elapsed expectedKeys (t_counts t)] else log in
          if allConverged expectedKeys snaps
          then Some (elapsed, log ++ ["✅ 全部节点收敛！耗时 = " +:+ show elapsed])
          else polling show expectedKeys (if late then t_reset t else lastReport) ts log
      end
  end.

(** * The files *)

Definition bench_json (id : Z) : string := "gossip_bench_node" +:+ decimal id +:+ ".json".

(** [s.ExportJSON(path)] for every node; a failure is logged. *)
Fixpoint export_all (json : MetricsSnapshot -> option (list string)) (written : Z -> write_result)
    (snaps : list (Z * MetricsSnapshot)) (log : list string) (out : Output) : list string * Output :=
  match snaps with
  | [] => (log, out)
  | (id, s) :: snaps =>
      let '(ok, out) := ExportJSON json (written id) s (bench_json id) out in
      export_all json written snaps
        (log ++ [if ok then "已导出: " +:+ bench_json id else "导出 " +:+ bench_json id +:+ " 失败"]) out
  end.

(** * [main] *)

Record World := mkWorld {
  starts : Z -> bool;                        (* does the transport of a node start? *)
  addr : Z -> string;
  start_time : Z;                            (* the clock when [lastReport] is set *)
  polls : list poll_tick;
  final : list (Z * Gossip.Algorithm);       (* what the verification reads, node by node *)
  snap_at : Z -> Z * string * (nat -> Collector);
  json : MetricsSnapshot -> option (list string);
  written : Z -> write_result;
  show_duration : Z -> string;
}.

Inductive outcome_of_main : Type :=
  | Exit (code : Z) (log : list string) (out : Output)
  | Polling.

(** [nodes[i].node.Start()], one after the other; the first that fails ends it. *)
Fixpoint start_all (ok : Z -> bool) (ids : list Z) : outcome (option Z * list Lifecycle.state) :=
  match ids with
  | [] => Ret (None, [])
  | id :: ids =>
      '(err, st) ← Lifecycle.Start (ok id) true Lifecycle.New;
      match err with
      | Some _ => Ret (Some id, [])
      | None => '(failed, sts) ← start_all ok ids; Ret (failed, st :: sts)
      end
  end.

Fixpoint stop_all (sts : list Lifecycle.state) : outcome unit :=
  match sts with [] => Ret tt | st :: sts => _ ← Lifecycle.Stop st; stop_all sts end.

Fixpoint snapshots (x : World) (ids : list Z) : outcome (list MetricsSnapshot) :=
  match ids with
  | [] => Ret []
  | id :: ids =>
      let '(now, time, load) := snap_at x id in
      s ← Snapshot now time load; ss ← snapshots x ids; Ret (s :: ss)
  end.

Definition main (numNodes fanout interval timeout now : Z) (x : World) (out : Output)
    : outcome outcome_of_main :=
  let log := ["=== Gossip 状态同步收敛测试 ===";
    "配置: nodes=" +:+ decimal numNodes +:+ "  fanout=" +:+ decimal fanout +:+ "  interval=" +:+
      show_duration x interval +:+ "  timeout=" +:+ show_duration x timeout] in
  nodes ← (if decide (numNodes < 0) then Panic InvalidArgument
           else build_nodes (seqZ 0 numNodes) fanout interval now);
  '(failed, sts) ← start_all (starts x) (nb_id <$> nodes);
  match failed with
  | Some id => Ret (Exit 1 (log ++ ["node " +:+ decimal id +:+ " Start"]) out)
  | None =>
      let ids := nb_id <$> mesh (addr x) nodes in
      let log := log ++ [""; "── 初始状态 ──"] ++ (seed_line <$> ids) ++ [""; "── 等待收敛 ──"] in
      match polling (show_duration x) numNodes (start_time x) (polls x) log with
      | None => Ret Polling
      | Some (convergedAt, log) =>
          let log := log ++ [""; "── 验证最终状态 ──"] ++ (verdict_line ids numNodes <$> final x) ++
            [""; rule; "                     实验指标报告"; rule] in
          snaps ← snapshots x ids;
          let log := log ++ (snaps ≫= node_report) ++
            totals_report (show_duration x) numNodes convergedAt snaps in
          let '(log, out) := export_all (json x) (written x) (zip ids snaps) log out in
          _ ← stop_all sts;
          Ret (Exit (exit_code (allMatch ids (final x))) log out)
      end
  end.

(** * What the parts do *)

(** Progress lines do not change what the loop finds. *)
Lemma polling_loop show k last ts log :
  match convergenceLoop k (t_poll <$> ts) with
  | None => polling show k last ts log = None
  | Some t => exists log', polling show k last ts log = Some (t, log ++ log')
  end.
Proof.
  revert last log. induction ts as [|[[|elapsed snaps] check counts reset] ts IH]; intros last log; cbn; [done|by eexists|].
  set (log1 := if check - last >? second then _ else log).
  assert (Hlog1 : exists l, log1 = log ++ l).
  { unfold log1. destruct (_ >? _); [by eexists|]. exists []. by rewrite app_nil_r. }
  destruct Hlog1 as [l ->]. destruct (allConverged k snaps).
  - eexists. by rewrite <- app_assoc.
  - specialize (IH (if check - last >? second then reset else last) (log ++ l)).
    destruct (convergenceLoop k (t_poll <$> ts)); [|done].
    destruct IH as [log' ->]. eexists. by rewrite <- app_assoc.
Qed.

Lemma start_all_ok ok ids :
  (forall id, id ∈ ids -> ok id = true) ->
  exists sts, start_all ok ids = Ret (None, sts) /\ stop_all sts = Ret tt.
Proof.
  induction ids as [|id ids IH]; intros Hok; cbn [start_all]; [by exists []|].
  rewrite (Hok id) by left. destruct IH as (sts & E & Es); [intros; apply Hok; by right|].
  unfold Lifecycle.Start. cbn [negb Lifecycle.stop_closed Lifecycle.New]. rewrite bind_Ret. cbv beta iota zeta.
  rewrite E, bind_Ret. eexists. split; [reflexivity|]. cbn. exact Es.
Qed.

(** The first transport that does not start ends the program. *)
Lemma start_all_fails ok ids1 id ids2 :
  (forall i, i ∈ ids1 -> ok i = true) -> ok id = false ->
  exists sts, start_all ok (ids1 ++ id :: ids2) = Ret (Some id, sts).
Proof.
  induction ids1 as [|i ids1 IH]; intros Hok Hid; cbn [app start_all].
  - unfold Lifecycle.Start. rewrite Hid. cbn [negb]. rewrite bind_Ret. by eexists.
  - rewrite (Hok i) by left. destruct IH as (sts & E); [intros; apply Hok; by right|done|].
    unfold Lifecycle.Start. cbn [negb Lifecycle.stop_closed Lifecycle.New]. rewrite bind_Ret. cbv beta iota zeta.
    rewrite E, bind_Ret. by eexists.
Qed.

(** The snapshot of a node *)
Definition snapshot_of (x : World) (id : Z) (s : MetricsSnapshot) : Prop :=
  Snapshot (snap_at x id).1.1 (snap_at x id).1.2 (snap_at x id).2 = Ret s.

Lemma snapshots_spec x ids : exists ss, snapshots x ids = Ret ss /\ Forall2 (snapshot_of x) ids ss.
Proof.
  induction ids as [|id ids (ss & E & Hs)]; cbn [snapshots]; [by exists []|].
  destruct (Snapshot_stats (snap_at x id).1.1 (snap_at x id).1.2 (snap_at x id).2) as (s & Es & _).
  destruct (snap_at x id) as [[now time] load] eqn:Ex. cbn [fst snd] in Es. rewrite Es, bind_Ret, E, bind_Ret.
  eexists. split; [reflexivity|]. constructor; [|done]. unfold snapshot_of. by rewrite Ex.
Qed.

Lemma bench_json_inj i j : bench_json i = bench_json j -> i = j.
Proof.
  unfold bench_json. intros E. apply (inj pretty).
  apply (f_equal to_chars) in E. unfold to_chars in E. rewrite !list_ascii_app in E.
  apply app_inv_head in E. apply app_inv_tail in E.
  apply (f_equal of_chars) in E. unfold of_chars in E. by rewrite !String.string_of_list_ascii_of_string in E.
Qed.

(** Every file is what the export of its node's snapshot leaves, and no other
    file is touched. *)
Lemma export_all_spec json written snaps log out :
  NoDup snaps.*1 ->
  let '(log', out') := export_all json written snaps log out in
  (exists more, log' = log ++ more) /\
  (forall id s, (id, s) ∈ snaps -> disk out' !! bench_json id
     = exported_file json (written id) s (disk out !! bench_json id)) /\
  (forall path, (forall id, id ∈ snaps.*1 -> path <> bench_json id) -> disk out' !! path = disk out !! path).
Proof.
  revert log out. induction snaps as [|[id s] snaps IH]; intros log out Hnd; cbn [export_all].
  { split; [exists []; by rewrite app_nil_r|]. split; [by intros id s ?%elem_of_nil|done]. }
  apply NoDup_cons in Hnd as [Hid Hnd]. cbn [fst snd] in *.
  pose proof (ExportJSON_disk json (written id) s (bench_json id) out) as Ed.
  destruct (ExportJSON json (written id) s (bench_json id) out) as [ok out1]. destruct Ed as (_ & _ & Ed & Eo).
  set (log1 := log ++ _). specialize (IH log1 out1 Hnd).
  destruct (export_all json written snaps log1 out1) as [log' out']. destruct IH as ((more & ->) & Hf & Ho).
  split; [eexists; unfold log1; by rewrite <- app_assoc|]. split.
  - intros i t [[= -> ->]|Hin]%elem_of_cons.
    + by rewrite Ho by (by intros j Hj ->%bench_json_inj).
    + rewrite (Hf i t Hin), Eo; [done|]. intros ->%bench_json_inj. apply Hid.
      apply list_elem_of_fmap. by exists (id, t).
  - intros path Hp. rewrite Ho; [apply Eo, Hp; left|]. intros i Hi. apply Hp. by right.
Qed.

(** The files after the run: one per node, with its snapshot as far as it could
    be written *)
Definition exported (x : World) (ids : list Z) (out out' : Output) : Prop :=
  (forall id, id ∈ ids -> exists s, snapshot_of x id s /\ disk out' !! bench_json id
     = exported_file (json x) (written x id) s (disk out !! bench_json id)) /\
  (forall path, (forall id, id ∈ ids -> path <> bench_json id) -> disk out' !! path = disk out !! path).

Lemma exported_all x ids ss log out :
  NoDup ids -> Forall2 (snapshot_of x) ids ss ->
  exists more out', export_all (json x) (written x) (zip ids ss) log out = (log ++ more, out') /\
    exported x ids out out'.
Proof.
  intros Hnd Hs. assert (E1 : (zip ids ss).*1 = ids) by (apply fst_zip; by rewrite (Forall2_length _ _ _ Hs)).
  pose proof (export_all_spec (json x) (written x) (zip ids ss) log out) as He. rewrite E1 in He. specialize (He Hnd).
  destruct (export_all _ _ _ _ _) as [log' out']. destruct He as ((more & ->) & Hf & Ho).
  exists more, out'. split; [done|]. split; [|done]. intros id [i Hi]%list_elem_of_lookup.
  destruct (Forall2_lookup_l _ _ _ _ _ Hs Hi) as (s & Es & Hss). exists s. split; [done|].
  apply Hf. apply list_elem_of_lookup. exists i. by rewrite lookup_zip_with, Hi, Es.
Qed.

(** The program, once all nodes have started *)
Lemma main_started n fo iv timeout now x out :
  0 <= n < 2 ^ 16 -> (forall v, v ∈ ids n -> starts x v = true) ->
  match convergenceLoop n (t_poll <$> polls x) with
  | None => main n fo iv timeout now x out = Ret Polling
  | Some t => exists log out',
      main n fo iv timeout now x out = Ret (Exit (exit_code (allMatch (ids n) (final x))) log out') /\
      success_line t ∈ log /\ exported x (ids n) out out'
  end.
Proof.
  intros Hn Hst. unfold main. rewrite decide_False by lia.
  destruct (build_spec n fo iv now (addr x) Hn) as (nodes & -> & Ei & _ & Hm).
  rewrite bind_Ret, (fm_ids _ _ _ _ _ Hm), Ei. destruct (start_all_ok (starts x) (ids n) Hst) as (sts & -> & Es).
  rewrite bind_Ret. cbv beta iota zeta.
  lazymatch goal with |- context [polling ?sh ?k ?last ?ts ?l] => pose proof (polling_loop sh k last ts l) as Hp end.
  destruct (convergenceLoop n (t_poll <$> polls x)) as [t|]; [|by rewrite Hp].
  destruct Hp as [log' ->]. destruct (snapshots_spec x (ids n)) as (ss & Ess & Hs).
  rewrite Ess, bind_Ret. cbv beta iota zeta.
  lazymatch goal with |- context [export_all _ _ _ ?l out] =>
    destruct (exported_all x (ids n) ss l out (ids_NoDup n Hn) Hs) as (more & out' & -> & He) end.
  cbv beta iota zeta. rewrite Es, bind_Ret. do 2 eexists. split; [reflexivity|]. split; [|done].
  rewrite !elem_of_app. left. right. right. by apply (list_elem_of_lookup_2 _ 12).
Qed.

(** * Properties *)

(** C13: the benchmark's verdict.  [main] builds a full mesh, in which every node
    knows exactly the others.  While the nodes gossip, whatever is lost,
    repeated or reordered, [main] polls them at different times and only counts
    their keys; unless it is still polling it ends, prints its verdict and has
    exported the metrics of every node as far as its file could be written, and
    touched no other.  It then reads the nodes once
    more, one after the other, while they go on, and exits with 0 exactly if
    every node had the agreed state, every node's position and nothing else,
    when it was read; all of them have it in the end if it does; and it does
    whenever it has reported a convergence.  (It may exit with 1 although all
    agree in the end, [Bench.verification_too_early].) *)
Theorem bench_main_sound `{GossipJson} n fo iv timeout now x out k k' w s w' s' :
  0 <= n < 2 ^ 16 -> Z.of_nat (k + k') < 2 ^ 64 -> breach n fo iv k (w, s) ->
  (forall elapsed snaps, PollTick elapsed snaps ∈ t_poll <$> polls x -> taken n fo iv k w s snaps) ->
  reads n k' (ids n) (w, s) (final x) (w', s') ->
  (forall v, v ∈ ids n -> starts x v = true) ->
  (exists nodes, build n fo iv now (addr x) = Ret nodes /\ full_mesh n fo iv (addr x) nodes) /\
  match convergenceLoop n (t_poll <$> polls x) with
  | None => main n fo iv timeout now x out = Ret Polling
  | Some t => exists code log out', main n fo iv timeout now x out = Ret (Exit code log out') /\
      (code = 0 <-> forall v a, (v, a) ∈ final x -> Gossip.StateSnapshot a = agreed n) /\
      (code = 0 -> forall v a, g_nodes w' !! v = Some a -> Gossip.StateSnapshot a = agreed n) /\
      (success t = true -> code = 0) /\ success_line t ∈ log /\ exported x (ids n) out out'
  end.
Proof.
  intros Hn Hk Hr Htaken Hf Hst. split.
  { destruct (build_spec n fo iv now (addr x) Hn) as (nodes & _ & _ & E & Hm). eauto. }
  pose proof (main_started n fo iv timeout now x out Hn Hst) as Hm.
  destruct (convergenceLoop n (t_poll <$> polls x)) as [t|] eqn:E; [|done].
  destruct Hm as (log & out' & Em & Hl & He). do 3 eexists. split; [exact Em|].
  destruct (exit_code_agreed n fo iv k k' w s w' s' (final x) Hn Hk Hr Hf) as (H1 & H2 & H3).
  split_and!; [exact H1|exact H2| |done|done].
  intros Ht. apply H3. by apply (success_agreed n fo iv k w s (t_poll <$> polls x) t Hn ltac:(lia)).
Qed.

(** A negative number of nodes is a panic, and a transport that does not start
    ends the program before any node has a peer. *)
Lemma bench_main_errors n fo iv timeout now x out :
  (n < 0 -> main n fo iv timeout now x out = Panic InvalidArgument) /\
  (forall ids1 id ids2, 0 <= n < 2 ^ 16 -> ids n = ids1 ++ id :: ids2 ->
     (forall i, i ∈ ids1 -> starts x i = true) -> starts x id = false ->
     exists log, main n fo iv timeout now x out = Ret (Exit 1 log out)).
Proof.
  split.
  - intros Hn. unfold main. by rewrite decide_True.
  - intros ids1 id ids2 Hn E H1 H2. unfold main.
    rewrite decide_False by lia. destruct (build_spec n fo iv now (addr x) Hn) as (nodes & -> & Ei & _).
    rewrite bind_Ret, Ei, E.
    destruct (start_all_fails (starts x) ids1 id ids2 H1 H2) as (sts & ->). rewrite bind_Ret. by eexists.
Qed.

(** ** Witness *)

(** Node 1's file is written, that of node 2 is cut off. *)
Definition bench_world (a1 a2 : Gossip.Algorithm) : World :=
  mkWorld (fun _ => true) (fun i => "127.0.0.1:" +:+ decimal (9001 + i)) 0
    [mkTick (PollTick 50 [(1, a1); (2, a2)]) 50 [] 0] [(1, a1); (2, a2)]
    (fun id => (9, "now", fun _ => NewCollector id 0)) (fun s => Some [s_Timestamp s])
    (fun id => if id =? 1 then Complete else Partial 1) decimal.

Lemma bench_main_sound_witness :
  exists w a1 a2, breach 2 3 0 8 (w, [1; 2]) /\ g_nodes w !! 1 = Some a1 /\ g_nodes w !! 2 = Some a2 /\
    exists log out', main 2 3 0 1000 0 (bench_world a1 a2) (mkOutput [] ∅) = Ret (Exit 0 log out') /\
      disk out' !! "gossip_bench_node1.json" = Some [["now"]] /\
      disk out' !! "gossip_bench_node2.json" = Some [["n"]] /\ Gossip.StateSnapshot a1 = agreed 2.
Proof.
  destruct two_converge as (w & a1 & a2 & Hr & H1 & H2 & E1 & E2). exists w, a1, a2.
  split_and!; [exact Hr|exact H1|exact H2|].
  assert (Hloop : convergenceLoop 2 [PollTick 50 [(1, a1); (2, a2)]] = Some 50).
  { cbn [convergenceLoop allConverged forallb snd]. rewrite !Gossip.StateSnapshot_state, E1, E2. by vm_compute. }
  destruct (bench_main_sound 2 3 0 1000 0 (bench_world a1 a2) (mkOutput [] ∅) 8 0 w [1; 2] w [1; 2]
    ltac:(lia) ltac:(lia) Hr) as (_ & Hm).
  - intros elapsed snaps [[= -> ->]|Hin]%elem_of_cons; [|by apply elem_of_nil in Hin]. split; [by vm_compute|].
    intros v a [[= -> ->]|[[= -> ->]|Hin]%elem_of_cons]%elem_of_cons; [| |by apply elem_of_nil in Hin];
      exists w; (split; [by exists 8%nat, 0%nat, [1; 2]; split_and!; [| |constructor]|done]).
  - change (ids 2) with [1; 2]. apply (reads_node 2 0 0 1 [2] _ (w, [1; 2])); [constructor|exact H1|].
    apply (reads_node 2 0 0 2 [] _ (w, [1; 2])); [constructor|exact H2|]. repeat constructor.
  - done.
  - change (t_poll <$> polls (bench_world a1 a2)) with [PollTick 50 [(1, a1); (2, a2)]] in Hm.
    rewrite Hloop in Hm. destruct Hm as (code & log & out' & E & Hc & _ & Hs & _ & [Hex _]).
    specialize (Hs eq_refl). subst code. exists log, out'. split; [exact E|].
    assert (Hfile : forall id, id ∈ [1; 2] ->
      disk out' !! bench_json id = Some [if id =? 1 then ["now"] else ["n"]]).
    { intros id Hid. destruct (Hex id Hid) as (t & Et & Ed). etrans; [exact Ed|].
      apply elem_of_cons in Hid as [->|Hid%list_elem_of_singleton]; [|subst id];
        vm_compute in Et; injection Et as <-; reflexivity. }
    split_and!; [apply (Hfile 1); left|apply (Hfile 2); right; left|].
    apply (proj1 Hc eq_refl 1 a1). left.
Defined.
