(* ===== verification/Wire.v ===== *)
(** The transport interface and its two implementations
    ([src/node/transport/transport.go], [udp/udp.go], [tcp/tcp.go]), and the
    node's send loop over it ([src/node/runtime/node.go]).

    [Transport] is the part of the Go interface that moves messages; the answers
    of the network to a call are an argument.  [LawfulTransport] is what a node
    relies on; both implementations satisfy it, and the theorem about two nodes
    is proved from the laws alone. *)
From S2P Require Import Prelude Message Codec RunLength Heap SendQueue Router Peer Collector Node Transport.

(** What the network answers to one [Send]: whether the address resolves or the
    dial succeeds, and whether the write does. *)
Record Net := mkNet { reachable : bool; writable : bool }.

Definition all_good : string -> WireMessage -> Net := fun _ _ => mkNet true true.

(** * The interface *)
Class Transport (T E : Type) := {
  (** [Send(addr, msg)]: the new state, and the bytes that went out or the error *)
  tr_Send : Net -> string -> WireMessage -> T -> outcome (T * result E bytes);
  (** the receive loop over what the sends to one address put on the wire *)
  tr_receive : list bytes -> RecvCh -> outcome RecvCh;
  (** [LocalAddr()] *)
  tr_LocalAddr : T -> string;
}.

Class LawfulTransport (T E : Type) `{Zlib} `{Transport T E} := {
  (** the longest encoding that fits *)
  tr_max : Z;
  (** [Start] has succeeded and [Stop] has not been called *)
  tr_ready : T -> Prop;
  law_Send_total net addr m t : encodable m -> exists t' r, tr_Send net addr m t = Ret (t', r);
  law_Send_good addr m t : encodable m -> tr_ready t ->
    exists t' w, tr_Send (mkNet true true) addr m t = Ret (t', Ok w) /\ tr_ready t';
  law_receive ms ws ch :
    Forall2 (fun m w => encodable m /\ (exists d, Encode m = Ret d /\ zlen d <= tr_max) /\
                        exists net addr t t', tr_Send net addr m t = Ret (t', Ok w)) ms ws ->
    tr_receive ws ch = Ret (foldl (flip push_recv) ch ms);
}.

(** * UDP *)
Module UDP.

Record Transport := mkUDP {
  addr : string;
  conn : option string;     (* the bound socket: its local address *)
  recvCh : RecvCh;
}.

Definition New (addr : string) (recvBufSize : Z) : Transport := mkUDP addr None (New_recvCh recvBufSize).

Inductive error : Set := Resolve | Listen | ResolvePeer | Write.

(** [bound]: the address the system binds the socket to, if it does *)
Definition Start (resolves : bool) (bound : option string) (t : Transport) : result error Transport :=
  if negb resolves then Err Resolve
  else match bound with
       | None => Err Listen
       | Some local => Ok (mkUDP (addr t) (Some local) (recvCh t))
       end.

Section codec.
Context `{Zlib}.

(** A write on a nil connection returns an error. *)
Definition Send (net : Net) (addr : string) (msg : WireMessage) (t : Transport)
    : outcome (Transport * result error bytes) :=
  data ← Encode msg;
  if negb (reachable net) then Ret (t, Err ResolvePeer)
  else match conn t with
       | None => Ret (t, Err Write)
       | Some _ => Ret (t, if writable net then Ok data else Err Write)
       end.

(** [readLoop] over the datagrams that arrive *)
Fixpoint receive (datagrams : list bytes) (ch : RecvCh) : outcome RecvCh :=
  match datagrams with
  | [] => Ret ch
  | d :: ds => ch ← udp_receive d ch; receive ds ch
  end.

Definition LocalAddr (t : Transport) : string := default (addr t) (conn t).
End codec.
End UDP.

(** * TCP *)
Module TCP.

Record Transport := mkTCP {
  addr : string;
  ln : option string;       (* the listener: its address *)
  recvCh : RecvCh;
  pool : gmap string tcpConn;
}.

Definition New (addr : string) (recvBufSize : Z) : Transport :=
  mkTCP addr None (New_recvCh recvBufSize) ∅.

Inductive error : Set := Listen.

Definition Start (bound : option string) (t : Transport) : result error Transport :=
  match bound with
  | None => Err Listen
  | Some local => Ok (mkTCP (addr t) (Some local) (recvCh t) (pool t))
  end.

Section codec.
Context `{Zlib}.

Definition Send (net : Net) (a : string) (msg : WireMessage) (t : Transport)
    : outcome (Transport * result tcp_error bytes) :=
  '(p, r) ← tcp_Send (reachable net) (writable net) a msg (pool t);
  Ret (mkTCP (addr t) (ln t) (recvCh t) p, r).

(** The frames to one address share a connection; [handleConn] reads it to its
    end, which takes fewer rounds than there are bytes and one more. *)
Definition receive (frames : list bytes) (ch : RecvCh) : outcome RecvCh :=
  '(_, ch) ← handleConn (S (length (concat frames))) (concat frames) ch;
  Ret ch.

Definition LocalAddr (t : Transport) : string := default (addr t) (ln t).
End codec.
End TCP.

(** * The laws *)

Lemma Encode_total `{Zlib} m : encodable m -> exists d, Encode m = Ret d.
Proof. intros Hm. destruct (Decode_Encode m Hm) as (d & E & _). eauto. Qed.

#[export] Instance udp_transport `{Zlib} : Transport UDP.Transport UDP.error := {|
  tr_Send := UDP.Send; tr_receive := UDP.receive; tr_LocalAddr := UDP.LocalAddr |}.

Lemma udp_Send_Ok `{Zlib} net addr m t t' w :
  UDP.Send net addr m t = Ret (t', Ok w) -> Encode m = Ret w /\ t' = t.
Proof.
  unfold UDP.Send. destruct (Encode m) as [d|]; [|done]. rewrite bind_Ret.
  destruct (reachable net); cbn; [|done]. destruct (UDP.conn t); [|done].
  destruct (writable net); [|done]. by intros [= <- <-].
Qed.

#[export] Program Instance udp_lawful `{Zlib} : LawfulTransport UDP.Transport UDP.error := {|
  tr_max := maxUDPPacket; tr_ready t := is_Some (UDP.conn t) |}.
Next Obligation.
  intros Hz net addr m t Hm. destruct (Encode_total m Hm) as [d E]. cbn. unfold UDP.Send.
  rewrite E, bind_Ret. destruct (negb _); [by eauto|]. destruct (UDP.conn t); eauto.
Qed.
Next Obligation.
  intros Hz addr m t Hm [l Hl]. destruct (Encode_total m Hm) as [d E]. cbn. unfold UDP.Send.
  rewrite E, bind_Ret, Hl. cbn. eauto.
Qed.
Next Obligation.
  intros Hz ms ws ch Hf. revert ch. cbn.
  induction Hf as [|m w ms ws (Hm & (d & Ed & Hd) & net & a & t & t' & Es) _ IH]; intros ch; [done|].
  apply (udp_Send_Ok net a) in Es as [Ew _]. assert (d = w) as -> by congruence.
  cbn [UDP.receive foldl]. unfold udp_receive. rewrite take_ge by (unfold zlen, maxUDPPacket in *; lia).
  destruct (Decode_Encode m Hm) as (d & Ed' & Ed2 & _). assert (d = w) as -> by congruence.
  rewrite Ed2, !bind_Ret. apply IH.
Qed.

#[export] Instance tcp_transport `{Zlib} : Transport TCP.Transport tcp_error := {|
  tr_Send := TCP.Send; tr_receive := TCP.receive; tr_LocalAddr := TCP.LocalAddr |}.

(** The length field holds the length modulo [2^32]. *)
Lemma makeFrame_total data : makeFrame data = Ret (le_bytes 4 (wrap 32 (zlen data)) ++ data).
Proof.
  unfold makeFrame. cbv zeta.
  change (replicate (4 + length data) Byte.x00) with ([] ++ replicate (4 + length data) Byte.x00).
  rewrite PutUint_front; [|done|rewrite length_replicate; lia]. rewrite bind_Ret, drop_replicate.
  rewrite copy_at_front; [done|zlia|rewrite length_replicate; lia].
Qed.

Lemma tcp_Send_data `{Zlib} dial_ok write_ok a m p d :
  Encode m = Ret d ->
  exists p' r, tcp_Send dial_ok write_ok a m p = Ret (p', r) /\
    (dial_ok = true -> write_ok = true -> exists w, r = Ok w) /\
    forall w, r = Ok w -> w = le_bytes 4 (wrap 32 (zlen d)) ++ d.
Proof.
  intros E. unfold tcp_Send. rewrite E, bind_Ret, makeFrame_total, bind_Ret.
  destruct (getOrCreateConn a p) as [tc p1].
  destruct (tc_conn tc), dial_ok, write_ok; cbn; do 2 eexists; split_and!; try reflexivity; try done;
    solve [eauto|congruence].
Qed.

Lemma TCP_Send_data `{Zlib} net a m t d :
  Encode m = Ret d ->
  exists t' r, TCP.Send net a m t = Ret (t', r) /\
    (reachable net = true -> writable net = true -> exists w, r = Ok w) /\
    forall w, r = Ok w -> w = le_bytes 4 (wrap 32 (zlen d)) ++ d.
Proof.
  intros E. destruct (tcp_Send_data (reachable net) (writable net) a m (TCP.pool t) d E) as (p' & r & Es & Hr).
  unfold TCP.Send. rewrite Es, bind_Ret. eauto.
Qed.

Lemma frames_longer ds : (length ds < S (length (concat (map frame_layout ds))))%nat.
Proof.
  induction ds as [|d ds IH]; [cbn; lia|]. cbn [map concat length]. rewrite length_app.
  unfold frame_layout at 1. rewrite length_app, length_le_bytes. lia.
Qed.

#[export] Program Instance tcp_lawful `{Zlib} : LawfulTransport TCP.Transport tcp_error := {|
  tr_max := MaxFrame; tr_ready t := is_Some (TCP.ln t) |}.
Next Obligation.
  intros Hz net a m t Hm. destruct (Encode_total m Hm) as [d E]. cbn.
  destruct (TCP_Send_data net a m t d E) as (t' & r & Es & _). eauto.
Qed.
Next Obligation.
  intros Hz a m t Hm Hr. destruct (Encode_total m Hm) as [d E]. cbn.
  destruct (TCP_Send_data (mkNet true true) a m t d E) as (t' & r & Es & Hok & _).
  destruct (Hok eq_refl eq_refl) as [w ->]. do 2 eexists. split; [exact Es|].
  unfold TCP.Send in Es. destruct (tcp_Send _ _ _ _ _) as [[p r]|]; [|done].
  by injection Es as <- _.
Qed.
Next Obligation.
  intros Hz ms ws ch Hf. change (TCP.receive ws ch = Ret (foldl (flip push_recv) ch ms)). unfold TCP.receive.
  assert (exists ds, ws = map frame_layout ds /\
    Forall2 (fun m d => Encode m = Ret d /\ encodable m /\ zlen d <= MaxFrame) ms ds) as (ds & -> & Hds).
  { induction Hf as [|m w ms ws (Hm & (d & Ed & Hd) & net & a & t & t' & Es) _ (ds & -> & IH)];
      [by exists []|]. exists (d :: ds). cbn [map].
    destruct (TCP_Send_data net a m t d Ed) as (t1 & r & Es' & _ & Hw).
    change (TCP.Send net a m t = Ret (t', Ok w)) in Es. rewrite Es' in Es. injection Es as -> ->. rewrite (Hw w eq_refl).
    unfold frame_layout. rewrite wrap_small by (unfold is_uint, MaxFrame in *; pose proof (zlen_nonneg d); lia).
    split; [done|]. by constructor. }
  pose proof (Forall2_length _ _ _ Hds) as Hl. pose proof (frames_longer ds).
  by rewrite (handleConn_frames ms ds) by (done || lia).
Qed.

(** * The node's send loop over a transport *)
Section send_loop.
Context {T E : Type} `{!Transport T E}.

(** The inner loop of [sendLoop]; the bytes that went out, by address *)
Fixpoint send_wire (fuel : nat) (net : string -> WireMessage -> Net) (t : T) (n : Node)
    : outcome (list (string * bytes) * T * Node) :=
  match fuel with
  | O => Ret ([], t, n)
  | S fuel =>
      '(m, sq) ← Pop (n_sq n);
      let n' mc := mkNode (n_id n) (n_pm n) sq (n_rt n) mc (seqCounters n) in
      match m with
      | None => Ret ([], t, n' (n_mc n))
      | Some msg =>
          match Get (To msg) (n_pm n) with
          | None => send_wire fuel net t (n' (n_mc n))
          | Some peer =>
              '(t, r) ← tr_Send (net (Addr peer) msg) (Addr peer) msg t;
              match r with
              | Ok w =>
                  '(out, t, n) ← send_wire fuel net t (n' (RecordSend msg (wireBytes msg) <$> n_mc n));
                  Ret ((Addr peer, w) :: out, t, n)
              | Err _ => send_wire fuel net t (n' (RecordSendError <$> n_mc n))
              end
          end
      end
  end.

(** The transmissions to [addr] *)
Definition to_addr {A} (addr : string) (out : list (string * A)) : list A :=
  omap (fun x => if decide (x.1 = addr) then Some x.2 else None) out.

(** What one transmission put on the wire *)
Definition sent_as (x : string * WireMessage) (y : string * bytes) : Prop :=
  y.1 = x.1 /\ exists net addr t t', tr_Send net addr x.2 t = Ret (t', Ok y.2).

Lemma sent_as_to_addr addr out ws :
  Forall2 sent_as out ws ->
  Forall2 (fun m w => exists net addr t t', tr_Send net addr m t = Ret (t', Ok w))
          (to_addr addr out) (to_addr addr ws).
Proof.
  induction 1 as [|[a m] [b w] out ws [Hab Hs] _ IH]; [done|]. cbn in Hab. subst b.
  unfold to_addr. cbn. case_decide; [by constructor|done].
Qed.
End send_loop.

Section lawful.
Context `{LawfulTransport T E}.

(** With a network that answers every call, the loop does what [send_pending]
    does, and hands each message to the transport. *)
Lemma send_wire_pending fuel n t out n' :
  send_pending fuel (fun _ _ => true) n = Ret (out, n') ->
  Forall encodable out.*2 -> tr_ready t ->
  exists ws t', send_wire fuel all_good t n = Ret (ws, t', n') /\ tr_ready t' /\ Forall2 sent_as out ws.
Proof.
  revert n t out. induction fuel as [|fuel IH]; intros n t out; cbn [send_pending send_wire].
  { intros [= <- <-] _ Ht. eauto. }
  destruct (Pop (n_sq n)) as [[[msg|] sq]|]; rewrite ?bind_Ret; [| |done].
  2:{ intros [= <- <-] _ Ht. eauto. }
  cbv beta zeta. destruct (Get (To msg) (n_pm n)) as [peer|]; [|by apply IH].
  destruct (send_pending fuel _ _) as [[out1 n1]|] eqn:E1; rewrite ?bind_Ret; [|done].
  intros [= <- <-] [Hm Ho]%Forall_cons Ht.
  destruct (law_Send_good (Addr peer) msg t Hm Ht) as (t1 & w & Es & Ht1).
  change (all_good (Addr peer) msg) with (mkNet true true). rewrite Es, bind_Ret.
  destruct (IH _ t1 out1 E1 Ho Ht1) as (ws & t2 & -> & Ht2 & Hf). rewrite bind_Ret.
  do 2 eexists. split; [reflexivity|]. split; [done|]. constructor; [|done]. split; [done|]. eauto.
Qed.
(** What arrives at one address *)
Lemma receive_sent addr out ws ch :
  Forall2 sent_as out ws ->
  Forall (fun x => encodable x.2 /\ exists d, Encode x.2 = Ret d /\ zlen d <= tr_max) out ->
  tr_receive (to_addr addr ws) ch = Ret (foldl (flip push_recv) ch (to_addr addr out)).
Proof.
  intros Hs Hf. apply law_receive.
  induction Hs as [|[a m] [b w] out ws [Hab Hs] _ IH]; [constructor|].
  apply Forall_cons in Hf as [[Hm Hd] Hf]. cbn in *. subst b. specialize (IH Hf).
  unfold to_addr in *. cbn. case_decide; [|done]. by constructor.
Qed.
End lawful.

Lemma transmissions_fit (P : WireMessage -> Prop) tr pm s :
  Forall (fun e => P e.1) s -> Forall (fun x => P x.2) (omap (transmission tr pm) s).
Proof.
  intros Hs. apply Forall_forall. intros x (e & He & Ht)%list_elem_of_omap.
  apply (proj1 (Forall_forall _ _) Hs e) in He. unfold transmission in Ht.
  destruct (Get _ _) as [p|]; cbn in Ht; [|done]. destruct (tr _ _); [|done]. by injection Ht as <-.
Qed.

(** * Properties *)

(** C10: two nodes joined by a transport that keeps the laws of the interface, as
    the UDP and the TCP one do.  When the queued messages can be encoded and fit
    the transport ([tr_max] bytes) and the network answers every call, the send
    loop empties the queue, and when the receive loop at an address has read
    what is transmitted to it, the receive channel there holds the last
    messages, as many as its capacity, of exactly those queued for that address,
    in priority order and oldest first within a priority: all of them if they
    are no more than the capacity, and otherwise the first ones are lost. *)
Theorem node_to_node_in_order `{LawfulTransport T E} (t : T) n s fuel addr bufSize :
  queue_ok (n_sq n) -> abstracts (n_sq n) s -> (length s < fuel)%nat -> tr_ready t ->
  Forall (fun e => encodable e.1 /\ exists d, Encode e.1 = Ret d /\ zlen d <= tr_max) s ->
  exists ws t' n' ch,
    send_wire fuel all_good t n = Ret (ws, t', n') /\ sq_h (n_sq n') = [] /\
    tr_receive (to_addr addr ws) (New_recvCh bufSize) = Ret ch /\
    rc_buf ch = last_n (Z.to_nat (rc_cap (New_recvCh bufSize)))
                  (to_addr addr (omap (transmission (fun _ _ => true) (n_pm n)) s)).
Proof.
  intros Hok Ha Hf Ht Hs.
  destruct (send_pending_service_order (fun _ _ => true) fuel n s Hok Ha Hf) as (n' & E1 & Hh & _).
  pose proof (transmissions_fit (fun m => encodable m /\ exists d, Encode m = Ret d /\ zlen d <= tr_max)
    (fun _ _ => true) (n_pm n) s Hs) as Hfit.
  destruct (send_wire_pending fuel n t _ _ E1) as (ws & t' & Ew & _ & Hsent);
    [apply Forall_fmap; by eapply Forall_impl; [exact Hfit|intros x []]|done|].
  do 4 eexists. split; [exact Ew|]. split; [done|]. split; [by apply receive_sent|].
  by apply push_recv_foldl, New_recvCh_wf.
Qed.

Definition bound_tcp : TCP.Transport := TCP.mkTCP ":9001" (Some "10.0.0.1:9001") (New_recvCh 256) ∅.

(** The two messages the node of the queue's example holds, over TCP *)
Lemma node_to_node_in_order_witness :
  exists ws t' n' ch,
    send_wire (Transport0 := @tcp_transport rle_zlib) 3 all_good bound_tcp loaded_node = Ret (ws, t', n') /\ sq_h (n_sq n') = [] /\
    tr_receive (Transport := @tcp_transport rle_zlib) (to_addr "host:1" ws) (New_recvCh 8) = Ret ch /\
    rc_buf ch = [prio_message PriorityCollision; prio_message PriorityCollision].
Proof.
  apply (@node_to_node_in_order _ _ rle_zlib _ tcp_lawful bound_tcp loaded_node full_entries 3 "host:1" 8);
    [apply full_queue_ok|apply full_queue_ok|cbn; lia|by eexists|].
  repeat constructor; try (apply (bool_decide_unpack _); vm_compute; exact I);
    eexists; (split; [vm_compute; reflexivity|]); vm_compute; discriminate.
Defined.
